(* ===== verification/_CoqProject ===== *)
-Q . S2P
Prelude.v
GoFiles.v
GoFlags.v
ChordUtil.v
ChordNode.v
ChordRing.v
ChordFiles.v
GoProg.v
ChordRPC.v
ChordSafety.v
ChordLookup.v
ChordStore.v
ChordMain.v
ChordArgs.v
ChordDurable.v
ChordGrowth.v
ChordRepair.v
ChordSystem.v
ChordLocks.v
MRCoordinator.v
MRProtocol.v
MRCorrect.v
MRFaults.v
MRData.v
MRWorker.v
MRJobs.v
MRApps.v
MRPrograms.v
Raft.v
RaftVotes.v
RaftNet.v
RaftElection.v
PorcBitset.v
PorcChecker.v
PorcList.v
PorcSound.v
PorcComplete.v
PorcCheck.v
PorcVisual.v
PorcLocality.v
HttpServer.v
HttpLoop.v
HttpProxy.v
HttpWire.v
LabRPC.v
RaftConfig.v
RaftConfigLog.v
LabGob.v
Clerks.v
KVConfig.v
ShardKVConfig.v
ShardCtrlerConfig.v
OldPrograms.v
TourOfGo.v
