(* ===== verification/Prelude.v ===== *)
(** * Verification of the TDA596 labs

    The repository holds three Go programs of a distributed-systems course and the
    framework of a fourth, and this library models their code and proves what makes
    it correct.  Every definition is a translation of the named source; code that is
    not in the repository (operating system, network, net/http, crypto) appears as
    a class or a parameter with its documented laws.

    ** The programs and the files that model them

    - Lab3_Chord, a distributed hash table ([chord.go], [chordRPC.go], [rpc.go],
      [chordTypes.go], [chordUtil.go]).  [ChordUtil]: identifiers, [between], ring
      arithmetic.  [ChordNode]: the state [NodeInfo] and the handlers of a node
      (find, Join, Stabilize, Notify, ...) as functions of the state.  [ChordRing]:
      [find] against the owner of an identifier on a correct ring.  [ChordFiles]:
      stored files, encryption, flags.  [GoProg]: programs with remote calls as a
      free monad, and a world of machines that runs them.  [ChordRPC]: the calling
      side (CallJoin, CallStabilize, FixFingers, resolveIdentifier, duplication).
      [ChordSafety], [ChordLookup], [ChordStore]: their theorems.  [ChordMain]: main
      and the commands.  [ChordArgs]: the flags of a node.  [ChordDurable]: a stored file when its owner crashes.
      [ChordGrowth], [ChordRepair]: joins into and crashes in a ring of any size.
      [ChordSystem]: any interleaving of the goroutines of any number of nodes.
      [ChordLocks]: the same with the mutex of each node, including the code that keeps
      it during a remote call.
    - Lab2_MapReduce/src/mr.  [MRCoordinator]: the state and RPC handlers of the
      coordinator and its timer tick.  [MRProtocol], [MRCorrect], [MRFaults]: the
      coordinator driven by any sequence of calls, failures included.  [MRData]:
      hashing, buckets, grouping, the applications under mrapps and the sequential
      program.  [MRWorker], [MRJobs]: the worker and its file and RPC effects.
      [MRApps]: the applications that count running tasks and jobs through marker
      files, as interleaved processes over one directory.  [MRPrograms]: the main
      programs (mrsequential, mrcoordinator, mrworker) with their arguments, plugins
      and files.
    - Lab2_MapReduce/src/raft.  [Raft]: the peer (election only, as in the source)
      and the persister.  [RaftVotes]: one peer over any sequence of events.
      [RaftNet]: peers exchanging messages that may be delayed.  [RaftElection]: when
      they elect at most one leader per term.  [RaftConfig]: the
      harness of the tests ([config.go]), which starts, crashes and connects peers
      over the simulated network.  [RaftConfigLog]: what the harness checks.
    - Lab2_MapReduce/src/labrpc and labgob.  [LabRPC]: the simulated network, each
      call a state machine.  [LabGob]: the checks around gob encoding.
    - Lab2_MapReduce/src/kvraft, shardctrler and shardkv, labs that were not done.
      [Clerks]: the clerks and the skeletons of the servers.  [KVConfig]: the harness
      of kvraft with its partitions.  [ShardKVConfig]: the harness of shardkv with its
      groups and controllers.  [ShardCtrlerConfig]: the harness of shardctrler, against
      the specification of a network of servers, clerks and open links.
    - Lab2_MapReduce/src/porcupine and models.  [PorcBitset]: bit sets.
      [PorcChecker]: the linked list of entries in an explicit heap and the search
      [checkSingle].  [PorcList]: lift and unlift.  [PorcSound]: a true answer of the
      search is a linearization.  [PorcComplete]: the search ends, and finds one if
      there is one.  [PorcCheck]: the entry points and the key/value model.
      [PorcLocality]: checking key by key is checking the store.  [PorcVisual]: the
      data of the visualization.
    - Lab1_HTTP_server.  [HttpServer]: request handling.  [HttpLoop]: the accept
      loop with its mutex and condition variable, as threads.  [HttpProxy]: the
      proxy.  [HttpWire]: both with the bytes on their connections, and the two
      programs with their flags.
    - [OldPrograms]: the command-line programs in Lab2_MapReduce/src/main that belong to
      packages that are not in the repository, over interfaces for these packages.
      [TourOfGo]: the exercises in ATourOfGo.

    [Prelude] (this file) has the outcome monad (return, panic, exit of the
    process), slices with their bounds checks, counted loops, and shared lemmas;
    [GoFiles] the operations of package os as a class with laws and an in-memory
    instance; [GoFlags] what the programs use of strconv and flag.

    ** What the theorems show

    - Chord: no reachable state of any system of nodes panics and node states stay
      well formed; [find] returns the owner on a correct ring; two nodes form a ring
      by join and stabilization, a ring of any size grows by joins and heals after the
      crash of a node; stored files are read back, also after their owner
      crashed and its successor took over the replica; lookups end within a bounded
      number of calls; nodes block each other only in a circle of nodes that keep their
      mutex during a call, and concurrent Lookup commands do; every configuration can be
      given on the command line; and the places where the code misses the owner or a
      join never ends.
    - MapReduce: the coordinator's state invariant under all calls; jobs are handed
      out, timed out and reissued; when Done holds all outputs were delivered; the
      distributed computation equals the sequential one; what the sequential program
      writes; the coordinator program ends with the outputs on disk; the timing
      applications report exactly the parallelism and the number of jobs there was;
      and where a late report loses data.
    - Raft: one vote per term; how a peer becomes leader; at most one leader per term
      under three conditions on the schedule; and the races that elect two leaders in
      one term without them.
    - Porcupine: the search ends and decides linearizability, and so does the entry
      point for histories of a whole key/value store.
    - labrpc, labgob, harnesses: a handler runs at most once per call; the harness
      connects exactly the peers it says (for shardctrler as a refinement of a simple
      network, over all sequences of operations), its checks stop a test exactly on
      disagreement, its partitions separate; types are checked once, also recursive
      ones; and the clerks reach a steady service.
    - HTTP: the limit on connections, no lost wake-up, POST/GET round trip, what the
      proxy forwards, that a client reads through the proxy what the server sends, and
      the connection leak that blocks the proxy.
    - The small programs: which server each starts for which arguments; the words,
      numbers and pictures of the exercises.

    ** Bounds and fuel

    Integers are Z with the wrap-around written out where the code can reach it
    (hashes, bit sets, counters).  Loops over slices recurse on the slice or on the
    number of rounds.  Fuel appears in the search of the checker, where [None] is
    out of fuel and [PorcComplete] gives fuel that is enough; in the walk over types,
    where the number of types is enough; in the retry loops of the clerks, where
    [None] is still trying; in [finish_tasks], where [None] is goroutines left over and the
    joins of [ChordGrowth] are done within the fuel; and in [length_loop], which follows at
    most as many links as nodes were allocated.  Remote lookups are bounded by the constants of the source.

    ** Not modelled

    The text of the visualization's page (HTML and JavaScript in one string constant),
    drawing of random strings and seeds, registering and serving RPC handlers (net/rpc,
    net/http, TLS), and tracing and debug printing, which change no state.  [ChordSystem]
    releases a mutex around every remote call; [ChordLocks] does not. *)

From stdpp Require Export base list gmap strings numbers sorting relations.
From Stdlib Require Export ZArith Lia.

Declare Scope go_scope.
Delimit Scope go_scope with go.

(** ** Results of Go code

    [Ret a]: the code returned [a]; [Panic]: a run-time panic (an index out of
    range, an integer division by zero, an explicit [panic]); [Exit]: the
    process ended through [log.Fatal] or [os.Exit]. *)

Inductive outcome (A : Type) : Type :=
| Ret (a : A)
| Panic
| Exit.

Arguments Ret {A} a.
Arguments Panic {A}.
Arguments Exit {A}.

#[global] Instance outcome_ret : MRet outcome := λ A a, Ret a.
#[global] Instance outcome_bind : MBind outcome := λ A B f m,
  match m with Ret a => f a | Panic => Panic | Exit => Exit end.
#[global] Instance outcome_fmap : FMap outcome := λ A B f m,
  match m with Ret a => Ret (f a) | Panic => Panic | Exit => Exit end.

Definition returns {A} (m : outcome A) : Prop := ∃ a, m = Ret a.

#[global] Instance outcome_eq_dec {A} `{EqDecision A} : EqDecision (outcome A).
Proof. solve_decision. Defined.

(** ** Slices

    Go indexes a slice with an [int]; an index outside [0 .. len-1] panics, on
    a read and on a write alike. *)

Definition slice_get {A} (l : list A) (i : Z) : outcome A :=
  if (i <? 0)%Z then Panic
  else match l !! Z.to_nat i with Some x => Ret x | None => Panic end.

Definition slice_set {A} (l : list A) (i : Z) (x : A) : outcome (list A) :=
  if (i <? 0)%Z then Panic
  else match l !! Z.to_nat i with Some _ => Ret (<[Z.to_nat i := x]> l) | None => Panic end.

(** [len(s)] *)
Definition go_len {A} (l : list A) : Z := Z.of_nat (length l).

Definition str_len (s : string) : Z := Z.of_nat (String.length s).

Notation "l .[ i ]" := (slice_get l i) (at level 1, left associativity, format "l .[ i ]") : go_scope.
Notation "l .[ i <- x ]" := (slice_set l i x) (at level 1, left associativity, format "l .[ i  <-  x ]") : go_scope.

(** [for i := range s]: the body for the indexes [i], [i+1], ... ([k] of them) on
    a state, and the variant that stops at the first index with a result. *)
Fixpoint for_range {S} (k : nat) (i : Z) (body : Z → S → outcome S) (s : S) : outcome S :=
  match k with
  | O => Ret s
  | Datatypes.S k' => s' ← body i s; for_range k' (i + 1) body s'
  end.

Fixpoint for_find {R} (k : nat) (i : Z) (body : Z → outcome (option R)) : outcome (option R) :=
  match k with
  | O => Ret None
  | Datatypes.S k' =>
      o ← body i;
      match o with Some r => Ret (Some r) | None => for_find k' (i + 1) body end
  end.

(** [for _, x := range s]. *)
Fixpoint for_each {A St} (l : list A) (body : A → St → outcome St) (s : St) : outcome St :=
  match l with [] => Ret s | x :: l' => s ← body x s; for_each l' body s end.

(** ** Machine integers *)

Definition uint32_max : Z := 2 ^ 32.
Definition uint64_max : Z := 2 ^ 64.
Definition wrap32 (x : Z) : Z := x mod uint32_max.
Definition wrap64 (x : Z) : Z := x mod uint64_max.

(** ** Shared lemmas *)

Lemma bind_Ret_inv {A B} (m : outcome A) (f : A → outcome B) b :
  (m ≫= f) = Ret b → ∃ a, m = Ret a ∧ f a = Ret b.
Proof. destruct m; simpl; naive_solver. Qed.

Lemma Ret_inj {A} (a b : A) : Ret a = Ret b → a = b.
Proof. congruence. Qed.

Lemma Ret_pair_inj {A B} (a c : A) (b d : B) : Ret (a, b) = Ret (c, d) → a = c ∧ b = d.
Proof. intros [= -> ->]. done. Qed.

Lemma returns_Ret {A} (a : A) : returns (Ret a).
Proof. by exists a. Qed.

Lemma returns_bind {A B} (m : outcome A) (f : A → outcome B) :
  returns m → (∀ a, m = Ret a → returns (f a)) → returns (m ≫= f).
Proof. intros [a ->] H. by apply H. Qed.

Lemma slice_get_Ret {A} (l : list A) i x :
  slice_get l i = Ret x ↔ (0 ≤ i)%Z ∧ l !! Z.to_nat i = Some x.
Proof.
  unfold slice_get. destruct (Z.ltb_spec i 0).
  - split; [done | lia].
  - destruct (l !! Z.to_nat i) eqn:E; naive_solver.
Qed.

Lemma slice_get_nat {A} (l : list A) (i : nat) :
  slice_get l (Z.of_nat i) = match l !! i with Some x => Ret x | None => Panic end.
Proof. unfold slice_get. destruct (Z.ltb_spec (Z.of_nat i) 0); [lia|]. by rewrite Nat2Z.id. Qed.

Lemma slice_set_Ret {A} (l l' : list A) i x :
  slice_set l i x = Ret l' ↔
  (0 ≤ i < go_len l)%Z ∧ l' = <[Z.to_nat i := x]> l.
Proof.
  unfold slice_set, go_len. destruct (Z.ltb_spec i 0).
  - split; [done | lia].
  - destruct (l !! Z.to_nat i) eqn:E.
    + apply lookup_lt_Some in E. split; [intros [= <-]; split; [lia|done] | by intros [_ ->]].
    + apply lookup_ge_None in E. split; [done | lia].
Qed.

Lemma slice_get_ok {A} (l : list A) i :
  (0 ≤ i < go_len l)%Z → ∃ x, slice_get l i = Ret x ∧ l !! Z.to_nat i = Some x.
Proof.
  intros Hi. unfold go_len in Hi.
  destruct (lookup_lt_is_Some_2 l (Z.to_nat i)) as [x Hx]; [lia|].
  exists x. split; [|done]. apply slice_get_Ret. split; [lia|done].
Qed.

Lemma slice_set_ok {A} (l : list A) i x :
  (0 ≤ i < go_len l)%Z → slice_set l i x = Ret (<[Z.to_nat i := x]> l).
Proof. intros Hi. by apply slice_set_Ret. Qed.

(** A loop whose body keeps an invariant that counts the iterations. *)
Lemma for_range_inv {S} (I : nat → S → Prop) (body : Z → S → outcome S) k i s :
  I i s → (∀ j s, (i ≤ j < i + k)%nat → I j s → ∃ s', body (Z.of_nat j) s = Ret s' ∧ I (Datatypes.S j) s') →
  ∃ s', for_range k (Z.of_nat i) body s = Ret s' ∧ I (i + k)%nat s'.
Proof.
  revert i s. induction k as [|k IH]; intros i s Hs Hstep; simpl.
  - exists s. by rewrite Nat.add_0_r.
  - destruct (Hstep i s) as (s1 & -> & Hs1); [lia|done|]. simpl.
    replace (Z.of_nat i + 1)%Z with (Z.of_nat (Datatypes.S i)) by lia.
    destruct (IH (Datatypes.S i) s1 Hs1) as (s' & -> & Hs'); [|exists s'; split; [done|]].
    + intros j s2 Hj. apply Hstep. lia.
    + by replace (i + Datatypes.S k)%nat with (Datatypes.S i + k)%nat by lia.
Qed.

(** The same when the body may also end the process. *)
Lemma for_range_inv_Exit {S} (I : nat → S → Prop) (body : Z → S → outcome S) k i s :
  I i s →
  (∀ j s, (i ≤ j < i + k)%nat → I j s → (∃ s', body (Z.of_nat j) s = Ret s' ∧ I (Datatypes.S j) s') ∨ body (Z.of_nat j) s = Exit) →
  (∃ s', for_range k (Z.of_nat i) body s = Ret s' ∧ I (i + k)%nat s') ∨ for_range k (Z.of_nat i) body s = Exit.
Proof.
  revert i s. induction k as [|k IH]; intros i s Hs Hstep; simpl.
  - left. exists s. by rewrite Nat.add_0_r.
  - destruct (Hstep i s) as [(s1 & -> & Hs1)| ->]; [lia|done| |by right]. simpl.
    replace (Z.of_nat i + 1)%Z with (Z.of_nat (Datatypes.S i)) by lia. rewrite <-Nat.add_succ_comm.
    apply IH; [done|]. intros j s2 Hj. apply Hstep. lia.
Qed.

(** What holds of a loop that returned. *)
Lemma for_range_Ret {S} (I : nat → S → Prop) (body : Z → S → outcome S) k i s s' :
  I i s → (∀ j s s', (i ≤ j < i + k)%nat → I j s → body (Z.of_nat j) s = Ret s' → I (Datatypes.S j) s') →
  for_range k (Z.of_nat i) body s = Ret s' → I (i + k)%nat s'.
Proof.
  revert i s. induction k as [|k IH]; intros i s Hs Hstep; cbn [for_range].
  - intros [= <-]. by rewrite Nat.add_0_r.
  - intros (s1 & H1 & H)%bind_Ret_inv. replace (Z.of_nat i + 1)%Z with (Z.of_nat (Datatypes.S i)) in H by lia. rewrite <-Nat.add_succ_comm.
    apply (IH (Datatypes.S i) s1); [apply (Hstep i s); [lia|done|done]| |done]. intros j s2 s3 Hj. apply Hstep. lia.
Qed.

(** A search: the first index whose test succeeds decides the result. *)
Lemma for_find_spec {R} (body : Z → outcome (option R)) (t : nat → option R) k i :
  (∀ j, (i ≤ j < i + k)%nat → body (Z.of_nat j) = Ret (t j)) →
  (∃ j r, (i ≤ j < i + k)%nat ∧ t j = Some r ∧ (∀ j', (i ≤ j' < j)%nat → t j' = None) ∧
     for_find k (Z.of_nat i) body = Ret (Some r)) ∨
  ((∀ j, (i ≤ j < i + k)%nat → t j = None) ∧ for_find k (Z.of_nat i) body = Ret None).
Proof.
  revert i. induction k as [|k IH]; intros i Hb; simpl; [right; split; [lia|done]|].
  rewrite Hb by lia. simpl. destruct (t i) as [r|] eqn:E.
  - left. exists i, r. repeat split; [lia..|done|lia].
  - replace (Z.of_nat i + 1)%Z with (Z.of_nat (Datatypes.S i)) by lia.
    destruct (IH (Datatypes.S i)) as [(j & r & Hj & Ht & Hbef & Hf)|[Hall Hf]].
    + intros j Hj. apply Hb. lia.
    + left. exists j, r. split; [lia|]. split; [done|]. split; [|done]. intros j' Hj'.
      destruct (decide (j' = i)) as [->|]; [done|]. apply Hbef. lia.
    + right. split; [|done]. intros j Hj. destruct (decide (j = i)) as [->|]; [done|]. apply Hall. lia.
Qed.

Create HintDb go discriminated.
#[export] Hint Resolve returns_Ret returns_bind : go.
#[export] Hint Extern 5 (_ ≤ _)%Z => lia : go.
#[export] Hint Extern 5 (_ < _)%Z => lia : go.

(** Inverts a hypothesis [m = Ret b] about a monadic body, one bind at a time. *)
Ltac go_inv :=
  repeat match goal with
  | H : (_ ≫= _) = Ret _ |- _ => apply bind_Ret_inv in H as (? & ? & ?)
  | H : Ret (_, _) = Ret (_, _) |- _ => apply Ret_pair_inj in H as [? ?]; subst
  | H : Ret _ = Ret _ |- _ => apply Ret_inj in H; subst
  | H : (let (_, _) := ?x in _) = Ret _ |- _ => is_var x; destruct x
  | H : mret _ = Ret _ |- _ => unfold mret, outcome_ret in H
  | H : Panic = Ret _ |- _ => discriminate H
  | H : Exit = Ret _ |- _ => discriminate H
  end.

(** [sort.Strings]: equal strings are the same, so the result is determined. *)
Definition sort_Strings : list string → list string := merge_sort String.le.

Lemma sort_Strings_perm l l' : l ≡ₚ l' → sort_Strings l = sort_Strings l'.
Proof.
  intros Hp. apply (Sorted_unique String.le).
  - apply Sorted_merge_sort, _.
  - apply Sorted_merge_sort, _.
  - unfold sort_Strings. by rewrite !merge_sort_Permutation.
Qed.
