(* ===== verification/GoFiles.v ===== *)
(** * Files as an interface

    The operations of package [os] the programs call, as a class over an
    abstract tree of files, the documented laws the proofs rely on, and an
    in-memory implementation that satisfies them. *)

From S2P Require Import Prelude.
From Stdlib Require Import Ascii.
Open Scope string_scope.
Open Scope Z_scope.

(** ** Strings *)

(** [strings.Split(s, string(c))] for a one-byte separator: never empty. *)
Fixpoint Split (c : ascii) (s : string) : list string :=
  match s with
  | EmptyString => [""]
  | String x s' =>
      if decide (x = c) then "" :: Split c s'
      else match Split c s' with
           | w :: ws => String x w :: ws
           | [] => [String x ""]
           end
  end.

Fixpoint no_char (c : ascii) (s : string) : bool :=
  match s with
  | EmptyString => true
  | String x s' => bool_decide (x ≠ c) && no_char c s'
  end.

Lemma no_char_app c s t : no_char c (s +:+ t) = no_char c s && no_char c t.
Proof. induction s as [|x s IH]; simpl; [done|]. change (s +:+ t) with (String.append s t) in IH. by rewrite IH, andb_assoc. Qed.

(** The one element of a path that is a file name: not empty, without slash. *)
Definition plain_name (s : string) : bool := bool_decide (s ≠ "") && no_char "/" s.

Definition has_prefix (p s : string) : bool := String.prefix p s.

Lemma has_prefix_spec p s : has_prefix p s = true ↔ ∃ r, s = p +:+ r.
Proof.
  unfold has_prefix. revert s. induction p as [|c p IH]; intros s; [by split; [exists s|destruct s]|].
  destruct s as [|x s]; simpl; [split; [done|intros (r & Hr); by destruct r]|].
  destruct (Ascii.ascii_dec c x) as [<-|Hne]; [|split; [done|intros (r & [= Hx])]; congruence].
  rewrite IH. split; intros (r & Hr); exists r; [by rewrite Hr|by injection Hr].
Qed.

Lemma has_prefix_app p s t : has_prefix (p +:+ s) (p +:+ t) = has_prefix s t.
Proof.
  induction p as [|c p IH]; [done|]. unfold has_prefix in *. simpl. by destruct (Ascii.ascii_dec c c).
Qed.

(** A plain name is no path below another one. *)
Lemma plain_not_below p x : plain_name x = true → has_prefix (p +:+ "/") x = false.
Proof.
  intros [_ Hx]%andb_true_iff. apply not_true_is_false. intros [r ->]%has_prefix_spec.
  rewrite !no_char_app in Hx. by rewrite andb_comm, andb_assoc, andb_comm in Hx.
Qed.

(** ** Files *)

(** What [os.Mkdir] reports. *)
Inductive mkdir_result := MkdirOk | MkdirExists | MkdirError.

(** Operations of package [os] on an open tree [FS].  [None] and [false] are the
    error results; [file_Write] may have written a part when it fails. *)
Class FileSystem (FS : Type) := {
  os_Create : string → FS → option FS;
  file_Write : string → string → FS → FS * bool;
  os_Open : string → FS → bool;
  io_ReadAll : string → FS → option string;
  os_Remove : string → FS → FS;
  os_RemoveAll : string → FS → FS;
  os_Rename : string → string → FS → option FS;
  os_ReadDir : string → FS → option (list string);
  os_Mkdir : string → FS → FS * mkdir_result
}.

(** [file_Write p] is a write through the handle that created [p]: a file starts
    empty and grows by what is written; neither operation changes what another
    path reads. *)
Class FileSystemLaws (FS : Type) `{FileSystem FS} := {
  create_empty : ∀ p fs fs1, os_Create p fs = Some fs1 → os_Open p fs1 = true ∧ io_ReadAll p fs1 = Some "";
  write_append : ∀ p c fs c0 fs2,
    os_Open p fs = true → io_ReadAll p fs = Some c0 → file_Write p c fs = (fs2, true) →
    os_Open p fs2 = true ∧ io_ReadAll p fs2 = Some (c0 +:+ c);
  create_other : ∀ p q fs fs1, p ≠ q → os_Create p fs = Some fs1 →
    os_Open q fs1 = os_Open q fs ∧ io_ReadAll q fs1 = io_ReadAll q fs;
  write_other : ∀ p q c fs, p ≠ q →
    os_Open q (file_Write p c fs).1 = os_Open q fs ∧ io_ReadAll q (file_Write p c fs).1 = io_ReadAll q fs
}.

Lemma write_read {FS} `{FileSystemLaws FS} p c fs fs1 fs2 :
  os_Create p fs = Some fs1 → file_Write p c fs1 = (fs2, true) →
  os_Open p fs2 = true ∧ io_ReadAll p fs2 = Some c.
Proof. intros Hc Hw. destruct (create_empty p fs fs1 Hc) as [Ho Hr]. by apply (write_append p c fs1 "" fs2). Qed.

(** Moving and listing: a readable file moves with its content, and paths that are
    neither the two names nor below one of them are as before; a directory lists
    each file in it once. *)
Class DirLaws (FS : Type) `{FileSystem FS} := {
  rename_moves : ∀ p q c fs fs', p ≠ q → os_Open p fs = true → io_ReadAll p fs = Some c →
    os_Rename p q fs = Some fs' → os_Open q fs' = true ∧ io_ReadAll q fs' = Some c;
  rename_other : ∀ p q x fs fs', x ≠ p → x ≠ q → has_prefix (p +:+ "/") x = false → has_prefix (q +:+ "/") x = false →
    os_Rename p q fs = Some fs' → os_Open x fs' = os_Open x fs ∧ io_ReadAll x fs' = io_ReadAll x fs;
  readdir_lists : ∀ d fs l, os_ReadDir d fs = Some l →
    NoDup l ∧ ∀ x, plain_name x = true → x ∈ l ↔ os_Open (d +:+ "/" +:+ x) fs = true
}.

(** ** An in-memory file system *)

(** Files by path and the existing directories, each with its trailing slash. *)
Record MemFS := mkMemFS { mf_files : gmap string string; mf_dirs : gset string }.

(** The directory part of a path, up to and including the last "/". *)
Fixpoint dir_of (s : string) (cur acc : string) : string :=
  match s with
  | EmptyString => acc
  | String c s' => let cur' := cur +:+ String c "" in
                   if decide (c = "/"%char) then dir_of s' cur' cur' else dir_of s' cur' acc
  end.

#[global] Instance mem_fs : FileSystem MemFS := {|
  os_Create p fs :=
    if decide (dir_of p "" "" = "" ∨ dir_of p "" "" ∈ mf_dirs fs)
    then Some (mkMemFS (<[p := ""]> (mf_files fs)) (mf_dirs fs)) else None;
  file_Write p c fs := (mkMemFS (<[p := default "" (mf_files fs !! p) +:+ c]> (mf_files fs)) (mf_dirs fs), true);
  os_Open p fs := bool_decide (is_Some (mf_files fs !! p));
  io_ReadAll p fs := mf_files fs !! p;
  os_Remove p fs := mkMemFS (delete p (mf_files fs)) (mf_dirs fs);
  os_RemoveAll d fs :=
    mkMemFS (filter (λ kv, has_prefix (d +:+ "/") kv.1 = false) (mf_files fs)) (mf_dirs fs ∖ {[d +:+ "/"]});
  os_Rename p q fs :=
    if decide (dir_of q "" "" = "" ∨ dir_of q "" "" ∈ mf_dirs fs)
    then c ← mf_files fs !! p; Some (mkMemFS (<[q := c]> (delete p (mf_files fs))) (mf_dirs fs)) else None;
  os_ReadDir d fs :=
    if decide (d +:+ "/" ∈ mf_dirs fs) then
      Some ((λ kv, String.substring (String.length d + 1) (String.length kv.1) kv.1)
              <$> filter (λ kv, has_prefix (d +:+ "/") kv.1 = true) (map_to_list (mf_files fs)))
    else None;
  os_Mkdir d fs :=
    if decide (d +:+ "/" ∈ mf_dirs fs) then (fs, MkdirExists)
    else (mkMemFS (mf_files fs) ({[d +:+ "/"]} ∪ mf_dirs fs), MkdirOk)
|}.

#[global] Instance mem_fs_laws : FileSystemLaws MemFS.
Proof.
  split.
  - intros p fs fs1 Hc. simpl in *. case_decide; [|done]. injection Hc as <-. simpl. rewrite lookup_insert_eq.
    split; [|done]. apply bool_decide_eq_true_2. by eexists.
  - intros p c fs c0 fs2 _ Hr Hw. simpl in *. injection Hw as <-. simpl. rewrite lookup_insert_eq, Hr.
    split; [|done]. apply bool_decide_eq_true_2. by eexists.
  - intros p q fs fs1 Hne Hc. simpl in *. case_decide; [|done]. injection Hc as <-. simpl.
    by rewrite lookup_insert_ne.
  - intros p q c fs Hne. simpl. by rewrite lookup_insert_ne.
Qed.

Lemma str_length_app s t : String.length (s +:+ t) = (String.length s + String.length t)%nat.
Proof. induction s as [|c s IH]; simpl; [done|]. exact (f_equal S IH). Qed.

Lemma str_app_assoc (s t u : string) : (s +:+ t) +:+ u = s +:+ t +:+ u.
Proof. induction s as [|c s IH]; simpl; [done|]. exact (f_equal (String c) IH). Qed.

Lemma substring_0 m r : (String.length r ≤ m)%nat → String.substring 0 m r = r.
Proof. revert m. induction r as [|c r IH]; intros [|m] Hm; simpl in *; [done..|lia|]. f_equal. apply IH. lia. Qed.

Lemma substring_app p r m : (String.length r ≤ m)%nat → String.substring (String.length p) m (p +:+ r) = r.
Proof. intros Hm. induction p as [|c p IH]; simpl; [by apply substring_0|done]. Qed.

#[global] Instance mem_dir_laws : DirLaws MemFS.
Proof.
  split.
  - intros p q c fs fs' Hne _ Hr Hmv. simpl in *. case_decide; [|done]. rewrite Hr in Hmv. injection Hmv as <-. simpl.
    rewrite lookup_insert_eq. split; [|done]. apply bool_decide_eq_true_2. by eexists.
  - intros p q x fs fs' Hp Hq _ _ Hmv. simpl in *. case_decide; [|done].
    destruct (mf_files fs !! p) as [c|]; [|done]. injection Hmv as <-. simpl.
    by rewrite lookup_insert_ne, lookup_delete_ne.
  - intros d fs l Hl. simpl in *. case_decide; [|done]. injection Hl as <-.
    assert (Hcut : ∀ k v, (k, v) ∈ filter (λ kv, has_prefix (d +:+ "/") kv.1 = true) (map_to_list (mf_files fs)) →
      k = d +:+ "/" +:+ String.substring (String.length d + 1) (String.length k) k ∧ mf_files fs !! k = Some v).
    { intros k v [Hk Hv%elem_of_map_to_list]%list_elem_of_filter. simpl in Hk. apply has_prefix_spec in Hk as [r ->].
      split; [|done]. change (String.length d + 1)%nat with (String.length d + String.length "/")%nat.
      rewrite <-str_length_app, substring_app, str_app_assoc; [done|]. rewrite str_length_app. lia. }
    split.
    + apply NoDup_fmap_2_strong; [|apply NoDup_filter, NoDup_map_to_list].
      intros [k1 v1] [k2 v2] Hin1%Hcut Hin2%Hcut Heq. simpl in Heq. destruct Hin1 as [E1 L1], Hin2 as [E2 L2].
      assert (k1 = k2) as <- by (rewrite E1, E2; by rewrite Heq). congruence.
    + intros x _. rewrite list_elem_of_fmap, bool_decide_eq_true. split.
      * intros ([k v] & -> & Hin%Hcut). simpl. destruct Hin as [<- ->]. by eexists.
      * intros [v Hv]. exists (d +:+ "/" +:+ x, v). simpl. split.
        -- rewrite <-str_app_assoc. change (String.length d + 1)%nat with (String.length d + String.length "/")%nat.
           rewrite <-str_length_app, substring_app; [done|]. rewrite str_length_app. lia.
        -- apply list_elem_of_filter. split; [|by apply elem_of_map_to_list]. simpl.
           apply has_prefix_spec. exists x. by rewrite str_app_assoc.
Qed.
