(* ===== verification/GoFlags.v ===== *)
(** * Numbers and flags on a command line

    What the programs use of Go's [strconv] ([ParseInt], [Atoi], [ParseBool]) and of
    its [flag] package: flags of type string, int and bool, [flag.Parse] with the
    default behaviour of exiting on an error.  The theorems: [ParseInt] reads back
    every printed [int64] and always gives an [int64], and [flag.Parse] reads back
    every assignment in each of the forms it may be written in. *)

From S2P Require Import Prelude.
From stdpp Require Import pretty.
From Stdlib Require Import Ascii.
Open Scope string_scope.
Open Scope Z_scope.

(** ** [strconv] *)

Definition max_uint64 : Z := 2 ^ 64 - 1.

(** [n] with whether an underscore was seen. *)
Inductive parsed := Num (n : Z) (underscores : bool) | RangeErr | SyntaxErr.

Definition code (c : ascii) : Z := Z.of_nat (nat_of_ascii c).
Definition lower (c : ascii) : Z := Z.lor (code c) 32.
Definition digit_value (c : ascii) : option Z :=
  if (48 <=? code c) && (code c <=? 57) then Some (code c - 48)
  else if (97 <=? lower c) && (lower c <=? 122) then Some (lower c - 87)
  else None.

(** The loop of [ParseUint]: the first character that is no digit or the first digit
    that overflows decides. *)
Fixpoint ParseUint_loop (base : Z) (base0 : bool) (s : string) (n : Z) (underscores : bool) : parsed :=
  match s with
  | EmptyString => Num n underscores
  | String c s' =>
      if bool_decide (c = "_"%char) && base0 then ParseUint_loop base base0 s' n true
      else match digit_value c with
           | None => SyntaxErr
           | Some d =>
               if base <=? d then SyntaxErr
               else if max_uint64 <? n * base + d then RangeErr
               else ParseUint_loop base base0 s' (n * base + d) underscores
           end
  end.

(** A base prefix, where the base is to be found in the number: the base and the rest. *)
Definition base_prefix (s : string) : Z * string :=
  match s with
  | String "0" s' =>
      match s' with
      | String c (String _ _ as s'') =>
          if lower c =? 98 then (2, s'') else if lower c =? 111 then (8, s'') else if lower c =? 120 then (16, s'') else (8, s')
      | _ => (8, s')
      end
  | _ => (10, s)
  end.

(** [underscoreOK]: underscores only between digits, or between a base prefix and a
    digit.  [seen]: what came before is a digit or a prefix, an underscore, or
    something else. *)
Inductive seen := SeenStart | SeenDigit | SeenUnderscore | SeenOther.
Fixpoint underscoreOK_loop (hex : bool) (s : string) (i : seen) : bool :=
  match s with
  | EmptyString => match i with SeenUnderscore => false | _ => true end
  | String c s' =>
      if ((48 <=? code c) && (code c <=? 57)) || (hex && (97 <=? lower c) && (lower c <=? 102)) then underscoreOK_loop hex s' SeenDigit
      else if bool_decide (c = "_"%char) then match i with SeenDigit => underscoreOK_loop hex s' SeenUnderscore | _ => false end
      else match i with SeenUnderscore => false | _ => underscoreOK_loop hex s' SeenOther end
  end.
Definition underscoreOK (s : string) : bool :=
  match s with
  | String "0" (String c s') =>
      if (lower c =? 98) || (lower c =? 111) || (lower c =? 120) then underscoreOK_loop (lower c =? 120) s' SeenDigit
      else underscoreOK_loop false s SeenStart
  | _ => underscoreOK_loop false s SeenStart
  end.

(** [ParseUint(s, base, 64)], with 0 for a base given by the prefix. *)
Definition ParseUint (base : Z) (s : string) : parsed :=
  match s with
  | EmptyString => SyntaxErr
  | _ =>
      let '(b, s') := if base =? 0 then base_prefix s else (base, s) in
      match ParseUint_loop b (base =? 0) s' 0 false with
      | Num n true => if underscoreOK s then Num n true else SyntaxErr
      | r => r
      end
  end.

(** The sign of [ParseInt]. *)
Definition split_sign (s : string) : bool * string :=
  match s with
  | String c s' => if decide (c = "-"%char) then (true, s') else if decide (c = "+"%char) then (false, s') else (false, s)
  | EmptyString => (false, s)
  end.

(** [ParseInt(s, base, 64)]: the number, also when there is an error, and whether there
    is none. *)
Definition ParseInt (base : Z) (s : string) : Z * bool :=
  let '(neg, s) := split_sign s in
  match ParseUint base s with
  | SyntaxErr => (0, false)
  | r =>
      let un := match r with Num n _ => n | _ => max_uint64 end in
      if negb neg && (2 ^ 63 <=? un) then (2 ^ 63 - 1, false)
      else if neg && (2 ^ 63 <? un) then (- 2 ^ 63, false)
      else (if neg then - un else un, match r with Num _ _ => true | _ => false end)
  end.
Definition Atoi (s : string) : Z * bool := ParseInt 10 s.

Definition ParseBool (s : string) : option bool :=
  if bool_decide (s ∈ ["1"; "t"; "T"; "true"; "TRUE"; "True"]) then Some true
  else if bool_decide (s ∈ ["0"; "f"; "F"; "false"; "FALSE"; "False"]) then Some false
  else None.

(** ** [flag] *)

(** The value of a flag; its constructor is the type the flag was defined with. *)
Inductive fvalue := FString (s : string) | FInt (n : Z) | FBool (b : bool).

(** [Set]; [None] is an error. *)
Definition flag_Set (v : fvalue) (text : string) : option fvalue :=
  match v with
  | FString _ => Some (FString text)
  | FInt _ => let '(n, ok) := ParseInt 0 text in if ok : bool then Some (FInt n) else None
  | FBool _ => FBool <$> ParseBool text
  end.

Notation formal := (gmap string fvalue).

Inductive flag_result := Parsed (m : formal) (rest : list string) | FlagExit (status : Z).

(** A name with its value if it has the form [name=value]; the first character is never
    taken for the equals sign. *)
Fixpoint split_eq (s : string) : string * option string :=
  match s with
  | EmptyString => ("", None)
  | String c s' => if decide (c = "="%char) then ("", Some s') else let '(name, v) := split_eq s' in (String c name, v)
  end.
Definition split_name (name : string) : string * option string :=
  match name with
  | EmptyString => ("", None)
  | String c s' => let '(n, v) := split_eq s' in (String c n, v)
  end.

(** How an argument starts. *)
Inductive dash := NotFlag | Terminator | BadSyntax | Name (name : string).
Definition dashes (s : string) : dash :=
  match s with
  | String "-" (String c1 s1 as s') =>
      let name := if decide (c1 = "-"%char) then s1 else s' in
      if decide (s' = "-") then Terminator
      else match name with
           | EmptyString => BadSyntax
           | String c _ => if decide (c = "-"%char ∨ c = "="%char) then BadSyntax else Name name
           end
  | _ => NotFlag
  end.

(** [flag.Parse] on the arguments after the program's name. *)
Fixpoint flag_Parse (m : formal) (args : list string) : flag_result :=
  match args with
  | [] => Parsed m []
  | s :: args' =>
      match dashes s with
      | NotFlag => Parsed m args
      | Terminator => Parsed m args'
      | BadSyntax => FlagExit 2
      | Name nm =>
          let '(name, value) := split_name nm in
          match m !! name with
          | None => if decide (name = "help" ∨ name = "h") then FlagExit 0 else FlagExit 2
          | Some (FBool b) =>
              match flag_Set (FBool b) (default "true" value) with Some v => flag_Parse (<[name := v]> m) args' | None => FlagExit 2 end
          | Some old =>
              match value with
              | Some text => match flag_Set old text with Some v => flag_Parse (<[name := v]> m) args' | None => FlagExit 2 end
              | None =>
                  match args' with
                  | [] => FlagExit 2
                  | text :: args'' => match flag_Set old text with Some v => flag_Parse (<[name := v]> m) args'' | None => FlagExit 2 end
                  end
              end
          end
      end
  end.

Definition get_string (m : formal) (name : string) : string := match m !! name with Some (FString s) => s | _ => "" end.
Definition get_int (m : formal) (name : string) : Z := match m !! name with Some (FInt n) => n | _ => 0 end.
Definition get_bool (m : formal) (name : string) : bool := match m !! name with Some (FBool b) => b | _ => false end.

(** ** Numbers read back *)

Definition is_int64 (n : Z) : Prop := - 2 ^ 63 ≤ n < 2 ^ 63.

(** A decimal digit [d]. *)
Definition is_digit (c : ascii) (d : Z) : Prop := digit_value c = Some d ∧ 0 ≤ d < 10 ∧ c ≠ "_"%char ∧ c ≠ "-"%char ∧ c ≠ "+"%char ∧ (c = "0"%char ↔ d = 0).

Lemma pretty_N_char_digit (x : N) : (x < 10)%N → is_digit (pretty_N_char x) (Z.of_N x).
Proof.
  intros Hx. assert (x = 0 ∨ x = 1 ∨ x = 2 ∨ x = 3 ∨ x = 4 ∨ x = 5 ∨ x = 6 ∨ x = 7 ∨ x = 8 ∨ x = 9)%N as Hc by lia.
  repeat destruct Hc as [->|Hc]; try (split_and!; done). rewrite Hc. split_and!; done.
Qed.

Lemma ParseUint_loop_digit base0 c d s n us : is_digit c d → n * 10 + d ≤ max_uint64 →
  ParseUint_loop 10 base0 (String c s) n us = ParseUint_loop 10 base0 s (n * 10 + d) us.
Proof.
  intros (Hd & Hr & Hu & _) Hm. cbn [ParseUint_loop]. rewrite bool_decide_eq_false_2 by done. cbn [andb]. rewrite Hd.
  by rewrite (proj2 (Z.leb_gt _ _)), (proj2 (Z.ltb_ge _ _)) by lia.
Qed.

Lemma ParseUint_loop_go base0 x s us : Z.of_N x ≤ max_uint64 → ParseUint_loop 10 base0 (pretty_N_go x s) 0 us = ParseUint_loop 10 base0 s (Z.of_N x) us.
Proof.
  revert s. induction (N.lt_wf_0 x) as [x _ IH]; intros s Hm. assert (x = 0 ∨ 0 < x)%N as [->|Hx] by lia; [done|].
  pose proof (N.div_mod' x 10) as Hdm. pose proof (N.div_lt x 10 Hx eq_refl) as Hlt. rewrite pretty_N_go_step by done. rewrite IH by lia.
  rewrite (ParseUint_loop_digit _ _ (Z.of_N (x `mod` 10))); [f_equal; lia|by apply pretty_N_char_digit, N.mod_lt|lia].
Qed.

(** A printed number starts with a digit, which is 0 only for 0. *)
Lemma pretty_head (p : positive) : ∃ c s d, pretty (Z.pos p) = String c s ∧ is_digit c d ∧ d ≠ 0.
Proof.
  change (pretty (Z.pos p)) with (pretty_N_go (N.pos p) ""). assert (Hx : (0 < N.pos p)%N) by lia. revert Hx. generalize (N.pos p) as x. generalize "" as t. intros t x. revert t.
  induction (N.lt_wf_0 x) as [x _ IH]; intros t Hx. rewrite pretty_N_go_step by done. pose proof (N.div_mod' x 10) as Hdm.
  destruct (decide (x `div` 10 = 0)%N) as [E|E].
  - rewrite E, pretty_N_go_0. eexists _, _, (Z.of_N (x `mod` 10)). split; [done|]. split; [by apply pretty_N_char_digit, N.mod_lt|]. rewrite E in Hdm. lia.
  - apply IH; [by apply N.div_lt|by apply N.neq_0_lt_0].
Qed.

Lemma base_prefix_head c s d : is_digit c d → d ≠ 0 → base_prefix (String c s) = (10, String c s).
Proof.
  intros (_ & _ & _ & _ & _ & H0) Hd. assert (Hc : c ≠ "0"%char) by (by intros ?%H0).
  destruct c as [[] [] [] [] [] [] [] []]; try reflexivity. by destruct Hc.
Qed.

Lemma ParseUint_pretty base (n : Z) : base = 0 ∨ base = 10 → 0 ≤ n ≤ max_uint64 → ParseUint base (pretty n) = Num n false.
Proof.
  intros Hb Hn. destruct n as [|p|p]; [by destruct Hb as [-> | ->]| |lia]. destruct (pretty_head p) as (c & s & d & E & Hc & Hd).
  unfold ParseUint. rewrite E. assert ((if base =? 0 then base_prefix (String c s) else (base, String c s)) = (10, String c s)) as ->.
  { destruct Hb as [-> | ->]; [by apply (base_prefix_head c s d)|done]. }
  rewrite <-E. change (pretty (Z.pos p)) with (pretty_N_go (N.pos p) ""). by rewrite ParseUint_loop_go by (simpl; lia).
Qed.

Lemma split_sign_digits (n : Z) : 0 ≤ n → split_sign (pretty n) = (false, pretty n).
Proof.
  intros Hn. destruct n as [|p|p]; [done| |lia]. destruct (pretty_head p) as (c & s & d & -> & (_ & _ & _ & H1 & H2 & _) & _). cbn [split_sign]. by rewrite !decide_False.
Qed.

(** [ParseInt] reads back every [int64] that was printed, whether the base is given or
    found. *)
Lemma ParseInt_pretty base (n : Z) : base = 0 ∨ base = 10 → is_int64 n → ParseInt base (pretty n) = (n, true).
Proof.
  intros Hb [Hlo Hhi]. unfold ParseInt. destruct (decide (0 ≤ n)) as [Hn|Hn].
  - rewrite split_sign_digits, ParseUint_pretty by (done || unfold max_uint64; lia). cbn [negb andb]. by rewrite (proj2 (Z.leb_gt _ _)) by lia.
  - destruct n as [|n|n]; [lia|lia|]. change (pretty (Z.neg n)) with (String "-" (pretty (Z.pos n))). cbn [split_sign]. rewrite decide_True by done.
    rewrite ParseUint_pretty by (done || unfold max_uint64; lia). cbn [negb andb]. by rewrite (proj2 (Z.ltb_ge _ _)) by lia.
Qed.

Lemma ParseUint_loop_nonneg base base0 s n us m us' : 0 ≤ base → 0 ≤ n → ParseUint_loop base base0 s n us = Num m us' → 0 ≤ m.
Proof.
  intros Hb. revert n us. induction s as [|c s IH]; intros n us Hn; cbn [ParseUint_loop]; [by intros [= <- _]|].
  destruct (_ && base0); [by apply IH|]. destruct (digit_value c) as [d|] eqn:Hd; [|done]. destruct (base <=? d); [done|]. destruct (max_uint64 <? n * base + d); [done|].
  apply IH. assert (0 ≤ d); [|nia]. revert Hd. unfold digit_value. destruct (Z.leb_spec 48 (code c)), (Z.leb_spec (code c) 57); cbn [andb];
    try (intros [= <-]; lia); destruct (Z.leb_spec 97 (lower c)), (Z.leb_spec (lower c) 122); cbn [andb]; try done; intros [= <-]; lia.
Qed.

Lemma base_prefix_nonneg s : 0 ≤ (base_prefix s).1.
Proof. unfold base_prefix. repeat case_match; simpl; lia. Qed.

Lemma ParseUint_nonneg base s m us : 0 ≤ base → ParseUint base s = Num m us → 0 ≤ m.
Proof.
  intros Hb. unfold ParseUint. destruct s as [|c s]; [done|]. pose proof (base_prefix_nonneg (String c s)) as Hp.
  assert (Hbs : 0 ≤ (if base =? 0 then base_prefix (String c s) else (base, String c s)).1) by (by destruct (base =? 0)).
  destruct (if base =? 0 then _ else _) as [b s']. simpl in Hbs. destruct (ParseUint_loop b (base =? 0) s' 0 false) as [n [|]| |] eqn:E; [|intros [= <- _]|done..].
  - destruct (underscoreOK _); [|done]. intros [= <- _]. by eapply (ParseUint_loop_nonneg _ _ _ 0).
  - by eapply (ParseUint_loop_nonneg _ _ _ 0).
Qed.

(** The number is always an [int64], whatever the string. *)
Lemma ParseInt_bounds base (s : string) : 0 ≤ base → is_int64 (ParseInt base s).1.
Proof.
  intros Hb. unfold ParseInt, is_int64. destruct (split_sign s) as [neg s']. destruct (ParseUint base s') as [m us| |] eqn:E; [apply ParseUint_nonneg in E; [|done]|..|simpl; lia];
    destruct neg; cbn [negb andb]; try (simpl; lia);
    match goal with |- context [if ?b then _ else _] => destruct b eqn:Hc end; (apply Z.ltb_ge in Hc || apply Z.leb_gt in Hc || idtac); simpl; lia.
Qed.

(** ** Flags read back *)

(** One flag on the command line, in one of the forms it can have. *)
Inductive form := Separate (dashes : bool) | Joined (dashes : bool) | Bare (dashes : bool).
Record setting := mkSetting { st_name : string; st_value : fvalue; st_form : form }.

Definition show_value (v : fvalue) : string := match v with FString s => s | FInt n => pretty n | FBool b => if b then "true" else "false" end.
Definition show_dashes (two : bool) : string := if two then "--" else "-".
Definition show_setting (st : setting) : list string :=
  match st_form st with
  | Separate two => [show_dashes two +:+ st_name st; show_value (st_value st)]
  | Joined two => [show_dashes two +:+ st_name st +:+ "=" +:+ show_value (st_value st)]
  | Bare two => [show_dashes two +:+ st_name st]
  end.

(** A name that can be written: not empty, no equals sign, no leading dash. *)
Fixpoint no_eq (s : string) : Prop := match s with EmptyString => True | String c s' => c ≠ "="%char ∧ no_eq s' end.
Definition name_ok (name : string) : Prop := no_eq name ∧ match name with EmptyString => False | String c _ => c ≠ "-"%char end.

Definition same_type (v w : fvalue) : Prop :=
  match v, w with FString _, FString _ => True | FInt _, FInt _ => True | FBool _, FBool _ => True | _, _ => False end.

(** A boolean flag takes no separate value, and the bare form means true. *)
Definition setting_ok (m : formal) (st : setting) : Prop :=
  name_ok (st_name st) ∧ (∃ old, m !! st_name st = Some old ∧ same_type old (st_value st)) ∧
  match st_value st with FInt n => is_int64 n | _ => True end ∧
  match st_form st, st_value st with
  | Separate _, FBool _ => False
  | Bare _, FBool true => True
  | Bare _, _ => False
  | _, _ => True
  end.

Definition apply_setting (m : formal) (st : setting) : formal := <[st_name st := st_value st]> m.

Lemma flag_Set_show old v : same_type old v → match v with FInt n => is_int64 n | _ => True end → flag_Set old (show_value v) = Some v.
Proof.
  destruct old, v; try done; cbn [flag_Set show_value]; intros _ Hv; [by rewrite ParseInt_pretty by (done || by left)|]. by destruct b0.
Qed.

Lemma split_eq_none s : no_eq s → split_eq s = (s, None).
Proof. induction s as [|c s IH]; [done|]. cbn [no_eq split_eq]. intros [Hc Hs]. rewrite decide_False by done. by rewrite IH. Qed.

Lemma split_eq_some s v : no_eq s → split_eq (s +:+ "=" +:+ v) = (s, Some v).
Proof.
  induction s as [|c s IH]; [done|]. cbn [no_eq]. intros [Hc Hs]. change (String c s +:+ "=" +:+ v) with (String c (s +:+ "=" +:+ v)). cbn [split_eq].
  rewrite decide_False by done. by rewrite IH.
Qed.

Lemma split_name_none name : name_ok name → split_name name = (name, None).
Proof. destruct name as [|c s]; [by intros [_ ?]|]. intros [[Hc Hs] _]. cbn [split_name]. by rewrite split_eq_none. Qed.

Lemma split_name_some name v : name_ok name → split_name (name +:+ "=" +:+ v) = (name, Some v).
Proof.
  destruct name as [|c s]; [by intros [_ ?]|]. intros [[Hc Hs] _]. change (String c s +:+ "=" +:+ v) with (String c (s +:+ "=" +:+ v)).
  cbn [split_name]. by rewrite split_eq_some.
Qed.

Lemma dashes_show two name s : name_ok name → dashes (show_dashes two +:+ name +:+ s) = Name (name +:+ s).
Proof.
  destruct name as [|c t]; [by intros [_ ?]|]. intros [[He _] Hd]. change (String c t +:+ s) with (String c (t +:+ s)). destruct two; cbn [show_dashes].
  - change ("--" +:+ String c (t +:+ s)) with (String "-" (String "-" (String c (t +:+ s)))). cbn [dashes].
    rewrite decide_False by done. rewrite decide_True by done. by rewrite decide_False by (intros [?|?]; done).
  - change ("-" +:+ String c (t +:+ s)) with (String "-" (String c (t +:+ s))). cbn [dashes].
    rewrite decide_False by (intros [= ->]; done). rewrite decide_False by done. by rewrite decide_False by (intros [?|?]; done).
Qed.

Lemma string_app_nil (s : string) : s +:+ "" = s.
Proof. induction s as [|c s IH]; [done|]. exact (f_equal (String c) IH). Qed.

Lemma dashes_bare two name : name_ok name → dashes (show_dashes two +:+ name) = Name name.
Proof. intros Hn. pose proof (dashes_show two name "" Hn) as H. by rewrite string_app_nil in H. Qed.

(** One setting sets its flag and leaves the arguments after it. *)
Lemma flag_Parse_setting m st args : setting_ok m st → flag_Parse m (show_setting st ++ args)%list = flag_Parse (apply_setting m st) args.
Proof.
  destruct st as [name v f]. unfold setting_ok, show_setting, apply_setting. cbn [st_name st_value st_form]. intros (Hn & (old & Hm & Ht) & Hi & Hf).
  pose proof (flag_Set_show old v Ht Hi) as Hset. destruct f as [two|two|two]; cbn [app].
  - cbn [flag_Parse]. rewrite dashes_bare, split_name_none, Hm by done. destruct old; destruct v; try done; by rewrite Hset.
  - cbn [flag_Parse]. rewrite dashes_show, split_name_some, Hm by done. destruct old; destruct v; try done; cbn [from_option id]; rewrite Hset; done.
  - cbn [flag_Parse]. rewrite dashes_bare, split_name_none, Hm by done. destruct v as [| |[|]]; try done. destruct old; by try done.
Qed.

Lemma setting_ok_apply m st st' : setting_ok m st → setting_ok m st' → setting_ok (apply_setting m st) st'.
Proof.
  intros (_ & (old & Hm & Ht) & _) (Hn' & (old' & Hm' & Ht') & Hr'). split; [done|]. split; [|done]. unfold apply_setting.
  destruct (decide (st_name st = st_name st')) as [He|Hne]; [|exists old'; by rewrite lookup_insert_ne].
  exists (st_value st). rewrite He, lookup_insert_eq. split; [done|]. rewrite He, Hm' in Hm. injection Hm as <-.
  destruct old'; destruct (st_value st); destruct (st_value st'); done.
Qed.

(** Whatever settings are given, in whatever order and form, every flag ends with the
    last value it was given; the arguments after the flags are left over. *)
Theorem flag_Parse_settings (m : formal) (sts : list setting) (rest : list string) :
  Forall (setting_ok m) sts → match rest with [] => True | a :: _ => dashes a = NotFlag end →
  flag_Parse m (concat (show_setting <$> sts) ++ rest)%list = Parsed (foldl apply_setting m sts) rest.
Proof.
  intros Hs Hrest. revert m Hs. induction sts as [|st sts IH]; intros m Hs.
  - cbn [foldl fmap list_fmap concat app]. destruct rest as [|a rest]; [done|]. cbn [flag_Parse]. by rewrite Hrest.
  - apply Forall_cons in Hs as [Hst Hs]. rewrite fmap_cons. cbn [concat foldl]. rewrite <-app_assoc, flag_Parse_setting by done.
    apply IH. eapply Forall_impl; [done|]. intros st' Hst'. by apply setting_ok_apply.
Qed.

(** An undefined flag ends the program with status 2, or 0 where it asks for help. *)
Theorem flag_Parse_undefined (m : formal) (sts : list setting) (two : bool) (name : string) (rest : list string) :
  Forall (setting_ok m) sts → name_ok name → foldl apply_setting m sts !! name = None →
  flag_Parse m (concat (show_setting <$> sts) ++ (show_dashes two +:+ name) :: rest)%list = FlagExit (if decide (name = "help" ∨ name = "h") then 0 else 2).
Proof.
  intros Hs Hn. revert m Hs. induction sts as [|st sts IH]; intros m Hs Hm.
  - cbn [fmap list_fmap concat app flag_Parse foldl] in *. rewrite dashes_bare, split_name_none, Hm by done. by case_decide.
  - apply Forall_cons in Hs as [Hst Hs]. rewrite fmap_cons. cbn [concat foldl] in *. rewrite <-app_assoc, flag_Parse_setting by done.
    apply IH; [|done]. eapply Forall_impl; [done|]. intros st' Hst'. by apply setting_ok_apply.
Qed.
