(* ===== verification/ChordUtil.v ===== *)
(** * Lab3_Chord/chordUtil.go: identifiers and intervals on the ring

    The identifier arithmetic of the Chord node: hashing an address, the finger
    offsets, the interval test [between] and the command-line checks.  SHA-1 is
    the class [Sha1], so every theorem holds for any digest function. *)

From S2P Require Import Prelude.
From Stdlib Require Import Ascii.
Open Scope string_scope.
Open Scope Z_scope.

(** ** Definitions *)

(** [sha1.New(); Write(elt); Sum(nil)]: the digest bytes of a string. *)
Class Sha1 := sha1_sum : string → list Z.

(** [big.Int.SetBytes]: the bytes as a big-endian unsigned integer. *)
Definition SetBytes (bs : list Z) : Z := foldl (λ acc b, acc * 256 + b) 0 bs.

(** [big.Int.Exp(x, y, nil)]: [1] when [y <= 0]. *)
Definition big_Exp (x y : Z) : Z := if y <=? 0 then 1 else x ^ y.

Definition keySize : Z := 160.
Definition two : Z := 2.
Definition hashMod : Z := big_Exp two keySize.

Definition mod_ (input : Z) : Z := input mod hashMod.

Definition hashString `{Sha1} (elt : string) : Z := mod_ (SetBytes (sha1_sum elt)).

Definition jump `{Sha1} (address : string) (fingerentry : Z) : Z :=
  let n := hashString address in
  let fingerentryminus1 := fingerentry - 1 in
  let jump := big_Exp two fingerentryminus1 in
  let sum := n + jump in
  sum mod hashMod.

Definition jumpIdentifier (identifier fingerentry : Z) : Z :=
  let fingerentryminus1 := fingerentry - 1 in
  let jump := big_Exp two fingerentryminus1 in
  let sum := identifier + jump in
  sum mod hashMod.

Definition between (start elt end_ : Z) (inclusive : bool) : bool :=
  if end_ >? start then
    ((start <? elt) && (elt <? end_)) || (inclusive && (elt =? end_))
  else
    (start <? elt) || (elt <? end_) || (inclusive && (elt =? end_)).

(** [big.Int.SetString(s, 16)]: an optional sign, then at least one hexadecimal
    digit of either case and nothing else. *)
Definition hex_val (c : ascii) : option Z :=
  let n := Z.of_nat (nat_of_ascii c) in
  if (48 <=? n) && (n <=? 57) then Some (n - 48)
  else if (97 <=? n) && (n <=? 102) then Some (n - 87)
  else if (65 <=? n) && (n <=? 70) then Some (n - 55)
  else None.

Fixpoint hex_digits (acc : Z) (s : string) : option Z :=
  match s with
  | EmptyString => Some acc
  | String c s' => d ← hex_val c; hex_digits (acc * 16 + d) s'
  end.

Definition hex_nat (s : string) : option Z :=
  match s with EmptyString => None | _ => hex_digits 0 s end.

Definition SetString16 (s : string) : option Z :=
  match s with
  | String "-"%char s' => Z.opp <$> hex_nat s'
  | String "+"%char s' => hex_nat s'
  | _ => hex_nat s
  end.

Definition getIdentifier `{Sha1} (address specified : string) : outcome Z :=
  if decide (specified = "XXX") then Ret (hashString address)
  else match SetString16 specified with
       | Some n => Ret (n mod hashMod)
       | None => Exit
       end.

Definition verifyRange (stabilize fixFingers checkPred : Z) : bool :=
  let stab := (stabilize >? 0) && (stabilize <? 60001) in
  let finger := (fixFingers >? 0) && (fixFingers <? 60001) in
  let check := (checkPred >? 0) && (checkPred <? 60001) in
  stab && finger && check.

(** [fmt.Sprintf("%x", n)] of a non-negative [big.Int]: lower-case digits, no
    leading zero, "0" for zero.  The recursion produces the digits from the least
    significant one; [fuel] digits suffice below [16 ^ fuel]. *)
Definition hex_char (d : Z) : ascii :=
  ascii_of_nat (Z.to_nat (if d <? 10 then 48 + d else 87 + d)).

Fixpoint hex_aux (fuel : nat) (n : Z) (acc : string) : string :=
  match fuel with
  | O => acc
  | S f => let acc' := String (hex_char (n mod 16)) acc in
           if n <? 16 then acc' else hex_aux f (n / 16) acc'
  end.

(** 40 digits cover the identifiers, which are below [hashMod = 16 ^ 40]. *)
Definition sprintf_x (n : Z) : string := hex_aux 40 n "".

(** What [printHash] prints: the identifier reduced modulo the ring size. *)
Definition printHash (hash : Z) : string :=
  "Hash: " +:+ sprintf_x (hash mod hashMod) +:+ String (ascii_of_nat 10) "".

(** ** The ring *)

(** Identifiers of the ring. *)
Definition in_ring (x : Z) : Prop := 0 ≤ x < hashMod.

(** Clockwise distance from [s] to [e], in [0 .. hashMod - 1]. *)
Definition cw (s e : Z) : Z := (e - s) mod hashMod.

(** The length of the arc from [s] to [e]: the whole ring when the two ends
    coincide, which is how [between] reads an arc with equal ends. *)
Definition arc (s e : Z) : Z := if decide (s = e) then hashMod else cw s e.

(** ** Lemmas *)

Lemma hashMod_val : hashMod = 2 ^ 160.
Proof. reflexivity. Qed.

Lemma hashMod_pos : 0 < hashMod.
Proof. rewrite hashMod_val. lia. Qed.

Lemma mod_in_ring x : in_ring (x mod hashMod).
Proof. apply Z.mod_pos_bound, hashMod_pos. Qed.

Lemma hashString_in_ring `{Sha1} a : in_ring (hashString a).
Proof. apply mod_in_ring. Qed.

#[export] Hint Resolve hashMod_pos mod_in_ring hashString_in_ring : go.

Lemma cw_range s e : 0 ≤ cw s e < hashMod.
Proof. apply Z.mod_pos_bound, hashMod_pos. Qed.

Lemma cw_le s e : in_ring s → in_ring e → s ≤ e → cw s e = e - s.
Proof. intros [] [] ?. apply Z.mod_small. lia. Qed.

Lemma cw_gt s e : in_ring s → in_ring e → e < s → cw s e = e - s + hashMod.
Proof.
  intros [] [] ?. unfold cw. rewrite <-(Z.mod_add _ 1) by (pose proof hashMod_pos; lia).
  rewrite Z.mul_1_l. apply Z.mod_small. lia.
Qed.

Lemma cw_self s : cw s s = 0.
Proof. unfold cw. by rewrite Z.sub_diag, Z.mod_0_l by (pose proof hashMod_pos; lia). Qed.

Lemma cw_0_iff s e : in_ring s → in_ring e → cw s e = 0 ↔ s = e.
Proof.
  intros Hs He. split; [|intros ->; apply cw_self].
  pose proof Hs as []. pose proof He as [].
  destruct (Z.le_gt_cases s e); [rewrite cw_le by done | rewrite cw_gt by done]; lia.
Qed.

(** Case analysis on how two ring points lie, turning [cw] into arithmetic. *)
Ltac cw_cases s e :=
  destruct (Z.le_gt_cases s e) as [?|?];
  [rewrite (cw_le s e) in * by done | rewrite (cw_gt s e) in * by done].

Lemma arc_range s e : in_ring s → in_ring e → 0 < arc s e ≤ hashMod.
Proof.
  intros Hs He. unfold arc. case_decide; [pose proof hashMod_pos; lia|].
  pose proof (cw_range s e). pose proof (proj1 (cw_0_iff s e Hs He)). 
  assert (cw s e ≠ 0) by naive_solver. lia.
Qed.

(** [between] is the test that [elt] lies strictly inside the clockwise arc from
    [start] to [end_], or equals [end_] when the arc is closed on the right. *)
Lemma between_arc s e t i :
  in_ring s → in_ring e → in_ring t →
  between s e t i = true ↔ 0 < cw s e < arc s t ∨ (i = true ∧ e = t).
Proof.
  intros Hs He Ht. unfold between, arc.
  pose proof Hs as []. pose proof He as []. pose proof Ht as [].
  destruct (Z.gtb_spec t s).
  - rewrite decide_False by lia. rewrite (cw_le s t) by (done || lia).
    rewrite orb_true_iff, !andb_true_iff, !Z.ltb_lt, Z.eqb_eq.
    cw_cases s e; naive_solver lia.
  - rewrite !orb_true_iff, !andb_true_iff, !Z.ltb_lt, Z.eqb_eq.
    case_decide.
    + subst. cw_cases t e; naive_solver lia.
    + rewrite (cw_gt s t) by (done || lia). cw_cases s e; naive_solver lia.
Qed.

(** The closed form every caller uses: [elt] is in the arc [(start, end_]]. *)
Lemma between_incl s e t :
  in_ring s → in_ring e → in_ring t →
  between s e t true = true ↔ s ≠ e ∧ cw s e ≤ arc s t ∨ e = t.
Proof.
  intros Hs He Ht. rewrite between_arc by done.
  pose proof (cw_range s e). pose proof (arc_range s t Hs Ht).
  pose proof (cw_0_iff s e Hs He) as Hz.
  split.
  - intros [?|[_ ->]]; [|by right]. left. split; [|lia]. intros ->. lia.
  - intros [[Hne Hle]| -> ]; [|by right].
    destruct (decide (e = t)); [by right; auto|]. left.
    assert (cw s e ≠ 0) by naive_solver. split; [lia|].
    assert (cw s e ≠ arc s t); [|lia]. unfold arc in *. case_decide; [lia|].
    intros Heq. pose proof Hs as []. pose proof He as []. pose proof Ht as [].
    revert Heq. cw_cases s e; cw_cases s t; lia.
Qed.

Lemma big_Exp_finger n : 1 ≤ n → big_Exp two (n - 1) = 2 ^ (n - 1).
Proof.
  intros ?. unfold big_Exp, two. destruct (Z.leb_spec (n - 1) 0); [|done].
  by replace (n - 1) with 0 by lia.
Qed.

Lemma finger_offset_small n : 1 ≤ n ≤ keySize → 0 < 2 ^ (n - 1) < hashMod.
Proof.
  unfold keySize. intros ?. rewrite hashMod_val. split; [lia|].
  apply Z.pow_lt_mono_r; lia.
Qed.

Lemma jumpIdentifier_cw id n :
  in_ring id → 1 ≤ n ≤ keySize → cw id (jumpIdentifier id n) = 2 ^ (n - 1).
Proof.
  intros Hid Hn. unfold jumpIdentifier. rewrite big_Exp_finger by lia.
  pose proof (finger_offset_small n Hn). unfold cw.
  rewrite Zminus_mod_idemp_l. replace (id + _ - id) with (2 ^ (n - 1)) by lia.
  apply Z.mod_small. lia.
Qed.

(** *** Printing and reading identifiers *)

Lemma hex_val_char d : 0 ≤ d < 16 → hex_val (hex_char d) = Some d.
Proof.
  intros ?. assert (∃ k : nat, (k < 16)%nat ∧ d = Z.of_nat k) as (k & Hk & ->).
  { exists (Z.to_nat d). lia. }
  do 16 (destruct k as [|k]; [reflexivity|]). lia.
Qed.

Lemma hex_aux_digits f n acc :
  0 ≤ n < 16 ^ Z.of_nat f → f ≠ O → hex_digits 0 (hex_aux f n acc) = hex_digits n acc.
Proof.
  revert n acc. induction f as [|f IH]; intros n acc Hn Hf; [done|]. cbn [hex_aux].
  pose proof (Z.mod_pos_bound n 16 ltac:(lia)).
  destruct (Z.ltb_spec n 16).
  - cbn [hex_digits]. rewrite hex_val_char by done. simpl. f_equal.
    by rewrite Z.mod_small by lia.
  - assert (Hdiv : 0 ≤ n / 16 < 16 ^ Z.of_nat f).
    { split; [apply Z.div_pos; lia|]. apply Z.div_lt_upper_bound; [lia|].
      rewrite <-Z.pow_succ_r, <-Nat2Z.inj_succ by lia. lia. }
    rewrite IH; [| done |].
    + cbn [hex_digits]. rewrite hex_val_char by done. simpl. f_equal.
      pose proof (Z.div_mod n 16). lia.
    + intros ->. simpl in Hdiv. pose proof (Z.div_le_mono 16 n 16). lia.
Qed.

Lemma hex_aux_head f n acc :
  f ≠ O → ∃ c s, hex_aux f n acc = String c s ∧ is_Some (hex_val c).
Proof.
  intros Hf. assert (∀ f n acc,
    (∃ c s, acc = String c s ∧ is_Some (hex_val c)) ∨ f ≠ O →
    ∃ c s, hex_aux f n acc = String c s ∧ is_Some (hex_val c)) as H; [|apply H; auto].
  clear. induction f as [|f IH]; intros n acc Hacc; [naive_solver|]. cbn [hex_aux].
  pose proof (Z.mod_pos_bound n 16 ltac:(lia)).
  destruct (n <? 16); [|apply IH; left]; rewrite hex_val_char || idtac;
    do 2 eexists; (split; [done|]); rewrite hex_val_char by done; by eexists.
Qed.

Lemma SetString16_unsigned c s :
  is_Some (hex_val c) → SetString16 (String c s) = hex_digits 0 (String c s).
Proof.
  intros Hc. destruct c as [b0 b1 b2 b3 b4 b5 b6 b7].
  destruct b0, b1, b2, b3, b4, b5, b6, b7; try reflexivity;
    exfalso; vm_compute in Hc; destruct Hc as [? [=]].
Qed.

Lemma sprintf_x_digits n :
  in_ring n → ∃ c s, sprintf_x n = String c s ∧ is_Some (hex_val c)
                     ∧ hex_digits 0 (String c s) = Some n.
Proof.
  intros [Hlo Hhi]. unfold sprintf_x.
  destruct (hex_aux_head 40 n "") as (c & s & Heq & Hc); [done|].
  exists c, s. split; [done|]. split; [done|]. rewrite <-Heq.
  rewrite hex_aux_digits; [done | | done]. split; [done|].
  by replace (16 ^ Z.of_nat 40) with hashMod.
Qed.

(** ** Properties *)

(** C16 (the interval test).  For identifiers of the ring, [between start elt end
    inclusive] holds exactly when [elt] lies strictly inside the clockwise arc
    from [start] to [end] (the whole ring when the two ends coincide), or
    [inclusive] is set and [elt] is [end]. *)
Theorem between_clockwise (s e t : Z) (i : bool) :
  in_ring s → in_ring e → in_ring t →
  between s e t i = true ↔ 0 < cw s e < arc s t ∨ (i = true ∧ e = t).
Proof. apply between_arc. Qed.

Lemma between_clockwise_witness :
  between 10 3 5 true = true ↔ 0 < cw 10 3 < arc 10 5 ∨ (true = true ∧ 3 = 5).
Proof.
  apply (between_clockwise 10 3 5 true);
    (split; [lia | vm_compute; reflexivity]).
Defined.

(** Identifier round trip.  An identifier of the ring printed with [%x], as
    [printHash] and the storage directories print it, is read back unchanged by
    the [-i] flag: it is neither mistaken for the flag's default nor rejected. *)
Theorem getIdentifier_roundtrip `{Sha1} (address : string) (n : Z) :
  in_ring n → getIdentifier address (sprintf_x n) = Ret n.
Proof.
  intros Hn. destruct (sprintf_x_digits n Hn) as (c & s & -> & Hc & Hd).
  unfold getIdentifier. rewrite decide_False.
  - rewrite SetString16_unsigned, Hd by done. by rewrite Z.mod_small.
  - intros [= -> _]. destruct Hc as [? [=]].
Qed.

Lemma getIdentifier_roundtrip_witness :
  @getIdentifier (λ _, []) "localhost:1234" (sprintf_x 0xabc123) = Ret 0xabc123.
Proof.
  apply (@getIdentifier_roundtrip (λ _, [])). split; [lia | vm_compute; reflexivity].
Defined.
