(* ===== verification/ChordNode.v ===== *)
(** * Lab3_Chord: the node state and its handlers

    [chordTypes.go] (the node record), the RPC messages of [rpc.go], and the
    functions of [chord.go] that run entirely under [chordSync]: ring creation,
    the RPC handlers [FindSuccessor], [Stabilize], [Notify], [Join] and
    [CheckPred], the lookup [find]/[closestPreceedingNode] and the repair of the
    successor list and finger table.

    A method of [*Chord] that only touches [chord.node] is a function of
    [NodeInfo]; it returns the new node.  A reply parameter is threaded through,
    as the code fills only some of its fields.  The address "X" is the code's
    marker for "no node". *)

From S2P Require Import Prelude ChordUtil.
Open Scope string_scope.
Open Scope Z_scope.

(** ** Data *)

Record FingerEntry := mkFinger { fe_Identifier : Z; fe_NodeAddress : string }.

Record NodeInfo := mkNode {
  Identifier : Z;
  NodeAddress : string;
  Predecessor : string;
  NextFinger : Z;
  FingerTable : list FingerEntry;
  Successors : list string;
  JoinPending : bool
}.

Inductive RetCode := SOLONODE | MYSUCC | IAMSUCC | PASSALONG.

#[global] Instance RetCode_eq_dec : EqDecision RetCode.
Proof. solve_decision. Defined.
#[global] Instance FingerEntry_eq_dec : EqDecision FingerEntry.
Proof. solve_decision. Defined.

Record JoinRequest := mkJoinRequest { jr_NodeAddress : string; jr_Identifier : Z }.

Record Response := mkResponse {
  r_IsSuccessor : bool;
  r_NodeAddress : string;
  r_Identifier : Z
}.

Record StabilizeRequest := mkStabilizeRequest { sr_NodeAddress : string; sr_Identifier : Z }.

Record StabilizeResponse := mkStabilizeResponse {
  YouGood : bool;
  sr_NewPredAddress : string;
  NodeSuccessors : list string
}.

Record FindRequest := mkFindRequest { QueryIdentifier : Z; QueryNodeAddress : string }.

Record NotifyRequest := mkNotifyRequest { nr_NodeAddress : string; nr_Identifier : Z }.

Record NotifyResponse := mkNotifyResponse { nr_Success : bool; nr_NewPredAddress : string }.

Record DeadCheck := mkDeadCheck { IsDead : bool }.

(** The zero values a fresh reply struct starts with. *)
Definition Response0 : Response := mkResponse false "" 0.
Definition StabilizeResponse0 : StabilizeResponse := mkStabilizeResponse false "" [].
Definition NotifyResponse0 : NotifyResponse := mkNotifyResponse false "".

(** ** Field assignments *)

Definition set_Predecessor (a : string) (n : NodeInfo) : NodeInfo :=
  mkNode (Identifier n) (NodeAddress n) a (NextFinger n) (FingerTable n) (Successors n) (JoinPending n).
Definition set_NextFinger (i : Z) (n : NodeInfo) : NodeInfo :=
  mkNode (Identifier n) (NodeAddress n) (Predecessor n) i (FingerTable n) (Successors n) (JoinPending n).
Definition set_FingerTable (t : list FingerEntry) (n : NodeInfo) : NodeInfo :=
  mkNode (Identifier n) (NodeAddress n) (Predecessor n) (NextFinger n) t (Successors n) (JoinPending n).
Definition set_Successors (l : list string) (n : NodeInfo) : NodeInfo :=
  mkNode (Identifier n) (NodeAddress n) (Predecessor n) (NextFinger n) (FingerTable n) l (JoinPending n).
Definition set_JoinPending (b : bool) (n : NodeInfo) : NodeInfo :=
  mkNode (Identifier n) (NodeAddress n) (Predecessor n) (NextFinger n) (FingerTable n) (Successors n) b.

(** [chord.node.Successors[0] = a] *)
Definition set_succ0 (a : string) (n : NodeInfo) : outcome NodeInfo :=
  l ← slice_set (Successors n) 0 a; Ret (set_Successors l n).

(** [chord.node.FingerTable[i].NodeAddress = a] *)
Definition set_finger_addr (i : Z) (a : string) (n : NodeInfo) : outcome NodeInfo :=
  f ← slice_get (FingerTable n) i;
  t ← slice_set (FingerTable n) i (mkFinger (fe_Identifier f) a);
  Ret (set_FingerTable t n).

Section Operations.
Context `{Sha1}.

(** ** Start-up *)

(** Every successor and finger starts as the node itself; finger [i > 0] points
    [2 ^ (i-1)] ahead.  [FingerTable[0]] is written after the loop. *)
Definition initClient (n : NodeInfo) : outcome NodeInfo :=
  let succs := (λ _, NodeAddress n) <$> Successors n in
  let fingers := imap (λ i f,
    if (i =? 0)%nat then f
    else mkFinger (jumpIdentifier (Identifier n) (Z.of_nat i)) (NodeAddress n)) (FingerTable n) in
  fingers' ← slice_set fingers 0 (mkFinger (Identifier n) (NodeAddress n));
  Ret (set_Predecessor "X" (set_FingerTable fingers' (set_Successors succs n))).

Definition Create (n : NodeInfo) : outcome NodeInfo :=
  n' ← set_succ0 (NodeAddress n) n;
  Ret (set_Predecessor (NodeAddress n) n').

(** ** Lookup *)

(** The [for n := keySize; n >= 1; n--] loop; [k] is the current index. *)
Fixpoint closest_loop (nd : NodeInfo) (identifier : Z) (k : nat) (joinResp : Response) : outcome Response :=
  match k with
  | O => s ← slice_get (Successors nd) 0;
         Ret (mkResponse (r_IsSuccessor joinResp) s (r_Identifier joinResp))
  | S k' =>
      f ← slice_get (FingerTable nd) (Z.of_nat k);
      if between (Identifier nd) identifier (fe_Identifier f) true
      then Ret (mkResponse (r_IsSuccessor joinResp) (fe_NodeAddress f) (fe_Identifier f))
      else closest_loop nd identifier k' joinResp
  end.

Definition closestPreceedingNode (nd : NodeInfo) (identifier : Z) (joinResp : Response) : outcome (RetCode * Response) :=
  r ← closest_loop nd identifier (Z.to_nat keySize) joinResp; Ret (PASSALONG, r).

(** The [for i := range Successors] loop; [l] is the part not yet visited. *)
Fixpoint find_loop (nd : NodeInfo) (identifier : Z) (l : list string) (response : Response) : outcome (RetCode * Response) :=
  match l with
  | [] => closestPreceedingNode nd identifier response
  | s :: l' =>
      if decide (s = "X") then
        Ret (SOLONODE, mkResponse true (NodeAddress nd) (Identifier nd))
      else
        let currSucc := hashString s in
        if between (Identifier nd) identifier currSucc true then
          Ret (MYSUCC, mkResponse true s currSucc)
        else
          let pred := hashString (Predecessor nd) in
          if between pred identifier (Identifier nd) true then
            Ret (IAMSUCC, mkResponse true (NodeAddress nd) (Identifier nd))
          else find_loop nd identifier l' response
  end.

Definition find (nd : NodeInfo) (identifier : Z) (response : Response) : outcome (RetCode * Response) :=
  find_loop nd identifier (Successors nd) response.

(** ** RPC handlers *)

Definition FindSuccessor (findReq : FindRequest) (findResp : Response) (nd : NodeInfo) : outcome (Response * NodeInfo) :=
  '(retCode, resp) ← find nd (QueryIdentifier findReq) findResp;
  if decide (retCode = PASSALONG) then
    if decide (r_NodeAddress resp = "X") then
      s ← slice_get (Successors nd) 0;
      Ret (mkResponse false s (r_Identifier resp), nd)
    else Ret (mkResponse false (r_NodeAddress resp) (r_Identifier resp), nd)
  else Ret (resp, nd).

Definition Stabilize (req : StabilizeRequest) (resp : StabilizeResponse) (nd : NodeInfo) : outcome (StabilizeResponse * NodeInfo) :=
  if decide (Predecessor nd = "X") then
    Ret (mkStabilizeResponse true (sr_NewPredAddress resp) (Successors nd),
         set_Predecessor (sr_NodeAddress req) nd)
  else if decide (Predecessor nd = sr_NodeAddress req) then
    Ret (mkStabilizeResponse true (sr_NewPredAddress resp) (Successors nd), nd)
  else Ret (mkStabilizeResponse false (Predecessor nd) (NodeSuccessors resp), nd).

Definition CheckPred (_ : DeadCheck) (resp : DeadCheck) (nd : NodeInfo) : outcome (DeadCheck * NodeInfo) :=
  Ret (resp, nd).

Definition Notify (notifyReq : NotifyRequest) (resp : NotifyResponse) (nd : NodeInfo) : outcome (NotifyResponse * NodeInfo) :=
  if decide (Predecessor nd = "X" ∨ Predecessor nd = nr_NodeAddress notifyReq) then
    Ret (mkNotifyResponse true (nr_NewPredAddress resp), set_Predecessor (nr_NodeAddress notifyReq) nd)
  else
    let pred := hashString (Predecessor nd) in
    if between pred (nr_Identifier notifyReq) (Identifier nd) true then
      Ret (mkNotifyResponse true (nr_NewPredAddress resp), set_Predecessor (nr_NodeAddress notifyReq) nd)
    else Ret (mkNotifyResponse false (Predecessor nd), nd).

Definition Join (joinReq : JoinRequest) (resp : Response) (nd : NodeInfo) : outcome (Response * NodeInfo) :=
  '(retCode, resp') ← find nd (jr_Identifier joinReq) resp;
  match retCode with
  | MYSUCC => nd' ← set_succ0 (jr_NodeAddress joinReq) nd; Ret (resp', nd')
  | SOLONODE => nd' ← set_succ0 (jr_NodeAddress joinReq) nd; Ret (resp', nd')
  | IAMSUCC => Ret (resp', set_Predecessor (r_NodeAddress resp') nd)
  | PASSALONG => Ret (mkResponse false (r_NodeAddress resp') (r_Identifier resp'), nd)
  end.

(** ** Repair of the successor list and the finger table *)

(** The loop of [verifySuccs] from index [k] on; [todo] counts the indices left. *)
Fixpoint verify_loop (resp : StabilizeResponse) (k todo : nat) (nd : NodeInfo) : outcome NodeInfo :=
  match todo with
  | O => Ret nd
  | S todo' =>
      succsSuccessor ← slice_get (NodeSuccessors resp) (Z.of_nat k - 1);
      if decide (succsSuccessor = "X") then Ret nd
      else
        cur ← slice_get (Successors nd) (Z.of_nat k);
        nd1 ← (if decide (cur = "X")
               then l ← slice_set (Successors nd) (Z.of_nat k) succsSuccessor; Ret (set_Successors l nd)
               else Ret nd);
        cur' ← slice_get (Successors nd1) (Z.of_nat k);
        nd2 ← (if decide (succsSuccessor ≠ cur')
               then l ← slice_set (Successors nd1) (Z.of_nat k) succsSuccessor; Ret (set_Successors l nd1)
               else Ret nd1);
        verify_loop resp (S k) todo' nd2
  end.

Definition verifySuccs (resp : StabilizeResponse) (nd : NodeInfo) : outcome NodeInfo :=
  verify_loop resp 1 (length (Successors nd) - 1) nd.

(** [for n := start; n <= keySize; n++]; [fuel] is the number of indices left,
    [keySize + 1 - start]. *)
Fixpoint next_valid_loop (nd : NodeInfo) (n : Z) (fuel : nat) : outcome Z :=
  match fuel with
  | O => Ret (-1)
  | S fuel' =>
      f ← slice_get (FingerTable nd) n;
      if decide (fe_NodeAddress f ≠ "X") then Ret n else next_valid_loop nd (n + 1) fuel'
  end.

Definition getNextValidFinger (start : Z) (nd : NodeInfo) : outcome Z :=
  next_valid_loop nd start (Z.to_nat (keySize + 1 - start)).

(** [for n := k; n > 0; n--] of [findNewSucc]: fingers [k], [k-1], ..., [1]. *)
Fixpoint overwrite_fingers (k : nat) (a : string) (nd : NodeInfo) : outcome NodeInfo :=
  match k with
  | O => Ret nd
  | S k' => nd' ← set_finger_addr (Z.of_nat k) a nd; overwrite_fingers k' a nd'
  end.

Definition findNewSucc (nd : NodeInfo) : outcome NodeInfo :=
  if (1 <? length (Successors nd))%nat then
    Ret (set_Successors (tail (Successors nd) ++ ["X"]) nd)
  else
    validFingerIndex ← getNextValidFinger 1 nd;
    if validFingerIndex =? -1 then set_succ0 (Predecessor nd) nd
    else
      f ← slice_get (FingerTable nd) validFingerIndex;
      overwrite_fingers (Z.to_nat (validFingerIndex - 1)) (fe_NodeAddress f) nd.

(** First loop of [clearDeadSucc] over the fingers, downwards from [k]: the
    largest index that holds the failed node (the default when none does) and
    the address of the finger above it. *)
Fixpoint last_failed (nd : NodeInfo) (failedNode : string) (k : nat) (failedId : nat) (succ : string) : outcome (nat * string) :=
  match k with
  | O => Ret (failedId, succ)
  | S k' =>
      f ← slice_get (FingerTable nd) (Z.of_nat k);
      if decide (failedNode = fe_NodeAddress f) then Ret (k, succ)
      else last_failed nd failedNode k' failedId (fe_NodeAddress f)
  end.

(** Second loop: the run of fingers that hold the failed node. *)
Fixpoint replace_run (k : nat) (failedNode succ : string) (nd : NodeInfo) : outcome NodeInfo :=
  match k with
  | O => Ret nd
  | S k' =>
      f ← slice_get (FingerTable nd) (Z.of_nat k);
      if decide (fe_NodeAddress f ≠ failedNode) then Ret nd
      else nd' ← set_finger_addr (Z.of_nat k) succ nd; replace_run k' failedNode succ nd'
  end.

(** The successor list with the failed node taken out and as many "X" at the end. *)
Definition collapse (failedNode : string) (l : list string) : list string :=
  filter (λ s, s ≠ failedNode) l ++ ((λ _, "X") <$> filter (λ s, s = failedNode) l).

Definition clearDeadSucc (nd : NodeInfo) : outcome NodeInfo :=
  failedNode ← slice_get (Successors nd) 0;
  let nd1 := set_Successors (collapse failedNode (Successors nd)) nd in
  '(failedId, succ) ← last_failed nd1 failedNode (Z.to_nat keySize) (Z.to_nat keySize) (Predecessor nd1);
  replace_run failedId failedNode succ nd1.

End Operations.

(** ** Well-formed nodes

    [node_wf r id addr n]: the shape [getArgs] and [initClient] give a node run
    with [-r r], identifier [id] and address [addr]: [r] successor slots, [161]
    fingers, finger [i] at offset [2 ^ (i-1)] from the node (slot 0 is the node
    itself), and a refresh index inside the table. *)
Record node_wf (r : nat) (id : Z) (addr : string) (n : NodeInfo) : Prop := {
  wf_id : Identifier n = id;
  wf_addr : NodeAddress n = addr;
  wf_ring : in_ring id;
  wf_succs : length (Successors n) = r;
  wf_table : length (FingerTable n) = 161%nat;
  wf_finger0 : ∀ f, FingerTable n !! 0%nat = Some f → fe_Identifier f = id;
  wf_fingers : ∀ i f, FingerTable n !! S i = Some f → fe_Identifier f = jumpIdentifier id (Z.of_nat (S i));
  wf_next : 0 ≤ NextFinger n < keySize
}.

(** The body returned, and left a node that satisfies [P]. *)
Definition keeps {A} (P : NodeInfo → Prop) (m : outcome (A * NodeInfo)) : Prop :=
  ∃ a n', m = Ret (a, n') ∧ P n'.
Definition keeps1 (P : NodeInfo → Prop) (m : outcome NodeInfo) : Prop :=
  ∃ n', m = Ret n' ∧ P n'.

Create HintDb chord discriminated.

Section Wf.
Context `{Sha1}.
Variables (r : nat) (id : Z) (addr : string).
Hypothesis r_pos : (0 < r)%nat.

Notation wf := (node_wf r id addr).

Lemma wf_set_Predecessor a n : wf n → wf (set_Predecessor a n).
Proof. intros []; by constructor. Qed.

Lemma wf_set_JoinPending b n : wf n → wf (set_JoinPending b n).
Proof. intros []; by constructor. Qed.

Lemma wf_set_NextFinger i n : 0 ≤ i < keySize → wf n → wf (set_NextFinger i n).
Proof. intros ? []; by constructor. Qed.

Lemma wf_set_Successors l n : length l = r → wf n → wf (set_Successors l n).
Proof. intros ? []; by constructor. Qed.

Lemma wf_succ0 n : wf n → ∃ s, slice_get (Successors n) 0 = Ret s ∧ head (Successors n) = Some s.
Proof using r_pos.
  intros []. destruct (Successors n) as [|s l]; simpl in *; [lia|]. by exists s.
Qed.

Lemma wf_set_succ0 a n : wf n → ∃ n', set_succ0 a n = Ret n' ∧ wf n'
  ∧ n' = set_Successors (<[0%nat := a]> (Successors n)) n.
Proof using r_pos.
  intros Hn. pose proof (wf_succs _ _ _ _ Hn) as Hl. unfold set_succ0, go_len.
  rewrite slice_set_ok by (unfold go_len; lia). eexists; split; [done|].
  split; [|done]. apply wf_set_Successors; [by rewrite length_insert | done].
Qed.

Lemma wf_finger n i : wf n → 0 ≤ i ≤ keySize →
  ∃ f, slice_get (FingerTable n) i = Ret f ∧ FingerTable n !! Z.to_nat i = Some f.
Proof.
  clear r_pos.
  intros Hn Hi. apply slice_get_ok. unfold go_len. rewrite (wf_table _ _ _ _ Hn).
  unfold keySize in Hi. lia.
Qed.

Lemma wf_set_finger_addr i a n : wf n → 0 ≤ i ≤ keySize →
  ∃ n', set_finger_addr i a n = Ret n' ∧ wf n' ∧ Successors n' = Successors n.
Proof.
  clear r_pos.
  intros Hn Hi. destruct (wf_finger n i Hn Hi) as (f & Hf & Hlk).
  unfold set_finger_addr. rewrite Hf. simpl.
  rewrite slice_set_ok by (apply lookup_lt_Some in Hlk; unfold go_len; lia).
  eexists; split; [done|]. split; [|done].
  destruct Hn as [???? Ht Hf0 HfS ?]; constructor; simpl; try done.
  - by rewrite length_insert.
  - intros g Hg. apply list_lookup_insert_Some in Hg as [(? & <- & _)|[_ Hg]]; [|eauto].
    simpl. apply Hf0. by replace 0%nat with (Z.to_nat i).
  - intros j g Hg. apply list_lookup_insert_Some in Hg as [(Hij & <- & _)|[_ Hg]]; [|eauto].
    simpl. apply HfS. by rewrite <-Hij.
Qed.

(** *** Lookup and handlers *)

Lemma closest_loop_ret n i k resp :
  wf n → Z.of_nat k ≤ keySize → returns (closest_loop n i k resp).
Proof using r_pos.
  intros Hn. induction k as [|k IH]; intros Hk; cbn [closest_loop].
  - destruct (wf_succ0 n Hn) as (s & -> & _). by eexists.
  - destruct (wf_finger n (Z.of_nat (S k)) Hn) as (f & -> & _); [lia|]. simpl.
    destruct (between _ _ _ _); [by eexists|]. apply IH. lia.
Qed.

Lemma find_ret n i resp : wf n → returns (find n i resp).
Proof using r_pos.
  intros Hn. unfold find. generalize (Successors n). intros l.
  induction l as [|s l IH]; cbn [find_loop].
  - destruct (closest_loop_ret n i (Z.to_nat keySize) resp Hn) as [x Hx].
    { unfold keySize. lia. }
    unfold closestPreceedingNode. rewrite Hx. by eexists.
  - case_decide; [by eexists|]. simpl. destruct (between _ _ _ _); [by eexists|].
    destruct (between _ _ _ _); [by eexists|done].
Qed.

Lemma Create_keeps n : wf n → keeps1 wf (Create n).
Proof using r_pos.
  intros Hn. unfold Create. destruct (wf_set_succ0 (NodeAddress n) n Hn) as (n' & -> & ? & _).
  eexists; split; [done|]. by apply wf_set_Predecessor.
Qed.

Lemma FindSuccessor_keeps req resp n : wf n → keeps wf (FindSuccessor req resp n).
Proof using r_pos.
  intros Hn. unfold FindSuccessor.
  destruct (find_ret n (QueryIdentifier req) resp Hn) as [[rc rs] ->]. simpl.
  destruct (wf_succ0 n Hn) as (s & -> & _). simpl.
  repeat case_decide; do 2 eexists; split; done.
Qed.

Lemma Stabilize_keeps req resp n : wf n → keeps wf (Stabilize req resp n).
Proof.
  clear r_pos.
  intros Hn. unfold Stabilize.
  repeat case_decide; do 2 eexists; (split; [done|]); auto using wf_set_Predecessor.
Qed.

Lemma Notify_keeps req resp n : wf n → keeps wf (Notify req resp n).
Proof.
  clear r_pos.
  intros Hn. unfold Notify. case_decide; [|destruct (between _ _ _ _)];
    do 2 eexists; (split; [done|]); auto using wf_set_Predecessor.
Qed.

Lemma Join_keeps req resp n : wf n → keeps wf (Join req resp n).
Proof using r_pos.
  intros Hn. unfold Join.
  destruct (find_ret n (jr_Identifier req) resp Hn) as [[rc rs] ->]. simpl.
  destruct (wf_set_succ0 (jr_NodeAddress req) n Hn) as (n' & -> & ? & _).
  destruct rc; do 2 eexists; (split; [done|]); auto using wf_set_Predecessor.
Qed.

(** *** Repair *)

Lemma set_succ_keeps (k : nat) a n : wf n → (k < r)%nat →
  keeps1 wf (l ← slice_set (Successors n) (Z.of_nat k) a; Ret (set_Successors l n)).
Proof.
  clear r_pos.
  intros Hn Hk. rewrite slice_set_ok.
  - eexists; split; [done|]. apply wf_set_Successors; [|done].
    by rewrite length_insert, (wf_succs _ _ _ _ Hn).
  - unfold go_len. rewrite (wf_succs _ _ _ _ Hn). lia.
Qed.

Lemma verify_loop_keeps resp todo k n : wf n →
  (1 ≤ k)%nat → (k + todo = r)%nat → (r - 1 ≤ length (NodeSuccessors resp))%nat →
  keeps1 wf (verify_loop resp k todo n).
Proof.
  clear r_pos.
  revert k n. induction todo as [|todo IH]; intros k n Hn Hk Hsum Hlen; cbn [verify_loop].
  { by exists n. }
  destruct (slice_get_ok (NodeSuccessors resp) (Z.of_nat k - 1)) as (s & -> & _).
  { unfold go_len. lia. }
  simpl. case_decide; [by exists n|].
  destruct (slice_get_ok (Successors n) (Z.of_nat k)) as (c & -> & _).
  { unfold go_len. rewrite (wf_succs _ _ _ _ Hn). lia. }
  cbn [mbind outcome_bind].
  assert (Hstep : ∀ P `{Decision P} n, wf n →
    keeps1 wf (if decide P then l ← slice_set (Successors n) (Z.of_nat k) s; Ret (set_Successors l n) else Ret n)).
  { intros P ? m Hm. case_decide; [apply set_succ_keeps; [done|lia] | by exists m]. }
  destruct (Hstep (c = "X") _ n Hn) as (n1 & -> & Hn1). cbn [mbind outcome_bind].
  destruct (slice_get_ok (Successors n1) (Z.of_nat k)) as (c' & -> & _).
  { unfold go_len. rewrite (wf_succs _ _ _ _ Hn1). lia. }
  cbn [mbind outcome_bind].
  destruct (Hstep (s ≠ c') _ n1 Hn1) as (n2 & -> & Hn2). cbn [mbind outcome_bind].
  apply IH; [done|lia|lia|done].
Qed.

Lemma verifySuccs_keeps resp n : wf n →
  (r - 1 ≤ length (NodeSuccessors resp))%nat → keeps1 wf (verifySuccs resp n).
Proof using r_pos.
  intros Hn Hl. unfold verifySuccs. apply verify_loop_keeps; try done.
  rewrite (wf_succs _ _ _ _ Hn). lia.
Qed.

(** [getNextValidFinger] returns the first finger from [start] on that is not
    "X", and [-1] exactly when all of them are. *)
Lemma getNextValidFinger_spec start n : wf n → 0 ≤ start →
  ∃ v, getNextValidFinger start n = Ret v ∧
  (v = -1 ∨ start ≤ v ≤ keySize ∧ ∃ f, FingerTable n !! Z.to_nat v = Some f ∧ fe_NodeAddress f ≠ "X") ∧
  (∀ j f, start ≤ j ≤ keySize → v = -1 ∨ j < v → FingerTable n !! Z.to_nat j = Some f → fe_NodeAddress f = "X").
Proof.
  clear r_pos.
  intros Hn. unfold getNextValidFinger. remember (Z.to_nat _) as fuel eqn:Hfuel.
  revert start Hfuel. induction fuel as [|fuel IH]; intros start Hfuel Hs; cbn [next_valid_loop].
  { eexists; split; [done|]. split; [by left|]. intros. lia. }
  destruct (wf_finger n start Hn) as (f & -> & Hf); [lia|]. cbn [mbind outcome_bind].
  case_decide as Hx.
  - eexists; split; [done|]. split; [right; split; [lia|eauto]|]. intros. lia.
  - destruct (IH (start + 1)) as (v & Hv & Hres & Hall); [lia|lia|].
    exists v. split; [done|]. split; [destruct Hres as [?|[??]]; [by left|right; split; [lia|done]]|].
    intros j g Hj Hjv Hg. destruct (decide (j = start)) as [->|].
    + rewrite Hf in Hg. injection Hg as <-. destruct (decide (fe_NodeAddress f = "X")); [done|by destruct Hx].
    + apply (Hall j); [lia|done|done].
Qed.

Lemma overwrite_fingers_keeps k a n : wf n → Z.of_nat k ≤ keySize → keeps1 wf (overwrite_fingers k a n).
Proof.
  clear r_pos.
  revert n. induction k as [|k IH]; intros n Hn Hk; cbn [overwrite_fingers]; [by exists n|].
  destruct (wf_set_finger_addr (Z.of_nat (S k)) a n Hn) as (n' & -> & Hn' & _); [lia|].
  cbn [mbind outcome_bind]. apply IH; [done|lia].
Qed.

Lemma findNewSucc_keeps n : wf n → keeps1 wf (findNewSucc n).
Proof using r_pos.
  intros Hn. unfold findNewSucc. destruct (Nat.ltb_spec 1 (length (Successors n))).
  - eexists; split; [done|]. apply wf_set_Successors; [|done].
    rewrite length_app. pose proof (wf_succs _ _ _ _ Hn). destruct (Successors n); simpl in *; lia.
  - destruct (getNextValidFinger_spec 1 n Hn) as (v & -> & Hv & _); [lia|]. cbn [mbind outcome_bind].
    destruct (Z.eqb_spec v (-1)).
    + destruct (wf_set_succ0 (Predecessor n) n Hn) as (n' & -> & ? & _). by exists n'.
    + destruct Hv as [|(? & f & Hf & _)]; [lia|].
      destruct (wf_finger n v Hn) as (g & -> & _); [lia|]. cbn [mbind outcome_bind].
      apply overwrite_fingers_keeps; [done|]. unfold keySize in *. lia.
Qed.

Lemma last_failed_ret n a k d s : wf n → Z.of_nat k ≤ keySize → (d ≤ Z.to_nat keySize)%nat →
  ∃ k' s', last_failed n a k d s = Ret (k', s') ∧ (k' ≤ Z.to_nat keySize)%nat.
Proof.
  clear r_pos.
  intros Hn. revert s. induction k as [|k IH]; intros s Hk Hd; cbn [last_failed]; [eauto|].
  destruct (wf_finger n (Z.of_nat (S k)) Hn) as (f & -> & _); [lia|]. cbn [mbind outcome_bind].
  case_decide; [do 2 eexists; split; [done|lia]|]. apply IH; [lia|done].
Qed.

Lemma replace_run_keeps k a s n : wf n → Z.of_nat k ≤ keySize →
  keeps1 (λ n', wf n' ∧ Successors n' = Successors n) (replace_run k a s n).
Proof.
  clear r_pos.
  revert n. induction k as [|k IH]; intros n Hn Hk; cbn [replace_run]; [by exists n|].
  destruct (wf_finger n (Z.of_nat (S k)) Hn) as (f & -> & _); [lia|]. cbn [mbind outcome_bind].
  case_decide; [by exists n|].
  destruct (wf_set_finger_addr (Z.of_nat (S k)) s n Hn) as (n' & -> & Hn' & Heq); [lia|].
  cbn [mbind outcome_bind]. rewrite <-Heq. apply IH; [done|lia].
Qed.

Lemma length_collapse a l : length (collapse a l) = length l.
Proof.
  unfold collapse. rewrite length_app, length_fmap.
  induction l as [|x l IH]; [done|]. rewrite !filter_cons.
  repeat case_decide; simpl; naive_solver lia.
Qed.

Lemma clearDeadSucc_keeps n : wf n →
  keeps1 (λ n', wf n' ∧ ∃ a, head (Successors n) = Some a ∧ Successors n' = collapse a (Successors n))
    (clearDeadSucc n).
Proof using r_pos.
  intros Hn. unfold clearDeadSucc. destruct (wf_succ0 n Hn) as (a & -> & Ha).
  cbn [mbind outcome_bind]. set (n1 := set_Successors _ n).
  assert (Hn1 : wf n1).
  { apply wf_set_Successors; [|done]. by rewrite length_collapse, (wf_succs _ _ _ _ Hn). }
  destruct (last_failed_ret n1 a (Z.to_nat keySize) (Z.to_nat keySize) (Predecessor n1))
    as (k & s & -> & Hk); [done|unfold keySize; lia|done|].
  cbn [mbind outcome_bind].
  destruct (replace_run_keeps k a s n1) as (n' & -> & Hn' & Hs); [done|unfold keySize in *; lia|].
  exists n'. split; [done|]. split; [done|]. exists a. by rewrite Hs.
Qed.

End Wf.

(** *** Start-up *)

Lemma initClient_wf (n : NodeInfo) :
  in_ring (Identifier n) → length (FingerTable n) = 161%nat → 0 ≤ NextFinger n < keySize →
  ∃ n', initClient n = Ret n' ∧ node_wf (length (Successors n)) (Identifier n) (NodeAddress n) n' ∧
    Successors n' = replicate (length (Successors n)) (NodeAddress n) ∧
    Predecessor n' = "X" ∧ JoinPending n' = JoinPending n ∧
    Forall (λ f, fe_NodeAddress f = NodeAddress n) (FingerTable n').
Proof.
  intros Hid Hlen Hnext. unfold initClient. rewrite slice_set_ok.
  2:{ unfold go_len. rewrite length_imap, Hlen. lia. }
  cbn [mbind outcome_bind]. eexists. split; [done|]. change (Z.to_nat 0) with 0%nat. split; [split|]; simpl; try done.
  - by rewrite length_fmap.
  - by rewrite length_insert, length_imap.
  - intros f. rewrite list_lookup_insert_eq by (rewrite length_imap; lia). by intros [= <-].
  - intros i f. rewrite list_lookup_insert_ne, list_lookup_imap by lia.
    destruct (FingerTable n !! S i) as [g|]; [|done]. by intros [= <-].
  - split; [by apply const_fmap|]. split; [done|]. split; [done|].
    apply Forall_lookup. intros i f Hf. destruct i as [|i].
    + rewrite list_lookup_insert_eq in Hf by (rewrite length_imap; lia). by injection Hf as <-.
    + rewrite list_lookup_insert_ne, list_lookup_imap in Hf by lia.
      destruct (FingerTable n !! S i) as [g|]; [|done]. by injection Hf as <-.
Qed.

Lemma overwrite_fingers_succs r id addr k a n : node_wf r id addr n → Z.of_nat k ≤ keySize →
  ∃ n', overwrite_fingers k a n = Ret n' ∧ Successors n' = Successors n.
Proof.
  revert n. induction k as [|k IH]; intros n Hn Hk; cbn [overwrite_fingers]; [by exists n|].
  destruct (wf_set_finger_addr r id addr (Z.of_nat (S k)) a n Hn) as (n1 & -> & Hn1 & Hs1); [lia|].
  cbn [mbind outcome_bind]. destruct (IH n1) as (n' & -> & Hs); [done|lia|]. exists n'. by rewrite Hs, Hs1.
Qed.

Lemma find_IAMSUCC `{Sha1} n i resp resp' :
  find n i resp = Ret (IAMSUCC, resp') → resp' = mkResponse true (NodeAddress n) (Identifier n).
Proof.
  unfold find. generalize (Successors n). intros l. induction l as [|s l IH]; cbn [find_loop].
  - unfold closestPreceedingNode. intros Hf. go_inv. done.
  - case_decide; [done|]. destruct (between _ _ _ _); [done|]. destruct (between _ _ _ _); [|done].
    by intros [= <-].
Qed.

Section Claims.
Context `{Sha1}.

(** Predecessor updates.  A well-formed node that knows a predecessor answers
    [Notify] from a node with its hashed identifier by moving the predecessor
    clockwise towards itself or leaving it: the new predecessor is never further
    away than the old one.  A refused caller is told the current predecessor and
    does not lie between it and the node.  Nothing else of the node changes. *)
Theorem Notify_moves_closer (n n' : NodeInfo) (req : NotifyRequest) (resp : NotifyResponse) :
  in_ring (Identifier n) → Predecessor n ≠ "X" →
  nr_Identifier req = hashString (nr_NodeAddress req) →
  Notify req NotifyResponse0 n = Ret (resp, n') →
  n' = set_Predecessor (Predecessor n') n ∧
  cw (hashString (Predecessor n')) (Identifier n) ≤ arc (hashString (Predecessor n)) (Identifier n) ∧
  (nr_Success resp = true → Predecessor n' = nr_NodeAddress req) ∧
  (nr_Success resp = false →
     n' = n ∧ nr_NewPredAddress resp = Predecessor n ∧
     between (hashString (Predecessor n)) (nr_Identifier req) (Identifier n) true = false).
Proof.
  intros Hid HX Hreq Hn. pose proof (hashString_in_ring (Predecessor n)) as Hp.
  pose proof (hashString_in_ring (nr_NodeAddress req)) as Hq. rewrite <-Hreq in Hq.
  assert (Hself : cw (hashString (Predecessor n)) (Identifier n) ≤ arc (hashString (Predecessor n)) (Identifier n)).
  { unfold arc. case_decide as E; [rewrite E, cw_self; pose proof hashMod_pos; lia|lia]. }
  unfold Notify in Hn. case_decide as Hd.
  - go_inv. simpl. destruct Hd as [|Hd]; [done|]. rewrite <-Hd. by repeat split.
  - destruct (between _ _ _ _) eqn:E; go_inv; simpl.
    + split; [done|]. split; [|done]. rewrite <-Hreq.
      apply between_arc in E; [|done..]. pose proof Hp as []. pose proof Hq as []. pose proof Hid as [].
      destruct E as [E|[_ ->]]; [|rewrite cw_self; pose proof (arc_range _ _ Hp Hid); lia].
      revert E. unfold arc. pose proof hashMod_pos.
      case_decide as Heq; [pose proof (cw_range (nr_Identifier req) (Identifier n)); lia|].
      cw_cases (hashString (Predecessor n)) (nr_Identifier req);
      cw_cases (hashString (Predecessor n)) (Identifier n);
      cw_cases (nr_Identifier req) (Identifier n); lia.
    + split; [by destruct n'|]. split; [done|]. by repeat split.
Qed.

(** Dead successor.  When the first successor [a] of a well-formed node does
    not answer, [clearDeadSucc] returns, keeps the node well formed, takes every
    occurrence of [a] out of the successor list, keeps the other successors in
    their order, and fills the freed places at the end with "X". *)
Theorem clearDeadSucc_purges (r : nat) (id : Z) (addr a : string) (n : NodeInfo) :
  (0 < r)%nat → node_wf r id addr n → head (Successors n) = Some a → a ≠ "X" →
  ∃ n', clearDeadSucc n = Ret n' ∧ node_wf r id addr n' ∧ a ∉ Successors n' ∧
    ∃ k, Successors n' = (filter (λ s, s ≠ a) (Successors n) ++ replicate k "X")%list ∧ (0 < k)%nat.
Proof.
  intros Hr Hn Ha HX. destruct (clearDeadSucc_keeps r id addr Hr n Hn) as (n' & Heq & Hn' & b & Hb & Hs).
  rewrite Ha in Hb. injection Hb as <-. exists n'. split; [done|]. split; [done|]. rewrite Hs. unfold collapse.
  rewrite (const_fmap (λ _ : string, "X") _ "X") by done. split.
  - rewrite elem_of_app, list_elem_of_filter, elem_of_replicate. naive_solver.
  - eexists. split; [done|]. destruct (Successors n) as [|x l]; [done|].
    injection Ha as ->. rewrite filter_cons_True by done. simpl. lia.
Qed.

(** No recovery through the finger table: a node run with one successor slot
    whose successor is dead ("X") and whose finger table still knows a live node
    is not repaired by [findNewSucc]: it returns with the slot still "X", although
    the code looks the live finger up to replace the successor. *)
Theorem findNewSucc_keeps_dead (id : Z) (addr : string) (n : NodeInfo) (i : nat) (f : FingerEntry) :
  node_wf 1 id addr n → Successors n = ["X"] →
  (1 ≤ i)%nat → FingerTable n !! i = Some f → fe_NodeAddress f ≠ "X" →
  ∃ n', findNewSucc n = Ret n' ∧ Successors n' = ["X"].
Proof.
  intros Hn HX Hi Hf Hne. assert (Hi' : Z.of_nat i ≤ keySize).
  { apply lookup_lt_Some in Hf. rewrite (wf_table _ _ _ _ Hn) in Hf. unfold keySize. lia. }
  unfold findNewSucc. rewrite HX. simpl.
  destruct (getNextValidFinger_spec 1 id addr 1 n Hn) as (v & -> & Hv & Hall); [lia|]. cbn [mbind outcome_bind].
  destruct (Z.eqb_spec v (-1)) as [->|].
  - exfalso. apply Hne. apply (Hall (Z.of_nat i)); [lia|by left|by rewrite Nat2Z.id].
  - destruct Hv as [|(? & g & Hg & _)]; [lia|].
    destruct (wf_finger 1 id addr n v Hn) as (h & -> & _); [lia|]. cbn [mbind outcome_bind].
    destruct (overwrite_fingers_succs 1 id addr (Z.to_nat (v - 1)) (fe_NodeAddress h) n Hn) as (n' & -> & Hs);
      [unfold keySize in *; lia|]. exists n'. by rewrite Hs.
Qed.

(** Join on the predecessor side: when the joining node falls between the
    contacted node and its predecessor, [Join] does not record the joining node:
    it sets the contacted node's predecessor to the contacted node itself, and
    tells the joiner that this node is its successor. *)
Theorem Join_predecessor_self (n n' : NodeInfo) (req : JoinRequest) (resp : Response) :
  find n (jr_Identifier req) Response0 = Ret (IAMSUCC, resp) →
  Join req Response0 n = Ret (resp, n') →
  Predecessor n' = NodeAddress n ∧ r_NodeAddress resp = NodeAddress n ∧ r_IsSuccessor resp = true.
Proof.
  intros Hf Hj. apply find_IAMSUCC in Hf as Hr. unfold Join in Hj. rewrite Hf in Hj.
  cbn in Hj. injection Hj as <-. by rewrite Hr.
Qed.

End Claims.

(** A hash for the witnesses: the digest of a string is its bytes. *)
Definition demo_sha1 : Sha1 := λ s, (λ c, Z.of_nat (Ascii.nat_of_ascii c)) <$> String.list_ascii_of_string s.

(** A node as [getArgs] makes it, for the witnesses. *)
Definition demo_node (r : nat) (a : string) : NodeInfo :=
  mkNode (@hashString demo_sha1 a) a "" 0 (replicate 161 (mkFinger 0 "")) (replicate r "") true.

Definition demo_init (r : nat) (a : string) : NodeInfo :=
  match @initClient (demo_node r a) with Ret n => n | _ => demo_node r a end.

Lemma demo_init_wf r a : node_wf r (@hashString demo_sha1 a) a (demo_init r a).
Proof.
  destruct (initClient_wf (demo_node r a)) as (n' & Hn & Hwf & _);
    [apply mod_in_ring | done | simpl; unfold keySize; lia |].
  unfold demo_init. rewrite Hn. simpl in Hwf. by rewrite length_replicate in Hwf.
Qed.

Lemma Notify_moves_closer_witness :
  let n := set_Predecessor "a" (demo_init 2 "m") in
  let req := mkNotifyRequest "g" (@hashString demo_sha1 "g") in
  let n' := set_Predecessor "g" n in
  n' = set_Predecessor (Predecessor n') n ∧
  cw (@hashString demo_sha1 (Predecessor n')) (Identifier n) ≤ arc (@hashString demo_sha1 (Predecessor n)) (Identifier n) ∧
  (true = true → Predecessor n' = nr_NodeAddress req) ∧
  (true = false → n' = n ∧ "" = Predecessor n ∧
     between (@hashString demo_sha1 (Predecessor n)) (nr_Identifier req) (Identifier n) true = false).
Proof.
  intros n req n'.
  apply (@Notify_moves_closer demo_sha1 n n' req (mkNotifyResponse true ""));
    [split; [vm_compute; discriminate | vm_compute; reflexivity] | discriminate | reflexivity | vm_compute; reflexivity].
Defined.

Lemma clearDeadSucc_purges_witness :
  let n := set_Successors ["b"; "c"; "b"] (demo_init 3 "m") in
  ∃ n', clearDeadSucc n = Ret n' ∧ node_wf 3 (@hashString demo_sha1 "m") "m" n' ∧ "b" ∉ Successors n' ∧
    ∃ k, Successors n' = (filter (λ s, s ≠ "b") (Successors n) ++ replicate k "X")%list ∧ (0 < k)%nat.
Proof.
  intros n. apply (clearDeadSucc_purges 3 (@hashString demo_sha1 "m") "m" "b" n);
    [lia | apply wf_set_Successors; [reflexivity | apply demo_init_wf] | reflexivity | discriminate].
Defined.

Lemma findNewSucc_keeps_dead_witness :
  let n := set_Successors ["X"] (demo_init 1 "m") in
  ∃ n', findNewSucc n = Ret n' ∧ Successors n' = ["X"].
Proof.
  intros n. apply (findNewSucc_keeps_dead (@hashString demo_sha1 "m") "m" n 7
                     (mkFinger (jumpIdentifier (@hashString demo_sha1 "m") 7) "m"));
    [apply wf_set_Successors; [reflexivity | apply demo_init_wf] | reflexivity | lia | vm_compute; reflexivity | discriminate].
Defined.

Lemma Join_predecessor_self_witness :
  let n := set_Predecessor "g" (set_Successors ["p"; "s"] (demo_init 2 "m")) in
  let resp := mkResponse true "m" (@hashString demo_sha1 "m") in
  Predecessor (set_Predecessor "m" n) = NodeAddress n ∧ r_NodeAddress resp = NodeAddress n ∧ r_IsSuccessor resp = true.
Proof.
  intros n resp.
  apply (@Join_predecessor_self demo_sha1 n (set_Predecessor "m" n) (mkJoinRequest "j" (@hashString demo_sha1 "j")) resp);
    vm_compute; reflexivity.
Defined.
