(* ===== verification/ChordRing.v ===== *)
(** * Lookups on a consistent ring

    The abstract specification of the Chord lookup: the owner of an identifier
    is the first member at or clockwise after it.  A node whose predecessor and
    successor list agree with the ring answers [find] with the owner.

    The members are compared through [hashString], as the code does for every
    node but itself. *)

From S2P Require Import Prelude ChordUtil ChordNode.
Open Scope string_scope.
Open Scope Z_scope.

(** ** Specification *)

Section Spec.
Context `{Sha1}.
Variable ring : list string.

(** Members have distinct identifiers and none is the marker "X". *)
Record valid_ring : Prop := {
  vr_nodup : NoDup ring;
  vr_inj : ∀ a b, a ∈ ring → b ∈ ring → hashString a = hashString b → a = b;
  vr_X : "X" ∉ ring
}.

(** [b] is the member that follows [a] clockwise ([a] itself when alone). *)
Definition next (a b : string) : Prop :=
  b ∈ ring ∧ ∀ c, c ∈ ring → arc (hashString a) (hashString b) ≤ arc (hashString a) (hashString c).

Fixpoint succ_chain (a : string) (l : list string) : Prop :=
  match l with
  | [] => True
  | b :: l' => next a b ∧ succ_chain b l'
  end.

(** [a] is responsible for [id]. *)
Definition owner (id : Z) (a : string) : Prop :=
  a ∈ ring ∧ ∀ b, b ∈ ring → cw id (hashString a) ≤ cw id (hashString b).

Record consistent (n : NodeInfo) : Prop := {
  co_me : NodeAddress n ∈ ring;
  co_id : Identifier n = hashString (NodeAddress n);
  co_pred : Predecessor n ∈ ring ∧ next (Predecessor n) (NodeAddress n);
  co_succ : succ_chain (NodeAddress n) (Successors n)
}.

End Spec.

(** ** Coordinates relative to a point of the ring *)

Lemma cw_from o x y : in_ring o → in_ring x → in_ring y →
  cw x y = if decide (cw o x ≤ cw o y) then cw o y - cw o x else cw o y - cw o x + hashMod.
Proof.
  intros Ho Hx Hy. pose proof Ho as []. pose proof Hx as []. pose proof Hy as [].
  cw_cases o x; cw_cases o y; cw_cases x y; case_decide; lia.
Qed.

Lemma cw_inj o x y : in_ring o → in_ring x → in_ring y → cw o x = cw o y → x = y.
Proof.
  intros Ho Hx Hy Heq. apply cw_0_iff; [done..|]. rewrite (cw_from o) by done.
  case_decide; lia.
Qed.

Lemma arc_from o x y : in_ring o → in_ring x → in_ring y →
  arc x y = if decide (cw o x < cw o y) then cw o y - cw o x else cw o y - cw o x + hashMod.
Proof.
  intros Ho Hx Hy. unfold arc. case_decide as Hxy.
  - subst. rewrite decide_False by lia. lia.
  - rewrite (cw_from o) by done. assert (cw o x ≠ cw o y) by (intros ?; by apply Hxy, (cw_inj o)).
    repeat case_decide; lia.
Qed.

Lemma owner_unique `{Sha1} ring id a b :
  valid_ring ring → in_ring id → owner ring id a → owner ring id b → a = b.
Proof.
  intros Hv Hid [Ha1 Ha2] [Hb1 Hb2]. apply (vr_inj _ Hv); [done..|].
  apply (cw_inj id); [done|apply hashString_in_ring..|].
  pose proof (Ha2 b Hb1). pose proof (Hb2 a Ha1). lia.
Qed.

Section Lookup.
Context `{Sha1}.
Variable ring : list string.
Hypothesis Hring : valid_ring ring.

Implicit Types (o id : Z) (prev s : string).

(** [prev] is the point the scan of the successor list has passed: it is the
    start [o] itself, or lies strictly between [o] and [id]. *)
Definition past o id prev : Prop :=
  hashString prev = o ∨ 0 < cw o (hashString prev) < cw o id.

Lemma owner_step o id prev s :
  in_ring o → in_ring id → past o id prev → next ring prev s →
  between o id (hashString s) true = true → owner ring id s.
Proof.
  intros Ho Hid Hpast [Hs Hnext] Hbt. split; [done|]. intros b Hb.
  pose proof (hashString_in_ring s) as Hhs. pose proof (hashString_in_ring b) as Hhb.
  pose proof (hashString_in_ring prev) as Hhp. specialize (Hnext b Hb).
  apply between_arc in Hbt; [|done..]. rewrite (arc_from o) in Hbt by done.
  rewrite !(arc_from o (hashString prev)) in Hnext by done. rewrite !(cw_from o id) by done.
  pose proof (cw_self o) as Ho0. rewrite Ho0 in Hbt.
  pose proof (cw_range o (hashString s)). pose proof (cw_range o (hashString b)).
  pose proof (cw_range o (hashString prev)). pose proof (cw_range o id).
  destruct Hbt as [Hbt|[_ Heq]].
  - destruct Hpast as [Hp|Hp]; [rewrite Hp, Ho0 in *|]; repeat case_decide; lia.
  - rewrite Heq. repeat case_decide; lia.
Qed.

(** The scan goes on only when the successor just tested has been passed. *)
Lemma past_step o id s :
  in_ring o → in_ring id → o ≠ id →
  between o id (hashString s) true = false → 0 < cw o (hashString s) < cw o id.
Proof.
  intros Ho Hid Hne Hbt. pose proof (hashString_in_ring s) as Hhs.
  assert (Hnot : ¬ (0 < cw o id < arc o (hashString s) ∨ true = true ∧ id = hashString s)).
  { rewrite <-between_arc by done. by rewrite Hbt. }
  rewrite (arc_from o) in Hnot by done. rewrite (cw_self o) in Hnot.
  pose proof (cw_range o (hashString s)). pose proof (cw_range o id).
  assert (cw o id ≠ 0) by (intros ?; apply Hne; by apply cw_0_iff).
  assert (cw o id ≠ cw o (hashString s)).
  { intros Heq. apply Hnot. right. split; [done|]. by apply (cw_inj o). }
  case_decide; lia.
Qed.

Lemma between_end (x e : Z) : between x e e true = true.
Proof. unfold between. rewrite Z.eqb_refl. destruct (e >? x); by rewrite ?orb_true_r. Qed.

(** What the scan of the successor list answers. *)
Lemma find_loop_correct n id l prev resp rc resp' :
  consistent ring n → in_ring id →
  past (Identifier n) id prev → succ_chain ring prev l →
  find_loop n id l resp = Ret (rc, resp') →
  (rc ≠ PASSALONG → owner ring id (r_NodeAddress resp') ∧ r_IsSuccessor resp' = true) ∧ rc ≠ SOLONODE.
Proof using Hring.
  intros Hn Hid. revert prev. induction l as [|s l IH]; intros prev Hpast Hch Hf; cbn [find_loop] in Hf.
  - unfold closestPreceedingNode in Hf. go_inv. by split.
  - destruct Hch as [Hnx Hch]. rewrite decide_False in Hf.
    2:{ intros ->. by apply (vr_X _ Hring), (proj1 Hnx). }
    assert (in_ring (Identifier n)) as Ho by (rewrite (co_id _ _ Hn); apply hashString_in_ring).
    destruct (between (Identifier n) id _ _) eqn:E1.
    { go_inv. split; [|done]. intros _. split; [|done]. by eapply owner_step. }
    destruct (between (hashString (Predecessor n)) id _ _) eqn:E2.
    { go_inv. split; [|done]. intros _. split; [|done]. simpl.
      apply (owner_step (hashString (Predecessor n)) id (Predecessor n));
        [apply hashString_in_ring | done | by left | apply (co_pred _ _ Hn) |].
      by rewrite <-(co_id _ _ Hn). }
    apply (IH s); [|done|done]. right. apply past_step; [done..| |done].
    intros <-. by rewrite between_end in E2.
Qed.

Lemma find_correct n id resp rc resp' :
  consistent ring n → in_ring id → find n id resp = Ret (rc, resp') →
  (rc ≠ PASSALONG → owner ring id (r_NodeAddress resp') ∧ r_IsSuccessor resp' = true) ∧ rc ≠ SOLONODE.
Proof using Hring.
  intros Hn Hid. apply (find_loop_correct n id (Successors n) (NodeAddress n)); [done..| |apply (co_succ _ _ Hn)].
  left. symmetry. apply (co_id _ _ Hn).
Qed.

(** A scan that falls through to the finger table has passed every successor,
    each strictly further than the one before. *)
Lemma find_loop_pass n id l prev resp resp' :
  consistent ring n → in_ring id → past (Identifier n) id prev →
  succ_chain ring prev l → find_loop n id l resp = Ret (PASSALONG, resp') →
  (l ≠ [] → between (hashString (Predecessor n)) id (Identifier n) true = false) ∧
  NoDup l ∧
  Forall (λ s, s ∈ ring ∧ (hashString prev = Identifier n ∨ cw (Identifier n) (hashString prev) < cw (Identifier n) (hashString s))
               ∧ 0 < cw (Identifier n) (hashString s) < cw (Identifier n) id) l.
Proof.
  intros Hn Hid. revert prev. induction l as [|s l IH]; intros prev Hpast Hch Hf; cbn [find_loop] in Hf.
  { split; [done|]. split; [constructor|constructor]. }
  destruct Hch as [Hnx Hch]. case_decide; [done|].
  assert (in_ring (Identifier n)) as Ho by (rewrite (co_id _ _ Hn); apply hashString_in_ring).
  destruct (between (Identifier n) id _ _) eqn:E1; [done|].
  destruct (between (hashString (Predecessor n)) id _ _) eqn:E2; [done|].
  assert (Hs : 0 < cw (Identifier n) (hashString s) < cw (Identifier n) id).
  { apply past_step; [done..| |done]. intros <-. by rewrite between_end in E2. }
  destruct (IH s) as (_ & Hnd & Hall); [by right|done|done|].
  assert (Hgt : Forall (λ t, cw (Identifier n) (hashString s) < cw (Identifier n) (hashString t)) l).
  { eapply Forall_impl; [exact Hall|]. simpl. intros t (_ & [Heq|?] & _); [|done].
    rewrite Heq, cw_self in Hs. lia. }
  assert (Hprev : hashString prev = Identifier n ∨ cw (Identifier n) (hashString prev) < cw (Identifier n) (hashString s)).
  { destruct Hpast as [?|Hp]; [by left|right].
    destruct Hnx as [_ Hnx]. specialize (Hnx _ (co_me _ _ Hn)).
    rewrite <-(co_id _ _ Hn) in Hnx. rewrite !(arc_from (Identifier n)), cw_self in Hnx by (done || apply hashString_in_ring).
    pose proof (cw_range (Identifier n) (hashString prev)). repeat case_decide; lia. }
  split; [done|]. split.
  - constructor; [|done]. intros Hin. rewrite Forall_forall in Hgt. specialize (Hgt s Hin). lia.
  - constructor; [split; [apply Hnx|done]|]. rewrite Forall_forall in *. intros t Ht.
    specialize (Hall t Ht) as (? & _ & ?). specialize (Hgt t Ht). split; [done|]. split; [|done].
    destruct Hprev; [by left|right; lia].
Qed.

Lemma find_pass_large n id resp resp' :
  consistent ring n → in_ring id → Successors n ≠ [] → find n id resp = Ret (PASSALONG, resp') →
  (length (Successors n) + 1 < length ring)%nat.
Proof using Hring.
  intros Hn Hid Hne Hf.
  assert (in_ring (Identifier n)) as Ho by (rewrite (co_id _ _ Hn); apply hashString_in_ring).
  destruct (find_loop_pass n id (Successors n) (NodeAddress n) resp resp') as (Hpred & Hnd & Hall);
    [done|done|left; symmetry; apply (co_id _ _ Hn)|apply (co_succ _ _ Hn)|done|].
  specialize (Hpred Hne). rewrite Forall_forall in Hall.
  destruct (Nat.lt_ge_cases (length (Successors n) + 1) (length ring)) as [|Hle]; [done|exfalso].
  assert (Hsub : NodeAddress n :: Successors n ≡ₚ ring).
  { apply submseteq_length_Permutation; [|simpl; lia]. apply NoDup_submseteq.
    - constructor; [|done]. intros Hin. destruct (Hall _ Hin) as (_ & _ & Hpos).
      rewrite <-(co_id _ _ Hn), cw_self in Hpos. lia.
    - intros x. rewrite elem_of_cons. intros [->|Hx]; [apply (co_me _ _ Hn)|by apply Hall]. }
  destruct (co_pred _ _ Hn) as [Hin _]. rewrite <-Hsub, elem_of_cons in Hin.
  destruct Hin as [Heq|Hin].
  - assert (0 < cw (Identifier n) id).
    { destruct (Successors n) as [|s l]; [done|]. destruct (Hall s) as (_ & _ & ?); [by left|lia]. }
    rewrite Heq, <-(co_id _ _ Hn) in Hpred.
    assert (between (Identifier n) id (Identifier n) true = true); [|congruence].
    apply between_arc; [done..|]. left. rewrite (arc_from (Identifier n)), cw_self, decide_False by (done || lia).
    pose proof (cw_range (Identifier n) id). lia.
  - destruct (Hall _ Hin) as (_ & _ & ?).
    assert (between (hashString (Predecessor n)) id (Identifier n) true = true); [|congruence].
    pose proof (hashString_in_ring (Predecessor n)). apply between_arc; [done..|]. left.
    rewrite (cw_from (Identifier n)), (arc_from (Identifier n)), cw_self by done.
    pose proof (cw_range (Identifier n) id). repeat case_decide; lia.
Qed.

End Lookup.

(** ** Property *)

(** C2 (lookup on a consistent ring).  A well-formed node whose predecessor and
    successor list agree with a ring of distinct identifiers answers [find] for
    every identifier: it never takes itself for alone, any answer it gives names
    the member responsible for the identifier, and it needs no other node when
    the ring has at most one member more than its successor list. *)
Theorem find_answers_owner `{Sha1} (ring : list string) (r : nat) (id : Z) (addr : string) (n : NodeInfo) (i : Z) :
  valid_ring ring → (0 < r)%nat → node_wf r id addr n → consistent ring n → in_ring i →
  ∃ rc resp, find n i Response0 = Ret (rc, resp) ∧ rc ≠ SOLONODE ∧
    (rc ≠ PASSALONG → owner ring i (r_NodeAddress resp) ∧ r_IsSuccessor resp = true) ∧
    ((length ring ≤ r + 1)%nat → rc ≠ PASSALONG).
Proof.
  intros Hv Hr Hn Hc Hi. destruct (find_ret r id addr Hr n i Response0 Hn) as [[rc resp] Hf].
  exists rc, resp. destruct (find_correct ring Hv n i Response0 rc resp Hc Hi Hf) as [Hown Hsolo].
  split; [done|]. split; [done|]. split; [done|]. intros Hlen ->.
  apply find_pass_large with (ring := ring) in Hf; [|done..|].
  - rewrite (wf_succs _ _ _ _ Hn) in Hf. lia.
  - intros Hnil. pose proof (wf_succs _ _ _ _ Hn) as Hl. rewrite Hnil in Hl. simpl in Hl. lia.
Qed.

(** A three-node ring for the witnesses. *)
Definition demo_ring : list string := ["b"; "m"; "t"].
Definition demo_member : NodeInfo := set_Predecessor "b" (set_Successors ["t"; "b"] (demo_init 2 "m")).

Lemma demo_ring_valid : @valid_ring demo_sha1 demo_ring.
Proof.
  split.
  - refine (bool_decide_unpack _ _). vm_compute. exact I.
  - intros a b Ha Hb. unfold demo_ring in *. set_unfold. destruct Ha as [->|[->|[->|[]]]], Hb as [->|[->|[->|[]]]]; vm_compute; congruence.
  - refine (bool_decide_unpack _ _). vm_compute. exact I.
Qed.

Lemma demo_member_consistent : @consistent demo_sha1 demo_ring demo_member.
Proof.
  split.
  - right; left.
  - reflexivity.
  - split; [left|]. split; [right; left|]. intros c Hc. unfold demo_ring in Hc. set_unfold.
    destruct Hc as [->|[->|[->|[]]]]; vm_compute; discriminate.
  - split; [|split; [|exact I]]; (split; [vm_compute; repeat constructor|]); intros c Hc; unfold demo_ring in Hc; set_unfold;
      destruct Hc as [->|[->|[->|[]]]]; vm_compute; discriminate.
Qed.

Lemma find_answers_owner_witness :
  ∃ rc resp, @find demo_sha1 demo_member 112 Response0 = Ret (rc, resp) ∧ rc ≠ SOLONODE ∧
    (rc ≠ PASSALONG → @owner demo_sha1 demo_ring 112 (r_NodeAddress resp) ∧ r_IsSuccessor resp = true) ∧
    ((length demo_ring ≤ 2 + 1)%nat → rc ≠ PASSALONG).
Proof.
  apply (@find_answers_owner demo_sha1 demo_ring 2 (@hashString demo_sha1 "m") "m" demo_member 112);
    [apply demo_ring_valid | lia | | apply demo_member_consistent | split; [lia|vm_compute; reflexivity]].
  apply wf_set_Predecessor, wf_set_Successors; [reflexivity|apply demo_init_wf].
Defined.
