(* ===== verification/ChordFiles.v ===== *)
(** * Lab3_Chord: the whole node, its disk and the encryption of files

    The [Chord] record of [chordTypes.go], the file operations [chord.go] makes
    on the local disk, and [encrypt]/[decrypt].

    The disk is the interface [FileSystem] of GoFiles; AES-GCM is the class
    [Aead] with its law in [AeadLaws]. *)

From S2P Require Import Prelude GoFiles ChordUtil ChordNode.
From Stdlib Require Import Ascii.
Open Scope string_scope.
Open Scope Z_scope.

(** ** Encryption as an interface *)

(** AES in Galois counter mode: [Seal] and [Open] under a key and a nonce. *)
Class Aead := {
  gcm_Seal : string → string → string → string;
  gcm_Open : string → string → string → option string
}.

Class AeadLaws `{Aead} := {
  open_seal : ∀ key nonce p, gcm_Open key nonce (gcm_Seal key nonce p) = Some p
}.

(** ** Data *)

Inductive FileStat := FILEOK | NOSUCHFILE | READERR | CREATEERR | WRITEERR.

#[global] Instance FileStat_eq_dec : EqDecision FileStat.
Proof. solve_decision. Defined.

Record StoreFileRequest := mkStoreFileRequest {
  sf_FileIdentifier : Z;
  sf_FileName : string;
  sf_FileContent : string;
  DuplicationReq : bool
}.

Record StoreFileResponse := mkStoreFileResponse { sf_FileStatus : FileStat }.

Record RetreiveFileRequest := mkRetreiveFileRequest { rf_FileIdentifier : Z; rf_FileName : string }.

Record RetreiveFileResponse := mkRetreiveFileResponse {
  rf_NodeAddress : string;
  rf_Identifier : Z;
  rf_FileStatus : FileStat;
  rf_FileContent : string
}.

Definition RetreiveFileResponse0 : RetreiveFileResponse := mkRetreiveFileResponse "" 0 FILEOK "".

Record Timings := mkTimings { t_Stabilize : Z; t_FixFingers : Z; t_CheckPred : Z }.

(** The [Chord] struct, without the certificate pool, the tracer and the mutex. *)
Record Chord := mkChord {
  protocol : string;
  node : NodeInfo;
  numSucc : Z;
  joinNodeIp : string;
  joinNodePort : string;
  intervalTimings : Timings;
  files : list string;
  replicatedFiles : list string;
  encKey : string
}.

Definition set_node (n : NodeInfo) (c : Chord) : Chord :=
  mkChord (protocol c) n (numSucc c) (joinNodeIp c) (joinNodePort c) (intervalTimings c) (files c) (replicatedFiles c) (encKey c).
Definition set_files (l : list string) (c : Chord) : Chord :=
  mkChord (protocol c) (node c) (numSucc c) (joinNodeIp c) (joinNodePort c) (intervalTimings c) l (replicatedFiles c) (encKey c).
Definition set_replicatedFiles (l : list string) (c : Chord) : Chord :=
  mkChord (protocol c) (node c) (numSucc c) (joinNodeIp c) (joinNodePort c) (intervalTimings c) (files c) l (encKey c).
Definition set_encKey (k : string) (c : Chord) : Chord :=
  mkChord (protocol c) (node c) (numSucc c) (joinNodeIp c) (joinNodePort c) (intervalTimings c) (files c) (replicatedFiles c) k.

(** A node and the disk of the machine it runs on. *)
Record Machine (FS : Type) := mkMachine { m_chord : Chord; m_fs : FS }.
Arguments mkMachine {FS} m_chord m_fs.
Arguments m_chord {FS} _.
Arguments m_fs {FS} _.

(** ** Start-up *)

Definition duplDir (n : NodeInfo) : string := sprintf_x (Identifier n) +:+ "Replicated".
Definition fileDir (n : NodeInfo) : string := sprintf_x (Identifier n) +:+ "Files".

Section Files.
Context {FS : Type} `{FileSystem FS}.

(** [if err := os.Mkdir(dir); err != nil && os.IsExist(err) { os.RemoveAll(dir) }] *)
Definition clear_existing (dir : string) (fs : FS) : FS :=
  let '(fs', r) := os_Mkdir dir fs in
  match r with MkdirExists => os_RemoveAll dir fs' | _ => fs' end.

Definition initDuplication (c : Chord) (fs : FS) : FS :=
  let fs1 := clear_existing (duplDir (node c)) fs in
  let fs2 := clear_existing (fileDir (node c)) fs1 in
  let fs3 := (os_Mkdir (fileDir (node c)) fs2).1 in
  (os_Mkdir (duplDir (node c)) fs3).1.

(** The command-line flags of [getArgs]. *)
Record Flags := mkFlags {
  fl_a : string; fl_p : string; fl_ja : string; fl_jp : string;
  fl_ts : Z; fl_tff : Z; fl_tcp : Z; fl_e : string; fl_i : string; fl_r : Z
}.

(** [make([]T, n)] panics for a negative [n]. *)
Definition make_slice {A} (n : Z) (zero : A) : outcome (list A) :=
  if n <? 0 then Panic else Ret (replicate (Z.to_nat n) zero).

(** [certs] is whether the CA certificate was read and added to the pool. *)
Definition getArgs `{Sha1} (fl : Flags) (certs : bool) : outcome Chord :=
  if negb (verifyRange (fl_ts fl) (fl_tff fl) (fl_tcp fl)) then Exit
  else if negb certs then Exit
  else
    let nodeAddress := fl_a fl +:+ ":" +:+ fl_p fl in
    id ← getIdentifier nodeAddress (fl_i fl);
    fingers ← make_slice (keySize + 1) (mkFinger 0 "");
    succs ← make_slice (fl_r fl) "";
    Ret (mkChord "tcp" (mkNode id nodeAddress "" 0 fingers succs true)
           (fl_r fl) (fl_ja fl) (fl_jp fl)
           (mkTimings (fl_ts fl) (fl_tff fl) (fl_tcp fl))
           [] [] (fl_e fl)).

(** ** Encryption *)

Context `{Aead}.

(** [aes.NewCipher] accepts keys of 16, 24 or 32 bytes. *)
Definition aes_key_ok (key : string) : bool :=
  (String.length key =? 16)%nat || (String.length key =? 24)%nat || (String.length key =? 32)%nat.

Definition NonceSize : nat := 12.

(** A [([]byte, error)] pair: the bytes and whether the error is nil.  [nonce] is
    what the random source yields, [None] when reading it fails. *)
Definition encrypt (content key : string) (nonce : option string) : string * bool :=
  if aes_key_ok key then
    match nonce with
    | None => (content, false)
    | Some nc => (nc +:+ gcm_Seal key nc content, true)
    end
  else (content, false).

(** The first [k] bytes and the rest; slicing past the end panics. *)
Fixpoint str_cut (k : nat) (s : string) : outcome (string * string) :=
  match k, s with
  | O, _ => Ret ("", s)
  | S k', String c s' => '(a, b) ← str_cut k' s'; Ret (String c a, b)
  | S _, EmptyString => Panic
  end.

Definition decrypt (content key : string) : outcome (string * bool) :=
  if aes_key_ok key then
    '(nonce, rest) ← str_cut NonceSize content;
    match gcm_Open key nonce rest with
    | Some plainText => Ret (plainText, true)
    | None => Ret (rest, false)
    end
  else Ret (content, false).

(** [None] is the nil slice. *)
Definition getFileContent (filePath key : string) (nonce : option string) (fs : FS) : option string :=
  if os_Open filePath fs then
    match io_ReadAll filePath fs with
    | None => None
    | Some content =>
        let '(content', ok) := encrypt content key nonce in
        if ok then Some content' else None
    end
  else None.

(** ** The local part of storing and fetching *)

Definition storePath (req : StoreFileRequest) (n : NodeInfo) : string :=
  if DuplicationReq req then sprintf_x (Identifier n) +:+ "Replicated/" +:+ sf_FileName req
  else sprintf_x (Identifier n) +:+ "Files/" +:+ sf_FileName req.

Definition lookPath (name : string) (n : NodeInfo) : string :=
  sprintf_x (Identifier n) +:+ "Files/" +:+ name.

(** [StoreFile] up to the duplication call: the reply status, whether the handler
    returns an error, and the machine. *)
Definition store_local (req : StoreFileRequest) (m : Machine FS) : FileStat * bool * Machine FS :=
  let c := m_chord m in
  let filePath := storePath req (node c) in
  match os_Create filePath (m_fs m) with
  | None => (CREATEERR, true, m)
  | Some fs1 =>
      let '(fs2, wok) := file_Write filePath (sf_FileContent req) fs1 in
      if wok then
        if DuplicationReq req
        then (FILEOK, false, mkMachine (set_replicatedFiles (replicatedFiles c ++ [sf_FileName req]) c) fs2)
        else (FILEOK, false, mkMachine (set_files (files c ++ [sf_FileName req]) c) fs2)
      else (WRITEERR, true, mkMachine c fs2)
  end.

Definition LookUp (req : RetreiveFileRequest) (resp : RetreiveFileResponse) (m : Machine FS) : RetreiveFileResponse :=
  let n := node (m_chord m) in
  let filePath := lookPath (rf_FileName req) n in
  if os_Open filePath (m_fs m) then
    match io_ReadAll filePath (m_fs m) with
    | None => mkRetreiveFileResponse (rf_NodeAddress resp) (rf_Identifier resp) READERR ""
    | Some content => mkRetreiveFileResponse (NodeAddress n) (Identifier n) FILEOK content
    end
  else mkRetreiveFileResponse (rf_NodeAddress resp) (rf_Identifier resp) NOSUCHFILE "".

End Files.
