(* ===== verification/GoProg.v ===== *)
(** * Programs with critical sections and remote calls

    The shape of a goroutine of the Chord node: sections executed under the
    node's mutex (or single unlocked accesses), remote calls made outside it,
    and [go] statements.  A [PStep] is one atomic access to the local state
    [S]; between two of them any other goroutine or handler may run.

    [wp] is the weakest precondition of a program for an invariant of the local
    state: it says what every interleaving guarantees when each atomic section
    starts from an arbitrary state that satisfies the invariant. [exec] runs a
    program against a function that answers the remote calls. *)

From S2P Require Import Prelude.

Section Prog.
Context {S Req Rep Task : Type}.

Inductive prog (A : Type) : Type :=
| PRet (a : A)
| PExit
| PStep (f : S → outcome (S * prog A))
| PCall (dst : string) (req : Req) (k : option Rep → prog A)
| PGo (t : Task) (k : prog A).

Arguments PRet {A} a.
Arguments PExit {A}.
Arguments PStep {A} f.
Arguments PCall {A} dst req k.
Arguments PGo {A} t k.

Fixpoint pbind {A B} (p : prog A) (g : A → prog B) : prog B :=
  match p with
  | PRet a => g a
  | PExit => PExit
  | PStep f => PStep (λ s, match f s with
                           | Ret (s', p') => Ret (s', pbind p' g)
                           | Panic => Panic
                           | Exit => Exit
                           end)
  | PCall d r k => PCall d r (λ o, pbind (k o) g)
  | PGo t k => PGo t (pbind k g)
  end.

(** ** Weakest preconditions *)

Section Wp.
Variable I : S → Prop.            (* the invariant of the local state *)
Variable ok : Req → Rep → Prop.   (* what the program may assume of a reply *)
Variable asks : string → Req → Prop.  (* what every request must satisfy *)
Variable goes : Task → Prop.      (* what every started goroutine must satisfy *)

Fixpoint wp {A} (p : prog A) (Q : A → Prop) : Prop :=
  match p with
  | PRet a => Q a
  | PExit => True
  | PStep f => ∀ s, I s → match f s with
                          | Ret (s', p') => I s' ∧ wp p' Q
                          | Panic => False
                          | Exit => True
                          end
  | PCall d r k => asks d r ∧ wp (k None) Q ∧ ∀ rep, ok r rep → wp (k (Some rep)) Q
  | PGo t k => goes t ∧ wp k Q
  end.

End Wp.

(** ** Sequential execution

    [call] answers a remote call from the states of all machines [W]: the reply,
    or [None] when the destination cannot be reached, and the states afterwards.
    [get]/[put] access the machine the program runs on.  The started goroutines
    are collected in order. *)

Section Exec.
Context {W : Type}.
Variable get : W → option S.
Variable put : S → W → W.
Variable call : string → Req → W → outcome (option Rep * W).

Fixpoint exec {A} (p : prog A) (w : W) : outcome (A * list Task * W) :=
  match p with
  | PRet a => Ret (a, [], w)
  | PExit => Exit
  | PStep f => match get w with
               | None => Panic
               | Some s => match f s with
                           | Ret (s', p') => exec p' (put s' w)
                           | Panic => Panic
                           | Exit => Exit
                           end
               end
  | PCall d r k => match call d r w with
                   | Ret (o, w') => exec (k o) w'
                   | Panic => Panic
                   | Exit => Exit
                   end
  | PGo t k => match exec k w with
               | Ret (a, ts, w') => Ret (a, t :: ts, w')
               | Panic => Panic
               | Exit => Exit
               end
  end.

End Exec.

(** ** Number of remote calls *)

(** [calls_le n p]: no run of [p] makes more than [n] remote calls, whatever the
    states and replies. *)
Fixpoint calls_le {A} (n : nat) (p : prog A) : Prop :=
  match p with
  | PRet _ | PExit => True
  | PStep f => ∀ s, match f s with Ret (_, p') => calls_le n p' | _ => True end
  | PCall _ _ k => match n with O => False | Datatypes.S n' => ∀ o, calls_le n' (k o) end
  | PGo _ k => calls_le n k
  end.

(** Induction over programs, through the results of atomic sections. *)
Fixpoint prog_rect' {A} (P : prog A → Prop)
    (Hret : ∀ a, P (PRet a)) (Hexit : P PExit)
    (Hstep : ∀ f, (∀ s, match f s with Ret (_, p') => P p' | _ => True end) → P (PStep f))
    (Hcall : ∀ d r k, (∀ o, P (k o)) → P (PCall d r k))
    (Hgo : ∀ t k, P k → P (PGo t k)) (p : prog A) : P p :=
  match p with
  | PRet a => Hret a
  | PExit => Hexit
  | PStep f => Hstep f (λ s, match f s as o return match o with Ret (_, p') => P p' | _ => True end with
                             | Ret (s', p') => prog_rect' P Hret Hexit Hstep Hcall Hgo p'
                             | Panic => I
                             | Exit => I
                             end)
  | PCall d r k => Hcall d r k (λ o, prog_rect' P Hret Hexit Hstep Hcall Hgo (k o))
  | PGo t k => Hgo t k (prog_rect' P Hret Hexit Hstep Hcall Hgo k)
  end.

Lemma wp_mono {A} I ok asks goes (p : prog A) (Q Q' : A → Prop) :
  (∀ a, Q a → Q' a) → wp I ok asks goes p Q → wp I ok asks goes p Q'.
Proof.
  intros HQ. induction p as [a| |f IH|d r k IH|t k IH] using prog_rect'; simpl; try naive_solver.
  intros Hwp s Hs. specialize (Hwp s Hs). specialize (IH s). destruct (f s) as [[s' p']| |]; naive_solver.
Qed.

Lemma wp_bind {A B} I ok asks goes (p : prog A) (g : A → prog B) (Q : B → Prop) :
  wp I ok asks goes p (λ a, wp I ok asks goes (g a) Q) → wp I ok asks goes (pbind p g) Q.
Proof.
  induction p as [a| |f IH|d r k IH|t k IH] using prog_rect'; simpl; try naive_solver.
  intros Hwp s Hs. specialize (Hwp s Hs). specialize (IH s). destruct (f s) as [[s' p']| |]; naive_solver.
Qed.

Lemma calls_le_mono {A} n m (p : prog A) : n ≤ m → calls_le n p → calls_le m p.
Proof.
  intros Hnm Hc. revert n m Hnm Hc.
  induction p as [a| |f IH|d r k IH|t k IH] using prog_rect'; intros n m Hnm Hc; simpl in *; try done.
  - intros s. specialize (Hc s). specialize (IH s). destruct (f s) as [[s' p']| |]; [|done..]. by apply (IH n).
  - destruct n as [|n], m as [|m]; try done; [lia|]. intros o. apply (IH o n); [lia|done].
  - by apply (IH n).
Qed.

Lemma calls_le_bind {A B} n m (p : prog A) (g : A → prog B) :
  calls_le n p → (∀ a, calls_le m (g a)) → calls_le (n + m) (pbind p g).
Proof.
  intros Hp Hg. revert n Hp.
  induction p as [a| |f IH|d r k IH|t k IH] using prog_rect'; intros n Hp; simpl in *; try done.
  - apply (calls_le_mono m); [lia|done].
  - intros s. specialize (Hp s). specialize (IH s). destruct (f s) as [[s' p']| |]; [|done..]. by apply IH.
  - destruct n as [|n]; [done|]. simpl. intros o. by apply IH.
  - by apply IH.
Qed.

(** Running a sequence runs its parts, and collects the goroutines of both. *)
Lemma exec_bind {W A B} get put call (p : prog A) (g : A → prog B) (w : W) :
  exec get put call (pbind p g) w =
  '(a, ts, w1) ← exec get put call p w; '(b, ts', w2) ← exec get put call (g a) w1; Ret (b, (ts ++ ts')%list, w2).
Proof.
  revert w. induction p as [a| |f IH|d r k IH|t k IH] using prog_rect'; intros w; simpl; try done.
  - by destruct (exec get put call (g a) w) as [[[b ts] w2]| |].
  - destruct (get w) as [s|]; [|done]. specialize (IH s). destruct (f s) as [[s' p']| |]; [|done..]. apply IH.
  - destruct (call d r w) as [[o w']| |]; [|done..]. apply IH.
  - rewrite IH. destruct (exec get put call k w) as [[[a ts] w1]| |]; [|done..]. simpl.
    by destruct (exec get put call (g a) w1) as [[[b ts'] w2]| |].
Qed.

End Prog.

Arguments prog S Req Rep Task A : clear implicits.
Arguments PRet {S Req Rep Task A} a.
Arguments PExit {S Req Rep Task A}.
Arguments PStep {S Req Rep Task A} f.
Arguments PCall {S Req Rep Task A} dst req k.
Arguments PGo {S Req Rep Task A} t k.
