(* ===== verification/ChordRPC.v ===== *)
(** * Lab3_Chord: the node's goroutines

    [chordRPC.go] and the functions of [chord.go] that release the mutex or call
    other nodes, as programs ([GoProg]): one [PStep] per critical section or
    unlocked access, one [PCall] per [chord.call].  A section that keeps the
    mutex across a call (the file hand-over of [reassignDuplicatedToMe]) is cut
    at the call, which admits more interleavings than the code has; [ChordLocks] has
    the mutex.

    [serve] is the dispatch of incoming requests to the handlers. *)

From S2P Require Import Prelude GoFiles ChordUtil ChordNode ChordFiles GoProg.
From Stdlib Require Import Ascii.
Open Scope string_scope.
Open Scope Z_scope.

(** ** Messages *)

Inductive ChordReq :=
| RJoin (q : JoinRequest)
| RNotify (q : NotifyRequest)
| RFindSuccessor (q : FindRequest)
| RStabilize (q : StabilizeRequest)
| RCheckPred (q : DeadCheck)
| RStoreFile (q : StoreFileRequest)
| RLookUp (q : RetreiveFileRequest).

Inductive ChordRep :=
| AJoin (r : Response)
| ANotify (r : NotifyResponse)
| AFindSuccessor (r : Response)
| AStabilize (r : StabilizeResponse)
| ACheckPred (r : DeadCheck)
| AStoreFile (r : StoreFileResponse)
| ALookUp (r : RetreiveFileResponse).

(** Goroutines started with [go]. *)
Inductive ChordTask :=
| TCallNotify (a : string)
| TCallJoin (a : string).

Section Programs.
Context {FS : Type} `{FileSystem FS} `{Sha1} `{Aead}.

Notation P := (prog (Machine FS) ChordReq ChordRep ChordTask).

(** A critical section over [chord.node], and one that only reads it. *)
Definition with_node {A} (f : NodeInfo → outcome (NodeInfo * P A)) : P A :=
  PStep (λ m, '(n', p) ← f (node (m_chord m)); Ret (mkMachine (set_node n' (m_chord m)) (m_fs m), p)).

Definition read_node {A} (f : NodeInfo → P A) : P A := with_node (λ n, Ret (n, f n)).

(** ** Calls to other nodes *)

Definition CallNotify (nodeAddress : string) : P unit :=
  read_node (λ n,
    let notifyReq := mkNotifyRequest (NodeAddress n) (Identifier n) in
    PCall nodeAddress (RNotify notifyReq) (λ o,
      match o with
      | Some (ANotify resp) =>
          with_node (λ n,
            if nr_Success resp then
              n' ← set_succ0 nodeAddress (set_JoinPending false n); Ret (n', PRet tt)
            else Ret (n, PGo (TCallNotify (nr_NewPredAddress resp)) (PRet tt)))
      | _ => PRet tt
      end)).

Definition CallJoin (nodeAddress : string) : P unit :=
  read_node (λ n,
    let joinReq := mkJoinRequest (NodeAddress n) (Identifier n) in
    PCall nodeAddress (RJoin joinReq) (λ o,
      match o with
      | Some (AJoin resp) =>
          if r_IsSuccessor resp then PGo (TCallNotify (r_NodeAddress resp)) (PRet tt)
          else PGo (TCallJoin (r_NodeAddress resp)) (PRet tt)
      | _ => PExit
      end)).

(** Whether the call succeeded, and the reply. *)
Definition CallFindSuccessor (findReq : FindRequest) (response : Response) : P (bool * Response) :=
  read_node (λ n,
    if decide (QueryNodeAddress findReq = NodeAddress n) then
      PRet (true, mkResponse true (NodeAddress n) (r_Identifier response))
    else
      PCall (QueryNodeAddress findReq) (RFindSuccessor findReq) (λ o,
        match o with
        | Some (AFindSuccessor resp) => PRet (true, resp)
        | _ => PRet (false, response)
        end)).

Definition CallStabilize : P unit :=
  with_node (λ n,
    let stabilizeReq := mkStabilizeRequest (NodeAddress n) (Identifier n) in
    succ ← slice_get (Successors n) 0;
    let rest := PCall succ (RStabilize stabilizeReq) (λ o,
      match o with
      | Some (AStabilize stabilizeResp) =>
          with_node (λ n,
            if negb (YouGood stabilizeResp) then
              if decide (sr_NewPredAddress stabilizeResp ≠ NodeAddress n)
              then Ret (n, PGo (TCallNotify (sr_NewPredAddress stabilizeResp)) (PRet tt))
              else Ret (n, PRet tt)
            else n' ← verifySuccs stabilizeResp n; Ret (n', PRet tt))
      | _ => with_node (λ n, n' ← clearDeadSucc n; Ret (n', PRet tt))
      end) in
    if decide (succ = "X") then n' ← findNewSucc n; Ret (n', rest)
    else if decide (succ = NodeAddress n) then Ret (n, PRet tt)
    else Ret (n, rest)).

Definition CallCheckPred : P bool :=
  read_node (λ n,
    if decide (Predecessor n = "X") then PRet false
    else if decide (Predecessor n = NodeAddress n) then PRet true
    else read_node (λ n,   (* the argument is read after the unlock *)
      PCall (Predecessor n) (RCheckPred (mkDeadCheck false)) (λ o, PRet (bool_decide (is_Some o))))).

(** ** Finding the node responsible for an identifier *)

Fixpoint resolve_loop (k : nat) (findReq : FindRequest) : P string :=
  match k with
  | O => PRet "X"
  | S k' =>
      read_node (λ n,
        if decide (QueryNodeAddress findReq = NodeAddress n) then PRet (NodeAddress n)
        else pbind (CallFindSuccessor findReq Response0) (λ '(ok, resp),
          if ok then
            if r_IsSuccessor resp then PRet (r_NodeAddress resp)
            else resolve_loop k' (mkFindRequest (QueryIdentifier findReq) (r_NodeAddress resp))
          else PRet "X"))
  end.

Definition resolveIdentifier (identifier : Z) : P string :=
  with_node (λ n,
    '(retCode, response) ← find n identifier Response0;
    if decide (retCode ≠ PASSALONG) then Ret (n, PRet (r_NodeAddress response))
    else if decide (r_NodeAddress response = NodeAddress n) then Ret (n, PRet (NodeAddress n))
    else Ret (n, resolve_loop 32 (mkFindRequest identifier (r_NodeAddress response)))).

(** ** Fingers *)

(** The loop of [resolveFinger], entered with the mutex about to be released. *)
Fixpoint resolve_finger_loop (k : nat) (fingerIndex : Z) (findReq : FindRequest) : P bool :=
  match k with
  | O => PRet true
  | S k' =>
      pbind (CallFindSuccessor findReq Response0) (λ '(ok, resp),
        with_node (λ n,
          if negb ok then n' ← set_finger_addr fingerIndex "X" n; Ret (n', PRet false)
          else if r_IsSuccessor resp then
            n' ← set_finger_addr fingerIndex (r_NodeAddress resp) n; Ret (n', PRet true)
          else if decide (r_NodeAddress resp = NodeAddress n) then
            n' ← set_finger_addr fingerIndex (NodeAddress n) n; Ret (n', PRet true)
          else Ret (n, resolve_finger_loop k' fingerIndex
                         (mkFindRequest (QueryIdentifier findReq) (r_NodeAddress resp)))))
  end.

(** Runs inside the section [FixFingers] holds. *)
Definition resolveFinger (nodeToAsk : string) (fingerIndex : Z) (n : NodeInfo) : outcome (NodeInfo * P bool) :=
  ask ← (if decide (nodeToAsk = "X") then
           nonClearedFingerIndex ← getNextValidFinger fingerIndex n;
           if nonClearedFingerIndex =? -1 then Ret (Predecessor n)
           else f ← slice_get (FingerTable n) nonClearedFingerIndex; Ret (fe_NodeAddress f)
         else Ret nodeToAsk);
  if decide (ask = "X") then Ret (n, PRet false)
  else
    finger ← slice_get (FingerTable n) fingerIndex;
    if decide (ask = NodeAddress n) then
      n' ← set_finger_addr fingerIndex (NodeAddress n) n; Ret (n', PRet true)
    else Ret (n, resolve_finger_loop 32 fingerIndex (mkFindRequest (fe_Identifier finger) ask)).

Definition FixFingers : P unit :=
  with_node (λ n,
    succ0 ← slice_get (Successors n) 0;
    let validSucc := bool_decide (succ0 ≠ "X") in
    let succId := hashString succ0 in
    let n := set_NextFinger ((NextFinger n + 1) mod keySize) n in
    finger ← slice_get (FingerTable n) (NextFinger n);
    n ← (if validSucc && between (Identifier n) (fe_Identifier finger) succId true
         then set_finger_addr (NextFinger n) succ0 n else Ret n);
    finger ← slice_get (FingerTable n) (NextFinger n);
    let askNode := if validSucc && bool_decide (fe_NodeAddress finger = NodeAddress n)
                   then succ0 else fe_NodeAddress finger in
    '(n, p) ← resolveFinger askNode (NextFinger n) n;
    Ret (n, pbind p (λ _, PRet tt))).

(** ** Files *)

Definition CallDuplication (req : StoreFileRequest) : P unit :=
  with_node (λ n, s ← slice_get (Successors n) 0;
    if decide (s = "X") then Ret (n, PRet tt)
    else Ret (n, with_node (λ n, s ← slice_get (Successors n) 0;
      if decide (s = NodeAddress n) then Ret (n, PRet tt)
      else Ret (n, with_node (λ n, s ← slice_get (Successors n) 0;
        Ret (n, PCall s (RStoreFile req) (λ _, PRet tt))))))).

(** The reply, or [None] when the handler returns an error. *)
Definition StoreFile (req : StoreFileRequest) : P (option StoreFileResponse) :=
  PStep (λ m,
    let '(status, err, m') := store_local req m in
    if err then Ret (m', PRet None)
    else if DuplicationReq req then Ret (m', PRet (Some (mkStoreFileResponse status)))
    else
      let req' := mkStoreFileRequest (sf_FileIdentifier req) (sf_FileName req) (sf_FileContent req) true in
      Ret (m', pbind (CallDuplication req') (λ _, PRet (Some (mkStoreFileResponse status))))).

(** What [CallStoreFile] and [CallLookup] report. *)
Inductive StoreReport := StoreUnreachable | StoreDone (s : FileStat).

Definition CallStoreFile (req : StoreFileRequest) : P StoreReport :=
  pbind (resolveIdentifier (sf_FileIdentifier req)) (λ destinationNode,
    PCall destinationNode (RStoreFile req) (λ o,
      match o with
      | Some (AStoreFile resp) => PRet (StoreDone (sf_FileStatus resp))
      | _ => PRet StoreUnreachable
      end)).

Inductive LookReport :=
| LookUnreachable
| LookStatus (s : FileStat)
| LookDecryptFailure
| LookContent (identifier : Z) (address content : string).

Definition CallLookup (req : RetreiveFileRequest) : P LookReport :=
  pbind (resolveIdentifier (rf_FileIdentifier req)) (λ destinationNode,
    PCall destinationNode (RLookUp req) (λ o,
      match o with
      | Some (ALookUp resp) =>
          if decide (rf_FileStatus resp ≠ FILEOK) then PRet (LookStatus (rf_FileStatus resp))
          else PStep (λ m,
            '(content, ok) ← decrypt (rf_FileContent resp) (encKey (m_chord m));
            Ret (m, PRet (if (ok : bool) then LookContent (rf_Identifier resp) (rf_NodeAddress resp) content
                          else LookDecryptFailure)))
      | _ => PRet LookUnreachable
      end)).

(** The loop of [reassignToPred] over the entries not yet visited. *)
Fixpoint reassign_loop (entries keepFiles : list string) : P unit :=
  match entries with
  | [] => PStep (λ m,
      let c := m_chord m in
      if (length keepFiles <? length (files c))%nat
      then Ret (mkMachine (set_files keepFiles c) (m_fs m), PRet tt) else Ret (m, PRet tt))
  | entry :: rest => PStep (λ m,
      let n := node (m_chord m) in
      let fileId := hashString entry in
      if between (hashString (Predecessor n)) fileId (Identifier n) true
      then Ret (m, reassign_loop rest (keepFiles ++ [entry]))
      else
        let path := sprintf_x (Identifier n) +:+ "Files/" +:+ entry in
        match (if os_Open path (m_fs m) then io_ReadAll path (m_fs m) else None) with
        | None => Ret (m, reassign_loop rest keepFiles)
        | Some content =>
            let m' := mkMachine (m_chord m) (os_Remove path (m_fs m)) in
            Ret (m', pbind (CallStoreFile (mkStoreFileRequest fileId entry content false))
                       (λ _, reassign_loop rest keepFiles))
        end)
  end.

Definition reassignToPred : P unit :=
  PStep (λ m,
    let c := m_chord m in
    if decide (files c = [] ∨ Predecessor (node c) = NodeAddress (node c)) then Ret (m, PRet tt)
    else Ret (m, reassign_loop (files c) [])).

(** The loop of [reassignDuplicatedToMe] over the directory entries. *)
Fixpoint adopt_loop (entries : list string) : P unit :=
  match entries with
  | [] => PStep (λ m,
      let c := m_chord m in
      Ret (mkMachine (set_replicatedFiles [] (set_files (files c ++ replicatedFiles c) c)) (m_fs m), PRet tt))
  | entry :: rest => PStep (λ m,
      let n := node (m_chord m) in
      let dst := sprintf_x (Identifier n) +:+ "Files/" +:+ entry in
      let src := sprintf_x (Identifier n) +:+ "Replicated" +:+ "/" +:+ entry in
      let fs1 := default (m_fs m) (os_Rename src dst (m_fs m)) in
      let m1 := mkMachine (m_chord m) fs1 in
      match (if os_Open dst fs1 then io_ReadAll dst fs1 else None) with
      | None => Ret (m1, adopt_loop rest)
      | Some content =>
          Ret (m1, pbind (CallDuplication (mkStoreFileRequest (hashString entry) entry content true))
                     (λ _, adopt_loop rest))
      end)
  end.

Definition reassignDuplicatedToMe : P unit :=
  PStep (λ m,
    let c := m_chord m in
    if decide (replicatedFiles c = []) then Ret (m, PRet tt)
    else Ret (m, adopt_loop (default [] (os_ReadDir (duplDir (node c)) (m_fs m))))).

(** The check-predecessor branch of [initIntervals]. *)
Definition checkPredTick : P unit :=
  pbind CallCheckPred (λ alive,
    if alive then reassignToPred
    else pbind reassignDuplicatedToMe (λ _, with_node (λ n, Ret (set_Predecessor "X" n, PRet tt)))).

(** ** Incoming requests *)

(** A handler that runs in one section over [chord.node]. *)
Definition serve_node {A} (h : NodeInfo → outcome (A * NodeInfo)) (reply : A → ChordRep) : P (option ChordRep) :=
  with_node (λ n, '(a, n') ← h n; Ret (n', PRet (Some (reply a)))).

Definition serve (req : ChordReq) : P (option ChordRep) :=
  match req with
  | RJoin q => serve_node (Join q Response0) AJoin
  | RNotify q => serve_node (Notify q NotifyResponse0) ANotify
  | RFindSuccessor q => serve_node (FindSuccessor q Response0) AFindSuccessor
  | RStabilize q => serve_node (Stabilize q StabilizeResponse0) AStabilize
  | RCheckPred q => serve_node (CheckPred q (mkDeadCheck false)) ACheckPred
  | RStoreFile q => pbind (StoreFile q) (λ o, PRet (AStoreFile <$> o))
  | RLookUp q => PStep (λ m, Ret (m, PRet (Some (ALookUp (LookUp q RetreiveFileResponse0 m)))))
  end.

(** The body of a goroutine started with [go]. *)
Definition task (t : ChordTask) : P unit :=
  match t with
  | TCallNotify a => CallNotify a
  | TCallJoin a => CallJoin a
  end.

(** ** Sequential runs of a group of machines *)

Notation W := (gmap string (Machine FS)).

(** [chord.call]: an address with no machine cannot be dialled; a handler that
    crashes takes its machine down and the call fails.  [fuel] bounds the depth
    of calls made by handlers; only [StoreFile] makes one, and the duplication
    it asks for makes none, so 2 is enough. *)
Fixpoint chord_call (fuel : nat) (dst : string) (req : ChordReq) (w : W) : outcome (option ChordRep * W) :=
  match fuel with
  | O => Ret (None, w)
  | S fuel' =>
      match w !! dst with
      | None => Ret (None, w)
      | Some _ =>
          match exec (λ w, w !! dst) (λ m w, <[dst := m]> w) (chord_call fuel') (serve req) w with
          | Ret (o, _, w') => Ret (o, w')
          | _ => Ret (None, delete dst w)
          end
      end
  end.

(** Run a program of the machine at [a] to its end. *)
Definition run_at {A} (a : string) (p : P A) (w : W) : outcome (A * list ChordTask * W) :=
  exec (λ w, w !! a) (λ m w, <[a := m]> w) (chord_call 2) p w.

End Programs.
