(* ===== verification/ChordSafety.v ===== *)
(** * Lab3_Chord: every goroutine and handler keeps the node well formed

    The rely/guarantee argument for one node: each critical section of each
    goroutine and handler, started from any well-formed node, does not panic
    and leaves the node well formed, whatever the replies are, as long as a
    positive [Stabilize] reply carries enough successors.  Every handler
    gives such replies, which is the interface between the nodes. *)

From S2P Require Import Prelude GoFiles ChordUtil ChordNode ChordFiles GoProg ChordRPC.
Open Scope string_scope.
Open Scope Z_scope.

(** ** Rules for an invariant of the node

    [safe J p Q]: started in any state whose node satisfies [J], every critical
    section of [p] returns and keeps [J], and [p] ends with a result in [Q]. *)

Section Logic.
Context {FS : Type} `{FileSystem FS} `{Sha1} `{Aead}.

Notation P := (prog (Machine FS) ChordReq ChordRep ChordTask).

(** What replies satisfy, what requests must satisfy, and the invariant. *)
Variable ok : ChordReq → ChordRep → Prop.
Variable asks : string → ChordReq → Prop.
Variable J : NodeInfo → Prop.

Definition safe {A} (p : P A) (Q : A → Prop) : Prop :=
  wp (λ m, J (node (m_chord m))) ok asks (λ _, True) p Q.

Lemma safe_step {A} (f : Machine FS → outcome (Machine FS * P A)) Q :
  (∀ m, J (node (m_chord m)) → ∃ m' p, f m = Ret (m', p) ∧ J (node (m_chord m')) ∧ safe p Q) → safe (PStep f) Q.
Proof. intros Hf m Hm. destruct (Hf m Hm) as (m' & p & -> & ? & ?). by split. Qed.

Lemma safe_with_node {A} (f : NodeInfo → outcome (NodeInfo * P A)) Q :
  (∀ n, J n → ∃ n' p, f n = Ret (n', p) ∧ J n' ∧ safe p Q) → safe (with_node f) Q.
Proof.
  intros Hf m Hm. destruct (Hf _ Hm) as (n' & p & Heq & Hn' & Hp).
  unfold with_node. rewrite Heq. by split.
Qed.

Lemma safe_read_node {A} (f : NodeInfo → P A) Q :
  (∀ n, J n → safe (f n) Q) → safe (read_node f) Q.
Proof. intros Hf. apply safe_with_node. intros n Hn. exists n, (f n). auto. Qed.

Lemma safe_bind {A B} (p : P A) (g : A → P B) Q :
  safe p (λ a, safe (g a) Q) → safe (pbind p g) Q.
Proof. apply wp_bind. Qed.

Lemma safe_mono {A} (p : P A) (Q Q' : A → Prop) : (∀ a, Q a → Q' a) → safe p Q → safe p Q'.
Proof. apply wp_mono. Qed.

Lemma safe_call {A} d req (k : option ChordRep → P A) Q :
  asks d req → (∀ o, (∀ rep, o = Some rep → ok req rep) → safe (k o) Q) →
  safe (PCall d req k) Q.
Proof.
  intros Hreq Hk. split; [done|]. split; [by apply Hk|].
  intros rep Hrep. apply Hk. by intros ? [= <-].
Qed.

Lemma safe_unit {A} (p : P A) (Q : A → Prop) : safe p (λ _, True) → (∀ a, Q a) → safe p Q.
Proof. intros Hp HQ. by apply (safe_mono p (λ _, True)). Qed.

Hypothesis asks_find : ∀ d q, asks d (RFindSuccessor q).

Lemma CallFindSuccessor_safe q resp : safe (CallFindSuccessor q resp) (λ _, True).
Proof using asks_find.
  apply safe_read_node. intros n Hn. case_decide; [exact I|]. apply safe_call; [apply asks_find|].
  by intros [[]|] _.
Qed.

(** *** The finger refresh, for any invariant it respects *)

Variables (r : nat) (id : Z) (addr : string).
Hypothesis r_pos : (0 < r)%nat.
Hypothesis J_wf : ∀ n, J n → node_wf r id addr n.
Hypothesis J_next : ∀ n i, 0 ≤ i < keySize → J n → J (set_NextFinger i n).
Hypothesis J_finger : ∀ n n' i a, 0 ≤ i < keySize → J n → set_finger_addr i a n = Ret n' → J n'.

Lemma set_finger_safe {A} i a (x : A) : 0 ≤ i < keySize → ∀ n, J n →
  ∃ n' p, (n' ← set_finger_addr i a n; Ret (n', PRet x)) = Ret (n', p) ∧ J n' ∧ safe p (λ _, True).
Proof using J_wf J_finger.
  clear r_pos.
  intros Hi n Hn. destruct (wf_set_finger_addr r id addr i a n (J_wf n Hn)) as (n' & Heq & _ & _); [lia|].
  rewrite Heq. do 2 eexists. split; [done|]. split; [by apply (J_finger n n' i a)|done].
Qed.

Lemma resolve_finger_loop_safe k i q :
  0 ≤ i < keySize → safe (resolve_finger_loop k i q) (λ _, True).
Proof using J_wf J_finger asks_find.
  clear r_pos.
  intros Hi. revert q. induction k as [|k IH]; intros q; [exact I|].
  apply safe_bind. eapply safe_unit; [apply CallFindSuccessor_safe|].
  intros [fine resp]. apply safe_with_node. intros n Hn.
  destruct fine; simpl; [|by apply set_finger_safe].
  destruct (r_IsSuccessor resp); [by apply set_finger_safe|].
  case_decide; [by apply set_finger_safe|]. do 2 eexists; split; [done|]. by split.
Qed.

Lemma resolveFinger_safe a i n : J n → 0 ≤ i < keySize →
  ∃ n' p, resolveFinger (FS := FS) a i n = Ret (n', p) ∧ J n' ∧ safe p (λ _, True).
Proof using J_wf J_finger asks_find.
  clear r_pos.
  intros HJ Hi. pose proof (J_wf n HJ) as Hn. unfold resolveFinger.
  assert (Hask : ∃ b, (if decide (a = "X") then
      v ← getNextValidFinger i n;
      if v =? -1 then Ret (Predecessor n) else f ← slice_get (FingerTable n) v; Ret (fe_NodeAddress f)
    else Ret a) = Ret b).
  { case_decide; [|by eexists].
    destruct (getNextValidFinger_spec r id addr i n Hn) as (v & -> & Hv & _); [lia|]. cbn [mbind outcome_bind].
    destruct (Z.eqb_spec v (-1)); [by eexists|].
    destruct Hv as [|(? & f & Hf & _)]; [lia|].
    destruct (wf_finger r id addr n v Hn) as (g & -> & _); [lia|]. by eexists. }
  destruct Hask as [b ->]. cbn [mbind outcome_bind].
  case_decide; [do 2 eexists; split; [done|]; by split|].
  destruct (wf_finger r id addr n i Hn) as (g & -> & _); [lia|]. cbn [mbind outcome_bind].
  case_decide; [by apply set_finger_safe|].
  do 2 eexists; split; [done|]. split; [done|]. by apply resolve_finger_loop_safe.
Qed.

Lemma FixFingers_keeps : safe FixFingers (λ _, True).
Proof using r_pos J_wf J_next J_finger asks_find.
  apply safe_with_node. intros n HJ. pose proof (J_wf n HJ) as Hn.
  destruct (wf_succ0 r id addr r_pos n Hn) as (s & -> & _). cbn [mbind outcome_bind].
  set (n1 := set_NextFinger _ n).
  assert (Hnf : 0 ≤ NextFinger n1 < keySize) by (apply Z.mod_pos_bound; unfold keySize; lia).
  assert (HJ1 : J n1) by (by apply J_next). pose proof (J_wf n1 HJ1) as Hn1.
  destruct (wf_finger r id addr n1 (NextFinger n1) Hn1) as (g & -> & _); [lia|]. cbn [mbind outcome_bind].
  match goal with |- context [mbind _ ?m] => assert (Hm : ∃ n2, m = Ret n2 ∧ J n2) end.
  { destruct (bool_decide _ && between _ _ _ _); [|by eexists].
    destruct (wf_set_finger_addr r id addr (NextFinger n1) s n1 Hn1) as (n' & Heq & _ & _); [lia|].
    rewrite Heq. eexists; split; [done|]. by apply (J_finger n1 n' (NextFinger n1) s). }
  destruct Hm as (n2 & -> & HJ2). pose proof (J_wf n2 HJ2) as Hn2. pose proof (wf_next _ _ _ _ Hn2).
  cbn [mbind outcome_bind].
  destruct (wf_finger r id addr n2 (NextFinger n2) Hn2) as (g2 & -> & _); [lia|]. cbn [mbind outcome_bind].
  match goal with |- context [resolveFinger ?a _ _] =>
    destruct (resolveFinger_safe a (NextFinger n2) n2 HJ2) as (n3 & p & -> & Hn3 & Hp) end; [lia|].
  cbn [mbind outcome_bind]. do 2 eexists; split; [done|]. split; [done|].
  apply safe_bind. by eapply safe_unit.
Qed.

End Logic.

(** ** Every goroutine and handler keeps the node well formed *)

Section Safety.
Context {FS : Type} `{FileSystem FS} `{Sha1} `{Aead}.
Variables (r : nat) (id : Z) (addr : string).
Hypothesis r_pos : (0 < r)%nat.

(** The interface between nodes: a positive reply to [Stabilize] carries at least
    [r - 1] successors. *)
Definition reply_ok (_ : ChordReq) (rep : ChordRep) : Prop :=
  match rep with
  | AStabilize s => YouGood s = true → (r - 1 ≤ length (NodeSuccessors s))%nat
  | _ => True
  end.

(** Requests that carry the sender carry this node. *)
Definition request_ok (_ : string) (req : ChordReq) : Prop :=
  match req with
  | RJoin q => jr_NodeAddress q = addr ∧ jr_Identifier q = id
  | RNotify q => nr_NodeAddress q = addr ∧ nr_Identifier q = id
  | RStabilize q => sr_NodeAddress q = addr ∧ sr_Identifier q = id
  | _ => True
  end.

Notation P := (prog (Machine FS) ChordReq ChordRep ChordTask).
Notation wf := (node_wf r id addr).
Notation safe := (@safe FS reply_ok request_ok (node_wf r id addr) _).

(** *** The goroutines *)

Lemma CallNotify_safe a : safe (CallNotify a) (λ _, True).
Proof using r_pos.
  apply safe_read_node. intros n Hn. apply safe_call.
  { split; [apply (wf_addr _ _ _ _ Hn) | apply (wf_id _ _ _ _ Hn)]. }
  intros [[]|] _; try exact I. apply safe_with_node. intros n1 Hn1.
  destruct (nr_Success _); [|by do 2 eexists].
  destruct (wf_set_succ0 r id addr r_pos a (set_JoinPending false n1)) as (n' & -> & Hn' & _);
    [by apply wf_set_JoinPending|]. by do 2 eexists.
Qed.

Lemma CallJoin_safe a : safe (CallJoin a) (λ _, True).
Proof.
  apply safe_read_node. intros n Hn. apply safe_call.
  { split; [apply (wf_addr _ _ _ _ Hn) | apply (wf_id _ _ _ _ Hn)]. }
  intros [[]|] _; try exact I. destruct (r_IsSuccessor _); by split.
Qed.

Lemma CallStabilize_safe : safe CallStabilize (λ _, True).
Proof using r_pos.
  apply safe_with_node. intros n Hn.
  destruct (wf_succ0 r id addr r_pos n Hn) as (s & -> & _). cbn [mbind outcome_bind].
  set (rest := PCall _ _ _). assert (Hrest : safe rest (λ _, True)).
  { apply safe_call; [split; [apply (wf_addr _ _ _ _ Hn) | apply (wf_id _ _ _ _ Hn)]|].
    assert (Hclear : safe (with_node (λ n, n' ← clearDeadSucc n; Ret (n', PRet tt))) (λ _, True)).
    { apply safe_with_node. intros n1 Hn1.
      destruct (clearDeadSucc_keeps r id addr r_pos n1 Hn1) as (n' & -> & Hn' & _). by do 2 eexists. }
    intros [[]|] Hrep; try exact Hclear.
    apply safe_with_node. intros n1 Hn1. destruct (YouGood r0) eqn:Hgood; simpl.
    - destruct (verifySuccs_keeps r id addr r_pos r0 n1 Hn1) as (n' & -> & Hn').
      { by apply (Hrep _ eq_refl). }
      by do 2 eexists.
    - case_decide; by do 2 eexists. }
  repeat case_decide; [|by do 2 eexists..].
  destruct (findNewSucc_keeps r id addr r_pos n Hn) as (n' & -> & Hn'). by do 2 eexists.
Qed.

Lemma CallCheckPred_safe : safe CallCheckPred (λ _, True).
Proof.
  apply safe_read_node. intros n Hn. case_decide; [exact I|]. case_decide; [exact I|].
  apply safe_read_node. intros n1 Hn1. by apply safe_call.
Qed.

Lemma resolve_loop_safe k q : safe (resolve_loop k q) (λ _, True).
Proof.
  revert q. induction k as [|k IH]; intros q; [exact I|]. apply safe_read_node. intros n Hn.
  case_decide; [exact I|]. apply safe_bind. eapply safe_unit; [by apply CallFindSuccessor_safe|].
  intros [[] resp]; [destruct (r_IsSuccessor resp); [exact I|apply IH]|exact I].
Qed.

Lemma resolveIdentifier_safe i : safe (resolveIdentifier i) (λ _, True).
Proof using r_pos.
  apply safe_with_node. intros n Hn.
  destruct (find_ret r id addr r_pos n i Response0 Hn) as [[rc resp] ->]. cbn [mbind outcome_bind].
  repeat case_decide; do 2 eexists; (split; [done|]); (split; [done|]); try exact I.
  apply resolve_loop_safe.
Qed.

Lemma FixFingers_safe : safe FixFingers (λ _, True).
Proof using r_pos.
  apply (FixFingers_keeps reply_ok request_ok (node_wf r id addr) (λ _ _, I) r id addr); [done|done| |].
  - intros n i Hi Hn. by apply wf_set_NextFinger.
  - intros n n' i a Hi Hn Heq.
    destruct (wf_set_finger_addr r id addr i a n Hn) as (n2 & Heq2 & Hn2 & _); [lia|]. congruence.
Qed.

Lemma CallDuplication_safe q : safe (CallDuplication q) (λ _, True).
Proof using r_pos.
  apply safe_with_node. intros n Hn. destruct (wf_succ0 r id addr r_pos n Hn) as (s & -> & _).
  cbn [mbind outcome_bind]. case_decide; [by do 2 eexists|]. do 2 eexists; split; [done|]. split; [done|].
  apply safe_with_node. intros n1 Hn1. destruct (wf_succ0 r id addr r_pos n1 Hn1) as (s1 & -> & _).
  cbn [mbind outcome_bind]. case_decide; [by do 2 eexists|]. do 2 eexists; split; [done|]. split; [done|].
  apply safe_with_node. intros n2 Hn2. destruct (wf_succ0 r id addr r_pos n2 Hn2) as (s2 & -> & _).
  cbn [mbind outcome_bind]. do 2 eexists; split; [done|]. split; [done|]. by apply safe_call.
Qed.

Lemma store_local_node q (m : Machine FS) : node (m_chord (store_local q m).2) = node (m_chord m).
Proof.
  unfold store_local. destruct (os_Create _ _); [|done].
  destruct (file_Write _ _ _) as [? []]; [destruct (DuplicationReq q)|]; done.
Qed.

Lemma StoreFile_safe q : safe (StoreFile q) (λ _, True).
Proof using r_pos.
  apply safe_step. intros m Hm. pose proof (store_local_node q m) as Hm'.
  destruct (store_local q m) as [[st err] m']. simpl in Hm'.
  rewrite <-Hm' in Hm. destruct err; [by do 2 eexists|]. destruct (DuplicationReq q); [by do 2 eexists|].
  do 2 eexists; split; [done|]. split; [done|].
  apply safe_bind. eapply safe_unit; [apply CallDuplication_safe|done].
Qed.

Lemma CallStoreFile_safe q : safe (CallStoreFile q) (λ _, True).
Proof using r_pos.
  apply safe_bind. eapply safe_unit; [apply resolveIdentifier_safe|]. intros d.
  apply safe_call; [done|]. by intros [[]|] _.
Qed.

Lemma reassign_loop_safe l ks : safe (reassign_loop l ks) (λ _, True).
Proof using r_pos.
  revert ks. induction l as [|e l IH]; intros ks; apply safe_step; intros m Hm.
  - cbv zeta. destruct (length ks <? length (files (m_chord m)))%nat;
      do 2 eexists; (split; [done|]); (split; [exact Hm|exact I]).
  - cbv zeta. destruct (between _ _ _ _); [do 2 eexists; split; [done|]; split; [exact Hm|apply IH]|].
    destruct (if os_Open _ _ then _ else _); do 2 eexists; (split; [done|]); (split; [exact Hm|]); [|apply IH].
    apply safe_bind. eapply safe_unit; [apply CallStoreFile_safe|]. intros _. apply IH.
Qed.

Lemma adopt_loop_safe l : safe (adopt_loop l) (λ _, True).
Proof using r_pos.
  induction l as [|e l IH]; apply safe_step; intros m Hm; cbv zeta.
  { do 2 eexists; (split; [done|]); (split; [exact Hm|exact I]). }
  destruct (if os_Open _ _ then _ else _); do 2 eexists; (split; [done|]); (split; [exact Hm|]); [|apply IH].
  apply safe_bind. eapply safe_unit; [apply CallDuplication_safe|]. intros _. apply IH.
Qed.

Lemma checkPredTick_safe : safe checkPredTick (λ _, True).
Proof using r_pos.
  apply safe_bind. eapply safe_unit; [apply CallCheckPred_safe|]. intros [].
  - apply safe_step. intros m Hm. cbv zeta. case_decide; [by do 2 eexists|].
    do 2 eexists; (split; [done|]); (split; [done|]). apply reassign_loop_safe.
  - apply safe_bind. apply (safe_unit reply_ok request_ok _ reassignDuplicatedToMe).
    + apply safe_step. intros m Hm. cbv zeta. case_decide; [by do 2 eexists|].
      do 2 eexists; (split; [done|]); (split; [done|]). apply adopt_loop_safe.
    + intros _. apply safe_with_node. intros n Hn. do 2 eexists; split; [done|].
      split; [by apply wf_set_Predecessor|done].
Qed.

(** *** The handlers, which also establish [reply_ok] for their callers *)

Lemma serve_node_safe {A} (h : NodeInfo → outcome (A * NodeInfo)) (reply : A → ChordRep) (Q : A → Prop) :
  (∀ n, wf n → ∃ a n', h n = Ret (a, n') ∧ wf n' ∧ Q a) →
  safe (serve_node h reply) (λ o, ∃ a, o = Some (reply a) ∧ Q a).
Proof.
  intros Hh. apply safe_with_node. intros n Hn. destruct (Hh n Hn) as (a & n' & -> & Hn' & HQ).
  do 2 eexists; split; [done|]. split; [done|]. by exists a.
Qed.

Lemma keeps_weaken {A} (h : outcome (A * NodeInfo)) :
  keeps wf h → ∃ a n', h = Ret (a, n') ∧ wf n' ∧ True.
Proof. intros (a & n' & ? & ?). by exists a, n'. Qed.

Lemma Stabilize_reply q n : wf n → ∃ a n', Stabilize q StabilizeResponse0 n = Ret (a, n') ∧ wf n' ∧
  (YouGood a = true → (r - 1 ≤ length (NodeSuccessors a))%nat).
Proof.
  intros Hn. pose proof (wf_succs _ _ _ _ Hn). unfold Stabilize.
  repeat case_decide; do 2 eexists; (split; [done|]); simpl;
    (split; [by try apply wf_set_Predecessor|]); [lia|lia|done].
Qed.

Lemma serve_safe q : safe (serve q) (λ o, ∀ rep, o = Some rep → reply_ok q rep).
Proof using r_pos.
  destruct q as [q|q|q|q|q|q|q]; cbn [serve].
  - eapply safe_mono; [|apply (serve_node_safe _ _ (λ _, True)); intros n Hn; by apply keeps_weaken, Join_keeps].
    by intros ? (a & -> & _) ? [= <-].
  - eapply safe_mono; [|apply (serve_node_safe _ _ (λ _, True)); intros n Hn; by apply keeps_weaken, Notify_keeps].
    by intros ? (a & -> & _) ? [= <-].
  - eapply safe_mono; [|apply (serve_node_safe _ _ (λ _, True)); intros n Hn; by apply keeps_weaken, FindSuccessor_keeps].
    by intros ? (a & -> & _) ? [= <-].
  - eapply safe_mono; [|apply serve_node_safe; intros n Hn; by apply Stabilize_reply].
    by intros ? (a & -> & ?) ? [= <-].
  - eapply safe_mono; [|apply (serve_node_safe _ _ (λ _, True)); intros n Hn; by do 2 eexists].
    by intros ? (a & -> & _) ? [= <-].
  - apply safe_bind. eapply safe_unit; [apply StoreFile_safe|]. by intros [] ? [= <-].
  - intros m Hm. split; [done|]. by intros ? [= <-].
Qed.

End Safety.
