(* ===== verification/ChordLookup.v ===== *)
(** * Lab3_Chord: resolving identifiers and joining, end to end

    What the lookup program of a node does on a group of machines: the number of
    calls, the answer on a small ring, the fallback of the finger table, and the
    formation of a ring of two. *)

From S2P Require Import Prelude GoFiles ChordUtil ChordNode ChordRing ChordFiles GoProg ChordRPC ChordSafety.
Open Scope string_scope.
Open Scope Z_scope.

Section Lookup.
Context {FS : Type} `{FileSystem FS} `{Sha1} `{Aead}.

Notation P := (prog (Machine FS) ChordReq ChordRep ChordTask).
Notation W := (gmap string (Machine FS)).

(** ** Running the first critical section *)

Lemma machine_eta (m : Machine FS) : mkMachine (set_node (node (m_chord m)) (m_chord m)) (m_fs m) = m.
Proof. by destruct m as [[]]. Qed.

Lemma run_with_node {A} (a : string) (f : NodeInfo → outcome (NodeInfo * P A)) (w : W) m n' p :
  w !! a = Some m → f (node (m_chord m)) = Ret (n', p) →
  run_at a (with_node f) w = run_at a p (<[a := mkMachine (set_node n' (m_chord m)) (m_fs m)]> w).
Proof. intros Hm Hf. unfold run_at, with_node. cbn [exec]. by rewrite Hm, Hf. Qed.

Lemma run_read_only {A} (a : string) (f : NodeInfo → outcome (NodeInfo * P A)) (w : W) m p :
  w !! a = Some m → f (node (m_chord m)) = Ret (node (m_chord m), p) →
  run_at a (with_node f) w = run_at a p w.
Proof. intros Hm Hf. rewrite (run_with_node a f w m _ p Hm Hf), machine_eta. by rewrite insert_id. Qed.

(** ** The number of calls *)

Lemma with_node_calls {A} n (f : NodeInfo → outcome (NodeInfo * P A)) :
  (∀ nd n' p, f nd = Ret (n', p) → calls_le n p) → calls_le n (with_node f).
Proof.
  intros Hf m. unfold with_node. cbn beta. destruct (f (node (m_chord m))) as [[n' p]| |] eqn:E; [|done..].
  simpl. by eapply Hf.
Qed.

Lemma read_node_calls {A} n (f : NodeInfo → P A) : (∀ nd, calls_le n (f nd)) → calls_le n (read_node f).
Proof. intros Hf. apply with_node_calls. by intros nd n' p [= <- <-]. Qed.

Lemma CallFindSuccessor_calls q resp : calls_le 1 (CallFindSuccessor (FS := FS) q resp).
Proof. apply read_node_calls. intros nd. case_decide; [done|]. by intros [[]|]. Qed.

Lemma resolve_loop_calls k q : calls_le k (resolve_loop (FS := FS) k q).
Proof.
  revert q. induction k as [|k IH]; intros q; [done|]. apply read_node_calls. intros nd.
  case_decide; [done|]. apply (calls_le_bind 1 k); [apply CallFindSuccessor_calls|].
  intros [[] resp]; [destruct (r_IsSuccessor resp)|]; done.
Qed.

Lemma resolve_finger_loop_calls k i q : calls_le k (resolve_finger_loop (FS := FS) k i q).
Proof.
  revert q. induction k as [|k IH]; intros q; [done|].
  apply (calls_le_bind 1 k); [apply CallFindSuccessor_calls|]. intros [ok resp].
  apply with_node_calls. intros nd n' p Heq.
  destruct ok; simpl in Heq; [|by go_inv]. destruct (r_IsSuccessor resp); [by go_inv|].
  case_decide; by go_inv.
Qed.

Lemma resolveFinger_calls a i nd n' p : resolveFinger (FS := FS) a i nd = Ret (n', p) → calls_le 32 p.
Proof.
  unfold resolveFinger. intros Heq. apply bind_Ret_inv in Heq as (b & _ & Heq).
  case_decide; [by go_inv|]. apply bind_Ret_inv in Heq as (f & _ & Heq).
  case_decide; [by go_inv|]. go_inv. apply resolve_finger_loop_calls.
Qed.

End Lookup.

(** C24 (bounded lookups).  Whatever the other nodes answer, resolving an identifier
    makes at most 32 remote calls, refreshing a finger at most 32, and storing a
    file at most 33: none of them can loop for ever. *)
Theorem lookup_calls_bounded {FS : Type} `{FileSystem FS} `{Sha1} (i : Z) (q : StoreFileRequest) :
  calls_le 32 (resolveIdentifier (FS := FS) i) ∧ calls_le 32 (FixFingers (FS := FS)) ∧
  calls_le 33 (CallStoreFile (FS := FS) q).
Proof.
  assert (Hres : ∀ i, calls_le 32 (resolveIdentifier (FS := FS) i)).
  { intros j. apply with_node_calls. intros nd n' p Heq. apply bind_Ret_inv in Heq as ([rc resp] & _ & Heq).
    case_decide; [by go_inv|]. case_decide; [by go_inv|]. go_inv. apply resolve_loop_calls. }
  split; [done|]. split.
  - apply with_node_calls. intros nd n' p Heq. apply bind_Ret_inv in Heq as (s & _ & Heq).
    apply bind_Ret_inv in Heq as (f & _ & Heq). apply bind_Ret_inv in Heq as (n1 & _ & Heq).
    apply bind_Ret_inv in Heq as (f1 & _ & Heq). apply bind_Ret_inv in Heq as ([n2 p2] & Hp & Heq). go_inv.
    apply (calls_le_bind 32 0); [|done]. by eapply resolveFinger_calls.
  - apply (calls_le_bind 32 1); [done|]. intros d. by intros [[]|].
Qed.

(** Lookup without other nodes.  On a consistent ring with at most one member
    more than the successor list, [resolveIdentifier] returns the member
    responsible for the identifier without calling anybody. *)
Theorem resolveIdentifier_small_ring {FS : Type} `{FileSystem FS} `{Sha1} (ring : list string)
    (r : nat) (id : Z) (addr : string) (m : Machine FS) (w : gmap string (Machine FS)) (i : Z) :
  valid_ring ring → (0 < r)%nat → node_wf r id addr (node (m_chord m)) →
  consistent ring (node (m_chord m)) → in_ring i → (length ring ≤ r + 1)%nat → w !! addr = Some m →
  ∃ a, run_at addr (resolveIdentifier i) w = Ret (a, [], w) ∧ owner ring i a.
Proof.
  intros Hv Hr Hn Hc Hi Hlen Hw.
  destruct (find_ret r id addr Hr (node (m_chord m)) i Response0 Hn) as [[rc resp] Hf].
  destruct (find_correct ring Hv _ i Response0 rc resp Hc Hi Hf) as [Hown _].
  assert (Hrc : rc ≠ PASSALONG).
  { intros ->. apply (find_pass_large ring Hv) in Hf; [|done..|].
    - rewrite (wf_succs _ _ _ _ Hn) in Hf. lia.
    - intros Hnil. pose proof (wf_succs _ _ _ _ Hn) as Hl. rewrite Hnil in Hl. simpl in Hl. lia. }
  exists (r_NodeAddress resp). split; [|by apply Hown].
  unfold resolveIdentifier. erewrite run_read_only; [|done|by rewrite Hf; cbn; rewrite decide_True].
  done.
Qed.

(** A machine of the three-node ring. *)
Definition demo_machine : Machine MemFS :=
  mkMachine (mkChord "tcp" demo_member 2 "XXX" "2222" (mkTimings 1 1 1) [] [] "1623456022901234") (mkMemFS ∅ ∅).

Lemma demo_member_wf : node_wf 2 (@hashString demo_sha1 "m") "m" demo_member.
Proof. apply wf_set_Predecessor, wf_set_Successors; [reflexivity|apply demo_init_wf]. Qed.

Lemma resolveIdentifier_small_ring_witness :
  ∃ a, @run_at MemFS mem_fs demo_sha1 _ "m" (@resolveIdentifier MemFS demo_sha1 112) ({["m" := demo_machine]} : gmap string (Machine MemFS))
         = Ret (a, [], {["m" := demo_machine]}) ∧ @owner demo_sha1 demo_ring 112 a.
Proof.
  apply (@resolveIdentifier_small_ring MemFS mem_fs demo_sha1 demo_ring 2 (@hashString demo_sha1 "m") "m" demo_machine);
    [apply demo_ring_valid | lia | apply demo_member_wf | apply demo_member_consistent
    | split; [lia|vm_compute; reflexivity] | vm_compute; lia | apply lookup_singleton_eq].
Defined.

(** ** The last finger *)

(** [FingerTable[keySize]] holds address [a]. *)
Definition last_finger (a : string) (n : NodeInfo) : Prop :=
  ∃ f, FingerTable n !! Z.to_nat keySize = Some f ∧ fe_NodeAddress f = a.

Lemma set_finger_last i a b n n' :
  0 ≤ i < keySize → set_finger_addr i b n = Ret n' → last_finger a n → last_finger a n'.
Proof.
  intros Hi Heq (f & Hf & Ha). unfold set_finger_addr in Heq. apply bind_Ret_inv in Heq as (g & _ & Heq).
  apply bind_Ret_inv in Heq as (t & Ht & Heq). go_inv. apply slice_set_Ret in Ht as [_ ->].
  exists f. simpl. split; [|done]. rewrite list_lookup_insert_ne; [done|]. unfold keySize in *. lia.
Qed.

(** The last finger is never refreshed: [FixFingers], whatever replies it
    gets and however it is interleaved with other goroutines that leave that
    entry alone, never writes [FingerTable[160]]: the refresh index wraps modulo
    160 before it reaches the last entry, which keeps the address it started with
    (the node's own). *)
Theorem FixFingers_skips_last {FS : Type} `{FileSystem FS} `{Sha1} (r : nat) (id : Z) (addr a : string) :
  (0 < r)%nat →
  wp (λ m : Machine FS, node_wf r id addr (node (m_chord m)) ∧ last_finger a (node (m_chord m)))
     (λ _ _, True) (λ _ _, True) (λ _, True) FixFingers (λ _, True).
Proof.
  intros Hr. apply (FixFingers_keeps (λ _ _, True) (λ _ _, True) (λ n, node_wf r id addr n ∧ last_finger a n)
    (λ _ _, I) r id addr); [done|..].
  - by intros n [].
  - intros n i Hi [Hn Hl]. split; [by apply wf_set_NextFinger|done].
  - intros n n' i b Hi [Hn Hl] Heq. split; [|by eapply set_finger_last].
    destruct (wf_set_finger_addr r id addr i b n Hn) as (n2 & Heq2 & Hn2 & _); [lia|]. congruence.
Qed.

Lemma FixFingers_skips_last_witness :
  wp (λ m : Machine MemFS, node_wf 2 (@hashString demo_sha1 "m") "m" (node (m_chord m)) ∧ last_finger "m" (node (m_chord m)))
     (λ _ _, True) (λ _ _, True) (λ _, True) (@FixFingers MemFS demo_sha1) (λ _, True).
Proof. apply (@FixFingers_skips_last MemFS mem_fs demo_sha1 2 (@hashString demo_sha1 "m") "m" "m"). lia. Defined.

(** ** The fallback of the lookup *)

Lemma closest_loop_S n i k resp :
  closest_loop n i (S k) resp =
  (f ← slice_get (FingerTable n) (Z.of_nat (S k));
   if between (Identifier n) i (fe_Identifier f) true
   then Ret (mkResponse (r_IsSuccessor resp) (fe_NodeAddress f) (fe_Identifier f))
   else closest_loop n i k resp).
Proof. done. Qed.

(** The upper half of the finger table is searched first, and its widest arc
    starts right after the node. *)
Lemma closest_last_finger r id addr n i resp :
  node_wf r id addr n → in_ring i → 0 < cw id i ≤ 2 ^ (keySize - 1) → last_finger addr n →
  ∃ f, closestPreceedingNode n i resp = Ret (PASSALONG, mkResponse (r_IsSuccessor resp) addr (fe_Identifier f)).
Proof.
  intros Hn Hi Hcw (f & Hf & Ha). exists f. unfold closestPreceedingNode.
  change (Z.to_nat keySize) with (S 159) in *. rewrite closest_loop_S.
  rewrite slice_get_nat, Hf. cbn [mbind outcome_bind].
  rewrite (wf_id _ _ _ _ Hn), (wf_fingers _ _ _ _ Hn 159%nat f Hf).
  pose proof (wf_ring _ _ _ _ Hn) as Hid.
  pose proof (jumpIdentifier_cw id (Z.of_nat 160) Hid ltac:(unfold keySize; lia)) as Hj.
  assert (Hfin : in_ring (jumpIdentifier id (Z.of_nat 160))) by apply mod_in_ring.
  rewrite (proj2 (between_incl id i _ Hid Hi Hfin)); [by rewrite Ha|]. left. split.
  - intros <-. rewrite cw_self in Hcw. lia.
  - unfold arc. case_decide as E; [pose proof (cw_range id i); lia|]. rewrite Hj. unfold keySize in Hcw. lia.
Qed.

Lemma find_pass_closest `{Sha1} n i resp resp' :
  find n i resp = Ret (PASSALONG, resp') → closestPreceedingNode n i resp = Ret (PASSALONG, resp').
Proof.
  unfold find. generalize (Successors n). intros l. induction l as [|s l IH]; cbn [find_loop]; [done|].
  case_decide; [done|]. destruct (between _ _ _ _); [done|]. by destruct (between _ _ _ _).
Qed.

(** An identifier the successor scan passes on is not the node's own. *)
Lemma find_pass_not_owner `{Sha1} ring n i resp resp' :
  valid_ring ring → consistent ring n → in_ring i → Successors n ≠ [] →
  find n i resp = Ret (PASSALONG, resp') → ¬ owner ring i (NodeAddress n).
Proof.
  intros Hv Hc Hi Hne Hf [_ Hown].
  destruct (find_loop_pass ring n i (Successors n) (NodeAddress n) resp resp') as (Hpred & _ & _);
    [done|done|left; symmetry; apply (co_id _ _ Hc)|apply (co_succ _ _ Hc)|done|].
  specialize (Hpred Hne). specialize (Hown _ (proj1 (co_pred _ _ Hc))).
  rewrite <-(co_id _ _ Hc) in Hown. pose proof (hashString_in_ring (Predecessor n)) as Hp.
  assert (Hid : in_ring (Identifier n)) by (rewrite (co_id _ _ Hc); apply hashString_in_ring).
  assert (between (hashString (Predecessor n)) i (Identifier n) true = true); [|congruence].
  apply between_incl; [done..|].
  destruct (decide (i = Identifier n)) as [->|Hni]; [by right|left].
  destruct (decide (hashString (Predecessor n) = i)) as [<-|Hnp].
  { exfalso. rewrite cw_self in Hown. pose proof (cw_range (hashString (Predecessor n)) (Identifier n)).
    apply Hni. apply cw_0_iff; [done..|lia]. }
  split; [done|]. rewrite (arc_from i), (cw_from i) by done. rewrite cw_self.
  pose proof (cw_range i (Identifier n)). pose proof (cw_range i (hashString (Predecessor n))).
  assert (cw i (hashString (Predecessor n)) ≠ 0) by (rewrite cw_0_iff by done; congruence).
  repeat case_decide; lia.
Qed.

(** Wrong owner for near identifiers.  While the last finger holds the node's
    own address - which [initClient] writes and [FixFingers] never replaces - a
    node of a consistent ring that has to consult its fingers for an identifier in
    the half of the ring after it resolves the identifier to itself, without any
    call, although it is not responsible for it. *)
Theorem resolveIdentifier_wrong_owner {FS : Type} `{FileSystem FS} `{Sha1} (ring : list string)
    (r : nat) (id : Z) (addr : string) (m : Machine FS) (w : gmap string (Machine FS)) (i : Z) (resp : Response) :
  valid_ring ring → (0 < r)%nat → node_wf r id addr (node (m_chord m)) →
  consistent ring (node (m_chord m)) → last_finger addr (node (m_chord m)) → w !! addr = Some m →
  in_ring i → 0 < cw id i ≤ 2 ^ (keySize - 1) →
  find (node (m_chord m)) i Response0 = Ret (PASSALONG, resp) →
  run_at addr (resolveIdentifier i) w = Ret (addr, [], w) ∧ ¬ owner ring i addr.
Proof.
  intros Hv Hr Hn Hc Hl Hw Hi Hcw Hf. split.
  - destruct (closest_last_finger r id addr _ i Response0 Hn Hi Hcw Hl) as [f Hcl].
    pose proof (find_pass_closest _ _ _ _ Hf) as Hcl'. rewrite Hcl in Hcl'. apply Ret_pair_inj in Hcl' as [_ <-].
    unfold resolveIdentifier. erewrite run_read_only with (p := PRet addr); [done|done|].
    rewrite Hf. cbn [mbind outcome_bind]. rewrite decide_False by naive_solver.
    by rewrite decide_True, (wf_addr _ _ _ _ Hn) by (by rewrite (wf_addr _ _ _ _ Hn)).
  - rewrite <-(wf_addr _ _ _ _ Hn). apply (find_pass_not_owner ring _ i Response0 resp); try done.
    intros Hnil. pose proof (wf_succs _ _ _ _ Hn) as Hs. rewrite Hnil in Hs. simpl in Hs. lia.
Qed.

(** A five-node ring in which node "m" knows its two successors. *)
Definition demo_ring5 : list string := ["b"; "m"; "p"; "t"; "w"].
Definition demo_member5 : NodeInfo := set_Predecessor "b" (set_Successors ["p"; "t"] (demo_init 2 "m")).
Definition demo_machine5 : Machine MemFS :=
  mkMachine (mkChord "tcp" demo_member5 2 "XXX" "2222" (mkTimings 1 1 1) [] [] "1623456022901234") (mkMemFS ∅ ∅).

Ltac demo_members H := unfold demo_ring5 in H; set_unfold; destruct H as [->|[->|[->|[->|[->|[]]]]]].

Lemma demo_ring5_valid : @valid_ring demo_sha1 demo_ring5.
Proof.
  split.
  - refine (bool_decide_unpack _ _). vm_compute. exact I.
  - intros a b Ha Hb. demo_members Ha; demo_members Hb; vm_compute; congruence.
  - refine (bool_decide_unpack _ _). vm_compute. exact I.
Qed.

Lemma demo_member5_consistent : @consistent demo_sha1 demo_ring5 demo_member5.
Proof.
  split.
  - right; left.
  - reflexivity.
  - split; [left|]. split; [right; left|]. intros c Hc. demo_members Hc; vm_compute; discriminate.
  - split; [|split; [|exact I]]; (split; [vm_compute; repeat constructor|]); intros c Hc;
      demo_members Hc; vm_compute; discriminate.
Qed.

Lemma resolveIdentifier_wrong_owner_witness :
  let w := {["m" := demo_machine5]} : gmap string (Machine MemFS) in
  @run_at MemFS mem_fs demo_sha1 _ "m" (@resolveIdentifier MemFS demo_sha1 118) w = Ret ("m", [], w) ∧
  ¬ @owner demo_sha1 demo_ring5 118 "m".
Proof.
  intros w.
  apply (@resolveIdentifier_wrong_owner MemFS mem_fs demo_sha1 demo_ring5 2 (@hashString demo_sha1 "m") "m" demo_machine5 w 118
           (mkResponse false "m" (jumpIdentifier (@hashString demo_sha1 "m") 160)));
    [apply demo_ring5_valid | lia
    | apply wf_set_Predecessor, wf_set_Successors; [reflexivity|apply demo_init_wf]
    | apply demo_member5_consistent
    | exists (mkFinger (jumpIdentifier (@hashString demo_sha1 "m") 160) "m"); split; vm_compute; reflexivity
    | apply lookup_singleton_eq
    | split; [lia|vm_compute; reflexivity]
    | split; [vm_compute; reflexivity|vm_compute; discriminate]
    | vm_compute; reflexivity].
Defined.

(** ** A ring of two *)

Section Pair.
Context {FS : Type} `{FileSystem FS} `{Sha1}.

Notation W := (gmap string (Machine FS)).

(** Runs goroutines of the machine at [a] one after the other, together with the
    ones they start; [fuel] bounds how many. *)
Fixpoint run_tasks (fuel : nat) (a : string) (ts : list ChordTask) (w : W) : outcome W :=
  match fuel, ts with
  | S fuel', t :: ts' =>
      '(_, ts'', w') ← run_at a (task t) w; run_tasks fuel' a (ts' ++ ts'') w'
  | _, _ => Ret w
  end.

(** Node [b] joins through node [a], then each of the two stabilizes once. *)
Definition join_and_stabilize (a b : string) (w : W) : outcome W :=
  '(_, ts, w1) ← run_at b (CallJoin a) w;
  w2 ← run_tasks 4 b ts w1;
  '(_, _, w3) ← run_at a CallStabilize w2;
  '(_, _, w4) ← run_at b CallStabilize w3;
  Ret w4.

Lemma between_full x e : between x e x true = true.
Proof. unfold between. destruct (Z.gtb_spec x x); [lia|]. destruct (Z.ltb_spec x e), (Z.ltb_spec e x), (Z.eqb_spec e x); simpl; lia || done. Qed.

(** *** Equations for runs *)

(** The machine with another node. *)
Definition upd_node (n : NodeInfo) (m : Machine FS) : Machine FS :=
  mkMachine (set_node n (m_chord m)) (m_fs m).

Lemma run_call {A} a d q (k : option ChordRep → prog (Machine FS) ChordReq ChordRep ChordTask A) (w w' : W) o :
  chord_call 2 d q w = Ret (o, w') → run_at a (PCall d q k) w = run_at a (k o) w'.
Proof. intros Hc. unfold run_at. cbn [exec]. by rewrite Hc. Qed.

Lemma call_node {A} d q (h : NodeInfo → outcome (A * NodeInfo)) reply (w : W) m x n' :
  serve (FS := FS) q = serve_node h reply → w !! d = Some m → h (node (m_chord m)) = Ret (x, n') →
  chord_call 2 d q w = Ret (Some (reply x), <[d := upd_node n' m]> w).
Proof.
  intros Hs Hd Hh. cbn [chord_call]. rewrite Hd, Hs. unfold serve_node, with_node. cbn [exec].
  rewrite Hd, Hh. done.
Qed.

Lemma run_node {A} a (f : NodeInfo → outcome (NodeInfo * prog (Machine FS) ChordReq ChordRep ChordTask A)) (w : W) m n' p :
  w !! a = Some m → f (node (m_chord m)) = Ret (n', p) →
  run_at a (with_node f) w = run_at a p (<[a := upd_node n' m]> w).
Proof. apply run_with_node. Qed.

Section TwoNodes.
Variables a b : string.
Hypothesis ab : a ≠ b.
Hypothesis aX : a ≠ "X".
Hypothesis bX : b ≠ "X".

Implicit Types (na nb : NodeInfo) (ma mb : Machine FS).

(** [a] is alone in its ring, [b] has just been initialised. *)
Definition alone na : Prop :=
  Identifier na = hashString a ∧ NodeAddress na = a ∧ Predecessor na = a ∧ Successors na = [a; a].
Definition fresh nb : Prop :=
  Identifier nb = hashString b ∧ NodeAddress nb = b ∧ Predecessor nb = "X" ∧ Successors nb = [b; b].

Lemma join_step (w : W) ma mb : w !! a = Some ma → w !! b = Some mb →
  alone (node (m_chord ma)) → fresh (node (m_chord mb)) →
  run_at b (CallJoin a) w =
  Ret ((), [TCallNotify a], <[a := upd_node (set_Successors [b; a] (node (m_chord ma))) ma]> w).
Proof using aX ab.
  intros Ha Hb (Hia & Hna & Hpa & Hsa) (Hib & Hnb & Hpb & Hsb).
  unfold CallJoin, read_node. erewrite run_read_only; [|done|reflexivity]. rewrite Hnb, Hib.
  erewrite run_call.
  2:{ eapply (call_node a _ _ AJoin); [reflexivity|done|]. unfold Join, find. rewrite Hsa. cbn [find_loop jr_Identifier].
      rewrite decide_False by done. rewrite Hia, between_full. cbn [mbind outcome_bind].
      unfold set_succ0. rewrite Hsa. reflexivity. }
  reflexivity.
Qed.

Lemma notify_step (w : W) ma mb : w !! a = Some ma → w !! b = Some mb →
  Identifier (node (m_chord ma)) = hashString a → Predecessor (node (m_chord ma)) = a → fresh (node (m_chord mb)) →
  run_at b (CallNotify a) w =
  Ret ((), [], <[b := upd_node (set_Successors [a; b] (set_JoinPending false (node (m_chord mb)))) mb]>
               (<[a := upd_node (set_Predecessor b (node (m_chord ma))) ma]> w)).
Proof using aX ab bX.
  intros Ha Hb Hia Hpa (Hib & Hnb & Hpb & Hsb).
  unfold CallNotify, read_node. erewrite run_read_only; [|done|reflexivity]. rewrite Hnb, Hib.
  erewrite run_call.
  2:{ eapply (call_node a _ _ ANotify); [reflexivity|done|]. unfold Notify. rewrite Hpa.
      cbn [nr_NodeAddress nr_Identifier]. rewrite decide_False by naive_solver. rewrite Hia, between_full. reflexivity. }
  cbn iota. erewrite run_node; [|by rewrite lookup_insert_ne|].
  2:{ cbn [nr_Success]. unfold set_succ0. cbn [Successors set_JoinPending]. rewrite Hsb. reflexivity. }
  reflexivity.
Qed.

(** A stabilization of [x] with its successor [y], which knows [x] or no
    predecessor. *)
Lemma stabilize_step (w : W) (x y z z' : string) mx my : x ≠ y → y ≠ "X" → z ≠ "X" →
  w !! x = Some mx → w !! y = Some my → NodeAddress (node (m_chord mx)) = x →
  Successors (node (m_chord mx)) = [y; z'] → Successors (node (m_chord my)) = [z; y] →
  Predecessor (node (m_chord my)) = "X" ∨ Predecessor (node (m_chord my)) = x →
  run_at x CallStabilize w =
  Ret ((), [], <[x := upd_node (set_Successors [y; z] (node (m_chord mx))) mx]>
               (<[y := upd_node (set_Predecessor x (node (m_chord my))) my]> w)).
Proof.
  intros Hxy HyX HzX Hx Hy Hnx Hsx Hsy Hpy. unfold CallStabilize.
  erewrite run_node; [|done|].
  2:{ rewrite Hsx. cbn [mbind outcome_bind slice_get]. change (slice_get [y; z'] 0) with (Ret y).
      cbn [mbind outcome_bind]. rewrite decide_False by done. rewrite decide_False by congruence. reflexivity. }
  unfold upd_node at 1. rewrite machine_eta, insert_id by done.
  erewrite run_call.
  2:{ eapply (call_node y _ _ AStabilize); [reflexivity|done|].
      instantiate (1 := set_Predecessor x (node (m_chord my))).
      instantiate (1 := mkStabilizeResponse true "" [z; y]).
      unfold Stabilize. rewrite Hsy, Hnx. cbn [sr_NodeAddress sr_NewPredAddress StabilizeResponse0].
      case_decide; [done|]. destruct Hpy as [|Hpy]; [done|]. rewrite decide_True by done.
      repeat f_equal. rewrite <-Hpy. by destruct (node (m_chord my)). }
  cbn iota. erewrite run_node; [|by rewrite lookup_insert_ne|].
  2:{ cbn [YouGood negb]. unfold verifySuccs. rewrite Hsx. cbn [length Nat.sub verify_loop NodeSuccessors].
      change (slice_get [z; y] (Z.of_nat 1 - 1)) with (Ret z). cbn [mbind outcome_bind].
      rewrite decide_False by done. rewrite Hsx. change (slice_get [y; z'] (Z.of_nat 1)) with (Ret z').
      cbn [mbind outcome_bind]. instantiate (2 := set_Successors [y; z] (node (m_chord mx))).
      assert (Hfix : z' = z → set_Successors [y; z] (node (m_chord mx)) = node (m_chord mx)).
      { intros <-. rewrite <-Hsx. by destruct (node (m_chord mx)). }
      case_decide as Hz'; cbn [mbind outcome_bind].
      - change (slice_set [y; z'] (Z.of_nat 1) z) with (Ret [y; z]). cbn [mbind outcome_bind Successors set_Successors].
        change (slice_get [y; z] (Z.of_nat 1)) with (Ret z). cbn [mbind outcome_bind].
        rewrite decide_False by naive_solver. reflexivity.
      - rewrite Hsx. change (slice_get [y; z'] (Z.of_nat 1)) with (Ret z'). cbn [mbind outcome_bind].
        case_decide as Hzz; cbn [mbind outcome_bind].
        + change (slice_set [y; z'] (Z.of_nat 1) z) with (Ret [y; z]). reflexivity.
        + rewrite Hfix; [reflexivity|]. by destruct (decide (z = z')) as [->|]; [|destruct Hzz]. }
  reflexivity.
Qed.

End TwoNodes.
End Pair.

Lemma arc_le_full x y : in_ring x → in_ring y → arc x y ≤ arc x x.
Proof.
  intros Hx Hy. rewrite !(arc_from x) by done. pose proof (cw_range x y). pose proof (cw_range x x).
  repeat case_decide; lia.
Qed.

Lemma next_pair `{Sha1} x y : next [x; y] x y ∧ next [x; y] y x ∧ next [y; x] x y ∧ next [y; x] y x.
Proof.
  pose proof (hashString_in_ring x). pose proof (hashString_in_ring y).
  repeat split; try (set_unfold; by auto); intros c Hc; set_unfold;
    destruct Hc as [->|[->|[]]]; (done || by apply arc_le_full).
Qed.

Lemma pair_consistent `{Sha1} x y n :
  Identifier n = hashString x → NodeAddress n = x → Predecessor n = y → Successors n = [y; x] →
  consistent [x; y] n ∧ consistent [y; x] n.
Proof.
  intros Hi Ha Hp Hs. destruct (next_pair x y) as (H1 & H2 & H3 & H4).
  split; split; rewrite ?Ha, ?Hp, ?Hs, ?Hi; simpl; (set_unfold; by auto) || by auto.
Qed.

(** C6 (a join forms a ring).  When a fresh node [b] joins a node [a] that is alone
    in its ring, both with two successor slots, the join, the goroutines it starts
    and one stabilization of each node run to their end, and leave both nodes with
    exactly the predecessor and the successors of the ring of the two; [b]'s join
    is no longer pending. *)
Theorem join_forms_ring {FS : Type} `{FileSystem FS} `{Sha1} (a b : string) (ma mb : Machine FS)
    (w : gmap string (Machine FS)) :
  a ≠ b → a ≠ "X" → b ≠ "X" → w !! a = Some ma → w !! b = Some mb →
  alone a (node (m_chord ma)) → fresh b (node (m_chord mb)) →
  ∃ w' ma' mb', join_and_stabilize a b w = Ret w' ∧ w' !! a = Some ma' ∧ w' !! b = Some mb' ∧
    consistent [a; b] (node (m_chord ma')) ∧ consistent [a; b] (node (m_chord mb')) ∧
    JoinPending (node (m_chord mb')) = false.
Proof.
  intros ab aX bX Ha Hb Hal Hfr. unfold join_and_stabilize.
  rewrite (join_step a b ab aX w ma mb) by done. cbn [mbind outcome_bind run_tasks task].
  destruct Hal as (Hia & Hna & Hpa & Hsa).
  rewrite (notify_step a b ab aX bX _ _ mb (lookup_insert_eq w a _)); [|by rewrite lookup_insert_ne|done..].
  cbn [mbind outcome_bind app run_tasks]. destruct Hfr as (Hib & Hnb & Hpb & Hsb).
  erewrite (stabilize_step _ a b a a); [|done|done|done|by rewrite lookup_insert_ne, lookup_insert_eq
    |by rewrite lookup_insert_eq|done|done|done|by left].
  cbn [mbind outcome_bind].
  erewrite (stabilize_step _ b a b b); [|done..|by rewrite lookup_insert_ne, lookup_insert_eq
    |by rewrite lookup_insert_eq|done|done|done|by right].
  cbn [mbind outcome_bind]. eexists _, _, _. split; [reflexivity|].
  split; [by rewrite lookup_insert_ne, lookup_insert_eq|]. split; [by rewrite lookup_insert_eq|].
  split; [|split; [|done]].
  - apply (pair_consistent a b); [exact Hia|exact Hna|reflexivity|reflexivity].
  - apply (pair_consistent b a); [exact Hib|exact Hnb|reflexivity|reflexivity].
Qed.

(** A machine that runs node [n] with an empty disk. *)
Definition demo_host (n : NodeInfo) : Machine MemFS :=
  mkMachine (mkChord "tcp" n 2 "XXX" "2222" (mkTimings 1 1 1) [] [] "1623456022901234") (mkMemFS ∅ ∅).
Definition demo_first : NodeInfo := match Create (demo_init 2 "m") with Ret n => n | _ => demo_init 2 "m" end.
Definition demo_world : gmap string (Machine MemFS) :=
  {["m" := demo_host demo_first; "t" := demo_host (demo_init 2 "t")]}.

Lemma join_forms_ring_witness :
  ∃ w' ma' mb', @join_and_stabilize MemFS mem_fs demo_sha1 "m" "t" demo_world = Ret w' ∧
    w' !! "m" = Some ma' ∧ w' !! "t" = Some mb' ∧
    @consistent demo_sha1 ["m"; "t"] (node (m_chord ma')) ∧ @consistent demo_sha1 ["m"; "t"] (node (m_chord mb')) ∧
    JoinPending (node (m_chord mb')) = false.
Proof.
  apply (@join_forms_ring MemFS mem_fs demo_sha1 "m" "t" (demo_host demo_first) (demo_host (demo_init 2 "t")) demo_world);
    [discriminate|discriminate|discriminate| | | | ]; repeat split; vm_compute; reflexivity.
Defined.
