(* ===== verification/ChordStore.v ===== *)
(** * Lab3_Chord: storing a file and fetching it again

    Storing encrypts the local file, resolves the node responsible for its name
    and lets that node write it to disk and duplicate it to its successor;
    looking it up fetches and decrypts it.  The theorem composes the whole path
    over a group of machines. *)

From S2P Require Import Prelude GoFiles ChordUtil ChordNode ChordFiles GoProg ChordRPC ChordLookup.
From Stdlib Require Import Ascii.
Open Scope string_scope.
Open Scope Z_scope.

Lemma str_cut_app nc s : str_cut (String.length nc) (nc +:+ s) = Ret (nc, s).
Proof. induction nc as [|c nc IH]; simpl; [done|]. change (nc +:+ s) with (String.append nc s) in *. by rewrite IH. Qed.

Lemma decrypt_encrypt `{AeadLaws} content key nc :
  aes_key_ok key = true → String.length nc = NonceSize →
  decrypt (encrypt content key (Some nc)).1 key = Ret (content, true).
Proof.
  intros Hk Hn. unfold decrypt, encrypt. rewrite Hk. simpl fst. rewrite <-Hn, str_cut_app. simpl.
  by rewrite open_seal.
Qed.

Section Store.
Context {FS : Type} `{FileSystemLaws FS} `{Sha1} `{AeadLaws}.

Notation P := (prog (Machine FS) ChordReq ChordRep ChordTask).
Notation W := (gmap string (Machine FS)).

(** Everything about a machine but its files. *)
Definition same_host (m m' : Machine FS) : Prop :=
  node (m_chord m') = node (m_chord m) ∧ encKey (m_chord m') = encKey (m_chord m).

Lemma store_local_host q m st err m' : store_local q m = (st, err, m') → same_host m m'.
Proof.
  unfold store_local. destruct (os_Create _ _); [|by intros [= <- <- <-]].
  destruct (file_Write _ _ _) as [fs2 [|]]; [|by intros [= <- <- <-]].
  destruct (DuplicationReq q); by intros [= <- <- <-].
Qed.

Lemma chord_call_S fuel d q (w : W) m : w !! d = Some m →
  chord_call (S fuel) d q w =
  match exec (λ w, w !! d) (λ m w, <[d := m]> w) (chord_call fuel) (serve q) w with
  | Ret (o, _, w') => Ret (o, w')
  | _ => Ret (None, delete d w)
  end.
Proof. intros Hd. simpl. by rewrite Hd. Qed.

(** A duplicate is stored without further calls. *)
Lemma call_duplicate fuel d q (w : W) : DuplicationReq q = true →
  ∃ o w', chord_call (S fuel) d (RStoreFile q) w = Ret (o, w') ∧
    (w' = w ∨ ∃ m m', w !! d = Some m ∧ same_host m m' ∧ w' = <[d := m']> w).
Proof.
  intros Hq. cbn [chord_call]. destruct (w !! d) as [m|] eqn:Hd; [|by eexists _, _; split; [done|left]].
  cbn [serve pbind exec StoreFile]. rewrite Hd, Hq. destruct (store_local q m) as [[st err] m'] eqn:E.
  apply store_local_host in E. destruct err; cbn [exec]; eexists _, _; (split; [reflexivity|]); right; eauto.
Qed.

Lemma exec_read_only {A} d (f : NodeInfo → outcome (NodeInfo * P A)) call (w : W) m p :
  w !! d = Some m → f (node (m_chord m)) = Ret (node (m_chord m), p) →
  exec (λ w, w !! d) (λ m w, <[d := m]> w) call (with_node f) w = exec (λ w, w !! d) (λ m w, <[d := m]> w) call p w.
Proof. intros Hm Hf. unfold with_node. cbn [exec]. by rewrite Hm, Hf; cbn; rewrite machine_eta, insert_id. Qed.

(** [CallDuplication] on machine [d] changes at most the files of another one. *)
Lemma exec_duplication k d q (w : W) m : DuplicationReq q = true →
  w !! d = Some m → NodeAddress (node (m_chord m)) = d → Successors (node (m_chord m)) ≠ [] →
  ∃ w', exec (λ w, w !! d) (λ m w, <[d := m]> w) (chord_call (S k)) (CallDuplication q) w = Ret (tt, [], w') ∧
    w' !! d = Some m ∧
    ∀ x mx, w !! x = Some mx → ∃ mx', w' !! x = Some mx' ∧ same_host mx mx'.
Proof.
  intros Hq Hd Ha Hs. unfold CallDuplication. destruct (Successors (node (m_chord m))) as [|s ss] eqn:Es; [done|].
  assert (Hget : slice_get (Successors (node (m_chord m))) 0 = Ret s) by by rewrite Es.
  assert (Hsame : ∀ x mx, w !! x = Some mx → ∃ mx', w !! x = Some mx' ∧ same_host mx mx') by (intros; eexists; done).
  destruct (decide (s = "X")) as [Hx|Hx].
  { erewrite exec_read_only; [|done|rewrite Hget; cbn [mbind outcome_bind]; by rewrite decide_True]. by exists w. }
  erewrite exec_read_only; [|done|rewrite Hget; cbn [mbind outcome_bind]; by rewrite decide_False].
  destruct (decide (s = NodeAddress (node (m_chord m)))) as [Hsd|Hsd].
  { erewrite exec_read_only; [|done|rewrite Hget; cbn [mbind outcome_bind]; by rewrite decide_True]. by exists w. }
  erewrite exec_read_only; [|done|rewrite Hget; cbn [mbind outcome_bind]; by rewrite decide_False].
  erewrite exec_read_only; [|done|by rewrite Hget]. cbn [exec].
  destruct (call_duplicate k s q w Hq) as (o & w' & -> & Hw'). exists w'. split; [done|].
  destruct Hw' as [->|(ms & ms' & Hms & Hsh & ->)]; [done|]. split; [by rewrite lookup_insert_ne by congruence|].
  intros x mx Hmx. destruct (decide (s = x)) as [<-|]; [|rewrite lookup_insert_ne by done; by apply Hsame].
  rewrite lookup_insert_eq. eexists. split; [done|]. by assert (mx = ms) as -> by congruence.
Qed.

(** Storing at [d]: the file is on its disk afterwards, all machines keep their
    node and key. *)
Lemma call_store d q (w : W) m fs1 fs2 : DuplicationReq q = false →
  w !! d = Some m → NodeAddress (node (m_chord m)) = d → Successors (node (m_chord m)) ≠ [] →
  os_Create (storePath q (node (m_chord m))) (m_fs m) = Some fs1 →
  file_Write (storePath q (node (m_chord m))) (sf_FileContent q) fs1 = (fs2, true) →
  ∃ w' m', chord_call 2 d (RStoreFile q) w = Ret (Some (AStoreFile (mkStoreFileResponse FILEOK)), w') ∧
    w' !! d = Some m' ∧ m_fs m' = fs2 ∧
    ∀ x mx, w !! x = Some mx → ∃ mx', w' !! x = Some mx' ∧ same_host mx mx'.
Proof.
  intros Hq Hd Ha Hs Hcr Hwr. rewrite (chord_call_S 1 d _ w m) by done. cbn [serve]. rewrite exec_bind. cbn [exec StoreFile]. rewrite Hd.
  unfold store_local. rewrite Hcr, Hwr, Hq. rewrite exec_bind.
  set (m1 := mkMachine _ fs2). set (q' := mkStoreFileRequest _ _ _ true).
  set (w1 := <[d := m1]> w : W). assert (Hd1 : w1 !! d = Some m1) by apply lookup_insert_eq.
  destruct (exec_duplication 0 d q' w1 m1 eq_refl Hd1 Ha Hs) as (w' & -> & Hd' & Hsame).
  exists w', m1. split; [done|]. split; [done|]. split; [done|].
  intros x mx Hx. destruct (decide (d = x)) as [<-|].
  - eexists. split; [done|]. by assert (mx = m) as -> by congruence.
  - apply Hsame. unfold w1. by rewrite lookup_insert_ne.
Qed.

(** A local answer of [find] resolves the identifier without changing anything. *)
Lemma resolve_local a i (w : W) m rc resp :
  w !! a = Some m → find (node (m_chord m)) i Response0 = Ret (rc, resp) → rc ≠ PASSALONG →
  run_at a (resolveIdentifier i) w = Ret (r_NodeAddress resp, [], w).
Proof.
  intros Ha Hf Hrc. unfold resolveIdentifier.
  erewrite run_read_only; [|done|rewrite Hf; cbn [mbind outcome_bind]; by rewrite decide_True]. done.
Qed.

(** Fetching from [d] a file its disk holds. *)
Lemma call_lookup d q (w : W) m c :
  w !! d = Some m → os_Open (lookPath (rf_FileName q) (node (m_chord m))) (m_fs m) = true →
  io_ReadAll (lookPath (rf_FileName q) (node (m_chord m))) (m_fs m) = Some c →
  chord_call 2 d (RLookUp q) w =
  Ret (Some (ALookUp (mkRetreiveFileResponse (NodeAddress (node (m_chord m))) (Identifier (node (m_chord m))) FILEOK c)), w).
Proof.
  intros Hd Ho Hr. cbn [chord_call]. rewrite Hd. cbn [serve exec]. rewrite Hd. unfold LookUp. rewrite Ho, Hr. simpl.
  by rewrite insert_id.
Qed.

(** Storing through [a] and fetching through [a]. *)
Lemma store_then_lookup a d name content (w : W) ma md rc resp fs1 fs2 plain :
  w !! a = Some ma → find (node (m_chord ma)) (hashString name) Response0 = Ret (rc, resp) → rc ≠ PASSALONG →
  r_NodeAddress resp = d → w !! d = Some md →
  NodeAddress (node (m_chord md)) = d → Successors (node (m_chord md)) ≠ [] →
  let path := lookPath name (node (m_chord md)) in
  os_Create path (m_fs md) = Some fs1 → file_Write path content fs1 = (fs2, true) →
  decrypt content (encKey (m_chord ma)) = Ret (plain, true) →
  ∃ w', run_at a (CallStoreFile (mkStoreFileRequest (hashString name) name content false)) w = Ret (StoreDone FILEOK, [], w') ∧
    run_at a (CallLookup (mkRetreiveFileRequest (hashString name) name)) w' =
    Ret (LookContent (Identifier (node (m_chord md))) d plain, [], w').
Proof.
  intros Ha Hf Hrc Hres Hd Hnd Hsd path Hcr Hwr Hdec.
  set (q := mkStoreFileRequest (hashString name) name content false).
  destruct (call_store d q w md fs1 fs2 eq_refl Hd Hnd Hsd Hcr Hwr) as (w' & md' & Hcall & Hd' & Hfs' & Hsame).
  destruct (write_read _ _ _ _ _ Hcr Hwr) as [Ho Hr].
  destruct (Hsame a ma Ha) as (ma' & Ha' & Hna & Hka). destruct (Hsame d md Hd) as (md'' & Hd'' & Hnd' & _).
  assert (md'' = md') as -> by congruence. exists w'. unfold run_at, CallStoreFile, CallLookup. split.
  - rewrite exec_bind. fold (run_at a (resolveIdentifier (sf_FileIdentifier q)) w).
    rewrite (resolve_local a _ w ma rc resp) by done. rewrite Hres. cbn [mbind outcome_bind exec]. by rewrite Hcall.
  - rewrite exec_bind. cbn [rf_FileIdentifier]. fold (run_at a (resolveIdentifier (hashString name)) w').
    rewrite (resolve_local a _ w' ma' rc resp); [|done|by rewrite Hna|done]. rewrite Hres. cbn [mbind outcome_bind exec].
    rewrite (call_lookup d _ w' md' content); [|done|by rewrite Hnd', Hfs'..]. cbn [rf_FileStatus].
    rewrite decide_False by naive_solver. cbn [exec]. rewrite Ha', Hka. cbn [rf_FileContent]. rewrite Hdec. simpl.
    by rewrite insert_id, Hnd', Hnd.
Qed.

End Store.
