(* ===== verification/ChordMain.v ===== *)
(** * Lab3_Chord: start-up and the command line

    [main], [initIntervals] and [parseInput] of [chord.go]: how a process gets
    its node, joins or creates a ring, and what the user's commands do.  The
    theorems: a process that is given no node to join becomes a ring of its own;
    a stored file is printed unchanged by a later lookup. *)

From S2P Require Import Prelude GoFiles ChordUtil ChordNode ChordRing ChordFiles GoProg ChordRPC ChordLookup ChordStore.
From Stdlib Require Import Ascii.
Open Scope string_scope.
Open Scope Z_scope.

(** ** Strings *)

(** [s[:len(s)-1]], which panics for the empty string. *)
Fixpoint drop_last (s : string) : outcome string :=
  match s with
  | EmptyString => Panic
  | String _ EmptyString => Ret ""
  | String x s' => t ← drop_last s'; Ret (String x t)
  end.

Definition nl : string := String (ascii_of_nat 10) "".

(** ** What the commands print *)

Record FingerLine := mkFingerLine { Offset : Z; Absolute : Z; fl_address : string }.

(** [printFingers] for the indexes [n], [n+1], ... (k of them). *)
Fixpoint printFingers_loop (nd : NodeInfo) (n : Z) (k : nat) : outcome (list FingerLine) :=
  match k with
  | O => Ret []
  | S k' =>
      finger ← slice_get (FingerTable nd) n;
      let d := fe_Identifier finger - Identifier nd in
      rest ← printFingers_loop nd (n + 1) k';
      Ret (mkFingerLine (mod_ d) (fe_Identifier finger) (fe_NodeAddress finger) :: rest)
  end.
Definition printFingers (nd : NodeInfo) : outcome (list FingerLine) :=
  printFingers_loop nd 1 (Z.to_nat keySize).

Record Dump := mkDump {
  du_identifier : Z; du_address : string; du_successors : list string; du_predecessor : string;
  du_files : list string; du_replicated : list string; du_fingers : list FingerLine
}.

Definition dump (c : Chord) : outcome Dump :=
  fingers ← printFingers (node c);
  Ret (mkDump (Identifier (node c)) (NodeAddress (node c)) (Successors (node c)) (Predecessor (node c))
         (files c) (replicatedFiles c) fingers).

Inductive CmdReport :=
| CmdHelp
| CmdBadPassword (len : Z)
| CmdPasswordSet
| CmdHash (h : string)
| CmdDump (d : Dump)
| CmdStoreUsage
| CmdNoContent
| CmdStored (h : string) (rep : StoreReport)
| CmdLookupUsage
| CmdLooked (h : string) (rep : LookReport)
| CmdUnknown.

Section Main.
Context {FS : Type} `{FileSystem FS} `{Sha1} `{Aead}.

Notation P := (prog (Machine FS) ChordReq ChordRep ChordTask).
Notation W := (gmap string (Machine FS)).

(** [nonce] is what the random source yields if the command encrypts. *)
Definition parseInput (nonce : option string) (input : string) : P CmdReport :=
  PStep (λ m,
    let args := Split " " input in
    command ← slice_get args 0;
    if decide (command = "help" +:+ nl) then Ret (m, PRet CmdHelp)
    else if decide (command = "setpw") then
      a1 ← slice_get args 1; arg ← drop_last a1;
      if decide (String.length arg ≠ 16%nat) then Ret (m, PRet (CmdBadPassword (str_len arg)))
      else Ret (mkMachine (set_encKey arg (m_chord m)) (m_fs m), PRet CmdPasswordSet)
    else if decide (command = "hash" +:+ nl) then
      Ret (m, PRet (CmdHash (printHash (Identifier (node (m_chord m))))))
    else if decide (command = "d" +:+ nl) then
      d ← dump (m_chord m); Ret (m, PRet (CmdDump d))
    else if decide (command = "StoreFile") then
      if decide (length args ≠ 2%nat) then Ret (m, PRet CmdStoreUsage)
      else
        a1 ← slice_get args 1; arg ← drop_last a1;
        match getFileContent arg (encKey (m_chord m)) nonce (m_fs m) with
        | None => Ret (m, PRet CmdNoContent)
        | Some fileContent =>
            let file := hashString arg in
            Ret (m, pbind (CallStoreFile (mkStoreFileRequest file arg fileContent false))
                      (λ rep, PRet (CmdStored (printHash file) rep)))
        end
    else if decide (command = "Lookup") then
      if decide (length args ≠ 2%nat) then Ret (m, PRet CmdLookupUsage)
      else
        a1 ← slice_get args 1; arg ← drop_last a1;
        let file := hashString arg in
        Ret (m, pbind (CallLookup (mkRetreiveFileRequest file arg))
                  (λ rep, PRet (CmdLooked (printHash file) rep)))
    else if decide (command = "PrintState") then
      d ← dump (m_chord m); Ret (m, PRet (CmdDump d))
    else Ret (m, PRet CmdUnknown)).

(** ** Start-up *)

(** The loop that waits for the join: [count] iterations so far, [k] left before
    30. *)
Fixpoint setup_wait (k : nat) (ready : bool) (count : Z) : P Z :=
  match k with
  | O => PRet count
  | S k' => if ready then read_node (λ n, setup_wait k' (JoinPending n) (count + 1)) else PRet count
  end.

(** [initIntervals] up to the start of the ticker goroutine, whose branches are
    [CallStabilize], [FixFingers] and [checkPredTick].  [time.NewTicker] panics
    for an interval that is not positive. *)
Definition initIntervals : P unit :=
  PStep (λ m,
    let t := intervalTimings (m_chord m) in
    if (t_Stabilize t <=? 0) || (t_FixFingers t <=? 0) || (t_CheckPred t <=? 0) then Panic
    else Ret (m,
      read_node (λ n,
        pbind (setup_wait 30 (JoinPending n) 0) (λ count,
          if count >? 25 then read_node (λ _, PExit) else PRet tt)))).

(** The branch of [main] on [chord.joinNodeIp]. *)
Definition joinOrCreate (chord : Chord) : P unit :=
  if decide (joinNodeIp chord = "XXX") then
    with_node (λ n, Ret (set_JoinPending false n,
      with_node (λ n, n' ← Create n; Ret (n', PRet tt))))
  else CallJoin (joinNodeIp chord +:+ ":" +:+ joinNodePort chord).

(** [main] up to its command loop: the process's machine and what it then runs.
    [certs] is whether the CA certificate could be loaded. *)
Definition main (fl : Flags) (certs : bool) (fs : FS) : outcome (Machine FS * P unit) :=
  chord ← getArgs fl certs;
  n ← initClient (node chord);
  let chord := set_node n chord in
  let fs' := initDuplication chord fs in
  Ret (mkMachine chord fs',
    pbind (joinOrCreate chord) (λ _, initIntervals)).

End Main.

(** ** Command lines *)

Lemma Split_no_char c s : no_char c s = true → Split c s = [s].
Proof.
  induction s as [|x s IH]; simpl; [done|]. intros [Hx%bool_decide_eq_true Hs]%andb_true_iff.
  by rewrite decide_False, IH.
Qed.

Lemma Split_pair c s t : no_char c s = true → Split c (s +:+ String c t) = s :: Split c t.
Proof.
  induction s as [|x s IH]; simpl; [by rewrite decide_True|]. intros [Hx%bool_decide_eq_true Hs]%andb_true_iff.
  rewrite decide_False by done. change (s +:+ String c t) with (String.append s (String c t)) in IH. by rewrite IH.
Qed.

Lemma drop_last_app s c : drop_last (s +:+ String c "") = Ret s.
Proof.
  induction s as [|x s IH]; [done|]. change (s +:+ String c "") with (String.append s (String c "")) in IH. simpl.
  rewrite IH. destruct s; done.
Qed.

(** A one-argument command line without further spaces. *)
Lemma Split_command cmd name : no_char " " cmd = true → no_char " " name = true →
  Split " " (cmd +:+ String " " (name +:+ nl)) = [cmd; name +:+ nl].
Proof. intros Hc Hn. rewrite Split_pair, Split_no_char; [done| |done]. by rewrite no_char_app, Hn. Qed.

(** ** Theorems *)

Section Commands.
Context {FS : Type} `{FileSystemLaws FS} `{Sha1} `{AeadLaws}.

Notation P := (prog (Machine FS) ChordReq ChordRep ChordTask).
Notation W := (gmap string (Machine FS)).

Lemma run_store_command a name nonce (w : W) m content :
  w !! a = Some m → no_char " " name = true → getFileContent name (encKey (m_chord m)) nonce (m_fs m) = Some content →
  run_at a (parseInput nonce ("StoreFile" +:+ String " " (name +:+ nl))) w =
  '(rep, ts, w') ← run_at a (CallStoreFile (mkStoreFileRequest (hashString name) name content false)) w;
  Ret (CmdStored (printHash (hashString name)) rep, ts, w').
Proof.
  intros Ha Hn Hc. unfold run_at at 1, parseInput. cbn [exec]. rewrite Ha, (Split_command "StoreFile") by done.
  change (slice_get ["StoreFile"; name +:+ nl] 0) with (Ret "StoreFile").
  change (slice_get ["StoreFile"; name +:+ nl] 1) with (Ret (name +:+ nl)).
  cbn [mbind outcome_bind decide]. repeat (rewrite decide_False by done). rewrite decide_True by done.
  rewrite decide_False by (by intros []). unfold nl. rewrite drop_last_app. cbn [mbind outcome_bind]. rewrite Hc.
  rewrite insert_id by done. rewrite exec_bind.
  change (exec _ _ _ (CallStoreFile ?q) w) with (run_at a (CallStoreFile q) w).
  destruct (run_at a _ w) as [[[rep ts] w']| |]; [|done..]. cbn. by rewrite app_nil_r.
Qed.

Lemma run_lookup_command a name nonce (w : W) m :
  w !! a = Some m → no_char " " name = true →
  run_at a (parseInput nonce ("Lookup" +:+ String " " (name +:+ nl))) w =
  '(rep, ts, w') ← run_at a (CallLookup (mkRetreiveFileRequest (hashString name) name)) w;
  Ret (CmdLooked (printHash (hashString name)) rep, ts, w').
Proof.
  intros Ha Hn. unfold run_at at 1, parseInput. cbn [exec]. rewrite Ha, (Split_command "Lookup") by done.
  change (slice_get ["Lookup"; name +:+ nl] 0) with (Ret "Lookup").
  change (slice_get ["Lookup"; name +:+ nl] 1) with (Ret (name +:+ nl)).
  cbn [mbind outcome_bind decide]. repeat (rewrite decide_False by done). rewrite decide_True by done.
  rewrite decide_False by (by intros []). unfold nl. rewrite drop_last_app. cbn [mbind outcome_bind].
  rewrite insert_id by done. rewrite exec_bind.
  change (exec _ _ _ (CallLookup ?q) w) with (run_at a (CallLookup q) w).
  destruct (run_at a _ w) as [[[rep ts] w']| |]; [|done..]. cbn. by rewrite app_nil_r.
Qed.

End Commands.

(** C13 (store and look up).  If a node's [find] answers itself which node [d] is
    responsible for a file name, [d] can create and write the file, and the local
    file is readable, then "StoreFile name" reports success and any later
    "Lookup name" on the same node prints the node [d] and exactly the content of
    the local file, although only its encryption was sent and stored. *)
Theorem store_lookup_roundtrip {FS : Type} `{FileSystemLaws FS} `{Sha1} `{AeadLaws}
    (a d name plain nc : string) (w : gmap string (Machine FS)) (ma md : Machine FS)
    (rc : RetCode) (resp : Response) (fs1 fs2 : FS) :
  w !! a = Some ma → w !! d = Some md →
  no_char " " name = true → aes_key_ok (encKey (m_chord ma)) = true → String.length nc = NonceSize →
  os_Open name (m_fs ma) = true → io_ReadAll name (m_fs ma) = Some plain →
  find (node (m_chord ma)) (hashString name) Response0 = Ret (rc, resp) → rc ≠ PASSALONG → r_NodeAddress resp = d →
  NodeAddress (node (m_chord md)) = d → Successors (node (m_chord md)) ≠ [] →
  os_Create (lookPath name (node (m_chord md))) (m_fs md) = Some fs1 →
  file_Write (lookPath name (node (m_chord md))) (encrypt plain (encKey (m_chord ma)) (Some nc)).1 fs1 = (fs2, true) →
  ∃ w', run_at a (parseInput (Some nc) ("StoreFile" +:+ String " " (name +:+ nl))) w =
          Ret (CmdStored (printHash (hashString name)) (StoreDone FILEOK), [], w') ∧
    ∀ nonce', run_at a (parseInput nonce' ("Lookup" +:+ String " " (name +:+ nl))) w' =
      Ret (CmdLooked (printHash (hashString name)) (LookContent (Identifier (node (m_chord md))) d plain), [], w').
Proof.
  intros Ha Hd Hn Hk Hnc Ho Hr Hf Hrc Hres Hnd Hsd Hcr Hwr.
  destruct (store_then_lookup a d name _ w ma md rc resp fs1 fs2 plain Ha Hf Hrc Hres Hd Hnd Hsd Hcr Hwr
              (decrypt_encrypt plain _ nc Hk Hnc)) as (w' & Hst & Hlk).
  exists w'. split.
  - erewrite run_store_command; [by rewrite Hst|done..|].
    unfold getFileContent. rewrite Ho, Hr. unfold encrypt. by rewrite Hk.
  - intros nonce'. assert (is_Some (w' !! a)) as [ma' Ha'].
    { destruct (w' !! a) as [m'|] eqn:E; [by eexists|]. exfalso. revert Hlk.
      unfold run_at, CallLookup, resolveIdentifier, with_node. cbn [pbind exec]. by rewrite E. }
    by rewrite (run_lookup_command a name nonce' w' ma' Ha' Hn), Hlk.
Qed.

(** A cipher for examples, which only puts a tag before the text. *)
Definition demo_aead : Aead := {|
  gcm_Seal _ _ p := String "T" p;
  gcm_Open _ _ c := match c with String "T" p => Some p | _ => None end
|}.

#[local] Instance demo_aead_laws : @AeadLaws demo_aead.
Proof. by split. Qed.

(** Node "m" of the three-node ring has a local file; node "t" is responsible
    for its name. *)
Definition demo_client : Machine MemFS :=
  mkMachine (mkChord "tcp" demo_member 2 "XXX" "2222" (mkTimings 1 1 1) [] [] "1623456022901234")
    (mkMemFS {["p" := "hello"]} ∅).
Definition demo_target : Machine MemFS :=
  mkMachine (mkChord "tcp" (set_Predecessor "m" (set_Successors ["b"; "m"] (demo_init 2 "t"))) 2 "XXX" "2222" (mkTimings 1 1 1) [] []
    "1623456022901234") (mkMemFS ∅ {["74Files/"]}).

Lemma store_lookup_roundtrip_witness :
  let w := {["m" := demo_client; "t" := demo_target]} : gmap string (Machine MemFS) in
  ∃ w', @run_at MemFS mem_fs demo_sha1 _ "m" (@parseInput MemFS mem_fs demo_sha1 demo_aead (Some "0123456789ab") ("StoreFile" +:+ String " " ("p" +:+ nl))) w =
          Ret (CmdStored (printHash (@hashString demo_sha1 "p")) (StoreDone FILEOK), [], w') ∧
    ∀ nonce', @run_at MemFS mem_fs demo_sha1 _ "m" (@parseInput MemFS mem_fs demo_sha1 demo_aead nonce' ("Lookup" +:+ String " " ("p" +:+ nl))) w' =
      Ret (CmdLooked (printHash (@hashString demo_sha1 "p")) (LookContent (Identifier (node (m_chord demo_target))) "t" "hello"), [], w').
Proof.
  intros w.
  apply (@store_lookup_roundtrip MemFS mem_fs mem_fs_laws demo_sha1 demo_aead demo_aead_laws "m" "t" "p" "hello" "0123456789ab" w
           demo_client demo_target MYSUCC (mkResponse true "t" (@hashString demo_sha1 "t"))
           (mkMemFS {["74Files/p" := ""]} {["74Files/"]})
           (mkMemFS {["74Files/p" := (@encrypt demo_aead "hello" "1623456022901234" (Some "0123456789ab")).1]} {["74Files/"]}));
    try (vm_compute; reflexivity); try (vm_compute; discriminate).
Defined.

(** ** Starting the first node *)

Lemma getArgs_ok `{Sha1} (fl : Flags) :
  verifyRange (fl_ts fl) (fl_tff fl) (fl_tcp fl) = true → fl_i fl = "XXX" → 0 ≤ fl_r fl →
  let addr := fl_a fl +:+ ":" +:+ fl_p fl in
  getArgs fl true = Ret (mkChord "tcp" (mkNode (hashString addr) addr "" 0 (replicate 161 (mkFinger 0 "")) (replicate (Z.to_nat (fl_r fl)) "") true)
    (fl_r fl) (fl_ja fl) (fl_jp fl) (mkTimings (fl_ts fl) (fl_tff fl) (fl_tcp fl)) [] [] (fl_e fl)).
Proof.
  intros Hv Hi Hr addr. unfold getArgs. rewrite Hv, Hi. unfold getIdentifier. rewrite decide_True by done.
  unfold make_slice. cbn [negb mbind outcome_bind]. change (keySize + 1 <? 0) with false.
  destruct (Z.ltb_spec (fl_r fl) 0); [lia|]. done.
Qed.

Lemma getIdentifier_in_ring `{Sha1} a s i : getIdentifier a s = Ret i → in_ring i.
Proof.
  unfold getIdentifier. case_decide; [intros <-%Ret_inj; apply hashString_in_ring|].
  destruct (SetString16 s); [intros <-%Ret_inj; apply mod_in_ring|done].
Qed.

(** A process that gets as far as its command loop has a well-formed node. *)
Lemma main_wf {FS} `{FileSystem FS} `{Sha1} fl certs (fs : FS) m p :
  main fl certs fs = Ret (m, p) →
  node_wf (Z.to_nat (fl_r fl)) (Identifier (node (m_chord m))) (fl_a fl +:+ ":" +:+ fl_p fl) (node (m_chord m)).
Proof.
  unfold main, getArgs. destruct (verifyRange _ _ _); [|done]. destruct certs; [|done]. cbn [negb].
  destruct (getIdentifier _ _) as [i| |] eqn:Hi; [|done..]. apply getIdentifier_in_ring in Hi.
  unfold make_slice. cbn [mbind outcome_bind]. change (keySize + 1 <? 0) with false.
  destruct (Z.ltb_spec (fl_r fl) 0); [done|]. cbn [mbind outcome_bind node].
  match goal with |- context [initClient ?n] =>
    destruct (initClient_wf n) as (n' & -> & Hwf & _); [done|done|simpl; unfold keySize; lia|] end.
  cbn [Successors NodeAddress Identifier mbind outcome_bind] in *. rewrite length_replicate in Hwf.
  intros [<- _]%Ret_pair_inj. cbn. by rewrite (wf_id _ _ _ _ Hwf).
Qed.

Lemma single_consistent `{Sha1} x n l :
  Identifier n = hashString x → NodeAddress n = x → Predecessor n = x → Successors n = l →
  Forall (eq x) l → consistent [x] n.
Proof.
  intros Hi Ha Hp Hs Hl. assert (Hnext : next [x] x x).
  { split; [by left|]. intros c Hc. set_unfold. destruct Hc as [->|[]]. done. }
  split; rewrite ?Ha, ?Hp, ?Hs, ?Hi; [by left|done|by split; [left|]|]. clear Hs.
  induction Hl as [|y l' <- Hl IH]; simpl; auto.
Qed.

Lemma succ0_replicate (r : nat) a n : (0 < r)%nat → Successors n = replicate r a →
  set_succ0 a n = Ret (set_Successors (replicate r a) n).
Proof.
  intros Hr Hs. unfold set_succ0. rewrite Hs. destruct r as [|r]; [lia|]. reflexivity.
Qed.

(** A node with no join pending starts its timers at once. *)
Lemma run_initIntervals {FS} `{FileSystem FS} `{Sha1} a (w : gmap string (Machine FS)) m :
  w !! a = Some m → JoinPending (node (m_chord m)) = false →
  (let t := intervalTimings (m_chord m) in verifyRange (t_Stabilize t) (t_FixFingers t) (t_CheckPred t) = true) →
  run_at a initIntervals w = Ret (tt, [], w).
Proof.
  intros Ha Hj Hv. unfold initIntervals. unfold run_at. cbn [exec]. rewrite Ha. unfold verifyRange in Hv. cbv zeta in Hv.
  set (t := intervalTimings (m_chord m)) in *.
  assert ((t_Stabilize t <=? 0) || (t_FixFingers t <=? 0) || (t_CheckPred t <=? 0) = false) as -> by lia.
  rewrite insert_id by done. unfold read_node. erewrite exec_read_only; [|done|reflexivity]. by rewrite Hj.
Qed.

(** Creating a ring on a node whose successors are all itself. *)
Lemma run_create {FS} `{FileSystem FS} `{Sha1} a (w : gmap string (Machine FS)) m r : (0 < r)%nat →
  w !! a = Some m → NodeAddress (node (m_chord m)) = a → Successors (node (m_chord m)) = replicate r a →
  run_at a (with_node (λ n, Ret (set_JoinPending false n, with_node (λ n, n' ← Create n; Ret (n', PRet tt))))) w =
  Ret (tt, [], <[a := upd_node (set_Predecessor a (set_Successors (replicate r a) (set_JoinPending false (node (m_chord m))))) m]> w).
Proof.
  intros Hr Ha Hn Hs. erewrite run_node; [|done|reflexivity].
  erewrite run_node; [|apply lookup_insert_eq|].
  2:{ unfold Create. assert (Hn' : NodeAddress (set_JoinPending false (node (m_chord m))) = a) by done.
      cbn [upd_node m_chord set_node node]. rewrite Hn', (succ0_replicate r) by done. reflexivity. }
  rewrite insert_insert_eq. done.
Qed.

(** The first node.  Started without a node to join, with an identifier
    computed from its address, intervals in range and at least one successor
    slot, a process runs its start-up to the end without a call: its node is well
    formed, is a consistent ring of its own and has no join pending. *)
Theorem main_creates_ring {FS : Type} `{FileSystem FS} `{Sha1} (fl : Flags) (fs : FS) :
  let addr := fl_a fl +:+ ":" +:+ fl_p fl in
  verifyRange (fl_ts fl) (fl_tff fl) (fl_tcp fl) = true → fl_i fl = "XXX" → fl_ja fl = "XXX" → 0 < fl_r fl →
  ∃ m p m', main fl true fs = Ret (m, p) ∧
    run_at addr p {[addr := m]} = Ret (tt, [], {[addr := m']}) ∧
    node_wf (Z.to_nat (fl_r fl)) (hashString addr) addr (node (m_chord m')) ∧
    consistent [addr] (node (m_chord m')) ∧ JoinPending (node (m_chord m')) = false.
Proof.
  intros addr Hv Hi Hja Hr. unfold main. rewrite getArgs_ok by (done || lia). fold addr. cbn [mbind outcome_bind node].
  edestruct (initClient_wf (mkNode (hashString addr) addr "" 0 (replicate 161 (mkFinger 0 ""))
     (replicate (Z.to_nat (fl_r fl)) "") true)) as (n & -> & Hwf & Hs & Hp & Hj & _);
    [apply hashString_in_ring|done|simpl; unfold keySize; lia|].
  cbn [Successors NodeAddress Identifier] in *. rewrite length_replicate in *. cbn [mbind outcome_bind set_node joinNodeIp].
  eexists _, _.
  match goal with |- ∃ m' : _, Ret (?x, _) = _ ∧ _ => set (m := x) end.
  set (n' := set_Predecessor addr (set_Successors (replicate (Z.to_nat (fl_r fl)) addr) (set_JoinPending false n))).
  exists (upd_node n' m). split; [reflexivity|].
  assert (Hwf' : node_wf (Z.to_nat (fl_r fl)) (hashString addr) addr n').
  { apply wf_set_Predecessor, wf_set_Successors; [by rewrite length_replicate|]. by destruct Hwf; split. }
  split; [|split; [done|split; [|done]]].
  - unfold joinOrCreate. rewrite decide_True by exact Hja. unfold run_at. rewrite exec_bind. match goal with |- context [exec ?g ?p ?c ?q ?w] => change (exec g p c q w) with (run_at addr q w) end.
    rewrite (run_create addr _ m (Z.to_nat (fl_r fl))); [|lia|apply lookup_singleton_eq|apply Hwf|exact Hs].
    cbn [mbind outcome_bind]. rewrite insert_singleton_eq.
    match goal with |- context [exec ?g ?p ?c ?q ?w] => change (exec g p c q w) with (run_at addr q w) end.
    by rewrite (run_initIntervals addr _ (upd_node n' m)); [|apply lookup_singleton_eq|..].
  - eapply single_consistent; [apply Hwf'|apply Hwf'|done|reflexivity|]. by apply Forall_replicate.
Qed.

Definition demo_flags : Flags := mkFlags "localhost" "1234" "XXX" "2222" 2000 2000 2000 "1623456022901234" "XXX" 2.

Lemma main_creates_ring_witness :
  ∃ m p m', @main MemFS mem_fs demo_sha1 demo_flags true (mkMemFS ∅ ∅) = Ret (m, p) ∧
    @run_at MemFS mem_fs demo_sha1 _ "localhost:1234" p {["localhost:1234" := m]} = Ret (tt, [], {["localhost:1234" := m']}) ∧
    node_wf 2 (@hashString demo_sha1 "localhost:1234") "localhost:1234" (node (m_chord m')) ∧
    @consistent demo_sha1 ["localhost:1234"] (node (m_chord m')) ∧ JoinPending (node (m_chord m')) = false.
Proof. apply (@main_creates_ring MemFS mem_fs demo_sha1 demo_flags (mkMemFS ∅ ∅)); [reflexivity..|vm_compute; reflexivity]. Defined.
