(* ===== verification/ChordArgs.v ===== *)
(** * Lab3_Chord: the command line of a node

    The flags [getArgs] of [chord.go] defines and parses, in front of [ChordMain.main],
    which starts from their values.  The theorems: every configuration can be given on
    the command line and is read back exactly, the defaults start the first node of a
    ring, and a command line that does not parse starts nothing. *)

From S2P Require Import Prelude GoFiles GoFlags ChordUtil ChordNode ChordRing ChordFiles GoProg ChordRPC ChordLookup ChordStore ChordMain.
From stdpp Require Import pretty.
Open Scope string_scope.
Open Scope Z_scope.

(** The flags defined, with their defaults. *)
Definition chord_formal : gmap string fvalue :=
  list_to_map [("a", FString "localhost"); ("p", FString "1234"); ("ja", FString "XXX"); ("jp", FString "2222");
    ("ts", FInt 2000); ("tff", FInt 2000); ("tcp", FInt 2000); ("e", FString "1623456022901234"); ("i", FString "XXX"); ("r", FInt 2); ("v", FBool false)].

(** The values of the flags; [-v] only turns on tracing. *)
Definition chord_flags (m : gmap string fvalue) : Flags :=
  mkFlags (get_string m "a") (get_string m "p") (get_string m "ja") (get_string m "jp") (get_int m "ts") (get_int m "tff") (get_int m "tcp")
    (get_string m "e") (get_string m "i") (get_int m "r").

(** The process started with the arguments [args], the first of which is the program. *)
Definition chord_process {FS} `{FileSystem FS} `{Sha1} (args : list string) (certs : bool) (fs : FS) : outcome (Machine FS * prog (Machine FS) ChordReq ChordRep ChordTask unit) :=
  match flag_Parse chord_formal (drop 1 args) with
  | FlagExit _ => Exit
  | Parsed m _ => main (chord_flags m) certs fs
  end.

(** ** Configurations on the command line *)

Definition flags_settings (fl : Flags) (verbose : bool) (f : string → form) : list setting :=
  [mkSetting "a" (FString (fl_a fl)) (f "a"); mkSetting "p" (FString (fl_p fl)) (f "p"); mkSetting "ja" (FString (fl_ja fl)) (f "ja");
   mkSetting "jp" (FString (fl_jp fl)) (f "jp"); mkSetting "ts" (FInt (fl_ts fl)) (f "ts"); mkSetting "tff" (FInt (fl_tff fl)) (f "tff");
   mkSetting "tcp" (FInt (fl_tcp fl)) (f "tcp"); mkSetting "e" (FString (fl_e fl)) (f "e"); mkSetting "i" (FString (fl_i fl)) (f "i");
   mkSetting "r" (FInt (fl_r fl)) (f "r"); mkSetting "v" (FBool verbose) (Joined false)].

Definition flags_ok (fl : Flags) : Prop := is_int64 (fl_ts fl) ∧ is_int64 (fl_tff fl) ∧ is_int64 (fl_tcp fl) ∧ is_int64 (fl_r fl).

Definition takes_value (f : form) : Prop := match f with Bare _ => False | _ => True end.

Lemma setting_value_ok name v old f : name_ok name → chord_formal !! name = Some old → same_type old v →
  match v with FString _ => takes_value f | FInt n => is_int64 n ∧ takes_value f | FBool _ => f = Joined false end →
  setting_ok chord_formal (mkSetting name v f).
Proof.
  intros Hn Hm Ht Hv. split; [done|]. cbn [st_name st_value st_form]. split; [by exists old|].
  destruct v as [s|n|b]; [by destruct f|destruct Hv as [Hi Hf]; by destruct f|by subst f].
Qed.

Lemma flags_settings_ok fl verbose f : flags_ok fl → (∀ n, takes_value (f n)) → Forall (setting_ok chord_formal) (flags_settings fl verbose f).
Proof.
  intros (H1 & H2 & H3 & H4) Hf. unfold flags_settings.
  repeat (apply Forall_cons; split; [eapply setting_value_ok; [by vm_compute; split_and?|reflexivity|done|by auto]|]). apply Forall_nil. done.
Qed.

Lemma flags_settings_read fl verbose f : chord_flags (foldl apply_setting chord_formal (flags_settings fl verbose f)) = fl.
Proof. destruct fl. reflexivity. Qed.

(** The settings in any order. *)
Lemma foldl_apply_perm m (sts sts' : list setting) : NoDup (st_name <$> sts) → sts ≡ₚ sts' → foldl apply_setting m sts = foldl apply_setting m sts'.
Proof.
  intros Hnd Hp. revert m Hnd. induction Hp as [|st l l' Hp IH|st st' l|l1 l2 l3 Hp1 IH1 Hp2 IH2]; intros m Hnd; cbn [foldl]; [done| | |].
  - apply IH. by apply NoDup_cons_1_2 in Hnd.
  - unfold apply_setting at 2 3 5 6. rewrite insert_insert_ne; [done|]. intros He. cbn [fmap list_fmap] in Hnd. apply NoDup_cons in Hnd as [Hnin _]. apply Hnin. rewrite He. by left.
  - rewrite IH1 by done. apply IH2. by rewrite <-Hp1.
Qed.

Section Args.
Context {FS : Type} `{FileSystem FS} `{Sha1}.

(** C33 (command line of a node).  Every configuration of a node can be given on the
    command line: writing each flag once, in any order, with one or two dashes and
    with its value after an equals sign or as the next argument, followed by arguments
    that are no flags, starts the process exactly with those values, whatever
    strings they contain. *)
Theorem chord_command_line (prog : string) (fl : Flags) (verbose certs : bool) (f : string → form) (sts : list setting) (rest : list string) (fs : FS) :
  flags_ok fl → (∀ n, takes_value (f n)) → sts ≡ₚ flags_settings fl verbose f →
  match rest with [] => True | a :: _ => dashes a = NotFlag end →
  chord_process (prog :: concat (show_setting <$> sts) ++ rest)%list certs fs = main fl certs fs.
Proof.
  intros Hfl Hf Hp Hr. unfold chord_process. rewrite skipn_cons, drop_0, flag_Parse_settings; [|by rewrite Hp; apply flags_settings_ok|done].
  rewrite (foldl_apply_perm _ sts (flags_settings fl verbose f)); [by rewrite flags_settings_read| |done].
  rewrite Hp. unfold flags_settings. cbn [fmap list_fmap st_name]. by apply (bool_decide_unpack (NoDup _)).
Qed.

(** With an undefined flag the process ends before it touches a file. *)
Theorem chord_undefined_flag (prog : string) (fl : Flags) (verbose certs two : bool) (f : string → form) (name : string) (rest : list string) (fs : FS) :
  flags_ok fl → (∀ n, takes_value (f n)) → name_ok name → name ∉ st_name <$> flags_settings fl verbose f →
  chord_process (prog :: concat (show_setting <$> flags_settings fl verbose f) ++ (show_dashes two +:+ name) :: rest)%list certs fs = Exit.
Proof.
  intros Hfl Hf Hn Hnin. unfold chord_process. rewrite skipn_cons, drop_0, flag_Parse_undefined; [done|by apply flags_settings_ok|done|].
  unfold flags_settings, apply_setting in *. cbn [foldl fmap list_fmap st_name st_value] in *. unfold chord_formal. cbn [list_to_map foldr].
  rewrite !not_elem_of_cons in Hnin. destruct_and!. repeat (rewrite lookup_insert_ne by done). reflexivity.
Qed.

(** Started without arguments a node is the first of a ring of its own, with its
    defaults. *)
Theorem chord_default (prog : string) (fs : FS) :
  ∃ m p m', chord_process [prog] true fs = Ret (m, p) ∧
    run_at "localhost:1234" p {["localhost:1234" := m]} = Ret (tt, [], {["localhost:1234" := m']}) ∧
    node_wf 2 (hashString "localhost:1234") "localhost:1234" (node (m_chord m')) ∧
    consistent ["localhost:1234"] (node (m_chord m')) ∧ JoinPending (node (m_chord m')) = false.
Proof. apply (main_creates_ring (mkFlags "localhost" "1234" "XXX" "2222" 2000 2000 2000 "1623456022901234" "XXX" 2) fs); done. Qed.
End Args.

Definition demo_args : list string := ["chord"; "-a"; "-x"; "--p=80"; "-ja"; "h=1"; "-jp=9"; "-ts"; "0x10"; "-i"; ""; "start"].

(** A value may start with a dash and a number may be hexadecimal. *)
Lemma demo_args_read : match flag_Parse chord_formal (drop 1 demo_args) with
  | Parsed m rest => chord_flags m = mkFlags "-x" "80" "h=1" "9" 16 2000 2000 "1623456022901234" "" 2 ∧ rest = ["start"] | FlagExit _ => False end.
Proof. vm_compute. done. Qed.

Lemma chord_command_line_witness :
  @chord_process MemFS mem_fs demo_sha1 ("chord" :: concat (show_setting <$> flags_settings demo_flags true (λ _, Separate true)) ++ ["x"])%list true (mkMemFS ∅ ∅) =
  @main MemFS mem_fs demo_sha1 demo_flags true (mkMemFS ∅ ∅).
Proof.
  apply (@chord_command_line MemFS mem_fs demo_sha1 "chord" demo_flags true true (λ _, Separate true) (flags_settings demo_flags true (λ _, Separate true)) ["x"]);
    [split_and!; vm_compute; done|done|done|reflexivity].
Defined.
