(* ===== verification/ChordDurable.v ===== *)
(** * Lab3_Chord: a stored file survives the crash of its owner

    The owner of a file duplicates it to its successor, which keeps it in its
    directory of replicas.  When the owner is gone, the successor notices it in its
    check of the predecessor and moves the replicas to its own files.  The theorem
    composes the three phases (storing, taking over, looking up) over a group of
    machines; between the phases the rest of the system may change in any way. *)

From S2P Require Import Prelude GoFiles ChordUtil ChordNode ChordFiles GoProg ChordRPC ChordLookup ChordStore ChordMain.
From Stdlib Require Import Ascii.
Open Scope string_scope.
Open Scope Z_scope.

(** Files can be moved from directory [d] to [e] as long as [ok] holds of the disk,
    and neither that nor writing files ends it. *)
Record movable {FS} `{FileSystem FS} (ok : FS → Prop) (d e : string) : Prop := {
  move_ok : ∀ fs x, plain_name x = true → ok fs → os_Open (d +:+ "/" +:+ x) fs = true →
    is_Some (os_Rename (d +:+ "/" +:+ x) (e +:+ "/" +:+ x) fs);
  move_keeps : ∀ fs x fs', ok fs → os_Rename (d +:+ "/" +:+ x) (e +:+ "/" +:+ x) fs = Some fs' → ok fs'
}.

Section Durable.
Context {FS : Type} `{FileSystemLaws FS} `{!DirLaws FS} `{Sha1} `{AeadLaws}.

Notation P := (prog (Machine FS) ChordReq ChordRep ChordTask).
Notation W := (gmap string (Machine FS)).

Definition duplPath (name : string) (n : NodeInfo) : string := duplDir n +:+ "/" +:+ name.

(** Machine [m] keeps a replica of [name]. *)
Definition holds_replica (name content : string) (m : Machine FS) : Prop :=
  name ∈ replicatedFiles (m_chord m) ∧
  os_Open (duplPath name (node (m_chord m))) (m_fs m) = true ∧
  io_ReadAll (duplPath name (node (m_chord m))) (m_fs m) = Some content.

(** Machine [m] has [name] among its own files. *)
Definition holds_file (name content : string) (m : Machine FS) : Prop :=
  name ∈ files (m_chord m) ∧
  os_Open (lookPath name (node (m_chord m))) (m_fs m) = true ∧
  io_ReadAll (lookPath name (node (m_chord m))) (m_fs m) = Some content.

(** ** Paths *)

Lemma duplPath_eq name n : duplPath name n = sprintf_x (Identifier n) +:+ "Replicated" +:+ "/" +:+ name.
Proof. unfold duplPath, duplDir. by rewrite str_app_assoc. Qed.

Lemma filePath_eq name n : fileDir n +:+ "/" +:+ name = lookPath name n.
Proof. unfold fileDir. by rewrite str_app_assoc. Qed.

Lemma str_app_inj p s t : p +:+ s = p +:+ t → s = t.
Proof. induction p as [|c p IH]; [done|]. by intros [= Hs%IH]. Qed.

(** The two paths of a plain name are apart from those of any other entry. *)
Lemma paths_apart name e n : plain_name name = true → e ≠ name →
  ∀ x, x = duplPath name n ∨ x = lookPath name n →
  x ≠ duplPath e n ∧ x ≠ lookPath e n ∧ has_prefix (duplPath e n +:+ "/") x = false ∧ has_prefix (lookPath e n +:+ "/") x = false.
Proof.
  intros Hp Hne x Hx. rewrite duplPath_eq in *. unfold lookPath in *.
  rewrite !str_app_assoc. destruct Hx as [->| ->]; rewrite !has_prefix_app;
    (repeat split; try (by intros [=]%str_app_inj); try done; by apply plain_not_below).
Qed.

(** ** Taking over *)

Lemma rename_entry name e n (fs : FS) c : plain_name name = true → e ≠ name →
  let fs' := default fs (os_Rename (duplPath e n) (lookPath e n) fs) in
  ∀ x, x = duplPath name n ∨ x = lookPath name n →
  os_Open x fs = true → io_ReadAll x fs = Some c → os_Open x fs' = true ∧ io_ReadAll x fs' = Some c.
Proof.
  intros Hp Hne fs' x Hx Ho Hr. unfold fs'. destruct (os_Rename _ _ fs) as [f|] eqn:E; [|done].
  destruct (paths_apart name e n Hp Hne x Hx) as (? & ? & ? & ?).
  simpl. by destruct (rename_other (duplPath e n) (lookPath e n) x fs f) as [-> ->].
Qed.

(** One round of the loop moves the entry and duplicates it further; nothing else
    changes on this machine, and at most files on others. *)
Lemma adopt_step s e rest (w : W) m : w !! s = Some m → NodeAddress (node (m_chord m)) = s →
  Successors (node (m_chord m)) ≠ [] →
  let n := node (m_chord m) in
  let m1 := mkMachine (m_chord m) (default (m_fs m) (os_Rename (duplPath e n) (lookPath e n) (m_fs m))) in
  ∃ w1, w1 !! s = Some m1 ∧ run_at s (adopt_loop (e :: rest)) w = run_at s (adopt_loop rest) w1 ∧
    ∀ x mx, w !! x = Some mx → ∃ mx', w1 !! x = Some mx' ∧ same_host mx mx'.
Proof.
  intros Hs Ha Hsu n m1. unfold run_at. cbn [adopt_loop exec]. rewrite Hs, <-duplPath_eq.
  change (sprintf_x _ +:+ "Files/" +:+ e) with (lookPath e n). fold n m1.
  set (w0 := <[s := m1]> w : W). assert (Hs0 : w0 !! s = Some m1) by apply lookup_insert_eq.
  assert (Hw0 : ∀ x mx, w !! x = Some mx → ∃ mx', w0 !! x = Some mx' ∧ same_host mx mx').
  { intros x mx Hx. unfold w0. destruct (decide (s = x)) as [<-|]; [|rewrite lookup_insert_ne by done; by exists mx].
    rewrite lookup_insert_eq. exists m1. by assert (mx = m) as -> by congruence. }
  destruct (if os_Open _ _ then _ else None) as [content|]; [|by exists w0].
  set (q := mkStoreFileRequest _ _ content true).
  destruct (exec_duplication 1 s q w0 m1 eq_refl Hs0 Ha Hsu) as (w1 & Hex & Hs1 & Hsame). exists w1. split; [done|]. split; [|
    intros x mx (mx' & Hx & E1 & E2)%Hw0; destruct (Hsame x mx' Hx) as (mx'' & Hx' & E3 & E4); exists mx''; split; [done|]; split; congruence].
  rewrite exec_bind. fold w0. rewrite Hex. cbn. by destruct (exec _ _ _ (adopt_loop rest) w1) as [[[[] ts] w2]| |].
Qed.

(** What the loop leaves: every replica is an own file. *)
Definition adopted (c : Chord) : Chord := set_replicatedFiles [] (set_files (files c ++ replicatedFiles c) c).

Lemma adopt_loop_moves s entries name content ok (w : W) m :
  w !! s = Some m → NodeAddress (node (m_chord m)) = s → Successors (node (m_chord m)) ≠ [] →
  plain_name name = true → NoDup entries →
  movable ok (duplDir (node (m_chord m))) (fileDir (node (m_chord m))) → ok (m_fs m) →
  let at_path p := os_Open p (m_fs m) = true ∧ io_ReadAll p (m_fs m) = Some content in
  name ∈ entries ∧ at_path (duplPath name (node (m_chord m))) ∨ name ∉ entries ∧ at_path (lookPath name (node (m_chord m))) →
  ∃ w' fs', run_at s (adopt_loop entries) w = Ret (tt, [], w') ∧
    w' !! s = Some (mkMachine (adopted (m_chord m)) fs') ∧
    os_Open (lookPath name (node (m_chord m))) fs' = true ∧ io_ReadAll (lookPath name (node (m_chord m))) fs' = Some content.
Proof.
  revert w m. induction entries as [|e rest IH]; intros w [c fs] Hs Ha Hsu Hp Hnd Hmv Hok at_path Hat; cbn [m_chord m_fs] in *.
  { destruct Hat as [[[]%not_elem_of_nil _]|[_ Hat]]. eexists _, fs. unfold run_at. cbn [adopt_loop exec].
    rewrite Hs. split; [done|]. by rewrite lookup_insert_eq. }
  destruct (adopt_step s e rest w _ Hs Ha Hsu) as (w1 & Hs1 & -> & _). cbn [m_chord m_fs] in Hs1.
  set (fs1 := default fs _) in Hs1. apply NoDup_cons in Hnd as [Hni Hnd].
  assert (Hok1 : ok fs1).
  { unfold fs1. destruct (os_Rename _ _ fs) as [f|] eqn:E; [|done]. rewrite <-filePath_eq in E.
    by apply (move_keeps ok _ _ Hmv fs e). }
  destruct (IH w1 (mkMachine c fs1) Hs1 Ha Hsu Hp Hnd Hmv Hok1) as (w' & fs' & Hrun & Hw' & Hfile); [|by exists w', fs'].
  cbn [m_chord m_fs]. destruct (decide (e = name)) as [->|Hne].
  - right. split; [done|]. destruct Hat as [[_ [Ho Hr]]|[[]%not_elem_of_cons _]]; [|done].
    destruct (move_ok ok _ _ Hmv fs name Hp Hok Ho) as [f Hf]. rewrite filePath_eq in Hf. fold (duplPath name (node c)) in Hf.
    unfold fs1. rewrite Hf. apply (rename_moves (duplPath name (node c)) _ content fs); [|done..].
    rewrite duplPath_eq. by intros [=]%str_app_inj.
  - destruct Hat as [[Hin [Ho Hr]]|[Hin [Ho Hr]]].
    + left. split; [by apply elem_of_cons in Hin as [->|]|]. apply (rename_entry name e (node c)); auto.
    + right. split; [by intros ?; apply Hin, elem_of_cons; right|]. apply (rename_entry name e (node c)); auto.
Qed.

Lemma chord_call_dead fuel d q (w : W) : w !! d = None → chord_call fuel d q w = Ret (None, w).
Proof. intros Hd. destruct fuel; simpl; [done|]. by rewrite Hd. Qed.

(** The check of a dead predecessor takes the replicas over and forgets it. *)
Lemma checkPredTick_dead s d (w : W) m :
  w !! s = Some m → NodeAddress (node (m_chord m)) = s → Predecessor (node (m_chord m)) = d → d ≠ "X" → d ≠ s → w !! d = None →
  run_at s checkPredTick w =
  '(_, ts, w1) ← run_at s reassignDuplicatedToMe w;
  '(b, ts', w2) ← run_at s (with_node (λ n, Ret (set_Predecessor "X" n, PRet tt))) w1;
  Ret (b, (ts ++ ts')%list, w2).
Proof.
  intros Hs Ha Hpr Hx Hds Hd. unfold run_at, checkPredTick. rewrite exec_bind. unfold CallCheckPred, read_node.
  erewrite exec_read_only; [|done|by rewrite Hpr, decide_False, decide_False by congruence].
  erewrite exec_read_only by done. cbn [exec]. rewrite Hpr. rewrite (chord_call_dead 2 d) by done. cbn [exec mbind outcome_bind].
  rewrite bool_decide_false by (by intros []). rewrite exec_bind.
  destruct (exec _ _ _ reassignDuplicatedToMe w) as [[[[] ts] w1]| |]; [|done..]. cbn [mbind outcome_bind].
  by destruct (exec _ _ _ (with_node _) w1) as [[[[] ts'] w2]| |].
Qed.

(** It turns the replica into a file of this node. *)
Lemma checkPred_takes_over s d name content ok (w : W) m :
  w !! s = Some m → NodeAddress (node (m_chord m)) = s → Successors (node (m_chord m)) ≠ [] →
  Predecessor (node (m_chord m)) = d → d ≠ "X" → d ≠ s → w !! d = None →
  plain_name name = true → holds_replica name content m →
  is_Some (os_ReadDir (duplDir (node (m_chord m))) (m_fs m)) →
  movable ok (duplDir (node (m_chord m))) (fileDir (node (m_chord m))) → ok (m_fs m) →
  ∃ w' m', run_at s checkPredTick w = Ret (tt, [], w') ∧ w' !! s = Some m' ∧
    node (m_chord m') = set_Predecessor "X" (node (m_chord m)) ∧ holds_file name content m'.
Proof.
  intros Hs Ha Hsu Hpr Hx Hds Hd Hp (Hrep & Ho & Hr) [entries He] Hmv Hok.
  destruct (readdir_lists _ _ _ He) as [Hnd Hls].
  destruct (adopt_loop_moves s entries name content ok w m Hs Ha Hsu Hp Hnd Hmv Hok) as (w1 & fs1 & Hrun & Hs1 & Hfile).
  { left. split; [|done]. by apply Hls. }
  exists (<[s := mkMachine (set_node (set_Predecessor "X" (node (m_chord m))) (adopted (m_chord m))) fs1]> w1).
  eexists. rewrite (checkPredTick_dead s d w m) by done. split; [|rewrite lookup_insert_eq; split; [done|]].
  - unfold run_at in Hrun |- *. unfold reassignDuplicatedToMe. cbn [exec]. rewrite Hs.
    rewrite decide_False by (by intros Hnil; rewrite Hnil in Hrep; apply not_elem_of_nil in Hrep).
    rewrite insert_id by done. rewrite He. change (default [] (Some entries)) with entries. rewrite Hrun.
    cbn [mbind outcome_bind]. unfold with_node. cbn [exec]. rewrite Hs1. done.
  - split; [done|]. split; [|done]. cbn. apply elem_of_app. by right.
Qed.

(** ** Storing *)

(** Creating a file and writing its content, when both succeed. *)
Definition write_file (path content : string) (fs : FS) : option FS :=
  fs1 ← os_Create path fs; let '(fs2, ok) := file_Write path content fs1 in if ok then Some fs2 else None.

Lemma write_file_inv path content fs fs2 : write_file path content fs = Some fs2 →
  ∃ fs1, os_Create path fs = Some fs1 ∧ file_Write path content fs1 = (fs2, true).
Proof.
  unfold write_file. destruct (os_Create path fs) as [fs1|]; [|done]. cbn.
  destruct (file_Write path content fs1) as [f [|]] eqn:E; [|done]. intros [= <-]. by exists fs1.
Qed.

(** [d] with successor [s] stores the file and its replica is at [s]. *)
Lemma call_store_replicates d s ss q (w : W) md ms fs2 gs2 : DuplicationReq q = false →
  w !! d = Some md → NodeAddress (node (m_chord md)) = d → Successors (node (m_chord md)) = s :: ss →
  s ≠ "X" → s ≠ d → w !! s = Some ms →
  write_file (lookPath (sf_FileName q) (node (m_chord md))) (sf_FileContent q) (m_fs md) = Some fs2 →
  write_file (duplPath (sf_FileName q) (node (m_chord ms))) (sf_FileContent q) (m_fs ms) = Some gs2 →
  ∃ w', chord_call 2 d (RStoreFile q) w = Ret (Some (AStoreFile (mkStoreFileResponse FILEOK)), w') ∧
    w' !! s = Some (mkMachine (set_replicatedFiles (replicatedFiles (m_chord ms) ++ [sf_FileName q]) (m_chord ms)) gs2).
Proof.
  intros Hq Hd Ha Hsu Hx Hsd Hs (fs1 & Hcr & Hwr)%write_file_inv (gs1 & Hcr' & Hwr')%write_file_inv. rewrite duplPath_eq in *.
  rewrite (chord_call_S 1 d _ w md) by done. cbn [serve]. rewrite exec_bind. cbn [exec StoreFile]. rewrite Hd.
  unfold store_local, storePath. rewrite Hq. unfold lookPath in *. rewrite Hcr, Hwr. rewrite exec_bind.
  set (m1 := mkMachine _ fs2). set (w1 := <[d := m1]> w : W).
  assert (Hd1 : w1 !! d = Some m1) by apply lookup_insert_eq.
  assert (Hs1 : w1 !! s = Some ms) by (unfold w1; by rewrite lookup_insert_ne).
  assert (Hget : slice_get (Successors (node (m_chord m1))) 0 = Ret s) by (simpl; by rewrite Hsu).
  unfold CallDuplication.
  erewrite exec_read_only; [|done|rewrite Hget; cbn [mbind outcome_bind]; by rewrite decide_False].
  erewrite exec_read_only; [|done|rewrite Hget; cbn [mbind outcome_bind]; by rewrite decide_False by (simpl; congruence)].
  erewrite exec_read_only; [|done|by rewrite Hget]. cbn [exec].
  rewrite (chord_call_S 0 s _ w1 ms) by done. cbn [serve pbind exec StoreFile]. rewrite Hs1.
  unfold store_local, storePath. cbn [DuplicationReq sf_FileName sf_FileContent sf_FileIdentifier].
  change ("Replicated/" +:+ sf_FileName q) with ("Replicated" +:+ "/" +:+ sf_FileName q).
  rewrite Hcr', Hwr'. cbn. eexists. split; [reflexivity|]. by rewrite lookup_insert_eq.
Qed.

(** ** Looking up *)

Lemma lookup_held b s name content plain (w : W) mb ms rc resp :
  w !! s = Some ms → NodeAddress (node (m_chord ms)) = s → holds_file name content ms →
  w !! b = Some mb → find (node (m_chord mb)) (hashString name) Response0 = Ret (rc, resp) → rc ≠ PASSALONG →
  r_NodeAddress resp = s → decrypt content (encKey (m_chord mb)) = Ret (plain, true) →
  run_at b (CallLookup (mkRetreiveFileRequest (hashString name) name)) w =
  Ret (LookContent (Identifier (node (m_chord ms))) s plain, [], w).
Proof.
  intros Hs Ha (_ & Ho & Hr) Hb Hf Hrc Hres Hdec. unfold run_at, CallLookup. rewrite exec_bind. cbn [rf_FileIdentifier].
  fold (run_at b (resolveIdentifier (hashString name)) w).
  rewrite (resolve_local b _ w mb rc resp) by done. rewrite Hres. cbn [mbind outcome_bind exec].
  rewrite (call_lookup s _ w ms content) by done. cbn [rf_FileStatus]. rewrite decide_False by naive_solver.
  cbn [exec]. rewrite Hb. cbn [rf_FileContent]. rewrite Hdec. simpl. by rewrite insert_id, Ha.
Qed.

End Durable.

(** C10 (a stored file survives its owner).  Node [a] stores a file whose owner is [d],
    and [d]'s first successor [s] is alive; both disks accept the file.  Then the
    store succeeds, and in any later state of the system in which [d] is gone and
    [s] is as the store left it, [s]'s next check of its predecessor [d] takes the
    replica over; from then on, whatever happened to the other nodes, any node whose
    [find] names [s] for the file reads the original content from [s]. *)
Theorem stored_file_survives {FS : Type} `{FileSystemLaws FS} `{!DirLaws FS} `{Sha1} `{AeadLaws}
    (a d s name content plain : string) (ss : list string) (w : gmap string (Machine FS)) (ma md ms : Machine FS)
    (rc : RetCode) (resp : Response) (fs2 gs2 : FS) (ok : FS → Prop) :
  w !! a = Some ma → find (node (m_chord ma)) (hashString name) Response0 = Ret (rc, resp) → rc ≠ PASSALONG →
  r_NodeAddress resp = d →
  w !! d = Some md → NodeAddress (node (m_chord md)) = d → Successors (node (m_chord md)) = s :: ss → d ≠ "X" →
  w !! s = Some ms → NodeAddress (node (m_chord ms)) = s → Successors (node (m_chord ms)) ≠ [] →
  Predecessor (node (m_chord ms)) = d → s ≠ "X" → s ≠ d →
  plain_name name = true →
  write_file (lookPath name (node (m_chord md))) content (m_fs md) = Some fs2 →
  write_file (duplPath name (node (m_chord ms))) content (m_fs ms) = Some gs2 →
  is_Some (os_ReadDir (duplDir (node (m_chord ms))) gs2) →
  movable ok (duplDir (node (m_chord ms))) (fileDir (node (m_chord ms))) → ok gs2 →
  ∃ w1, run_at a (CallStoreFile (mkStoreFileRequest (hashString name) name content false)) w = Ret (StoreDone FILEOK, [], w1) ∧
  ∀ w2 : gmap string (Machine FS), w2 !! s = w1 !! s → w2 !! d = None →
  ∃ w3, run_at s checkPredTick w2 = Ret (tt, [], w3) ∧
  ∀ (w4 : gmap string (Machine FS)) b mb rc' resp', w4 !! s = w3 !! s → w4 !! b = Some mb →
    find (node (m_chord mb)) (hashString name) Response0 = Ret (rc', resp') → rc' ≠ PASSALONG → r_NodeAddress resp' = s →
    decrypt content (encKey (m_chord mb)) = Ret (plain, true) →
    run_at b (CallLookup (mkRetreiveFileRequest (hashString name) name)) w4 =
    Ret (LookContent (Identifier (node (m_chord ms))) s plain, [], w4).
Proof.
  intros Ha Hf Hrc Hres Hd Had Hsd Hdx Hs Has Hss Hps Hsx Hne Hp Hwd Hws Hdir Hmv Hok.
  set (q := mkStoreFileRequest (hashString name) name content false).
  destruct (call_store_replicates d s ss q w md ms fs2 gs2 eq_refl Hd Had Hsd Hsx Hne Hs Hwd Hws) as (w1 & Hcall & Hs1).
  exists w1. split.
  { unfold run_at, CallStoreFile. rewrite exec_bind. fold (run_at a (resolveIdentifier (sf_FileIdentifier q)) w).
    rewrite (resolve_local a _ w ma rc resp) by done. rewrite Hres. cbn [mbind outcome_bind exec]. by rewrite Hcall. }
  intros w2 Hs2 Hd2. rewrite Hs1 in Hs2.
  apply write_file_inv in Hws as (gs1 & Hcr & Hwr). destruct (write_read _ _ _ _ _ Hcr Hwr) as [Ho Hr].
  destruct (checkPred_takes_over s d name content ok w2 _ Hs2 Has Hss Hps Hdx (not_eq_sym Hne) Hd2 Hp) as
    (w3 & ms' & Hrun & Hs3 & Hn3 & Hfile); [|done..|].
  { split; [|done]. cbn. apply elem_of_app. right. by apply list_elem_of_singleton. }
  exists w3. split; [done|]. intros w4 b mb rc' resp' Hs4 Hb Hf' Hrc' Hres' Hdec. rewrite Hs3 in Hs4.
  rewrite (lookup_held b s name content plain w4 mb ms' rc' resp'); rewrite ?Hn3; done.
Qed.

(** The ring of "b", "m" and "t": "m" stores a file at "t", whose successor "b"
    takes it over when "t" crashes; "m" reads it there after its stabilization. *)
Definition demo_heir : Machine MemFS :=
  mkMachine (mkChord "tcp" (set_Predecessor "t" (set_Successors ["m"; "t"] (demo_init 2 "b"))) 2 "XXX" "2222" (mkTimings 1 1 1) [] []
    "1623456022901234") (mkMemFS ∅ {["62Files/"; "62Replicated/"]}).

Lemma dir_of_plain x cur acc : no_char "/" x = true → dir_of x cur acc = acc.
Proof.
  revert cur. induction x as [|c x IH]; intros cur; simpl; [done|]. intros [Hc%bool_decide_eq_true Hx]%andb_true_iff.
  rewrite decide_False by done. by apply IH.
Qed.

Lemma demo_movable : movable (λ fs, "62Files/" ∈ mf_dirs fs) (duplDir (node (m_chord demo_heir))) (fileDir (node (m_chord demo_heir))).
Proof.
  assert (duplDir (node (m_chord demo_heir)) = "62Replicated") as -> by (vm_compute; reflexivity).
  assert (fileDir (node (m_chord demo_heir)) = "62Files") as -> by (vm_compute; reflexivity).
  split.
  - intros fs x [_ Hx]%andb_true_iff Hok [c Hc]%bool_decide_eq_true. cbn [os_Rename mem_fs].
    rewrite decide_True.
    + rewrite Hc. by eexists.
    + right. change (dir_of ("62Files" +:+ "/" +:+ x) "" "") with (dir_of x "62Files/" "62Files/"). by rewrite dir_of_plain.
  - intros fs x fs' Hok Hmv. cbn [os_Rename mem_fs] in Hmv. case_decide; [|done].
    destruct (mf_files fs !! _) as [c|]; [|done]. by injection Hmv as <-.
Qed.

Definition world_after {A} (o : outcome (A * list ChordTask * gmap string (Machine MemFS))) : gmap string (Machine MemFS) :=
  match o with Ret (_, _, w) => w | _ => ∅ end.

Definition demo_cipher : string := (@encrypt demo_aead "hello" "1623456022901234" (Some "0123456789ab")).1.
Definition demo_w0 : gmap string (Machine MemFS) := {["m" := demo_client; "t" := demo_target; "b" := demo_heir]}.
Definition demo_stored : outcome (StoreReport * list ChordTask * gmap string (Machine MemFS)) :=
  @run_at MemFS mem_fs demo_sha1 _ "m" (@CallStoreFile MemFS demo_sha1 (mkStoreFileRequest (@hashString demo_sha1 "p") "p" demo_cipher false)) demo_w0.
Definition demo_taken : outcome (unit * list ChordTask * gmap string (Machine MemFS)) :=
  @run_at MemFS mem_fs demo_sha1 _ "b" (@checkPredTick MemFS mem_fs demo_sha1) (delete "t" (world_after demo_stored)).
Definition demo_healed : outcome (unit * list ChordTask * gmap string (Machine MemFS)) :=
  @run_at MemFS mem_fs demo_sha1 _ "m" CallStabilize (world_after demo_taken).

Lemma stored_file_survives_witness :
  (∃ w1, demo_stored = Ret (StoreDone FILEOK, [], w1)) ∧ (∃ w3, demo_taken = Ret (tt, [], w3)) ∧
  @run_at MemFS mem_fs demo_sha1 _ "m" (@CallLookup MemFS demo_sha1 demo_aead (mkRetreiveFileRequest (@hashString demo_sha1 "p") "p"))
    (world_after demo_healed) = Ret (LookContent 98 "b" "hello", [], world_after demo_healed).
Proof.
  destruct (@stored_file_survives MemFS mem_fs mem_fs_laws mem_dir_laws demo_sha1 demo_aead demo_aead_laws
    "m" "t" "b" "p" demo_cipher "hello" ["m"] demo_w0 demo_client demo_target demo_heir MYSUCC
    (mkResponse true "t" (@hashString demo_sha1 "t"))
    (mkMemFS {["74Files/p" := demo_cipher]} {["74Files/"]})
    (mkMemFS {["62Replicated/p" := demo_cipher]} {["62Files/"; "62Replicated/"]})
    (λ fs, "62Files/" ∈ mf_dirs fs)) as (w1 & H1 & Hrest);
    [vm_compute; reflexivity|vm_compute; reflexivity|discriminate|reflexivity
    |vm_compute; reflexivity|vm_compute; reflexivity|vm_compute; reflexivity|discriminate
    |vm_compute; reflexivity|vm_compute; reflexivity|vm_compute; discriminate|vm_compute; reflexivity|discriminate|discriminate
    |reflexivity|vm_compute; reflexivity|vm_compute; reflexivity| |apply demo_movable|simpl; set_solver|].
  { eexists. vm_compute. reflexivity. }
  assert (world_after demo_stored = w1) as E1 by (unfold demo_stored; by rewrite H1).
  destruct (Hrest (delete "t" w1)) as (w3 & H3 & Hlook); [rewrite <-E1; vm_compute; reflexivity..|].
  rewrite <-E1 in H3. assert (world_after demo_taken = w3) as E3 by (unfold demo_taken; by rewrite H3).
  split; [by exists w1|]. split; [by exists w3|].
  apply (Hlook _ "m" (default demo_client (world_after demo_healed !! "m")) MYSUCC (mkResponse true "b" (@hashString demo_sha1 "b")));
    [rewrite <-E3; vm_compute; reflexivity|vm_compute; reflexivity|vm_compute; reflexivity|discriminate
    |reflexivity|vm_compute; reflexivity].
Defined.
