(* ===== verification/ChordGrowth.v ===== *)
(** * Lab3_Chord: a ring grows by joins

    Nodes join a ring of any size.  A join request is passed along by members until it
    reaches the member before or after the new node; the join, the notification it leads
    to and one stabilization of the member before leave every node with the
    predecessor and the first successor of the larger ring. *)

From S2P Require Import Prelude GoFiles ChordUtil ChordNode ChordRing ChordFiles GoProg ChordRPC ChordLookup.
Open Scope string_scope.
Open Scope Z_scope.

(** ** Inserting a member *)

Section Insert.
Context `{Sha1}.
Implicit Types (ring : list string) (p s j x y : string).

(** [p] is the last member before [j]. *)
Definition precedes ring p j : Prop := p ∈ ring ∧ ∀ c, c ∈ ring → cw (hashString p) (hashString j) ≤ cw (hashString c) (hashString j).

(** [j] is a new member. *)
Definition newcomer ring j : Prop := j ∉ ring ∧ j ≠ "X" ∧ ∀ c, c ∈ ring → hashString c ≠ hashString j.

Lemma newcomer_valid ring j : valid_ring ring → newcomer ring j → valid_ring (j :: ring).
Proof.
  intros [Hnd Hinj HX] (Hj & HjX & Hh). split.
  - by constructor.
  - intros a b [->|Ha]%elem_of_cons [->|Hb]%elem_of_cons Hab; [done|by destruct (Hh b)|by destruct (Hh a)|by apply Hinj].
  - apply not_elem_of_cons. split; [congruence|done].
Qed.

(** Positions on the ring, seen from [o]. *)
Lemma pos_eq o x y : cw (hashString o) (hashString x) = cw (hashString o) (hashString y) → hashString x = hashString y.
Proof. apply cw_inj; apply hashString_in_ring. Qed.

Lemma arc_pos o x y : arc (hashString x) (hashString y) =
  let X := cw (hashString o) (hashString x) in let Y := cw (hashString o) (hashString y) in
  if decide (X < Y) then Y - X else Y - X + hashMod.
Proof. apply arc_from; apply hashString_in_ring. Qed.

Lemma precedes_between ring p s j : newcomer ring j → precedes ring p j → next ring p s →
  between (hashString p) (hashString j) (hashString s) true = true.
Proof.
  intros (Hj & _ & Hh) [Hp Hlast] [Hs _]. apply between_incl; [apply hashString_in_ring..|]. left. split; [by apply Hh|].
  specialize (Hlast s Hs). rewrite (arc_pos p). simpl. rewrite (cw_from (hashString p) (hashString s)) in Hlast by apply hashString_in_ring.
  rewrite cw_self. pose proof (cw_range (hashString p) (hashString j)). pose proof (cw_range (hashString p) (hashString s)).
  repeat case_decide; lia.
Qed.

(** The links of the larger ring. *)
Lemma insert_links ring p s j : newcomer ring j → next ring p s → p ∈ ring → between (hashString p) (hashString j) (hashString s) true = true →
  next (j :: ring) p j ∧ next (j :: ring) j s ∧ ∀ x y, x ∈ ring → hashString x ≠ hashString p → next ring x y → next (j :: ring) x y.
Proof.
  intros (Hj & _ & Hh) [Hs Hps] Hp Hbt. assert (HM : 0 < hashMod) by apply hashMod_pos.
  assert (Hpj : 0 < cw (hashString p) (hashString j) < arc (hashString p) (hashString s)).
  { apply between_arc in Hbt as [?|[_ Heq]]; [done| |apply hashString_in_ring..]. by destruct (Hh s). }
  rewrite (arc_pos p), cw_self in Hpj. simpl in Hpj.
  assert (Hc : ∀ c, c ∈ ring → cw (hashString p) (hashString c) = 0 ∨ cw (hashString p) (hashString j) < cw (hashString p) (hashString c)).
  { intros c Hc. specialize (Hps c Hc). rewrite !(arc_pos p), cw_self in Hps. simpl in Hps. pose proof (cw_range (hashString p) (hashString c)).
    pose proof (cw_range (hashString p) (hashString s)). repeat case_decide; lia. }
  pose proof (cw_range (hashString p) (hashString j)) as Hjr.
  split; [|split].
  - split; [by left|]. intros c [->|Hcr]%elem_of_cons; [done|]. specialize (Hc c Hcr). rewrite !(arc_pos p), cw_self. simpl. repeat case_decide; lia.
  - split; [by right|]. intros c Hcr. pose proof (cw_range (hashString p) (hashString s)). rewrite !(arc_pos p). simpl. apply elem_of_cons in Hcr as [->|Hcr].
    + repeat case_decide; lia.
    + specialize (Hps c Hcr). rewrite !(arc_pos p), cw_self in Hps. simpl in Hps. pose proof (cw_range (hashString p) (hashString c)). specialize (Hc c Hcr).
      repeat case_decide; lia.
  - intros x y Hx Hne [Hy Hxy]. split; [by right|]. intros c [->|Hcr]%elem_of_cons; [|by apply Hxy].
    specialize (Hxy p Hp). rewrite !(arc_pos p) in *. simpl in *. rewrite cw_self in Hxy. destruct (Hc x Hx) as [H0|Hx'].
    + destruct Hne. symmetry. apply (pos_eq p). by rewrite cw_self.
    + pose proof (cw_range (hashString p) (hashString x)). pose proof (cw_range (hashString p) (hashString y)). repeat case_decide; lia.
Qed.

(** The member after [j] does not find it between itself and its own successor. *)
Lemma succ_not_between ring p s s' j : valid_ring ring → newcomer ring j → precedes ring p j → next ring p s → p ≠ s → next ring s s' →
  between (hashString s) (hashString j) (hashString s') true = false.
Proof.
  intros Hv Hnew Hpre Hps Hne [Hs' Hss']. pose proof (precedes_between ring p s j Hnew Hpre Hps) as Hbt. destruct Hnew as (Hj & _ & Hh). destruct Hpre as [Hp _]. pose proof (proj1 Hps) as Hs.
  destruct (between (hashString s) (hashString j) (hashString s') true) eqn:Hb; [|done]. exfalso. assert (HM : 0 < hashMod) by apply hashMod_pos.
  apply between_arc in Hb as [Hb|[_ Heq]]; [|by destruct (Hh s')|apply hashString_in_ring..].
  apply between_arc in Hbt as [Hbt|[_ Heq]]; [|by destruct (Hh s)|apply hashString_in_ring..].
  assert (Hpos : cw (hashString p) (hashString s) ≠ 0).
  { intros H0. apply Hne, (vr_inj ring Hv); [done..|]. apply (pos_eq p). by rewrite cw_self, H0. }
  specialize (Hss' p Hp). rewrite !(arc_pos p), ?cw_self in *. simpl in *. rewrite (cw_from (hashString p) (hashString s) (hashString j)) in Hb by apply hashString_in_ring.
  pose proof (cw_range (hashString p) (hashString s)). pose proof (cw_range (hashString p) (hashString s')). pose proof (cw_range (hashString p) (hashString j)).
  repeat case_decide; lia.
Qed.

(** Every member has one predecessor and one successor. *)
Lemma next_unique_l ring a b c : valid_ring ring → a ∈ ring → b ∈ ring → next ring a c → next ring b c → a = b.
Proof.
  intros Hv Ha Hb [Hc Hac] [_ Hbc]. apply (vr_inj ring Hv); [done..|]. apply (pos_eq a). rewrite cw_self.
  specialize (Hac b Hb). specialize (Hbc a Ha). rewrite !(arc_pos a), ?cw_self in *. simpl in *.
  pose proof (cw_range (hashString a) (hashString b)). pose proof (cw_range (hashString a) (hashString c)).
  assert (HM : 0 < hashMod) by apply hashMod_pos. repeat case_decide; lia.
Qed.

Lemma next_unique_r ring a b c : valid_ring ring → next ring a b → next ring a c → b = c.
Proof.
  intros Hv [Hb Hab] [Hc Hac]. apply (vr_inj ring Hv); [done..|]. apply (pos_eq a). specialize (Hab c Hc). specialize (Hac b Hb).
  rewrite !(arc_pos a), !cw_self in *. simpl in *. pose proof (cw_range (hashString a) (hashString b)). pose proof (cw_range (hashString a) (hashString c)).
  repeat case_decide; lia.
Qed.

End Insert.

(** ** The steps of a join *)

(** [verifySuccs] changes only the successors after the first. *)
Lemma verify_loop_tail resp todo k n a l : Successors n = a :: l → (1 ≤ k)%nat → (k + todo ≤ S (length l))%nat → (length l ≤ length (NodeSuccessors resp))%nat →
  ∃ l', verify_loop resp k todo n = Ret (set_Successors (a :: l') n) ∧ length l' = length l.
Proof.
  revert k n l. induction todo as [|todo IH]; intros k n l Hl Hk Hlen Hresp; cbn [verify_loop].
  { exists l. split; [|done]. rewrite <-Hl. by destruct n. }
  destruct (slice_get_ok (NodeSuccessors resp) (Z.of_nat k - 1)) as (s & -> & _); [unfold go_len; lia|]. cbn [mbind outcome_bind].
  case_decide; [exists l; split; [|done]; rewrite <-Hl; by destruct n|].
  destruct (slice_get_ok (Successors n) (Z.of_nat k)) as (c & -> & _); [unfold go_len; rewrite Hl; simpl; lia|]. cbn [mbind outcome_bind].
  assert (Hstep : ∀ (Q : Prop) `{Decision Q} n1 l1, Successors n1 = a :: l1 → length l1 = length l → ∃ l2,
    (if decide Q then l ← slice_set (Successors n1) (Z.of_nat k) s; Ret (set_Successors l n1) else Ret n1) = Ret (set_Successors (a :: l2) n1) ∧ length l2 = length l).
  { intros Q ? n1 l1 H1 L1. case_decide; [|exists l1; split; [|done]; rewrite <-H1; by destruct n1].
    rewrite slice_set_ok by (unfold go_len; rewrite H1; simpl; lia). cbn [mbind outcome_bind]. destruct k as [|k]; [lia|]. rewrite Nat2Z.id, H1.
    exists (<[k := s]> l1). simpl. by rewrite length_insert. }
  destruct (Hstep (c = "X") _ n l Hl eq_refl) as (l1 & -> & L1). cbn [mbind outcome_bind].
  destruct (slice_get_ok (Successors (set_Successors (a :: l1) n)) (Z.of_nat k)) as (c' & -> & _); [unfold go_len; simpl; lia|]. cbn [mbind outcome_bind].
  destruct (Hstep (s ≠ c') _ (set_Successors (a :: l1) n) l1 eq_refl L1) as (l2 & -> & L2). cbn [mbind outcome_bind].
  destruct (IH (S k) (set_Successors (a :: l2) (set_Successors (a :: l1) n)) l2 eq_refl) as (l3 & -> & L3); [lia|lia|lia|].
  exists l3. split; [done|lia].
Qed.

Section Steps.
Context {FS : Type} `{FileSystem FS} `{Sha1}.
Notation W := (gmap string (Machine FS)).

(** The member before [j] makes it its successor and names the old one. *)
Lemma join_at_pred (w : W) p s j ss mp mj : w !! p = Some mp → w !! j = Some mj →
  NodeAddress (node (m_chord mj)) = j → Identifier (node (m_chord mj)) = hashString j →
  Identifier (node (m_chord mp)) = hashString p → Successors (node (m_chord mp)) = s :: ss → s ≠ "X" →
  between (hashString p) (hashString j) (hashString s) true = true →
  run_at j (CallJoin p) w = Ret ((), [TCallNotify s], <[p := upd_node (set_Successors (j :: ss) (node (m_chord mp))) mp]> w).
Proof.
  intros Hp Hj Haj Hij Hip Hss HsX Hbt. unfold CallJoin, read_node. erewrite run_read_only; [|done|reflexivity]. rewrite Haj, Hij.
  erewrite run_call.
  2:{ eapply (call_node p _ _ AJoin); [reflexivity|done|]. unfold Join, find. rewrite Hss. cbn [find_loop jr_Identifier].
      rewrite decide_False by done. rewrite Hip, Hbt. cbn [mbind outcome_bind jr_NodeAddress]. unfold set_succ0. rewrite Hss. reflexivity. }
  reflexivity.
Qed.

(** The successor takes [j] for its predecessor, and [j] has its successor. *)
Lemma notify_succ (w : W) p s j jj js ms mj : w !! s = Some ms → w !! j = Some mj → s ≠ j →
  NodeAddress (node (m_chord mj)) = j → Identifier (node (m_chord mj)) = hashString j → Successors (node (m_chord mj)) = jj :: js →
  Identifier (node (m_chord ms)) = hashString s → Predecessor (node (m_chord ms)) = p → p ≠ "X" → p ≠ j →
  between (hashString p) (hashString j) (hashString s) true = true →
  run_at j (CallNotify s) w =
  Ret ((), [], <[j := upd_node (set_Successors (s :: js) (set_JoinPending false (node (m_chord mj)))) mj]>
               (<[s := upd_node (set_Predecessor j (node (m_chord ms))) ms]> w)).
Proof.
  intros Hs Hj Hsj Haj Hij Hjs His Hps HpX Hpj Hbt. unfold CallNotify, read_node. erewrite run_read_only; [|done|reflexivity]. rewrite Haj, Hij.
  erewrite run_call.
  2:{ eapply (call_node s _ _ ANotify); [reflexivity|done|]. unfold Notify. rewrite Hps. cbn [nr_NodeAddress nr_Identifier].
      rewrite decide_False by naive_solver. rewrite His, Hbt. reflexivity. }
  cbn iota. erewrite run_node; [|by rewrite lookup_insert_ne|].
  2:{ cbn [nr_Success]. unfold set_succ0. cbn [Successors set_JoinPending]. rewrite Hjs. reflexivity. }
  reflexivity.
Qed.

(** The member before [j] stabilizes and becomes the predecessor of [j]. *)
Lemma stabilize_pred (w : W) p j ss mp mj : w !! p = Some mp → w !! j = Some mj → p ≠ j → j ≠ "X" →
  NodeAddress (node (m_chord mp)) = p → Successors (node (m_chord mp)) = j :: ss →
  Predecessor (node (m_chord mj)) = "X" → (length ss ≤ length (Successors (node (m_chord mj))))%nat →
  ∃ l, length l = length ss ∧
    run_at p CallStabilize w =
    Ret ((), [], <[p := upd_node (set_Successors (j :: l) (node (m_chord mp))) mp]>
                 (<[j := upd_node (set_Predecessor p (node (m_chord mj))) mj]> w)).
Proof.
  intros Hp Hj Hpj HjX Hap Hss Hpre Hlen. set (resp := mkStabilizeResponse true "" (Successors (node (m_chord mj)))).
  destruct (verify_loop_tail resp (length ss) 1 (node (m_chord mp)) j ss Hss) as (l & Hv & Hl); [lia|lia|done|].
  exists l. split; [done|]. unfold CallStabilize. erewrite run_node; [|done|].
  2:{ rewrite Hss. change (slice_get (j :: ss) 0) with (Ret j). cbn [mbind outcome_bind]. rewrite decide_False by done.
      rewrite decide_False by congruence. reflexivity. }
  unfold upd_node at 1. rewrite machine_eta, insert_id by done.
  erewrite run_call.
  2:{ eapply (call_node j _ _ AStabilize); [reflexivity|done|]. unfold Stabilize. rewrite Hpre, decide_True by done. rewrite Hap. reflexivity. }
  cbn iota. erewrite run_node; [|by rewrite lookup_insert_ne|].
  2:{ cbn [YouGood negb]. unfold verifySuccs. rewrite Hss. cbn [length]. replace (S (length ss) - 1)%nat with (length ss) by lia.
      change (verify_loop _ 1 (length ss) _) with (verify_loop resp 1 (length ss) (node (m_chord mp))). rewrite Hv. reflexivity. }
  reflexivity.
Qed.

(** The member after [j] answers that it is the successor, and names itself its predecessor. *)
Lemma join_at_succ (w : W) p s s' j ss ms mj : w !! s = Some ms → w !! j = Some mj →
  NodeAddress (node (m_chord mj)) = j → Identifier (node (m_chord mj)) = hashString j →
  Identifier (node (m_chord ms)) = hashString s → NodeAddress (node (m_chord ms)) = s → Successors (node (m_chord ms)) = s' :: ss → s' ≠ "X" →
  Predecessor (node (m_chord ms)) = p →
  between (hashString s) (hashString j) (hashString s') true = false → between (hashString p) (hashString j) (hashString s) true = true →
  run_at j (CallJoin s) w = Ret ((), [TCallNotify s], <[s := upd_node (set_Predecessor s (node (m_chord ms))) ms]> w).
Proof.
  intros Hs Hj Haj Hij His Has Hss HsX Hps Hno Hbt. unfold CallJoin, read_node. erewrite run_read_only; [|done|reflexivity]. rewrite Haj, Hij.
  erewrite run_call.
  2:{ eapply (call_node s _ _ AJoin); [reflexivity|done|]. unfold Join, find. rewrite Hss. cbn [find_loop jr_Identifier].
      rewrite decide_False by done. rewrite His, Hno, Hps, Hbt, Has. reflexivity. }
  reflexivity.
Qed.

(** The member before [j] learns of it from its old successor. *)
Lemma stabilize_redirect (w : W) p s j ss mp ms : w !! p = Some mp → w !! s = Some ms → p ≠ s → s ≠ "X" → p ≠ j → j ≠ "X" →
  NodeAddress (node (m_chord mp)) = p → Successors (node (m_chord mp)) = s :: ss → Predecessor (node (m_chord ms)) = j →
  run_at p CallStabilize w = Ret ((), [TCallNotify j], w).
Proof.
  intros Hp Hs Hps HsX Hpj HjX Hap Hss Hpre. unfold CallStabilize. erewrite run_node; [|done|].
  2:{ rewrite Hss. change (slice_get (s :: ss) 0) with (Ret s). cbn [mbind outcome_bind]. rewrite decide_False by done.
      rewrite decide_False by congruence. reflexivity. }
  unfold upd_node at 1. rewrite machine_eta, insert_id by done.
  erewrite run_call.
  2:{ eapply (call_node s _ _ AStabilize); [reflexivity|done|]. unfold Stabilize. rewrite Hpre, decide_False by done. rewrite decide_False by (cbn [sr_NodeAddress]; congruence). reflexivity. }
  cbn iota. unfold upd_node. rewrite machine_eta, insert_id by done. erewrite run_read_only; [|done|].
  2:{ cbn [YouGood negb sr_NewPredAddress]. rewrite decide_True by congruence. reflexivity. }
  reflexivity.
Qed.

(** A node without a predecessor takes the one that notifies it. *)
Lemma notify_fresh (w : W) p j s ss mp mj : w !! p = Some mp → w !! j = Some mj → p ≠ j →
  NodeAddress (node (m_chord mp)) = p → Successors (node (m_chord mp)) = s :: ss → Predecessor (node (m_chord mj)) = "X" →
  run_at p (CallNotify j) w =
  Ret ((), [], <[p := upd_node (set_Successors (j :: ss) (set_JoinPending false (node (m_chord mp)))) mp]>
               (<[j := upd_node (set_Predecessor p (node (m_chord mj))) mj]> w)).
Proof.
  intros Hp Hj Hpj Hap Hss Hpre. unfold CallNotify, read_node. erewrite run_read_only; [|done|reflexivity].
  erewrite run_call.
  2:{ eapply (call_node j _ _ ANotify); [reflexivity|done|]. unfold Notify. rewrite decide_True by (by left). cbn [nr_NodeAddress]. rewrite Hap. reflexivity. }
  cbn iota. erewrite run_node; [|by rewrite lookup_insert_ne|].
  2:{ cbn [nr_Success]. unfold set_succ0. cbn [Successors set_JoinPending]. rewrite Hss. reflexivity. }
  reflexivity.
Qed.

(** A member that passes the request along changes nothing. *)
Lemma join_passed (w : W) c j mc mj resp : w !! c = Some mc → w !! j = Some mj → Identifier (node (m_chord mj)) = hashString j →
  find (node (m_chord mc)) (hashString j) Response0 = Ret (PASSALONG, resp) →
  run_at j (CallJoin c) w = Ret ((), [TCallJoin (r_NodeAddress resp)], w).
Proof.
  intros Hc Hj Hij Hf. unfold CallJoin, read_node. erewrite run_read_only; [|done|reflexivity]. rewrite Hij.
  erewrite run_call.
  2:{ eapply (call_node c _ _ AJoin); [reflexivity|done|]. unfold Join. cbn [jr_Identifier]. rewrite Hf. reflexivity. }
  unfold upd_node. rewrite machine_eta, insert_id by done. reflexivity.
Qed.

(** ** One join *)

(** The node at [x] has the identifier of its address, [r + 1] successor slots, and the
    predecessor and the first successor of the ring. *)
Record linked (r : nat) (ring : list string) (x : string) (n : NodeInfo) : Prop := {
  li_id : Identifier n = hashString x;
  li_addr : NodeAddress n = x;
  li_pred : Predecessor n ∈ ring ∧ next ring (Predecessor n) x;
  li_succ : ∃ s ss, Successors n = s :: ss ∧ next ring x s ∧ length ss = r
}.

Definition ring_ok (r : nat) (w : W) (ring : list string) : Prop :=
  ∀ x, x ∈ ring → ∃ m, w !! x = Some m ∧ linked r ring x (node (m_chord m)).

(** A node after its start, before it joins. *)
Definition unjoined (r : nat) (j : string) (n : NodeInfo) : Prop :=
  Identifier n = hashString j ∧ NodeAddress n = j ∧ Predecessor n = "X" ∧ Successors n = replicate (S r) j.

(** Runs goroutines of the node at [a] one after the other, with the ones they start;
    [None] if some are left after [fuel] of them. *)
Fixpoint finish_tasks (fuel : nat) (a : string) (ts : list ChordTask) (w : W) : outcome (option W) :=
  match ts with
  | [] => Ret (Some w)
  | t :: ts' =>
      match fuel with
      | O => Ret None
      | S fuel' => '(_, ts'', w') ← run_at a (task t) w; finish_tasks fuel' a (ts' ++ ts'') w'
      end
  end.

(** [j] joins through the first member of [route], with all the goroutines this starts,
    and [p] stabilizes. *)
Definition join_through (route : list string) (p j : string) (w : W) : outcome (option W) :=
  match route with
  | [] => Ret None
  | c :: _ =>
      o ← finish_tasks (S (length route)) j [TCallJoin c] w;
      match o with
      | None => Ret None
      | Some w1 => '(_, ts, w2) ← run_at p CallStabilize w1; finish_tasks 1 p ts w2
      end
  end.

(** Every member of [route] passes a request for [j] along to the next one. *)
Fixpoint passes (w : W) (j : string) (route : list string) : Prop :=
  match route with
  | c :: ((c' :: _) as rest) =>
      (∃ m resp, w !! c = Some m ∧ find (node (m_chord m)) (hashString j) Response0 = Ret (PASSALONG, resp) ∧ r_NodeAddress resp = c') ∧ passes w j rest
  | _ => True
  end.

Lemma route_run (w : W) j mj c route last : w !! j = Some mj → Identifier (node (m_chord mj)) = hashString j → passes w j (c :: route) → list.last (c :: route) = Some last →
  ∀ n, finish_tasks (length (c :: route) + n) j [TCallJoin c] w = finish_tasks (S n) j [TCallJoin last] w.
Proof.
  intros Hj Hij. revert c. induction route as [|c' route IH]; intros c Hpass Hlast n; [by injection Hlast as ->|].
  destruct Hpass as [(m & resp & Hm & Hf & Hc') Hpass]. rewrite last_cons_cons in Hlast.
  change (length (c :: c' :: route) + n)%nat with (S (length (c' :: route) + n)). cbn [finish_tasks task]. rewrite (join_passed w c j m mj resp) by done.
  cbn [mbind outcome_bind app]. rewrite Hc'. by apply IH.
Qed.

(** What a join does to the machines. *)
Definition joined (r : nat) (ring : list string) (p s j : string) (mj : Machine FS) (w w' : W) : Prop :=
  (∀ x, x ∉ j :: ring → w' !! x = w !! x) ∧
  (∃ m' js, w' !! j = Some m' ∧ node (m_chord m') = set_Predecessor p (set_Successors (s :: js) (set_JoinPending false (node (m_chord mj)))) ∧ length js = r) ∧
  (∀ x m, x ∈ ring → w !! x = Some m → ∃ m', w' !! x = Some m' ∧
     Identifier (node (m_chord m')) = Identifier (node (m_chord m)) ∧ NodeAddress (node (m_chord m')) = NodeAddress (node (m_chord m)) ∧
     Predecessor (node (m_chord m')) = (if decide (x = s) then j else Predecessor (node (m_chord m))) ∧
     ∃ l, length l = r ∧ Successors (node (m_chord m')) = if decide (x = p) then j :: l else Successors (node (m_chord m))).

Lemma members_not ring j : valid_ring ring → newcomer ring j → ∀ x, x ∈ ring → x ≠ "X" ∧ x ≠ j.
Proof. intros Hv (Hj & _) x Hx. split; intros ->; [by apply (vr_X ring Hv)|done]. Qed.

(** The request reaches the member before [j]. *)
Lemma join_pred_run r ring p s j (w : W) mj : valid_ring ring → newcomer ring j → p ∈ ring → next ring p s → ring_ok r w ring →
  between (hashString p) (hashString j) (hashString s) true = true → w !! j = Some mj → unjoined r j (node (m_chord mj)) →
  ∃ w1 w2, finish_tasks 2 j [TCallJoin p] w = Ret (Some w1) ∧ run_at p CallStabilize w1 = Ret ((), [], w2) ∧ joined r ring p s j mj w w2.
Proof.
  intros Hv Hnew Hp Hnext Hok Hbt Hmj (Hij & Haj & Hpj & Hsj). pose proof (proj1 Hnext) as Hs. pose proof Hnew as (Hj & HjX & Hh).
  destruct (Hok p Hp) as (mp & Hmp & [Hip Hap _ (s' & ss & Hss & Hs' & Hlen)]).
  assert (s' = s) as -> by by eapply next_unique_r.
  pose proof (members_not ring j Hv Hnew) as HX. destruct (HX p Hp) as [HpX Hpj']. destruct (HX s Hs) as [HsX Hsj'].
  cbn [finish_tasks task]. rewrite (join_at_pred w p s j ss mp mj) by done. cbn [mbind outcome_bind app finish_tasks task].
  set (mp1 := upd_node _ mp). set (w1 := <[p := mp1]> w).
  assert (∃ ms, w1 !! s = Some ms ∧ Identifier (node (m_chord ms)) = hashString s ∧ Predecessor (node (m_chord ms)) = p ∧ (s = p → ms = mp1) ∧ (s ≠ p → w !! s = Some ms))
    as (ms & Hms & His & Hps & Heq & Hneq).
  { destruct (Hok s Hs) as (ms & Hms & [His _ [Hq Hqs] _]). assert (Predecessor (node (m_chord ms)) = p) as Hps by by eapply next_unique_l.
    destruct (decide (s = p)) as [->|Hne]; [|exists ms; unfold w1; by rewrite lookup_insert_ne].
    exists mp1. unfold w1. rewrite lookup_insert_eq. assert (ms = mp) as -> by congruence. split; [done|]. split; [exact His|]. split; [exact Hps|]. done. }
  rewrite (notify_succ w1 p s j j (replicate r j) ms mj) by (done || unfold w1; by rewrite lookup_insert_ne).
  cbn [mbind outcome_bind app]. set (mj1 := upd_node _ mj). set (ms1 := upd_node _ ms). set (w2 := <[j := mj1]> _).
  assert (∃ mp2, w2 !! p = Some mp2 ∧ Identifier (node (m_chord mp2)) = hashString p ∧ NodeAddress (node (m_chord mp2)) = p ∧
    Successors (node (m_chord mp2)) = j :: ss ∧ Predecessor (node (m_chord mp2)) = if decide (p = s) then j else Predecessor (node (m_chord mp)))
    as (mp2 & Hmp2 & Hip2 & Hap2 & Hss2 & Hpp2).
  { unfold w2. rewrite lookup_insert_ne by done. destruct (decide (p = s)) as [<-|Hne].
    - rewrite lookup_insert_eq. exists ms1. split; [done|]. unfold ms1. rewrite Heq by done. done.
    - rewrite lookup_insert_ne by done. unfold w1. rewrite lookup_insert_eq. exists mp1. done. }
  destruct (stabilize_pred w2 p j ss mp2 mj1) as (l & Hl & Hst); [done|apply lookup_insert_eq|done|done|done|done|done|simpl; rewrite length_replicate; lia|].
  eexists _, _. split; [done|]. split; [exact Hst|]. split; [|split].
  - intros x [Hxj Hxr]%not_elem_of_cons. unfold w2, w1. by rewrite !lookup_insert_ne by congruence.
  - exists (upd_node (set_Predecessor p (node (m_chord mj1))) mj1), (replicate r j). rewrite lookup_insert_ne, lookup_insert_eq by done.
    split; [done|]. split; [done|]. apply length_replicate.
  - intros x m Hx Hm. destruct (HX x Hx) as [_ Hxj]. destruct (decide (x = p)) as [->|Hxp].
    + assert (m = mp) as -> by congruence. rewrite lookup_insert_eq. eexists. split; [done|]. cbn. split; [by rewrite Hip|]. split; [by rewrite Hap|].
      split; [done|]. exists l. split; [lia|done].
    + rewrite !lookup_insert_ne by done. unfold w2. rewrite lookup_insert_ne by done. destruct (decide (x = s)) as [->|Hxs].
      * rewrite lookup_insert_eq. rewrite Hneq in Hm by done. injection Hm as <-. exists ms1. do 4 (split; [done|]). by exists l; split; [lia|].
      * unfold w1. rewrite !lookup_insert_ne by done. exists m. do 4 (split; [done|]). by exists l; split; [lia|].
Qed.

(** The request reaches the member after [j]. *)
Lemma join_succ_run r ring p s j (w : W) mj : valid_ring ring → newcomer ring j → precedes ring p j → next ring p s → p ≠ s → ring_ok r w ring →
  w !! j = Some mj → unjoined r j (node (m_chord mj)) →
  ∃ w1 w2, finish_tasks 2 j [TCallJoin s] w = Ret (Some w1) ∧ run_at p CallStabilize w1 = Ret ((), [TCallNotify j], w1) ∧
    finish_tasks 1 p [TCallNotify j] w1 = Ret (Some w2) ∧ joined r ring p s j mj w w2.
Proof.
  intros Hv Hnew Hpre Hnext Hne Hok Hmj (Hij & Haj & Hpj & Hsj). pose proof (proj1 Hnext) as Hs. pose proof (proj1 Hpre) as Hp. pose proof Hnew as (Hj & HjX & Hh).
  pose proof (precedes_between ring p s j Hnew Hpre Hnext) as Hbt.
  destruct (Hok p Hp) as (mp & Hmp & [Hip Hap _ (sp & ssp & Hssp & Hsp & Hlenp)]). assert (sp = s) as -> by by eapply next_unique_r.
  destruct (Hok s Hs) as (ms & Hms & [His Has [Hq Hqs] (s' & ss & Hss & Hs' & Hlen)]). assert (Predecessor (node (m_chord ms)) = p) as Hps by by eapply next_unique_l.
  pose proof (succ_not_between ring p s s' j Hv Hnew Hpre Hnext Hne Hs') as Hno.
  pose proof (members_not ring j Hv Hnew) as HX. destruct (HX p Hp) as [HpX Hpj']. destruct (HX s Hs) as [HsX Hsj']. destruct (HX s' (proj1 Hs')) as [HsX' _].
  cbn [finish_tasks task]. rewrite (join_at_succ w p s s' j ss ms mj) by done. cbn [mbind outcome_bind app finish_tasks task].
  set (ms1 := upd_node _ ms). set (w1 := <[s := ms1]> w).
  rewrite (notify_succ w1 s s j j (replicate r j) ms1 mj); try done;
    [|unfold w1; apply lookup_insert_eq|unfold w1; by rewrite lookup_insert_ne|apply between_full].
  cbn [mbind outcome_bind app]. set (mj1 := upd_node _ mj). set (ms2 := upd_node _ ms1). set (w2 := <[j := mj1]> _).
  assert (Hmp2 : w2 !! p = Some mp) by (unfold w2, w1; by rewrite !lookup_insert_ne by done).
  assert (Hms2 : w2 !! s = Some ms2) by (unfold w2; rewrite lookup_insert_ne by done; apply lookup_insert_eq).
  assert (Hmj2 : w2 !! j = Some mj1) by apply lookup_insert_eq.
  eexists w2, _. split; [done|]. split; [by apply (stabilize_redirect w2 p s j ssp mp ms2)|].
  rewrite (notify_fresh w2 p j s ssp mp mj1) by done. cbn [mbind outcome_bind app]. split; [done|]. split; [|split].
  - intros x [Hxj Hxr]%not_elem_of_cons. unfold w2, w1. by rewrite !lookup_insert_ne by congruence.
  - exists (upd_node (set_Predecessor p (node (m_chord mj1))) mj1), (replicate r j). rewrite lookup_insert_ne, lookup_insert_eq by done.
    split; [done|]. split; [done|]. apply length_replicate.
  - intros x m Hx Hm. destruct (HX x Hx) as [_ Hxj]. destruct (decide (x = p)) as [->|Hxp].
    + assert (m = mp) as -> by congruence. rewrite lookup_insert_eq. eexists. split; [done|]. cbn. split; [done|]. split; [done|].
      split; [by rewrite decide_False|]. by exists ssp.
    + rewrite !lookup_insert_ne by done. destruct (decide (x = s)) as [->|Hxs].
      * rewrite Hms2. assert (m = ms) as -> by congruence. exists ms2. do 4 (split; [done|]). by exists ssp.
      * unfold w2, w1. rewrite !lookup_insert_ne by done. exists m. do 4 (split; [done|]). by exists ssp.
Qed.

(** The member the request ends at is the one before or the one after [j]. *)
Lemma join_through_run r ring p s j route c last (w : W) mj : valid_ring ring → newcomer ring j → precedes ring p j → next ring p s → ring_ok r w ring →
  passes w j (c :: route) → list.last (c :: route) = Some last → last = p ∨ last = s → w !! j = Some mj → unjoined r j (node (m_chord mj)) →
  ∃ w', join_through (c :: route) p j w = Ret (Some w') ∧ joined r ring p s j mj w w'.
Proof.
  intros Hv Hnew Hpre Hnext Hok Hpass Hlast Hend Hmj Hun. pose proof (precedes_between ring p s j Hnew Hpre Hnext) as Hbt. pose proof (proj1 Hpre) as Hp.
  unfold join_through. replace (S (length (c :: route))) with (length (c :: route) + 1)%nat by (cbn [length]; lia). rewrite (route_run w j mj c route last) by (done || apply Hun).
  destruct (decide (last = p)) as [->|Hlp].
  - destruct (join_pred_run r ring p s j w mj Hv Hnew Hp Hnext Hok Hbt Hmj Hun) as (w1 & w2 & -> & Hst & Hj). cbn [mbind outcome_bind]. rewrite Hst.
    cbn [mbind outcome_bind finish_tasks]. by exists w2.
  - destruct Hend as [->| ->]; [done|]. destruct (join_succ_run r ring p s j w mj Hv Hnew Hpre Hnext) as (w1 & w2 & -> & Hst & Hfin & Hj); try done.
    cbn [mbind outcome_bind]. rewrite Hst. cbn [mbind outcome_bind]. rewrite Hfin. by exists w2.
Qed.

Lemma join_one r ring p j route c last (w : W) mj : valid_ring ring → newcomer ring j → precedes ring p j → ring_ok r w ring →
  passes w j (c :: route) → list.last (c :: route) = Some last → last = p ∨ next ring p last → w !! j = Some mj → unjoined r j (node (m_chord mj)) →
  ∃ w', join_through (c :: route) p j w = Ret (Some w') ∧ ring_ok r w' (j :: ring) ∧ (∀ x, x ∉ j :: ring → w' !! x = w !! x).
Proof.
  intros Hv Hnew Hpre Hok Hpass Hlast Hend Hmj Hun. pose proof (proj1 Hpre) as Hp. destruct (Hok p Hp) as (mp & Hmp & [_ _ _ (s & ss & _ & Hnext & _)]).
  pose proof (precedes_between ring p s j Hnew Hpre Hnext) as Hbt. destruct (insert_links ring p s j Hnew Hnext Hp Hbt) as (Hpj & Hjs & Hold).
  destruct (join_through_run r ring p s j route c last w mj Hv Hnew Hpre Hnext Hok Hpass Hlast) as (w' & Hr & Hout & (mj' & js & Hmj' & Hnj & Hljs) & Hin);
    [destruct Hend as [->|Hend]; [by left|right; by eapply next_unique_r]|done|done|].
  exists w'. split; [done|]. split; [|done]. destruct Hun as (Hij & Haj & _ & _).
  assert (Hhash : ∀ x, x ∈ ring → x ≠ p → hashString x ≠ hashString p) by (intros x Hx Hne Heq; by apply Hne, (vr_inj ring Hv)).
  intros x [->|Hx]%elem_of_cons.
  { exists mj'. split; [done|]. rewrite Hnj. split; [done|done|by split; [right|]|]. by exists s, js. }
  destruct (Hok x Hx) as (m & Hm & [Hid Had [Hq Hqx] (s' & ss' & Hss' & Hs' & Hlen')]). destruct (Hin x m Hx Hm) as (m' & Hm' & Hid' & Had' & Hpr' & l & Hl & Hsu').
  exists m'. split; [done|]. split; [by rewrite Hid'|by rewrite Had'| |].
  - rewrite Hpr'. destruct (decide (x = s)) as [Hxs|Hxs]; [rewrite Hxs; split; [by left|done]|]. split; [by right|]. apply Hold; [done| |done].
    apply Hhash; [done|]. intros Hqp. rewrite Hqp in Hqx. apply Hxs. by eapply next_unique_r.
  - rewrite Hsu'. destruct (decide (x = p)) as [Hxp|Hxp]; [rewrite Hxp; by exists j, l|]. exists s', ss'. split; [done|]. split; [|done]. apply Hold; [done|by apply Hhash|done].
Qed.

(** ** Any number of joins *)

(** A join: the new node, the members its request is passed along, and the member before
    it. *)
Notation join := (string * list string * string)%type.

Fixpoint join_all (js : list join) (w : W) : outcome (option W) :=
  match js with
  | [] => Ret (Some w)
  | (j, route, p) :: js' => o ← join_through route p j w; match o with None => Ret None | Some w' => join_all js' w' end
  end.

(** Each new node finds a member that passes its request along to a neighbour of its
    place, at the moment it joins. *)
Fixpoint joiners (ring : list string) (js : list join) (w : W) : Prop :=
  match js with
  | [] => True
  | (j, route, p) :: js' =>
      newcomer ring j ∧ precedes ring p j ∧ passes w j route ∧ (∃ last, list.last route = Some last ∧ (last = p ∨ next ring p last)) ∧
      ∀ w', join_through route p j w = Ret (Some w') → joiners (j :: ring) js' w'
  end.

Definition new_nodes (js : list join) : list string := (λ x, x.1.1) <$> js.

(** The new nodes are distinct and start outside the ring. *)
Definition waiting (r : nat) (ring : list string) (js : list join) (w : W) : Prop :=
  NoDup (new_nodes js) ∧ ∀ j, j ∈ new_nodes js → j ∉ ring ∧ ∃ m, w !! j = Some m ∧ unjoined r j (node (m_chord m)).

Lemma joins_extend r ring js (w : W) : valid_ring ring → ring_ok r w ring → joiners ring js w → waiting r ring js w →
  ∃ w', join_all js w = Ret (Some w') ∧ valid_ring (reverse (new_nodes js) ++ ring) ∧ ring_ok r w' (reverse (new_nodes js) ++ ring).
Proof.
  revert ring w. induction js as [|[[j route] p] js IH]; intros ring w Hv Hok Hjs [Hnd Hun]; [by exists w|]. destruct Hjs as (Hnew & Hpre & Hpass & (last & Hlast & Hend) & Hjs).
  destruct route as [|c route]; [done|]. destruct (Hun j) as (_ & mj & Hmj & Huj); [by left|].
  destruct (join_one r ring p j route c last w mj Hv Hnew Hpre Hok Hpass Hlast Hend Hmj Huj) as (w1 & Hr & Hok1 & Hout).
  cbn [join_all]. rewrite Hr. cbn [mbind outcome_bind]. unfold new_nodes in *. rewrite fmap_cons, reverse_cons, <-app_assoc in *. cbn [app fst] in *.
  apply NoDup_cons in Hnd as [Hj Hnd]. apply IH; [by apply newcomer_valid|done|by apply Hjs|]. split; [done|]. intros x Hx. destruct (Hun x) as (Hxr & m & Hm & Hu); [by right|].
  assert (x ∉ j :: ring) by (apply not_elem_of_cons; split; [by intros ->|done]). split; [done|]. exists m. by rewrite Hout.
Qed.

End Steps.

(** C5 (a ring grows by joins).  Let the nodes of a ring of any size have its
    predecessors and first successors, and let fresh nodes join one after the other.
    Each sends its request to some member; the members pass it along until it
    reaches the member before the new node's place or the one after it.  Then every
    join, the notification it leads to and one stabilization of the member before run
    to their end, and the nodes of the larger ring, old and new, all have its
    predecessors and first successors. *)
Theorem ring_grows {FS : Type} `{FileSystem FS} `{Sha1} (r : nat) (ring : list string) (js : list (string * list string * string)) (w : gmap string (Machine FS)) :
  valid_ring ring → ring_ok r w ring → joiners ring js w → waiting r ring js w →
  ∃ w', join_all js w = Ret (Some w') ∧ valid_ring (reverse (new_nodes js) ++ ring) ∧ ring_ok r w' (reverse (new_nodes js) ++ ring).
Proof. apply joins_extend. Qed.

(** ** Joins that go wrong *)

(** The member asked passes the request back to the joining node as its own answer. *)
Lemma join_asks_again {FS : Type} `{FileSystem FS} `{Sha1} r (w : gmap string (Machine FS)) c j mc mj resp : w !! c = Some mc → node_wf r (hashString c) c (node (m_chord mc)) →
  last_finger c (node (m_chord mc)) → w !! j = Some mj → Identifier (node (m_chord mj)) = hashString j →
  0 < cw (hashString c) (hashString j) ≤ 2 ^ (keySize - 1) → find (node (m_chord mc)) (hashString j) Response0 = Ret (PASSALONG, resp) →
  run_at j (CallJoin c) w = Ret ((), [TCallJoin c], w).
Proof.
  intros Hc Hwf Hl Hj Hij Hcw Hf. destruct (closest_last_finger r (hashString c) c _ (hashString j) Response0 Hwf) as [f Hcl]; [apply hashString_in_ring|done|done|].
  pose proof (find_pass_closest _ _ _ _ Hf) as Hcl'. rewrite Hcl in Hcl'. apply Ret_pair_inj in Hcl' as [_ <-]. by rewrite (join_passed w c j mc mj _ Hc Hj Hij Hf).
Qed.

(** C39 (joins that never end).  A node that wants to join, in the half of the ring after the
    member it asks but beyond the successors this member knows, is told to ask the
    same member again: the last finger, which is consulted first, names the member
    itself and is never refreshed.  However often the node asks, its join is never
    done and nothing changes. *)
Theorem join_far_contact_loops {FS : Type} `{FileSystem FS} `{Sha1} (r : nat) (w : gmap string (Machine FS)) (c j : string) (mc mj : Machine FS) (resp : Response) :
  w !! c = Some mc → node_wf r (hashString c) c (node (m_chord mc)) → last_finger c (node (m_chord mc)) →
  w !! j = Some mj → Identifier (node (m_chord mj)) = hashString j →
  0 < cw (hashString c) (hashString j) ≤ 2 ^ (keySize - 1) → find (node (m_chord mc)) (hashString j) Response0 = Ret (PASSALONG, resp) →
  (∀ fuel, finish_tasks fuel j [TCallJoin c] w = Ret None) ∧ run_at j (CallJoin c) w = Ret ((), [TCallJoin c], w).
Proof.
  intros Hc Hwf Hl Hj Hij Hcw Hf. pose proof (join_asks_again r w c j mc mj resp Hc Hwf Hl Hj Hij Hcw Hf) as Hr. split; [|done].
  induction fuel as [|fuel IH]; [done|]. cbn [finish_tasks task]. rewrite Hr. cbn [mbind outcome_bind app]. exact IH.
Qed.

(** A member asked by a node beyond its first successor drops that successor from its list. *)
Theorem Join_drops_successor `{Sha1} (n : NodeInfo) (s0 s1 : string) (ss : list string) (req : JoinRequest) :
  Successors n = s0 :: s1 :: ss → s0 ≠ "X" → s1 ≠ "X" →
  between (Identifier n) (jr_Identifier req) (hashString s0) true = false → between (hashString (Predecessor n)) (jr_Identifier req) (Identifier n) true = false →
  between (Identifier n) (jr_Identifier req) (hashString s1) true = true →
  Join req Response0 n = Ret (mkResponse true s1 (hashString s1), set_Successors (jr_NodeAddress req :: s1 :: ss) n).
Proof.
  intros Hs H0 H1 Hb0 Hbp Hb1. unfold Join, find. rewrite Hs. cbn [find_loop]. rewrite decide_False by done. rewrite Hb0, Hbp, decide_False by done. rewrite Hb1.
  cbn [mbind outcome_bind]. unfold set_succ0. rewrite Hs. reflexivity.
Qed.

(** Node "m" starts a ring; "t" joins through it, "p" through the member after its place,
    and "b" through "p", which passes the request along to "t". *)
Definition one_slot_first : NodeInfo := match Create (demo_init 1 "m") with Ret n => n | _ => demo_init 1 "m" end.
Definition demo_nodes : gmap string (Machine MemFS) :=
  {["m" := demo_host one_slot_first; "t" := demo_host (demo_init 1 "t"); "p" := demo_host (demo_init 1 "p"); "b" := demo_host (demo_init 1 "b")]}.
Definition demo_joins : list (string * list string * string) := [("t", ["m"], "m"); ("p", ["t"], "m"); ("b", ["p"; "t"], "t")].

(** The machines after a join. *)
Definition after (route : list string) (p j : string) (w : gmap string (Machine MemFS)) : gmap string (Machine MemFS) :=
  match @join_through MemFS mem_fs demo_sha1 route p j w with Ret (Some w') => w' | _ => w end.
Definition nodes1 : gmap string (Machine MemFS) := after ["m"] "m" "t" demo_nodes.
Definition nodes2 : gmap string (Machine MemFS) := after ["t"] "m" "p" nodes1.

Lemma demo_newcomer ring j : bool_decide (j ∉ ring ∧ j ≠ "X" ∧ Forall (λ c, @hashString demo_sha1 c ≠ @hashString demo_sha1 j) ring) = true → @newcomer demo_sha1 ring j.
Proof. intros (H1 & H2 & H3)%bool_decide_eq_true. split; [done|]. split; [done|]. by apply Forall_forall. Qed.

Lemma demo_precedes ring p j : bool_decide (p ∈ ring ∧ Forall (λ c, cw (@hashString demo_sha1 p) (@hashString demo_sha1 j) ≤ cw (@hashString demo_sha1 c) (@hashString demo_sha1 j)) ring) = true →
  @precedes demo_sha1 ring p j.
Proof. intros [H1 H2]%bool_decide_eq_true. split; [done|]. by apply Forall_forall. Qed.

Lemma demo_joiners : @joiners MemFS mem_fs demo_sha1 ["m"] demo_joins demo_nodes.
Proof.
  unfold demo_joins. cbn [joiners]. split; [apply demo_newcomer; vm_compute; reflexivity|]. split; [apply demo_precedes; vm_compute; reflexivity|]. split; [done|].
  split; [exists "m"; split; [done|by left]|]. intros w1 H1. assert (w1 = nodes1) as -> by (unfold nodes1, after; by rewrite H1). clear H1.
  split; [apply demo_newcomer; vm_compute; reflexivity|]. split; [apply demo_precedes; vm_compute; reflexivity|]. split; [done|].
  split; [exists "t"; split; [done|right; split; [by left|]; intros c Hc; set_unfold; destruct Hc as [->|[->|[]]]; vm_compute; discriminate]|].
  intros w2 H2. assert (w2 = nodes2) as -> by (unfold nodes2, after; by rewrite H2). clear H2.
  split; [apply demo_newcomer; vm_compute; reflexivity|]. split; [apply demo_precedes; vm_compute; reflexivity|].
  split; [|by split; [exists "t"; split; [done|by left]|]]. split; [|done].
  exists (default (demo_host one_slot_first) (nodes2 !! "p")). eexists. split; [vm_compute; reflexivity|]. split; vm_compute; reflexivity.
Qed.

Lemma ring_grows_witness :
  ∃ w', @join_all MemFS mem_fs demo_sha1 demo_joins demo_nodes = Ret (Some w') ∧ @valid_ring demo_sha1 ["b"; "p"; "t"; "m"] ∧
    @ring_ok MemFS demo_sha1 0 w' ["b"; "p"; "t"; "m"].
Proof.
  apply (@ring_grows MemFS mem_fs demo_sha1 0 ["m"] demo_joins demo_nodes); [| |apply demo_joiners|].
  - split; [apply NoDup_singleton| |by intros [=]%list_elem_of_singleton]. by intros x y ->%list_elem_of_singleton ->%list_elem_of_singleton.
  - intros x ->%list_elem_of_singleton. exists (demo_host one_slot_first). split; [vm_compute; reflexivity|].
    assert (Hnx : @next demo_sha1 ["m"] "m" "m") by (split; [by left|intros c ->%list_elem_of_singleton; reflexivity]).
    split; [vm_compute; reflexivity|vm_compute; reflexivity|split; [by left|exact Hnx]|]. exists "m", []. split; [vm_compute; reflexivity|done].
  - split; [by apply (bool_decide_unpack (NoDup _))|]. intros j Hj. change (new_nodes demo_joins) with ["t"; "p"; "b"] in Hj. set_unfold.
    destruct Hj as [->|[->|[->|[]]]]; (split; [by intros [[=]|[]]|]);
      eexists; (split; [vm_compute; reflexivity|repeat split; vm_compute; reflexivity]).
Defined.

(** Node "m" of a ring of five knows its next two successors; "v" comes after them. *)
Definition far_world : gmap string (Machine MemFS) := {["m" := demo_machine5; "v" := demo_host (demo_init 2 "v")]}.

Lemma join_far_contact_loops_witness :
  (∀ fuel, @finish_tasks MemFS mem_fs demo_sha1 fuel "v" [TCallJoin "m"] far_world = Ret None) ∧
  @run_at MemFS mem_fs demo_sha1 _ "v" (@CallJoin MemFS "m") far_world = Ret ((), [TCallJoin "m"], far_world).
Proof.
  apply (@join_far_contact_loops MemFS mem_fs demo_sha1 2 far_world "m" "v" demo_machine5 (demo_host (demo_init 2 "v"))
    (mkResponse false "m" (jumpIdentifier (@hashString demo_sha1 "m") 160)));
    [vm_compute; reflexivity
    |apply wf_set_Predecessor, wf_set_Successors; [reflexivity|apply demo_init_wf]
    |exists (mkFinger (jumpIdentifier (@hashString demo_sha1 "m") 160) "m"); split; vm_compute; reflexivity
    |vm_compute; reflexivity|vm_compute; reflexivity
    |split; [vm_compute; reflexivity|vm_compute; discriminate]
    |vm_compute; reflexivity].
Defined.
