(* ===== verification/ChordRepair.v ===== *)
(** * Lab3_Chord: a ring heals after a crash

    When a node crashes, its predecessor drops it from the successor list at its next
    stabilization, its successor forgets it at the next check of its predecessor, and
    the next stabilization of the predecessor links the two: every remaining node has
    the predecessor and the first successor of the smaller ring. *)

From S2P Require Import Prelude GoFiles ChordUtil ChordNode ChordRing ChordFiles GoProg ChordRPC ChordLookup ChordStore ChordDurable ChordGrowth.
Open Scope string_scope.
Open Scope Z_scope.

(** ** Removing a member *)

Section Remove.
Context `{Sha1}.
Implicit Types (ring : list string) (p d s x y : string).

(** The ring without [d]. *)
Definition without d ring : list string := filter (λ x, x ≠ d) ring.

Lemma elem_of_without d ring x : x ∈ without d ring ↔ x ≠ d ∧ x ∈ ring.
Proof. unfold without. by rewrite list_elem_of_filter. Qed.

Lemma without_valid d ring : valid_ring ring → valid_ring (without d ring).
Proof.
  intros [Hnd Hinj HX]. split.
  - by apply NoDup_filter.
  - intros a b [_ Ha]%elem_of_without [_ Hb]%elem_of_without. by apply Hinj.
  - rewrite elem_of_without. naive_solver.
Qed.

Lemma remove_links ring p d s : valid_ring ring → p ∈ ring → p ≠ d → s ≠ d → next ring p d → next ring d s →
  next (without d ring) p s ∧ ∀ x y, y ≠ d → next ring x y → next (without d ring) x y.
Proof.
  intros Hv Hp Hpd Hsd [Hd Hpmin] [Hs Hdmin]. split.
  - split; [by apply elem_of_without|]. intros c [Hcd Hc]%elem_of_without. pose proof (Hpmin c Hc) as Hc1. pose proof (Hdmin c Hc) as Hc2.
    assert (Hne : ∀ x, x ∈ ring → x ≠ d → cw (hashString p) (hashString x) ≠ cw (hashString p) (hashString d)).
    { intros x Hx Hxd Heq. apply Hxd, (vr_inj ring Hv); [done..|]. by apply (pos_eq p). }
    pose proof (Hne s Hs Hsd). pose proof (Hne c Hc Hcd). pose proof (Hpmin p Hp) as Hpp. pose proof (Hne p Hp Hpd) as Hp0. rewrite cw_self in Hp0.
    pose proof (Hdmin p Hp) as Hc3. rewrite !(arc_pos p), ?cw_self in *. cbn zeta in *.
    pose proof (cw_range (hashString p) (hashString d)). pose proof (cw_range (hashString p) (hashString s)). pose proof (cw_range (hashString p) (hashString c)).
    repeat case_decide; lia.
  - intros x y Hy [Hyr Hmin]. split; [by apply elem_of_without|]. intros c [_ Hc]%elem_of_without. by apply Hmin.
Qed.

End Remove.

(** ** The steps of the repair *)

(** [clearDeadSucc] changes only the successor list and the fingers. *)
Lemma replace_run_links k failedNode succ nd : (k < length (FingerTable nd))%nat →
  ∃ ft, replace_run k failedNode succ nd = Ret (set_FingerTable ft nd).
Proof.
  revert nd. induction k as [|k IH]; intros nd Hk; cbn [replace_run].
  { exists (FingerTable nd). by destruct nd. }
  destruct (slice_get_ok (FingerTable nd) (Z.of_nat (S k))) as (f & Hf & _); [unfold go_len; lia|]. rewrite Hf. cbn [mbind outcome_bind].
  case_decide; [exists (FingerTable nd); by destruct nd|]. unfold set_finger_addr. rewrite Hf. cbn [mbind outcome_bind].
  rewrite slice_set_ok by (unfold go_len; lia). cbn [mbind outcome_bind].
  match goal with |- context [replace_run k _ _ ?m] => destruct (IH m) as (ft & ->) end; [simpl; rewrite length_insert; lia|]. by exists ft.
Qed.

Lemma last_failed_returns nd failedNode k failedId succ : (k < length (FingerTable nd))%nat → (failedId < length (FingerTable nd))%nat →
  ∃ i s, last_failed nd failedNode k failedId succ = Ret (i, s) ∧ (i < length (FingerTable nd))%nat.
Proof.
  revert succ. induction k as [|k IH]; intros succ Hk Hi; cbn [last_failed]; [by eexists _, _|].
  destruct (slice_get_ok (FingerTable nd) (Z.of_nat (S k))) as (f & -> & _); [unfold go_len; lia|]. cbn [mbind outcome_bind].
  case_decide; [by eexists _, _|]. apply IH; [lia|done].
Qed.

Lemma clearDeadSucc_links nd d l : Successors nd = d :: l → length (FingerTable nd) = 161%nat →
  ∃ ft, clearDeadSucc nd = Ret (set_FingerTable ft (set_Successors (collapse d (d :: l)) nd)).
Proof.
  intros Hs Hft. unfold clearDeadSucc. rewrite Hs. change (slice_get (d :: l) 0) with (Ret d). cbn [mbind outcome_bind].
  set (nd1 := set_Successors _ nd). assert (Hl : length (FingerTable nd1) = 161%nat) by done.
  destruct (last_failed_returns nd1 d (Z.to_nat keySize) (Z.to_nat keySize) (Predecessor nd1)) as (i & s & -> & Hi); [rewrite Hl; change (Z.to_nat keySize) with 160%nat; lia..|].
  cbn [mbind outcome_bind]. by apply replace_run_links.
Qed.

Lemma collapse_length d l : length (collapse d l) = length l.
Proof.
  unfold collapse. rewrite length_app, length_fmap. induction l as [|x l IH]; [done|]. rewrite !filter_cons. repeat case_decide; simpl; naive_solver lia.
Qed.

Lemma collapse_second d s l : s ≠ d → ∃ l', collapse d (d :: s :: l) = s :: l'.
Proof. intros Hs. unfold collapse. rewrite filter_cons_False by (intros []; done). rewrite filter_cons_True by done. by eexists. Qed.

Section Heal.
Context {FS : Type} `{FileSystem FS} `{Sha1}.
Notation W := (gmap string (Machine FS)).

Lemma stabilize_dead (w : W) p d s l mp : w !! p = Some mp → NodeAddress (node (m_chord mp)) = p → Successors (node (m_chord mp)) = d :: s :: l →
  d ≠ "X" → d ≠ p → s ≠ d → w !! d = None → length (FingerTable (node (m_chord mp))) = 161%nat →
  ∃ ft l', length l' = S (length l) ∧
    run_at p CallStabilize w = Ret (tt, [], <[p := upd_node (set_FingerTable ft (set_Successors (s :: l') (node (m_chord mp)))) mp]> w).
Proof.
  intros Hp Hap Hsu HdX Hdp Hsd Hd Hft. destruct (clearDeadSucc_links _ d (s :: l) Hsu Hft) as (ft & Hclear).
  destruct (collapse_second d s l Hsd) as (l' & Hl'). rewrite Hl' in Hclear. exists ft, l'. split.
  { pose proof (collapse_length d (d :: s :: l)) as Hlen. rewrite Hl' in Hlen. simpl in Hlen. lia. }
  unfold CallStabilize. erewrite run_node; [|done|].
  2:{ rewrite Hsu. change (slice_get (d :: s :: l) 0) with (Ret d). cbn [mbind outcome_bind]. rewrite decide_False by done.
      rewrite decide_False by congruence. reflexivity. }
  unfold upd_node at 1. rewrite machine_eta, insert_id by done.
  erewrite run_call; [|by apply chord_call_dead]. cbn iota. erewrite run_node; [|done|rewrite Hclear; reflexivity]. reflexivity.
Qed.

(** All machines keep their nodes. *)
Definition same_nodes (w w' : W) : Prop := ∀ x m, w !! x = Some m → ∃ m', w' !! x = Some m' ∧ node (m_chord m') = node (m_chord m).

Lemma adopt_loop_nodes s entries (w : W) m : w !! s = Some m → NodeAddress (node (m_chord m)) = s → Successors (node (m_chord m)) ≠ [] →
  ∃ w', run_at s (adopt_loop entries) w = Ret (tt, [], w') ∧ same_nodes w w'.
Proof.
  revert w m. induction entries as [|e rest IH]; intros w m Hs Ha Hsu.
  - unfold run_at. cbn [adopt_loop exec]. rewrite Hs. eexists. split; [done|]. intros x mx Hx.
    destruct (decide (s = x)) as [<-|]; [|rewrite lookup_insert_ne by done; by exists mx].
    rewrite lookup_insert_eq. eexists. split; [done|]. by assert (mx = m) as -> by congruence.
  - destruct (adopt_step s e rest w m Hs Ha Hsu) as (w1 & Hs1 & -> & Hsame).
    destruct (IH w1 _ Hs1 Ha Hsu) as (w' & Hr & Hn). exists w'. split; [done|]. intros x mx Hx.
    destruct (Hsame x mx Hx) as (mx' & Hx' & Hn' & _). destruct (Hn x mx' Hx') as (mx'' & Hx'' & Hn''). exists mx''. split; [done|congruence].
Qed.

Lemma checkPred_forgets s d (w : W) m : w !! s = Some m → NodeAddress (node (m_chord m)) = s → Successors (node (m_chord m)) ≠ [] →
  Predecessor (node (m_chord m)) = d → d ≠ "X" → d ≠ s → w !! d = None →
  ∃ w', run_at s checkPredTick w = Ret (tt, [], w') ∧
    (∃ m', w' !! s = Some m' ∧ node (m_chord m') = set_Predecessor "X" (node (m_chord m))) ∧
    ∀ x mx, x ≠ s → w !! x = Some mx → ∃ mx', w' !! x = Some mx' ∧ node (m_chord mx') = node (m_chord mx).
Proof.
  intros Hs Ha Hsu Hpr HdX Hds Hd. rewrite (checkPredTick_dead s d w m) by done.
  assert (∃ w1, run_at s reassignDuplicatedToMe w = Ret (tt, [], w1) ∧ same_nodes w w1) as (w1 & -> & Hn).
  { unfold reassignDuplicatedToMe, run_at. cbn [exec]. rewrite Hs. case_decide.
    - rewrite insert_id by done. exists w. split; [done|]. intros x mx Hx. by exists mx.
    - rewrite insert_id by done. by apply (adopt_loop_nodes s _ w m). }
  destruct (Hn s m Hs) as (m1 & Hm1 & Hn1). cbn [mbind outcome_bind]. unfold run_at, with_node. cbn [exec]. rewrite Hm1. cbn [mbind outcome_bind exec app].
  eexists. split; [done|]. split; [rewrite lookup_insert_eq; eexists; split; [done|]; cbn; by rewrite Hn1|].
  intros x mx Hxs Hx. rewrite lookup_insert_ne by done. by apply Hn.
Qed.

(** Two stabilizations of the predecessor, and between them the check of the
    successor. *)
Definition heal (p s : string) (w : W) : outcome W :=
  '(_, _, w1) ← run_at p CallStabilize w;
  '(_, _, w2) ← run_at s checkPredTick w1;
  '(_, _, w3) ← run_at p CallStabilize w2;
  Ret w3.

(** What the repair does to the machines. *)
Lemma heal_run r ring p d s l (w : W) mp : valid_ring ring → p ∈ ring → p ≠ d → s ≠ d → s ≠ p → next ring p d → next ring d s → w !! d = None →
  (∀ x, x ∈ without d ring → ∃ m, w !! x = Some m ∧ linked r ring x (node (m_chord m))) →
  w !! p = Some mp → Successors (node (m_chord mp)) = d :: s :: l → length (FingerTable (node (m_chord mp))) = 161%nat →
  ∃ w', heal p s w = Ret w' ∧ ∀ x m, x ∈ without d ring → w !! x = Some m → ∃ m', w' !! x = Some m' ∧
    Identifier (node (m_chord m')) = Identifier (node (m_chord m)) ∧ NodeAddress (node (m_chord m')) = NodeAddress (node (m_chord m)) ∧
    Predecessor (node (m_chord m')) = (if decide (x = s) then p else Predecessor (node (m_chord m))) ∧
    ∃ ss, length ss = r ∧ Successors (node (m_chord m')) = if decide (x = p) then s :: ss else Successors (node (m_chord m)).
Proof.
  intros Hv Hp Hpd Hsd Hsp Hnp Hnd Hd Hok Hmp Hsu Hft. pose proof (proj1 Hnp) as Hdr. pose proof (proj1 Hnd) as Hsr.
  assert (HX : ∀ x, x ∈ ring → x ≠ "X") by (intros x Hx ->; by apply (vr_X ring Hv)).
  destruct (Hok p) as (mp' & Hmp' & [_ Hap _ (d' & sl & Hsu' & _ & Hr)]); [by apply elem_of_without|]. assert (mp' = mp) as -> by congruence.
  rewrite Hsu in Hsu'. injection Hsu' as <- <-. destruct (Hok s) as (ms & Hms & [_ Has [Hq Hqs] (t & tl & Hst & _ & Hrs)]); [by apply elem_of_without|].
  assert (Predecessor (node (m_chord ms)) = d) as Hps by by eapply next_unique_l.
  unfold heal. destruct (stabilize_dead w p d s l mp) as (ft & l' & Hl' & ->); [by auto..|]. cbn [mbind outcome_bind].
  set (mp1 := upd_node _ mp). set (w1 := <[p := mp1]> w).
  destruct (checkPred_forgets s d w1 ms) as (w2 & -> & (ms2 & Hms2 & Hns2) & Hoth);
    [unfold w1; by rewrite lookup_insert_ne|done|by rewrite Hst|done|by auto|done|unfold w1; by rewrite lookup_insert_ne|].
  cbn [mbind outcome_bind]. destruct (Hoth p mp1) as (mp2 & Hmp2 & Hnp2); [done|apply lookup_insert_eq|].
  destruct (stabilize_pred w2 p s l' mp2 ms2) as (ss & Hss & ->); [done|done|done|by auto|by rewrite Hnp2|by rewrite Hnp2|by rewrite Hns2| |].
  { rewrite Hns2. cbn. rewrite Hst. simpl in *. lia. }
  cbn [mbind outcome_bind]. eexists. split; [done|]. intros x m Hx Hm. destruct (decide (x = p)) as [->|Hxp].
  - assert (m = mp) as -> by congruence. rewrite lookup_insert_eq. eexists. split; [done|]. cbn. rewrite Hnp2. split; [done|]. split; [done|].
    rewrite decide_False by done. split; [done|]. exists ss. simpl in *. split; [lia|done].
  - rewrite lookup_insert_ne by done. destruct (decide (x = s)) as [->|Hxs].
    + assert (m = ms) as -> by congruence. rewrite lookup_insert_eq. eexists. split; [done|]. cbn. rewrite Hns2. do 3 (split; [done|]).
      exists ss. simpl in *. split; [lia|done].
    + rewrite lookup_insert_ne by done. destruct (Hoth x m) as (m' & Hm' & Hn'); [done|unfold w1; by rewrite lookup_insert_ne|].
      exists m'. rewrite Hn'. do 4 (split; [done|]). exists ss. simpl in *. split; [lia|done].
Qed.

End Heal.


(** The ring of "b", "m" and "t" in which "t" crashes. *)
Definition demo_left : gmap string (Machine MemFS) :=
  {["m" := demo_host demo_member; "b" := demo_host (set_Predecessor "t" (set_Successors ["m"; "t"] (demo_init 2 "b")))]}.

Lemma demo_next a b : bool_decide (b ∈ ["b"; "m"; "t"] ∧
    Forall (λ c, arc (@hashString demo_sha1 a) (@hashString demo_sha1 b) ≤ arc (@hashString demo_sha1 a) (@hashString demo_sha1 c)) ["b"; "m"; "t"]) = true →
  @next demo_sha1 ["b"; "m"; "t"] a b.
Proof. intros [Hb Hf]%bool_decide_eq_true. split; [done|]. by apply Forall_forall. Qed.

