(* ===== verification/ChordSystem.v ===== *)
(** * Lab3_Chord: a group of nodes under every interleaving

    The step relation of a network of Chord processes: each step runs one
    critical section of one goroutine, delivers or loses a request or a reply,
    starts a goroutine, crashes a process or adds one.  The invariant is that
    every live node is well formed and every goroutine is [safe]. *)

From S2P Require Import Prelude GoFiles ChordUtil ChordNode ChordFiles GoProg ChordRPC ChordSafety ChordMain.
Open Scope string_scope.
Open Scope Z_scope.

Section System.
Context {FS : Type} `{FileSystem FS} `{Sha1}.

(** The [-r] flag, the same on every node, and the identifier each address runs
    under. *)
Variable r : nat.
Variable ident : string → Z.

Notation P := (prog (Machine FS) ChordReq ChordRep ChordTask).

(** Where the result of a handler goes: nowhere (the caller is gone, or the
    goroutine was started locally), or to a waiting goroutine of another node. *)
Inductive cont :=
| CNone
| CBack (o : string) (k : option ChordRep → P (option ChordRep)) (back : cont).

(** A goroutine: the node it runs on, what it still has to do, and who waits. *)
Record thread := mkThread { th_owner : string; th_code : P (option ChordRep); th_back : cont }.

Record config := mkConfig { machines : gmap string (Machine FS); threads : list thread }.

(** A goroutine that answers nobody. *)
Definition background {A} (o : string) (p : P A) : thread :=
  mkThread o (pbind p (λ _, PRet None)) CNone.

(** The goroutines a node starts by itself: the three timers of [initIntervals]
    and the commands of the user. *)
Inductive spontaneous : P unit → Prop :=
| sp_stabilize : spontaneous CallStabilize
| sp_fingers : spontaneous FixFingers
| sp_checkpred : spontaneous checkPredTick
| sp_store q : spontaneous (pbind (CallStoreFile q) (λ _, PRet tt))
| sp_join a : spontaneous (CallJoin a).

(** A process just started at [a] with [-r r]: its machine and what [main] runs
    next. *)
Definition started (a : string) (m : Machine FS) : Prop :=
  ∃ fl certs fs p, main fl certs fs = Ret (m, p) ∧ Z.to_nat (fl_r fl) = r ∧
    a = fl_a fl +:+ ":" +:+ fl_p fl ∧ ident a = Identifier (node (m_chord m)).

(** Steps of one goroutine: the machines afterwards and the goroutines it turns
    into. *)
Inductive thread_step (ms : gmap string (Machine FS)) : thread → gmap string (Machine FS) → list thread → Prop :=
| ts_section o f b m m' p' :
    ms !! o = Some m → f m = Ret (m', p') →
    thread_step ms (mkThread o (PStep f) b) (<[o := m']> ms) [mkThread o p' b]
| ts_call_lost o d q k b :
    thread_step ms (mkThread o (PCall d q k) b) ms [mkThread o (k None) b]
| ts_call o d q k b :
    is_Some (ms !! d) →
    thread_step ms (mkThread o (PCall d q k) b) ms [mkThread d (serve q) (CBack o k b)]
| ts_reply d rep o k b :
    thread_step ms (mkThread d (PRet rep) (CBack o k b)) ms [mkThread o (k rep) b]
| ts_reply_lost d p o k b :
    thread_step ms (mkThread d p (CBack o k b)) ms [mkThread o (k None) b; mkThread d p CNone]
| ts_done d rep :
    thread_step ms (mkThread d (PRet rep) CNone) ms []
| ts_go o t k b :
    thread_step ms (mkThread o (PGo t k) b) ms [mkThread o k b; background o (task t)]
| ts_exit o b :
    thread_step ms (mkThread o PExit b) (delete o ms) [].

Inductive step : config → config → Prop :=
| step_thread ms ts1 t ts2 ms' ts' :
    thread_step ms t ms' ts' →
    step (mkConfig ms (ts1 ++ t :: ts2)) (mkConfig ms' (ts1 ++ ts' ++ ts2))
| step_start ms ts o p :
    is_Some (ms !! o) → spontaneous p →
    step (mkConfig ms ts) (mkConfig ms (background o p :: ts))
| step_crash ms ts o :
    step (mkConfig ms ts) (mkConfig (delete o ms) ts)
| step_new ms ts a m :
    ms !! a = None → started a m →
    step (mkConfig ms ts) (mkConfig (<[a := m]> ms) (background a (joinOrCreate (m_chord m)) :: ts)).

Definition reachable : config → Prop := rtc step (mkConfig ∅ []).

(** ** The invariant *)

Definition node_safe {A} (o : string) : P A → (A → Prop) → Prop := safe (reply_ok r) (request_ok (ident o) o) (node_wf r (ident o) o).

(** Replies that respect the interface. *)
Definition rep_ok (o : option ChordRep) : Prop := ∀ rep, o = Some rep → reply_ok r (RCheckPred (mkDeadCheck false)) rep.

Fixpoint cont_ok (b : cont) : Prop :=
  match b with
  | CNone => True
  | CBack o k b' => (∀ rep, rep_ok rep → node_safe o (k rep) rep_ok) ∧ cont_ok b'
  end.

Definition thread_ok (t : thread) : Prop :=
  node_safe (th_owner t) (th_code t) rep_ok ∧ cont_ok (th_back t).

Definition config_ok (c : config) : Prop :=
  (∀ a m, machines c !! a = Some m → node_wf r (ident a) a (node (m_chord m))) ∧
  Forall thread_ok (threads c).

Hypothesis r_pos : (0 < r)%nat.

Lemma background_ok {A} o (p : P A) : node_safe o p (λ _, True) → thread_ok (background o p).
Proof.
  intros Hp. split; [|exact I]. apply safe_bind. eapply safe_mono; [|exact Hp]. by intros _ _ ?.
Qed.

Lemma spontaneous_ok o p : spontaneous p → node_safe o p (λ _, True).
Proof using r_pos.
  intros Hp; destruct Hp.
  - by apply CallStabilize_safe.
  - by apply FixFingers_safe.
  - by apply checkPredTick_safe.
  - apply safe_bind. eapply safe_unit; [by apply CallStoreFile_safe|done].
  - by apply CallJoin_safe.
Qed.

Lemma started_wf a m : started a m → node_wf r (ident a) a (node (m_chord m)).
Proof. intros (fl & certs & fs & p & Hm & <- & -> & ->). by apply (main_wf _ _ _ _ p Hm). Qed.

Lemma joinOrCreate_ok o c : node_safe o (joinOrCreate c) (λ _, True).
Proof using r_pos.
  unfold joinOrCreate. case_decide; [|by apply CallJoin_safe]. apply safe_with_node. intros n Hn.
  do 2 eexists. split; [done|]. split; [by apply wf_set_JoinPending|]. apply safe_with_node. intros n1 Hn1.
  destruct (Create_keeps r _ _ r_pos n1 Hn1) as (n2 & -> & Hn2). by do 2 eexists.
Qed.

Lemma task_ok o t : node_safe o (task t) (λ _, True).
Proof using r_pos. destruct t; [by apply CallNotify_safe | by apply CallJoin_safe]. Qed.

Lemma thread_step_ok ms t ms' ts' :
  (∀ a m, ms !! a = Some m → node_wf r (ident a) a (node (m_chord m))) → thread_ok t →
  thread_step ms t ms' ts' →
  (∀ a m, ms' !! a = Some m → node_wf r (ident a) a (node (m_chord m))) ∧ Forall thread_ok ts'.
Proof using r_pos.
  intros Hms [Hc Hb] Hst. destruct Hst as [o f b m m' p' Hm Hf|o d q k b|o d q k b Hd|d rep o k b|d p o k b| |o t k b|o b];
    simpl in Hc, Hb.
  - specialize (Hc m (Hms _ _ Hm)). rewrite Hf in Hc. destruct Hc as [Hm' Hp'].
    split; [|by repeat constructor]. intros a x. rewrite lookup_insert_Some. intros [[<- <-]|[_ ?]]; eauto.
  - split; [done|]. repeat constructor; [apply Hc|done].
  - split; [done|]. destruct Hc as (_ & Hn & Hk). repeat constructor; simpl; [by apply serve_safe| |done].
    intros [rep|] Hrep; [|done]. by apply Hk, Hrep.
  - split; [done|]. destruct Hb as [Hk Hb]. by repeat constructor; [apply Hk|].
  - split; [done|]. destruct Hb as [Hk Hb]. repeat constructor; [by apply Hk|done|done].
  - split; [done|constructor].
  - split; [done|]. repeat constructor; [apply Hc|done|apply background_ok, task_ok..].
  - split; [|constructor]. intros a m [_ ?]%lookup_delete_Some. eauto.
Qed.

Lemma step_ok c c' : config_ok c → step c c' → config_ok c'.
Proof using r_pos.
  intros [Hms Hts] Hst. destruct Hst as [ms ts1 t ts2 ms' ts' Hst|ms ts o p Ho Hp|ms ts o|ms ts a m Ha Hm]; simpl in *.
  - apply Forall_app in Hts as [Hts1 Hts2]. apply Forall_cons in Hts2 as [Ht Hts2].
    destruct (thread_step_ok ms t ms' ts' Hms Ht Hst) as [Hms' Hts']. split; [done|].
    simpl. by rewrite !Forall_app.
  - split; [done|]. constructor; [|done]. by apply background_ok, spontaneous_ok.
  - split; [|done]. simpl. intros x m [_ ?]%lookup_delete_Some. eauto.
  - split; simpl.
    + intros x y. rewrite lookup_insert_Some. intros [[<- <-]|[_ ?]]; [by apply started_wf|eauto].
    + constructor; [|done]. apply background_ok, joinOrCreate_ok.
Qed.

Lemma reachable_ok c : reachable c → config_ok c.
Proof using r_pos.
  intros Hr. refine (rtc_ind_r (R := step) (λ c, config_ok c) (mkConfig ∅ []) _ _ c Hr).
  - split; [done|constructor].
  - intros y z _ Hst Hy. by apply (step_ok y).
Qed.

End System.


(** The identifiers of the example network: every node uses its address. *)
Definition demo_ident : string → Z := @hashString demo_sha1.

Definition demo_started : Machine MemFS :=
  match @main MemFS mem_fs demo_sha1 demo_flags true (mkMemFS ∅ ∅) with
  | Ret (m, _) => m
  | _ => demo_client
  end.

(** The first node after its two start-up sections, stabilizing. *)
Definition demo_running : Machine MemFS :=
  let n := set_JoinPending false (node (m_chord demo_started)) in
  match Create n with
  | Ret n' => mkMachine (set_node n' (m_chord demo_started)) (m_fs demo_started)
  | _ => demo_client
  end.

(** The two sections of a process that creates a ring. *)
Lemma create_steps {FS : Type} `{FileSystem FS} `{Sha1} r ident a (m : Machine FS) n' ms ts :
  ms !! a = Some m → joinNodeIp (m_chord m) = "XXX" → Create (set_JoinPending false (node (m_chord m))) = Ret n' →
  rtc (step r ident) (mkConfig ms (background a (joinOrCreate (m_chord m)) :: ts))
    (mkConfig (<[a := mkMachine (set_node n' (m_chord m)) (m_fs m)]> ms) (mkThread a (PRet None) CNone :: ts)).
Proof.
  intros Ha Hj Hc. unfold joinOrCreate. rewrite decide_True by done. eapply rtc_l.
  { apply (step_thread _ _ _ [] _ ts). eapply ts_section; [exact Ha|reflexivity]. }
  eapply rtc_l; [|apply reflexive_eq].
  { apply (step_thread _ _ _ [] _ ts). eapply ts_section; [apply lookup_insert_eq|].
    cbn [m_chord node set_node m_fs]. rewrite Hc. reflexivity. }
  by rewrite insert_insert_eq.
Qed.

Lemma demo_reachable :
  @reachable MemFS mem_fs demo_sha1 2 demo_ident
    (mkConfig {["localhost:1234" := demo_running]} [background "localhost:1234" (@CallStabilize MemFS); mkThread "localhost:1234" (PRet None) CNone]).
Proof.
  eapply rtc_l.
  { eapply (step_new _ _ ∅ [] "localhost:1234" demo_started); [reflexivity|].
    exists demo_flags, true, (mkMemFS ∅ ∅). eexists. split; [unfold demo_started; vm_compute; reflexivity|].
    repeat split; vm_compute; reflexivity. }
  rewrite insert_empty. eapply rtc_r.
  - eapply create_steps; [apply lookup_singleton_eq|vm_compute; reflexivity|].
    instantiate (1 := node (m_chord demo_running)). vm_compute. reflexivity.
  - rewrite insert_singleton_eq. match goal with |- step _ _ ?c _ => replace c with (mkConfig {["localhost:1234" := demo_running]} [@mkThread MemFS "localhost:1234" (PRet None) CNone]) end.
    + apply step_start; [by rewrite lookup_singleton_eq|constructor].
    + by f_equal.
Qed.

