(* ===== verification/ChordLocks.v ===== *)
(** * Lab3_Chord: the mutex of a node

    The goroutines of a group of nodes with the node's mutex [chordSync].  Most code
    takes the mutex for one critical section at a time and releases it around a call;
    two pieces of code keep it during their calls: the command Lookup ([parseInput]
    does not release it around [CallLookup]) and the adoption of replicated files
    ([reassignDuplicatedToMe] in the ticker of [initIntervals]).  A caller waits until
    its handler has replied.

    [run] has the steps that are certain to be possible, [step] everything that can
    happen: unlocked reads while the mutex is taken, lost messages, crashes, new
    goroutines.  The theorems: in every reachable state some goroutine can go on,
    unless nodes wait for each other's mutex in a circle, each held by a Lookup or an
    adoption that waits for a handler of another; one node alone can never block, and
    two nodes that look up a file at the same time can. *)

From S2P Require Import Prelude GoFiles ChordUtil ChordNode ChordFiles GoProg ChordRPC ChordSafety ChordMain ChordSystem.
From Stdlib Require Import Ascii.
Open Scope string_scope.
Open Scope Z_scope.

(** How a piece of code uses the mutex: never; for every section; for its sections but
    with unlocked reads in between; for the whole of it. *)
Inductive mode := Unlocked | Locked | Mixed | Whole.

#[global] Instance mode_eq_dec : EqDecision mode.
Proof. solve_decision. Defined.

Section Locks.
Context {FS : Type} `{FileSystem FS} `{Sha1} `{Aead}.

Notation P := (prog (Machine FS) ChordReq ChordRep ChordTask).

(** What a goroutine still does: code in a mode (with [Whole] the mutex is not yet
    taken), code that holds the mutex, and the check of the predecessor, whose result
    decides how the ticker goes on. *)
Inductive lcode :=
| LSeg (md : mode) (p : P (option ChordRep))
| LHeld (p : P (option ChordRep))
| LTick (p : P bool).

(** Who waits for the goroutine: nobody, or a caller on node [o], which holds its mutex
    if [held]. *)
Inductive lcont := LNone | LBack (o : string) (held : bool) (k : option ChordRep → lcode) (back : lcont).

Record lthread := mkL { l_owner : string; l_code : lcode; l_back : lcont }.

(** ** The code with its modes *)

Definition ends {A} (p : P A) : P (option ChordRep) := pbind p (λ _, PRet None).

(** The branch of the ticker after the check of the predecessor. *)
Definition tick_rest (alive : bool) : lcode :=
  if alive then LSeg Mixed (ends reassignToPred)
  else LSeg Whole (ends (pbind reassignDuplicatedToMe (λ _, with_node (λ n, Ret (set_Predecessor "X" n, PRet tt))))).

(** Handlers: [CheckPred] and [LookUp] take no lock; [StoreFile] takes it again after the
    duplication. *)
Definition lserve (q : ChordReq) : lcode :=
  match q with
  | RCheckPred _ | RLookUp _ => LSeg Unlocked (serve q)
  | RStoreFile s => LSeg Mixed (pbind (serve q) (λ rep, if DuplicationReq s then PRet rep else read_node (λ _, PRet rep)))
  | _ => LSeg Locked (serve q)
  end.

Definition lbackground (o : string) (c : lcode) : lthread := mkL o c LNone.

Definition is_lookup (input : string) : bool := bool_decide (head (Split " "%char input) = Some "Lookup").

(** [parseInput]: the mutex is taken until it returns, and released only around
    [CallStoreFile]. *)
Definition command (nonce : option string) (input : string) : lcode :=
  if is_lookup input then LSeg Whole (ends (parseInput nonce input))
  else LSeg Mixed (pbind (parseInput nonce input) (λ _, read_node (λ _, PRet None))).

(** The timers, the user's commands and the join. *)
Inductive lspontaneous : lcode → Prop :=
| lsp_stabilize : lspontaneous (LSeg Mixed (ends CallStabilize))
| lsp_fingers : lspontaneous (LSeg Mixed (ends FixFingers))
| lsp_checkpred : lspontaneous (LTick CallCheckPred)
| lsp_command nonce input : lspontaneous (command nonce input)
| lsp_join a : lspontaneous (LSeg Mixed (ends (CallJoin a))).

(** ** Steps *)

(** The nodes whose mutex a goroutine, or a caller that waits for it, holds. *)
Definition holders (t : lthread) : list string :=
  ((match l_code t with LHeld _ => [l_owner t] | _ => [] end) ++ (match l_back t with LBack o true _ _ => [o] | _ => [] end))%list.
Definition all_holders (ts : list lthread) : list string := concat (holders <$> ts).
Definition locked (o : string) (ts : list lthread) : Prop := o ∈ all_holders ts.

(** The next access to the machine: taking the mutex, or a section. *)
Definition code_step (c : lcode) (m : Machine FS) : option (outcome (Machine FS * lcode)) :=
  match c with
  | LSeg Whole p => Some (Ret (m, LHeld p))
  | LSeg md (PStep f) => Some ('(m', p') ← f m; Ret (m', LSeg md p'))
  | LHeld (PStep f) => Some ('(m', p') ← f m; Ret (m', LHeld p'))
  | LTick (PStep f) => Some ('(m', p') ← f m; Ret (m', LTick p'))
  | _ => None
  end.

(** Whether the step needs a mutex that is free. *)
Definition takes_mutex (c : lcode) : bool := match c with LSeg Unlocked _ | LHeld _ => false | _ => true end.

(** Code with unlocked reads. *)
Definition reads_unlocked (c : lcode) : bool := match c with LSeg Mixed _ | LTick _ => true | _ => false end.

Definition code_call (c : lcode) : option (string * ChordReq * (option ChordRep → lcode)) :=
  match c with
  | LSeg Whole _ => None
  | LSeg md (PCall d q k) => Some (d, q, λ rep, LSeg md (k rep))
  | LHeld (PCall d q k) => Some (d, q, λ rep, LHeld (k rep))
  | LTick (PCall d q k) => Some (d, q, λ rep, LTick (k rep))
  | _ => None
  end.

Definition code_go (c : lcode) : option (ChordTask * lcode) :=
  match c with
  | LSeg Whole _ => None
  | LSeg md (PGo t k) => Some (t, LSeg md k)
  | LHeld (PGo t k) => Some (t, LHeld k)
  | LTick (PGo t k) => Some (t, LTick k)
  | _ => None
  end.

Definition at_exit (c : lcode) : bool :=
  match c with LSeg Whole _ => false | LSeg _ PExit | LHeld PExit | LTick PExit => true | _ => false end.

Definition is_held (c : lcode) : bool := match c with LHeld _ => true | _ => false end.

(** Steps of one goroutine that nothing can prevent; [lk] are the nodes whose mutex is
    taken.  A goroutine of a process that has died is gone, and its caller sees the
    call fail. *)
Inductive trun (ms : gmap string (Machine FS)) (lk : string → Prop) : lthread → gmap string (Machine FS) → list lthread → Prop :=
| tr_step o c b m m' c' : ms !! o = Some m → (takes_mutex c = true → ¬ lk o) → code_step c m = Some (Ret (m', c')) →
    trun ms lk (mkL o c b) (<[o := m']> ms) [mkL o c' b]
| tr_die o c b m x : ms !! o = Some m → (takes_mutex c = true → ¬ lk o) → code_step c m = Some x → (x = Panic ∨ x = Exit) →
    trun ms lk (mkL o c b) (delete o ms) [mkL o c b]
| tr_exit o c b : is_Some (ms !! o) → at_exit c = true → trun ms lk (mkL o c b) (delete o ms) [mkL o c b]
| tr_release o rep b : trun ms lk (mkL o (LHeld (PRet rep)) b) ms [mkL o (LSeg Unlocked (PRet rep)) b]
| tr_tick o alive b : trun ms lk (mkL o (LTick (PRet alive)) b) ms [mkL o (tick_rest alive) b]
| tr_call o c b d q k : is_Some (ms !! o) → is_Some (ms !! d) → code_call c = Some (d, q, k) → trun ms lk (mkL o c b) ms [mkL d (lserve q) (LBack o (is_held c) k b)]
| tr_unreachable o c b d q k : ms !! d = None → code_call c = Some (d, q, k) → trun ms lk (mkL o c b) ms [mkL o (k None) b]
| tr_reply d md rep o h k b : md ≠ Whole → trun ms lk (mkL d (LSeg md (PRet rep)) (LBack o h k b)) ms [mkL o (k rep) b]
| tr_done d md rep : md ≠ Whole → trun ms lk (mkL d (LSeg md (PRet rep)) LNone) ms []
| tr_go o c b t c' : code_go c = Some (t, c') → trun ms lk (mkL o c b) ms [mkL o c' b; lbackground o (LSeg Mixed (ends (task t)))]
| tr_dead o c : ms !! o = None → trun ms lk (mkL o c LNone) ms []
| tr_dead_reply o c o' h k b : ms !! o = None → trun ms lk (mkL o c (LBack o' h k b)) ms [mkL o' (k None) b].

(** Steps that may happen besides: a read without the mutex, a lost request or reply. *)
Inductive tmay (ms : gmap string (Machine FS)) : lthread → list lthread → Prop :=
| tm_read o c b m c' : reads_unlocked c = true → ms !! o = Some m → code_step c m = Some (Ret (m, c')) → tmay ms (mkL o c b) [mkL o c' b]
| tm_lost o c b d q k : code_call c = Some (d, q, k) → tmay ms (mkL o c b) [mkL o (k None) b]
| tm_reply_lost d c o h k b : tmay ms (mkL d c (LBack o h k b)) [mkL o (k None) b; mkL d c LNone].

Record lconfig := mkLC { l_machines : gmap string (Machine FS); l_threads : list lthread }.

Inductive run : lconfig → lconfig → Prop :=
| run_thread ms ts1 t ts2 ms' ts' : trun ms (λ o, locked o (ts1 ++ t :: ts2)) t ms' ts' →
    run (mkLC ms (ts1 ++ t :: ts2)) (mkLC ms' (ts1 ++ ts' ++ ts2)).

Inductive lstep : lconfig → lconfig → Prop :=
| lstep_run c c' : run c c' → lstep c c'
| lstep_may ms ts1 t ts2 ts' : tmay ms t ts' → lstep (mkLC ms (ts1 ++ t :: ts2)) (mkLC ms (ts1 ++ ts' ++ ts2))
| lstep_start ms ts o c : is_Some (ms !! o) → lspontaneous c → lstep (mkLC ms ts) (mkLC ms (lbackground o c :: ts))
| lstep_crash ms ts o : lstep (mkLC ms ts) (mkLC (delete o ms) ts).

(** A caller on [o] that holds its mutex waits for a handler on [o']. *)
Definition waits (c : lconfig) (o o' : string) : Prop := ∃ t k b, t ∈ l_threads c ∧ l_owner t = o' ∧ l_back t = LBack o true k b.

(** Every mutex that is taken is held by a caller that waits for another one. *)
Definition deadlocked (c : lconfig) : Prop :=
  (∃ o, locked o (l_threads c)) ∧ ∀ o, locked o (l_threads c) → ∃ o', o' ≠ o ∧ waits c o o' ∧ locked o' (l_threads c).

(** ** Code that holds the mutex *)

Definition addr (m : Machine FS) : string := NodeAddress (node (m_chord m)).

(** Requests a holder makes: their handlers make no calls. *)
Definition leaf (q : ChordReq) : Prop :=
  match q with RFindSuccessor _ | RLookUp _ => True | RStoreFile s => DuplicationReq s = true | _ => False end.
Definition lock_free (q : ChordReq) : Prop := match q with RLookUp _ => True | _ => False end.

(** On node [o] with machine [m], which nobody else changes, [p] makes only leaf requests,
    and none to [o] whose handler takes the mutex. *)
Fixpoint holdsafe {A} (o : string) (p : P A) (m : Machine FS) : Prop :=
  match p with
  | PRet _ | PExit => True
  | PStep f => match f m with Ret (m', p') => holdsafe o p' m' | _ => True end
  | PCall d q k => leaf q ∧ (d ≠ o ∨ lock_free q) ∧ ∀ rep, holdsafe o (k rep) m
  | PGo _ k => holdsafe o k m
  end.

(** What holds after [p] on any machine of [o]. *)
Fixpoint holdsafe_then {A} (o : string) (p : P A) (m : Machine FS) (Q : A → Machine FS → Prop) : Prop :=
  match p with
  | PRet a => Q a m
  | PExit => True
  | PStep f => match f m with Ret (m', p') => holdsafe_then o p' m' Q | _ => True end
  | PCall d q k => leaf q ∧ (d ≠ o ∨ lock_free q) ∧ ∀ rep, holdsafe_then o (k rep) m Q
  | PGo _ k => holdsafe_then o k m Q
  end.

Lemma holdsafe_bind {A B} o (p : P A) (g : A → P B) m : holdsafe_then o p m (λ a m', holdsafe o (g a) m') → holdsafe o (pbind p g) m.
Proof.
  revert m. induction p as [a| |f IH|d q k IH|t k IH] using prog_rect'; intros m Hp; cbn [pbind holdsafe holdsafe_then] in *; try done.
  - specialize (IH m). destruct (f m) as [[m' p']| |]; [by apply IH|done..].
  - destruct Hp as (Hl & Hd & Hk). split; [done|]. split; [done|]. intros rep. by apply IH.
  - by apply IH.
Qed.

Lemma holdsafe_then_bind {A B} o (p : P A) (g : A → P B) m Q : holdsafe_then o p m (λ a m', holdsafe_then o (g a) m' Q) → holdsafe_then o (pbind p g) m Q.
Proof.
  revert m. induction p as [a| |f IH|d q k IH|t k IH] using prog_rect'; intros m Hp; cbn [pbind holdsafe_then] in *; try done.
  - specialize (IH m). destruct (f m) as [[m' p']| |]; [by apply IH|done..].
  - destruct Hp as (Hl & Hd & Hk). split; [done|]. split; [done|]. intros rep. by apply IH.
  - by apply IH.
Qed.

Lemma holdsafe_then_mono {A} o (p : P A) m (Q Q' : A → Machine FS → Prop) : (∀ a m, Q a m → Q' a m) → holdsafe_then o p m Q → holdsafe_then o p m Q'.
Proof.
  intros HQ. revert m. induction p as [a| |f IH|d q k IH|t k IH] using prog_rect'; intros m Hp; cbn [holdsafe_then] in *; auto.
  - specialize (IH m). destruct (f m) as [[m' p']| |]; [by apply IH|done..].
  - destruct Hp as (Hl & Hd & Hk). split; [done|]. split; [done|]. intros rep. by apply IH.
Qed.

Lemma addr_set_node (n : NodeInfo) (m : Machine FS) : addr (mkMachine (set_node n (m_chord m)) (m_fs m)) = NodeAddress n.
Proof. done. Qed.

Lemma read_node_holdsafe {A} o (f : NodeInfo → P A) m Q : addr m = o → (∀ n m', NodeAddress n = o → addr m' = o → node (m_chord m') = n → holdsafe_then o (f n) m' Q) → holdsafe_then o (read_node f) m Q.
Proof. intros Ha Hf. cbn [read_node with_node holdsafe_then mbind outcome_bind]. apply Hf; [done| |done]. by rewrite addr_set_node. Qed.

(** The result of a lookup's resolution leaves the node the same node. *)
Lemma CallFindSuccessor_holdsafe o q resp m : addr m = o → holdsafe_then o (CallFindSuccessor q resp) m (λ _ m', addr m' = o).
Proof.
  intros Ha. apply read_node_holdsafe; [done|]. intros n m' Hn Hm' Hnd. case_decide as Hq; [done|]. cbn [holdsafe_then leaf]. rewrite Hn in Hq.
  split; [done|]. split; [by left|]. intros [[]|]; done.
Qed.

Lemma resolve_loop_holdsafe o k q m : addr m = o → holdsafe_then o (resolve_loop k q) m (λ _ m', addr m' = o).
Proof.
  revert q m. induction k as [|k IH]; intros q m Ha; [done|]. cbn [resolve_loop]. apply read_node_holdsafe; [done|]. intros n m' Hn Hm' Hnd.
  case_decide; [done|]. apply holdsafe_then_bind. eapply holdsafe_then_mono; [|by apply CallFindSuccessor_holdsafe].
  intros [ok resp] m2 Hm2. cbn beta. destruct ok; [|done]. destruct (r_IsSuccessor resp); [done|]. by apply IH.
Qed.

Lemma resolveIdentifier_holdsafe o i m : addr m = o → holdsafe_then o (resolveIdentifier i) m (λ _ m', addr m' = o).
Proof.
  intros Ha. cbn [resolveIdentifier with_node holdsafe_then]. destruct (find (node (m_chord m)) i Response0) as [[rc resp]| |]; cbn [mbind outcome_bind]; [|done..].
  repeat case_decide; cbn [mbind outcome_bind holdsafe_then]; [by rewrite addr_set_node..|]. apply resolve_loop_holdsafe. by rewrite addr_set_node.
Qed.

Lemma CallLookup_holdsafe o q m : addr m = o → holdsafe_then o (CallLookup q) m (λ _ _, True).
Proof.
  intros Ha. unfold CallLookup. apply holdsafe_then_bind. eapply holdsafe_then_mono; [|by apply resolveIdentifier_holdsafe].
  intros d m' Hm'. cbn beta. cbn [holdsafe_then leaf lock_free]. split; [done|]. split; [by right|]. intros [[]|]; try done. case_decide; [done|]. cbn [holdsafe_then].
  destruct (decrypt _ _) as [[content ok]| |]; done.
Qed.

Lemma is_lookup_args input : is_lookup input = true → ∃ l, Split " "%char input = "Lookup" :: l.
Proof. unfold is_lookup. intros Hl%bool_decide_eq_true. destruct (Split " "%char input) as [|c l]; [done|]. injection Hl as ->. by exists l. Qed.

Lemma lookup_command_holdsafe o nonce input m : is_lookup input = true → addr m = o → holdsafe o (ends (parseInput nonce input)) m.
Proof.
  intros (l & Hl)%is_lookup_args Ha. apply holdsafe_bind. unfold parseInput. cbn [holdsafe_then]. cbv zeta. rewrite Hl. change (slice_get ("Lookup" :: l) 0) with (Ret "Lookup").
  cbn [mbind outcome_bind]. do 5 (rewrite decide_False by done). rewrite decide_True by done. case_decide; [done|].
  destruct (slice_get ("Lookup" :: l) 1) as [a1| |]; cbn [mbind outcome_bind]; [|done..]. destruct (drop_last a1) as [arg| |]; cbn [mbind outcome_bind]; [|done..].
  apply holdsafe_then_bind. eapply holdsafe_then_mono; [|by apply CallLookup_holdsafe]. done.
Qed.

Lemma CallDuplication_holdsafe o q m : DuplicationReq q = true → addr m = o → holdsafe_then o (CallDuplication q) m (λ _ m', addr m' = o).
Proof.
  intros Hq Ha. unfold CallDuplication, with_node. cbn [holdsafe_then]. destruct (slice_get (Successors (node (m_chord m))) 0) as [s| |] eqn:Hs; cbn [mbind outcome_bind]; [|done..].
  case_decide; cbn [mbind outcome_bind holdsafe_then m_chord node set_node]; [by rewrite addr_set_node|]. rewrite Hs. cbn [mbind outcome_bind].
  case_decide as Hd; cbn [mbind outcome_bind holdsafe_then m_chord node set_node]; [done|]. rewrite Hs. cbn [mbind outcome_bind holdsafe_then leaf].
  split; [done|]. split; [|done]. left. by rewrite <-Ha.
Qed.

Lemma adopt_loop_holdsafe o l m : addr m = o → holdsafe_then o (adopt_loop l) m (λ _ m', addr m' = o).
Proof.
  revert m. induction l as [|e l IH]; intros m Ha; cbn [adopt_loop holdsafe_then]; [done|]. cbv zeta.
  destruct (if os_Open _ _ then _ else _) as [content|]; [|by apply IH]. apply holdsafe_then_bind.
  eapply holdsafe_then_mono; [|by apply CallDuplication_holdsafe]. intros u m' Hm'. by apply IH.
Qed.

Lemma tick_dead_holdsafe o m : addr m = o → holdsafe o (ends (pbind (reassignDuplicatedToMe (FS := FS)) (λ _, with_node (λ n, Ret (set_Predecessor "X" n, PRet tt))))) m.
Proof.
  intros Ha. apply holdsafe_bind, holdsafe_then_bind. unfold reassignDuplicatedToMe. cbn [holdsafe_then]. cbv zeta. case_decide; [done|].
  eapply holdsafe_then_mono; [|by apply adopt_loop_holdsafe]. intros u m' Hm'. done.
Qed.

End Locks.

Arguments LNone {FS}.
Arguments mkLC {FS}.

(** ** The invariant *)

Section Invariant.
Context {FS : Type} `{FileSystem FS} `{Sha1} `{Aead}.
Variable r : nat.
Variable ident : string → Z.
Hypothesis r_pos : (0 < r)%nat.

Notation P := (prog (Machine FS) ChordReq ChordRep ChordTask).
Notation wfm o m := (node_wf r (ident o) o (node (m_chord m))).

(** Every section that returns keeps the node well formed, whatever the replies. *)
Fixpoint kept {A} (o : string) (p : P A) (Q : A → Prop) : Prop :=
  match p with
  | PRet a => Q a
  | PExit => True
  | PStep f => ∀ m, wfm o m → match f m with Ret (m', p') => wfm o m' ∧ kept o p' Q | _ => True end
  | PCall _ _ k => ∀ rep, rep_ok r rep → kept o (k rep) Q
  | PGo _ k => kept o k Q
  end.

Lemma kept_safe {A} o (p : P A) (Q : A → Prop) : node_safe r ident o p Q → kept o p Q.
Proof.
  unfold node_safe, safe. induction p as [a| |f IH|d q k IH|t k IH] using prog_rect'; cbn [wp kept]; try done.
  - intros Hp m Hm. specialize (Hp m Hm). specialize (IH m). destruct (f m) as [[m' p']| |]; [|done..]. destruct Hp as [Hm' Hp']. split; [done|by apply IH].
  - intros (_ & Hn & Hk) [rep|] Hrep; [|by apply IH]. apply IH, Hk. by apply Hrep.
  - intros [_ Hk]. by apply IH.
Qed.

Lemma kept_bind {A B} o (p : P A) (g : A → P B) (Q : B → Prop) : kept o p (λ a, kept o (g a) Q) → kept o (pbind p g) Q.
Proof.
  induction p as [a| |f IH|d q k IH|t k IH] using prog_rect'; cbn [pbind kept]; try done.
  - intros Hp m Hm. specialize (Hp m Hm). specialize (IH m). destruct (f m) as [[m' p']| |]; [|done..]. destruct Hp as [Hm' Hp']. split; [done|by apply IH].
  - intros Hk rep Hrep. by apply IH, Hk.
Qed.

Lemma kept_mono {A} o (p : P A) (Q Q' : A → Prop) : (∀ a, Q a → Q' a) → kept o p Q → kept o p Q'.
Proof.
  intros HQ. induction p as [a| |f IH|d q k IH|t k IH] using prog_rect'; cbn [kept]; auto.
  intros Hp m Hm. specialize (Hp m Hm). specialize (IH m). destruct (f m) as [[m' p']| |]; [|done..]. destruct Hp as [Hm' Hp']. split; [done|by apply IH].
Qed.

Lemma kept_ends {A} o (p : P A) : kept o p (λ _, True) → kept o (ends p) (rep_ok r).
Proof. intros Hp. apply kept_bind. eapply kept_mono; [|exact Hp]. by intros a _ rep [=]. Qed.

(** Code that changes nothing. *)
Fixpoint reads_only {A} (p : P A) : Prop :=
  match p with
  | PRet _ | PExit => True
  | PStep f => ∀ m, match f m with Ret (m', p') => m' = m ∧ reads_only p' | _ => True end
  | PCall _ _ k => ∀ rep, reads_only (k rep)
  | PGo _ k => reads_only k
  end.

Definition code_ok (o : string) (c : lcode) : Prop :=
  match c with
  | LSeg md p => kept o p (rep_ok r) ∧ (md = Unlocked → reads_only p) ∧ (md = Whole → ∀ m : Machine FS, addr m = o → holdsafe o p m)
  | LHeld p => kept o p (rep_ok r)
  | LTick p => kept o p (λ _, True)
  end.

(** Code of a goroutine that no caller waits for. *)
Definition top_code (c : lcode (FS := FS)) : Prop := match c with LSeg Whole _ | LHeld _ | LTick _ => True | _ => False end.

Fixpoint back_ok (b : lcont) : Prop :=
  match b with
  | LNone => True
  | LBack o h k b' => (∀ rep, rep_ok r rep → code_ok o (k rep)) ∧ (∀ rep, is_held (k rep) = h) ∧ (∀ rep, top_code (k rep) → b' = LNone) ∧
      (∀ o2 k2 b2, b' ≠ LBack o2 true k2 b2) ∧ back_ok b'
  end.

(** What holds of a holder's code on the machine it has. *)
Definition held_ok (ms : gmap string (Machine FS)) (o : string) (c : lcode) : Prop :=
  ∃ p, c = LHeld p ∧ ∀ m, ms !! o = Some m → holdsafe o p m.

(** A handler a holder on [o] waits for. *)
Definition handler_code (o d : string) (c : lcode (FS := FS)) : Prop :=
  ∃ md p, c = LSeg md p ∧ md ≠ Whole ∧ calls_le 0 p ∧ (md = Unlocked ∨ d ≠ o).

Record thread_inv (ms : gmap string (Machine FS)) (t : lthread) : Prop := {
  ti_code : code_ok (l_owner t) (l_code t);
  ti_back : back_ok (l_back t);
  ti_top : top_code (l_code t) → l_back t = LNone;
  ti_held : is_held (l_code t) = true → held_ok ms (l_owner t) (l_code t);
  ti_wait : ∀ o k b, l_back t = LBack o true k b → (∀ rep, held_ok ms o (k rep)) ∧ handler_code o (l_owner t) (l_code t)
}.

Record linv (c : lconfig) : Prop := {
  li_machines : ∀ o m, l_machines c !! o = Some m → wfm o m;
  li_threads : Forall (thread_inv (l_machines c)) (l_threads c);
  li_mutex : NoDup (all_holders (l_threads c))
}.

(** *** The code satisfies it *)

Lemma tick_rest_ok o alive : code_ok o (tick_rest alive).
Proof using r_pos.
  pose proof (kept_safe o _ _ (checkPredTick_safe r (ident o) o r_pos)) as Hk. destruct alive; cbn [tick_rest code_ok].
  - split; [|done]. apply kept_ends, kept_safe. apply safe_step. intros m Hm. cbv zeta. case_decide; [by do 2 eexists|].
    do 2 eexists; (split; [done|]); (split; [done|]). by apply reassign_loop_safe.
  - split; [|split; [done|intros _ m Hm; by apply tick_dead_holdsafe]]. apply kept_ends, kept_safe, safe_bind.
    apply (safe_unit (reply_ok r) (request_ok (ident o) o) _ reassignDuplicatedToMe).
    + apply safe_step. intros m Hm. cbv zeta. case_decide; [by do 2 eexists|]. do 2 eexists; (split; [done|]); (split; [done|]). by apply adopt_loop_safe.
    + intros _. apply safe_with_node. intros n Hn. do 2 eexists; split; [done|]. split; [by apply wf_set_Predecessor|done].
Qed.

Lemma serve_kept o q : kept o (serve q) (rep_ok r).
Proof using r_pos. apply kept_safe. apply (serve_safe r (ident o) o r_pos q). Qed.

Lemma set_node_id (m : Machine FS) : mkMachine (set_node (node (m_chord m)) (m_chord m)) (m_fs m) = m.
Proof. destruct m as [c fs]. by destruct c. Qed.

Lemma lserve_ok o q : code_ok o (lserve q).
Proof using r_pos.
  pose proof (serve_kept o q) as Hk. destruct q as [q|q|q|q|q|q|q]; cbn [lserve code_ok]; (split; [|split; try done]); try done.
  - intros _ m. cbn -[set_node]. split; [apply set_node_id|done].
  - apply kept_bind. eapply kept_mono; [|exact Hk]. intros rep Hrep. destruct (DuplicationReq q); [done|]. cbn [read_node with_node kept mbind outcome_bind]. done.
Qed.

Lemma lookup_kept o q : kept o (CallLookup q) (λ _, True).
Proof using r_pos.
  unfold CallLookup. apply kept_bind. eapply kept_mono; [|apply kept_safe, (resolveIdentifier_safe r (ident o) o r_pos)]. intros d _. cbn [kept].
  intros [[]|] _; try done. case_decide; [done|]. cbn [kept]. intros m Hm. by destruct (decrypt _ _) as [[]| |].
Qed.

(** A step of the command line keeps the node as it is. *)
Lemma parseInput_kept o nonce input : kept o (parseInput nonce input) (λ _, True).
Proof using r_pos.
  unfold parseInput. cbn [kept]. intros m Hm. cbv zeta. destruct (slice_get _ 0) as [cmd| |]; cbn [mbind outcome_bind]; [|done..].
  case_decide; [done|]. case_decide.
  { destruct (slice_get _ 1) as [a1| |]; cbn [mbind outcome_bind]; [|done..]. destruct (drop_last a1); cbn [mbind outcome_bind]; [|done..]. by case_decide. }
  case_decide; [done|]. case_decide; [by destruct (dump _)|]. case_decide.
  { case_decide; [done|]. destruct (slice_get _ 1) as [a1| |]; cbn [mbind outcome_bind]; [|done..]. destruct (drop_last a1); cbn [mbind outcome_bind]; [|done..].
    destruct (getFileContent _ _ _ _); [|done]. split; [done|]. apply kept_bind. eapply kept_mono; [|apply kept_safe; by apply CallStoreFile_safe]. done. }
  case_decide.
  { case_decide; [done|]. destruct (slice_get _ 1) as [a1| |]; cbn [mbind outcome_bind]; [|done..]. destruct (drop_last a1); cbn [mbind outcome_bind]; [|done..].
    split; [done|]. apply kept_bind. eapply kept_mono; [|apply lookup_kept]. done. }
  case_decide; [by destruct (dump _)|done].
Qed.

Lemma command_ok o nonce input : code_ok o (command nonce input).
Proof using r_pos.
  unfold command. pose proof (parseInput_kept o nonce input) as Hk. destruct (is_lookup input) eqn:Hl; cbn [code_ok].
  - split; [by apply kept_ends|]. split; [done|]. intros _ m Hm. by apply lookup_command_holdsafe.
  - split; [|done]. apply kept_bind. eapply kept_mono; [|exact Hk]. intros a _. cbn [read_node with_node kept mbind outcome_bind]. done.
Qed.

Lemma command_not_held nonce input : is_held (FS := FS) (command nonce input) = false.
Proof. unfold command. by destruct (is_lookup input). Qed.

Lemma lspontaneous_ok o c : lspontaneous c → code_ok o c ∧ is_held c = false.
Proof using r_pos.
  intros Hc. destruct Hc.
  - split; [|done]. split; [|done]. apply kept_ends, kept_safe. by apply CallStabilize_safe.
  - split; [|done]. split; [|done]. apply kept_ends, kept_safe. by apply FixFingers_safe.
  - split; [|done]. apply kept_safe. by apply CallCheckPred_safe.
  - split; [apply command_ok|apply command_not_held].
  - split; [|done]. split; [|done]. apply kept_ends, kept_safe. by apply CallJoin_safe.
Qed.

Lemma task_code_ok o t : code_ok o (LSeg Mixed (ends (task t))).
Proof using r_pos. split; [|done]. apply kept_ends, kept_safe. by apply task_ok. Qed.

(** The handlers of a holder's requests make no calls. *)
Lemma leaf_handler o d q : leaf q → d ≠ o ∨ lock_free q → handler_code o d (lserve q).
Proof.
  intros Hl Hd. destruct q as [q|q|q|q|q|q|q]; cbn [leaf lock_free lserve] in *; try done.
  - destruct Hd as [Hd|[]]. eexists _, _. split; [done|]. split; [done|]. split; [|by right]. intros m. cbn -[set_node]. by destruct (FindSuccessor _ _ _) as [[]| |].
  - destruct Hd as [Hd|[]]. eexists _, _. split; [done|]. split; [done|]. split; [|by right]. intros m. cbn -[store_local].
    destruct (store_local q m) as [[st err] m']. destruct err; cbn; rewrite Hl; done.
  - eexists _, _. split; [done|]. split; [done|]. split; [|by left]. intros m. done.
Qed.

(** *** Every step keeps it *)

Lemma held_ok_mono ms ms' o c : (∀ m, ms' !! o = Some m → ms !! o = Some m) → held_ok ms o c → held_ok ms' o c.
Proof. intros Hm (p & -> & Hp). exists p. split; [done|]. intros m ?%Hm. by apply Hp. Qed.

(** A thread does not see changes of machines whose mutex it does not hold. *)
Lemma thread_inv_frame ms ms' t : (∀ o m, o ∈ holders t → ms' !! o = Some m → ms !! o = Some m) → thread_inv ms t → thread_inv ms' t.
Proof.
  intros Hm [Hc Hb Ht Hh Hw]. split; try done.
  - intros Hheld. eapply held_ok_mono; [|by apply Hh]. intros m. apply Hm. unfold holders. destruct (l_code t); try done. by left.
  - intros o k b Hbk. destruct (Hw o k b Hbk) as [Hk Hhc]. split; [|done]. intros rep. eapply held_ok_mono; [|by apply Hk].
    intros m. apply Hm. unfold holders. rewrite Hbk. apply elem_of_app. right. by left.
Qed.

Lemma thread_inv_delete ms o t : thread_inv ms t → thread_inv (delete o ms) t.
Proof. apply thread_inv_frame. by intros o' m _ [_ ?]%lookup_delete_Some. Qed.

(** A waiting caller goes on. *)
Lemma resume_inv ms o h k b rep : back_ok (LBack o h k b) → (h = true → ∀ rep, held_ok ms o (k rep)) → rep_ok r rep →
  thread_inv ms (mkL o (k rep) b) ∧ holders (mkL o (k rep) b) = if h then [o] else [].
Proof.
  intros (Hk & Hh & Ht & Hn & Hb) Hheld Hrep. split.
  - split; cbn [l_owner l_code l_back]; [by apply Hk|done|by apply Ht| |by intros ? ? ? ?%Hn]. intros He. apply Hheld. by rewrite <-(Hh rep).
  - unfold holders. cbn [l_owner l_code l_back]. specialize (Hh rep). specialize (Ht rep). destruct (k rep) as [md p|p|p]; cbn [is_held] in Hh; subst h.
    + destruct b as [|o2 [] k2 b2]; [done| |done]. by destruct (Hn o2 k2 b2).
    + by rewrite Ht.
    + by rewrite Ht.
Qed.

(** A call leaves a caller that can go on. *)
Lemma call_back_ok ms o c b d q k : thread_inv ms (mkL o c b) → code_call c = Some (d, q, k) → back_ok (LBack o (is_held c) k b).
Proof.
  intros [Hc Hb Ht _ Hw]. cbn [l_owner l_code l_back] in *. intros Hcall.
  assert (Hno : ∀ o2 k2 b2, b ≠ LBack o2 true k2 b2).
  { intros o2 k2 b2 ->. destruct (Hw _ _ _ eq_refl) as [_ (md & p & -> & Hmd & Hle & _)]. destruct md, p; try done. }
  destruct c as [md p|p|p]; cbn [code_call] in Hcall.
  - assert (∃ k', p = PCall d q k' ∧ md ≠ Whole ∧ k = λ rep, LSeg md (k' rep)) as (k' & -> & Hmd & ->).
    { destruct md, p; try done; injection Hcall as <- <- <-; by eexists. }
    destruct Hc as (Hk & Hro & _). split; [|split; [done|split; [by destruct md|done]]]. intros rep Hrep. split; [by apply Hk|]. split; [|done]. intros Hu. by apply (Hro Hu).
  - destruct p; try done. injection Hcall as <- <- <-. split; [by intros rep; apply Hc|]. split; [done|]. split; [|done]. intros _ _. by apply Ht.
  - destruct p; try done. injection Hcall as <- <- <-. split; [by intros rep; apply Hc|]. split; [done|]. split; [|done]. intros _ _. by apply Ht.
Qed.

Lemma call_held ms o c b d q k : thread_inv ms (mkL o c b) → code_call c = Some (d, q, k) → is_held c = true →
  (∀ rep, held_ok ms o (k rep)) ∧ (is_Some (ms !! o) → leaf q ∧ (d ≠ o ∨ lock_free q)).
Proof.
  intros Hi Hcall Hh. destruct (ti_held _ _ Hi Hh) as (p & Hp & Hs). cbn [l_code l_owner] in *. subst c. cbn [code_call] in Hcall.
  destruct p; try done. injection Hcall as <- <- <-. split.
  - intros rep. eexists. split; [done|]. intros m Hm. by apply (Hs m Hm).
  - intros [m Hm]. destruct (Hs m Hm) as (Hl & Hd & _). done.
Qed.

(** An access to the machine. *)
Lemma bind_step {A} (x : outcome (Machine FS * A)) (g : A → lcode (FS := FS)) m' c' : ('(m1, p1) ← x; Ret (m1, g p1)) = Ret (m', c') → ∃ p1, x = Ret (m', p1) ∧ c' = g p1.
Proof. destruct x as [[m1 p1]| |]; cbn; [|done..]. intros [= <- <-]. by exists p1. Qed.

Lemma step_inv_code ms o c b m m' c' : (∀ o m, ms !! o = Some m → wfm o m) → ms !! o = Some m → thread_inv ms (mkL o c b) → code_step c m = Some (Ret (m', c')) →
  wfm o m' ∧ thread_inv (<[o := m']> ms) (mkL o c' b) ∧ (is_held c = false → takes_mutex c = false → m' = m) ∧
  (holders (mkL o c' b) = holders (mkL o c b) ∨ takes_mutex c = true ∧ holders (mkL o c b) = [] ∧ holders (mkL o c' b) = [o]).
Proof.
  intros Hms Hm Hi Hstep. pose proof (Hms o m Hm) as Hwf. destruct Hi as [Hc Hb Ht Hh Hw]. cbn [l_owner l_code l_back] in *.
  destruct c as [md p|p|p].
  - destruct (decide (md = Whole)) as [->|Hmd].
    + cbn [code_step] in Hstep. injection Hstep as <- <-. specialize (Ht I). subst b. destruct Hc as (Hk & _ & Hs). split; [done|].
      split; [split; [done..| |done]|by split; [|right]]. intros _. exists p. split; [done|]. cbn [l_owner]. intros m2. rewrite lookup_insert_eq. intros [= <-]. apply Hs; [done|apply Hwf].
    + assert (∃ f p1, p = PStep f ∧ f m = Ret (m', p1) ∧ c' = LSeg md p1) as (f & p1 & -> & Hf & ->).
      { destruct md; try done; (destruct p; try done); cbn [code_step] in Hstep; injection Hstep as (p1 & Hf & ->)%bind_step; by eexists _, _. }
      destruct Hc as (Hk & Hro & _). specialize (Hk m Hwf). rewrite Hf in Hk. destruct Hk as [Hm' Hk]. split; [done|].
      assert (Hu : md = Unlocked → m' = m ∧ reads_only p1) by (intros Hmu; specialize (Hro Hmu m); by rewrite Hf in Hro).
      split; [|split; [intros _; by destruct md; try done; intros _; apply Hu|by left]].
      split; cbn [l_owner l_code l_back]; [|done|by destruct md|done|].
      * split; [done|]. split; [|done]. intros Hmu. by apply Hu.
      * intros o2 k2 b2 ->. destruct (Hw o2 k2 b2 eq_refl) as [Hk2 (md' & p' & [= <- <-] & Hmd' & Hle & Hor)]. split.
        -- intros rep. eapply held_ok_mono; [|by apply Hk2]. intros m2. destruct (decide (o = o2)) as [->|Hne]; [|by rewrite lookup_insert_ne].
           rewrite lookup_insert_eq. intros [= <-]. destruct Hor as [Hmu|]; [|done]. by destruct (Hu Hmu) as [-> _].
        -- eexists _, _. split; [done|]. split; [done|]. split; [|done]. cbn [calls_le] in Hle. specialize (Hle m). by rewrite Hf in Hle.
  - destruct (Hh eq_refl) as (p' & [= <-] & Hs). specialize (Ht I). subst b. destruct p as [| |f| |]; try done. cbn [code_step] in Hstep. injection Hstep as (p1 & Hf & ->)%bind_step.
    specialize (Hc m Hwf). rewrite Hf in Hc. destruct Hc as [Hm' Hk]. split; [done|]. split; [|split; [done|by left]]. split; [done..| |done].
    intros _. exists p1. split; [done|]. cbn [l_owner]. intros m2. rewrite lookup_insert_eq. intros [= <-]. specialize (Hs m Hm). cbn [holdsafe] in Hs. by rewrite Hf in Hs.
  - specialize (Ht I). subst b. destruct p as [| |f| |]; try done. cbn [code_step] in Hstep. injection Hstep as (p1 & Hf & ->)%bind_step.
    specialize (Hc m Hwf). rewrite Hf in Hc. destruct Hc as [Hm' Hk]. split; [done|]. split; [|split; [done|by left]]. by split.
Qed.

Lemma lserve_not_top q : ¬ top_code (lserve q).
Proof. intros Ht. destruct q; exact Ht. Qed.

Lemma go_inv ms o c b t c' : thread_inv ms (mkL o c b) → code_go c = Some (t, c') → thread_inv ms (mkL o c' b) ∧ holders (mkL o c' b) = holders (mkL o c b).
Proof.
  intros [Hc Hb Ht Hh Hw] Hgo. cbn [l_owner l_code l_back] in *. destruct c as [md p|p|p]; cbn [code_go] in Hgo.
  - assert (∃ k, p = PGo t k ∧ md ≠ Whole ∧ c' = LSeg md k) as (k & -> & Hmd & ->) by (destruct md, p; try done; injection Hgo as <- <-; by eexists).
    split; [|done]. destruct Hc as (Hk & Hro & _). split; cbn [l_owner l_code l_back]; [|done|by destruct md|done|].
    + split; [done|]. split; [|done]. intros Hmu. by apply Hro.
    + intros o2 k2 b2 ->. destruct (Hw o2 k2 b2 eq_refl) as [Hk2 (md' & p' & [= <- <-] & Hmd' & Hle & Hor)]. split; [done|]. by eexists _, _.
  - destruct p; try done. injection Hgo as <- <-. split; [|done]. specialize (Ht I). subst b. destruct (Hh eq_refl) as (p' & [= <-] & Hs). split; [done..| |done].
    intros _. by eexists.
  - destruct p; try done. injection Hgo as <- <-. split; [|done]. specialize (Ht I). subst b. by split.
Qed.

(** What a step of a thread leaves. *)
Record step_inv (ms : gmap string (Machine FS)) (lk : string → Prop) (t : lthread (FS := FS)) (ms' : gmap string (Machine FS)) (ts' : list lthread) : Prop := {
  si_machines : ∀ o m, ms' !! o = Some m → wfm o m;
  si_threads : Forall (thread_inv ms') ts';
  si_holders : all_holders ts' ⊆+ holders t ∨ ∃ o, all_holders ts' = [o] ∧ ¬ lk o;
  si_frame : ∀ o m, ms' !! o = Some m → ms !! o = Some m ∨ o ∈ holders t ∨ ¬ lk o
}.

Lemma all_holders_one (t : lthread (FS := FS)) : all_holders [t] = holders t.
Proof. unfold all_holders. cbn. by rewrite app_nil_r. Qed.

(** Steps that leave the machines as they are. *)
Lemma same_machines ms lk t ts' : (∀ o m, ms !! o = Some m → wfm o m) → Forall (thread_inv ms) ts' → all_holders ts' ⊆+ holders t → step_inv ms lk t ms ts'.
Proof. intros Hms Hts Hh. split; [done|done|by left|]. by left. Qed.

Lemma gone_machine ms lk t o : (∀ o m, ms !! o = Some m → wfm o m) → thread_inv ms t → step_inv ms lk t (delete o ms) [t].
Proof.
  intros Hms Ht. split.
  - intros o' m [_ ?]%lookup_delete_Some. by apply Hms.
  - apply Forall_singleton. by apply thread_inv_delete.
  - left. by rewrite all_holders_one.
  - intros o' m [_ ?]%lookup_delete_Some. by left.
Qed.

Lemma rep_ok_None : rep_ok r None.
Proof. by intros rep [=]. Qed.

Lemma wait_held ms t o h k b : thread_inv ms t → l_back t = LBack o h k b → h = true → ∀ rep, held_ok ms o (k rep).
Proof. intros Ht Hb ->. by apply (ti_wait _ _ Ht o k b Hb). Qed.

(** A reply, or the failure of a call, to the caller that waits for a thread. *)
Lemma reply_inv ms lk d c o h k b rep : (∀ o m, ms !! o = Some m → wfm o m) → thread_inv ms (mkL d c (LBack o h k b)) → rep_ok r rep →
  step_inv ms lk (mkL d c (LBack o h k b)) ms [mkL o (k rep) b].
Proof.
  intros Hms Ht Hrep. destruct (resume_inv ms o h k b rep) as [Hi Hh]; [by apply (ti_back _ _ Ht)|by eapply wait_held|done|].
  apply same_machines; [done|by apply Forall_singleton|]. rewrite all_holders_one, Hh. unfold holders. cbn [l_back l_code].
  destruct h; [by apply submseteq_inserts_l|apply submseteq_nil_l].
Qed.

Lemma fail_inv ms lk o c b d q k : (∀ o m, ms !! o = Some m → wfm o m) → thread_inv ms (mkL o c b) → code_call c = Some (d, q, k) →
  step_inv ms lk (mkL o c b) ms [mkL o (k None) b].
Proof.
  intros Hms Ht Hcall. destruct (resume_inv ms o (is_held c) k b None) as [Hi Hh]; [by eapply call_back_ok|by eapply call_held|apply rep_ok_None|].
  apply same_machines; [done|by apply Forall_singleton|]. rewrite all_holders_one, Hh. unfold holders. cbn [l_back l_code l_owner].
  destruct c; cbn [is_held]; [apply submseteq_nil_l| |apply submseteq_nil_l]. by apply submseteq_inserts_r.
Qed.

Lemma trun_inv ms lk t ms' ts' : (∀ o m, ms !! o = Some m → wfm o m) → thread_inv ms t → trun ms lk t ms' ts' → step_inv ms lk t ms' ts'.
Proof using r_pos.
  intros Hms Ht Hst. destruct Hst as [o c b m m' c' Hm Hlk Hcs|o c b m x _ _ _ _|o c b _ _|o rep b|o alive b|o c b d q k Ho Hd Hcall|o c b d q k Hd Hcall|d md rep o h k b Hmd|d md rep Hmd|o c b g c' Hgo|o c Ho|o c o' h k b Ho].
  - destruct (step_inv_code ms o c b m m' c' Hms Hm Ht Hcs) as (Hm' & Ht' & Hsame & Hh). split.
    + intros o2 m2. rewrite lookup_insert_Some. intros [[<- <-]|[_ ?]]; [done|by apply Hms].
    + by apply Forall_singleton.
    + rewrite all_holders_one. destruct Hh as [-> |(Htm & _ & ->)]; [by left|right; exists o; auto].
    + intros o2 m2. rewrite lookup_insert_Some. intros [[<- <-]|[_ ?]]; [|by left].
      destruct (takes_mutex c) eqn:Htm; [right; right; auto|]. destruct c as [md p|p|p]; [|right; left; by left|done]. left. by rewrite Hsame.
  - by apply gone_machine.
  - by apply gone_machine.
  - pose proof (ti_top _ _ Ht I) as Hb. cbn [l_back] in Hb. subst b. apply same_machines; [done| |rewrite all_holders_one; apply submseteq_nil_l].
    apply Forall_singleton. split; try done. split; [apply (ti_code _ _ Ht)|done].
  - pose proof (ti_top _ _ Ht I) as Hb. cbn [l_back] in Hb. subst b. apply same_machines; [done| |rewrite all_holders_one; by destruct alive].
    apply Forall_singleton. split; [apply tick_rest_ok|done..|by destruct alive|done].
  - apply same_machines; [done| |].
    + apply Forall_singleton. split; cbn [l_owner l_code l_back]; [apply lserve_ok|by eapply call_back_ok|by intros ?%lserve_not_top|by destruct q|].
      intros o2 k2 b2 [= <- Hh <- <-]. destruct (call_held ms o c b d q k Ht Hcall Hh) as [Hk Hl]. destruct (Hl Ho) as [Hl1 Hl2]. split; [done|by apply leaf_handler].
    + rewrite all_holders_one. unfold holders. cbn [l_owner l_code l_back].
      assert (is_held (lserve q) = false) as Hq by (by destruct q). destruct (lserve q); [|done|]; (destruct c; cbn [is_held app]; [apply submseteq_nil_l|apply submseteq_skip, submseteq_nil_l|apply submseteq_nil_l]).
  - by eapply fail_inv.
  - apply reply_inv; [done|done|]. apply (ti_code _ _ Ht).
  - apply same_machines; [done|constructor|apply submseteq_nil_l].
  - destruct (go_inv ms o c b g c' Ht Hgo) as [Ht' Hh]. apply same_machines; [done| |].
    + apply Forall_cons_2; [done|]. apply Forall_singleton. split; try done. apply task_code_ok.
    + unfold all_holders. cbn [fmap list_fmap concat]. by rewrite Hh, !app_nil_r.
  - apply same_machines; [done|constructor|apply submseteq_nil_l].
  - apply reply_inv; [done|done|apply rep_ok_None].
Qed.

Lemma tmay_inv ms lk t ts' : (∀ o m, ms !! o = Some m → wfm o m) → thread_inv ms t → tmay ms t ts' → step_inv ms lk t ms ts'.
Proof using r_pos.
  intros Hms Ht Hst. destruct Hst as [o c b m c' Hru Hm Hcs|o c b d q k Hcall|d c o h k b].
  - destruct (step_inv_code ms o c b m m c' Hms Hm Ht Hcs) as (_ & Ht' & _ & Hh). rewrite insert_id in Ht' by done.
    apply same_machines; [done|by apply Forall_singleton|]. rewrite all_holders_one. destruct Hh as [-> |(_ & _ & Hh)]; [done|].
    destruct c as [[] p|p|p]; try done; destruct p; try done; cbn [code_step] in Hcs; injection Hcs as (p1 & _ & ->)%bind_step; by unfold holders in *; cbn in *.
  - by eapply fail_inv.
  - destruct (resume_inv ms o h k b None) as [Hi Hh]; [by apply (ti_back _ _ Ht)|by eapply wait_held|apply rep_ok_None|].
    apply same_machines; [done| |].
    + apply Forall_cons_2; [done|]. apply Forall_singleton. destruct Ht as [Hc _ Htop Hheld _]. by split.
    + unfold all_holders. cbn [fmap list_fmap concat]. rewrite Hh, app_nil_r. unfold holders. cbn [l_owner l_code l_back]. rewrite app_nil_r.
      destruct h; cbn [app]; [|by rewrite app_nil_r]. rewrite Permutation_app_comm. done.
Qed.

(** *** The whole group *)

Lemma holders_NoDup {A} (l k : list A) : l ⊆+ k → NoDup k → NoDup l.
Proof. intros [k' ->]%submseteq_Permutation Hnd. by apply NoDup_app in Hnd as [? _]. Qed.

Lemma all_holders_app (ts1 ts2 : list (lthread (FS := FS))) : all_holders (ts1 ++ ts2) = (all_holders ts1 ++ all_holders ts2)%list.
Proof. unfold all_holders. by rewrite fmap_app, concat_app. Qed.

Lemma holders_elem (t : lthread (FS := FS)) ts o : t ∈ ts → o ∈ holders t → o ∈ all_holders ts.
Proof. intros Ht Ho. unfold all_holders. apply list_elem_of_In, in_concat. exists (holders t). split; apply list_elem_of_In; [|done]. by apply list_elem_of_fmap_2. Qed.

Lemma step_inv_linv ms ts1 t ts2 ms' ts' : linv (mkLC ms (ts1 ++ t :: ts2)) → step_inv ms (λ o, locked o (ts1 ++ t :: ts2)) t ms' ts' → linv (mkLC ms' (ts1 ++ ts' ++ ts2)).
Proof.
  intros [Hms Hts Hnd] [Hms' Hts' Hh Hf]. cbn [l_machines l_threads] in *. rewrite all_holders_app in Hnd. unfold all_holders at 2 in Hnd. cbn [fmap list_fmap concat] in Hnd. fold (all_holders ts2) in Hnd.
  apply Forall_app in Hts as [Hts1 Hts2]. apply Forall_cons in Hts2 as [Ht Hts2].
  assert (Hother : ∀ t', (t' ∈ ts1 ∨ t' ∈ ts2) → thread_inv ms t' → thread_inv ms' t').
  { intros t' Hin. apply thread_inv_frame. intros o m Ho Hm. destruct (Hf o m Hm) as [?|[Hot|Hno]]; [done| |].
    - exfalso. destruct Hin as [Hin|Hin]; pose proof (holders_elem t' _ o Hin Ho) as Hall; apply NoDup_app in Hnd as (_ & Hd1 & Hnd2).
      + apply (Hd1 o Hall). apply elem_of_app. by left.
      + apply NoDup_app in Hnd2 as (_ & Hd2 & _). by apply (Hd2 o Hot).
    - exfalso. apply Hno. eapply holders_elem; [|exact Ho]. rewrite elem_of_app, elem_of_cons. tauto. }
  split; cbn [l_machines l_threads]; [done| |].
  - rewrite !Forall_app. rewrite !Forall_forall in *. split; [|split]; [|done|]; intros t' Hin; apply Hother; auto.
  - rewrite !all_holders_app. destruct Hh as [Hsub|(o & -> & Hno)].
    + eapply holders_NoDup; [|exact Hnd]. apply submseteq_app; [done|]. by apply submseteq_app.
    + assert (o ∉ all_holders ts1 ∧ o ∉ all_holders ts2) as [Hn1 Hn2].
      { unfold locked in Hno. rewrite all_holders_app in Hno. unfold all_holders at 2 in Hno. cbn [fmap list_fmap concat] in Hno. fold (all_holders ts2) in Hno. rewrite !elem_of_app in Hno. tauto. }
      apply NoDup_app in Hnd as (Hnd1 & Hd1 & (_ & _ & Hnd2)%NoDup_app). apply NoDup_app. split; [done|]. split.
      * intros x Hx. cbn [app]. rewrite elem_of_cons. intros [-> |Hx2]; [done|]. apply (Hd1 x Hx). rewrite elem_of_app. by right.
      * cbn [app]. apply NoDup_cons. done.
Qed.

Lemma lstep_inv c c' : linv c → lstep c c' → linv c'.
Proof using r_pos.
  intros Hi Hst. destruct Hst as [c c' Hrun|ms ts1 t ts2 ts' Hmay|ms ts o c Ho Hc|ms ts o].
  - destruct Hrun as [ms ts1 t ts2 ms' ts' Hr]. eapply step_inv_linv; [done|]. apply trun_inv; [apply Hi| |done].
    destruct Hi as [_ Hts _]. rewrite Forall_forall in Hts. apply Hts. cbn. rewrite elem_of_app. right. by left.
  - eapply step_inv_linv; [done|]. apply tmay_inv; [apply Hi| |done].
    destruct Hi as [_ Hts _]. rewrite Forall_forall in Hts. apply Hts. cbn. rewrite elem_of_app. right. by left.
  - destruct Hi as [Hms Hts Hnd]. cbn [l_machines l_threads] in *. split; cbn [l_machines l_threads]; [done| |].
    + destruct (lspontaneous_ok o c Hc) as [Hok Hnh]. apply Forall_cons_2; [|done].
      split; cbn [l_owner l_code l_back lbackground]; [done|done|done|by rewrite Hnh|done].
    + destruct (lspontaneous_ok o c Hc) as [_ Hnh]. unfold all_holders in *. cbn [fmap list_fmap concat]. unfold holders at 1. cbn [lbackground l_code l_back]. by destruct c.
  - destruct Hi as [Hms Hts Hnd]. cbn [l_machines l_threads] in *. split; cbn [l_machines l_threads]; [|by eapply Forall_impl; [done|]; intros t; apply thread_inv_delete|done].
    intros o' m [_ ?]%lookup_delete_Some. by apply Hms.
Qed.

(** *** Progress *)

(** The call, section or end a piece of code is at. *)
Lemma section_progress ms (lk : string → Prop) o c b m x : ms !! o = Some m → (takes_mutex c = true → ¬ lk o) → code_step c m = Some x → ∃ ms' ts', trun ms lk (mkL o c b) ms' ts'.
Proof.
  intros Hm Hlk Hc. destruct x as [[m' c']| |]; [by eexists _, _; eapply tr_step|by eexists _, _; eapply tr_die; eauto|by eexists _, _; eapply tr_die; eauto].
Qed.

Lemma call_progress ms (lk : string → Prop) o c b d q k : is_Some (ms !! o) → code_call c = Some (d, q, k) → ∃ ms' ts', trun ms lk (mkL o c b) ms' ts'.
Proof. intros Ho Hc. destruct (ms !! d) eqn:Hd; eexists _, _; [eapply tr_call; [done|by rewrite Hd|done]|by eapply tr_unreachable]. Qed.

(** A thread that cannot run needs the mutex of its node, and it is taken. *)
Lemma thread_progress ms (lk : string → Prop) t : (takes_mutex (l_code t) = true → ¬ lk (l_owner t)) → ∃ ms' ts', trun ms lk t ms' ts'.
Proof.
  destruct t as [o c b]. cbn [l_code l_owner]. intros Hlk. destruct (ms !! o) as [m|] eqn:Hm; [|destruct b; eexists _, _; by constructor].
  assert (Ho : is_Some (ms !! o)) by (by rewrite Hm). destruct c as [md p|p|p].
  - destruct (decide (md = Whole)) as [->|Hmd]; [by eapply section_progress|].
    destruct p as [rep| |f|d q k|t k]; [destruct b; eexists _, _; by constructor|eexists _, _; apply tr_exit; [done|by destruct md]|..].
    + eapply section_progress; [done|done|by destruct md].
    + eapply call_progress; [done|by destruct md].
    + eexists _, _. apply tr_go. by destruct md.
  - destruct p as [rep| |f|d q k|t k]; [eexists _, _; apply tr_release|eexists _, _; by apply tr_exit|by eapply section_progress|by eapply call_progress|eexists _, _; by apply tr_go].
  - destruct p as [rep| |f|d q k|t k]; [eexists _, _; apply tr_tick|eexists _, _; by apply tr_exit|by eapply section_progress|by eapply call_progress|eexists _, _; by apply tr_go].
Qed.

Lemma run_of_thread ms ts t ms' ts' : t ∈ ts → trun ms (λ o, locked o ts) t ms' ts' → ∃ c', run (mkLC ms ts) c'.
Proof. intros (ts1 & ts2 & ->)%list_elem_of_split Hr. eexists. by apply run_thread. Qed.

#[local] Instance locked_dec o (ts : list (lthread (FS := FS))) : Decision (locked o ts).
Proof. unfold locked. apply _. Defined.

(** A thread that waits for a mutex that is taken. *)
Definition blocked (ts : list (lthread (FS := FS))) (t : lthread (FS := FS)) : Prop := takes_mutex (l_code t) = true ∧ locked (l_owner t) ts.

#[local] Instance blocked_dec ts t : Decision (blocked ts t).
Proof. unfold blocked. apply _. Defined.

(** Some thread can run, or all are blocked. *)
Lemma runs_or_blocked c : (∃ c', run c c') ∨ Forall (blocked (l_threads c)) (l_threads c).
Proof.
  destruct c as [ms ts]. cbn [l_threads]. destruct (decide (Forall (blocked ts) ts)) as [?|Hno]; [by right|left].
  apply not_Forall_Exists, Exists_exists in Hno as (t & Ht & Hb); [|apply _].
  destruct (thread_progress ms (λ o, locked o ts) t) as (ms' & ts' & Hr); [intros Htm Hl; by apply Hb|]. by eapply run_of_thread.
Qed.

Lemma all_holders_elem (ts : list (lthread (FS := FS))) o : o ∈ all_holders ts → ∃ t, t ∈ ts ∧ o ∈ holders t.
Proof. unfold all_holders. intros (l & Hl & Ho)%list_elem_of_In%in_concat. apply list_elem_of_In in Hl, Ho. apply list_elem_of_fmap in Hl as (t & -> & Ht). by exists t. Qed.

Lemma blocked_deadlocked c : linv c → l_threads c ≠ [] → Forall (blocked (l_threads c)) (l_threads c) → deadlocked c.
Proof.
  intros Hi Hne Hbl. rewrite Forall_forall in Hbl. split.
  - destruct c as [ms [|t ts]]; [done|]. exists (l_owner t). apply (Hbl t). by left.
  - intros o (t & Ht & Ho)%all_holders_elem. destruct (Hbl t Ht) as [Htm Hl].
    assert (Hti : thread_inv (l_machines c) t) by (destruct Hi as [_ Hts _]; rewrite Forall_forall in Hts; by apply Hts).
    unfold holders in Ho. apply elem_of_app in Ho as [Ho|Ho]; [destruct (l_code t); try discriminate Htm; by apply elem_of_nil in Ho|].
    destruct (l_back t) as [|o1 [] k b] eqn:Hb; [by apply elem_of_nil in Ho| |by apply elem_of_nil in Ho]. apply list_elem_of_singleton in Ho. subst o1.
    destruct (ti_wait _ _ Hti o k b Hb) as [_ (md & p & Hc & _ & _ & Hor)]. rewrite Hc in Htm. exists (l_owner t). split; [by destruct Hor as [->|?]|].
    split; [|done]. by exists t, k, b.
Qed.
End Invariant.

(** A group of well-formed nodes in which no goroutine runs yet. *)
Definition quiet {FS} (r : nat) (ident : string → Z) (c : lconfig (FS := FS)) : Prop :=
  l_threads c = [] ∧ ∀ o m, l_machines c !! o = Some m → node_wf r (ident o) o (node (m_chord m)).

Lemma quiet_inv {FS} `{FileSystem FS} `{Sha1} `{Aead} r ident (c c' : lconfig (FS := FS)) : (0 < r)%nat → quiet r ident c → rtc lstep c c' → linv r ident c'.
Proof.
  intros Hr [Hts Hms] Hst. assert (Hc : linv r ident c) by (split; rewrite ?Hts; [done|constructor..]). clear Hts Hms.
  induction Hst as [|x y z Hxy _ IH]; [done|]. apply IH. by eapply lstep_inv.
Qed.

(** C11 (when nodes block each other).  Started from a group of well-formed nodes, under
    every interleaving of timers, commands, handlers, lost messages and crashes: in
    every state with a goroutine left some goroutine can take a step, except when every
    mutex that is taken is held by a Lookup or by the adoption of replicated files that
    waits for a handler on another node whose mutex is taken too.  So a block needs two
    nodes that keep their mutex during a call: while at most one node does, the group
    goes on. *)
Theorem chord_blocks_only_in_circles {FS : Type} `{FileSystem FS} `{Sha1} `{Aead} (r : nat) (ident : string → Z) (c0 c : lconfig (FS := FS)) :
  (0 < r)%nat → quiet r ident c0 → rtc lstep c0 c → l_threads c ≠ [] →
  (∃ c', run c c') ∨ deadlocked c ∧ ∃ o1 o2, o1 ≠ o2 ∧ locked o1 (l_threads c) ∧ locked o2 (l_threads c) ∧ waits c o1 o2.
Proof.
  intros Hr Hq Hst Hne. destruct (runs_or_blocked c) as [?|Hbl]; [by left|right].
  assert (Hd : deadlocked c) by (eapply blocked_deadlocked; [by eapply quiet_inv|done|done]). split; [done|].
  destruct Hd as [[o Ho] Hall]. destruct (Hall o Ho) as (o' & Hno & Hw & Ho'). by exists o, o'.
Qed.

(** ** Lookups that block each other *)

Section Block.
Context {FS : Type} `{FileSystem FS} `{Sha1} `{Aead}.

(** A step that leaves the machine as it is. *)
Lemma run_same (ms : gmap string (Machine FS)) o c b m c' ts : ms !! o = Some m → (takes_mutex c = true → ¬ locked o (mkL o c b :: ts)) →
  code_step c m = Some (Ret (m, c')) → lstep (mkLC ms (mkL o c b :: ts)) (mkLC ms (mkL o c' b :: ts)).
Proof.
  intros Hm Hlk Hc. apply lstep_run. pose proof (tr_step ms (λ o', locked o' (mkL o c b :: ts)) o c b m m c' Hm Hlk Hc) as Ht.
  rewrite insert_id in Ht by done. exact (run_thread ms [] _ ts ms [_] Ht).
Qed.

(** A goroutine for which a Lookup of [file] on [o] waits that has taken the mutex: the
    handler of [FindSuccessor] on [s], not yet in its critical section. *)
Definition asking (o file s : string) (t : lthread (FS := FS)) : Prop :=
  ∃ k, t = mkL s (lserve (RFindSuccessor (mkFindRequest (hashString file) s))) (LBack o true k LNone).

Lemma asking_holders o file s t : asking o file s t → holders t = [o].
Proof. by intros [k ->]. Qed.

(** Node [o] cannot find the owner of [file] itself and asks [s]. *)
Definition must_ask (ms : gmap string (Machine FS)) (o file s : string) : Prop :=
  no_char " " file = true ∧
  ∃ m resp, ms !! o = Some m ∧ addr m = o ∧ find (node (m_chord m)) (hashString file) Response0 = Ret (PASSALONG, resp) ∧ r_NodeAddress resp = s ∧ s ≠ o.

(** The line a user types. *)
Definition lookup_line (file : string) : string := "Lookup" +:+ String " " (file +:+ nl).

Lemma lookup_line_args file : no_char " " file = true → Split " "%char (lookup_line file) = ["Lookup"; file +:+ nl].
Proof. intros Hf. by apply Split_command. Qed.

(** What [parseInput] does with it. *)
Lemma lookup_line_step nonce file m : no_char " " file = true →
  code_step (LHeld (ends (parseInput nonce (lookup_line file)))) m =
  Some (Ret (m, LHeld (ends (pbind (CallLookup (mkRetreiveFileRequest (hashString file) file)) (λ rep, PRet (CmdLooked (printHash (hashString file)) rep)))))).
Proof.
  intros Hf. unfold ends, parseInput. cbn [pbind code_step]. cbv zeta. rewrite lookup_line_args by done. change (slice_get ["Lookup"; file +:+ nl] 0) with (Ret "Lookup").
  change (slice_get ["Lookup"; file +:+ nl] 1) with (Ret (file +:+ nl)). cbn [mbind outcome_bind]. do 5 (rewrite decide_False by done). rewrite decide_True by done.
  rewrite decide_False by (by intros []). unfold nl. rewrite drop_last_app. reflexivity.
Qed.

(** The command takes the mutex, looks for the file and calls [s]. *)
Lemma lookup_asks ms ts o file s : must_ask ms o file s → is_Some (ms !! s) → o ∉ all_holders ts → ∃ t, asking o file s t ∧ rtc lstep (mkLC ms ts) (mkLC ms (t :: ts)).
Proof.
  intros (Hfile & m & resp & Hm & Ha & Hf & Hs & Hne) Hms Hno. assert (Hna : s ≠ NodeAddress (node (m_chord m))) by (by rewrite <-Ha in Hne).
  eexists. split; [eexists; reflexivity|]. eapply rtc_l; [apply (lstep_start ms ts o); [by rewrite Hm|apply (lsp_command None (lookup_line file))]|].
  unfold lbackground, command. assert (is_lookup (lookup_line file) = true) as -> by (unfold is_lookup; rewrite lookup_line_args by done; done).
  eapply rtc_l; [eapply (run_same ms o _ _ m); [done| |reflexivity]; intros _; unfold locked, all_holders; cbn; exact Hno|].
  eapply rtc_l; [eapply (run_same ms o _ _ m); [done|done|by apply lookup_line_step]|].
  unfold CallLookup, resolveIdentifier, ends.
  eapply rtc_l; [eapply (run_same ms o _ _ m); [done|done|]|].
  { cbn [pbind with_node code_step rf_FileIdentifier]. rewrite Hf. cbn [mbind outcome_bind]. rewrite (decide_False (P := PASSALONG ≠ PASSALONG)) by (by intros ?).
    rewrite Hs, (decide_False (P := s = _)) by done. cbn [mbind outcome_bind]. rewrite set_node_id. reflexivity. }
  eapply rtc_l; [eapply (run_same ms o _ _ m); [done|done|]|].
  { cbn [resolve_loop pbind read_node with_node code_step mbind outcome_bind QueryNodeAddress]. rewrite (decide_False (P := s = _)) by done. rewrite set_node_id. reflexivity. }
  eapply rtc_l; [eapply (run_same ms o _ _ m); [done|done|]|].
  { cbn [CallFindSuccessor pbind read_node with_node code_step mbind outcome_bind QueryNodeAddress]. rewrite (decide_False (P := s = _)) by done. rewrite set_node_id. reflexivity. }
  apply rtc_once, lstep_run. apply (run_thread ms [] _ ts ms [_]). cbn [pbind]. eapply tr_call; [by rewrite Hm|done|reflexivity].
Qed.

(** Threads that all wait for a mutex that is taken. *)
Lemma blocked_stuck (ms : gmap string (Machine FS)) ts :
  (∀ t, t ∈ ts → is_Some (ms !! l_owner t) ∧ locked (l_owner t) ts ∧ ∃ q, l_code t = LSeg Locked (serve (RFindSuccessor q))) → ∀ c', ¬ run (mkLC ms ts) c'.
Proof.
  intros Hall c' Hrun. inversion Hrun as [ms0 ts1 t ts2 ms' ts' Hr Heq]. subst. destruct (Hall t) as ([m Hm] & Hl & q & Hc); [rewrite elem_of_app; right; by left|].
  destruct t as [o c b]. cbn [l_owner l_code] in *. subst c. inversion Hr; subst; try discriminate; try congruence; auto.
  all: match goal with Hlk : takes_mutex _ = true → _ |- _ => exact (Hlk eq_refl Hl) end.
Qed.

Lemma lookups_reach_block (ms : gmap string (Machine FS)) (asks : list (string * string * string)) :
  asks ≠ [] → NoDup ((λ a, a.1.1) <$> asks) → (∀ o q s, (o, q, s) ∈ asks → must_ask ms o q s ∧ s ∈ (λ a, a.1.1) <$> asks) →
  ∃ c, rtc lstep (mkLC ms []) c ∧ l_machines c = ms ∧ length (l_threads c) = length asks ∧
    (∀ o, o ∈ (λ a, a.1.1) <$> asks → locked o (l_threads c)) ∧ ∀ c', ¬ run c c'.
Proof.
  intros Hne Hnd Hall.
  assert (Hsteps : ∀ l, l `suffix_of` asks → ∃ ts, rtc lstep (mkLC ms []) (mkLC ms ts) ∧ Forall2 (λ a t, asking a.1.1 a.1.2 a.2 t) l ts).
  { intros l. induction l as [|[[o q] s] l IH]; intros Hsuf; [exists []; by split; [|constructor]|].
    assert (Hsuf' : l `suffix_of` asks) by (etrans; [|exact Hsuf]; by apply suffix_cons_r).
    destruct (IH Hsuf') as (ts & Hst & Hts). assert (Hin : (o, q, s) ∈ asks) by (destruct Hsuf as [l0 ->]; rewrite elem_of_app; right; by left).
    destruct (Hall o q s Hin) as [Hask Hs].
    assert (Hms : is_Some (ms !! s)) by (apply list_elem_of_fmap in Hs as ([[o' q'] s'] & -> & Hin'); destruct (Hall _ _ _ Hin') as [(_ & m & ? & Hm & _) _]; by exists m).
    assert (Hh : all_holders ts = (λ a, a.1.1) <$> l).
    { clear -Hts. induction Hts as [|a t l ts Hat _ IH]; [done|]. unfold all_holders in *. rewrite !fmap_cons. cbn [concat]. by rewrite (asking_holders _ _ _ _ Hat), IH. }
    destruct (lookup_asks ms ts o q s Hask Hms) as (t & Ht & Hst2).
    - rewrite Hh. destruct Hsuf as [l0 Hl0]. rewrite Hl0, fmap_app, fmap_cons in Hnd. apply NoDup_app in Hnd as (_ & _ & Hnd). by apply NoDup_cons in Hnd as [? _].
    - exists (t :: ts). split; [by etrans|]. by constructor. }
  destruct (Hsteps asks) as (ts & Hst & Hts); [done|].
  assert (Hh : all_holders ts = (λ a, a.1.1) <$> asks).
  { clear -Hts. induction Hts as [|a t l ts Hat _ IH]; [done|]. unfold all_holders in *. rewrite !fmap_cons. cbn [concat]. by rewrite (asking_holders _ _ _ _ Hat), IH. }
  exists (mkLC ms ts). cbn [l_machines l_threads]. split; [done|]. split; [done|]. split; [symmetry; by eapply Forall2_length|]. split; [by intros o; unfold locked; rewrite Hh|].
  apply blocked_stuck. intros t Ht. apply list_elem_of_lookup in Ht as [i Hi]. destruct (Forall2_lookup_r _ _ _ _ _ Hts Hi) as ([[o q] s] & Ha & k & ->).
  apply list_elem_of_lookup_2 in Ha. destruct (Hall o q s Ha) as [_ Hs]. cbn [l_owner l_code fst snd]. split; [|split; [unfold locked; by rewrite Hh|by eexists]].
  apply list_elem_of_fmap in Hs as ([[o' q'] s'] & -> & Hin'). destruct (Hall _ _ _ Hin') as [(_ & m & ? & Hm & _) _]. by exists m.
Qed.

(** C40 (lookups that block each other).  Nodes on which users type "Lookup file" at the
    same time, where none finds the owner of its file itself and each asks another of
    them, can reach a state in which no goroutine can go on: each holds its own mutex
    and waits for the next.  The command Lookup keeps the mutex during its calls,
    where StoreFile releases it. *)
Theorem concurrent_lookups_block (ms : gmap string (Machine FS)) (asks : list (string * string * string)) :
  asks ≠ [] → NoDup ((λ a, a.1.1) <$> asks) → (∀ o q s, (o, q, s) ∈ asks → must_ask ms o q s ∧ s ∈ (λ a, a.1.1) <$> asks) →
  ∃ c, rtc lstep (mkLC ms []) c ∧ l_machines c = ms ∧ length (l_threads c) = length asks ∧
    (∀ o, o ∈ (λ a, a.1.1) <$> asks → locked o (l_threads c)) ∧ ∀ c', ¬ run c c'.
Proof. apply lookups_reach_block. Qed.
End Block.

(** ** Three nodes in a ring *)

(** Identifiers spread over the ring by their first byte. *)
Definition spread_byte (s : string) : Z :=
  if decide (s = "b") then 0 else if decide (s = "m") then 85 else if decide (s = "t") then 170
  else if decide (s = "x") then 150 else if decide (s = "y") then 240 else 60.
Definition spread_sha1 : Sha1 := λ s, spread_byte s :: replicate 19 0.

(** A node of a ring of three with one successor each. *)
Definition ring_start (id : Z) (a : string) : NodeInfo := mkNode id a "" 0 (replicate 161 (mkFinger 0 "")) (replicate 1 "") true.
Definition ring_node (id : Z) (a s p : string) : NodeInfo :=
  set_Predecessor p (set_Successors [s] (match initClient (ring_start id a) with Ret n => n | _ => ring_start id a end)).

Lemma ring_node_wf id a s p : in_ring id → node_wf 1 id a (ring_node id a s p).
Proof.
  intros Hid. destruct (initClient_wf (ring_start id a)) as (n & Hn & Hwf & _); [done|done|simpl; unfold keySize; lia|].
  apply wf_set_Predecessor, wf_set_Successors; [done|]. by rewrite Hn.
Qed.

Definition spread_machine (a s p : string) : Machine MemFS :=
  mkMachine (mkChord "tcp" (ring_node (@hashString spread_sha1 a) a s p) 1 "XXX" "2222" (mkTimings 1 1 1) [] [] "1623456022901234") (mkMemFS ∅ ∅).
Definition three_nodes : gmap string (Machine MemFS) :=
  {["b" := spread_machine "b" "m" "t"; "m" := spread_machine "m" "t" "b"; "t" := spread_machine "t" "b" "m"]}.

Definition three_ident : string → Z := @hashString spread_sha1.

Lemma three_nodes_quiet : quiet 1 three_ident (mkLC three_nodes []).
Proof.
  split; [done|]. intros o m. cbn [l_machines]. unfold three_nodes. rewrite !lookup_insert_Some, lookup_singleton_Some.
  intros [[<- <-]|[_ [[<- <-]|[_ [<- <-]]]]]; apply ring_node_wf, mod_in_ring.
Qed.

Definition three_lookups : list (string * string * string) := [("b", "x", "m"); ("m", "y", "t"); ("t", "z", "b")].

Lemma three_must_ask o q s : (o, q, s) ∈ three_lookups → @must_ask MemFS spread_sha1 three_nodes o q s ∧ s ∈ (λ a, a.1.1) <$> three_lookups.
Proof.
  unfold three_lookups. rewrite !elem_of_cons, elem_of_nil. intros [[= -> -> ->]|[[= -> -> ->]|[[= -> -> ->]|[]]]];
    (split; [split; [reflexivity|]; eexists _, _; split; [reflexivity|]; split; [vm_compute; reflexivity|]; split; [vm_compute; reflexivity|]; by split|by vm_compute; repeat constructor]).
Qed.

Lemma three_distinct : NoDup ((λ a, a.1.1) <$> three_lookups).
Proof. by apply (bool_decide_unpack (NoDup _)). Qed.

Lemma chord_blocks_only_in_circles_witness :
  ∃ c, rtc (@lstep MemFS mem_fs spread_sha1 demo_aead) (mkLC three_nodes []) c ∧ deadlocked c ∧
    ∃ o1 o2, o1 ≠ o2 ∧ locked o1 (l_threads c) ∧ locked o2 (l_threads c) ∧ waits c o1 o2.
Proof.
  destruct (@lookups_reach_block MemFS mem_fs spread_sha1 demo_aead three_nodes three_lookups ltac:(done) three_distinct three_must_ask) as (c & Hst & _ & Hlen & _ & Hstuck).
  exists c. split; [exact Hst|].
  destruct (@chord_blocks_only_in_circles MemFS mem_fs spread_sha1 demo_aead 1 three_ident (mkLC three_nodes []) c) as [[c' Hrun]|Hd];
    [lia|exact three_nodes_quiet|exact Hst| |destruct (Hstuck c' Hrun)|exact Hd].
  intros He. rewrite He in Hlen. discriminate Hlen.
Defined.

Lemma concurrent_lookups_block_witness :
  ∃ c, rtc (@lstep MemFS mem_fs spread_sha1 demo_aead) (mkLC three_nodes []) c ∧ l_machines c = three_nodes ∧ length (l_threads c) = 3%nat ∧
    (∀ o, o ∈ ["b"; "m"; "t"] → locked o (l_threads c)) ∧ ∀ c', ¬ @run MemFS mem_fs spread_sha1 c c'.
Proof.
  apply (@concurrent_lookups_block MemFS mem_fs spread_sha1 demo_aead three_nodes three_lookups); [done|exact three_distinct|apply three_must_ask].
Defined.
