(* ===== verification/MRCoordinator.v ===== *)
(** * Lab2_MapReduce: the coordinator

    [mr/coordinator.go] and the message types of [mr/rpc.go].  Every handler
    runs under [CoordMutex], so a handler is a function on the coordinator and
    the disk; the executions are sequences of such events in any order.

    [int] values (timers, ids) are [Z]: they grow by one per second or per
    worker.  Go iterates over a map in an unspecified order; a handler that does
    takes the order as an argument. *)

From S2P Require Import Prelude GoFiles.
From stdpp Require Import pretty.
Open Scope string_scope.
Open Scope Z_scope.

(** ** Messages *)

(** [MAP] is 1, [REDUCE] 2, [WAIT] 3 and [NOWORK] 5; [NOMETHOD] is the zero value. *)
Inductive Method := NOMETHOD | MAP | REDUCE | WAIT | NOWORK.

#[global] Instance Method_eq_dec : EqDecision Method.
Proof. solve_decision. Defined.

Record WorkRequest := mkWorkRequest { wq_WorkerId : Z }.
Record SetupRequest := mkSetupRequest { IPAddress : string }.
Record WorkComplete := mkWorkComplete {
  wc_WorkType : Method; wc_JobId : Z; wc_OutputFile : string; wc_WorkerId : Z
}.
Record WorkSetup := mkWorkSetup { ws_WorkerId : Z; ws_NumFiles : Z; ws_NReduce : Z }.
Record WorkerLocation := mkWorkerLocation { wl_WorkerId : Z; wl_Address : string }.
Record WorkReply := mkWorkReply {
  wr_WorkType : Method; wr_JobId : Z; wr_NumFiles : Z; wr_NReduce : Z;
  MapFileName : string; MapFileContent : option string;
  ReduceFileLocations : list WorkerLocation
}.
Record JobFailed := mkJobFailed { UnreachableWorker : WorkerLocation; jf_WorkType : Method; jf_JobId : Z }.

Definition WorkReply0 : WorkReply := mkWorkReply NOMETHOD 0 0 0 "" None [].

Definition set_WorkType (t : Method) (r : WorkReply) : WorkReply :=
  mkWorkReply t (wr_JobId r) (wr_NumFiles r) (wr_NReduce r) (MapFileName r) (MapFileContent r) (ReduceFileLocations r).

(** ** State *)

Definition TIMEOUT : Z := 10.

Record WorkChunk := mkWorkChunk { WorkerId : Z; Completed : bool }.

Record ReduceTracker := mkReduceTracker {
  r_currentJob : Z;
  completedReducers : list WorkChunk;
  reduceWorkerIds : gmap Z bool
}.

Record MapTracker := mkMapTracker {
  map_files : list string;
  numFiles : Z;
  m_currentJob : Z;
  completedMappers : list WorkChunk;
  mapWorkerIds : gmap Z bool
}.

Record Coordinator := mkCoordinator {
  IsDone : bool;
  Nreduce : Z;
  mapperTimeout : list Z;
  reducerTimeout : list Z;
  Workers : gmap Z string;
  NextWorkerId : Z;
  mapper : MapTracker;
  reducer : ReduceTracker
}.

Definition set_mapper (mt : list Z) (m : MapTracker) (c : Coordinator) : Coordinator :=
  mkCoordinator (IsDone c) (Nreduce c) mt (reducerTimeout c) (Workers c) (NextWorkerId c) m (reducer c).
Definition set_reducer (rt : list Z) (r : ReduceTracker) (c : Coordinator) : Coordinator :=
  mkCoordinator (IsDone c) (Nreduce c) (mapperTimeout c) rt (Workers c) (NextWorkerId c) (mapper c) r.
Definition set_workers (ws : gmap Z string) (next : Z) (c : Coordinator) : Coordinator :=
  mkCoordinator (IsDone c) (Nreduce c) (mapperTimeout c) (reducerTimeout c) ws next (mapper c) (reducer c).
Definition set_IsDone (b : bool) (c : Coordinator) : Coordinator :=
  mkCoordinator b (Nreduce c) (mapperTimeout c) (reducerTimeout c) (Workers c) (NextWorkerId c) (mapper c) (reducer c).

(** ** Small helpers of the trackers *)

Definition chunks_done (l : list WorkChunk) : bool := forallb Completed l.
Definition reducer_isDone (r : ReduceTracker) : bool := chunks_done (completedReducers r).
Definition mapper_isDone (m : MapTracker) : bool := chunks_done (completedMappers m).

(** [isCleared] and the timeout test of the two retry functions. *)
Definition retry_wanted (chunk : WorkChunk) (timeout : Z) : bool :=
  (timeout >? TIMEOUT) || ((WorkerId chunk =? 0) && (timeout =? 0)).

Definition inProgress (chunk : WorkChunk) : bool := (WorkerId chunk >? 0) && negb (Completed chunk).

Section Coordinator.
Context {FS : Type} `{FileSystem FS}.

Implicit Types (c : Coordinator) (reply : WorkReply) (fs : FS) (order : list Z).

(** The content of an input file: [None] is nil, which a read error gives; a file
    that cannot be opened ends the process. *)
Definition getMapFileContent (mapFileId : Z) c fs : outcome (option string) :=
  name ← slice_get (map_files (mapper c)) mapFileId;
  if os_Open name fs then Ret (io_ReadAll name fs) else Exit.

(** [order] lists the keys of [mapWorkerIds] in iteration order; a worker without
    an address is reported with the empty string. *)
Definition getReduceFileLocations order c : list WorkerLocation :=
  (λ id, mkWorkerLocation id (default "" (Workers c !! id))) <$> order.

(** The assignment of map job [j] to a worker, common to a first issue and a
    retry; [cur] is the next job to issue afterwards. *)
Definition assign_map (j workerId cur : Z) c : outcome Coordinator :=
  chunk ← slice_get (completedMappers (mapper c)) j;
  chunks ← slice_set (completedMappers (mapper c)) j (mkWorkChunk workerId (Completed chunk));
  timeouts ← slice_set (mapperTimeout c) j 1;
  Ret (set_mapper timeouts
         (mkMapTracker (map_files (mapper c)) (numFiles (mapper c)) cur chunks
            (<[workerId := true]> (mapWorkerIds (mapper c)))) c).

Definition assign_reduce (j workerId cur : Z) c : outcome Coordinator :=
  chunk ← slice_get (completedReducers (reducer c)) j;
  chunks ← slice_set (completedReducers (reducer c)) j (mkWorkChunk workerId (Completed chunk));
  timeouts ← slice_set (reducerTimeout c) j 1;
  Ret (set_reducer timeouts
         (mkReduceTracker cur chunks (<[workerId := true]> (reduceWorkerIds (reducer c)))) c).

(** The reply that hands out map job [j]. *)
Definition map_reply (j : Z) c fs reply : outcome WorkReply :=
  name ← slice_get (map_files (mapper c)) j;
  content ← getMapFileContent j c fs;
  Ret (mkWorkReply MAP j (numFiles (mapper c)) (Nreduce c) name content (ReduceFileLocations reply)).

Definition reduce_reply (j : Z) order c reply : WorkReply :=
  mkWorkReply REDUCE j (numFiles (mapper c)) (Nreduce c) (MapFileName reply) (MapFileContent reply)
    (getReduceFileLocations order c).

(** The first job to hand out again. *)
Definition retry_job (timeouts : list Z) (chunks : list WorkChunk) : outcome (option Z) :=
  for_find (length timeouts) 0 (λ jobId,
    chunk ← slice_get chunks jobId;
    timeout ← slice_get timeouts jobId;
    Ret (if retry_wanted chunk timeout then Some jobId else None)).

(** [None]: no job to retry ([false]). *)
Definition retryMapper reply (workerId : Z) c fs : outcome (option (WorkReply * Coordinator)) :=
  o ← retry_job (mapperTimeout c) (completedMappers (mapper c));
  match o with
  | None => Ret None
  | Some jobId =>
      c' ← assign_map jobId workerId (m_currentJob (mapper c)) c;
      reply' ← map_reply jobId c' fs reply;
      Ret (Some (reply', c'))
  end.

Definition retryReducer reply (workerId : Z) order c : outcome (option (WorkReply * Coordinator)) :=
  o ← retry_job (reducerTimeout c) (completedReducers (reducer c));
  match o with
  | None => Ret None
  | Some jobId =>
      c' ← assign_reduce jobId workerId (r_currentJob (reducer c)) c;
      Ret (Some (reduce_reply jobId order c' reply, c'))
  end.

Definition getMapJob reply (workerId : Z) c fs : outcome (WorkReply * Coordinator) :=
  if m_currentJob (mapper c) =? numFiles (mapper c) then
    o ← retryMapper reply workerId c fs;
    match o with
    | Some res => Ret res
    | None => Ret (set_WorkType WAIT reply, c)
    end
  else
    reply' ← map_reply (m_currentJob (mapper c)) c fs reply;
    c' ← assign_map (m_currentJob (mapper c)) workerId (m_currentJob (mapper c) + 1) c;
    Ret (reply', c').

Definition getReduceJob reply (workerId : Z) order c : outcome (WorkReply * Coordinator) :=
  if r_currentJob (reducer c) =? Nreduce c then
    o ← retryReducer reply workerId order c;
    match o with
    | Some res => Ret res
    | None => Ret (set_WorkType WAIT reply, c)
    end
  else
    c' ← assign_reduce (r_currentJob (reducer c)) workerId (r_currentJob (reducer c) + 1) c;
    Ret (reduce_reply (r_currentJob (reducer c)) order c' reply, c').

(** ** Handlers *)

Definition GetWork (request : WorkRequest) reply order c fs : outcome (WorkReply * Coordinator) :=
  if IsDone c then Ret (set_WorkType NOWORK reply, c)
  else if mapper_isDone (mapper c) then getReduceJob reply (wq_WorkerId request) order c
  else getMapJob reply (wq_WorkerId request) c fs.

(** The body of the loop over [completedMappers]. *)
Definition clear_chunk (workerId i : Z) (s : list WorkChunk * list Z) : outcome (list WorkChunk * list Z) :=
  let '(chunks, timeouts) := s in
  chunk ← slice_get chunks i;
  if WorkerId chunk =? workerId then
    chunks' ← slice_set chunks i (mkWorkChunk 0 false);
    timeouts' ← slice_set timeouts i 0;
    Ret (chunks', timeouts')
  else Ret (chunks, timeouts).

Definition clearMapDeadWorker (workerId : Z) c : outcome Coordinator :=
  '(chunks, timeouts) ← for_range (length (completedMappers (mapper c))) 0 (clear_chunk workerId)
                          (completedMappers (mapper c), mapperTimeout c);
  Ret (set_mapper timeouts
         (mkMapTracker (map_files (mapper c)) (numFiles (mapper c)) (m_currentJob (mapper c)) chunks
            (mapWorkerIds (mapper c))) c).

Definition clearAllWork (workerId : Z) c : outcome Coordinator :=
  c1 ← clearMapDeadWorker workerId c;
  let m := mapper c1 in
  let c2 := set_mapper (mapperTimeout c1)
              (mkMapTracker (map_files m) (numFiles m) (m_currentJob m) (completedMappers m)
                 (delete workerId (mapWorkerIds m))) c1 in
  Ret (set_workers (delete workerId (Workers c2)) (NextWorkerId c2) c2).

Definition WorkerDead (faildJob : JobFailed) c : outcome Coordinator :=
  c1 ← clearAllWork (wl_WorkerId (UnreachableWorker faildJob)) c;
  chunk ← slice_get (completedReducers (reducer c1)) (jf_JobId faildJob);
  chunks ← slice_set (completedReducers (reducer c1)) (jf_JobId faildJob) (mkWorkChunk 0 (Completed chunk));
  timeouts ← slice_set (reducerTimeout c1) (jf_JobId faildJob) 0;
  Ret (set_reducer timeouts
         (mkReduceTracker (r_currentJob (reducer c1)) chunks (reduceWorkerIds (reducer c1))) c1).

Definition DoSetup (request : SetupRequest) c : WorkSetup * Coordinator :=
  (mkWorkSetup (NextWorkerId c) (numFiles (mapper c)) (Nreduce c),
   set_workers (<[NextWorkerId c := IPAddress request]> (Workers c)) (NextWorkerId c + 1) c).

Definition outputPath (jobId : Z) : string := "./output/" +:+ "mr-out-" +:+ pretty jobId.

(** Errors of creating or writing the output file are only printed. *)
Definition write_output (jobId : Z) (content : string) fs : FS :=
  match os_Create (outputPath jobId) fs with
  | Some fs1 => (file_Write (outputPath jobId) content fs1).1
  | None => fs
  end.

Definition WorkDone (complete : WorkComplete) c fs : outcome (Coordinator * FS) :=
  match wc_WorkType complete with
  | MAP =>
      chunk ← slice_get (completedMappers (mapper c)) (wc_JobId complete);
      chunks ← slice_set (completedMappers (mapper c)) (wc_JobId complete) (mkWorkChunk (WorkerId chunk) true);
      Ret (set_mapper (mapperTimeout c)
             (mkMapTracker (map_files (mapper c)) (numFiles (mapper c)) (m_currentJob (mapper c)) chunks
                (mapWorkerIds (mapper c))) c, fs)
  | REDUCE =>
      let fs' := write_output (wc_JobId complete) (wc_OutputFile complete) fs in
      chunk ← slice_get (completedReducers (reducer c)) (wc_JobId complete);
      chunks ← slice_set (completedReducers (reducer c)) (wc_JobId complete) (mkWorkChunk (WorkerId chunk) true);
      Ret (set_reducer (reducerTimeout c)
             (mkReduceTracker (r_currentJob (reducer c)) chunks (reduceWorkerIds (reducer c))) c, fs')
  | _ => Ret (c, fs)
  end.

(** The body of the loops of [updateMapper] and [updateReducer]. *)
Definition tick_chunk (chunks : list WorkChunk) (n : Z) (timeouts : list Z) : outcome (list Z) :=
  workChunk ← slice_get chunks n;
  timeout ← slice_get timeouts n;
  if (timeout >? 0) && inProgress workChunk then slice_set timeouts n (timeout + 1) else Ret timeouts.

Definition updateMapper c : outcome Coordinator :=
  timeouts ← for_range (length (mapperTimeout c)) 0 (tick_chunk (completedMappers (mapper c))) (mapperTimeout c);
  Ret (set_mapper timeouts (mapper c) c).

Definition updateReducer c : outcome Coordinator :=
  timeouts ← for_range (length (reducerTimeout c)) 0 (tick_chunk (completedReducers (reducer c))) (reducerTimeout c);
  Ret (set_reducer timeouts (reducer c) c).

(** One iteration of the loop of [serverHandler]. *)
Definition serverHandler_tick c : outcome Coordinator :=
  let mapperDone := mapper_isDone (mapper c) in
  let reducerDone := reducer_isDone (reducer c) in
  let c := if mapperDone && reducerDone then set_IsDone true c else c in
  if negb mapperDone then updateMapper c else updateReducer c.

Definition Done c : bool := IsDone c.

(** A negative [nReduce] makes [make] panic. *)
Definition MakeCoordinator (input : list string) (nReduce : Z) fs : outcome (Coordinator * FS) :=
  if nReduce <? 0 then Panic
  else
    let fs1 := os_RemoveAll "./output/" fs in
    let fs2 := (os_Mkdir "./output" fs1).1 in
    Ret (mkCoordinator false nReduce (replicate (length input) 0) (replicate (Z.to_nat nReduce) 0) ∅ 1
           (mkMapTracker input (go_len input) 0 (replicate (length input) (mkWorkChunk 0 false)) ∅)
           (mkReduceTracker 0 (replicate (Z.to_nat nReduce) (mkWorkChunk 0 false)) ∅), fs2).

End Coordinator.

(** ** The loops, pointwise *)

Definition tick1 (ch : WorkChunk) (t : Z) : Z := if (t >? 0) && inProgress ch then t + 1 else t.
Definition clear1 (w : Z) (ch : WorkChunk) : WorkChunk := if WorkerId ch =? w then mkWorkChunk 0 false else ch.
Definition clear_t (w : Z) (ch : WorkChunk) (t : Z) : Z := if WorkerId ch =? w then 0 else t.

(** After [j] iterations the first [j] entries of [l] have been replaced by those
    of [l']. *)
Definition upto {A} (j : nat) (l l' s : list A) : Prop :=
  length s = length l ∧ ∀ n, s !! n = if decide (n < j)%nat then l' !! n else l !! n.

Lemma upto_start {A} (l l' : list A) : upto 0 l l' l.
Proof. split; [done|]. intros n. rewrite decide_False by lia. done. Qed.

Lemma upto_end {A} (l l' s : list A) : length l = length l' → upto (length l) l l' s → s = l'.
Proof.
  intros Hl [Hs Hn]. apply list_eq. intros n. rewrite Hn. case_decide; [done|].
  rewrite !lookup_ge_None_2 by lia. done.
Qed.

Lemma upto_get {A} j (l l' s : list A) : upto j l l' s → s !! j = l !! j.
Proof. intros [_ Hn]. rewrite Hn, decide_False by lia. done. Qed.

Lemma upto_set {A} j (l l' s : list A) x : upto j l l' s → (j < length l)%nat → l' !! j = Some x →
  slice_set s (Z.of_nat j) x = Ret (<[j := x]> s) ∧ upto (S j) l l' (<[j := x]> s).
Proof.
  intros [Hs Hn] Hj Hx. split; [rewrite slice_set_ok, Nat2Z.id; [done|unfold go_len; lia]|].
  split; [by rewrite length_insert|]. intros n. destruct (decide (n = j)) as [->|].
  - rewrite list_lookup_insert_eq, decide_True by lia. done.
  - rewrite list_lookup_insert_ne, Hn by done. repeat case_decide; done || lia.
Qed.

Lemma upto_skip {A} j (l l' s : list A) : upto j l l' s → l' !! j = l !! j → upto (S j) l l' s.
Proof.
  intros [Hs Hn] Heq. split; [done|]. intros n. rewrite Hn. destruct (decide (n = j)) as [->|].
  - rewrite decide_False, decide_True by lia. done.
  - repeat case_decide; done || lia.
Qed.

Lemma tick_loop chunks timeouts : length chunks = length timeouts →
  for_range (length timeouts) 0 (tick_chunk chunks) timeouts = Ret (zip_with tick1 chunks timeouts).
Proof.
  intros Hl. change 0 with (Z.of_nat 0). edestruct (for_range_inv (λ j s, upto j timeouts (zip_with tick1 chunks timeouts) s)
    (tick_chunk chunks) (length timeouts) 0 timeouts) as (s & -> & Hs); [apply upto_start| |].
  2:{ apply upto_end in Hs; [by subst|]. rewrite length_zip_with. lia. }
  intros j s Hj Hs. destruct (lookup_lt_is_Some_2 chunks j) as [ch Hch]; [lia|].
  destruct (lookup_lt_is_Some_2 timeouts j) as [t Ht]; [lia|]. pose proof (upto_get _ _ _ _ Hs) as Hg.
  unfold tick_chunk. rewrite !slice_get_nat, Hch, Hg, Ht. cbn [mbind outcome_bind].
  assert (Hz : zip_with tick1 chunks timeouts !! j = Some (tick1 ch t)) by by rewrite lookup_zip_with, Hch, Ht.
  unfold tick1 in Hz at 2. destruct ((t >? 0) && inProgress ch).
  - destruct (upto_set j _ _ s _ Hs ltac:(lia) Hz) as [-> Hu]. by eexists.
  - eexists. split; [done|]. apply upto_skip; [done|]. by rewrite Hz, Ht.
Qed.

Lemma clear_loop w chunks timeouts : length chunks = length timeouts →
  for_range (length chunks) 0 (clear_chunk w) (chunks, timeouts) =
  Ret (clear1 w <$> chunks, zip_with (clear_t w) chunks timeouts).
Proof.
  intros Hl. change 0 with (Z.of_nat 0). edestruct (for_range_inv
    (λ j s, upto j chunks (clear1 w <$> chunks) s.1 ∧ upto j timeouts (zip_with (clear_t w) chunks timeouts) s.2)
    (clear_chunk w) (length chunks) 0 (chunks, timeouts)) as ([s1 s2] & -> & [Hs1 Hs2]); [split; apply upto_start| |].
  2:{ apply upto_end in Hs1; [|by rewrite length_fmap]. simpl in *. subst. rewrite Hl in Hs2.
      apply upto_end in Hs2; [by subst|]. rewrite length_zip_with. lia. }
  intros j [s1 s2] Hj [Hs1 Hs2]. simpl in Hs1, Hs2. destruct (lookup_lt_is_Some_2 chunks j) as [ch Hch]; [lia|].
  destruct (lookup_lt_is_Some_2 timeouts j) as [t Ht]; [lia|]. unfold clear_chunk.
  rewrite slice_get_nat, (upto_get _ _ _ _ Hs1), Hch. cbn [mbind outcome_bind].
  assert (Hz1 : (clear1 w <$> chunks) !! j = Some (clear1 w ch)) by by rewrite list_lookup_fmap, Hch.
  assert (Hz2 : zip_with (clear_t w) chunks timeouts !! j = Some (clear_t w ch t)) by by rewrite lookup_zip_with, Hch, Ht.
  unfold clear1 in Hz1 at 2. unfold clear_t in Hz2 at 2. destruct (WorkerId ch =? w).
  - destruct (upto_set j _ _ s1 _ Hs1 ltac:(lia) Hz1) as [-> Hu1]. cbn [mbind outcome_bind].
    destruct (upto_set j _ _ s2 _ Hs2 ltac:(lia) Hz2) as [-> Hu2]. by eexists.
  - eexists. split; [done|]. split; apply upto_skip; try done; congruence.
Qed.

(** The retry search returns the least job that wants one. *)
Lemma retry_job_spec timeouts chunks : length chunks = length timeouts →
  (∃ j ch t, chunks !! j = Some ch ∧ timeouts !! j = Some t ∧ retry_wanted ch t = true ∧
     retry_job timeouts chunks = Ret (Some (Z.of_nat j))) ∨
  ((∀ j ch t, chunks !! j = Some ch → timeouts !! j = Some t → retry_wanted ch t = false) ∧
   retry_job timeouts chunks = Ret None).
Proof.
  intros Hl. set (test j := match chunks !! j, timeouts !! j with
                            | Some ch, Some t => if retry_wanted ch t then Some (Z.of_nat j) else None
                            | _, _ => None end).
  destruct (for_find_spec (λ jobId, chunk ← slice_get chunks jobId; timeout ← slice_get timeouts jobId;
    Ret (if retry_wanted chunk timeout then Some jobId else None)) test (length timeouts) 0)
    as [(j & x & Hj & Ht & _ & Hf)|[Hall Hf]].
  - intros j Hj. rewrite !slice_get_nat. unfold test.
    destruct (lookup_lt_is_Some_2 chunks j) as [ch ->]; [lia|].
    destruct (lookup_lt_is_Some_2 timeouts j) as [t ->]; [lia|]. done.
  - left. unfold test in Ht. destruct (chunks !! j) as [ch|] eqn:Hch; [|done].
    destruct (timeouts !! j) as [t|] eqn:Htm; [|done]. destruct (retry_wanted ch t) eqn:Hw; [|done].
    injection Ht as <-. by exists j, ch, t.
  - right. split; [|done]. intros j ch t Hch Ht. pose proof (lookup_lt_Some _ _ _ Ht).
    specialize (Hall j ltac:(lia)). unfold test in Hall. rewrite Hch, Ht in Hall. by destruct (retry_wanted ch t).
Qed.

(** ** The invariant *)

(** A job is either held by nobody, with its timer stopped, or held by a worker
    with its timer running. *)
Definition tracked (ch : WorkChunk) (t : Z) : Prop :=
  (WorkerId ch = 0 ∧ t = 0) ∨ (0 < WorkerId ch ∧ 1 ≤ t).

(** One of the two phases: [n] jobs, of which the first [cur] have been issued. *)
Record phase_ok (n cur : Z) (chunks : list WorkChunk) (timeouts : list Z) : Prop := {
  ph_len : go_len chunks = n;
  ph_cur : 0 ≤ cur ≤ n;
  ph_tracked : Forall2 tracked chunks timeouts
}.

Record coord_wf (c : Coordinator) : Prop := {
  cw_files : go_len (map_files (mapper c)) = numFiles (mapper c);
  cw_map : phase_ok (numFiles (mapper c)) (m_currentJob (mapper c)) (completedMappers (mapper c)) (mapperTimeout c);
  cw_reduce : phase_ok (Nreduce c) (r_currentJob (reducer c)) (completedReducers (reducer c)) (reducerTimeout c);
  cw_next : 0 < NextWorkerId c;
  cw_workers : ∀ id a, Workers c !! id = Some a → 0 < id < NextWorkerId c;
  cw_done : IsDone c = true → reducer_isDone (reducer c) = true
}.

Lemma tracked_tick chunks timeouts : Forall2 tracked chunks timeouts → Forall2 tracked chunks (zip_with tick1 chunks timeouts).
Proof.
  induction 1 as [|ch t chs ts Hct _ IH]; simpl; [constructor|]. constructor; [|done].
  unfold tick1, tracked in *. destruct (Z.gtb_spec t 0), (inProgress ch); simpl; lia.
Qed.

Lemma tracked_clear w chunks timeouts :
  Forall2 tracked chunks timeouts → Forall2 tracked (clear1 w <$> chunks) (zip_with (clear_t w) chunks timeouts).
Proof.
  induction 1 as [|ch t chs ts Hct _ IH]; simpl; [constructor|]. constructor; [|done].
  unfold clear1, clear_t, tracked in *. destruct (WorkerId ch =? w); simpl; lia.
Qed.

Section Phase.
Variables (n cur : Z) (chunks : list WorkChunk) (timeouts : list Z).
Hypothesis Hph : phase_ok n cur chunks timeouts.

Lemma phase_lens : length chunks = length timeouts ∧ length chunks = Z.to_nat n.
Proof using Hph.
  destruct Hph as [Hl _ Ht]. split; [by eapply Forall2_length|]. unfold go_len in Hl. lia.
Qed.

(** A valid job has an entry, and both lists can be written at it. *)
Lemma phase_job j : 0 ≤ j < n → ∃ ch t,
  chunks !! Z.to_nat j = Some ch ∧ timeouts !! Z.to_nat j = Some t ∧ tracked ch t ∧ slice_get chunks j = Ret ch ∧
  (∀ x, slice_set chunks j x = Ret (<[Z.to_nat j := x]> chunks)) ∧
  (∀ x, slice_set timeouts j x = Ret (<[Z.to_nat j := x]> timeouts)).
Proof using Hph.
  intros Hj. destruct phase_lens as [Hl Hn]. destruct (lookup_lt_is_Some_2 chunks (Z.to_nat j)) as [ch Hch]; [lia|].
  destruct (lookup_lt_is_Some_2 timeouts (Z.to_nat j)) as [t Ht]; [lia|]. exists ch, t. split; [done|]. split; [done|].
  split; [by eapply Forall2_lookup_lr; [apply Hph|..]|]. split; [by apply slice_get_Ret; split; [lia|]|].
  split; intros x; apply slice_set_ok; unfold go_len; lia.
Qed.

Lemma phase_update j ch t cur' : 0 ≤ cur' ≤ n → tracked ch t →
  phase_ok n cur' (<[j := ch]> chunks) (<[j := t]> timeouts).
Proof using Hph.
  intros Hc Ht. destruct Hph as [Hl _ Htr]. split; [|done|by apply Forall2_insert].
  unfold go_len in *. by rewrite length_insert.
Qed.

(** Changing whether a job is completed. *)
Lemma phase_complete j ch b : chunks !! j = Some ch →
  phase_ok n cur (<[j := mkWorkChunk (WorkerId ch) b]> chunks) timeouts.
Proof using Hph.
  intros Hch. destruct (Forall2_lookup_l _ _ _ _ _ (ph_tracked _ _ _ _ Hph) Hch) as (t & Ht & Htr).
  rewrite <-(list_insert_id timeouts j t) by done. apply phase_update; [apply Hph|done].
Qed.

Lemma phase_tick : phase_ok n cur chunks (zip_with tick1 chunks timeouts).
Proof using Hph.
  destruct Hph as [Hl Hc Htr]. split; [done..|]. by apply tracked_tick.
Qed.

Lemma phase_clear w : phase_ok n cur (clear1 w <$> chunks) (zip_with (clear_t w) chunks timeouts).
Proof using Hph.
  destruct Hph as [Hl Hc Htr]. split; [unfold go_len in *; by rewrite length_fmap|done|]. by apply tracked_clear.
Qed.

Lemma phase_retry :
  (∃ j ch t, 0 ≤ j < n ∧ chunks !! Z.to_nat j = Some ch ∧ timeouts !! Z.to_nat j = Some t ∧ retry_wanted ch t = true ∧
     retry_job timeouts chunks = Ret (Some j)) ∨
  ((∀ j ch t, chunks !! j = Some ch → timeouts !! j = Some t → retry_wanted ch t = false) ∧
   retry_job timeouts chunks = Ret None).
Proof using Hph.
  destruct phase_lens as [Hl Hn]. destruct (retry_job_spec timeouts chunks Hl) as [(j & ch & t & Hch & Ht & Hw & Hr)|?]; [|by right].
  left. exists (Z.of_nat j), ch, t. rewrite Nat2Z.id. apply lookup_lt_Some in Hch as Hlt. repeat split; try done; lia.
Qed.

End Phase.
