(* ===== verification/MRProtocol.v ===== *)
(** * Lab2_MapReduce: the coordinator's protocol

    Executions of the coordinator as sequences of handler calls and timer ticks,
    in any order, and what they guarantee: the invariant, which jobs are handed
    out, that jobs of lost workers are handed out again, and that the job is
    reported done only when every output file is written. *)

From S2P Require Import Prelude GoFiles MRCoordinator.
From stdpp Require Import pretty.
Open Scope string_scope.
Open Scope Z_scope.

Section Protocol.
Context {FS : Type} `{FileSystem FS}.

Implicit Types (c : Coordinator) (fs : FS).

(** ** Handlers preserve the invariant *)

Lemma coord_map_update c cur chunks timeouts ids : coord_wf c →
  phase_ok (numFiles (mapper c)) cur chunks timeouts →
  coord_wf (set_mapper timeouts (mkMapTracker (map_files (mapper c)) (numFiles (mapper c)) cur chunks ids) c).
Proof. by intros [] ?. Qed.

Lemma coord_reduce_update c cur chunks timeouts ids : coord_wf c →
  phase_ok (Nreduce c) cur chunks timeouts → (IsDone c = true → chunks_done chunks = true) →
  coord_wf (set_reducer timeouts (mkReduceTracker cur chunks ids) c).
Proof. by intros [] ??. Qed.

(** Replacing a chunk by one that is at least as completed. *)
Lemma chunks_done_insert chunks i ch w b : chunks !! i = Some ch → (Completed ch = true → b = true) →
  chunks_done chunks = true → chunks_done (<[i := mkWorkChunk w b]> chunks) = true.
Proof.
  unfold chunks_done. rewrite !forallb_forall. intros Hi Hb Hd x Hx. apply list_elem_of_In in Hx.
  apply list_elem_of_lookup in Hx as [k Hk]. destruct (decide (i = k)) as [<-|].
  - rewrite list_lookup_insert_eq in Hk by (by eapply lookup_lt_Some). injection Hk as <-. simpl. apply Hb, Hd.
    apply list_elem_of_In. by eapply list_elem_of_lookup_2.
  - rewrite list_lookup_insert_ne in Hk by done. apply Hd, list_elem_of_In. by eapply list_elem_of_lookup_2.
Qed.

Lemma assign_map_ok c j w cur : coord_wf c → 0 ≤ j < numFiles (mapper c) → 0 < w → 0 ≤ cur ≤ numFiles (mapper c) →
  ∃ ch, completedMappers (mapper c) !! Z.to_nat j = Some ch ∧
  let c' := set_mapper (<[Z.to_nat j := 1]> (mapperTimeout c))
              (mkMapTracker (map_files (mapper c)) (numFiles (mapper c)) cur
                 (<[Z.to_nat j := mkWorkChunk w (Completed ch)]> (completedMappers (mapper c)))
                 (<[w := true]> (mapWorkerIds (mapper c)))) c in
  assign_map j w cur c = Ret c' ∧ coord_wf c'.
Proof.
  intros Hc Hj Hw Hcur. destruct (phase_job _ _ _ _ (cw_map _ Hc) j Hj) as (ch & t & Hch & _ & _ & Hg & Hs1 & Hs2).
  exists ch. split; [done|]. unfold assign_map. rewrite Hg. cbn [mbind outcome_bind]. rewrite Hs1, Hs2. split; [done|].
  apply coord_map_update; [done|]. eapply phase_update; [apply Hc|done|]. right. simpl. lia.
Qed.

Lemma assign_reduce_ok c j w cur : coord_wf c → 0 ≤ j < Nreduce c → 0 < w → 0 ≤ cur ≤ Nreduce c →
  ∃ ch, completedReducers (reducer c) !! Z.to_nat j = Some ch ∧
  let c' := set_reducer (<[Z.to_nat j := 1]> (reducerTimeout c))
              (mkReduceTracker cur (<[Z.to_nat j := mkWorkChunk w (Completed ch)]> (completedReducers (reducer c)))
                 (<[w := true]> (reduceWorkerIds (reducer c)))) c in
  assign_reduce j w cur c = Ret c' ∧ coord_wf c'.
Proof.
  intros Hc Hj Hw Hcur. destruct (phase_job _ _ _ _ (cw_reduce _ Hc) j Hj) as (ch & t & Hch & _ & _ & Hg & Hs1 & Hs2).
  exists ch. split; [done|]. unfold assign_reduce. rewrite Hg. cbn [mbind outcome_bind]. rewrite Hs1, Hs2. split; [done|].
  apply coord_reduce_update; [done|eapply phase_update; [apply Hc|done|right; simpl; lia]|].
  intros Hd. eapply chunks_done_insert; [done..|]. by apply (cw_done _ Hc).
Qed.

(** Job [j] may be given out: it is the next one, or all have been issued and it
    was cleared or timed out. *)
Definition grantable (n cur : Z) (chunks : list WorkChunk) (timeouts : list Z) (j : Z) : Prop :=
  0 ≤ j < n ∧ ((cur < n ∧ j = cur) ∨
    (cur = n ∧ ∃ ch t, chunks !! Z.to_nat j = Some ch ∧ timeouts !! Z.to_nat j = Some t ∧ retry_wanted ch t = true)).

(** No job can be given out now. *)
Definition exhausted (n cur : Z) (chunks : list WorkChunk) (timeouts : list Z) : Prop :=
  cur = n ∧ ∀ j ch t, chunks !! j = Some ch → timeouts !! j = Some t → retry_wanted ch t = false.

Definition map_grantable c := grantable (numFiles (mapper c)) (m_currentJob (mapper c)) (completedMappers (mapper c)) (mapperTimeout c).
Definition map_exhausted c := exhausted (numFiles (mapper c)) (m_currentJob (mapper c)) (completedMappers (mapper c)) (mapperTimeout c).
Definition reduce_grantable c := grantable (Nreduce c) (r_currentJob (reducer c)) (completedReducers (reducer c)) (reducerTimeout c).
Definition reduce_exhausted c := exhausted (Nreduce c) (r_currentJob (reducer c)) (completedReducers (reducer c)) (reducerTimeout c).

(** [c'] is [c] with map job [j] held by [w]. *)
Definition map_assigned (j w : Z) c c' : Prop :=
  ∃ ch cur, completedMappers (mapper c) !! Z.to_nat j = Some ch ∧
  c' = set_mapper (<[Z.to_nat j := 1]> (mapperTimeout c))
         (mkMapTracker (map_files (mapper c)) (numFiles (mapper c)) cur
            (<[Z.to_nat j := mkWorkChunk w (Completed ch)]> (completedMappers (mapper c)))
            (<[w := true]> (mapWorkerIds (mapper c)))) c.

Definition reduce_assigned (j w : Z) c c' : Prop :=
  ∃ ch cur, completedReducers (reducer c) !! Z.to_nat j = Some ch ∧
  c' = set_reducer (<[Z.to_nat j := 1]> (reducerTimeout c))
         (mkReduceTracker cur (<[Z.to_nat j := mkWorkChunk w (Completed ch)]> (completedReducers (reducer c)))
            (<[w := true]> (reduceWorkerIds (reducer c)))) c.

(** The input file of map job [j], as the coordinator sends it. *)
Definition map_input (j : Z) c fs (reply : WorkReply) : Prop :=
  ∃ name, map_files (mapper c) !! Z.to_nat j = Some name ∧ os_Open name fs = true ∧
    MapFileName reply = name ∧ MapFileContent reply = io_ReadAll name fs.

Lemma map_reply_cases c j fs reply : coord_wf c → 0 ≤ j < numFiles (mapper c) →
  map_reply j c fs reply = Exit ∨
  ∃ reply', map_reply j c fs reply = Ret reply' ∧ wr_WorkType reply' = MAP ∧ wr_JobId reply' = j ∧ map_input j c fs reply' ∧
    wr_NumFiles reply' = numFiles (mapper c) ∧ wr_NReduce reply' = Nreduce c.
Proof.
  intros Hc Hj. unfold map_reply, getMapFileContent.
  destruct (slice_get_ok (map_files (mapper c)) j) as (name & -> & Hname); [by rewrite (cw_files _ Hc)|].
  cbn [mbind outcome_bind]. destruct (os_Open name fs) eqn:Ho; [|by left]. right. eexists. split; [done|].
  repeat split; try done. by exists name.
Qed.

Lemma getMapJob_cases c w fs reply : coord_wf c → 0 < w →
  getMapJob reply w c fs = Exit ∨
  (map_exhausted c ∧ getMapJob reply w c fs = Ret (set_WorkType WAIT reply, c)) ∨
  (∃ j reply' c', getMapJob reply w c fs = Ret (reply', c') ∧ map_grantable c j ∧ map_assigned j w c c' ∧ coord_wf c' ∧
     wr_WorkType reply' = MAP ∧ wr_JobId reply' = j ∧ map_input j c fs reply').
Proof.
  intros Hc Hw. unfold getMapJob. pose proof (cw_map _ Hc) as Hm. pose proof (ph_cur _ _ _ _ Hm) as Hcur.
  destruct (Z.eqb_spec (m_currentJob (mapper c)) (numFiles (mapper c))) as [Heq|Hne].
  - unfold retryMapper. destruct (phase_retry _ _ _ _ Hm) as [(j & ch & t & Hj & Hch & Ht & Hwant & ->)|[Hnone ->]];
      cbn [mbind outcome_bind]; [|right; left; by split].
    destruct (assign_map_ok c j w (m_currentJob (mapper c)) Hc Hj Hw) as (ch' & Hch' & Hassign & Hc'); [done|].
    rewrite Hassign. cbn [mbind outcome_bind].
    destruct (map_reply_cases _ j fs reply Hc' Hj) as [->|(reply' & -> & Ht' & Hj' & Hin & _)]; [by left|].
    right; right. eexists j, _, _. split; [done|]. split; [split; [done|right; split; [done|by exists ch, t]]|].
    split; [by do 2 eexists|]. done.
  - destruct (map_reply_cases c (m_currentJob (mapper c)) fs reply Hc) as [->|(reply' & -> & Ht' & Hj' & Hin & _)]; [lia|by left|].
    cbn [mbind outcome_bind].
    destruct (assign_map_ok c (m_currentJob (mapper c)) w (m_currentJob (mapper c) + 1) Hc) as (ch' & Hch' & -> & Hc'); [lia..|].
    right; right. eexists (m_currentJob (mapper c)), _, _. split; [done|]. split; [split; [lia|left; lia]|]. split; [by do 2 eexists|]. done.
Qed.

Lemma getReduceJob_cases c w order reply : coord_wf c → 0 < w →
  (reduce_exhausted c ∧ getReduceJob reply w order c = Ret (set_WorkType WAIT reply, c)) ∨
  (∃ j reply' c', getReduceJob reply w order c = Ret (reply', c') ∧ reduce_grantable c j ∧ reduce_assigned j w c c' ∧ coord_wf c' ∧
     wr_WorkType reply' = REDUCE ∧ wr_JobId reply' = j ∧ ReduceFileLocations reply' = getReduceFileLocations order c).
Proof.
  intros Hc Hw. unfold getReduceJob. pose proof (cw_reduce _ Hc) as Hm. pose proof (ph_cur _ _ _ _ Hm) as Hcur.
  destruct (Z.eqb_spec (r_currentJob (reducer c)) (Nreduce c)) as [Heq|Hne].
  - unfold retryReducer. destruct (phase_retry _ _ _ _ Hm) as [(j & ch & t & Hj & Hch & Ht & Hwant & ->)|[Hnone ->]];
      cbn [mbind outcome_bind]; [|left; by split].
    destruct (assign_reduce_ok c j w (r_currentJob (reducer c)) Hc Hj Hw) as (ch' & Hch' & -> & Hc'); [done|].
    right. eexists j, _, _. split; [done|]. split; [split; [done|right; split; [done|by exists ch, t]]|].
    split; [by do 2 eexists|]. done.
  - destruct (assign_reduce_ok c (r_currentJob (reducer c)) w (r_currentJob (reducer c) + 1) Hc) as (ch' & Hch' & -> & Hc'); [lia..|].
    right. eexists (r_currentJob (reducer c)), _, _. split; [done|]. split; [split; [lia|left; lia]|]. split; [by do 2 eexists|]. done.
Qed.

Lemma clearAllWork_eq c w : coord_wf c →
  clearAllWork w c =
  Ret (set_workers (delete w (Workers c)) (NextWorkerId c)
         (set_mapper (zip_with (clear_t w) (completedMappers (mapper c)) (mapperTimeout c))
            (mkMapTracker (map_files (mapper c)) (numFiles (mapper c)) (m_currentJob (mapper c))
               (clear1 w <$> completedMappers (mapper c)) (delete w (mapWorkerIds (mapper c)))) c)).
Proof.
  intros Hc. unfold clearAllWork, clearMapDeadWorker. rewrite clear_loop; [done|].
  by eapply phase_lens, cw_map.
Qed.

Lemma clearAllWork_wf c w c' : coord_wf c → clearAllWork w c = Ret c' → coord_wf c'.
Proof.
  intros Hc. rewrite clearAllWork_eq by done. intros <-%Ret_inj.
  pose proof (coord_map_update c _ _ _ (delete w (mapWorkerIds (mapper c))) Hc (phase_clear _ _ _ _ (cw_map _ Hc) w)) as Hc1.
  destruct Hc1 as [H1 H2 H3 H4 H5 H6]. split; try done. simpl in *.
  intros id a [_ Ha]%lookup_delete_Some. by apply (H5 id a).
Qed.

Lemma WorkerDead_ok c f : coord_wf c → 0 ≤ jf_JobId f < Nreduce c →
  ∃ c1 ch, clearAllWork (wl_WorkerId (UnreachableWorker f)) c = Ret c1 ∧
    completedReducers (reducer c) !! Z.to_nat (jf_JobId f) = Some ch ∧
    let c' := set_reducer (<[Z.to_nat (jf_JobId f) := 0]> (reducerTimeout c))
                (mkReduceTracker (r_currentJob (reducer c))
                   (<[Z.to_nat (jf_JobId f) := mkWorkChunk 0 (Completed ch)]> (completedReducers (reducer c)))
                   (reduceWorkerIds (reducer c))) c1 in
    WorkerDead f c = Ret c' ∧ coord_wf c'.
Proof.
  intros Hc Hj. unfold WorkerDead. set (w := wl_WorkerId _).
  pose proof (clearAllWork_eq c w Hc) as He. pose proof (clearAllWork_wf c w _ Hc He) as Hc1. rewrite He.
  set (c1 := set_workers _ _ _) in *. cbn [mbind outcome_bind].
  destruct (phase_job _ _ _ _ (cw_reduce _ Hc1) _ Hj) as (ch & t & Hch & _ & _ & Hg & Hs1 & Hs2).
  exists c1, ch. split; [done|]. split; [done|]. rewrite Hg. cbn [mbind outcome_bind]. rewrite Hs1, Hs2. split; [done|].
  apply coord_reduce_update; [done| |].
  - eapply phase_update; [apply Hc1|apply (ph_cur _ _ _ _ (cw_reduce _ Hc1))|by left].
  - intros Hd. eapply chunks_done_insert; [done|done|]. by apply (cw_done _ Hc1).
Qed.

Lemma DoSetup_wf c q : coord_wf c → coord_wf (DoSetup q c).2.
Proof.
  intros [H1 H2 H3 H4 H5 H6]. split; simpl; try done; [lia|].
  intros id a. rewrite lookup_insert_Some. intros [[<- _]|[_ Ha]]; [lia|]. specialize (H5 id a Ha). lia.
Qed.

(** The reported job exists. *)
Definition report_ok c (q : WorkComplete) : Prop :=
  match wc_WorkType q with
  | MAP => 0 ≤ wc_JobId q < numFiles (mapper c)
  | REDUCE => 0 ≤ wc_JobId q < Nreduce c
  | _ => True
  end.

Lemma WorkDone_wf c q fs : coord_wf c → report_ok c q → ∃ c' fs', WorkDone q c fs = Ret (c', fs') ∧ coord_wf c'.
Proof.
  intros Hc Hq. unfold WorkDone, report_ok in *. destruct (wc_WorkType q); try (by do 2 eexists).
  - destruct (phase_job _ _ _ _ (cw_map _ Hc) _ Hq) as (ch & t & Hch & _ & _ & -> & Hs1 & _). cbn [mbind outcome_bind].
    rewrite Hs1. do 2 eexists. split; [done|]. apply coord_map_update; [done|]. by apply phase_complete; [apply Hc|].
  - destruct (phase_job _ _ _ _ (cw_reduce _ Hc) _ Hq) as (ch & t & Hch & _ & _ & -> & Hs1 & _). cbn [mbind outcome_bind].
    rewrite Hs1. do 2 eexists. split; [done|]. apply coord_reduce_update; [done|by apply phase_complete; [apply Hc|]|].
    intros Hd. eapply chunks_done_insert; [done..|]. by apply (cw_done _ Hc).
Qed.

Lemma updateMapper_eq c : coord_wf c →
  updateMapper c = Ret (set_mapper (zip_with tick1 (completedMappers (mapper c)) (mapperTimeout c)) (mapper c) c).
Proof. intros Hc. unfold updateMapper. rewrite tick_loop; [done|]. by eapply phase_lens, cw_map. Qed.

Lemma updateReducer_eq c : coord_wf c →
  updateReducer c = Ret (set_reducer (zip_with tick1 (completedReducers (reducer c)) (reducerTimeout c)) (reducer c) c).
Proof. intros Hc. unfold updateReducer. rewrite tick_loop; [done|]. by eapply phase_lens, cw_reduce. Qed.

Lemma updateMapper_wf c : coord_wf c → ∃ c', updateMapper c = Ret c' ∧ coord_wf c'.
Proof.
  intros Hc. rewrite updateMapper_eq by done. eexists. split; [done|]. destruct Hc as [H1 H2 H3 H4 H5 H6].
  split; try done. simpl. by apply phase_tick.
Qed.

Lemma updateReducer_wf c : coord_wf c → ∃ c', updateReducer c = Ret c' ∧ coord_wf c'.
Proof.
  intros Hc. rewrite updateReducer_eq by done. eexists. split; [done|]. destruct Hc as [H1 H2 H3 H4 H5 H6].
  split; try done. simpl. by apply phase_tick.
Qed.

Lemma tick_wf c : coord_wf c → ∃ c', serverHandler_tick c = Ret c' ∧ coord_wf c'.
Proof.
  intros Hc. unfold serverHandler_tick.
  assert (Hc1 : coord_wf (if mapper_isDone (mapper c) && reducer_isDone (reducer c) then set_IsDone true c else c)).
  { destruct (mapper_isDone (mapper c)), (reducer_isDone (reducer c)) eqn:E; simpl; try done. by destruct Hc. }
  destruct (negb _); [by apply updateMapper_wf|by apply updateReducer_wf].
Qed.

Lemma MakeCoordinator_wf input n fs : 0 ≤ n → ∃ c fs', MakeCoordinator input n fs = Ret (c, fs') ∧ coord_wf c ∧
  Nreduce c = n ∧ map_files (mapper c) = input.
Proof.
  intros Hn. unfold MakeCoordinator. destruct (Z.ltb_spec n 0); [lia|]. do 2 eexists. split; [done|].
  assert (Htr : ∀ k, Forall2 tracked (replicate k (mkWorkChunk 0 false)) (replicate k 0)).
  { induction k; simpl; constructor; [by left|done]. }
  split; [|done]. split; simpl; try done.
  - split; [unfold go_len; by rewrite length_replicate|unfold go_len; lia|done].
  - split; [unfold go_len; rewrite length_replicate; lia|lia|done].
Qed.

(** ** Executions *)

(** What can happen to the coordinator: a call of one of its handlers, or an
    iteration of [serverHandler]. *)
Inductive event :=
| EGetWork (q : WorkRequest) (order : list Z)
| EWorkerDead (f : JobFailed)
| EDoSetup (q : SetupRequest)
| EWorkDone (q : WorkComplete)
| ETick.

Definition apply_event (e : event) (s : Coordinator * FS) : outcome (Coordinator * FS) :=
  let '(c, fs) := s in
  match e with
  | EGetWork q order => '(_, c') ← GetWork q WorkReply0 order c fs; Ret (c', fs)
  | EWorkerDead f => c' ← WorkerDead f c; Ret (c', fs)
  | EDoSetup q => Ret ((DoSetup q c).2, fs)
  | EWorkDone q => WorkDone q c fs
  | ETick => c' ← serverHandler_tick c; Ret (c', fs)
  end.

(** What workers send: their own positive id, and jobs that exist. *)
Definition event_ok c (e : event) : Prop :=
  match e with
  | EGetWork q order => 0 < wq_WorkerId q ∧ order ≡ₚ (map_to_list (mapWorkerIds (mapper c))).*1
  | EWorkerDead f => 0 ≤ jf_JobId f < Nreduce c
  | EWorkDone q => report_ok c q
  | _ => True
  end.

(** The states after a history of events, each of which satisfies [ok] where it
    happens. *)
Inductive history (ok : Coordinator → event → Prop) (input : list string) (n : Z) (fs0 : FS) :
    list event → Coordinator → FS → Prop :=
| hist_start c fs : MakeCoordinator input n fs0 = Ret (c, fs) → history ok input n fs0 [] c fs
| hist_event es e c fs c' fs' :
    history ok input n fs0 es c fs → ok c e → apply_event e (c, fs) = Ret (c', fs') →
    history ok input n fs0 (es ++ [e])%list c' fs'.

(** No event changes the number of reduce jobs. *)
Lemma apply_event_Nreduce e c fs c' fs' : apply_event e (c, fs) = Ret (c', fs') → Nreduce c' = Nreduce c.
Proof.
  assert (Ham : ∀ j w cur c c', assign_map j w cur c = Ret c' → Nreduce c' = Nreduce c) by (intros *; unfold assign_map; intros; by go_inv).
  assert (Har : ∀ j w cur c c', assign_reduce j w cur c = Ret c' → Nreduce c' = Nreduce c) by (intros *; unfold assign_reduce; intros; by go_inv).
  destruct e as [q order|f|q|q|]; simpl; intros Hap; go_inv; try done.
  - revert H0. unfold GetWork, getMapJob, getReduceJob, retryMapper, retryReducer.
    destruct (IsDone c); [intros; by go_inv|]. destruct (mapper_isDone _); case_match; intros; go_inv;
      repeat (case_match; go_inv); simplify_eq; try done; eauto.
  - unfold WorkerDead, clearAllWork, clearMapDeadWorker in *. by go_inv.
  - unfold WorkDone in Hap. destruct (wc_WorkType q); by go_inv.
  - unfold serverHandler_tick, updateMapper, updateReducer in *. destruct (_ && _), (negb _); go_inv; done.
Qed.

Lemma GetWork_wf c q order fs : coord_wf c → 0 < wq_WorkerId q →
  GetWork q WorkReply0 order c fs = Exit ∨ ∃ reply c', GetWork q WorkReply0 order c fs = Ret (reply, c') ∧ coord_wf c'.
Proof.
  intros Hc Hw. unfold GetWork. destruct (IsDone c); [right; by do 2 eexists|]. destruct (mapper_isDone _).
  - right. destruct (getReduceJob_cases c (wq_WorkerId q) order WorkReply0 Hc Hw) as [[_ ->]|(j & r & c' & -> & _ & _ & Hc' & _)];
      by do 2 eexists.
  - destruct (getMapJob_cases c (wq_WorkerId q) fs WorkReply0 Hc Hw) as [->|[[_ ->]|(j & r & c' & -> & _ & _ & Hc' & _)]];
      [by left|right; by do 2 eexists..].
Qed.

Lemma apply_event_wf e c fs : coord_wf c → event_ok c e →
  apply_event e (c, fs) = Exit ∨ ∃ c' fs', apply_event e (c, fs) = Ret (c', fs') ∧ coord_wf c'.
Proof.
  intros Hc He. destruct e as [q order|f|q|q|]; simpl in *.
  - destruct (GetWork_wf c q order fs Hc) as [->|(r & c' & -> & Hc')]; [apply He|by left|right; by do 2 eexists].
  - right. destruct (WorkerDead_ok c f Hc He) as (c1 & ch & _ & _ & -> & Hc'). by do 2 eexists.
  - right. do 2 eexists. split; [done|]. by apply DoSetup_wf.
  - right. by apply WorkDone_wf.
  - right. destruct (tick_wf c Hc) as (c' & -> & Hc'). by do 2 eexists.
Qed.

Lemma history_wf (ok : Coordinator → event → Prop) input n fs0 es c fs :
  (∀ c e, ok c e → event_ok c e) → 0 ≤ n → history ok input n fs0 es c fs → coord_wf c ∧ Nreduce c = n.
Proof.
  intros Hok Hn. induction 1 as [c fs Hm|es e c fs c' fs' _ [IH Hr] He Hap].
  - destruct (MakeCoordinator_wf input n fs0 Hn) as (c1 & fs1 & Hm1 & Hc & Hr & _). rewrite Hm1 in Hm.
    by apply Ret_pair_inj in Hm as [<- _].
  - destruct (apply_event_wf e c fs IH (Hok _ _ He)) as [|(c1 & fs1 & Hap1 & Hc1)]; [congruence|].
    split; [congruence|]. rewrite <-Hr. by apply (apply_event_Nreduce e c fs c' fs').
Qed.

End Protocol.
