(* ===== verification/MRCorrect.v ===== *)
(** * Lab2_MapReduce: what the coordinator guarantees

    The theorems about executions of the coordinator, on top of MRProtocol. *)

From S2P Require Import Prelude GoFiles MRCoordinator MRProtocol.
From stdpp Require Import pretty.
Open Scope string_scope.
Open Scope Z_scope.

(** ** A run for examples: one input file, one reduce job *)

Definition demo_disk : MemFS := mkMemFS {["in" := "x y"]} ∅.
Definition demo_order (c : Coordinator) : list Z := (map_to_list (mapWorkerIds (mapper c))).*1.

Definition demo_coord : Coordinator * MemFS :=
  match @MakeCoordinator MemFS mem_fs ["in"] 1 demo_disk with Ret s => s | _ => (mkCoordinator false 0 [] [] ∅ 1 (mkMapTracker [] 0 0 [] ∅) (mkReduceTracker 0 [] ∅), demo_disk) end.

(** Worker 1 registers, maps and reduces; then the handler loop runs once. *)
Definition demo_events : list event :=
  [EDoSetup (mkSetupRequest "w1"); EGetWork (mkWorkRequest 1) []; EWorkDone (mkWorkComplete MAP 0 "" 1);
   EGetWork (mkWorkRequest 1) [1]; EWorkDone (mkWorkComplete REDUCE 0 "x 1" 1); ETick].

Definition event_okb (c : Coordinator) (e : event) : bool :=
  match e with
  | EGetWork q order => (0 <? wq_WorkerId q) && bool_decide (order = (map_to_list (mapWorkerIds (mapper c))).*1)
  | EWorkerDead f => (0 <=? jf_JobId f) && (jf_JobId f <? Nreduce c)
  | EWorkDone q => match wc_WorkType q with
                   | MAP => (0 <=? wc_JobId q) && (wc_JobId q <? numFiles (mapper c))
                   | REDUCE => (0 <=? wc_JobId q) && (wc_JobId q <? Nreduce c)
                   | _ => true
                   end
  | _ => true
  end.

Lemma event_okb_ok c e : event_okb c e = true → event_ok c e.
Proof.
  destruct e as [q order|f|q|q|]; simpl; try done.
  - intros [Hq Ho]%andb_true_iff. apply bool_decide_eq_true in Ho as ->. split; [lia|done].
  - intros. lia.
  - unfold report_ok. destruct (wc_WorkType q); done || lia.
Qed.

(** Runs the events while they are allowed. *)
Fixpoint check_events (okb : Coordinator → event → bool) (es : list event) (s : Coordinator * MemFS) : outcome (Coordinator * MemFS) :=
  match es with
  | [] => Ret s
  | e :: es' => if okb s.1 e then s' ← apply_event e s; check_events okb es' s' else Panic
  end.

Lemma check_events_history ok okb input n fs0 es es' c fs c' fs' :
  (∀ c e, okb c e = true → ok c e) →
  history ok input n fs0 es c fs → check_events okb es' (c, fs) = Ret (c', fs') →
  history ok input n fs0 (es ++ es')%list c' fs'.
Proof.
  intros Hokb. revert es c fs. induction es' as [|e es' IH]; intros es c fs Hh Hr; simpl in Hr.
  - rewrite app_nil_r. by apply Ret_pair_inj in Hr as [<- <-].
  - destruct (okb c e) eqn:He; [|done]. apply bind_Ret_inv in Hr as ([c1 fs1] & Hap & Hr).
    rewrite (app_assoc es [e] es' : es ++ e :: es' = _)%list. eapply IH; [|done].
    eapply hist_event; [done|by apply Hokb|done].
Qed.

(** ** Safety *)


Definition demo_final : Coordinator * MemFS :=
  match check_events event_okb demo_events demo_coord with Ret s => s | _ => demo_coord end.

Lemma demo_history : @history MemFS mem_fs event_ok ["in"] 1 demo_disk demo_events demo_final.1 demo_final.2.
Proof.
  apply (check_events_history event_ok event_okb ["in"] 1 demo_disk [] demo_events demo_coord.1 demo_coord.2).
  - apply event_okb_ok.
  - apply hist_start. reflexivity.
  - vm_compute. reflexivity.
Qed.


(** ** Which work is handed out *)

Definition inputs_open {FS} `{FileSystem FS} (c : Coordinator) (fs : FS) : Prop :=
  ∀ name, name ∈ map_files (mapper c) → os_Open name fs = true.

Lemma getMapJob_returns {FS} `{FileSystem FS} c w (fs : FS) reply : coord_wf c → 0 < w → inputs_open c fs →
  getMapJob reply w c fs ≠ Exit.
Proof.
  intros Hc Hw Ho. unfold getMapJob.
  assert (Hrep : ∀ c' j, map_files (mapper c') = map_files (mapper c) → map_reply j c' fs reply ≠ Exit).
  { intros c' j Hf. unfold map_reply, getMapFileContent. rewrite Hf. destruct (slice_get _ j) as [name| |] eqn:E; [|done|].
    - cbn [mbind outcome_bind]. apply slice_get_Ret in E as [_ E%list_elem_of_lookup_2]. by rewrite Ho.
    - unfold slice_get in E. destruct (j <? 0); [done|]. by destruct (_ !! _). }
  pose proof (cw_map _ Hc) as Hm. pose proof (ph_cur _ _ _ _ Hm).
  destruct (Z.eqb_spec (m_currentJob (mapper c)) (numFiles (mapper c))) as [Heq|Hne].
  - unfold retryMapper. destruct (phase_retry _ _ _ _ Hm) as [(j & ch & t & Hj & _ & _ & _ & ->)|[_ ->]]; [|done].
    cbn [mbind outcome_bind]. destruct (assign_map_ok c j w (m_currentJob (mapper c)) Hc Hj Hw) as (ch' & _ & -> & _); [done|].
    cbn [mbind outcome_bind]. match goal with |- context [map_reply j ?c' fs reply] => specialize (Hrep c' j eq_refl); by destruct (map_reply j c' fs reply) end.
  - specialize (Hrep c (m_currentJob (mapper c)) eq_refl). destruct (map_reply _ c fs reply); [|done..]. cbn [mbind outcome_bind].
    by destruct (assign_map_ok c (m_currentJob (mapper c)) w (m_currentJob (mapper c) + 1) Hc) as (ch' & _ & -> & _); [lia..|].
Qed.


Lemma demo_coord_wf : coord_wf demo_coord.1.
Proof. destruct (@MakeCoordinator_wf MemFS mem_fs ["in"] 1 demo_disk ltac:(lia)) as (c & fs & Hm & Hc & _). unfold demo_coord. by rewrite Hm. Qed.

Lemma demo_inputs_open : @inputs_open MemFS mem_fs demo_coord.1 demo_coord.2.
Proof. intros name Hn. apply list_elem_of_singleton in Hn as ->. vm_compute. reflexivity. Qed.


(** ** Progress *)

(** [k] iterations of [serverHandler] with no event between them. *)
Fixpoint ticks (k : nat) (c : Coordinator) : outcome Coordinator :=
  match k with
  | O => Ret c
  | S k' => c' ← serverHandler_tick c; ticks k' c'
  end.

Lemma iter_tick chunks (ts : list Z) k i ch t :
  chunks !! i = Some ch → ts !! i = Some t →
  Nat.iter k (zip_with tick1 chunks) ts !! i = Some (if (t >? 0) && inProgress ch then t + Z.of_nat k else t).
Proof.
  intros Hch Ht. induction k as [|k IH]; simpl.
  - rewrite Ht. f_equal. case_match; lia.
  - rewrite lookup_zip_with, Hch, IH. simpl. f_equal. unfold tick1.
    destruct (Z.gtb_spec t 0), (inProgress ch); simpl.
    + destruct (Z.gtb_spec (t + Z.of_nat k) 0); simpl; lia.
    + by rewrite andb_false_r.
    + destruct (Z.gtb_spec t 0); [lia|done].
    + by rewrite andb_false_r.
Qed.

Lemma ticks_map k c : coord_wf c → mapper_isDone (mapper c) = false →
  ∃ c', ticks k c = Ret c' ∧ coord_wf c' ∧
  c' = set_mapper (Nat.iter k (zip_with tick1 (completedMappers (mapper c))) (mapperTimeout c)) (mapper c) c.
Proof.
  revert c. induction k as [|k IH]; intros c Hc Hm; cbn [ticks]; [exists c; by destruct c|].
  unfold serverHandler_tick. rewrite Hm. cbn [andb negb].
  destruct (updateMapper_wf c Hc) as (c1 & Hu & Hc1). pose proof Hu as Heq. rewrite updateMapper_eq in Heq by done.
  apply Ret_inj in Heq. rewrite Hu. cbn [mbind outcome_bind].
  destruct (IH c1 Hc1) as (c' & -> & Hc' & ->); [by subst c1|]. eexists. split; [done|]. split; [done|].
  rewrite Nat.iter_succ_r. by rewrite <-Heq.
Qed.

Lemma ticks_reduce k c : coord_wf c → mapper_isDone (mapper c) = true → reducer_isDone (reducer c) = false →
  ∃ c', ticks k c = Ret c' ∧ coord_wf c' ∧
  c' = set_reducer (Nat.iter k (zip_with tick1 (completedReducers (reducer c))) (reducerTimeout c)) (reducer c) c.
Proof.
  revert c. induction k as [|k IH]; intros c Hc Hm Hr; cbn [ticks]; [exists c; by destruct c|].
  unfold serverHandler_tick. rewrite Hm, Hr. cbn [andb negb].
  destruct (updateReducer_wf c Hc) as (c1 & Hu & Hc1). pose proof Hu as Heq. rewrite updateReducer_eq in Heq by done.
  apply Ret_inj in Heq. rewrite Hu. cbn [mbind outcome_bind].
  destruct (IH c1 Hc1) as (c' & -> & Hc' & ->); [by subst c1..|]. eexists. split; [done|]. split; [done|].
  rewrite Nat.iter_succ_r. by rewrite <-Heq.
Qed.

(** After ten ticks a phase with an uncompleted job has one to hand out. *)
Lemma stalled_not_exhausted n cur chunks ts : phase_ok n cur chunks ts → chunks_done chunks = false →
  ¬ exhausted n cur chunks (Nat.iter 10 (zip_with tick1 chunks) ts).
Proof.
  intros Hph Hd [_ Hnone]. assert (∃ i ch, chunks !! i = Some ch ∧ Completed ch = false) as (i & ch & Hch & Hcp).
  { apply not_true_iff_false in Hd. unfold chunks_done in Hd. rewrite forallb_forall in Hd.
    clear Hnone Hph. induction chunks as [|ch chs IH]; [by destruct Hd|]. destruct (Completed ch) eqn:E; [|by exists 0%nat, ch].
    destruct IH as (i & ch' & ? & ?); [|by exists (S i), ch']. intros Hall. apply Hd. intros x [<-|Hx]; [done|by apply Hall]. }
  destruct (Forall2_lookup_l _ _ _ _ _ (ph_tracked _ _ _ _ Hph) Hch) as (t & Ht & Htr).
  specialize (Hnone i ch _ Hch (iter_tick chunks ts 10 i ch t Hch Ht)). unfold retry_wanted, inProgress, TIMEOUT in Hnone.
  rewrite Hcp in Hnone. destruct Htr as [[Hw ->]|[Hw Ht1]]; [by rewrite Hw in Hnone|].
  destruct (Z.gtb_spec t 0), (Z.gtb_spec (WorkerId ch) 0); try lia. cbn [andb negb] in Hnone.
  destruct (Z.gtb_spec (t + Z.of_nat 10) 10); [done|lia].
Qed.

(** C19 (no job is stuck).  If some job is not completed, then after ten ticks in
    which nothing is reported, the next worker that asks for work is given a job
    of the current phase: a map job while a map job is missing, a reduce job
    afterwards; it is never told to wait. *)
Theorem stalled_work_returns {FS : Type} `{FileSystem FS} (q : WorkRequest) (order : list Z) (c : Coordinator) (fs : FS) :
  coord_wf c → IsDone c = false → mapper_isDone (mapper c) && reducer_isDone (reducer c) = false →
  0 < wq_WorkerId q → inputs_open c fs →
  ∃ c1 reply c2, ticks 10 c = Ret c1 ∧ GetWork q WorkReply0 order c1 fs = Ret (reply, c2) ∧
    wr_WorkType reply = (if mapper_isDone (mapper c) then REDUCE else MAP).
Proof.
  intros Hc Hd Hnd Hw Ho. destruct (mapper_isDone (mapper c)) eqn:Hm; simpl in Hnd.
  - destruct (ticks_reduce 10 c Hc Hm Hnd) as (c1 & -> & Hc1 & Heq).
    pose proof (stalled_not_exhausted _ _ _ _ (cw_reduce _ Hc) Hnd) as Hne.
    exists c1. unfold GetWork. rewrite Heq in *. cbn [IsDone set_reducer mapper]. rewrite Hd, Hm.
    destruct (getReduceJob_cases _ (wq_WorkerId q) order WorkReply0 Hc1 Hw) as
      [[Hex _]|(j & reply & c' & Hg & _ & _ & _ & Ht & _)]; [by destruct Hne|]. by do 2 eexists.
  - destruct (ticks_map 10 c Hc Hm) as (c1 & -> & Hc1 & Heq).
    pose proof (stalled_not_exhausted _ _ _ _ (cw_map _ Hc) Hm) as Hne.
    exists c1. unfold GetWork. rewrite Heq in *. cbn [IsDone set_mapper mapper]. rewrite Hd, Hm.
    pose proof (getMapJob_returns _ (wq_WorkerId q) fs WorkReply0 Hc1 Hw Ho) as Hex.
    destruct (getMapJob_cases _ (wq_WorkerId q) fs WorkReply0 Hc1 Hw) as
      [|[[Hex' _]|(j & reply & c' & Hg & _ & _ & _ & Ht & _)]]; [done|by destruct Hne|]. by do 2 eexists.
Qed.

(** Worker 1 took the only map job and never reports. *)
Definition demo_stalled : Coordinator * MemFS :=
  match check_events event_okb [EGetWork (mkWorkRequest 1) []] demo_coord with Ret s => s | _ => demo_coord end.

Lemma demo_stalled_wf : coord_wf demo_stalled.1.
Proof.
  apply (history_wf (FS := MemFS) event_ok ["in"] 1 demo_disk [EGetWork (mkWorkRequest 1) []] _ demo_stalled.2 (λ _ _ H, H)); [lia|].
  apply (check_events_history event_ok event_okb ["in"] 1 demo_disk [] _ demo_coord.1 demo_coord.2);
    [apply event_okb_ok|by apply hist_start|vm_compute; reflexivity].
Qed.

Lemma stalled_work_returns_witness : ∃ c1 reply c2,
  ticks 10 demo_stalled.1 = Ret c1 ∧
  @GetWork MemFS mem_fs (mkWorkRequest 2) WorkReply0 [1] c1 demo_stalled.2 = Ret (reply, c2) ∧ wr_WorkType reply = MAP.
Proof.
  apply (@stalled_work_returns MemFS mem_fs (mkWorkRequest 2) [1] demo_stalled.1 demo_stalled.2);
    [apply demo_stalled_wf|reflexivity|reflexivity|simpl; lia|].
  intros name Hn. apply list_elem_of_singleton in Hn as ->. vm_compute. reflexivity.
Defined.

(** ** The output files *)

(** The content of the last report of reduce job [j]. *)
Definition reported (j : Z) (e : event) : option string :=
  match e with
  | EWorkDone q => match wc_WorkType q with
                   | REDUCE => if wc_JobId q =? j then Some (wc_OutputFile q) else None
                   | _ => None
                   end
  | _ => None
  end.

Fixpoint last_output (j : Z) (es : list event) : option string :=
  match es with
  | [] => None
  | e :: es' => match last_output j es' with Some x => Some x | None => reported j e end
  end.

Lemma last_output_snoc j es e :
  last_output j (es ++ [e])%list = match reported j e with Some x => Some x | None => last_output j es end.
Proof. induction es as [|e' es IH]; simpl; [by destruct (reported j e)|]. rewrite IH. by destruct (reported j e). Qed.

Lemma outputPath_inj i j : outputPath i = outputPath j → i = j.
Proof. unfold outputPath. intros Hp. do 2 apply (inj (String.append _)) in Hp. by apply (inj pretty) in Hp. Qed.

Section Outputs.
Context {FS : Type} `{FileSystemLaws FS}.

(** Output files can be created and written: [writable] holds of the disk the
    coordinator prepares and is kept by writing an output file. *)
Definition outputs_writable (n : Z) (writable : FS → Prop) : Prop :=
  ∀ j content fs, 0 ≤ j < n → writable fs → ∃ fs1 fs2,
    os_Create (outputPath j) fs = Some fs1 ∧ file_Write (outputPath j) content fs1 = (fs2, true) ∧ writable fs2.

(** The disk holds what was reported for job [j]. *)
Definition output_ok (j : Z) (es : list event) (fs : FS) : Prop :=
  ∃ content, last_output j es = Some content ∧ io_ReadAll (outputPath j) fs = Some content.

Definition outputs_ok (es : list event) (c : Coordinator) (fs : FS) : Prop :=
  ∀ i ch, completedReducers (reducer c) !! i = Some ch → Completed ch = true → output_ok (Z.of_nat i) es fs.

Lemma write_output_spec n writable j content fs : outputs_writable n writable → 0 ≤ j < n → writable fs →
  writable (write_output j content fs) ∧ io_ReadAll (outputPath j) (write_output j content fs) = Some content ∧
  ∀ i, i ≠ j → io_ReadAll (outputPath i) (write_output j content fs) = io_ReadAll (outputPath i) fs.
Proof.
  intros Hw Hj Hfs. destruct (Hw j content fs Hj Hfs) as (fs1 & fs2 & Hc & Hwr & Hfs2). unfold write_output. rewrite Hc, Hwr. simpl.
  split; [done|]. split; [by eapply write_read|]. intros i Hi.
  assert (Hp : outputPath j ≠ outputPath i) by (intros ?%outputPath_inj; congruence).
  pose proof (write_other (outputPath j) (outputPath i) content fs1 Hp) as [_ Hr]. rewrite Hwr in Hr. simpl in Hr.
  by rewrite Hr, (proj2 (create_other _ _ _ _ Hp Hc)).
Qed.

(** Events other than a reduce report leave the disk, and which reducers are
    completed, alone. *)
Lemma other_event e c fs c' fs' : (∀ j, reported j e = None) → coord_wf c → event_ok c e →
  apply_event e (c, fs) = Ret (c', fs') →
  fs' = fs ∧ ∀ i ch, completedReducers (reducer c') !! i = Some ch →
    ∃ ch0, completedReducers (reducer c) !! i = Some ch0 ∧ Completed ch0 = Completed ch.
Proof.
  intros Hrep Hc He Hap.
  assert (Hins : ∀ (l : list WorkChunk) (i j : nat) (w : Z) (ch0 ch : WorkChunk), l !! j = Some ch0 → <[j := mkWorkChunk w (Completed ch0)]> l !! i = Some ch →
    ∃ ch1, l !! i = Some ch1 ∧ Completed ch1 = Completed ch).
  { intros l i j w ch0 ch Hj Hi. destruct (decide (j = i)) as [<-|].
    - rewrite list_lookup_insert_eq in Hi by (by eapply lookup_lt_Some). injection Hi as <-. eauto.
    - rewrite list_lookup_insert_ne in Hi by done. eauto. }
  destruct e as [q order|f|q|q|]; simpl in *.
  - apply bind_Ret_inv in Hap as ([reply c1] & Hg & Hap). go_inv. split; [done|]. unfold GetWork in Hg.
    destruct (IsDone c); [go_inv; eauto|]. destruct (mapper_isDone (mapper c)).
    + destruct (getReduceJob_cases c (wq_WorkerId q) order WorkReply0 Hc (proj1 He)) as
        [[_ Hg']|(j & r & c2 & Hg' & _ & (ch0 & cur & Hch0 & ->) & _)]; rewrite Hg' in Hg; go_inv; [eauto|].
      simpl. intros i ch. by apply Hins.
    + destruct (getMapJob_cases c (wq_WorkerId q) fs' WorkReply0 Hc (proj1 He)) as
        [Hg'|[[_ Hg']|(j & r & c2 & Hg' & _ & (ch0 & cur & Hch0 & ->) & _)]]; rewrite Hg' in Hg; go_inv; simpl; eauto.
  - apply bind_Ret_inv in Hap as (c1 & Hd & Hap). go_inv. split; [done|].
    destruct (WorkerDead_ok c f Hc He) as (c2 & ch0 & _ & Hch0 & Hd' & _). rewrite Hd' in Hd. go_inv. simpl.
    intros i ch. by apply Hins.
  - go_inv. simpl. eauto.
  - unfold WorkDone in Hap. destruct (wc_WorkType q) eqn:Ht; go_inv; simpl; eauto.
    specialize (Hrep (wc_JobId q)). rewrite Z.eqb_refl in Hrep. done.
  - apply bind_Ret_inv in Hap as (c1 & Hd & Hap). go_inv. split; [done|]. unfold serverHandler_tick, updateMapper, updateReducer in Hd.
    destruct (mapper_isDone (mapper c) && reducer_isDone (reducer c)), (negb (mapper_isDone (mapper c))); go_inv; simpl; eauto.
Qed.

Lemma outputs_step writable es e c fs c' fs' : outputs_writable (Nreduce c) writable → coord_wf c → event_ok c e →
  apply_event e (c, fs) = Ret (c', fs') → writable fs → outputs_ok es c fs →
  writable fs' ∧ outputs_ok (es ++ [e])%list c' fs'.
Proof.
  intros Hw Hc He Hap Hfs Hok.
  assert (Hcases : (∀ j, reported j e = None) ∨ ∃ q, e = EWorkDone q ∧ wc_WorkType q = REDUCE).
  { destruct e as [| | |q|]; try (by left). destruct (decide (wc_WorkType q = REDUCE)) as [|Hne]; [right; by exists q|].
    left. intros j. simpl. by destruct (wc_WorkType q). }
  destruct Hcases as [Hrep|(q & -> & Ht)].
  - destruct (other_event e c fs c' fs' Hrep Hc He Hap) as [-> Hch]. split; [done|]. intros i ch Hi Hcp.
    destruct (Hch i ch Hi) as (ch0 & Hi0 & Hcp0). destruct (Hok i ch0 Hi0) as (content & Hl & Hr); [congruence|].
    exists content. by rewrite last_output_snoc, Hrep.
  - cbn [apply_event] in Hap. unfold WorkDone in Hap. rewrite Ht in Hap. go_inv.
    match goal with Hg : slice_get _ _ = Ret _ |- _ => apply slice_get_Ret in Hg as [Hj Hx] end.
    match goal with Hg : slice_set _ _ _ = Ret _ |- _ => apply slice_set_Ret in Hg as [_ ->] end.
    destruct (write_output_spec _ writable (wc_JobId q) (wc_OutputFile q) fs Hw) as (Hfs' & Hsame & Hoth); [|done|].
    { simpl in He. unfold report_ok in He. by rewrite Ht in He. }
    split; [done|]. intros i ch Hi Hcp. simpl in Hi. unfold output_ok. rewrite last_output_snoc. simpl. rewrite Ht.
    destruct (Z.eqb_spec (wc_JobId q) (Z.of_nat i)) as [Heq|Hne].
    + exists (wc_OutputFile q). by rewrite <-Heq.
    + rewrite list_lookup_insert_ne in Hi by lia. destruct (Hok i ch Hi Hcp) as (content & Hl & Hr).
      exists content. split; [done|]. by rewrite Hoth by done.
Qed.

End Outputs.

Lemma history_outputs {FS} `{FileSystemLaws FS} writable input n (fs0 : FS) es c fs :
  0 ≤ n → outputs_writable n writable →
  (∀ c fs, MakeCoordinator input n fs0 = Ret (c, fs) → writable fs) →
  history event_ok input n fs0 es c fs → writable fs ∧ outputs_ok es c fs.
Proof.
  intros Hn Hw Hstart. induction 1 as [c fs Hm|es e c fs c' fs' Hh [IHw IHo] He Hap].
  - split; [by eapply Hstart|]. unfold MakeCoordinator in Hm. destruct (n <? 0); [done|]. go_inv.
    intros i ch Hi Hcp. apply lookup_replicate in Hi as [-> _]. done.
  - destruct (history_wf event_ok input n fs0 es c fs (λ _ _ H, H) Hn Hh) as [Hc <-].
    by apply (outputs_step writable es e c fs c' fs').
Qed.

Lemma history_delivered {FS : Type} `{FileSystemLaws FS} (writable : FS → Prop) (input : list string) (n : Z)
    (fs0 : FS) (es : list event) (c : Coordinator) (fs : FS) (j : Z) :
  0 ≤ n → outputs_writable n writable →
  (∀ c fs, MakeCoordinator input n fs0 = Ret (c, fs) → writable fs) →
  history event_ok input n fs0 es c fs → Done c = true → 0 ≤ j < n →
  ∃ content, last_output j es = Some content ∧ io_ReadAll (outputPath j) fs = Some content.
Proof.
  intros Hn Hw Hstart Hh Hd Hj. destruct (history_outputs writable input n fs0 es c fs Hn Hw Hstart Hh) as [_ Hok].
  destruct (history_wf event_ok input n fs0 es c fs (λ _ _ H, H) Hn Hh) as [Hc Hr].
  pose proof (cw_done _ Hc Hd) as Hall. unfold reducer_isDone, chunks_done in Hall. rewrite forallb_forall in Hall.
  destruct (phase_job _ _ _ _ (cw_reduce _ Hc) j) as (ch & _ & Hch & _); [lia|].
  specialize (Hok _ _ Hch). rewrite Z2Nat.id in Hok by lia. apply Hok, Hall, list_elem_of_In. by eapply list_elem_of_lookup_2.
Qed.


