(* ===== verification/MRFaults.v ===== *)
(** * Lab2_MapReduce: lost workers

    What the coordinator does when a worker is reported unreachable, where the
    locations it sends to reducers come from, and how a late report of a map job
    leads reducers past the data. *)

From S2P Require Import Prelude GoFiles MRCoordinator MRProtocol MRCorrect.
Open Scope string_scope.
Open Scope Z_scope.

(** A map phase with a job that wants a retry hands one out. *)
Lemma getMapJob_retry {FS} `{FileSystem FS} c w (fs : FS) i ch t : coord_wf c → 0 < w → inputs_open c fs →
  completedMappers (mapper c) !! i = Some ch → mapperTimeout c !! i = Some t → retry_wanted ch t = true →
  ∃ reply c', getMapJob WorkReply0 w c fs = Ret (reply, c') ∧ wr_WorkType reply = MAP.
Proof.
  intros Hc Hw Ho Hch Ht Hr. pose proof (getMapJob_returns c w fs WorkReply0 Hc Hw Ho) as Hne.
  destruct (getMapJob_cases c w fs WorkReply0 Hc Hw) as [|[[[_ Hex] _]|(j & reply & c' & -> & _ & _ & _ & Ht' & _)]];
    [done| |by do 2 eexists]. by rewrite (Hex i ch t Hch Ht) in Hr.
Qed.

(** C25 (work of a lost worker is redone).  [WorkerDead] removes the worker from
    the address table and from the list of map workers, takes every map job it
    held away from it - completed or not - and clears the reduce job that found
    it unreachable; all other map jobs stay as they are.  If the worker held a map
    job, the next worker that asks is given a map job. *)
Theorem WorkerDead_reissues {FS : Type} `{FileSystem FS} (f : JobFailed) (c : Coordinator) (fs : FS)
    (q : WorkRequest) (order : list Z) :
  let w := wl_WorkerId (UnreachableWorker f) in
  coord_wf c → 0 ≤ jf_JobId f < Nreduce c →
  ∃ c', WorkerDead f c = Ret c' ∧ coord_wf c' ∧
    Workers c' = delete w (Workers c) ∧ mapWorkerIds (mapper c') = delete w (mapWorkerIds (mapper c)) ∧
    (∀ i ch, completedMappers (mapper c) !! i = Some ch →
       completedMappers (mapper c') !! i = Some (if WorkerId ch =? w then mkWorkChunk 0 false else ch) ∧
       (WorkerId ch = w → mapperTimeout c' !! i = Some 0)) ∧
    (∃ ch, completedReducers (reducer c') !! Z.to_nat (jf_JobId f) = Some ch ∧ WorkerId ch = 0) ∧
    reducerTimeout c' !! Z.to_nat (jf_JobId f) = Some 0 ∧
    (IsDone c = false → 0 < wq_WorkerId q → inputs_open c fs →
     (∃ i ch, completedMappers (mapper c) !! i = Some ch ∧ WorkerId ch = w) →
     ∃ reply c'', GetWork q WorkReply0 order c' fs = Ret (reply, c'') ∧ wr_WorkType reply = MAP).
Proof.
  intros w Hc Hj. destruct (WorkerDead_ok c f Hc Hj) as (c1 & chr & Hclr & Hchr & Hd & Hc').
  rewrite clearAllWork_eq in Hclr by done. apply Ret_inj in Hclr.
  set (c' := set_reducer _ _ c1) in *. fold w in Hclr.
  assert (Hmaps : ∀ i ch, completedMappers (mapper c) !! i = Some ch →
    completedMappers (mapper c') !! i = Some (if WorkerId ch =? w then mkWorkChunk 0 false else ch) ∧
    (WorkerId ch = w → mapperTimeout c' !! i = Some 0)).
  { intros i ch Hch. unfold c'. rewrite <-Hclr. simpl. rewrite list_lookup_fmap, Hch. split; [done|]. intros Hw.
    rewrite lookup_zip_with, Hch. destruct (Forall2_lookup_l _ _ _ _ _ (ph_tracked _ _ _ _ (cw_map _ Hc)) Hch) as (t & -> & _).
    simpl. unfold clear_t. by rewrite Hw, Z.eqb_refl. }
  destruct (phase_job _ _ _ _ (cw_reduce _ Hc) _ Hj) as (chr' & tr & Hchr' & Htr & _).
  exists c'. split; [done|]. split; [done|]. split; [unfold c'; by rewrite <-Hclr|]. split; [unfold c'; by rewrite <-Hclr|]. split; [done|].
  split; [|split].
  - exists (mkWorkChunk 0 (Completed chr)). split; [|done]. simpl. apply list_lookup_insert_eq. by eapply lookup_lt_Some.
  - simpl. apply list_lookup_insert_eq. by eapply lookup_lt_Some.
  - intros Hnd Hq Ho (i & ch & Hch & Hw). destruct (Hmaps i ch Hch) as [Hch' Ht']. rewrite Hw, Z.eqb_refl in Hch'. specialize (Ht' Hw).
    unfold GetWork. assert (IsDone c' = false) as -> by (unfold c'; by rewrite <-Hclr).
    assert (mapper_isDone (mapper c') = false) as ->.
    { apply not_true_is_false. unfold mapper_isDone, chunks_done. rewrite forallb_forall. intros Hall.
      specialize (Hall (mkWorkChunk 0 false)). discriminate Hall. apply list_elem_of_In. by eapply list_elem_of_lookup_2. }
    eapply getMapJob_retry; [done|done| |exact Hch'|exact Ht'|done]. unfold c', inputs_open. by rewrite <-Hclr.
Qed.

(** Worker 1 has completed the only map job, worker 2 found it unreachable. *)
Definition demo_mapped : Coordinator * MemFS :=
  match check_events event_okb (take 3 demo_events) demo_coord with Ret s => s | _ => demo_coord end.

Lemma demo_mapped_wf : coord_wf demo_mapped.1.
Proof.
  apply (history_wf (FS := MemFS) event_ok ["in"] 1 demo_disk (take 3 demo_events) _ demo_mapped.2 (λ _ _ H, H)); [lia|].
  apply (check_events_history event_ok event_okb ["in"] 1 demo_disk [] _ demo_coord.1 demo_coord.2);
    [apply event_okb_ok|by apply hist_start|vm_compute; reflexivity].
Qed.

Definition demo_failed : JobFailed := mkJobFailed (mkWorkerLocation 1 "w1") REDUCE 0.

Lemma WorkerDead_reissues_witness : ∃ c' reply c'', WorkerDead demo_failed demo_mapped.1 = Ret c' ∧
  @GetWork MemFS mem_fs (mkWorkRequest 2) WorkReply0 [] c' demo_mapped.2 = Ret (reply, c'') ∧ wr_WorkType reply = MAP.
Proof.
  destruct (@WorkerDead_reissues MemFS mem_fs demo_failed demo_mapped.1 demo_mapped.2 (mkWorkRequest 2) [])
    as (c' & Hd & _ & _ & _ & _ & _ & _ & Hg); [apply demo_mapped_wf|vm_compute; split; [discriminate|reflexivity]|].
  destruct Hg as (reply & c'' & Hg & Ht); [vm_compute; reflexivity|vm_compute; reflexivity| | |exists c', reply, c''; exact (conj Hd (conj Hg Ht))].
  - intros name Hn. apply list_elem_of_singleton in Hn as ->. vm_compute. reflexivity.
  - exists 0%nat, (mkWorkChunk 1 true). split; vm_compute; reflexivity.
Defined.

(** ** Locations sent to reducers *)

(** Events of workers that are registered when they ask for work and that report
    a map job only while some worker holds it. *)
Definition sound_event (c : Coordinator) (e : event) : Prop :=
  event_ok c e ∧
  match e with
  | EGetWork q _ => is_Some (Workers c !! wq_WorkerId q)
  | EWorkDone q => wc_WorkType q = MAP →
      ∃ ch, completedMappers (mapper c) !! Z.to_nat (wc_JobId q) = Some ch ∧ 0 < WorkerId ch
  | _ => True
  end.

(** A completed map job is held, and a worker that holds one has an address and is
    listed. *)
Definition chunk_held (c : Coordinator) (ch : WorkChunk) : Prop :=
  (Completed ch = true → 0 < WorkerId ch) ∧
  (0 < WorkerId ch → is_Some (Workers c !! WorkerId ch) ∧ is_Some (mapWorkerIds (mapper c) !! WorkerId ch)).

Definition maps_held (c : Coordinator) : Prop :=
  ∀ i ch, completedMappers (mapper c) !! i = Some ch → chunk_held c ch.

Lemma maps_held_step {FS} `{FileSystem FS} e c (fs : FS) c' fs' : coord_wf c → sound_event c e →
  apply_event e (c, fs) = Ret (c', fs') → maps_held c → maps_held c'.
Proof.
  intros Hc [He Hs] Hap Hh. destruct e as [q order|f|q|q|]; simpl in He, Hs.
  - simpl in Hap. apply bind_Ret_inv in Hap as ([reply c1] & Hg & Hap). go_inv. unfold GetWork in Hg.
    destruct (IsDone c); [by go_inv|]. destruct (mapper_isDone (mapper c)).
    + destruct (getReduceJob_cases c (wq_WorkerId q) order WorkReply0 Hc (proj1 He)) as
        [[_ Hg']|(j & r & c2 & Hg' & _ & (ch0 & cur & Hch0 & ->) & _)]; rewrite Hg' in Hg; by go_inv.
    + destruct (getMapJob_cases c (wq_WorkerId q) fs' WorkReply0 Hc (proj1 He)) as
        [Hg'|[[_ Hg']|(j & r & c2 & Hg' & _ & (ch0 & cur & Hch0 & ->) & _)]]; rewrite Hg' in Hg; [done|by go_inv|]. go_inv.
      intros i ch. simpl. intros [(<- & <- & _)|[_ Hi]]%list_lookup_insert_Some.
      * split; [intros _; apply He|]. intros _. split; [done|]. simpl. rewrite lookup_insert_eq. eauto.
      * destruct (Hh i ch Hi) as [Ha Hb]. split; [done|]. intros Hw. destruct (Hb Hw) as [? ?]. split; [done|]. simpl.
        rewrite lookup_insert. case_decide; eauto.
  - simpl in Hap. apply bind_Ret_inv in Hap as (c1 & Hd & Hap). go_inv.
    destruct (WorkerDead_ok c f Hc He) as (c2 & ch0 & Hclr & _ & Hd' & _). rewrite Hd' in Hd. go_inv.
    rewrite clearAllWork_eq in Hclr by done. go_inv. intros i ch. simpl. rewrite list_lookup_fmap. intros (ch1 & Hi & ->)%fmap_Some.
    unfold clear1. destruct (Z.eqb_spec (WorkerId ch1) (wl_WorkerId (UnreachableWorker f))); [split; simpl; [done|lia]|].
    destruct (Hh i ch1 Hi) as [Ha Hb]. split; [done|]. intros Hw. simpl. by rewrite !lookup_delete_ne by done; apply Hb.
  - simpl in Hap. go_inv. intros i ch Hi. destruct (Hh i ch Hi) as [Ha Hb]. split; [done|]. intros Hw. simpl.
    destruct (Hb Hw) as [? ?]. split; [|done]. rewrite lookup_insert. case_decide; eauto.
  - unfold apply_event, WorkDone in Hap. destruct (wc_WorkType q) eqn:Ht; try by go_inv. go_inv.
    match goal with Hg : slice_get _ _ = Ret _ |- _ => apply slice_get_Ret in Hg as [Hj Hx] end.
    match goal with Hg : slice_set _ _ _ = Ret _ |- _ => apply slice_set_Ret in Hg as [_ ->] end.
    destruct (Hs eq_refl) as (ch0 & Hch0 & Hw). assert (x = ch0) as -> by congruence.
    intros i ch. simpl. intros [(<- & <- & _)|[_ Hi]]%list_lookup_insert_Some; [|by apply (Hh i)].
    split; [done|]. simpl. apply (Hh _ _ Hx).
  - simpl in Hap. apply bind_Ret_inv in Hap as (c1 & Hd & Hap). go_inv. unfold serverHandler_tick, updateMapper, updateReducer in Hd.
    destruct (mapper_isDone (mapper c) && reducer_isDone (reducer c)), (negb (mapper_isDone (mapper c))); go_inv; exact Hh.
Qed.

Lemma history_maps_held {FS} `{FileSystem FS} input n (fs0 : FS) es c fs : 0 ≤ n →
  history sound_event input n fs0 es c fs → coord_wf c ∧ maps_held c.
Proof.
  intros Hn Hh. split; [by apply (history_wf sound_event input n fs0 es c fs (λ _ _ H, proj1 H))|].
  induction Hh as [c fs Hm|es e c fs c' fs' Hh IH He Hap].
  - unfold MakeCoordinator in Hm. destruct (n <? 0); [done|]. go_inv. intros i ch Hi. apply lookup_replicate in Hi as [-> _].
    split; simpl; [done|lia].
  - eapply maps_held_step; [|done..]. by apply (history_wf sound_event input n fs0 es c fs (λ _ _ H, proj1 H)).
Qed.


Definition sound_eventb (c : Coordinator) (e : event) : bool :=
  event_okb c e &&
  match e with
  | EGetWork q _ => bool_decide (is_Some (Workers c !! wq_WorkerId q))
  | EWorkDone q => match wc_WorkType q with
                   | MAP => match completedMappers (mapper c) !! Z.to_nat (wc_JobId q) with
                            | Some ch => 0 <? WorkerId ch
                            | None => false
                            end
                   | _ => true
                   end
  | _ => true
  end.

Lemma sound_eventb_ok c e : sound_eventb c e = true → sound_event c e.
Proof.
  intros [Hok Hs]%andb_true_iff. split; [by apply event_okb_ok|]. destruct e as [q order|f|q|q|]; try done.
  - by apply bool_decide_eq_true in Hs.
  - intros Ht. rewrite Ht in Hs. destruct (_ !! _) as [ch|]; [|done]. exists ch. split; [done|lia].
Qed.


(** ** A late report *)

(** A late report hides data.  Suppose all other map jobs are completed by
    other workers, job [j]'s worker [w] is reported unreachable, and then a report
    that [j] is completed arrives.  The coordinator accepts it although nobody
    holds the job any more: the map phase counts as finished, [j] is not handed
    out again, and the reduce jobs handed out from then on name locations without
    [w], the only worker with the output of [j]. *)
Theorem late_report_hides_data {FS : Type} `{FileSystem FS} (f : JobFailed) (report : WorkComplete)
    (c c1 : Coordinator) (fs : FS) (ch : WorkChunk) :
  let w := wl_WorkerId (UnreachableWorker f) in
  let j := Z.to_nat (wc_JobId report) in
  coord_wf c → 0 ≤ jf_JobId f < Nreduce c → IsDone c = false →
  wc_WorkType report = MAP → 0 ≤ wc_JobId report < numFiles (mapper c) →
  completedMappers (mapper c) !! j = Some ch → WorkerId ch = w →
  (∀ i ch', i ≠ j → completedMappers (mapper c) !! i = Some ch' → Completed ch' = true ∧ WorkerId ch' ≠ w) →
  WorkerDead f c = Ret c1 →
  ∃ c2, WorkDone report c1 fs = Ret (c2, fs) ∧ completedMappers (mapper c2) !! j = Some (mkWorkChunk 0 true) ∧
    ∀ q order reply c3, order ≡ₚ (map_to_list (mapWorkerIds (mapper c2))).*1 → 0 < wq_WorkerId q →
      GetWork q WorkReply0 order c2 fs = Ret (reply, c3) →
      wr_WorkType reply ≠ MAP ∧ ∀ l, l ∈ ReduceFileLocations reply → wl_WorkerId l ≠ w.
Proof.
  intros w j Hc Hf Hnd Ht Hj Hch Hw Hoth Hd. destruct (WorkerDead_ok c f Hc Hf) as (c0 & chr & Hclr & Hchr & Hd' & Hc1).
  rewrite Hd in Hd'. apply Ret_inj in Hd'. rewrite clearAllWork_eq in Hclr by done. apply Ret_inj in Hclr.
  assert (Hmap : completedMappers (mapper c1) = clear1 w <$> completedMappers (mapper c)) by by rewrite Hd', <-Hclr.
  assert (Hids : mapWorkerIds (mapper c1) = delete w (mapWorkerIds (mapper c))) by by rewrite Hd', <-Hclr.
  assert (Hch1 : completedMappers (mapper c1) !! j = Some (mkWorkChunk 0 false)).
  { rewrite Hmap, list_lookup_fmap, Hch. simpl. unfold clear1. by rewrite Hw, Z.eqb_refl. }
  unfold WorkDone. rewrite Ht, (proj2 (slice_get_Ret _ _ _) (conj (proj1 Hj) Hch1)). cbn [mbind outcome_bind].
  rewrite slice_set_ok by (apply lookup_lt_Some in Hch1; unfold go_len; lia). cbn [mbind outcome_bind].
  eexists. split; [done|]. cbn [mapper set_mapper completedMappers mapWorkerIds]. fold j.
  split; [apply list_lookup_insert_eq; by eapply lookup_lt_Some|].
  intros q order reply c3 Hord Hq. unfold GetWork. cbn [IsDone set_mapper mapper].
  assert (IsDone c1 = false) as -> by by rewrite Hd', <-Hclr.
  assert (mapper_isDone (mkMapTracker (map_files (mapper c1)) (numFiles (mapper c1)) (m_currentJob (mapper c1))
    (<[j := mkWorkChunk (WorkerId (mkWorkChunk 0 false)) true]> (completedMappers (mapper c1))) (mapWorkerIds (mapper c1))) = true) as ->.
  { unfold mapper_isDone, chunks_done. apply forallb_forall. intros x Hx. apply list_elem_of_In, list_elem_of_lookup in Hx as [i Hi].
    simpl in Hi. apply list_lookup_insert_Some in Hi as [(_ & <- & _)|[Hne Hi]]; [done|].
    rewrite Hmap, list_lookup_fmap in Hi. apply fmap_Some in Hi as (ch' & Hi & ->).
    destruct (Hoth i ch' (not_eq_sym Hne) Hi) as [Hcp Hw']. unfold clear1. by destruct (Z.eqb_spec (WorkerId ch') w). }
  unfold getReduceJob, retryReducer. intros Hg.
  assert (Hl : wr_WorkType reply ≠ MAP ∧ (ReduceFileLocations reply = [] ∨ (wl_WorkerId <$> ReduceFileLocations reply) = order)).
  { assert (Hsnd : ∀ c, wl_WorkerId <$> getReduceFileLocations order c = order).
    { intros c4. unfold getReduceFileLocations. rewrite <-list_fmap_compose. apply list_fmap_id. }
    case_match; go_inv; repeat (case_match; go_inv; simplify_eq); simpl; auto. }
  destruct Hl as [HM [->|Hl]]; (split; [done|]); [intros l Hl; by apply not_elem_of_nil in Hl|].
  intros l Hin Heq. assert (Hwin : w ∈ order) by (rewrite <-Hl; apply list_elem_of_fmap; by exists l).
  rewrite Hord in Hwin. apply list_elem_of_fmap in Hwin as ([w' b] & -> & Hin'). apply elem_of_map_to_list in Hin'.
  simpl in Hin'. rewrite Hids, lookup_delete_eq in Hin'. done.
Qed.

Definition demo_dead : Coordinator :=
  match WorkerDead demo_failed demo_mapped.1 with Ret c => c | _ => demo_mapped.1 end.

Lemma late_report_hides_data_witness :
  ∃ c2, @WorkDone MemFS mem_fs (mkWorkComplete MAP 0 "" 1) demo_dead demo_mapped.2 = Ret (c2, demo_mapped.2) ∧
    completedMappers (mapper c2) !! 0%nat = Some (mkWorkChunk 0 true) ∧
    ∀ q order reply c3, order ≡ₚ (map_to_list (mapWorkerIds (mapper c2))).*1 → 0 < wq_WorkerId q →
      @GetWork MemFS mem_fs q WorkReply0 order c2 demo_mapped.2 = Ret (reply, c3) →
      wr_WorkType reply ≠ MAP ∧ ∀ l, l ∈ ReduceFileLocations reply → wl_WorkerId l ≠ 1.
Proof.
  apply (@late_report_hides_data MemFS mem_fs demo_failed (mkWorkComplete MAP 0 "" 1) demo_mapped.1 demo_dead demo_mapped.2 (mkWorkChunk 1 true)).
  - apply demo_mapped_wf.
  - vm_compute. split; [discriminate|reflexivity].
  - vm_compute. reflexivity.
  - reflexivity.
  - vm_compute. split; [discriminate|reflexivity].
  - vm_compute. reflexivity.
  - reflexivity.
  - intros [|i] ch' Hi Hch'; [done|]. exfalso. vm_compute in Hch'. destruct i; discriminate.
  - vm_compute. reflexivity.
Defined.
