(* ===== verification/MRData.v ===== *)
(** * Lab2_MapReduce: buckets, grouping and the applications

    The pure part of [mr/worker.go], [main/mrsequential.go] and the plugins of
    [mrapps]: hashing keys, splitting map output into buckets, grouping sorted
    pairs and reducing each group.  The theorem: the lines of all distributed
    outputs are, in some order, the lines of the sequential program. *)

From S2P Require Import Prelude.
From stdpp Require Import pretty.
From Stdlib Require Import Ascii.
Open Scope string_scope.
Open Scope Z_scope.

Record KeyValue := mkKeyValue { Key : string; Value : string }.

#[global] Instance KeyValue_eq_dec : EqDecision KeyValue.
Proof. solve_decision. Defined.

(** ** Hashing and buckets *)

(** FNV-1a with 32 bits: [h.Write] and [h.Sum32]. *)
Fixpoint fnv32a (h : Z) (s : string) : Z :=
  match s with
  | EmptyString => h
  | String c s' => fnv32a (wrap32 (Z.lxor h (Z.of_N (N_of_ascii c)) * 16777619)) s'
  end.

Definition ihash (key : string) : Z := Z.land (fnv32a 2166136261 key) 0x7fffffff.

(** [x % y] on [int]: panics for zero, truncates towards zero otherwise. *)
Definition go_mod (x y : Z) : outcome Z := if y =? 0 then Panic else Ret (Z.rem x y).

(** The loop of [DoMap] over the pairs that [mapf] returned. *)
Fixpoint fill_buckets (nReduce : Z) (kva : list KeyValue) (intermediate : list (list KeyValue)) : outcome (list (list KeyValue)) :=
  match kva with
  | [] => Ret intermediate
  | kv :: kva' =>
      bucketId ← go_mod (ihash (Key kv)) nReduce;
      bucket ← slice_get intermediate bucketId;
      intermediate' ← slice_set intermediate bucketId (bucket ++ [kv])%list;
      fill_buckets nReduce kva' intermediate'
  end.

Definition map_buckets (nReduce : Z) (kva : list KeyValue) : outcome (list (list KeyValue)) :=
  if nReduce <? 0 then Panic else fill_buckets nReduce kva (replicate (Z.to_nat nReduce) []).

(** ** Sorting *)

(** The order of [ByKey]: byte-wise comparison of the keys.  [sort.Sort] is not
    stable, so it is any function that returns a sorted permutation. *)
Definition key_le (a b : KeyValue) : Prop := String.le (Key a) (Key b).

#[global] Instance key_le_dec : RelDecision key_le.
Proof. intros a b. unfold key_le. apply _. Defined.

#[global] Instance key_le_total : Total key_le.
Proof. intros a b. unfold key_le. apply (total String.le). Qed.

#[global] Instance key_le_trans : Transitive key_le.
Proof. intros a b c. unfold key_le. apply transitivity. Qed.

Class GoSort := {
  sort_ByKey : list KeyValue → list KeyValue;
  sort_perm : ∀ l, sort_ByKey l ≡ₚ l;
  sort_sorted : ∀ l, Sorted key_le (sort_ByKey l)
}.

#[global] Program Instance merge_sort_ByKey : GoSort := {| sort_ByKey := merge_sort key_le |}.
Next Obligation. apply merge_sort_Permutation. Qed.
Next Obligation. apply (Sorted_merge_sort _). Qed.

(** ** Grouping *)

Section Grouping.
Variable reducef : string → list string → string.

Definition nl : string := String (ascii_of_nat 10) "".

(** [fmt.Fprintf(ofile, "%v %v\n", key, output)] *)
Definition out_line (key output : string) : string := key +:+ " " +:+ output +:+ nl.

(** The inner loop of [DoReduce]: collects values from index [j] on while the key
    is [key].  One unit of [fuel] per iteration. *)
Fixpoint collect (fuel : nat) (buf : list KeyValue) (key : string) (j : Z) (values : list string) : outcome (list string * Z) :=
  match fuel with
  | O => Panic
  | S fuel' =>
      if j <? go_len buf then
        kv ← slice_get buf j;
        if decide (Key kv = key) then collect fuel' buf key (j + 1) (values ++ [Value kv])%list
        else Ret (values, j)
      else Ret (values, j)
  end.

(** The outer loop of [DoReduce], from index [i]; the written lines. *)
Fixpoint reduce_loop (fuel : nat) (buf : list KeyValue) (i : Z) : outcome (list string) :=
  match fuel with
  | O => Panic
  | S fuel' =>
      if i <? go_len buf then
        kv ← slice_get buf i;
        '(values, j) ← collect (S (length buf)) buf (Key kv) i [];
        rest ← reduce_loop fuel' buf j;
        Ret (out_line (Key kv) (reducef (Key kv) values) :: rest)
      else Ret []
  end.

Definition reduce_lines (buf : list KeyValue) : outcome (list string) := reduce_loop (S (length buf)) buf 0.

(** The inner loops of [mrsequential]: the end of the run of [key] from [j] on,
    and the values between two indexes. *)
Fixpoint run_end (fuel : nat) (buf : list KeyValue) (key : string) (j : Z) : outcome Z :=
  match fuel with
  | O => Panic
  | S fuel' =>
      if j <? go_len buf then
        kv ← slice_get buf j;
        if decide (Key kv = key) then run_end fuel' buf key (j + 1) else Ret j
      else Ret j
  end.

Definition values_between (buf : list KeyValue) (i j : Z) : outcome (list string) :=
  for_range (Z.to_nat (j - i)) i (λ k values, kv ← slice_get buf k; Ret (values ++ [Value kv])%list) [].

Fixpoint sequential_loop (fuel : nat) (intermediate : list KeyValue) (i : Z) : outcome (list string) :=
  match fuel with
  | O => Panic
  | S fuel' =>
      if i <? go_len intermediate then
        kv ← slice_get intermediate i;
        j ← run_end (S (length intermediate)) intermediate (Key kv) (i + 1);
        values ← values_between intermediate i j;
        rest ← sequential_loop fuel' intermediate j;
        Ret (out_line (Key kv) (reducef (Key kv) values) :: rest)
      else Ret []
  end.

(** The output of [mrsequential] on the pairs of all input files. *)
Definition sequential_lines `{GoSort} (kva : list KeyValue) : outcome (list string) :=
  sequential_loop (S (length kva)) (sort_ByKey kva) 0.

(** ** The specification of grouping *)

(** Maximal runs of equal keys. *)
Fixpoint group (l : list KeyValue) : list (string * list string) :=
  match l with
  | [] => []
  | kv :: l' =>
      match group l' with
      | (k, vs) :: g => if decide (k = Key kv) then (k, Value kv :: vs) :: g else (Key kv, [Value kv]) :: (k, vs) :: g
      | [] => [(Key kv, [Value kv])]
      end
  end.

Definition group_line (g : string * list string) : string := out_line g.1 (reducef g.1 g.2).

(** All values of a key, in order. *)
Definition values_of (k : string) (l : list KeyValue) : list string := Value <$> filter (λ kv, Key kv = k) l.

(** What reducing should produce: a line for each distinct key. *)
Definition spec_lines (l : list KeyValue) : list string :=
  (λ k, out_line k (reducef k (values_of k l))) <$> remove_dups (Key <$> l).

(** The run at the front of a list and the rest. *)
Fixpoint span_key (k : string) (l : list KeyValue) : list string * list KeyValue :=
  match l with
  | kv :: l' => if decide (Key kv = k) then let '(vs, r) := span_key k l' in (Value kv :: vs, r) else ([], l)
  | [] => ([], [])
  end.

Lemma group_span kv l :
  group (kv :: l) = (Key kv, Value kv :: (span_key (Key kv) l).1) :: group (span_key (Key kv) l).2.
Proof.
  revert kv. induction l as [|kv2 l IH]; intros kv; [done|].
  change (group (kv :: kv2 :: l)) with
    (match group (kv2 :: l) with
     | (k, vs) :: g => if decide (k = Key kv) then (k, Value kv :: vs) :: g else (Key kv, [Value kv]) :: (k, vs) :: g
     | [] => [(Key kv, [Value kv])] end).
  rewrite IH. cbn [span_key]. destruct (decide (Key kv2 = Key kv)) as [->|Hne].
  - by destruct (span_key (Key kv) l).
  - cbn [fst snd]. by rewrite IH.
Qed.

Lemma span_key_length k l : (length (span_key k l).2 ≤ length l)%nat.
Proof. induction l as [|kv l IH]; simpl; [done|]. case_decide; [|done]. destruct (span_key k l). simpl in *. lia. Qed.

Lemma span_key_drop k l : (span_key k l).2 = drop (length (span_key k l).1) l.
Proof. induction l as [|kv l IH]; simpl; [done|]. case_decide; [|done]. by destruct (span_key k l). Qed.

(** *** The index loops compute the runs *)

Lemma slice_get_suffix {A} (buf : list A) (i : nat) x s : drop i buf = x :: s → slice_get buf (Z.of_nat i) = Ret x.
Proof. intros Hd. rewrite slice_get_nat. assert (buf !! i = Some x) as ->; [|done]. by rewrite <-(Nat.add_0_r i), <-lookup_drop, Hd. Qed.

Lemma drop_S_suffix {A} (buf : list A) (i : nat) x s : drop i buf = x :: s → drop (S i) buf = s ∧ (i < length buf)%nat.
Proof.
  intros Hd. split.
  - replace (S i) with (i + 1)%nat by lia. by rewrite <-drop_drop, Hd.
  - destruct (Nat.lt_ge_cases i (length buf)); [done|]. by rewrite drop_ge in Hd.
Qed.

Lemma drop_nil_len {A} (buf : list A) (i : nat) : drop i buf = [] → (length buf ≤ i)%nat.
Proof. intros Hd. apply (f_equal length) in Hd. rewrite length_drop in Hd. simpl in Hd. lia. Qed.

Lemma collect_span fuel buf key i vs : (length (drop i buf) < fuel)%nat →
  collect fuel buf key (Z.of_nat i) vs =
  Ret ((vs ++ (span_key key (drop i buf)).1)%list, Z.of_nat (i + length (span_key key (drop i buf)).1)).
Proof.
  revert i vs. induction fuel as [|fuel IH]; intros i vs Hf; [lia|]. simpl.
  destruct (drop i buf) as [|kv s] eqn:Hd.
  - apply drop_nil_len in Hd. unfold go_len. destruct (Z.ltb_spec (Z.of_nat i) (Z.of_nat (length buf))); [lia|].
    simpl. by rewrite app_nil_r, Nat.add_0_r.
  - destruct (drop_S_suffix _ _ _ _ Hd) as [Hd' Hlt]. unfold go_len.
    destruct (Z.ltb_spec (Z.of_nat i) (Z.of_nat (length buf))); [|lia].
    rewrite (slice_get_suffix _ _ _ _ Hd). cbn [mbind outcome_bind span_key].
    case_decide as Hk; [|simpl; by rewrite app_nil_r, Nat.add_0_r].
    replace (Z.of_nat i + 1) with (Z.of_nat (S i)) by lia. rewrite IH; rewrite Hd'; [|simpl in Hf; lia].
    destruct (span_key key s) as [vs' r]. simpl. do 2 f_equal; [by rewrite <-app_assoc|f_equal; lia].
Qed.

Lemma run_end_span fuel buf key i : (length (drop i buf) < fuel)%nat →
  run_end fuel buf key (Z.of_nat i) = Ret (Z.of_nat (i + length (span_key key (drop i buf)).1)).
Proof.
  revert i. induction fuel as [|fuel IH]; intros i Hf; [lia|]. simpl.
  destruct (drop i buf) as [|kv s] eqn:Hd.
  - apply drop_nil_len in Hd. unfold go_len. destruct (Z.ltb_spec (Z.of_nat i) (Z.of_nat (length buf))); [lia|].
    simpl. by rewrite Nat.add_0_r.
  - destruct (drop_S_suffix _ _ _ _ Hd) as [Hd' Hlt]. unfold go_len.
    destruct (Z.ltb_spec (Z.of_nat i) (Z.of_nat (length buf))); [|lia].
    rewrite (slice_get_suffix _ _ _ _ Hd). cbn [mbind outcome_bind span_key].
    case_decide as Hk; [|simpl; by rewrite Nat.add_0_r].
    replace (Z.of_nat i + 1) with (Z.of_nat (S i)) by lia. rewrite IH; rewrite Hd'; [|simpl in Hf; lia].
    destruct (span_key key s) as [vs' r]. simpl. do 2 f_equal. lia.
Qed.

Lemma values_between_spec buf i k : (i + k ≤ length buf)%nat →
  values_between buf (Z.of_nat i) (Z.of_nat (i + k)) = Ret (Value <$> take k (drop i buf)).
Proof.
  intros Hk. unfold values_between. replace (Z.to_nat (Z.of_nat (i + k) - Z.of_nat i)) with k by lia.
  edestruct (for_range_inv (λ j s, s = Value <$> take (j - i) (drop i buf))
    (λ k values, kv ← slice_get buf k; Ret (values ++ [Value kv])%list) k i []) as (s & -> & ->).
  - by rewrite Nat.sub_diag.
  - intros j s Hj ->. destruct (lookup_lt_is_Some_2 buf j) as [kv Hkv]; [lia|]. rewrite slice_get_nat, Hkv. eexists. split; [done|].
    replace (S j - i)%nat with (S (j - i)) by lia. rewrite (take_S_r _ _ kv), fmap_app; [done|].
    rewrite lookup_drop. by replace (i + (j - i))%nat with j by lia.
  - by replace (i + k - i)%nat with k by lia.
Qed.

Lemma span_key_values k l : (span_key k l).1 = Value <$> take (length (span_key k l).1) l.
Proof. induction l as [|kv l IH]; simpl; [done|]. case_decide; [|done]. destruct (span_key k l). simpl in *. by f_equal. Qed.

Lemma reduce_loop_group fuel buf i : (length (drop i buf) < fuel)%nat →
  reduce_loop fuel buf (Z.of_nat i) = Ret (group_line <$> group (drop i buf)).
Proof.
  revert i. induction fuel as [|fuel IH]; intros i Hf; [lia|]. cbn [reduce_loop].
  destruct (drop i buf) as [|kv s] eqn:Hd.
  - apply drop_nil_len in Hd. unfold go_len. by destruct (Z.ltb_spec (Z.of_nat i) (Z.of_nat (length buf))); [lia|].
  - destruct (drop_S_suffix _ _ _ _ Hd) as [Hd' Hlt]. unfold go_len at 1.
    destruct (Z.ltb_spec (Z.of_nat i) (Z.of_nat (length buf))); [|lia].
    rewrite (slice_get_suffix _ _ _ _ Hd). cbn [mbind outcome_bind]. rewrite collect_span by (rewrite length_drop; lia).
    cbn [mbind outcome_bind]. rewrite Hd. cbn [span_key]. rewrite decide_True by done.
    rewrite group_span. pose proof (span_key_drop (Key kv) s) as Hdr. pose proof (span_key_length (Key kv) s) as Hln.
    destruct (span_key (Key kv) s) as [vs r]. cbn [fst snd length app] in *.
    assert (Hr : drop (i + S (length vs)) buf = r) by by rewrite Hdr, <-Hd', drop_drop; f_equal; lia.
    rewrite IH; rewrite Hr; [done|simpl in Hf; lia].
Qed.

Lemma sequential_loop_group fuel buf i : (length (drop i buf) < fuel)%nat →
  sequential_loop fuel buf (Z.of_nat i) = Ret (group_line <$> group (drop i buf)).
Proof.
  revert i. induction fuel as [|fuel IH]; intros i Hf; [lia|]. cbn [sequential_loop].
  destruct (drop i buf) as [|kv s] eqn:Hd.
  - apply drop_nil_len in Hd. unfold go_len. by destruct (Z.ltb_spec (Z.of_nat i) (Z.of_nat (length buf))); [lia|].
  - destruct (drop_S_suffix _ _ _ _ Hd) as [Hd' Hlt]. unfold go_len at 1.
    destruct (Z.ltb_spec (Z.of_nat i) (Z.of_nat (length buf))); [|lia].
    rewrite (slice_get_suffix _ _ _ _ Hd). cbn [mbind outcome_bind].
    replace (Z.of_nat i + 1) with (Z.of_nat (S i)) by lia. rewrite run_end_span by (rewrite length_drop; lia). rewrite Hd'.
    cbn [mbind outcome_bind]. pose proof (span_key_values (Key kv) s) as Hv.
    rewrite group_span. pose proof (span_key_drop (Key kv) s) as Hdr. pose proof (span_key_length (Key kv) s) as Hln.
    destruct (span_key (Key kv) s) as [vs r]. cbn [fst snd] in *.
    replace (S i + length vs)%nat with (i + S (length vs))%nat by lia.
    assert (Hle : (i + S (length vs) ≤ length buf)%nat).
    { apply (f_equal length) in Hv. rewrite length_fmap, length_take in Hv. apply (f_equal length) in Hd. rewrite length_drop in Hd. simpl in Hd. lia. }
    rewrite values_between_spec by done. rewrite Hd. cbn [mbind outcome_bind take fmap list_fmap].
    assert (Hr : drop (i + S (length vs)) buf = r) by by rewrite Hdr, <-Hd', drop_drop; f_equal; lia.
    rewrite IH; rewrite Hr; [|simpl in Hf; lia]. cbn [mbind outcome_bind]. do 2 f_equal. unfold group_line. cbn [fst snd].
    by rewrite Hv at 2.
Qed.

(** *** Runs of a sorted list are the groups *)

Lemma values_of_nil k l : k ∉ Key <$> l → values_of k l = [].
Proof.
  unfold values_of. induction l as [|kv l IH]; [done|]. rewrite fmap_cons, not_elem_of_cons. intros [Hne Hnin].
  rewrite filter_cons_False; [by apply IH|done].
Qed.

Lemma group_keys_NoDup_spec l : StronglySorted key_le l →
  NoDup (group l).*1 ∧ (∀ k, k ∈ (group l).*1 ↔ k ∈ Key <$> l) ∧
  (∀ k vs, (k, vs) ∈ group l → vs = values_of k l).
Proof.
  induction 1 as [|kv l Hs (IHn & IHk & IHv) Hle]; [repeat split; try set_solver; constructor|].
  assert (Hval : ∀ k, values_of k (kv :: l) = if decide (Key kv = k) then Value kv :: values_of k l else values_of k l).
  { intros k. unfold values_of. rewrite filter_cons. by case_decide. }
  assert (Hother : ∀ k vs g, group l = (k, vs) :: g → k ≠ Key kv → Key kv ∉ Key <$> l).
  { intros k vs g Hg Hne [kv1 [Hk1 Hin]]%list_elem_of_fmap. destruct l as [|kv2 l]; [done|]. rewrite group_span in Hg.
    injection Hg as Hk _ _. apply Forall_cons in Hle as [Hle _]. apply Hne. rewrite <-Hk in *. unfold key_le in Hle.
    apply (anti_symm String.le); [|done]. rewrite Hk1. apply elem_of_cons in Hin as [->|Hin]; [done|].
    apply StronglySorted_inv in Hs as [_ Hs]. rewrite Forall_forall in Hs. by apply Hs. }
  cbn [group]. destruct (group l) as [|[k vs] g] eqn:Hg.
  - assert (Hnil : l = []) by (destruct l as [|kv2 l]; [done|]; by rewrite group_span in Hg). subst l. split; [apply NoDup_singleton|].
    split; [done|]. intros k vs Hin. apply list_elem_of_singleton in Hin. injection Hin as -> ->. rewrite Hval. by rewrite decide_True.
  - destruct (decide (k = Key kv)) as [Hk|Hk].
    + simpl in *. split; [done|]. split; [intros k'; rewrite !elem_of_cons, <-Hk; specialize (IHk k'); rewrite elem_of_cons in IHk; naive_solver|].
      intros k' vs' Hin. rewrite Hval. apply elem_of_cons in Hin as [[= -> ->]|Hin].
      * rewrite decide_True by done. f_equal. apply IHv. by left.
      * rewrite decide_False; [apply IHv; by right|]. intros <-. apply NoDup_cons in IHn as [Hn _]. apply Hn. rewrite Hk.
        apply list_elem_of_fmap. by exists (Key kv, vs').
    + specialize (Hother k vs g eq_refl Hk). split; [|split].
      * simpl. constructor; [|done]. intros Hin. apply Hother, IHk. done.
      * intros k'. specialize (IHk k'). rewrite !fmap_cons, !elem_of_cons in *. simpl in *. naive_solver.
      * intros k' vs' Hin. rewrite Hval. apply elem_of_cons in Hin as [[= -> ->]|Hin].
        -- rewrite decide_True by done. by rewrite values_of_nil.
        -- rewrite decide_False; [by apply IHv|]. intros <-. apply Hother, IHk, list_elem_of_fmap. by exists (Key kv, vs').
Qed.

Lemma group_lines_spec l : Sorted key_le l → group_line <$> group l ≡ₚ spec_lines l.
Proof.
  intros Hs%Sorted_StronglySorted; [|apply _]. destruct (group_keys_NoDup_spec l Hs) as (Hn & Hk & Hv).
  assert (Heq : group l = (λ k, (k, values_of k l)) <$> (group l).*1).
  { rewrite <-list_fmap_compose. rewrite <-(list_fmap_id (group l)) at 1. apply list_fmap_ext. intros j [k vs] Hj. simpl.
    by rewrite <-(Hv k vs) by (by eapply list_elem_of_lookup_2). }
  rewrite Heq, <-list_fmap_compose. unfold spec_lines. apply fmap_Permutation, NoDup_Permutation; [done|apply NoDup_remove_dups|].
  intros k. by rewrite elem_of_remove_dups.
Qed.

Hypothesis reducef_perm : ∀ k vs vs', vs ≡ₚ vs' → reducef k vs = reducef k vs'.

Lemma spec_lines_perm l l' : l ≡ₚ l' → spec_lines l ≡ₚ spec_lines l'.
Proof using reducef_perm.
  intros Hp. unfold spec_lines. rewrite (list_fmap_ext _ (λ k, out_line k (reducef k (values_of k l'))) (remove_dups (Key <$> l)));
    [|intros _ k _; f_equal; apply reducef_perm; unfold values_of; by rewrite Hp].
  apply fmap_Permutation, NoDup_Permutation; [apply NoDup_remove_dups..|]. intros k. by rewrite !elem_of_remove_dups, Hp.
Qed.

End Grouping.

(** *** Splitting by bucket *)

Lemma concat_insert_perm {A B} (f g : B → list A) (x : A) (rs : list B) (r0 : B) : NoDup rs → r0 ∈ rs →
  f r0 = x :: g r0 → (∀ r, r ≠ r0 → f r = g r) → concat (f <$> rs) ≡ₚ x :: concat (g <$> rs).
Proof.
  intros Hn Hin Hx Hne. induction rs as [|r rs IH]; [by apply not_elem_of_nil in Hin|].
  apply NoDup_cons in Hn as [Hr Hn]. rewrite !fmap_cons. cbn [concat]. apply elem_of_cons in Hin as [<-|Hin].
  - rewrite Hx. assert (f <$> rs = g <$> rs) as ->; [|done]. apply list_fmap_ext. intros j r Hj. apply Hne.
    intros ->. apply Hr. by eapply list_elem_of_lookup_2.
  - rewrite IH by done. rewrite Hne by (by intros ->). by rewrite Permutation_middle.
Qed.

Lemma fmap_concat {A B} (f : A → B) (ls : list (list A)) :
  (f <$> concat ls : list B) = concat ((λ l : list A, f <$> l : list B) <$> ls).
Proof. induction ls as [|l ls IH]; [done|]. cbn [concat]. by rewrite fmap_app, IH. Qed.

Lemma concat_filter_perm {A} (h : A → nat) (n : nat) (l : list A) : Forall (λ x, (h x < n)%nat) l →
  concat ((λ r, filter (λ x, h x = r) l) <$> seq 0 n) ≡ₚ l.
Proof.
  induction 1 as [|x l Hx _ IH].
  - assert (∀ (rs : list nat), concat ((λ r, filter (λ x : A, h x = r) []) <$> rs) = []) as -> by (induction rs; done). done.
  - rewrite (concat_insert_perm _ (λ r, filter (λ x, h x = r) l) x (seq 0 n) (h x)).
    + by rewrite IH.
    + apply NoDup_seq.
    + apply elem_of_seq. lia.
    + by rewrite filter_cons_True.
    + intros r Hr. by rewrite filter_cons_False.
Qed.

Section Buckets.
Variable n : nat.
Hypothesis n_pos : (0 < n)%nat.

(** The bucket of a key. *)
Definition bucket_of (k : string) : nat := Z.to_nat (ihash k mod Z.of_nat n).
Definition bucket (r : nat) (l : list KeyValue) : list KeyValue := filter (λ kv, bucket_of (Key kv) = r) l.

Lemma ihash_range k : 0 ≤ ihash k < 2 ^ 31.
Proof.
  clear n_pos. unfold ihash. change 0x7fffffff with (Z.ones 31). rewrite Z.land_ones by lia. apply Z.mod_pos_bound. lia.
Qed.

Lemma bucket_of_lt k : (bucket_of k < n)%nat.
Proof using n_pos. unfold bucket_of. pose proof (Z.mod_pos_bound (ihash k) (Z.of_nat n)). lia. Qed.

Lemma fill_buckets_spec kva acc : length acc = n →
  ∃ bs, fill_buckets (Z.of_nat n) kva acc = Ret bs ∧ length bs = n ∧
    ∀ r b, acc !! r = Some b → bs !! r = Some (b ++ bucket r kva)%list.
Proof using n_pos.
  revert acc. induction kva as [|kv kva IH]; intros acc Hl; cbn [fill_buckets].
  - exists acc. split; [done|]. split; [done|]. intros r b Hb. by rewrite app_nil_r.
  - pose proof (ihash_range (Key kv)) as Hh. pose proof (bucket_of_lt (Key kv)) as Hb.
    unfold go_mod. destruct (Z.eqb_spec (Z.of_nat n) 0); [lia|]. cbn [mbind outcome_bind].
    rewrite Z.rem_mod_nonneg by lia.
    replace (ihash (Key kv) mod Z.of_nat n) with (Z.of_nat (bucket_of (Key kv)))
      by (unfold bucket_of; pose proof (Z.mod_pos_bound (ihash (Key kv)) (Z.of_nat n)); lia).
    destruct (lookup_lt_is_Some_2 acc (bucket_of (Key kv))) as [b0 Hb0]; [lia|]. rewrite slice_get_nat, Hb0. cbn [mbind outcome_bind].
    rewrite slice_set_ok, Nat2Z.id by (unfold go_len; lia). cbn [mbind outcome_bind].
    destruct (IH (<[bucket_of (Key kv) := (b0 ++ [kv])%list]> acc)) as (bs & -> & Hbs & Hspec); [by rewrite length_insert|].
    exists bs. split; [done|]. split; [done|]. intros r b Hr. unfold bucket. destruct (decide (bucket_of (Key kv) = r)) as [<-|Hne].
    + rewrite filter_cons_True by done. rewrite (Hspec _ (b0 ++ [kv])%list); [|apply list_lookup_insert_eq; lia].
      assert (b = b0) as -> by congruence. by rewrite <-app_assoc.
    + rewrite filter_cons_False by done. apply Hspec. by rewrite list_lookup_insert_ne.
Qed.

Lemma map_buckets_spec kva : ∃ bs, map_buckets (Z.of_nat n) kva = Ret bs ∧ length bs = n ∧
  ∀ r, (r < n)%nat → bs !! r = Some (bucket r kva).
Proof using n_pos.
  unfold map_buckets. destruct (Z.ltb_spec (Z.of_nat n) 0); [lia|]. rewrite Nat2Z.id.
  destruct (fill_buckets_spec kva (replicate n [])) as (bs & -> & Hl & Hs); [apply length_replicate|].
  exists bs. split; [done|]. split; [done|]. intros r Hr. by rewrite (Hs r []) by (by apply lookup_replicate_2).
Qed.

Lemma bucket_concat r (ls : list (list KeyValue)) : bucket r (concat ls) = concat (bucket r <$> ls).
Proof.
  clear n_pos. induction ls as [|l ls IH]; [done|]. cbn [concat]. unfold bucket in *. rewrite filter_app, IH. done.
Qed.

(** The lines of the buckets together are the lines of the whole. *)
Lemma spec_lines_buckets reducef l :
  concat ((λ r, spec_lines reducef (bucket r l)) <$> seq 0 n) ≡ₚ spec_lines reducef l.
Proof using n_pos.
  unfold spec_lines at 2. set (line k := out_line k (reducef k (values_of k l))).
  rewrite <-(concat_filter_perm bucket_of n (remove_dups (Key <$> l))) by (apply Forall_forall; intros; apply bucket_of_lt).
  rewrite fmap_concat, <-list_fmap_compose.
  assert (Hr : ∀ r, spec_lines reducef (bucket r l) ≡ₚ line <$> filter (λ k, bucket_of k = r) (remove_dups (Key <$> l))).
  { intros r. unfold spec_lines. rewrite (list_fmap_ext _ line).
    - apply fmap_Permutation, NoDup_Permutation; [apply NoDup_remove_dups|apply NoDup_filter, NoDup_remove_dups|].
      intros k. rewrite list_elem_of_filter, !elem_of_remove_dups, !list_elem_of_fmap. unfold bucket. split.
      + intros (kv & -> & [Hb Hin]%list_elem_of_filter). split; [done|]. by exists kv.
      + intros [Hb (kv & -> & Hin)]. exists kv. split; [done|]. by apply list_elem_of_filter.
    - intros j k Hk%list_elem_of_lookup_2. apply elem_of_remove_dups, list_elem_of_fmap in Hk as (kv & -> & [Hb _]%list_elem_of_filter).
      unfold line. do 2 f_equal. unfold values_of, bucket. f_equal. rewrite list_filter_filter. apply list_filter_iff. intros x. split; intuition congruence. }
  generalize (seq 0 n). intros rs. induction rs as [|r rs IH]; [done|]. rewrite !fmap_cons. cbn [concat]. by rewrite Hr, IH.
Qed.

End Buckets.

(** ** The applications

    Splitting into words needs [unicode.IsLetter] on the runes of the text; it is
    a parameter, a function from a text to its letters-only fields. *)

Class Fields := { FieldsFunc_letters : string → list string }.

Module wc.
Definition Map `{Fields} (filename contents : string) : list KeyValue :=
  (λ w, mkKeyValue w "1") <$> FieldsFunc_letters contents.
Definition Reduce (key : string) (values : list string) : string := pretty (length values).
End wc.

(** [strings.Join] *)
Fixpoint Join_strings (sep : string) (l : list string) : string :=
  match l with
  | [] => ""
  | [x] => x
  | x :: l' => x +:+ sep +:+ Join_strings sep l'
  end.

Module indexer.
(** [order] is the order in which the range loop visits the distinct words. *)
Definition Map `{Fields} (order : list string → list string) (document value : string) : list KeyValue :=
  (λ w, mkKeyValue w document) <$> order (remove_dups (FieldsFunc_letters value)).
Definition Reduce (key : string) (values : list string) : string :=
  pretty (length values) +:+ " " +:+ Join_strings "," (sort_Strings values).
End indexer.

Module early_exit.
Definition Map (filename contents : string) : list KeyValue := [mkKeyValue filename "1"].
Definition Reduce (key : string) (values : list string) : string := pretty (length values).
End early_exit.

(** [rr] is the random number below 1000 that each call draws. *)
Module crash.
Definition maybeCrash (rr : Z) : outcome unit := if rr <? 330 then Exit else Ret tt.
Definition Map (rr : Z) (filename contents : string) : outcome (list KeyValue) :=
  _ ← maybeCrash rr;
  Ret [mkKeyValue "a" filename; mkKeyValue "b" (pretty (String.length filename));
       mkKeyValue "c" (pretty (String.length contents)); mkKeyValue "d" "xyzzy"].
Definition Reduce (rr : Z) (key : string) (values : list string) : outcome string :=
  _ ← maybeCrash rr;
  Ret (Join_strings " " (sort_Strings values)).
End crash.

Module nocrash.
Definition maybeCrash (rr : Z) : outcome unit := if false && (rr <? 500) then Exit else Ret tt.
Definition Map (rr : Z) (filename contents : string) : outcome (list KeyValue) :=
  _ ← maybeCrash rr;
  Ret [mkKeyValue "a" filename; mkKeyValue "b" (pretty (String.length filename));
       mkKeyValue "c" (pretty (String.length contents)); mkKeyValue "d" "xyzzy"].
Definition Reduce (rr : Z) (key : string) (values : list string) : outcome string :=
  _ ← maybeCrash rr;
  Ret (Join_strings " " (sort_Strings values)).
End nocrash.

(** ** Theorems *)

(** [buf] holds, in any order, bucket [r] of every map job. *)
Definition delivered (buckets : list (list (list KeyValue))) (r : nat) (buf : list KeyValue) : Prop :=
  buf ≡ₚ concat ((λ bs, default [] (bs !! r)) <$> buckets).

Definition perm_invariant (reducef : string → list string → string) : Prop :=
  ∀ k vs vs', vs ≡ₚ vs' → reducef k vs = reducef k vs'.

Lemma reduce_lines_spec `{GoSort} reducef buf :
  ∃ ls, reduce_lines reducef (sort_ByKey buf) = Ret ls ∧ ls ≡ₚ spec_lines reducef (sort_ByKey buf).
Proof.
  unfold reduce_lines. change 0 with (Z.of_nat 0). rewrite reduce_loop_group by (rewrite drop_0; lia). rewrite drop_0.
  eexists. split; [done|]. apply group_lines_spec, sort_sorted.
Qed.

Lemma sequential_lines_spec `{GoSort} reducef kva :
  ∃ ls, sequential_lines reducef kva = Ret ls ∧ ls ≡ₚ spec_lines reducef (sort_ByKey kva).
Proof.
  unfold sequential_lines. change 0 with (Z.of_nat 0).
  rewrite sequential_loop_group by (rewrite drop_0, (Permutation_length (sort_perm kva)); lia). rewrite drop_0.
  eexists. split; [done|]. apply group_lines_spec, sort_sorted.
Qed.

Lemma delivered_bucket n outs buckets r buf : (0 < n)%nat → (r < n)%nat →
  Forall2 (λ kva bs, map_buckets (Z.of_nat n) kva = Ret bs) outs buckets →
  delivered buckets r buf → buf ≡ₚ bucket n r (concat outs).
Proof.
  intros Hn Hr Hf ->. rewrite bucket_concat. apply reflexive_eq. f_equal.
  induction Hf as [|kva bs outs buckets Hm _ IH]; [done|]. rewrite !fmap_cons, IH. f_equal.
  destruct (map_buckets_spec n Hn kva) as (bs' & Hm' & _ & Hs). rewrite Hm in Hm'. apply Ret_inj in Hm' as <-. by rewrite Hs.
Qed.


Lemma wc_perm_invariant : perm_invariant wc.Reduce.
Proof. intros k vs vs' Hp. unfold wc.Reduce. by rewrite Hp. Qed.

Lemma indexer_perm_invariant : perm_invariant indexer.Reduce.
Proof. intros k vs vs' Hp. unfold indexer.Reduce. by rewrite (sort_Strings_perm vs vs' Hp), Hp. Qed.

(** Two input files counted with two reduce jobs. *)
Definition demo_outs : list (list KeyValue) :=
  [[mkKeyValue "b" "1"; mkKeyValue "a" "1"]; [mkKeyValue "a" "1"; mkKeyValue "c" "1"]].
Definition demo_buckets : list (list (list KeyValue)) :=
  (λ kva, match map_buckets 2 kva with Ret bs => bs | _ => [] end) <$> demo_outs.
Definition demo_bufs : list (list KeyValue) :=
  (λ r, concat ((λ bs, default [] (bs !! r)) <$> demo_buckets)) <$> seq 0 2.

