(* ===== verification/MRWorker.v ===== *)
(** * Lab2_MapReduce: the worker process

    [mr/worker.go]: the worker's state, its calls to the coordinator and to other
    workers, and its two jobs, as programs over critical sections and calls.
    [encoding/json] and [filepath.Glob] are interfaces. *)

From S2P Require Import Prelude GoFiles GoProg MRCoordinator MRData.
From stdpp Require Import pretty.
Open Scope string_scope.
Open Scope Z_scope.

(** ** Interfaces *)

(** A JSON encoder writes one value per call; [json_decode] is the list of values
    a decoder yields before its first error.  Strings that are valid UTF-8
    ([json_ok]) are read back as they were. *)
Class Json := {
  json_encode : KeyValue → string;
  json_decode : string → list KeyValue;
  json_ok : KeyValue → Prop
}.

Definition encode_all `{Json} (kvs : list KeyValue) : string := foldr (λ kv s, json_encode kv +:+ s) "" kvs.

Class JsonLaws `{Json} := {
  decode_encode : ∀ kvs, Forall json_ok kvs → json_decode (encode_all kvs) = kvs
}.

(** [filepath.Glob]: the matching names in the working directory. *)
Class Glob (FS : Type) := { filepath_Glob : string → FS → list string }.

(** ** Messages and state *)

Inductive WorkerStatus := WORKERALIVE | WORKERDEAD.
Inductive FileType := MAPFILES | REDUCEFILES | FILENOTFOUND.

#[global] Instance WorkerStatus_eq_dec : EqDecision WorkerStatus.
Proof. solve_decision. Defined.
#[global] Instance FileType_eq_dec : EqDecision FileType.
Proof. solve_decision. Defined.

Record Files := mkFiles { WorkerStat : WorkerStatus; FileData : string }.
Record FileRequest := mkFileRequest { fq_FileType : FileType; FileID : Z }.

Record WorkerProcess := mkWorkerProcess {
  IsSetup : bool;
  IpAddress : string;
  wp_WorkerId : Z;
  CompletedMapTasks : list bool;
  CompletedReduceTasks : list bool;
  CoordAddress : string
}.

(** What a worker asks of the coordinator and of other workers, and the replies. *)
Inductive MRReq :=
| QDoSetup (q : SetupRequest)
| QGetWork (q : WorkRequest)
| QWorkDone (q : WorkComplete)
| QWorkerDead (q : JobFailed)
| QGetMappedBuckets (q : FileRequest).
Inductive MRRep :=
| PSetup (r : WorkSetup)
| PWork (r : WorkReply)
| PFiles (r : Files)
| POk.

(** The worker starts no goroutine that calls others. *)
Inductive MRTask :=.

Record WorkerM (FS : Type) := mkWorkerM { w_proc : WorkerProcess; w_fs : FS }.
Arguments mkWorkerM {FS} w_proc w_fs.
Arguments w_proc {FS} _.
Arguments w_fs {FS} _.

Section Worker.
Context {FS : Type} `{FileSystem FS} `{Glob FS} `{Json} `{GoSort}.

Notation P := (prog (WorkerM FS) MRReq MRRep MRTask).

Definition with_fs {A} (f : WorkerProcess → FS → outcome (FS * P A)) : P A :=
  PStep (λ m, '(fs', p) ← f (w_proc m) (w_fs m); Ret (mkWorkerM (w_proc m) fs', p)).

(** ** Local files *)

(** A file that vanished ends the process; a read error yields no content. *)
Fixpoint read_matches (names : list string) (fs : FS) : outcome string :=
  match names with
  | [] => Ret ""
  | name :: names' =>
      if os_Open name fs then
        rest ← read_matches names' fs;
        Ret (default "" (io_ReadAll name fs) +:+ rest)
      else Exit
  end.

Definition retreiveFiles (fileNamePattern : string) (fs : FS) : outcome string :=
  read_matches (filepath_Glob fileNamePattern fs) fs.

Definition map_pattern (job : Z) : string := "mr-*-" +:+ pretty job.

Definition getFiles (request : FileRequest) (fs : FS) : outcome Files :=
  match fq_FileType request with
  | MAPFILES => data ← retreiveFiles (map_pattern (FileID request)) fs; Ret (mkFiles WORKERALIVE data)
  | _ => data ← retreiveFiles "mr-out-*" fs; Ret (mkFiles WORKERALIVE data)
  end.

(** The handler for requests of other workers. *)
Definition GetMappedBuckets (request : FileRequest) : P Files :=
  with_fs (λ _ fs, files ← getFiles request fs; Ret (fs, PRet files)).

(** Writes [chunks] one after the other through the handle of [path]; [None] when
    a write fails. *)
Fixpoint write_chunks (path : string) (chunks : list string) (fs : FS) : option FS :=
  match chunks with
  | [] => Some fs
  | c :: chunks' => let '(fs', ok) := file_Write path c fs in if (ok : bool) then write_chunks path chunks' fs' else None
  end.

(** The same when write errors are ignored. *)
Fixpoint print_chunks (path : string) (chunks : list string) (fs : FS) : FS :=
  match chunks with
  | [] => fs
  | c :: chunks' => print_chunks path chunks' (file_Write path c fs).1
  end.

(** ** Calls *)

Definition updateWorkingCompletedFiles (workType : Method) (JobId : Z) (w : WorkerProcess) : outcome WorkerProcess :=
  match workType with
  | MAP =>
      tasks ← slice_set (CompletedMapTasks w) JobId true;
      Ret (mkWorkerProcess (IsSetup w) (IpAddress w) (wp_WorkerId w) tasks (CompletedReduceTasks w) (CoordAddress w))
  | _ =>
      tasks ← slice_set (CompletedReduceTasks w) JobId true;
      Ret (mkWorkerProcess (IsSetup w) (IpAddress w) (wp_WorkerId w) (CompletedMapTasks w) tasks (CoordAddress w))
  end.

Definition CallDone (workType : Method) (outFile : string) (JobId : Z) : P unit :=
  PStep (λ m,
    let outContent := if decide (workType = REDUCE) then
                        if os_Open outFile (w_fs m) then default "" (io_ReadAll outFile (w_fs m)) else ""
                      else "" in
    let workComplete := mkWorkComplete workType JobId outContent (wp_WorkerId (w_proc m)) in
    w' ← updateWorkingCompletedFiles workType JobId (w_proc m);
    Ret (mkWorkerM w' (w_fs m), PCall (CoordAddress w') (QWorkDone workComplete) (λ _, PRet tt))).

Definition CallGetWork : P WorkReply :=
  PStep (λ m, Ret (m,
    PCall (CoordAddress (w_proc m)) (QGetWork (mkWorkRequest (wp_WorkerId (w_proc m)))) (λ o,
      match o with
      | Some (PWork r) => PRet r
      | _ => PRet (mkWorkReply NOWORK (-1) (-1) (-1) "" None [])
      end))).

Definition CallSetup : P WorkSetup :=
  PStep (λ m, Ret (m,
    PCall (CoordAddress (w_proc m)) (QDoSetup (mkSetupRequest (IpAddress (w_proc m)))) (λ o,
      match o with
      | Some (PSetup r) => PRet r
      | _ => PRet (mkWorkSetup (-1) 0 0)
      end))).

(** Tells the coordinator that a worker cannot be reached; a silent coordinator
    ends the process. *)
Definition report_dead (loc : WorkerLocation) (jobId : Z) {A} (k : P A) : P A :=
  PStep (λ m, Ret (m,
    PCall (CoordAddress (w_proc m)) (QWorkerDead (mkJobFailed loc REDUCE jobId)) (λ o,
      match o with Some _ => k | None => PExit end))).

Definition CallGetFiles (request : FileRequest) (loc : WorkerLocation) (jobId : Z) : P Files :=
  PCall (wl_Address loc) (QGetMappedBuckets request) (λ o,
    match o with
    | Some (PFiles f) => PRet f
    | _ => report_dead loc jobId (PRet (mkFiles WORKERDEAD ""))
    end).

(** ** The two jobs *)

Definition bucketFile (job : Z) (n : Z) : string := "mr-" +:+ pretty job +:+ "-" +:+ pretty n.

(** The loop of [DoMap] over the buckets, from number [n] on. *)
Fixpoint write_buckets (job n : Z) (buckets : list (list KeyValue)) (fs : FS) : outcome FS :=
  match buckets with
  | [] => Ret fs
  | b :: buckets' =>
      match os_Create (bucketFile job n) fs with
      | None => Exit
      | Some fs1 =>
          match write_chunks (bucketFile job n) (json_encode <$> b) fs1 with
          | None => Exit
          | Some fs2 => write_buckets job (n + 1) buckets' fs2
          end
      end
  end.

Definition DoMap (reply : WorkReply) (mapf : string → string → list KeyValue) : P unit :=
  with_fs (λ _ fs,
    intermediate ← map_buckets (wr_NReduce reply) (mapf (MapFileName reply) (default "" (MapFileContent reply)));
    fs' ← write_buckets (wr_JobId reply) 0 intermediate fs;
    Ret (fs', CallDone (wr_WorkType reply) "" (wr_JobId reply))).

Definition outName (job : Z) : string := "mr-out-" +:+ pretty job.

(** The end of [DoReduce]: sort, reduce, write and report. *)
Definition reduce_and_report (reply : WorkReply) (reducef : string → list string → string) (buffered : list KeyValue) : P unit :=
  with_fs (λ _ fs,
    lines ← reduce_lines reducef (sort_ByKey buffered);
    let fs' := match os_Create (outName (wr_JobId reply)) fs with
               | Some fs1 => print_chunks (outName (wr_JobId reply)) lines fs1
               | None => fs
               end in
    Ret (fs', CallDone (wr_WorkType reply) (outName (wr_JobId reply)) (wr_JobId reply))).

(** The loop over [ReduceFileLocations]. *)
Fixpoint fetch_loop (reply : WorkReply) (reducef : string → list string → string)
    (locs : list WorkerLocation) (buffered : list KeyValue) : P unit :=
  match locs with
  | [] => reduce_and_report reply reducef buffered
  | loc :: locs' =>
      PStep (λ m,
        if wl_WorkerId loc =? wp_WorkerId (w_proc m) then
          data ← retreiveFiles (map_pattern (wr_JobId reply)) (w_fs m);
          Ret (m, fetch_loop reply reducef locs' (buffered ++ json_decode data)%list)
        else if decide (wl_Address loc ≠ IpAddress (w_proc m)) then
          Ret (m, pbind (CallGetFiles (mkFileRequest MAPFILES (wr_JobId reply)) loc (wr_JobId reply)) (λ files,
            if decide (WorkerStat files = WORKERDEAD) then PRet tt
            else fetch_loop reply reducef locs' (buffered ++ json_decode (FileData files))%list))
        else Ret (m, report_dead loc (wr_JobId reply) (PRet tt)))
  end.

Definition DoReduce (reply : WorkReply) (reducef : string → list string → string) : P unit :=
  fetch_loop reply reducef (ReduceFileLocations reply) [].

(** ** The process *)

(** [Worker] up to its loop. *)
Definition Worker_start : P unit :=
  pbind CallSetup (λ reply,
    if ws_WorkerId reply <? 0 then PExit
    else PStep (λ m,
      let w := w_proc m in
      if (ws_NumFiles reply <? 0) || (ws_NReduce reply <? 0) then Panic
      else Ret (mkWorkerM (mkWorkerProcess true (IpAddress w) (ws_WorkerId reply)
                             (replicate (Z.to_nat (ws_NumFiles reply)) false)
                             (replicate (Z.to_nat (ws_NReduce reply)) false) (CoordAddress w)) (w_fs m), PRet tt))).

(** One iteration of the loop of [Worker]: whether it goes on. *)
Definition Worker_iteration (mapf : string → string → list KeyValue) (reducef : string → list string → string) : P bool :=
  pbind CallGetWork (λ reply,
    match wr_WorkType reply with
    | NOWORK => PRet false
    | WAIT => PRet true
    | MAP => pbind (DoMap reply mapf) (λ _, PRet true)
    | _ => pbind (DoReduce reply reducef) (λ _, PRet true)
    end).

(** The loop for at most [fuel] iterations: whether it ended. *)
Fixpoint Worker_loop (fuel : nat) mapf reducef : P bool :=
  match fuel with
  | O => PRet false
  | S fuel' => pbind (Worker_iteration mapf reducef) (λ go, if (go : bool) then Worker_loop fuel' mapf reducef else PRet true)
  end.

End Worker.
