(* ===== verification/MRJobs.v ===== *)
(** * Lab2_MapReduce: the jobs of a worker

    Running a map job leaves each bucket in its file; running a reduce job
    reports the reduction of everything fetched, and a worker that cannot be
    reached is reported instead. *)

From S2P Require Import Prelude GoFiles GoProg MRCoordinator MRData MRWorker.
From stdpp Require Import pretty.
From Stdlib Require Import Ascii.
Open Scope string_scope.
Open Scope Z_scope.

Definition str_concat (l : list string) : string := foldr String.append "" l.

Lemma string_app_assoc (a b c : string) : (a +:+ b) +:+ c = a +:+ (b +:+ c).
Proof. induction a as [|x a IH]; [done|]. exact (f_equal (String x) IH). Qed.

Lemma string_app_nil_r (a : string) : a +:+ "" = a.
Proof. induction a as [|x a IH]; [done|]. exact (f_equal (String x) IH). Qed.

Lemma bucketFile_inj job i j : bucketFile job i = bucketFile job j → i = j.
Proof. unfold bucketFile. intros Hp. do 3 apply (inj (String.append _)) in Hp. by apply (inj pretty) in Hp. Qed.

Section Jobs.
Context {FS : Type} `{FileSystemLaws FS} `{Glob FS} `{JsonLaws} `{GoSort}.

Notation P := (prog (WorkerM FS) MRReq MRRep MRTask).

(** A run of a program on one worker: the others answer by [answer], and the
    calls are logged. *)
Definition run_worker {A} (answer : string → MRReq → option MRRep) (p : P A) (s : WorkerM FS * list (string * MRReq)) :
    outcome (A * list MRTask * (WorkerM FS * list (string * MRReq))) :=
  exec (λ s, Some s.1) (λ m s, (m, s.2)) (λ d q s, Ret (answer d q, (s.1, (s.2 ++ [(d, q)])%list))) p s.

(** ** Map jobs *)

(** The first [cnt] buckets of [job] can be created and written on a disk that satisfies
    [writable]. *)
Definition buckets_writable (job cnt : Z) (writable : FS → Prop) : Prop :=
  (∀ n fs, 0 ≤ n < cnt → writable fs → ∃ fs1, os_Create (bucketFile job n) fs = Some fs1 ∧ writable fs1) ∧
  (∀ n c fs, writable fs → ∃ fs1, file_Write (bucketFile job n) c fs = (fs1, true) ∧ writable fs1).

Section Write.
Variables (job cnt : Z) (writable : FS → Prop).
Hypothesis Hwr : buckets_writable job cnt writable.

Lemma write_chunks_spec n chunks fs c0 : writable fs →
  os_Open (bucketFile job n) fs = true → io_ReadAll (bucketFile job n) fs = Some c0 →
  ∃ fs', write_chunks (bucketFile job n) chunks fs = Some fs' ∧ writable fs' ∧
    os_Open (bucketFile job n) fs' = true ∧ io_ReadAll (bucketFile job n) fs' = Some (c0 +:+ str_concat chunks) ∧
    ∀ i, i ≠ n → io_ReadAll (bucketFile job i) fs' = io_ReadAll (bucketFile job i) fs.
Proof using All.
  revert fs c0. induction chunks as [|c chunks IH]; intros fs c0 Hw Ho Hr; simpl.
  - exists fs. by rewrite string_app_nil_r.
  - destruct (proj2 Hwr n c fs Hw) as (fs1 & Hf & Hw1). rewrite Hf.
    destruct (write_append _ c fs c0 fs1 Ho Hr Hf) as [Ho1 Hr1].
    destruct (IH fs1 (c0 +:+ c) Hw1 Ho1 Hr1) as (fs' & -> & Hw' & Ho' & Hr' & Hoth). exists fs'.
    split; [done|]. split; [done|]. split; [done|]. rewrite Hr', string_app_assoc. split; [done|].
    intros i Hi. rewrite Hoth by done. assert (Hne : bucketFile job n ≠ bucketFile job i) by (intros ?%bucketFile_inj; congruence).
    pose proof (write_other _ _ c fs Hne) as [_ Hx]. by rewrite Hf in Hx.
Qed.

Lemma write_buckets_spec (k : nat) buckets fs : Z.of_nat (k + length buckets) ≤ cnt → writable fs →
  ∃ fs', write_buckets job (Z.of_nat k) buckets fs = Ret fs' ∧
    (∀ i b, buckets !! i = Some b → io_ReadAll (bucketFile job (Z.of_nat (k + i))) fs' = Some (encode_all b)) ∧
    (∀ i, i < Z.of_nat k → io_ReadAll (bucketFile job i) fs' = io_ReadAll (bucketFile job i) fs).
Proof using All.
  revert k fs. induction buckets as [|b buckets IH]; intros k fs Hcnt Hw; cbn [write_buckets]; [by exists fs|]. simpl in Hcnt.
  destruct (proj1 Hwr (Z.of_nat k) fs) as (fs1 & Hc & Hw1); [lia|done|]. rewrite Hc.
  destruct (create_empty _ _ _ Hc) as [Ho Hr].
  destruct (write_chunks_spec (Z.of_nat k) (json_encode <$> b) fs1 "" Hw1 Ho Hr) as (fs2 & -> & Hw2 & _ & Hr2 & Hoth).
  replace (Z.of_nat k + 1) with (Z.of_nat (S k)) by lia.
  destruct (IH (S k) fs2) as (fs' & -> & Hin & Hout); [lia|done|]. exists fs'. split; [done|]. split.
  - intros [|i] b' Hi; simpl in Hi.
    + injection Hi as <-. rewrite Nat.add_0_r, Hout, Hr2 by lia. simpl. f_equal. unfold encode_all, str_concat. by rewrite foldr_fmap.
    + rewrite Nat.add_succ_r. by apply (Hin i).
  - intros i Hi. rewrite Hout by lia. rewrite Hoth by lia.
    assert (Hne : bucketFile job (Z.of_nat k) ≠ bucketFile job i) by (intros ?%bucketFile_inj; lia).
    by apply (create_other _ _ _ _ Hne Hc).
Qed.

End Write.
Lemma run_with_fs {A} answer (f : WorkerProcess → FS → outcome (FS * P A)) m log fs' p :
  f (w_proc m) (w_fs m) = Ret (fs', p) →
  run_worker answer (with_fs f) (m, log) = run_worker answer p (mkWorkerM (w_proc m) fs', log).
Proof. intros Hf. unfold run_worker, with_fs. cbn [exec fst snd]. by rewrite Hf. Qed.

(** The report of a job whose number is in range. *)
Lemma run_CallDone answer workType outFile job m log w' : updateWorkingCompletedFiles workType job (w_proc m) = Ret w' →
  CoordAddress w' = CoordAddress (w_proc m) →
  run_worker answer (CallDone workType outFile job) (m, log) =
  Ret (tt, [], (mkWorkerM w' (w_fs m), (log ++ [(CoordAddress (w_proc m),
    QWorkDone (mkWorkComplete workType job
      (if decide (workType = REDUCE) then if os_Open outFile (w_fs m) then default "" (io_ReadAll outFile (w_fs m)) else "" else "")
      (wp_WorkerId (w_proc m))))])%list)).
Proof. intros Hu Ha. unfold run_worker, CallDone. cbn [exec fst snd]. rewrite Hu. cbn [mbind outcome_bind exec]. by rewrite Ha. Qed.

Lemma update_ok workType job w : workType = MAP ∨ workType = REDUCE →
  0 ≤ job < go_len (if decide (workType = MAP) then CompletedMapTasks w else CompletedReduceTasks w) →
  ∃ w', updateWorkingCompletedFiles workType job w = Ret w' ∧ CoordAddress w' = CoordAddress w ∧ wp_WorkerId w' = wp_WorkerId w.
Proof.
  intros [-> | ->] Hj; simpl in *; rewrite slice_set_ok by done; by eexists.
Qed.

(** ** Reduce jobs *)

(** Where the data of a location comes from: the own files or another worker. *)
Definition source (answer : string → MRReq → option MRRep) (m : WorkerM FS) (job : Z) (loc : WorkerLocation) (data : string) : Prop :=
  (wl_WorkerId loc = wp_WorkerId (w_proc m) ∧ retreiveFiles (map_pattern job) (w_fs m) = Ret data) ∨
  (wl_WorkerId loc ≠ wp_WorkerId (w_proc m) ∧ wl_Address loc ≠ IpAddress (w_proc m) ∧
   answer (wl_Address loc) (QGetMappedBuckets (mkFileRequest MAPFILES job)) = Some (PFiles (mkFiles WORKERALIVE data))).

(** The calls for the locations of other workers. *)
Definition fetch_calls (m : WorkerM FS) (job : Z) (locs : list WorkerLocation) : list (string * MRReq) :=
  (λ loc, (wl_Address loc, QGetMappedBuckets (mkFileRequest MAPFILES job))) <$>
    filter (λ loc, wl_WorkerId loc ≠ wp_WorkerId (w_proc m)) locs.

Lemma fetch_loop_spec answer reply reducef locs datas buffered m log :
  Forall2 (source answer m (wr_JobId reply)) locs datas →
  run_worker answer (fetch_loop reply reducef locs buffered) (m, log) =
  run_worker answer (reduce_and_report reply reducef (buffered ++ concat (json_decode <$> datas))%list)
    (m, (log ++ fetch_calls m (wr_JobId reply) locs)%list).
Proof.
  intros Hf. revert buffered log. induction Hf as [|loc data locs datas Hs _ IH]; intros buffered log.
  - by rewrite !app_nil_r.
  - unfold run_worker. cbn [fetch_loop exec fst snd]. unfold fetch_calls. destruct Hs as [[Heq Hd]|(Hne & Haddr & Hans)].
    + rewrite Heq, Z.eqb_refl, Hd. cbn [mbind outcome_bind]. rewrite filter_cons_False by naive_solver.
      fold (run_worker (A := unit) answer). etrans; [apply IH|]. by rewrite <-app_assoc.
    + destruct (Z.eqb_spec (wl_WorkerId loc) (wp_WorkerId (w_proc m))); [done|]. rewrite decide_True by done.
      cbn [pbind CallGetFiles exec]. rewrite Hans. cbn [mbind outcome_bind pbind exec WorkerStat]. rewrite decide_False by done.
      rewrite filter_cons_True by done. etrans; [apply IH|]. rewrite <-!app_assoc. done.
Qed.

(** A write to the output file always succeeds. *)
Definition always_writes (path : string) : Prop := ∀ c (fs : FS), ∃ fs', file_Write path c fs = (fs', true).

Lemma print_chunks_spec path chunks fs c0 : always_writes path → os_Open path fs = true → io_ReadAll path fs = Some c0 →
  os_Open path (print_chunks path chunks fs) = true ∧ io_ReadAll path (print_chunks path chunks fs) = Some (c0 +:+ str_concat chunks).
Proof.
  intros Hw. revert fs c0. induction chunks as [|c chunks IH]; intros fs c0 Ho Hr; simpl; [by rewrite string_app_nil_r|].
  destruct (Hw c fs) as [fs1 Hf]. rewrite Hf. simpl. destruct (write_append _ _ _ _ _ Ho Hr Hf) as [Ho1 Hr1].
  destruct (IH fs1 _ Ho1 Hr1) as [? Hr']. split; [done|]. by rewrite Hr', string_app_assoc.
Qed.

End Jobs.

(** C32 (a map job publishes its buckets).  On a disk where the bucket files can be
    written, a map job for existing job numbers runs to its end: file "mr-j-r"
    then decodes to exactly the pairs the map function emitted whose key hashes
    to bucket [r], in order, for every [r] below the number of reducers, and the
    coordinator is told that the job is completed. *)
Theorem DoMap_publishes_buckets {FS : Type} `{FileSystemLaws FS} `{Glob FS} `{JsonLaws}
    (writable : FS → Prop) (answer : string → MRReq → option MRRep) (reply : WorkReply)
    (mapf : string → string → list KeyValue) (m : WorkerM FS) (log : list (string * MRReq)) (n : nat) :
  let job := wr_JobId reply in
  let pairs := mapf (MapFileName reply) (default "" (MapFileContent reply)) in
  wr_WorkType reply = MAP → wr_NReduce reply = Z.of_nat n → (0 < n)%nat →
  0 ≤ job < go_len (CompletedMapTasks (w_proc m)) → Forall json_ok pairs →
  buckets_writable job (Z.of_nat n) writable → writable (w_fs m) →
  ∃ m', run_worker answer (DoMap reply mapf) (m, log) =
      Ret (tt, [], (m', (log ++ [(CoordAddress (w_proc m), QWorkDone (mkWorkComplete MAP job "" (wp_WorkerId (w_proc m))))])%list)) ∧
    ∀ r, (r < n)%nat → ∃ data, io_ReadAll (bucketFile job (Z.of_nat r)) (w_fs m') = Some data ∧
      json_decode data = bucket n r pairs.
Proof.
  intros job pairs Ht Hn Hpos Hj Hok Hwr Hw. destruct (map_buckets_spec n Hpos pairs) as (bs & Hbs & Hlen & Hspec).
  destruct (write_buckets_spec job (Z.of_nat n) writable Hwr 0 bs (w_fs m)) as (fs' & Hfs & Hin & _); [lia|done|].
  destruct (update_ok MAP job (w_proc m)) as (w' & Hu & Ha & Hid); [by left|done|].
  exists (mkWorkerM w' fs'). split.
  - unfold DoMap. erewrite run_with_fs; [|rewrite Hn; fold pairs; rewrite Hbs; cbn [mbind outcome_bind]; fold job;
      change (write_buckets job 0) with (write_buckets (FS := FS) job (Z.of_nat 0)); by rewrite Hfs].
    rewrite Ht. rewrite (run_CallDone answer MAP "" job _ log w'); [done|done|done].
  - intros r Hr. exists (encode_all (bucket n r pairs)). split; [by apply (Hin r), Hspec|].
    apply decode_encode. unfold bucket. rewrite Forall_forall in *. intros kv [_ Hkv]%list_elem_of_filter. by apply Hok.
Qed.

(** C34 (a reduce job reports the reduction).  When every location in the reply is
    the worker itself or another worker that answers, and the output file can be
    written, a reduce job fetches from each other worker once, and reports to the
    coordinator exactly the lines of reducing all fetched pairs; it always ends. *)
Theorem DoReduce_reports {FS : Type} `{FileSystemLaws FS} `{Glob FS} `{Json} `{GoSort}
    (answer : string → MRReq → option MRRep) (reply : WorkReply) (reducef : string → list string → string)
    (m : WorkerM FS) (log : list (string * MRReq)) (datas : list string) :
  let job := wr_JobId reply in
  wr_WorkType reply = REDUCE → 0 ≤ job < go_len (CompletedReduceTasks (w_proc m)) →
  Forall2 (source answer m job) (ReduceFileLocations reply) datas →
  is_Some (os_Create (outName job) (w_fs m)) → always_writes (FS := FS) (outName job) →
  ∃ m' lines, reduce_lines reducef (sort_ByKey (concat (json_decode <$> datas))) = Ret lines ∧
    run_worker answer (DoReduce reply reducef) (m, log) =
      Ret (tt, [], (m', (log ++ fetch_calls m job (ReduceFileLocations reply) ++
        [(CoordAddress (w_proc m), QWorkDone (mkWorkComplete REDUCE job (str_concat lines) (wp_WorkerId (w_proc m))))])%list)).
Proof.
  intros job Ht Hj Hsrc [fs1 Hcr] Hw. destruct (reduce_lines_spec reducef (concat (json_decode <$> datas))) as (lines & Hlines & _).
  destruct (update_ok REDUCE job (w_proc m)) as (w' & Hu & Ha & Hid); [by right|done|].
  destruct (create_empty _ _ _ Hcr) as [Ho Hr]. destruct (print_chunks_spec _ lines fs1 "" Hw Ho Hr) as [Ho' Hr'].
  exists (mkWorkerM w' (print_chunks (outName job) lines fs1)), lines. split; [done|]. unfold DoReduce.
  rewrite (fetch_loop_spec _ _ _ _ datas) by done. simpl app. unfold reduce_and_report.
  erewrite run_with_fs; [|rewrite Hlines; cbn [mbind outcome_bind]; fold job; rewrite Hcr; reflexivity].
  rewrite Ht. rewrite (run_CallDone answer REDUCE _ job _ _ w') by done. rewrite decide_True by done. cbn [w_fs w_proc].
  rewrite Ho', Hr', app_assoc. done.
Qed.

(** ** Examples *)

(** A codec: every character is preceded by a tag for its field, and a pair ends
    with a point. *)
Fixpoint demo_tag (t : Ascii.ascii) (s : string) : string :=
  match s with EmptyString => "" | String c s' => String t (String c (demo_tag t s')) end.

Fixpoint demo_decode (s : string) (k v : string) : list KeyValue :=
  match s with
  | String "k" (String c s') => demo_decode s' (k +:+ String c "") v
  | String "v" (String c s') => demo_decode s' k (v +:+ String c "")
  | String "." s' => mkKeyValue k v :: demo_decode s' "" ""
  | _ => []
  end.

#[local] Instance demo_json : Json := {|
  json_encode kv := demo_tag "k" (Key kv) +:+ (demo_tag "v" (Value kv) +:+ ".");
  json_decode s := demo_decode s "" "";
  json_ok _ := True
|}.

Lemma demo_decode_k s rest k v : demo_decode (demo_tag "k" s +:+ rest) k v = demo_decode rest (k +:+ s) v.
Proof.
  revert k. induction s as [|c s IH]; intros k; [by rewrite string_app_nil_r|].
  etrans; [exact (IH (k +:+ String c ""))|]. by rewrite string_app_assoc.
Qed.

Lemma demo_decode_v s rest k v : demo_decode (demo_tag "v" s +:+ rest) k v = demo_decode rest k (v +:+ s).
Proof.
  revert v. induction s as [|c s IH]; intros v; [by rewrite string_app_nil_r|].
  etrans; [exact (IH (v +:+ String c ""))|]. by rewrite string_app_assoc.
Qed.

#[local] Instance demo_json_laws : JsonLaws.
Proof.
  split. intros kvs _. induction kvs as [|[k v] kvs IH]; [done|]. cbn [encode_all foldr json_encode demo_json json_decode].
  rewrite !string_app_assoc, demo_decode_k, demo_decode_v. simpl. f_equal. exact IH.
Qed.

(** Every file of the disk, whatever the pattern. *)
#[local] Instance demo_glob : Glob MemFS := {| filepath_Glob _ fs := (map_to_list (mf_files fs)).*1 |}.

Definition demo_worker : WorkerM MemFS :=
  mkWorkerM (mkWorkerProcess true "w1:1" 1 [false] [false; false] "c:1234") (mkMemFS ∅ ∅).
Definition demo_map_reply : WorkReply := mkWorkReply MAP 0 1 2 "in" (Some "x") [].
Definition demo_mapf (_ _ : string) : list KeyValue := [mkKeyValue "b" "1"; mkKeyValue "a" "1"].

Lemma DoMap_publishes_buckets_witness :
  ∃ m', run_worker (λ _ _, None) (DoMap demo_map_reply demo_mapf) (demo_worker, []) =
      Ret (tt, [], (m', [("c:1234", QWorkDone (mkWorkComplete MAP 0 "" 1))])) ∧
    ∀ r, (r < 2)%nat → ∃ data, io_ReadAll (bucketFile 0 (Z.of_nat r)) (w_fs m') = Some data ∧
      json_decode data = bucket 2 r (demo_mapf "in" "x").
Proof.
  apply (DoMap_publishes_buckets (λ _, True) (λ _ _, None) demo_map_reply demo_mapf demo_worker [] 2);
    [reflexivity|reflexivity|lia|simpl; unfold go_len; simpl; lia|by apply Forall_true| |done].
  split; [|by eexists].
  intros n fs Hn _. assert (n = 0 ∨ n = 1) as [-> | ->] by lia; cbn [os_Create mem_fs]; rewrite decide_True by (by left); by eexists.
Defined.

Definition demo_reduce_reply : WorkReply := mkWorkReply REDUCE 1 1 2 "" None [mkWorkerLocation 2 "w2:1"].
Definition demo_answer (d : string) (q : MRReq) : option MRRep :=
  match q with
  | QGetMappedBuckets _ => Some (PFiles (mkFiles WORKERALIVE (encode_all [mkKeyValue "b" "1"; mkKeyValue "b" "1"])))
  | _ => Some POk
  end.

Lemma DoReduce_reports_witness :
  ∃ m' lines, reduce_lines wc.Reduce (sort_ByKey (concat (json_decode <$> [encode_all [mkKeyValue "b" "1"; mkKeyValue "b" "1"]]))) = Ret lines ∧
    run_worker demo_answer (DoReduce demo_reduce_reply wc.Reduce) (demo_worker, []) =
      Ret (tt, [], (m', [("w2:1", QGetMappedBuckets (mkFileRequest MAPFILES 1));
        ("c:1234", QWorkDone (mkWorkComplete REDUCE 1 (str_concat lines) 1))])).
Proof.
  apply (DoReduce_reports demo_answer demo_reduce_reply wc.Reduce demo_worker []
           [encode_all [mkKeyValue "b" "1"; mkKeyValue "b" "1"]]); [reflexivity|simpl; unfold go_len; simpl; lia| | |].
  - constructor; [|constructor]. right. split; [done|]. split; [done|]. reflexivity.
  - cbn [os_Create mem_fs]. rewrite decide_True by (by left). by eexists.
  - intros c fs. by eexists.
Defined.
