(* ===== verification/MRApps.v ===== *)
(** * Lab2_MapReduce, mrapps: applications that watch each other

    [mtiming.go], [rtiming.go] and [jobcount.go]: pseudo-applications that measure how
    the workers run, through marker files in the shared working directory.
    [nparallel] counts the processes that are in the same phase; [jobcount] counts
    calls of Map.  The processes interleave in any order at the operations on the
    directory.  The theorems: [nparallel] counts exactly the live processes between
    marking and unmarking and never panics, and the number [jobcount] reports is the
    number of Map calls of all processes.

    [%d] of [fmt.Sscanf] skips white space (ASCII here), takes a sign and digits and
    ignores what follows.  The time of a call and the process id are arguments. *)

From S2P Require Import Prelude MRData.
From stdpp Require Import pretty.
From Stdlib Require Import Ascii.
Open Scope string_scope.
Open Scope Z_scope.

(** ** The working directory *)

(** Operations of [os] and [ioutil] on names in the working directory; [None] is an
    error.  [dir_Names k] is [Open] and [Readdirnames(k)], [dir_ReadDir] lists all. *)
Class WorkDir (D : Type) := {
  dir_WriteFile : string → string → D → option D;
  dir_Names : Z → D → option (list string);
  dir_ReadDir : D → option (list string);
  dir_Remove : string → D → option D
}.

(** What holds of a directory that can be read and written. *)
Class WorkDirLaws (D : Type) `{WorkDir D} := {
  files : D → gset string;
  healthy : D → Prop;
  write_law : ∀ f x d, healthy d → ∃ d', dir_WriteFile f x d = Some d' ∧ healthy d' ∧ files d' = {[f]} ∪ files d;
  remove_law : ∀ f d, healthy d → f ∈ files d → ∃ d', dir_Remove f d = Some d' ∧ healthy d' ∧ files d' = files d ∖ {[f]};
  names_law : ∀ k d, healthy d → files d ≠ ∅ → Z.of_nat (size (files d)) ≤ k → ∃ l, dir_Names k d = Some l ∧ l ≡ₚ elements (files d);
  readdir_law : ∀ d, healthy d → ∃ l, dir_ReadDir d = Some l ∧ l ≡ₚ elements (files d)
}.

(** A set of names is such a directory. *)
#[global] Instance name_set : WorkDir (gset string) := {|
  dir_WriteFile f _ d := Some ({[f]} ∪ d);
  dir_Names k d := match elements d with [] => None | l => Some (take (Z.to_nat k) l) end;
  dir_ReadDir d := Some (elements d);
  dir_Remove f d := if decide (f ∈ d) then Some (d ∖ {[f]}) else None
|}.

#[global] Program Instance name_set_laws : WorkDirLaws (gset string) := {| files d := d; healthy _ := True |}.
Next Obligation. intros f x d _. by eexists. Qed.
Next Obligation. intros f d _ Hf. simpl. rewrite decide_True by done. by eexists. Qed.
Next Obligation.
  intros k d _ Hne Hk. simpl. destruct (elements d) as [|x l] eqn:E; [by apply elements_empty_iff, leibniz_equiv in E|].
  eexists. split; [done|]. rewrite <-E, take_ge; [done|]. unfold size, set_size in Hk. simpl in Hk. lia.
Qed.
Next Obligation. intros d _. by eexists. Qed.

Definition panic_on_error {A} (o : option A) : outcome A := match o with Some a => Ret a | None => Panic end.

(** ** [fmt.Sscanf] with a literal and [%d] *)

Fixpoint strip_literal (lit s : string) : option string :=
  match lit with
  | EmptyString => Some s
  | String c lit' => match s with String c' s' => if decide (c = c') then strip_literal lit' s' else None | EmptyString => None end
  end.

(** White space other than the newline, which is an error. *)
Definition is_blank (c : ascii) : bool :=
  let v := nat_of_ascii c in Nat.eqb v 32 || Nat.eqb v 9 || Nat.eqb v 11 || Nat.eqb v 12 || Nat.eqb v 13.
Fixpoint skip_blanks (s : string) : string := match s with String c s' => if is_blank c then skip_blanks s' else s | EmptyString => s end.

Definition digit_val (c : ascii) : option Z := let v := Z.of_nat (nat_of_ascii c) - 48 in if (0 <=? v) && (v <=? 9) then Some v else None.

(** [None]: no digit so far. *)
Fixpoint scan_digits (s : string) (acc : option Z) : option Z :=
  match s with
  | String c s' => match digit_val c with Some v => scan_digits s' (Some (10 * default 0 acc + v)) | None => acc end
  | EmptyString => acc
  end.

Definition int64_ok (v : Z) : bool := (- 2 ^ 63 <=? v) && (v <? 2 ^ 63).
Definition scan_int (s : string) : option Z :=
  let s := skip_blanks s in
  v ← match s with
      | String "-" s' => Z.opp <$> scan_digits s' None
      | String "+" s' => scan_digits s' None
      | _ => scan_digits s None
      end;
  if int64_ok v then Some v else None.

Definition Sscanf_d (lit s : string) : option Z := s' ← strip_literal lit s; scan_int s'.

(** ** nparallel (mtiming.go and rtiming.go) *)

Section Nparallel.
Context {D : Type} `{WorkDir D}.

Definition marker (phase : string) (pid : Z) : string := "mr-worker-" +:+ phase +:+ "-" +:+ pretty pid.

(** Its three sections: the marker is written, the directory is scanned, and after a
    second the marker is removed. *)
Definition nparallel_mark (phase : string) (pid : Z) (d : D) : outcome D := panic_on_error (dir_WriteFile (marker phase pid) "x" d).

(** [alive x]: [syscall.Kill(x, 0)] succeeds. *)
Definition count_alive (alive : Z → bool) (phase : string) (names : list string) : Z :=
  foldl (λ ret name, match Sscanf_d ("mr-worker-" +:+ phase +:+ "-") name with Some xpid => if alive xpid then ret + 1 else ret | None => ret end) 0 names.
Definition nparallel_count (alive : Z → bool) (phase : string) (d : D) : outcome Z :=
  names ← panic_on_error (dir_Names 1000000 d); Ret (count_alive alive phase names).

Definition nparallel_unmark (phase : string) (pid : Z) (d : D) : outcome D := panic_on_error (dir_Remove (marker phase pid) d).

(** The whole call; [sleep1] and [sleep2] are what other processes do to the
    directory before the scan and before the removal. *)
Definition nparallel (sleep1 sleep2 : D → D) (alive : Z → bool) (phase : string) (pid : Z) (d : D) : outcome (Z * D) :=
  d ← nparallel_mark phase pid d;
  let d := sleep1 d in
  ret ← nparallel_count alive phase d;
  d ← nparallel_unmark phase pid (sleep2 d);
  Ret (ret, d).
End Nparallel.

Module mtiming.
(** [ts] is the time as [%.1f] prints it. *)
Definition Map {D} `{WorkDir D} (sleep1 sleep2 : D → D) (alive : Z → bool) (pid : Z) (ts filename contents : string) (d : D) : outcome (list KeyValue * D) :=
  '(n, d) ← nparallel sleep1 sleep2 alive "map" pid d;
  Ret ([mkKeyValue ("times-" +:+ pretty pid) ts; mkKeyValue ("parallel-" +:+ pretty pid) (pretty n)], d).
Definition Reduce (key : string) (values : list string) : string := Join_strings " " (sort_Strings values).
End mtiming.

Module rtiming.
Definition Map (filename contents : string) : list KeyValue :=
  (λ k, mkKeyValue k "1") <$> ["a"; "b"; "c"; "d"; "e"; "f"; "g"; "h"; "i"; "j"].
Definition Reduce {D} `{WorkDir D} (sleep1 sleep2 : D → D) (alive : Z → bool) (pid : Z) (key : string) (values : list string) (d : D) : outcome (string * D) :=
  '(n, d) ← nparallel sleep1 sleep2 alive "reduce" pid d; Ret (pretty n, d).
End rtiming.

(** [count] is the global variable of the process. *)
Module jobcount.
Definition job_file (me count : Z) : string := "mr-worker-jobcount-" +:+ pretty me +:+ "-" +:+ pretty count.
Definition Map {D} `{WorkDir D} (me : Z) (filename contents : string) (count : Z) (d : D) : outcome (list KeyValue * Z * D) :=
  d ← panic_on_error (dir_WriteFile (job_file me count) "x" d);
  Ret ([mkKeyValue "a" "x"], count + 1, d).
Definition is_job_file (f : string) : bool := String.prefix "mr-worker-jobcount" f.
Definition Reduce {D} `{WorkDir D} (key : string) (values : list string) (d : D) : outcome string :=
  fs ← panic_on_error (dir_ReadDir d);
  Ret (pretty (foldl (λ invocations f, if is_job_file f then invocations + 1 else invocations) 0 fs)).
End jobcount.

(** ** Printing and scanning a number *)

(** Scanning stops at [s]. *)
Definition stops (s : string) : Prop := match s with EmptyString => True | String c _ => digit_val c = None end.

Lemma digit_val_char (x : N) : (x < 10)%N → digit_val (pretty_N_char x) = Some (Z.of_N x).
Proof.
  intros Hx. assert (x = 0 ∨ x = 1 ∨ x = 2 ∨ x = 3 ∨ x = 4 ∨ x = 5 ∨ x = 6 ∨ x = 7 ∨ x = 8 ∨ x = 9)%N as Hc by lia.
  repeat destruct Hc as [->|Hc]; try reflexivity. by rewrite Hc.
Qed.

Lemma pretty_N_go_app x t s : (pretty_N_go x t +:+ s) = pretty_N_go x (t +:+ s).
Proof.
  revert t. induction (N.lt_wf_0 x) as [x _ IH]; intros t. assert (x = 0 ∨ 0 < x)%N as [->|Hx] by lia; [done|].
  rewrite !(pretty_N_go_step x) by done. rewrite IH by (by apply N.div_lt). done.
Qed.

Lemma scan_digits_go x s : scan_digits (pretty_N_go x s) None = if decide (x = 0)%N then scan_digits s None else scan_digits s (Some (Z.of_N x)).
Proof.
  revert s. induction (N.lt_wf_0 x) as [x _ IH]; intros s. assert (x = 0 ∨ 0 < x)%N as [->|Hx] by lia; [done|].
  rewrite pretty_N_go_step, IH, (decide_False (P := x = 0%N)) by (done || lia || (by apply N.div_lt)). cbn [scan_digits].
  rewrite digit_val_char by (by apply N.mod_lt). pose proof (N.div_mod' x 10) as Hdm. case_decide as E; [rewrite E in Hdm|]; cbn [default]; do 2 f_equal; unfold id; lia.
Qed.

Lemma scan_digits_pretty (p : Z) s : 0 ≤ p → stops s → scan_digits (pretty p +:+ s) None = Some p.
Proof.
  intros Hp Hs. assert (Hend : ∀ a, scan_digits s a = a) by (intros a; destruct s as [|c s]; [done|]; simpl in *; by rewrite Hs).
  destruct p as [|p|p]; [|change (pretty (Z.pos p)) with (pretty_N_go (N.pos p) "")|lia].
  - simpl. by rewrite Hend.
  - rewrite pretty_N_go_app, scan_digits_go. simpl. by rewrite Hend.
Qed.

Lemma pretty_starts (p : Z) s : 0 ≤ p → ∃ c s', pretty p +:+ s = String c s' ∧ is_Some (digit_val c).
Proof.
  intros Hp. destruct p as [|p|p]; [by eexists _, _|change (pretty (Z.pos p)) with (pretty_N_go (N.pos p) "")|lia]. rewrite pretty_N_go_app. simpl.
  assert (Hx : (0 < N.pos p)%N) by lia. revert Hx. generalize (N.pos p) as x. generalize s. intros s0 x. revert s0.
  induction (N.lt_wf_0 x) as [x _ IH]; intros s0 Hx. rewrite pretty_N_go_step by done. destruct (decide (x `div` 10 = 0)%N) as [E|E].
  - rewrite E, pretty_N_go_0. eexists _, _. split; [done|]. rewrite digit_val_char by (by apply N.mod_lt). by eexists.
  - apply IH; [by apply N.div_lt|by apply N.neq_0_lt_0].
Qed.

(** [%d] reads back what [%d] printed. *)
Lemma scan_int_pretty (p : Z) s : 0 ≤ p < 2 ^ 63 → stops s → scan_int (pretty p +:+ s) = Some p.
Proof.
  intros Hp Hs. destruct (pretty_starts p s) as (c & s' & E & [v Hv]); [lia|]. unfold scan_int. rewrite E. simpl.
  assert (Hb : is_blank c = false).
  { clear -Hv. revert Hv. unfold digit_val. destruct (Z.leb_spec 0 (Z.of_nat (nat_of_ascii c) - 48)) as [Hc|]; [|done]. intros _.
    unfold is_blank. by rewrite !(proj2 (Nat.eqb_neq _ _)) by lia. }
  rewrite Hb. assert (Hm : scan_digits (String c s') None = Some p) by (rewrite <-E; apply scan_digits_pretty; [lia|done]).
  assert (Hcase : ∀ k : option Z, (match String c s' with String "-" s'0 => Z.opp <$> scan_digits s'0 None | String "+" s'0 => scan_digits s'0 None | _ => scan_digits (String c s') None end) = scan_digits (String c s') None).
  { intros _. destruct c as [[] [] [] [] [] [] [] []]; try reflexivity; discriminate Hv. }
  rewrite (Hcase None), Hm. simpl. unfold int64_ok. by rewrite (proj2 (Z.leb_le _ _)), (proj2 (Z.ltb_lt _ _)) by lia.
Qed.

Lemma strip_literal_app lit s : strip_literal lit (lit +:+ s) = Some s.
Proof. induction lit as [|c lit IH]; [done|]. simpl. by rewrite decide_True. Qed.

Lemma append_nil_r (s : string) : s +:+ "" = s.
Proof. induction s as [|c s IH]; [done|]. change (String c s +:+ "") with (String c (s +:+ "")). by rewrite IH. Qed.

Lemma Sscanf_d_pretty lit p s : 0 ≤ p < 2 ^ 63 → stops s → Sscanf_d lit (lit +:+ pretty p +:+ s) = Some p.
Proof. intros Hp Hs. unfold Sscanf_d. rewrite strip_literal_app. simpl. by apply scan_int_pretty. Qed.

(** ** Processes that measure parallelism *)

Section Workers.
Context {D : Type} `{WorkDirLaws D}.

(** Where a worker process is: outside [nparallel], after writing its marker, or after
    the scan. *)
Inductive pstate := Outside | Marked (phase : string) | Counted (phase : string) (ret : Z).
Definition in_phase (phase : string) (s : pstate) : Prop := match s with Outside => False | Marked ph | Counted ph _ => ph = phase end.
#[global] Instance in_phase_dec phase s : Decision (in_phase phase s).
Proof. destruct s; simpl; apply _. Defined.

(** [procs]: the live worker processes; [used]: all process ids given out so far. *)
Record workers := mkWorkers { wd : D; procs : gmap Z pstate; used : gset Z }.

(** A phase is one of the two arguments in the source. *)
Definition is_phase (ph : string) : Prop := ph = "map" ∨ ph = "reduce".

(** Names that no scan takes for a marker. *)
Definition no_marker (f : string) : Prop := ∀ ph, is_phase ph → Sscanf_d ("mr-worker-" +:+ ph +:+ "-") f = None.

(** What the signal tells: live workers answer, workers that ended do not (ids are not
    reused). *)
Definition kill_ok (alive : Z → bool) (w : workers) : Prop := ∀ p, p ∈ used w → alive p = bool_decide (is_Some (procs w !! p)).

Inductive workers_step (w : workers) : workers → Prop :=
| wk_start p : p ∉ used w → 0 ≤ p < 2 ^ 63 → workers_step w (mkWorkers (wd w) (<[p := Outside]> (procs w)) ({[p]} ∪ used w))
| wk_mark p ph d : procs w !! p = Some Outside → is_phase ph → nparallel_mark ph p (wd w) = Ret d →
    workers_step w (mkWorkers d (<[p := Marked ph]> (procs w)) (used w))
| wk_count p ph alive ret : procs w !! p = Some (Marked ph) → kill_ok alive w → nparallel_count alive ph (wd w) = Ret ret →
    workers_step w (mkWorkers (wd w) (<[p := Counted ph ret]> (procs w)) (used w))
| wk_unmark p ph ret d : procs w !! p = Some (Counted ph ret) → nparallel_unmark ph p (wd w) = Ret d →
    workers_step w (mkWorkers d (<[p := Outside]> (procs w)) (used w))
| wk_end p : workers_step w (mkWorkers (wd w) (delete p (procs w)) (used w))
| wk_write f x d : no_marker f → dir_WriteFile f x (wd w) = Some d → workers_step w (mkWorkers d (procs w) (used w))
| wk_remove f d : no_marker f → f ∈ files (wd w) → dir_Remove f (wd w) = Some d → workers_step w (mkWorkers d (procs w) (used w)).

(** Other programs leave the markers alone. *)
Record workers_ok (w : workers) : Prop := {
  wo_healthy : healthy (wd w);
  wo_used : ∀ p s, procs w !! p = Some s → p ∈ used w;
  wo_pids : ∀ p, p ∈ used w → 0 ≤ p < 2 ^ 63;
  wo_phase : ∀ p s ph, procs w !! p = Some s → in_phase ph s → is_phase ph ∧ marker ph p ∈ files (wd w);
  wo_files : ∀ f, f ∈ files (wd w) → no_marker f ∨ ∃ p ph, is_phase ph ∧ p ∈ used w ∧ f = marker ph p ∧ (∀ s, procs w !! p = Some s → in_phase ph s)
}.

Lemma scan_marker ph ph' p : is_phase ph → is_phase ph' → 0 ≤ p < 2 ^ 63 →
  Sscanf_d ("mr-worker-" +:+ ph +:+ "-") (marker ph' p) = if decide (ph = ph') then Some p else None.
Proof.
  intros Hph Hph' Hp. unfold marker. destruct (decide (ph = ph')) as [->|Hne].
  - pose proof (Sscanf_d_pretty ("mr-worker-" +:+ ph' +:+ "-") p "" Hp I) as Hs. rewrite append_nil_r in Hs.
    destruct Hph' as [-> | ->]; exact Hs.
  - destruct Hph as [-> | ->], Hph' as [-> | ->]; try done; reflexivity.
Qed.

Lemma marker_not_other ph p : is_phase ph → 0 ≤ p < 2 ^ 63 → ¬ no_marker (marker ph p).
Proof. intros Hph Hp Hno. specialize (Hno ph Hph). by rewrite scan_marker, decide_True in Hno. Qed.

Lemma marker_inj ph ph' p p' : is_phase ph → is_phase ph' → 0 ≤ p < 2 ^ 63 → 0 ≤ p' < 2 ^ 63 → marker ph p = marker ph' p' → ph = ph' ∧ p = p'.
Proof.
  intros Hph Hph' Hp Hp' E. pose proof (scan_marker ph ph p Hph Hph Hp) as H1. rewrite E, scan_marker in H1 by done.
  repeat case_decide; try done. by injection H1 as <-.
Qed.

(** *** The count *)

Definition seen (alive : Z → bool) (ph f : string) : option Z :=
  q ← Sscanf_d ("mr-worker-" +:+ ph +:+ "-") f; if alive q then Some q else None.

Lemma count_alive_seen alive ph names : count_alive alive ph names = Z.of_nat (length (omap (seen alive ph) names)).
Proof.
  unfold count_alive. assert (Hg : ∀ a, foldl (λ ret name, match Sscanf_d ("mr-worker-" +:+ ph +:+ "-") name with Some xpid => if alive xpid then ret + 1 else ret | None => ret end)
    a names = a + Z.of_nat (length (omap (seen alive ph) names))); [|apply Hg].
  induction names as [|f names IH]; intros a; cbn [foldl omap list_omap length]; [lia|]. rewrite IH. unfold seen at 2.
  destruct (Sscanf_d _ f) as [q|]; simpl; [destruct (alive q); simpl|]; lia.
Qed.

Lemma seen_Some w alive ph f q : workers_ok w → kill_ok alive w → is_phase ph → f ∈ files (wd w) →
  seen alive ph f = Some q ↔ f = marker ph q ∧ ∃ s, procs w !! q = Some s ∧ in_phase ph s.
Proof.
  intros Hok Hk Hph Hf. unfold seen. split.
  - intros Hs. destruct (wo_files w Hok f Hf) as [Hno|(p & ph' & Hph' & Hu & -> & Hin)]; [by rewrite (Hno ph Hph) in Hs|].
    rewrite scan_marker in Hs by (done || by apply (wo_pids w Hok)). case_decide as E; [subst ph'|done]. simpl in Hs. rewrite (Hk p Hu) in Hs.
    case_bool_decide as Ha; [|done]. injection Hs as ->. destruct Ha as [s Hs]. split; [done|]. exists s. split; [done|]. by apply Hin.
  - intros (-> & s & Hs & Hin). pose proof (wo_used w Hok q s Hs) as Hu. rewrite scan_marker, decide_True by (done || by apply (wo_pids w Hok)). simpl.
    rewrite (Hk q Hu), bool_decide_true by by eexists. done.
Qed.

Lemma omap_NoDup {A B} (f : A → option B) (l : list A) : NoDup l → (∀ x y z, x ∈ l → y ∈ l → f x = Some z → f y = Some z → x = y) → NoDup (omap f l).
Proof.
  induction 1 as [|x l Hx Hnd IH]; intros Hinj; [constructor|]. cbn [omap list_omap].
  assert (IH' : NoDup (omap f l)) by (apply IH; intros a b z Ha Hb; apply Hinj; apply elem_of_cons; by right).
  destruct (f x) as [z|] eqn:E; [|done]. constructor; [|done]. intros (y & Hy & Ey)%list_elem_of_omap.
  apply Hx. rewrite (Hinj x y z); [done|apply elem_of_cons; by left|apply elem_of_cons; by right|done|done].
Qed.

Lemma count_exact w alive ph names : workers_ok w → kill_ok alive w → is_phase ph → names ≡ₚ elements (files (wd w)) →
  count_alive alive ph names = Z.of_nat (size (filter (λ kv, in_phase ph kv.2) (procs w))).
Proof.
  intros Hok Hk Hph Hn. rewrite count_alive_seen. f_equal. rewrite <-(size_dom (D := gset Z)). unfold size, set_size. cbn [compose]. apply Permutation_length.
  assert (Hin : ∀ f, f ∈ names ↔ f ∈ files (wd w)) by (intros f; by rewrite Hn, elem_of_elements).
  apply NoDup_Permutation.
  - apply omap_NoDup; [rewrite Hn; apply NoDup_elements|]. intros x y z Hx%Hin Hy%Hin Ex Ey.
    apply (seen_Some w alive ph x z Hok Hk Hph Hx) in Ex as [-> _]. by apply (seen_Some w alive ph y z Hok Hk Hph Hy) in Ey as [-> _].
  - apply NoDup_elements.
  - intros q. rewrite list_elem_of_omap, elem_of_elements, elem_of_dom. split.
    + intros (f & Hf%Hin & Hs). apply (seen_Some w alive ph f q Hok Hk Hph Hf) in Hs as (_ & s & Hs & Hi). exists s. by apply map_lookup_filter_Some.
    + intros [s [Hs Hi]%map_lookup_filter_Some]. destruct (wo_phase w Hok q s ph Hs Hi) as [_ Hf]. exists (marker ph q). split; [by apply Hin|].
      apply (seen_Some w); eauto.
Qed.
(** *** Every step keeps the markers right *)

Lemma mark_ok ph p d : healthy d → ∃ d', nparallel_mark ph p d = Ret d' ∧ healthy d' ∧ files d' = {[marker ph p]} ∪ files d.
Proof. intros Hd. destruct (write_law (marker ph p) "x" d Hd) as (d' & E & ?). exists d'. unfold nparallel_mark. by rewrite E. Qed.

Lemma unmark_ok ph p d : healthy d → marker ph p ∈ files d → ∃ d', nparallel_unmark ph p d = Ret d' ∧ healthy d' ∧ files d' = files d ∖ {[marker ph p]}.
Proof. intros Hd Hf. destruct (remove_law (marker ph p) d Hd Hf) as (d' & E & ?). exists d'. unfold nparallel_unmark. by rewrite E. Qed.

(** The markers of a live process are of the phase it is in. *)
Lemma own_marker w p s ph : workers_ok w → procs w !! p = Some s → is_phase ph → marker ph p ∈ files (wd w) → in_phase ph s.
Proof.
  intros Hok Hp Hph Hf. pose proof (wo_pids w Hok p (wo_used w Hok p s Hp)) as Hpid.
  destruct (wo_files w Hok _ Hf) as [Hno|(q & ph1 & Hi & Hu & E & Hin)]; [by apply marker_not_other in Hno|].
  apply marker_inj in E as [-> ->]; [by apply Hin|done|done|done|by apply (wo_pids w Hok)].
Qed.

(** A process changes its state; its marker is there exactly in a phase. *)
Lemma workers_ok_move w p s s' d : workers_ok w → procs w !! p = Some s → healthy d →
  (∀ f, f ∈ files d ↔ (∃ ph, in_phase ph s' ∧ f = marker ph p) ∨ (f ∈ files (wd w) ∧ ∀ ph, is_phase ph → f = marker ph p → in_phase ph s')) →
  (∀ ph, in_phase ph s' → is_phase ph) → workers_ok (mkWorkers d (<[p := s']> (procs w)) (used w)).
Proof.
  intros Hok Hp Hd Hf Hph. pose proof (wo_pids w Hok p (wo_used w Hok p s Hp)) as Hpid. split; simpl.
  - done.
  - intros q x. destruct (decide (q = p)) as [->|Hne]; [intros _; by eapply (wo_used w Hok)|]. rewrite lookup_insert_ne by done. apply (wo_used w Hok).
  - apply (wo_pids w Hok).
  - intros q x ph. destruct (decide (q = p)) as [->|Hne].
    + rewrite lookup_insert_eq. intros [= <-] Hin. split; [by apply Hph|]. apply Hf. left. by exists ph.
    + rewrite lookup_insert_ne by done. intros Hq Hin. destruct (wo_phase w Hok q x ph Hq Hin) as [Hi Hm]. split; [done|]. apply Hf. right. split; [done|].
      intros ph' Hph' E. apply marker_inj in E as [_ E]; [done|done|done|by eapply (wo_pids w Hok), (wo_used w Hok)|done].
  - intros f [(ph & Hin & ->)|[Hfw Hnew]]%Hf.
    + right. exists p, ph. split; [by apply Hph|]. split; [by eapply (wo_used w Hok)|]. split; [done|]. intros x. rewrite lookup_insert_eq. by intros [= <-].
    + destruct (wo_files w Hok f Hfw) as [?|(q & ph & Hi & Hu & -> & Hin)]; [by left|]. right. exists q, ph. split; [done|]. split; [done|]. split; [done|].
      intros x. destruct (decide (q = p)) as [->|Hne]; [rewrite lookup_insert_eq; intros [= <-]; by apply Hnew|]. rewrite lookup_insert_ne by done. apply Hin.
Qed.

(** Files that are no markers come and go. *)
Lemma workers_ok_files w d f : workers_ok w → no_marker f → healthy d → files d = {[f]} ∪ files (wd w) ∨ files d = files (wd w) ∖ {[f]} →
  workers_ok (mkWorkers d (procs w) (used w)).
Proof.
  intros Hok Hno Hd Hf. split; simpl; try apply Hok; [done| |].
  - intros p s ph Hp Hin. destruct (wo_phase w Hok p s ph Hp Hin) as [Hi Hm]. split; [done|]. assert (marker ph p ≠ f); [|set_solver].
    intros <-. revert Hno. apply marker_not_other; [done|]. by eapply (wo_pids w Hok), (wo_used w Hok).
  - intros g Hg. destruct (decide (g = f)) as [->|Hne]; [by left|]. apply (wo_files w Hok). set_solver.
Qed.

Lemma workers_step_ok w w' : workers_ok w → workers_step w w' → workers_ok w'.
Proof.
  intros Hok Hs. pose proof (wo_healthy w Hok) as Hh. destruct Hs as [p Hp Hr|p ph d Hp Hph Hm|p ph alive ret Hp Hk Hc|p ph ret d Hp Hm|p|f x d Hno Hw|f d Hno Hf Hr].
  - destruct Hok as [H1 H2 H3 H4 H5]. assert (Hn : procs w !! p = None) by (destruct (procs w !! p) eqn:E; [by apply H2 in E|done]). split; simpl.
    + done.
    + intros q s. destruct (decide (q = p)) as [->|Hne]; [set_solver|]. rewrite lookup_insert_ne by done. intros Hq%H2. set_solver.
    + intros q [->%elem_of_singleton|Hq]%elem_of_union; [lia|by apply H3].
    + intros q s ph. destruct (decide (q = p)) as [->|Hne]; [rewrite lookup_insert_eq; by intros [= <-]|]. rewrite lookup_insert_ne by done. apply H4.
    + intros f [?|(q & ph & Hi & Hu & -> & Hin)]%H5; [by left|]. right. exists q, ph. split; [done|]. split; [set_solver|]. split; [done|].
      intros s. assert (q ≠ p) by congruence. rewrite lookup_insert_ne by done. apply Hin.
  - destruct (mark_ok ph p (wd w) Hh) as (d' & E & Hd & Hf). rewrite Hm in E. injection E as <-. apply (workers_ok_move w p Outside); try done.
    + intros f. rewrite Hf, elem_of_union, elem_of_singleton. split; [|naive_solver]. intros [->|Hfw]; [left; by exists ph|right]. split; [done|].
      intros ph' Hph' ->. by pose proof (own_marker w p Outside ph' Hok Hp Hph' Hfw).
    + intros ph' ->. done.
  - apply (workers_ok_move w p (Marked ph)); try done.
    + intros f. simpl. destruct (wo_phase w Hok p (Marked ph) ph Hp eq_refl) as [Hi Hm]. split; [|naive_solver]. intros Hfw.
      destruct (decide (f = marker ph p)) as [->|Hne]; [left; by exists ph|]. right. split; [done|]. intros ph' Hph' ->.
      exact (own_marker w p (Marked ph) ph' Hok Hp Hph' Hfw).
    + intros ph' <-. by eapply (wo_phase w Hok).
  - destruct (wo_phase w Hok p (Counted ph ret) ph Hp eq_refl) as [Hi Hmk]. destruct (unmark_ok ph p (wd w) Hh Hmk) as (d' & E & Hd & Hf).
    rewrite Hm in E. injection E as <-. apply (workers_ok_move w p (Counted ph ret)); try done.
    intros f. rewrite Hf, elem_of_difference, elem_of_singleton. split; [|naive_solver]. intros [Hfw Hne]. right. split; [done|]. intros ph' Hph' ->.
    apply Hne. pose proof (own_marker w p (Counted ph ret) ph' Hok Hp Hph' Hfw) as Hc. simpl in Hc. by subst.
  - destruct Hok as [H1 H2 H3 H4 H5]. split; simpl; try done.
    + intros q s [_ Hq]%lookup_delete_Some. by eapply H2.
    + intros q s ph [_ Hq]%lookup_delete_Some. by apply H4.
    + intros f [?|(q & ph & Hi & Hu & -> & Hin)]%H5; [by left|]. right. exists q, ph. split; [done|]. split; [done|]. split; [done|].
      intros s [_ Hq]%lookup_delete_Some. by apply Hin.
  - destruct (write_law f x (wd w) Hh) as (d' & E & Hd & Hf). rewrite Hw in E. injection E as <-. by apply (workers_ok_files w d f); auto.
  - destruct (remove_law f (wd w) Hh Hf) as (d' & E & Hd & Hf'). rewrite Hr in E. injection E as <-. by apply (workers_ok_files w d f); auto.
Qed.
(** C30 (parallelism is counted exactly).  Worker processes start, end and call
    [nparallel] in any interleaving, in a working directory that starts without
    markers and to which other programs add and remove other files.  No call panics;
    and when a process scans a directory of at most a million names, it counts
    exactly the live processes that are in the same phase at that moment, itself
    included. *)
Theorem nparallel_exact (d0 : D) (w : workers) (p : Z) :
  healthy d0 → (∀ f, f ∈ files d0 → no_marker f) → rtc workers_step (mkWorkers d0 ∅ ∅) w →
  (∀ ph, procs w !! p = Some Outside → ∃ d, nparallel_mark ph p (wd w) = Ret d) ∧
  (∀ ph alive, procs w !! p = Some (Marked ph) → kill_ok alive w → Z.of_nat (size (files (wd w))) ≤ 1000000 →
     nparallel_count alive ph (wd w) = Ret (Z.of_nat (size (filter (λ kv, in_phase ph kv.2) (procs w)))) ∧
     (0 < size (filter (λ kv, in_phase ph kv.2) (procs w)))%nat) ∧
  (∀ ph ret, procs w !! p = Some (Counted ph ret) → ∃ d, nparallel_unmark ph p (wd w) = Ret d).
Proof.
  intros Hd Hno Hr. assert (Hok : workers_ok w).
  { assert (Hi : workers_ok (mkWorkers d0 ∅ ∅)) by (split; simpl; set_solver). revert Hi.
    induction Hr as [|w1 w2 w3 Hs _ IH]; [done|]. intros H1. apply IH. by eapply workers_step_ok. }
  pose proof (wo_healthy w Hok) as Hh. split; [|split].
  - intros ph _. destruct (mark_ok ph p (wd w) Hh) as (d & E & _). by exists d.
  - intros ph alive Hp Hk Hsize. destruct (wo_phase w Hok p _ ph Hp eq_refl) as [Hph Hm].
    destruct (names_law 1000000 (wd w) Hh) as (l & E & Hl); [set_solver|lia|]. unfold nparallel_count. rewrite E. cbn [panic_on_error mbind outcome_bind].
    split; [by rewrite (count_exact w alive ph l)|]. apply Nat.neq_0_lt_0. intros E0%map_size_empty_iff.
    assert (Hx : filter (λ kv, in_phase ph kv.2) (procs w) !! p = Some (Marked ph)) by by apply map_lookup_filter_Some. by rewrite E0 in Hx.
  - intros ph ret Hp. destruct (wo_phase w Hok p _ ph Hp eq_refl) as [_ Hm]. destruct (unmark_ok ph p (wd w) Hh Hm) as (d & E & _). by exists d.
Qed.
End Workers.

(** Process 7 and 8 are in the map phase, 9 ended there and left its marker. *)
Definition three_workers : workers (D := gset string) :=
  mkWorkers {[marker "map" 7; marker "map" 8; marker "map" 9; "mr-0-1"]} {[7 := Marked "map"; 8 := Counted "map" 1]} {[7; 8; 9]}.

Lemma three_workers_reachable : rtc workers_step (mkWorkers {["mr-0-1"]} ∅ ∅) three_workers.
Proof.
  eapply rtc_l; [apply (wk_start _ 8); [set_solver|lia]|]. eapply rtc_l; [apply (wk_mark _ 8 "map"); [reflexivity|by left|reflexivity]|].
  eapply rtc_l; [apply (wk_count _ 8 "map" (λ p, p =? 8)); [reflexivity|intros p Hp; simpl in Hp; assert (p = 8) as -> by set_solver; reflexivity|vm_compute; reflexivity]|].
  eapply rtc_l; [apply (wk_start _ 9); [set_solver|lia]|]. eapply rtc_l; [apply (wk_mark _ 9 "map"); [reflexivity|by left|reflexivity]|].
  eapply rtc_l; [apply (wk_end _ 9)|].
  eapply rtc_l; [apply (wk_start _ 7); [set_solver|lia]|]. eapply rtc_l; [apply (wk_mark _ 7 "map"); [reflexivity|by left|reflexivity]|].
  match goal with |- rtc _ ?w _ => assert (w = three_workers) as -> by (vm_compute; reflexivity) end. constructor.
Qed.

Lemma nparallel_exact_witness :
  nparallel_count (λ p, (p =? 7) || (p =? 8)) "map" (wd three_workers) = Ret 2 ∧ ∃ d, nparallel_unmark "map" 8 (wd three_workers) = Ret d.
Proof.
  assert (Hno : ∀ f, f ∈ files (H := name_set) {["mr-0-1"]} → no_marker f) by (intros f Hf; simpl in Hf; apply elem_of_singleton in Hf as ->; intros ph [-> | ->]; reflexivity).
  destruct (nparallel_exact (D := gset string) (H0 := name_set_laws) {["mr-0-1"]} three_workers 7 I Hno three_workers_reachable) as (_ & Hc & _).
  destruct (nparallel_exact (D := gset string) (H0 := name_set_laws) {["mr-0-1"]} three_workers 8 I Hno three_workers_reachable) as (_ & _ & Hu). split.
  - destruct (Hc "map" (λ p, (p =? 7) || (p =? 8))) as [E _]; [reflexivity| |vm_compute; discriminate|].
    + intros p Hp. cbn [used three_workers] in Hp. rewrite !elem_of_union, !elem_of_singleton in Hp. destruct Hp as [[-> | ->] | ->]; reflexivity.
    + rewrite E. vm_compute. reflexivity.
  - apply (Hu "map" 1). reflexivity.
Defined.

(** ** Processes that count jobs *)

Section JobCount.
Import jobcount.
Context {D : Type} `{WorkDirLaws D}.

(** [counts]: the variable of every process that ran so far; [calls]: how often Map
    was called in all. *)
Record counters := mkCounters { jd : D; counts : gmap Z Z; calls : Z }.

Inductive jobs_step (w : counters) : counters → Prop :=
| js_start p : counts w !! p = None → 0 ≤ p < 2 ^ 63 → jobs_step w (mkCounters (jd w) (<[p := 0]> (counts w)) (calls w))
| js_map p filename contents k kva k' d : counts w !! p = Some k → Map p filename contents k (jd w) = Ret (kva, k', d) →
    jobs_step w (mkCounters d (<[p := k']> (counts w)) (calls w + 1))
| js_write f x d : is_job_file f = false → dir_WriteFile f x (jd w) = Some d → jobs_step w (mkCounters d (counts w) (calls w))
| js_remove f d : is_job_file f = false → f ∈ files (jd w) → dir_Remove f (jd w) = Some d → jobs_step w (mkCounters d (counts w) (calls w)).

Definition job_files (d : D) : gset string := filter (λ f, is_job_file f = true) (files d).

Record counters_ok (w : counters) : Prop := {
  jo_healthy : healthy (jd w);
  jo_pids : ∀ p k, counts w !! p = Some k → 0 ≤ p < 2 ^ 63 ∧ 0 ≤ k;
  jo_files : ∀ f, f ∈ job_files (jd w) → ∃ p k i, counts w !! p = Some k ∧ 0 ≤ i < k ∧ f = job_file p i;
  jo_size : Z.of_nat (size (job_files (jd w))) = calls w
}.

Lemma job_file_is p k : is_job_file (job_file p k) = true.
Proof. reflexivity. Qed.

Lemma job_file_inj p p' k k' : 0 ≤ p < 2 ^ 63 → 0 ≤ p' < 2 ^ 63 → job_file p k = job_file p' k' → p = p' ∧ k = k'.
Proof.
  intros Hp Hp' E. pose proof (λ p k Hp, Sscanf_d_pretty "mr-worker-jobcount-" p ("-" +:+ pretty (k : Z)) Hp eq_refl) as Hs.
  pose proof (Hs p k Hp) as H1. unfold job_file in E. rewrite E, Hs in H1 by done. injection H1 as ->. split; [done|].
  do 3 apply (inj (String.append _)) in E. by apply (inj pretty) in E.
Qed.

Lemma jobs_step_ok w w' : counters_ok w → jobs_step w w' → counters_ok w'.
Proof.
  intros [H1 H2 H3 H4] Hs. destruct Hs as [p Hp Hr|p fn ct k kva k' d Hp Hm|f x d Hf Hw|f d Hf Hin Hr].
  - split; simpl; try done.
    + intros q k. destruct (decide (q = p)) as [->|Hne]; [rewrite lookup_insert_eq; intros [= <-]; lia|]. rewrite lookup_insert_ne by done. apply H2.
    + intros f (q & k & i & Hq & Hi & ->)%H3. exists q, k, i. assert (q ≠ p) by congruence. by rewrite lookup_insert_ne.
  - unfold Map in Hm. destruct (write_law (job_file p k) "x" (jd w) H1) as (d' & E & Hd & Hfs). rewrite E in Hm. cbn in Hm. injection Hm as <- <- <-.
    destruct (H2 p k Hp) as [Hpid Hk].
    assert (Hj : job_files d' = {[job_file p k]} ∪ job_files (jd w)).
    { unfold job_files. apply set_eq. intros f. rewrite Hfs, elem_of_union, !elem_of_filter, elem_of_union, !elem_of_singleton. naive_solver. }
    assert (Hnew : job_file p k ∉ job_files (jd w)).
    { intros (q & kq & i & Hq & Hi & Eq)%H3. apply job_file_inj in Eq as [<- <-]; [|done|by apply (H2 q kq)]. assert (kq = k) as -> by congruence. lia. }
    split; simpl.
    + done.
    + intros q kq. destruct (decide (q = p)) as [->|Hne]; [rewrite lookup_insert_eq; intros [= <-]; lia|]. rewrite lookup_insert_ne by done. apply H2.
    + intros f. rewrite Hj, elem_of_union, elem_of_singleton. intros [->|(q & kq & i & Hq & Hi & ->)%H3].
      * exists p, (k + 1), k. rewrite lookup_insert_eq. split; [done|]. split; [lia|done].
      * destruct (decide (q = p)) as [->|Hne]; [|exists q, kq, i; by rewrite lookup_insert_ne].
        exists p, (k + 1), i. rewrite lookup_insert_eq. assert (kq = k) as -> by congruence. split; [done|]. split; [lia|done].
    + rewrite Hj, size_union, size_singleton by set_solver. lia.
  - destruct (write_law f x (jd w) H1) as (d' & E & Hd & Hfs). rewrite Hw in E. injection E as <-.
    assert (Hj : job_files d = job_files (jd w)).
    { unfold job_files. apply set_eq. intros g. rewrite Hfs, !elem_of_filter, elem_of_union, elem_of_singleton. split; [|naive_solver]. intros [Hg [->|?]]; [congruence|done]. }
    split; simpl; rewrite ?Hj; done.
  - destruct (remove_law f (jd w) H1 Hin) as (d' & E & Hd & Hfs). rewrite Hr in E. injection E as <-.
    assert (Hj : job_files d = job_files (jd w)).
    { unfold job_files. apply set_eq. intros g. rewrite Hfs, !elem_of_filter, elem_of_difference, elem_of_singleton. split; [naive_solver|]. intros [Hg ?]. split; [done|].
      split; [done|]. intros ->. congruence. }
    split; simpl; rewrite ?Hj; done.
Qed.

Lemma count_prefix_filter (l : list string) a :
  foldl (λ invocations f, if is_job_file f then invocations + 1 else invocations) a l = a + Z.of_nat (length (filter (λ f, is_job_file f = true) l)).
Proof.
  revert a. induction l as [|f l IH]; intros a; cbn [foldl]; [simpl; lia|]. rewrite IH, filter_cons. destruct (is_job_file f); [rewrite decide_True by done|rewrite decide_False by done]; simpl; lia.
Qed.

(** C31 (jobs are counted exactly).  Worker processes start and call Map of [jobcount]
    in any interleaving, in a working directory that starts without job files and to
    which other programs add and remove other files: Map never panics, and Reduce
    prints the number of times Map was called by all processes. *)
Theorem jobcount_exact (d0 : D) (w : counters) :
  healthy d0 → (∀ f, f ∈ files d0 → is_job_file f = false) → rtc jobs_step (mkCounters d0 ∅ 0) w →
  (∀ p k filename contents, counts w !! p = Some k → ∃ d, Map p filename contents k (jd w) = Ret ([mkKeyValue "a" "x"], k + 1, d)) ∧
  ∀ key values, Reduce key values (jd w) = Ret (pretty (calls w)).
Proof.
  intros Hd Hno Hr. assert (Hok : counters_ok w).
  { assert (Hi : counters_ok (mkCounters d0 ∅ 0)).
    { assert (Hj : job_files d0 = ∅) by (unfold job_files; apply set_eq; intros f; rewrite elem_of_filter; split; [intros [Hf Hin]; by rewrite (Hno f Hin) in Hf|set_solver]).
      split; simpl; rewrite ?Hj; [done| | |by rewrite size_empty]; set_solver. }
    revert Hi. induction Hr as [|w1 w2 w3 Hs _ IH]; [done|]. intros H1. apply IH. by eapply jobs_step_ok. }
  destruct Hok as [H1 H2 H3 H4]. split.
  - intros p k fn ct _. unfold Map. destruct (write_law (job_file p k) "x" (jd w) H1) as (d & -> & _). by exists d.
  - intros key values. unfold Reduce. destruct (readdir_law (jd w) H1) as (l & -> & Hl). cbn [panic_on_error mbind outcome_bind].
    rewrite count_prefix_filter. do 2 f_equal. rewrite <-H4, Z.add_0_l. f_equal. unfold size, set_size, job_files. cbn [compose]. apply Permutation_length.
    rewrite Hl. apply NoDup_Permutation; [apply NoDup_filter, NoDup_elements|apply NoDup_elements|].
    intros f. by rewrite list_elem_of_filter, !elem_of_elements, elem_of_filter.
Qed.
End JobCount.

(** Process 11 called Map once, process 1 twice. *)
Definition three_jobs : counters (D := gset string) :=
  mkCounters {[jobcount.job_file 11 0; jobcount.job_file 1 0; jobcount.job_file 1 1; "mr-0-1"]} {[11 := 1; 1 := 2]} 3.

Lemma three_jobs_reachable : rtc jobs_step (mkCounters {["mr-0-1"]} ∅ 0) three_jobs.
Proof.
  eapply rtc_l; [apply (js_start _ 11); [reflexivity|lia]|]. eapply rtc_l; [apply (js_start _ 1); [reflexivity|lia]|].
  eapply rtc_l; [eapply (js_map _ 1 "in" ""); reflexivity|]. eapply rtc_l; [eapply (js_map _ 11 "in" ""); reflexivity|].
  eapply rtc_l; [eapply (js_map _ 1 "in" ""); reflexivity|].
  match goal with |- rtc _ ?w _ => assert (w = three_jobs) as -> by (vm_compute; reflexivity) end. constructor.
Qed.

Lemma jobcount_exact_witness : jobcount.Reduce "a" ["x"; "x"; "x"] (jd three_jobs) = Ret "3".
Proof.
  destruct (jobcount_exact (D := gset string) (H0 := name_set_laws) {["mr-0-1"]} three_jobs I) as [_ Hr]; [|exact three_jobs_reachable|apply Hr].
  intros f Hf. simpl in Hf. apply elem_of_singleton in Hf as ->. reflexivity.
Defined.
