(* ===== verification/MRPrograms.v ===== *)
(** * Lab2_MapReduce, main: the programs

    [main/mrsequential.go], [main/mrcoordinator.go] and [main/mrworker.go]: arguments,
    loading the application from a plugin, and the code around the coordinator and the
    worker.  Loading a plugin is an interface.  The theorems: what the sequential
    program writes and when it fails, and that the coordinator's program ends only
    when every output is on disk. *)

From S2P Require Import Prelude GoFiles GoProg MRCoordinator MRProtocol MRCorrect MRData MRWorker.
From stdpp Require Import pretty.
From Stdlib Require Import Ascii.
Open Scope string_scope.
Open Scope Z_scope.

(** ** Plugins *)

Notation mapF := (string → string → list KeyValue).
Notation reduceF := (string → list string → string).

(** What a symbol of a plugin is, for the two type assertions. *)
Inductive symbol := SymMap (f : mapF) | SymReduce (f : reduceF) | SymOther.

(** [plugin.Open] and [Lookup]. *)
Class Plugins := { plugin_Open : string → option (string → option symbol) }.

Definition loadPlugin `{Plugins} (filename : string) : outcome (mapF * reduceF) :=
  match plugin_Open filename with
  | None => Exit
  | Some p =>
      match p "Map" with
      | None => Exit
      | Some (SymMap mapf) =>
          match p "Reduce" with None => Exit | Some (SymReduce reducef) => Ret (mapf, reducef) | Some _ => Panic end
      | Some _ => Panic
      end
  end.

(** ** mrsequential *)

Module mrsequential.
Section Main.
Context {FS : Type} `{FileSystem FS} `{GoSort} `{Plugins}.

Definition oname : string := "mr-out-0".

(** Reads the input files in order and passes each to Map. *)
Definition read_inputs (mapf : mapF) (filenames : list string) (fs : FS) : outcome (list KeyValue) :=
  for_each filenames (λ filename intermediate,
    if os_Open filename fs then
      match io_ReadAll filename fs with
      | None => Exit
      | Some content => Ret (intermediate ++ mapf filename content)%list
      end
    else Exit) [].

(** The result of [os.Create] and of the writes is not looked at: without a file
    nothing is written. *)
Definition main (args : list string) (fs : FS) : outcome FS :=
  if go_len args <? 3 then Exit
  else
    path ← slice_get args 1;
    '(mapf, reducef) ← loadPlugin path;
    intermediate ← read_inputs mapf (drop 2 args) fs;
    lines ← sequential_lines reducef intermediate;
    match os_Create oname fs with
    | Some fs => Ret (print_chunks oname lines fs)
    | None => Ret fs
    end.
End Main.
End mrsequential.

(** ** mrcoordinator *)

Module mrcoordinator.
Section Main.
Context {FS : Type} `{FileSystem FS}.

Fixpoint apply_events (es : list event) (s : Coordinator * FS) : outcome (Coordinator * FS) :=
  match es with [] => Ret s | e :: es' => s ← apply_event e s; apply_events es' s end.

(** The loop that asks [Done] once a second: what happens to the coordinator during
    each sleep is given; [None] when it is still waiting after them. *)
Fixpoint wait_done (sleeps : list (list event)) (s : Coordinator * FS) : outcome (option (Coordinator * FS)) :=
  if Done s.1 then Ret (Some s)
  else match sleeps with [] => Ret None | es :: sleeps' => s ← apply_events es s; wait_done sleeps' s end.

Definition main (args : list string) (sleeps : list (list event)) (last : list event) (fs : FS) : outcome (option (Coordinator * FS)) :=
  if go_len args <? 2 then Exit
  else
    s ← MakeCoordinator (drop 1 args) 10 fs;
    o ← wait_done sleeps s;
    match o with None => Ret None | Some s => s ← apply_events last s; Ret (Some s) end.
End Main.
End mrcoordinator.

(** ** mrworker *)

Module mrworker.
Section Main.
Context {FS : Type} `{FileSystem FS} `{Glob FS} `{Json} `{GoSort} `{Plugins}.

(** [mr.Worker]: the port is what follows the first colon of the worker's address. *)
Definition Worker (fuel : nat) (mapf : mapF) (reducef : reduceF) (serverAddress workerAddress : string) :
    outcome (WorkerProcess * prog (WorkerM FS) MRReq MRRep MRTask bool) :=
  _ ← slice_get (Split ":"%char workerAddress) 1;
  Ret (mkWorkerProcess false workerAddress (-1) [] [] serverAddress, pbind Worker_start (λ _, Worker_loop fuel mapf reducef)).

Definition main (fuel : nat) (args : list string) :=
  if negb (go_len args =? 4) then Exit
  else
    path ← slice_get args 1;
    '(mapf, reducef) ← loadPlugin path;
    a2 ← slice_get args 2;
    a3 ← slice_get args 3;
    Worker fuel mapf reducef a2 a3.
End Main.
End mrworker.

(** ** Theorems *)

Section Sequential.
Context {FS : Type} `{FileSystemLaws FS} `{GoSort} `{Plugins}.
Import mrsequential.

(** What a list of readable files gives. *)
Definition mapped (mapf : mapF) (fs : FS) (filename : string) : list KeyValue := mapf filename (default "" (io_ReadAll filename fs)).
Definition readable (fs : FS) (filename : string) : Prop := os_Open filename fs = true ∧ is_Some (io_ReadAll filename fs).

Lemma read_inputs_ok mapf filenames (fs : FS) : Forall (readable fs) filenames → read_inputs mapf filenames fs = Ret (concat (mapped mapf fs <$> filenames)).
Proof.
  intros Hf. unfold read_inputs. rewrite <-(app_nil_l (concat _)). generalize (@nil KeyValue) as acc.
  induction Hf as [|f fnames [Ho [x Hx]] _ IH]; intros acc; cbn [for_each]; [by rewrite app_nil_r|]. rewrite Ho, Hx. cbn [mbind outcome_bind].
  rewrite IH, fmap_cons. cbn [concat]. unfold mapped at 2. rewrite Hx. by rewrite app_assoc.
Qed.

Lemma read_inputs_fails mapf filenames (fs : FS) : ¬ Forall (readable fs) filenames → read_inputs mapf filenames fs = Exit.
Proof.
  intros Hf. unfold read_inputs. generalize (@nil KeyValue) as acc. induction filenames as [|f fnames IH]; intros acc; [by destruct Hf|]. cbn [for_each].
  destruct (os_Open f fs) eqn:Ho; [|done]. destruct (io_ReadAll f fs) as [x|] eqn:Hx; [|done]. cbn [mbind outcome_bind]. apply IH.
  intros Hall. apply Hf. constructor; [by split; [|exists x]|done].
Qed.

(** Writing lines through a handle whose writes succeed. *)
Lemma print_chunks_only path lines (fs : FS) c0 : (∀ x fs', os_Open path fs' = true → (file_Write path x fs').2 = true) →
  os_Open path fs = true → io_ReadAll path fs = Some c0 →
  io_ReadAll path (print_chunks path lines fs) = Some (foldl String.append c0 lines) ∧
  ∀ q, q ≠ path → io_ReadAll q (print_chunks path lines fs) = io_ReadAll q fs.
Proof.
  intros Hw. revert fs c0. induction lines as [|l lines IH]; intros fs c0 Ho Hr; cbn [print_chunks foldl]; [done|].
  destruct (file_Write path l fs) as [fs1 ok] eqn:E. pose proof (Hw l fs Ho) as Hok. rewrite E in Hok. simpl in Hok. subst ok.
  destruct (write_append path l fs c0 fs1 Ho Hr E) as [Ho1 Hr1]. destruct (IH fs1 (c0 +:+ l) Ho1 Hr1) as [IH1 IH2]. split; [done|].
  intros q Hq. simpl. rewrite IH2 by done. destruct (write_other path q l fs) as [_ Hx]; [done|]. by rewrite E in Hx.
Qed.

(** The groups of a sorted list are in the order of their keys. *)
Lemma group_keys_sorted l : StronglySorted key_le l → StronglySorted String.le (group l).*1.
Proof.
  induction 1 as [|kv l Hs IH Hle]; [constructor|]. destruct (group_keys_NoDup_spec (λ _ _, "") l Hs) as (_ & Hk & _). cbn [group].
  assert (Hall : Forall (String.le (Key kv)) (group l).*1).
  { apply Forall_forall. intros k Hin%Hk. apply list_elem_of_fmap in Hin as (kv' & -> & Hin). by eapply (proj1 (Forall_forall _ _)) in Hle. }
  destruct (group l) as [|[k vs] g]; [repeat constructor|]. case_decide as E; [exact IH|]. by constructor.
Qed.

Lemma sequential_lines_sorted reducef kva : ∃ keys,
  sequential_lines reducef kva = Ret ((λ k, out_line k (reducef k (values_of k (sort_ByKey kva)))) <$> keys) ∧
  StronglySorted String.le keys ∧ NoDup keys ∧ ∀ k, k ∈ keys ↔ k ∈ Key <$> kva.
Proof.
  assert (Hs : StronglySorted key_le (sort_ByKey kva)) by (apply Sorted_StronglySorted; [apply _|apply sort_sorted]).
  destruct (group_keys_NoDup_spec reducef _ Hs) as (Hn & Hk & Hv). exists (group (sort_ByKey kva)).*1. split; [|split; [by apply group_keys_sorted|split; [done|]]].
  - unfold sequential_lines. change 0 with (Z.of_nat 0). rewrite sequential_loop_group by (rewrite drop_0, (Permutation_length (sort_perm kva)); lia).
    rewrite drop_0, <-list_fmap_compose. f_equal. apply list_fmap_ext. intros j [k vs] Hj. simpl. unfold group_line. simpl.
    by rewrite <-(Hv k vs) by (by eapply list_elem_of_lookup_2).
  - intros k. by rewrite Hk, sort_perm.
Qed.

End Sequential.

Section Coordinator.
Context {FS : Type} `{FileSystemLaws FS}.
Import mrcoordinator.

(** The events of a list each fit where they happen. *)
Fixpoint events_ok (es : list event) (s : Coordinator * FS) : Prop :=
  match es with [] => True | e :: es' => event_ok s.1 e ∧ ∀ s', apply_event e s = Ret s' → events_ok es' s' end.

Lemma apply_events_history input n (fs0 : FS) es0 es c fs c' fs' : history event_ok input n fs0 es0 c fs → events_ok es (c, fs) →
  apply_events es (c, fs) = Ret (c', fs') → history event_ok input n fs0 (es0 ++ es)%list c' fs'.
Proof.
  revert es0 c fs. induction es as [|e es IH]; intros es0 c fs Hh Hok; cbn [apply_events].
  - intros [= <- <-]. by rewrite app_nil_r.
  - intros ([c1 fs1] & H1 & H2)%bind_Ret_inv. destruct Hok as [He Hok]. rewrite cons_middle, app_assoc.
    apply (IH (es0 ++ [e])%list c1 fs1); [by eapply hist_event|by apply Hok|done].
Qed.

Fixpoint sleeps_ok (sleeps : list (list event)) (s : Coordinator * FS) : Prop :=
  match sleeps with [] => True | es :: sleeps' => events_ok es s ∧ ∀ s', apply_events es s = Ret s' → sleeps_ok sleeps' s' end.

Lemma wait_done_history input n (fs0 : FS) es0 sleeps c fs c' fs' : history event_ok input n fs0 es0 c fs → sleeps_ok sleeps (c, fs) →
  wait_done sleeps (c, fs) = Ret (Some (c', fs')) → Done c' = true ∧ ∃ es, history event_ok input n fs0 es c' fs'.
Proof.
  revert es0 c fs. induction sleeps as [|es sleeps IH]; intros es0 c fs Hh Hok; cbn [wait_done fst]; destruct (Done c) eqn:Hd.
  - intros [= <- <-]. split; [done|]. by exists es0.
  - done.
  - intros [= <- <-]. split; [done|]. by exists es0.
  - intros ([c1 fs1] & H1 & H2)%bind_Ret_inv. destruct Hok as [He Hok].
    apply (IH (es0 ++ es)%list c1 fs1); [by apply (apply_events_history input n fs0 es0 es c fs)|by apply Hok|done].
Qed.

(** Once done, the coordinator stays done. *)
Lemma apply_event_done e c (fs : FS) c' fs' : apply_event e (c, fs) = Ret (c', fs') → IsDone c = true → IsDone c' = true.
Proof.
  intros Hap Hd. destruct e as [q order|f|q|q|]; cbn [apply_event] in Hap; go_inv; try done.
  - unfold GetWork in *. rewrite Hd in *. by go_inv.
  - unfold WorkerDead, clearAllWork, clearMapDeadWorker in *. by go_inv.
  - unfold WorkDone in Hap. destruct (wc_WorkType q); by go_inv.
  - unfold serverHandler_tick, updateMapper, updateReducer in *. destruct (_ && _), (negb _); go_inv; done.
Qed.

Lemma apply_events_done es c (fs : FS) c' fs' : apply_events es (c, fs) = Ret (c', fs') → IsDone c = true → IsDone c' = true.
Proof.
  revert c fs. induction es as [|e es IH]; intros c fs; cbn [apply_events]; [by intros [= <- <-]|]. intros ([c1 fs1] & H1 & H2)%bind_Ret_inv Hd.
  apply (IH c1 fs1); [done|]. by eapply apply_event_done.
Qed.

(** The coordinator's program.  When mrcoordinator ends - it polls Done once a
    second, while workers call and crash and time out in between, and sleeps once
    more - each of its ten outputs was reported and is on disk, as reported last. *)
Theorem mrcoordinator_main (writable : FS → Prop) (prg : string) (inputs : list string) (sleeps : list (list event)) (last : list event)
    (fs0 : FS) (c : Coordinator) (fs : FS) (j : Z) :
  inputs ≠ [] → outputs_writable 10 writable → (∀ c fs, MakeCoordinator inputs 10 fs0 = Ret (c, fs) → writable fs) →
  (∀ s, MakeCoordinator inputs 10 fs0 = Ret s → sleeps_ok sleeps s) →
  (∀ s, (s0 ← MakeCoordinator inputs 10 fs0; wait_done sleeps s0) = Ret (Some s) → events_ok last s) →
  main (prg :: inputs) sleeps last fs0 = Ret (Some (c, fs)) → 0 ≤ j < 10 →
  ∃ es content, history event_ok inputs 10 fs0 es c fs ∧ last_output j es = Some content ∧ io_ReadAll (outputPath j) fs = Some content.
Proof.
  intros Hne Hw Hstart Hsl Hlast Hm Hj. unfold main in Hm.
  assert (Hlen : go_len (prg :: inputs) <? 2 = false) by (apply Z.ltb_ge; unfold go_len; destruct inputs; [done|]; simpl; lia). rewrite Hlen in Hm.
  change (drop 1 (prg :: inputs)) with inputs in Hm. apply bind_Ret_inv in Hm as ([c0 fs1] & Hmk & Hm). apply bind_Ret_inv in Hm as (o & Hwt & Hm).
  destruct o as [[c1 fs2]|]; [|done]. apply bind_Ret_inv in Hm as ([c2 fs3] & Hla & [= -> ->]).
  destruct (wait_done_history inputs 10 fs0 [] sleeps c0 fs1 c1 fs2) as [Hd (es & Hh)]; [by constructor|by apply Hsl|done|].
  assert (Hh2 : history event_ok inputs 10 fs0 (es ++ last)%list c fs).
  { apply (apply_events_history inputs 10 fs0 es last c1 fs2); [done| |done]. apply Hlast. by rewrite Hmk. }
  destruct (history_delivered writable inputs 10 fs0 (es ++ last)%list c fs j) as (content & Hl & Hr); [lia|done|done|done| |done|by exists (es ++ last)%list, content].
  by apply (apply_events_done last c1 fs2 c fs).
Qed.
End Coordinator.

(** ** Two input files *)

Definition demo_plugin : Plugins := {| plugin_Open := λ p,
  if decide (p = "wc.so") then Some (λ x, if decide (x = "Map") then Some (SymMap (λ f c, [mkKeyValue c "1"; mkKeyValue "file" f])) else
                                         if decide (x = "Reduce") then Some (SymReduce wc.Reduce) else None) else None |}.
Definition demo_inputs : MemFS := mkMemFS {["in-1" := "b"; "in-2" := "a"]} ∅.

