(* ===== verification/Raft.v ===== *)
(** * Lab2_MapReduce, raft: one peer

    The election part of Raft in [raft/raft.go], and [raft/persister.go].  Every
    handler and every section under [rf.mu] is a function on the peer's state.
    The log, the persistence of terms and the state machine are not implemented
    in the source beyond what is here. *)

From S2P Require Import Prelude.
Open Scope Z_scope.

(** [Term], [ServerId] and indexes are [int]s, [Z] here. *)

Inductive ServerState := FOLLOWER | CANDIDATE | LEADER.

#[global] Instance ServerState_eq_dec : EqDecision ServerState.
Proof. solve_decision. Defined.

Record LogEntry := mkLogEntry { Command : Z; LogTerm : Z; LogIndex : Z }.

Record Raft := mkRaft {
  peers : nat;                   (* len(rf.peers) *)
  me : Z;
  dead : bool;
  hasReceivedHeartbeat : bool;
  serverState : ServerState;
  currentTerm : Z;
  numPeers : Z;
  receivedVotes : Z;
  votedFor : Z;
  log : list LogEntry;
  commitIndex : Z;
  lastApplied : Z;
  nextIndex : list Z;
  matchIndex : list Z
}.

Definition set_dead (b : bool) (rf : Raft) : Raft :=
  mkRaft (peers rf) (me rf) b (hasReceivedHeartbeat rf) (serverState rf) (currentTerm rf) (numPeers rf) (receivedVotes rf) (votedFor rf) (log rf) (commitIndex rf) (lastApplied rf) (nextIndex rf) (matchIndex rf).
Definition set_heartbeat (b : bool) (rf : Raft) : Raft :=
  mkRaft (peers rf) (me rf) (dead rf) b (serverState rf) (currentTerm rf) (numPeers rf) (receivedVotes rf) (votedFor rf) (log rf) (commitIndex rf) (lastApplied rf) (nextIndex rf) (matchIndex rf).
Definition set_state (s : ServerState) (rf : Raft) : Raft :=
  mkRaft (peers rf) (me rf) (dead rf) (hasReceivedHeartbeat rf) s (currentTerm rf) (numPeers rf) (receivedVotes rf) (votedFor rf) (log rf) (commitIndex rf) (lastApplied rf) (nextIndex rf) (matchIndex rf).
Definition set_term (t : Z) (rf : Raft) : Raft :=
  mkRaft (peers rf) (me rf) (dead rf) (hasReceivedHeartbeat rf) (serverState rf) t (numPeers rf) (receivedVotes rf) (votedFor rf) (log rf) (commitIndex rf) (lastApplied rf) (nextIndex rf) (matchIndex rf).
Definition set_votes (v : Z) (rf : Raft) : Raft :=
  mkRaft (peers rf) (me rf) (dead rf) (hasReceivedHeartbeat rf) (serverState rf) (currentTerm rf) (numPeers rf) v (votedFor rf) (log rf) (commitIndex rf) (lastApplied rf) (nextIndex rf) (matchIndex rf).
Definition set_votedFor (v : Z) (rf : Raft) : Raft :=
  mkRaft (peers rf) (me rf) (dead rf) (hasReceivedHeartbeat rf) (serverState rf) (currentTerm rf) (numPeers rf) (receivedVotes rf) v (log rf) (commitIndex rf) (lastApplied rf) (nextIndex rf) (matchIndex rf).

(** ** Messages *)

Record RequestVoteArgs := mkRequestVoteArgs {
  CandidateTerm : Z; CandidateId : Z; LastLogIndex : Z; LastLogTerm : Z
}.
Record RequestVoteReply := mkRequestVoteReply { ResponseTerm : Z; VoteGrandted : bool }.
Record AppendEntriesArgs := mkAppendEntriesArgs {
  LeaderTerm : Z; LeaderId : Z; PrevLogIndex : Z; PrevLogTerm : Z; Entries : list LogEntry; LeaderCommitIndex : Z
}.
Record AppendEntriesReply := mkAppendEntriesReply { FollowersTerm : Z; Success : bool }.

(** The zero values the callers pass in. *)
Definition RequestVoteReply0 : RequestVoteReply := mkRequestVoteReply 0 false.
Definition AppendEntriesReply0 : AppendEntriesReply := mkAppendEntriesReply 0 false.

(** ** Handlers *)

Definition GetState (rf : Raft) : Z * bool := (currentTerm rf, bool_decide (serverState rf = LEADER)).

Definition stepDown (rf : Raft) : Raft := set_state FOLLOWER rf.

Definition RequestVote (args : RequestVoteArgs) (reply : RequestVoteReply) (rf : Raft) : outcome (RequestVoteReply * Raft) :=
  if CandidateTerm args <? currentTerm rf then Ret (mkRequestVoteReply (currentTerm rf) false, rf)
  else
    let rf := if CandidateTerm args >? currentTerm rf then
                let rf := set_term (CandidateTerm args) (set_votes 0 (set_votedFor (-1) rf)) in
                if decide (serverState rf = LEADER) then stepDown rf else rf
              else rf in
    next ← slice_get (nextIndex rf) (CandidateId args);
    let logUpToDate := LastLogIndex args >=? next - 1 in
    if ((votedFor rf =? -1) || (votedFor rf =? CandidateId args)) && logUpToDate then
      Ret (mkRequestVoteReply (ResponseTerm reply) true,
           set_state FOLLOWER (set_term (CandidateTerm args) (set_votedFor (CandidateId args) rf)))
    else Ret (mkRequestVoteReply (currentTerm rf) false, rf).

Definition AppendEntries (args : AppendEntriesArgs) (reply : AppendEntriesReply) (rf : Raft) : AppendEntriesReply * Raft :=
  if LeaderTerm args <? currentTerm rf then (mkAppendEntriesReply (currentTerm rf) false, rf)
  else
    let rf := if LeaderTerm args >? currentTerm rf then
                let rf := set_term (LeaderTerm args) rf in
                if decide (serverState rf = LEADER) then stepDown rf else rf
              else rf in
    (mkAppendEntriesReply (FollowersTerm reply) true, set_heartbeat true rf).

Definition Start (rf : Raft) : Z * Z * bool :=
  if decide (serverState rf ≠ LEADER) then (-1, -1, false) else (commitIndex rf + 1, currentTerm rf, true).

Definition Kill (rf : Raft) : Raft := set_dead true rf.
Definition killed (rf : Raft) : bool := dead rf.

(** ** Goroutines *)

(** The two sections of an iteration of [checkElectionTimeout], before and after
    the sleep.  The second returns whether the peer asks all others for their
    vote. *)
Definition election_arm (rf : Raft) : Z * Raft := (currentTerm rf, set_heartbeat false rf).

Definition election_fire (currTerm : Z) (rf : Raft) : bool * Raft :=
  if decide (serverState rf = LEADER) then (false, rf)
  else
    let sameTerm := currTerm =? currentTerm rf in
    if negb (hasReceivedHeartbeat rf) && sameTerm then
      (true, set_state CANDIDATE (set_votedFor (me rf) (set_term (currentTerm rf + 1) (set_votes 1 rf))))
    else (false, rf).

(** The peers [askAllPeersForVote] and [sendHeartBeatToAllPeers] start a goroutine
    for. *)
Definition other_peers (rf : Raft) : list nat := filter (λ p, Z.of_nat p ≠ me rf) (seq 0 (peers rf)).

(** [askForVote]: the request it sends, and what it does with a reply.  When the
    call fails the loop never calls again ([ok] is not assigned in the loop): it
    only sleeps until the peer is killed. *)
Definition askForVote_request (rf : Raft) : RequestVoteArgs :=
  mkRequestVoteArgs (currentTerm rf) (me rf) (commitIndex rf) (lastApplied rf).

Definition askForVote_reply (replyVote : RequestVoteReply) (rf : Raft) : Raft :=
  if VoteGrandted replyVote then
    let rf := set_votes (receivedVotes rf + 1) rf in
    if (receivedVotes rf >? Z.quot (numPeers rf) 2) && bool_decide (serverState rf ≠ LEADER)
    then set_state LEADER rf else rf
  else rf.

(** [sendHeartBeatToPeer], in the same way. *)
Definition heartbeat_request (rf : Raft) : outcome AppendEntriesArgs :=
  entry ← slice_get (log rf) (commitIndex rf);
  Ret (mkAppendEntriesArgs (currentTerm rf) (me rf) (commitIndex rf) (LogTerm entry) [] (commitIndex rf)).

Definition heartbeat_reply (replyAppend : AppendEntriesReply) (rf : Raft) : Raft :=
  if negb (Success replyAppend) then
    let rf := set_term (FollowersTerm replyAppend) rf in
    if decide (serverState rf = LEADER) then stepDown rf else rf
  else rf.

(** [leaderSendHeartBeats]: whether an iteration sends heartbeats. *)
Definition heartbeat_tick (rf : Raft) : bool := bool_decide (serverState rf = LEADER).

(** ** Persistence *)

Record Persister := mkPersister { raftstate : list Z; snapshot : list Z }.

Definition MakePersister : Persister := mkPersister [] [].
Definition Copy (ps : Persister) : Persister := mkPersister (raftstate ps) (snapshot ps).
Definition ReadRaftState (ps : Persister) : list Z := raftstate ps.
Definition RaftStateSize (ps : Persister) : Z := go_len (raftstate ps).
Definition Save (state snap : list Z) (ps : Persister) : Persister := mkPersister state snap.
Definition ReadSnapshot (ps : Persister) : list Z := snapshot ps.
Definition SnapshotSize (ps : Persister) : Z := go_len (snapshot ps).

(** [readPersist] leaves the peer as it is. *)
Definition readPersist (data : list Z) (rf : Raft) : Raft := rf.

Definition Make (n : nat) (self : Z) (ps : Persister) : Raft :=
  readPersist (ReadRaftState ps)
    (mkRaft n self false false FOLLOWER 0 (Z.of_nat n) 0 (-1) [mkLogEntry 0 0 0] 0 0
       (replicate n 0) (replicate n 0)).
