(* ===== verification/RaftVotes.v ===== *)
(** * Lab2_MapReduce, raft: the votes of one peer

    All sections of a peer in any order: terms and votes.  A peer votes at most
    once per term as long as no reply to a heartbeat lowers its term. *)

From S2P Require Import Prelude Raft.
Open Scope Z_scope.

(** ** Invariant of a peer *)

Record raft_wf (n : nat) (self : Z) (rf : Raft) : Prop := {
  rw_peers : peers rf = n;
  rw_me : me rf = self;
  rw_num : numPeers rf = Z.of_nat n;
  rw_next : length (nextIndex rf) = n;
  rw_log : 0 ≤ commitIndex rf < go_len (log rf)
}.

(** What can happen to a peer. *)
Inductive raft_event :=
| EvRequestVote (args : RequestVoteArgs)
| EvAppendEntries (args : AppendEntriesArgs)
| EvArm
| EvFire (currTerm : Z)
| EvVoteReply (r : RequestVoteReply)
| EvHeartbeatReply (r : AppendEntriesReply)
| EvKill.

(** The state afterwards and the vote cast, if any: a granted request, or the
    peer's own vote when it becomes a candidate. *)
Definition raft_apply (e : raft_event) (rf : Raft) : outcome (Raft * option (Z * Z)) :=
  match e with
  | EvRequestVote args =>
      '(reply, rf') ← RequestVote args RequestVoteReply0 rf;
      Ret (rf', if VoteGrandted reply then Some (CandidateTerm args, CandidateId args) else None)
  | EvAppendEntries args => Ret ((AppendEntries args AppendEntriesReply0 rf).2, None)
  | EvArm => Ret ((election_arm rf).2, None)
  | EvFire t =>
      let '(go, rf') := election_fire t rf in
      Ret (rf', if go then Some (currentTerm rf', me rf') else None)
  | EvVoteReply r => Ret (askForVote_reply r rf, None)
  | EvHeartbeatReply r => Ret (heartbeat_reply r rf, None)
  | EvKill => Ret (Kill rf, None)
  end.

(** Requests come from peers of the group; a failed heartbeat names a term that is
    not below the current one. *)
Definition raft_event_ok (n : nat) (rf : Raft) (e : raft_event) : Prop :=
  match e with
  | EvRequestVote args => 0 ≤ CandidateId args < Z.of_nat n
  | EvHeartbeatReply r => Success r = false → currentTerm rf ≤ FollowersTerm r
  | _ => True
  end.

(** A run: the events, the final state and the votes cast, oldest first. *)
Inductive raft_run (n : nat) (rf0 : Raft) : list raft_event → Raft → list (Z * Z) → Prop :=
| run_start : raft_run n rf0 [] rf0 []
| run_event es e rf rf' v votes :
    raft_run n rf0 es rf votes → raft_event_ok n rf e → raft_apply e rf = Ret (rf', v) →
    raft_run n rf0 (es ++ [e])%list rf' (votes ++ option_list v)%list.

(** ** Single steps *)

(** Case analysis on the comparisons and decisions of a section. *)
Ltac raft_cases :=
  repeat (case_match || case_decide || case_bool_decide); simplify_eq; simpl in *.

(** The invariant depends on these fields only. *)
Lemma wf_frame n self rf rf' : raft_wf n self rf →
  peers rf' = peers rf → me rf' = me rf → numPeers rf' = numPeers rf → nextIndex rf' = nextIndex rf →
  commitIndex rf' = commitIndex rf → log rf' = log rf → raft_wf n self rf'.
Proof. intros [] Hp Hm Hn Hx Hc Hl. split; congruence. Qed.

Lemma RequestVote_ok n self args rf : raft_wf n self rf → 0 ≤ CandidateId args < Z.of_nat n →
  ∃ reply rf', RequestVote args RequestVoteReply0 rf = Ret (reply, rf') ∧ raft_wf n self rf' ∧
    currentTerm rf ≤ currentTerm rf' ∧
    (VoteGrandted reply = true → currentTerm rf' = CandidateTerm args ∧ votedFor rf' = CandidateId args) ∧
    (VoteGrandted reply = true → currentTerm rf' = currentTerm rf → votedFor rf = -1 ∨ votedFor rf = CandidateId args) ∧
    (VoteGrandted reply = false → currentTerm rf' = currentTerm rf → votedFor rf' = votedFor rf).
Proof.
  intros Hwf Hid. unfold RequestVote. destruct (Z.ltb_spec (CandidateTerm args) (currentTerm rf)).
  - eexists _, _. split; [done|]. simpl. by repeat split; try done; try apply Hwf.
  - set (rf1 := if _ >? _ then _ else rf).
    assert (Hn : nextIndex rf1 = nextIndex rf) by (unfold rf1; raft_cases; done).
    assert (Hwf1 : raft_wf n self rf1) by (apply (wf_frame n self rf); [done|unfold rf1; raft_cases; done..]).
    assert (Hv : (currentTerm rf < CandidateTerm args ∧ votedFor rf1 = -1 ∧ currentTerm rf1 = CandidateTerm args) ∨
                 (currentTerm rf = CandidateTerm args ∧ rf1 = rf)).
    { unfold rf1. destruct (Z.gtb_spec (CandidateTerm args) (currentTerm rf)); [left|right; split; [lia|done]].
      case_decide; simpl; repeat split; lia. }
    destruct (slice_get_ok (nextIndex rf1) (CandidateId args)) as (nx & Hnx & _).
    { rewrite Hn. unfold go_len. rewrite (rw_next _ _ _ Hwf). lia. }
    rewrite Hnx. cbn [mbind outcome_bind]. destruct (Z.eqb_spec (votedFor rf1) (-1)), (Z.eqb_spec (votedFor rf1) (CandidateId args));
      destruct (LastLogIndex args >=? nx - 1); cbn [orb andb]; eexists _, _; (split; [reflexivity|]); cbn [VoteGrandted];
      (split; [by apply (wf_frame n self rf1)|]); simpl; destruct Hv as [(? & ? & ?)|[? ->]]; repeat split; intros; try done; try lia; auto; try congruence.
Qed.

Lemma AppendEntries_ok n self args rf : raft_wf n self rf →
  let rf' := (AppendEntries args AppendEntriesReply0 rf).2 in
  raft_wf n self rf' ∧ currentTerm rf ≤ currentTerm rf' ∧ votedFor rf' = votedFor rf.
Proof.
  intros Hwf. split; [apply (wf_frame n self rf); [done|unfold AppendEntries; raft_cases; done..]|]. unfold AppendEntries.
  destruct (Z.ltb_spec (LeaderTerm args) (currentTerm rf)); [done|].
  destruct (Z.gtb_spec (LeaderTerm args) (currentTerm rf)); raft_cases; split; done || lia.
Qed.

(** Every step keeps the shape of the peer, never lowers its term, and casts a
    vote only for its new current term, and only if it is free to. *)
Lemma raft_apply_ok n self e rf : raft_wf n self rf → raft_event_ok n rf e →
  ∃ rf' v, raft_apply e rf = Ret (rf', v) ∧ raft_wf n self rf' ∧ currentTerm rf ≤ currentTerm rf' ∧
    match v with
    | Some (t, c) => t = currentTerm rf' ∧ votedFor rf' = c ∧ (currentTerm rf' = currentTerm rf → votedFor rf = -1 ∨ votedFor rf = c)
    | None => currentTerm rf' = currentTerm rf → votedFor rf' = votedFor rf
    end.
Proof.
  intros Hwf He. destruct e as [args|args| |t|r|r|]; simpl in He; cbn [raft_apply].
  - destruct (RequestVote_ok n self args rf Hwf He) as (reply & rf' & -> & Hwf' & Ht & Hg & Hf & Hng). cbn [mbind outcome_bind].
    eexists _, _. split; [done|]. split; [done|]. split; [done|]. destruct (VoteGrandted reply).
    + destruct (Hg eq_refl) as [H1 H2]. split; [done|]. split; [done|]. intros; by apply Hf.
    + by apply Hng.
  - destruct (AppendEntries_ok n self args rf Hwf) as (Hwf' & Ht & Hv). by eexists _, _.
  - eexists _, _. split; [done|]. split; [by apply (wf_frame n self rf)|]. by simpl.
  - unfold election_fire. destruct (decide _); [by eexists _, _|]. destruct (_ && _); [|by eexists _, _].
    eexists _, _. split; [done|]. split; [by apply (wf_frame n self rf)|]. simpl. repeat split; lia.
  - unfold askForVote_reply. raft_cases; eexists _, _; (split; [done|]); (split; [by apply (wf_frame n self rf)|]); simpl; repeat split; done || lia.
  - unfold heartbeat_reply. destruct (Success r); simpl; [by eexists _, _|].
    specialize (He eq_refl). raft_cases; eexists _, _; (split; [done|]); (split; [by apply (wf_frame n self rf)|]); simpl; repeat split; done || lia.
  - eexists _, _. split; [done|]. split; [by apply (wf_frame n self rf)|]. by simpl.
Qed.

(** ** Runs *)

(** Every vote cast so far is for a term up to the current one, and the vote of the
    current term is [votedFor]. *)
Definition votes_ok (rf : Raft) (votes : list (Z * Z)) : Prop :=
  (∀ t c, (t, c) ∈ votes → t ≤ currentTerm rf ∧ 0 ≤ c ∧ (t = currentTerm rf → votedFor rf = c)) ∧
  (∀ t c c', (t, c) ∈ votes → (t, c') ∈ votes → c = c').

Lemma votes_step rf rf' votes v : votes_ok rf votes → currentTerm rf ≤ currentTerm rf' →
  match v with
  | Some (t, c) => 0 ≤ c ∧ t = currentTerm rf' ∧ votedFor rf' = c ∧ (currentTerm rf' = currentTerm rf → votedFor rf = -1 ∨ votedFor rf = c)
  | None => currentTerm rf' = currentTerm rf → votedFor rf' = votedFor rf
  end → votes_ok rf' (votes ++ option_list v)%list.
Proof.
  intros [Hv Huniq] Ht Hstep. destruct v as [[t c]|]; simpl.
  - destruct Hstep as (Hc & -> & Hvf & Hfree).
    assert (Hold : ∀ t' c', (t', c') ∈ votes → t' = currentTerm rf' → c' = c).
    { intros t' c' Hin ->. destruct (Hv _ _ Hin) as (Hle & Hc' & Heq). assert (Hcur : currentTerm rf' = currentTerm rf) by lia.
      specialize (Heq Hcur). destruct (Hfree Hcur); lia. }
    split.
    + intros t' c' [Hin|Hin%list_elem_of_singleton]%elem_of_app.
      * destruct (Hv _ _ Hin) as (? & ? & _). repeat split; [lia|done|]. intros Heq. by rewrite (Hold _ _ Hin Heq).
      * injection Hin as -> ->. done.
    + intros t' c1 c2 [H1|H1%list_elem_of_singleton]%elem_of_app [H2|H2%list_elem_of_singleton]%elem_of_app.
      * by apply (Huniq t').
      * injection H2 as -> ->. by apply (Hold _ _ H1).
      * injection H1 as -> ->. symmetry. by apply (Hold _ _ H2).
      * congruence.
  - rewrite app_nil_r. split; [|done]. intros t c Hin. destruct (Hv t c Hin) as (? & ? & Hcur). repeat split; [lia|done|].
    intros ->. assert (Heq : currentTerm rf' = currentTerm rf) by lia. rewrite (Hstep Heq). auto.
Qed.

Lemma raft_run_ok n self rf0 es rf votes : 0 ≤ self → raft_wf n self rf0 → raft_run n rf0 es rf votes →
  raft_wf n self rf ∧ currentTerm rf0 ≤ currentTerm rf ∧ votes_ok rf votes.
Proof.
  intros Hself Hwf0. induction 1 as [|es e rf rf' v votes Hrun (Hwf & Ht & Hv) He Hap].
  - split; [done|]. split; [done|]. split; [intros t c []%not_elem_of_nil|intros t c c' []%not_elem_of_nil].
  - destruct (raft_apply_ok n self e rf Hwf He) as (rf1 & v1 & Hap1 & Hwf1 & Ht1 & Hstep). rewrite Hap in Hap1.
    apply Ret_pair_inj in Hap1 as [<- <-]. split; [done|]. split; [lia|]. apply (votes_step rf); [done|done|].
    destruct v as [[t c]|]; [|done]. destruct Hstep as (H1 & H2 & H3). split; [|done].
    destruct e as [args|args| |t1|r|r|]; cbn [raft_apply] in Hap; go_inv; try done.
    + destruct (VoteGrandted _); simplify_eq. simpl in He. lia.
    + unfold election_fire in Hap. destruct (decide _); [by go_inv|]. destruct (_ && _); go_inv; [|done].
      simplify_eq. simpl. by rewrite (rw_me _ _ _ Hwf).
Qed.

(** ** Theorems *)

Lemma Make_wf n self ps : raft_wf n self (Make n self ps).
Proof. split; simpl; try done. apply length_replicate. Qed.


(** Peer 1 of three votes for peer 0, then stands itself, then votes for peer 2. *)
Definition demo_votes_events : list raft_event :=
  [EvRequestVote (mkRequestVoteArgs 1 0 0 0); EvArm; EvFire 1; EvRequestVote (mkRequestVoteArgs 3 2 0 0)].

Definition raft_event_okb (n : nat) (rf : Raft) (e : raft_event) : bool :=
  match e with
  | EvRequestVote args => (0 <=? CandidateId args) && (CandidateId args <? Z.of_nat n)
  | EvHeartbeatReply r => Success r || (currentTerm rf <=? FollowersTerm r)
  | _ => true
  end.

Fixpoint check_run (n : nat) (es : list raft_event) (rf : Raft) (votes : list (Z * Z)) : outcome (Raft * list (Z * Z)) :=
  match es with
  | [] => Ret (rf, votes)
  | e :: es' => if raft_event_okb n rf e then '(rf', v) ← raft_apply e rf; check_run n es' rf' (votes ++ option_list v)%list else Panic
  end.

Lemma check_run_run n rf0 es es' rf votes rf' votes' :
  raft_run n rf0 es rf votes → check_run n es' rf votes = Ret (rf', votes') → raft_run n rf0 (es ++ es')%list rf' votes'.
Proof.
  revert es rf votes. induction es' as [|e es' IH]; intros es rf votes Hr Hc; cbn [check_run] in Hc.
  - go_inv. by rewrite app_nil_r.
  - destruct (raft_event_okb n rf e) eqn:He; [|done]. go_inv.
    replace (es ++ e :: es')%list with ((es ++ [e]) ++ es')%list by by rewrite <-app_assoc.
    eapply IH; [|done]. eapply run_event; [done| |done].
    destruct e; simpl in *; try done; [lia|]. intros Hs. rewrite Hs in He. simpl in He. lia.
Qed.

Definition demo_peer : Raft := Make 3 1 MakePersister.
Definition demo_peer_end : Raft :=
  match check_run 3 demo_votes_events demo_peer [] with Ret (rf, _) => rf | _ => demo_peer end.

Lemma demo_run : raft_run 3 demo_peer demo_votes_events demo_peer_end [(1, 0); (2, 1); (3, 2)].
Proof. apply (check_run_run 3 demo_peer [] demo_votes_events demo_peer []); [constructor|vm_compute; reflexivity]. Qed.


(** Who becomes leader and who stops.  A section turns a peer into a leader
    only when it counts a granted vote and the count then exceeds half of the
    peers.  A leader stays one unless it grants a vote or learns of another
    term: after every section it is a leader with the same term, or it is a
    follower. *)
Theorem leader_transitions (n : nat) (self : Z) (e : raft_event) (rf rf' : Raft) (v : option (Z * Z)) :
  raft_wf n self rf → raft_apply e rf = Ret (rf', v) →
  (serverState rf ≠ LEADER → serverState rf' = LEADER →
     ∃ r, e = EvVoteReply r ∧ VoteGrandted r = true ∧ receivedVotes rf' = receivedVotes rf + 1 ∧ Z.of_nat n / 2 < receivedVotes rf') ∧
  (serverState rf = LEADER → (serverState rf' = LEADER ∧ currentTerm rf' = currentTerm rf) ∨ serverState rf' = FOLLOWER).
Proof.
  intros Hwf Hap. destruct e as [args|args| |t|r|r|]; cbn [raft_apply] in Hap.
  - apply bind_Ret_inv in Hap as ([reply rf1] & Hrv & Hap). go_inv. unfold RequestVote in Hrv.
    destruct (Z.ltb_spec (CandidateTerm args) (currentTerm rf)); [go_inv; naive_solver|].
    destruct (Z.gtb_spec (CandidateTerm args) (currentTerm rf)); go_inv;
      repeat (case_decide; simpl in *); case_match; go_inv; simpl; naive_solver.
  - go_inv. unfold AppendEntries. destruct (Z.ltb_spec (LeaderTerm args) (currentTerm rf)); [simpl; naive_solver|].
    destruct (Z.gtb_spec (LeaderTerm args) (currentTerm rf)); repeat (case_decide; simpl in *); simpl; naive_solver.
  - go_inv. simpl. naive_solver.
  - unfold election_fire in Hap. destruct (decide (serverState rf = LEADER)) as [Hl|Hl]; [go_inv; naive_solver|].
    destruct (_ && _); go_inv; simpl; naive_solver.
  - go_inv. unfold askForVote_reply. destruct (VoteGrandted r) eqn:Hg; [|naive_solver]. simpl.
    destruct (Z.gtb_spec (receivedVotes rf + 1) (Z.quot (numPeers rf) 2)); simpl; [|naive_solver].
    case_bool_decide as Hl; simpl; [|naive_solver]. split; [|done]. intros _ _. exists r.
    rewrite (rw_num _ _ _ Hwf), Z.quot_div_nonneg in * by lia. repeat split; lia || done.
  - go_inv. unfold heartbeat_reply. destruct (Success r); simpl; [naive_solver|]. case_decide; simpl; naive_solver.
  - go_inv. simpl. naive_solver.
Qed.

Lemma leader_transitions_witness :
  let rf := set_state CANDIDATE (set_votes 1 demo_peer) in
  let rf' := askForVote_reply (mkRequestVoteReply 0 true) rf in
  serverState rf' = LEADER ∧
  (serverState rf ≠ LEADER → serverState rf' = LEADER →
     ∃ r, EvVoteReply (mkRequestVoteReply 0 true) = EvVoteReply r ∧ VoteGrandted r = true ∧
       receivedVotes rf' = receivedVotes rf + 1 ∧ Z.of_nat 3 / 2 < receivedVotes rf') ∧
  (serverState rf = LEADER → (serverState rf' = LEADER ∧ currentTerm rf' = currentTerm rf) ∨ serverState rf' = FOLLOWER).
Proof.
  intros rf rf'. split; [reflexivity|].
  apply (leader_transitions 3 1 (EvVoteReply (mkRequestVoteReply 0 true)) rf rf' None); [|reflexivity].
  apply (wf_frame 3 1 demo_peer); [apply Make_wf|reflexivity..].
Defined.
