(* ===== verification/RaftNet.v ===== *)
(** * Lab2_MapReduce, raft: a group of peers

    The peers of a group with the goroutines and messages between them, as an
    executable step function over a scheduler's choices.  A message may be
    delayed for any time, lost, or overtaken.  The theorems are two schedules of
    three peers that end with two leaders in one term. *)

From S2P Require Import Prelude Raft.
Open Scope Z_scope.

(** Goroutines that have not run yet and messages in flight, each with the peer
    it belongs to and the other one. *)
Inductive flight :=
| GoAsk (p q : nat)                               (* askForVote of [p], before its first section *)
| GoBeat (p q : nat)                              (* sendHeartBeatToPeer of [p] *)
| VoteReq (p q : nat) (args : RequestVoteArgs)    (* from [p] to [q] *)
| VoteRep (p q : nat) (r : RequestVoteReply)      (* the reply of [q] to [p] *)
| BeatReq (p q : nat) (args : AppendEntriesArgs)
| BeatRep (p q : nat) (r : AppendEntriesReply).

(** [armed]: the term each election timer was started in. *)
Record net := mkNet { rafts : list Raft; armed : list Z; inflight : list flight }.

(** What the scheduler picks: a timer section of a peer, the [i]-th goroutine or
    message to advance, or one to lose. *)
Inductive choice := CArm (p : nat) | CFire (p : nat) | CBeat (p : nat) | CStep (i : nat) | CLose (i : nat).

Definition get (s : net) (p : nat) : outcome Raft := slice_get (rafts s) (Z.of_nat p).

(** Replaces peer [p] and adds [new] messages. *)
Definition update (s : net) (p : nat) (rf : Raft) (msgs : list flight) : net :=
  mkNet (<[p := rf]> (rafts s)) (armed s) msgs.

Definition net_step (c : choice) (s : net) : outcome net :=
  match c with
  | CArm p =>
      rf ← get s p;
      let '(t, rf') := election_arm rf in
      Ret (mkNet (<[p := rf']> (rafts s)) (<[p := t]> (armed s)) (inflight s))
  | CFire p =>
      rf ← get s p;
      t ← slice_get (armed s) (Z.of_nat p);
      let '(go, rf') := election_fire t rf in
      Ret (update s p rf' (inflight s ++ if go then GoAsk p <$> other_peers rf' else [])%list)
  | CBeat p =>
      rf ← get s p;
      Ret (update s p rf (inflight s ++ if heartbeat_tick rf then GoBeat p <$> other_peers rf else [])%list)
  | CLose i => Ret (mkNet (rafts s) (armed s) (delete i (inflight s)))
  | CStep i =>
      match inflight s !! i with
      | None => Panic
      | Some m =>
          let rest := delete i (inflight s) in
          match m with
          | GoAsk p q =>
              rf ← get s p; Ret (mkNet (rafts s) (armed s) (rest ++ [VoteReq p q (askForVote_request rf)])%list)
          | GoBeat p q =>
              rf ← get s p; args ← heartbeat_request rf;
              Ret (mkNet (rafts s) (armed s) (rest ++ [BeatReq p q args])%list)
          | VoteReq p q args =>
              rf ← get s q; '(reply, rf') ← RequestVote args RequestVoteReply0 rf;
              Ret (update s q rf' (rest ++ [VoteRep p q reply])%list)
          | VoteRep p q r => rf ← get s p; Ret (update s p (askForVote_reply r rf) rest)
          | BeatReq p q args =>
              rf ← get s q;
              let '(reply, rf') := AppendEntries args AppendEntriesReply0 rf in
              Ret (update s q rf' (rest ++ [BeatRep p q reply])%list)
          | BeatRep p q r => rf ← get s p; Ret (update s p (heartbeat_reply r rf) rest)
          end
      end
  end.

Fixpoint net_run (cs : list choice) (s : net) : outcome net :=
  match cs with
  | [] => Ret s
  | c :: cs' => s' ← net_step c s; net_run cs' s'
  end.

(** [n] peers as [Make] creates them. *)
Definition net_init (n : nat) : net :=
  mkNet ((λ i, Make n (Z.of_nat i) MakePersister) <$> seq 0 n) (replicate n 0) [].

Definition leads (s : net) (p : nat) (t : Z) : Prop :=
  ∃ rf, rafts s !! p = Some rf ∧ serverState rf = LEADER ∧ currentTerm rf = t.

(** Peer 0 stands in term 1 and both others vote for it, but the votes are delayed;
    peer 1 stands in term 2, 0 and 2 vote for it; then the delayed votes for term
    1 arrive at peer 0, which is now in term 2. *)
Definition stale_votes_schedule : list choice :=
  [CArm 0; CFire 0;            (* GoAsk 0 1; GoAsk 0 2 *)
   CStep 0; CStep 0;           (* VoteReq 0 1; VoteReq 0 2 *)
   CStep 0; CStep 0;           (* VoteRep 0 1; VoteRep 0 2: both granted *)
   CArm 1; CFire 1;            (* GoAsk 1 0; GoAsk 1 2 *)
   CStep 2; CStep 2;           (* VoteReq 1 0; VoteReq 1 2 *)
   CStep 2; CStep 2;           (* VoteRep 1 0; VoteRep 1 2: both granted *)
   CStep 2;                    (* peer 1 is leader of term 2 *)
   CStep 0; CStep 0]%nat.      (* the votes for term 1 are counted in term 2 *)

(** Two leaders from stale votes.  The peers of a group can reach a state in
    which two of them are leaders in the same term: [askForVote] counts a granted
    vote whatever term it was granted for. *)
Theorem stale_votes_two_leaders :
  ∃ s, net_run stale_votes_schedule (net_init 3) = Ret s ∧ leads s 0 2 ∧ leads s 1 2.
Proof.
  eexists. split; [vm_compute; reflexivity|]. split; eexists; (split; [reflexivity|]); split; reflexivity.
Qed.

(** Peer 0 leads term 1 and sends a heartbeat to peer 2, which has moved to term
    2; the refusal is delayed.  Peer 2 stands in term 3 and gets the vote of peer
    0.  The refusal sets peer 0 back to term 2, so that it votes again in term 3,
    for peer 1. *)
Definition stale_refusal_schedule : list choice :=
  [CArm 0; CFire 0; CStep 0; CStep 0; CStep 0; CStep 0; CStep 0; CStep 0;  (* peer 0 leads term 1 *)
   CBeat 0; CLose 0; CStep 0;               (* BeatReq 0 2 *)
   CArm 2; CFire 2; CLose 1; CLose 1;       (* peer 2 in term 2 *)
   CStep 0;                                 (* BeatRep 0 2: refused with term 2 *)
   CArm 2; CFire 2; CLose 2; CStep 1; CStep 1; CStep 1;  (* peer 2 in term 3, vote of peer 0, leader *)
   CStep 0;                                 (* the refusal: peer 0 back in term 2 *)
   CArm 1; CFire 1; CLose 0; CLose 0;       (* peer 1 in term 2 *)
   CArm 1; CFire 1; CStep 0; CStep 1; CStep 1]%nat. (* peer 1 in term 3, vote of peer 0, leader *)

(** Two leaders from a stale refusal.  A delayed refusal of a heartbeat sets a
    peer back to an earlier term, after which it votes a second time in the same
    term: a group can reach a state in which two peers lead the same term and both
    counted the vote of the third. *)
Theorem stale_refusal_two_leaders :
  ∃ s, net_run stale_refusal_schedule (net_init 3) = Ret s ∧ leads s 1 3 ∧ leads s 2 3.
Proof.
  eexists. split; [vm_compute; reflexivity|]. split; eexists; (split; [reflexivity|]); split; reflexivity.
Qed.
