(* ===== verification/RaftElection.v ===== *)
(** * Lab2_MapReduce, raft: election safety

    When does a group elect at most one leader per term?  [RaftNet] has schedules
    that elect two.  This file adds to the network of [RaftNet] what the code does
    not keep - the term in which a goroutine was started or a request was made, and
    the votes that were cast - and shows that three conditions on the schedule are
    enough: askForVote reads the term before the candidate leaves it, a granted vote
    is counted in the term it was asked for, and a refused heartbeat does not name a
    term below the leader's.  A third schedule shows that the first condition is
    needed too. *)

From S2P Require Import Prelude Raft RaftVotes RaftNet.
Open Scope Z_scope.

(** ** The annotated network *)

(** [flights]: the goroutines and messages with their terms; [votes]: for a peer and
    a term the candidate it voted for. *)
Record gnet := mkG { g_rafts : list Raft; g_armed : list Z; flights : list (flight * Z); votes : gmap (nat * Z) Z }.

(** The network of the code. *)
Definition erase (g : gnet) : net := mkNet (g_rafts g) (g_armed g) (flights g).*1.

Definition ginit (n : nat) : gnet := mkG (rafts (net_init n)) (armed (net_init n)) [] ∅.

(** The steps of [net_step] under the three conditions. *)
Inductive timely_step (g : gnet) : choice → gnet → Prop :=
| ts_arm p rf : g_rafts g !! p = Some rf →
    timely_step g (CArm p) (mkG (<[p := (election_arm rf).2]> (g_rafts g)) (<[p := (election_arm rf).1]> (g_armed g)) (flights g) (votes g))
| ts_fire p rf t go rf' : g_rafts g !! p = Some rf → g_armed g !! p = Some t → election_fire t rf = (go, rf') →
    timely_step g (CFire p) (mkG (<[p := rf']> (g_rafts g)) (g_armed g)
      (flights g ++ if go : bool then (λ q, (GoAsk p q, currentTerm rf')) <$> other_peers rf' else [])%list
      (if go then <[(p, currentTerm rf') := me rf']> (votes g) else votes g))
| ts_beat p rf : g_rafts g !! p = Some rf →
    timely_step g (CBeat p) (mkG (<[p := rf]> (g_rafts g)) (g_armed g)
      (flights g ++ if heartbeat_tick rf then (λ q, (GoBeat p q, currentTerm rf)) <$> other_peers rf else [])%list (votes g))
| ts_lose i : timely_step g (CLose i) (mkG (g_rafts g) (g_armed g) (delete i (flights g)) (votes g))
| ts_ask i p q t rf : flights g !! i = Some (GoAsk p q, t) → g_rafts g !! p = Some rf → currentTerm rf = t →
    timely_step g (CStep i) (mkG (g_rafts g) (g_armed g) (delete i (flights g) ++ [(VoteReq p q (askForVote_request rf), t)])%list (votes g))
| ts_gobeat i p q t rf args : flights g !! i = Some (GoBeat p q, t) → g_rafts g !! p = Some rf → heartbeat_request rf = Ret args →
    timely_step g (CStep i) (mkG (g_rafts g) (g_armed g) (delete i (flights g) ++ [(BeatReq p q args, t)])%list (votes g))
| ts_vote i p q args t rf reply rf' : flights g !! i = Some (VoteReq p q args, t) → g_rafts g !! q = Some rf →
    RequestVote args RequestVoteReply0 rf = Ret (reply, rf') →
    timely_step g (CStep i) (mkG (<[q := rf']> (g_rafts g)) (g_armed g) (delete i (flights g) ++ [(VoteRep p q reply, t)])%list
      (if VoteGrandted reply then <[(q, CandidateTerm args) := CandidateId args]> (votes g) else votes g))
| ts_count i p q r t rf : flights g !! i = Some (VoteRep p q r, t) → g_rafts g !! p = Some rf → (VoteGrandted r = true → currentTerm rf = t) →
    timely_step g (CStep i) (mkG (<[p := askForVote_reply r rf]> (g_rafts g)) (g_armed g) (delete i (flights g)) (votes g))
| ts_beatreq i p q args t rf : flights g !! i = Some (BeatReq p q args, t) → g_rafts g !! q = Some rf →
    timely_step g (CStep i) (mkG (<[q := (AppendEntries args AppendEntriesReply0 rf).2]> (g_rafts g)) (g_armed g)
      (delete i (flights g) ++ [(BeatRep p q (AppendEntries args AppendEntriesReply0 rf).1, t)])%list (votes g))
| ts_beatrep i p q r t rf : flights g !! i = Some (BeatRep p q r, t) → g_rafts g !! p = Some rf → (Success r = false → currentTerm rf ≤ FollowersTerm r) →
    timely_step g (CStep i) (mkG (<[p := heartbeat_reply r rf]> (g_rafts g)) (g_armed g) (delete i (flights g)) (votes g)).

Inductive timely_run (n : nat) : list choice → gnet → Prop :=
| tr_start : timely_run n [] (ginit n)
| tr_step cs c g g' : timely_run n cs g → timely_step g c g' → timely_run n (cs ++ [c])%list g'.

(** ** The annotated network is the network *)

Lemma fmap_fst_delete {A B} i (l : list (A * B)) : (delete i l).*1 = delete i l.*1.
Proof. revert i. induction l as [|x l IH]; intros [|i]; simpl; [done|done|done|]. f_equal. apply IH. Qed.

Lemma fmap_fst_pair {A B C} (f : A → B) (h : A → C) (l : list A) : ((λ x, (f x, h x)) <$> l).*1 = f <$> l.
Proof. induction l as [|x l IH]; [done|]. rewrite !fmap_cons. by f_equal. Qed.

Lemma get_Some g p rf : g_rafts g !! p = Some rf → get (erase g) p = Ret rf.
Proof. intros H. unfold get. rewrite slice_get_nat. simpl. by rewrite H. Qed.

Lemma timely_step_net g c g' : timely_step g c g' → net_step c (erase g) = Ret (erase g').
Proof.
  intros Hs. destruct Hs as [p rf Hp|p rf t go rf' Hp Ht Hf|p rf Hp|i|i p q t rf Hi Hp Ht|i p q t rf args Hi Hp Hh|i p q args t rf reply rf' Hi Hq Hr|
    i p q r t rf Hi Hp Ht|i p q args t rf Hi Hq|i p q r t rf Hi Hp Ht].
  all: cbn [net_step]; try (rewrite (list_lookup_fmap fst), Hi || (cbn [inflight erase]; rewrite list_lookup_fmap, Hi)); cbn [fmap option_fmap option_map fst].
  all: rewrite ?(get_Some _ _ _ Hp), ?(get_Some _ _ _ Hq); cbn [mbind outcome_bind].
  - done.
  - rewrite slice_get_nat. cbn [armed erase]. rewrite Ht. cbn [mbind outcome_bind]. rewrite Hf. unfold update, erase. simpl. rewrite fmap_app.
    destruct go; [by rewrite fmap_fst_pair|done].
  - unfold update, erase. simpl. rewrite fmap_app. destruct (heartbeat_tick rf); [by rewrite fmap_fst_pair|done].
  - unfold erase. simpl. by rewrite fmap_fst_delete.
  - unfold erase. simpl. by rewrite fmap_app, fmap_fst_delete.
  - rewrite Hh. cbn [mbind outcome_bind]. unfold erase. simpl. by rewrite fmap_app, fmap_fst_delete.
  - rewrite Hr. cbn [mbind outcome_bind]. unfold update, erase. simpl. by rewrite fmap_app, fmap_fst_delete.
  - unfold update, erase. simpl. by rewrite fmap_fst_delete.
  - destruct (AppendEntries args AppendEntriesReply0 rf) as [reply rf']. unfold update, erase. simpl. by rewrite fmap_app, fmap_fst_delete.
  - unfold update, erase. simpl. by rewrite fmap_fst_delete.
Qed.

Lemma net_run_snoc cs c s s1 s2 : net_run cs s = Ret s1 → net_step c s1 = Ret s2 → net_run (cs ++ [c])%list s = Ret s2.
Proof.
  revert s. induction cs as [|c0 cs IH]; intros s H1 H2; cbn [net_run app] in *.
  - injection H1 as ->. rewrite H2. done.
  - apply bind_Ret_inv in H1 as (s0 & -> & H1). cbn [mbind outcome_bind]. by apply IH.
Qed.

Lemma timely_run_net n cs g : timely_run n cs g → net_run cs (net_init n) = Ret (erase g).
Proof. induction 1 as [|cs c g g' _ IH Hs]; [done|]. eapply net_run_snoc; [done|by apply timely_step_net]. Qed.

(** ** The invariant *)

(** The peer whose vote [p] is still to get from a goroutine or message, and all of
    them for the term [t]. *)
Definition vote_target (p : nat) (m : flight) : option nat :=
  match m with GoAsk p' q | VoteReq p' q _ | VoteRep p' q _ => if decide (p' = p) then Some q else None | _ => None end.
Definition pending (fs : list (flight * Z)) (p : nat) (t : Z) : list nat := omap (λ '(m, tg), if decide (tg = t) then vote_target p m else None) fs.

Definition term_reached (g : gnet) (p : nat) (t : Z) : Prop := ∃ rf, g_rafts g !! p = Some rf ∧ t ≤ currentTerm rf.

Definition msg_ok (n : nat) (g : gnet) (m : flight) (t : Z) : Prop :=
  match m with
  | GoAsk p q => (p < n)%nat ∧ (q < n)%nat ∧ term_reached g p t
  | VoteReq p q args => (p < n)%nat ∧ (q < n)%nat ∧ term_reached g p t ∧ CandidateTerm args = t ∧ CandidateId args = Z.of_nat p
  | VoteRep p q r => (p < n)%nat ∧ (q < n)%nat ∧ term_reached g p t ∧ (VoteGrandted r = true → votes g !! (q, t) = Some (Z.of_nat p))
  | _ => True
  end.

(** [C] are peers whose votes for [p] in the current term have been counted; the
    votes still on their way are of other peers. *)
Definition count_ok (g : gnet) (p : nat) (rf : Raft) : Prop :=
  ∃ C, NoDup (C ++ pending (flights g) p (currentTerm rf)) ∧ (∀ v, v ∈ C → votes g !! (v, currentTerm rf) = Some (Z.of_nat p)) ∧
    (receivedVotes rf ≤ Z.of_nat (length C) ∨ pending (flights g) p (currentTerm rf) = []).

Definition majority (n : nat) (g : gnet) (p : nat) (t : Z) : Prop :=
  ∃ C, NoDup C ∧ (∀ v, v ∈ C → votes g !! (v, t) = Some (Z.of_nat p)) ∧ (n < 2 * length C)%nat.

Record ginv (n : nat) (g : gnet) : Prop := {
  gi_len : length (g_rafts g) = n;
  gi_wf : ∀ p rf, g_rafts g !! p = Some rf → raft_wf n (Z.of_nat p) rf;
  gi_votes : ∀ q t x, votes g !! (q, t) = Some x → ∃ rf, g_rafts g !! q = Some rf ∧ t ≤ currentTerm rf ∧ 0 ≤ x ∧ (t = currentTerm rf → votedFor rf = x);
  gi_msgs : ∀ m t, (m, t) ∈ flights g → msg_ok n g m t;
  gi_count : ∀ p rf, g_rafts g !! p = Some rf → count_ok g p rf;
  gi_leader : ∀ p rf, g_rafts g !! p = Some rf → serverState rf = LEADER → majority n g p (currentTerm rf)
}.

(** *** One peer takes a step *)

(** What a section other than counting a vote and starting an election does to the
    count and to a leader. *)
Lemma raft_apply_calm n self e rf rf' v : raft_wf n self rf → raft_event_ok n rf e → raft_apply e rf = Ret (rf', v) →
  (∀ r, e = EvVoteReply r → VoteGrandted r = false) → (∀ t, e = EvFire t → (election_fire t rf).1 = false) →
  (receivedVotes rf' = receivedVotes rf ∨ currentTerm rf < currentTerm rf') ∧
  (serverState rf' = LEADER → serverState rf = LEADER ∧ currentTerm rf' = currentTerm rf).
Proof.
  intros Hwf He Hap Hr Hf. destruct e as [args|args| |t|r|r|]; cbn [raft_apply] in Hap.
  - apply bind_Ret_inv in Hap as ([reply rf1] & Hrv & Hap). go_inv. unfold RequestVote in Hrv.
    destruct (Z.ltb_spec (CandidateTerm args) (currentTerm rf)); [go_inv; naive_solver|].
    destruct (Z.gtb_spec (CandidateTerm args) (currentTerm rf)); go_inv;
      repeat (case_decide; simpl in *); case_match; go_inv; simpl in *; (split; [|naive_solver lia]); first [by left|right; lia].
  - go_inv. unfold AppendEntries. destruct (Z.ltb_spec (LeaderTerm args) (currentTerm rf)); [simpl; naive_solver|].
    destruct (Z.gtb_spec (LeaderTerm args) (currentTerm rf)); repeat (case_decide; simpl in *); simpl; naive_solver lia.
  - go_inv. simpl. naive_solver.
  - specialize (Hf t eq_refl). destruct (election_fire t rf) as [go rf1] eqn:E. simpl in Hf. subst go. go_inv. unfold election_fire in E.
    destruct (decide _); [naive_solver|]. destruct (_ && _); naive_solver.
  - go_inv. unfold askForVote_reply. rewrite (Hr r eq_refl). naive_solver.
  - go_inv. unfold heartbeat_reply. simpl in He. destruct (Success r) eqn:Es; simpl; [naive_solver|]. specialize (He eq_refl).
    case_decide; simpl; split; naive_solver lia.
  - go_inv. simpl. naive_solver.
Qed.

Definition cast (q : nat) (v : option (Z * Z)) (vs : gmap (nat * Z) Z) : gmap (nat * Z) Z :=
  match v with Some (t, x) => <[(q, t) := x]> vs | None => vs end.

(** The parts of the invariant that do not depend on messages, and what only grows. *)
Lemma peer_step n g q rf e rf' v : ginv n g → g_rafts g !! q = Some rf → raft_event_ok n rf e → raft_apply e rf = Ret (rf', v) →
  (∀ t x, v = Some (t, x) → 0 ≤ x) →
  raft_wf n (Z.of_nat q) rf' ∧ currentTerm rf ≤ currentTerm rf' ∧ votes g ⊆ cast q v (votes g) ∧
  (∀ p t x, cast q v (votes g) !! (p, t) = Some x → ∃ r, <[q := rf']> (g_rafts g) !! p = Some r ∧ t ≤ currentTerm r ∧ 0 ≤ x ∧ (t = currentTerm r → votedFor r = x)).
Proof.
  intros Hg Hq He Hap Hpos. destruct (raft_apply_ok n (Z.of_nat q) e rf (gi_wf n g Hg q rf Hq) He) as (rf1 & v1 & Hap1 & Hwf' & Ht & Hv).
  rewrite Hap in Hap1. apply Ret_pair_inj in Hap1 as [<- <-]. split; [done|]. split; [done|].
  assert (Hq' : <[q := rf']> (g_rafts g) !! q = Some rf') by (apply list_lookup_insert_eq; by eapply lookup_lt_Some).
  assert (Hold : ∀ t x, votes g !! (q, t) = Some x → t ≤ currentTerm rf ∧ 0 ≤ x ∧ (t = currentTerm rf → votedFor rf = x)).
  { intros t x Hx. destruct (gi_votes n g Hg q t x Hx) as (r & Hr & ? & ? & ?). by assert (r = rf) as -> by congruence. }
  assert (Hoth : ∀ p t x, p ≠ q → votes g !! (p, t) = Some x → ∃ r, <[q := rf']> (g_rafts g) !! p = Some r ∧ t ≤ currentTerm r ∧ 0 ≤ x ∧ (t = currentTerm r → votedFor r = x)).
  { intros p t x Hne Hx. destruct (gi_votes n g Hg p t x Hx) as (r & Hr & ?). exists r. by rewrite list_lookup_insert_ne. }
  destruct v as [[t0 x0]|]; simpl.
  - destruct Hv as (-> & Hvf & Hfree). assert (Hsame : ∀ x, votes g !! (q, currentTerm rf') = Some x → x = x0).
    { intros x Hx. destruct (Hold _ _ Hx) as (Hle & Hx0 & Heq). assert (E : currentTerm rf' = currentTerm rf) by lia. destruct (Hfree E); specialize (Heq E); lia. }
    split.
    + apply map_subseteq_spec. intros [p t] x Hx. destruct (decide ((p, t) = (q, currentTerm rf'))) as [E|Hne]; [|by rewrite lookup_insert_ne].
      rewrite E, lookup_insert_eq. f_equal. symmetry. apply Hsame. by rewrite <-E.
    + intros p t x Hx. destruct (decide ((p, t) = (q, currentTerm rf'))) as [E|Hne].
      * injection E as -> ->. rewrite lookup_insert_eq in Hx. injection Hx as <-. exists rf'. split; [done|]. split; [lia|]. split; [by eapply Hpos|done].
      * rewrite lookup_insert_ne in Hx by done. destruct (decide (p = q)) as [->|Hpq]; [|by apply Hoth]. exists rf'. split; [done|].
        destruct (Hold t x Hx) as (? & ? & ?). split; [lia|]. split; [done|]. intros ->. congruence.
  - split; [done|]. intros p t x Hx. destruct (decide (p = q)) as [->|Hpq]; [|by apply Hoth]. exists rf'. split; [done|].
    destruct (Hold t x Hx) as (Hle & ? & Heq). split; [lia|]. split; [done|]. intros ->. assert (E : currentTerm rf' = currentTerm rf) by lia.
    rewrite (Hv E). by apply Heq.
Qed.

(** *** Messages *)

Lemma pending_app fs1 fs2 p t : pending (fs1 ++ fs2) p t = (pending fs1 p t ++ pending fs2 p t)%list.
Proof. unfold pending. apply omap_app. Qed.

Lemma pending_delete fs i m tg p t : fs !! i = Some (m, tg) →
  pending fs p t ≡ₚ option_list (if decide (tg = t) then vote_target p m else None) ++ pending (delete i fs) p t.
Proof.
  intros Hi. assert (Hp : pending fs p t ≡ₚ pending ((m, tg) :: delete i fs) p t).
  { unfold pending. by rewrite <-(delete_Permutation fs i (m, tg) Hi). }
  rewrite Hp. unfold pending. simpl. by destruct (if decide (tg = t) then vote_target p m else None).
Qed.

Lemma pending_delete_sub fs i p t : pending (delete i fs) p t ⊆+ pending fs p t.
Proof.
  destruct (fs !! i) as [[m tg]|] eqn:Hi; [rewrite (pending_delete fs i m tg p t Hi); apply submseteq_inserts_l; done|].
  apply lookup_ge_None in Hi. rewrite delete_take_drop, take_ge, drop_ge, app_nil_r by lia. done.
Qed.

Lemma NoDup_sub {A} (l k : list A) : l ⊆+ k → NoDup k → NoDup l.
Proof. intros (l' & Hp)%submseteq_Permutation Hk. rewrite Hp in Hk. by apply NoDup_app in Hk as [? _]. Qed.

(** In a term that [p] has not reached nothing is pending. *)
Lemma pending_above n g p rf t : ginv n g → g_rafts g !! p = Some rf → currentTerm rf < t → pending (flights g) p t = [].
Proof.
  intros Hg Hp Ht. destruct (pending (flights g) p t) as [|q l] eqn:E; [done|]. exfalso.
  assert (Hin : q ∈ pending (flights g) p t) by (rewrite E; apply elem_of_cons; by left).
  unfold pending in Hin. apply list_elem_of_omap in Hin as ([m tg] & Hm & Htg). case_decide; [subst tg|done].
  pose proof (gi_msgs n g Hg m t Hm) as Hok. unfold vote_target in Htg. destruct m; try done; (case_decide; [subst|done]);
    simpl in Hok; destruct_and!;
    match goal with H : term_reached g p t |- _ => destruct H as (rf1 & Hr1 & Hle) end; assert (rf1 = rf) as -> by congruence; lia.
Qed.

(** *** Preservation *)

Lemma count_ok_shrink g g' p rf : count_ok g p rf → votes g ⊆ votes g' → (∀ t, pending (flights g') p t ⊆+ pending (flights g) p t) → count_ok g' p rf.
Proof.
  intros (C & Hnd & Hv & Hc) Hsub Hp. exists C. split; [|split].
  - eapply NoDup_sub; [|done]. by apply submseteq_skips_l.
  - intros v Hin. eapply lookup_weaken; [by apply Hv|done].
  - destruct Hc as [?|Hc]; [by left|]. right. specialize (Hp (currentTerm rf)). rewrite Hc in Hp. by apply submseteq_nil_r in Hp.
Qed.

Lemma majority_mono n g g' p t : majority n g p t → votes g ⊆ votes g' → majority n g' p t.
Proof. intros (C & Hnd & Hv & Hn) Hsub. exists C. split; [done|]. split; [|done]. intros v Hin. eapply lookup_weaken; [by apply Hv|done]. Qed.

Lemma msg_ok_mono n g g' m t : msg_ok n g m t → votes g ⊆ votes g' → (∀ p t, term_reached g p t → term_reached g' p t) → msg_ok n g' m t.
Proof.
  intros Hm Hsub Ht. destruct m; simpl in *; try done; destruct_and!; split_and!; auto. intros Hg. eapply lookup_weaken; [|done]. auto.
Qed.

Lemma term_reached_update g g' q rf rf' p t : g_rafts g !! q = Some rf → g_rafts g' = <[q := rf']> (g_rafts g) → currentTerm rf ≤ currentTerm rf' →
  term_reached g p t → term_reached g' p t.
Proof.
  intros Hq Hg' Hle (r & Hr & Ht). unfold term_reached. rewrite Hg'. destruct (decide (p = q)) as [->|Hne].
  - exists rf'. rewrite list_lookup_insert_eq by (by eapply lookup_lt_Some). split; [done|]. assert (r = rf) as -> by congruence. lia.
  - exists r. by rewrite list_lookup_insert_ne.
Qed.

(** Only messages change. *)
Lemma ginv_msgs n g fs : ginv n g → (∀ p t, pending fs p t ⊆+ pending (flights g) p t) →
  (∀ m t, (m, t) ∈ fs → (m, t) ∈ flights g ∨ msg_ok n g m t) → ginv n (mkG (g_rafts g) (g_armed g) fs (votes g)).
Proof.
  intros Hg Hp Hm. split; simpl; try apply Hg.
  - intros m t Hin. destruct (Hm m t Hin) as [Hold|Hnew]; [pose proof (gi_msgs n g Hg m t Hold)|]; by apply (msg_ok_mono n g).
  - intros p rf Hr. apply (count_ok_shrink g); [by apply (gi_count n g Hg)|done|apply Hp].
Qed.

(** A peer takes a section that neither counts a vote nor starts an election. *)
Lemma ginv_calm n g q rf e rf' v armed' fs : ginv n g → g_rafts g !! q = Some rf → raft_event_ok n rf e → raft_apply e rf = Ret (rf', v) →
  (∀ t x, v = Some (t, x) → 0 ≤ x) →
  (∀ r, e = EvVoteReply r → VoteGrandted r = false) → (∀ t, e = EvFire t → (election_fire t rf).1 = false) →
  (∀ p t, pending fs p t ⊆+ pending (flights g) p t) →
  (∀ m t, (m, t) ∈ fs → (m, t) ∈ flights g ∨ msg_ok n (mkG (<[q := rf']> (g_rafts g)) armed' fs (cast q v (votes g))) m t) →
  ginv n (mkG (<[q := rf']> (g_rafts g)) armed' fs (cast q v (votes g))).
Proof.
  intros Hg Hq He Hap Hpos Hr Hf Hp Hm. set (g' := mkG _ _ _ _).
  destruct (peer_step n g q rf e rf' v Hg Hq He Hap Hpos) as (Hwf' & Hle & Hsub & Hvotes).
  destruct (raft_apply_calm n (Z.of_nat q) e rf rf' v (gi_wf n g Hg q rf Hq) He Hap Hr Hf) as [Hcnt Hlead].
  assert (Hlt : (q < length (g_rafts g))%nat) by by eapply lookup_lt_Some.
  split.
  - simpl. rewrite length_insert. apply Hg.
  - intros p r. simpl. destruct (decide (p = q)) as [->|Hne]; [rewrite list_lookup_insert_eq by done; by intros [= <-]|].
    rewrite list_lookup_insert_ne by done. apply (gi_wf n g Hg).
  - exact Hvotes.
  - intros m t Hin. destruct (Hm m t Hin) as [Hold|Hnew]; [|done]. apply (msg_ok_mono n g); [by apply (gi_msgs n g Hg)|done|].
    intros p t0. by apply (term_reached_update g g' q rf rf').
  - intros p r. simpl. destruct (decide (p = q)) as [->|Hne].
    + rewrite list_lookup_insert_eq by done. intros [= <-]. destruct (Z.eq_dec (currentTerm rf') (currentTerm rf)) as [E|Hgt].
      * destruct Hcnt as [Hcnt|]; [|lia]. pose proof (count_ok_shrink g g' q rf (gi_count n g Hg q rf Hq) Hsub (Hp q)) as Hc.
        unfold count_ok in *. by rewrite E, Hcnt.
      * exists []. assert (Hnil : pending fs q (currentTerm rf') = []).
        { pose proof (Hp q (currentTerm rf')) as Hs. rewrite (pending_above n g q rf) in Hs by (done || lia). by apply submseteq_nil_r in Hs. }
        simpl. rewrite Hnil. split; [constructor|]. split; [by intros v0 ?%elem_of_nil|by right].
    + rewrite list_lookup_insert_ne by done. intros Hr'. apply (count_ok_shrink g); [by apply (gi_count n g Hg)|done|apply Hp].
  - intros p r. simpl. destruct (decide (p = q)) as [->|Hne].
    + rewrite list_lookup_insert_eq by done. intros [= <-] Hl. destruct (Hlead Hl) as [Hl0 ->]. apply (majority_mono n g); [by apply (gi_leader n g Hg)|done].
    + rewrite list_lookup_insert_ne by done. intros Hr' Hl. apply (majority_mono n g); [by apply (gi_leader n g Hg)|done].
Qed.

Lemma pending_cons m tg fs p t :
  pending ((m, tg) :: fs) p t = (option_list (if decide (tg = t) then vote_target p m else None) ++ pending fs p t)%list.
Proof. unfold pending. simpl. by destruct (if decide (tg = t) then vote_target p m else None). Qed.

Lemma pending_asks p p' T t (qs : list nat) : pending ((λ q, (GoAsk p q, T)) <$> qs) p' t = if decide (T = t ∧ p = p') then qs else [].
Proof.
  induction qs as [|q qs IH]; [by case_decide|]. rewrite fmap_cons, pending_cons, IH. unfold vote_target. repeat case_decide; naive_solver.
Qed.

Lemma pending_beats p p' T t (qs : list nat) : pending ((λ q, (GoBeat p q, T)) <$> qs) p' t = [].
Proof. induction qs as [|q qs IH]; [done|]. rewrite fmap_cons, pending_cons, IH. by case_decide. Qed.

(** A peer becomes a candidate. *)
Lemma ginv_fire n g p rf t rf' : ginv n g → g_rafts g !! p = Some rf → election_fire t rf = (true, rf') →
  ginv n (mkG (<[p := rf']> (g_rafts g)) (g_armed g) (flights g ++ ((λ q, (GoAsk p q, currentTerm rf')) <$> other_peers rf'))
    (<[(p, currentTerm rf') := me rf']> (votes g))).
Proof.
  intros Hg Hp Hf. set (fs := (flights g ++ _)%list). set (g' := mkG _ _ _ _). pose proof (gi_wf n g Hg p rf Hp) as Hwf.
  assert (Hap : raft_apply (EvFire t) rf = Ret (rf', Some (currentTerm rf', me rf'))) by (cbn [raft_apply]; by rewrite Hf).
  assert (Hrf : rf' = set_state CANDIDATE (set_votedFor (me rf) (set_term (currentTerm rf + 1) (set_votes 1 rf)))).
  { unfold election_fire in Hf. destruct (decide _); [done|]. destruct (_ && _); [|done]. by injection Hf as <-. }
  assert (Hme : me rf' = Z.of_nat p) by (rewrite Hrf; apply Hwf). assert (HT : currentTerm rf' = currentTerm rf + 1) by by rewrite Hrf.
  destruct (peer_step n g p rf (EvFire t) rf' _ Hg Hp I Hap) as (Hwf' & Hle & Hsub & Hvotes); [intros t0 x [= _ <-]; lia|].
  assert (Hlt : (p < length (g_rafts g))%nat) by by eapply lookup_lt_Some. pose proof (gi_len n g Hg) as Hlen.
  assert (Hpend : ∀ p' t', pending fs p' t' = (pending (flights g) p' t' ++ (if decide (currentTerm rf' = t' ∧ p = p') then other_peers rf' else []))%list).
  { intros p' t'. unfold fs. by rewrite pending_app, pending_asks. }
  split.
  - simpl. by rewrite length_insert.
  - intros p' r. simpl. destruct (decide (p' = p)) as [->|Hne]; [rewrite list_lookup_insert_eq by done; by intros [= <-]|].
    rewrite list_lookup_insert_ne by done. apply (gi_wf n g Hg).
  - exact Hvotes.
  - intros m t0 [Hin|Hin]%elem_of_app.
    + apply (msg_ok_mono n g); [by apply (gi_msgs n g Hg)|done|]. intros p' t1. by apply (term_reached_update g g' p rf rf').
    + apply list_elem_of_fmap in Hin as (q & [= -> ->] & Hq). unfold other_peers in Hq. apply list_elem_of_filter in Hq as [_ Hq%elem_of_seq].
      simpl. split; [lia|]. split; [rewrite (rw_peers _ _ _ Hwf') in Hq; lia|]. exists rf'. simpl. by rewrite list_lookup_insert_eq.
  - intros p' r. simpl. destruct (decide (p' = p)) as [->|Hne].
    + rewrite list_lookup_insert_eq by done. intros [= <-]. exists [p]. simpl. rewrite Hpend, (pending_above n g p rf), decide_True by (done || lia). simpl.
      split; [|split].
      * apply NoDup_cons. split; [|apply NoDup_filter, NoDup_seq]. unfold other_peers. rewrite list_elem_of_filter, Hme. naive_solver.
      * intros v ->%list_elem_of_singleton. by rewrite lookup_insert_eq, Hme.
      * left. rewrite Hrf. simpl. lia.
    + rewrite list_lookup_insert_ne by done. intros Hr. apply (count_ok_shrink g); [by apply (gi_count n g Hg)|done|].
      intros t0. simpl. rewrite Hpend, decide_False by naive_solver. by rewrite app_nil_r.
  - intros p' r. simpl. destruct (decide (p' = p)) as [->|Hne].
    + rewrite list_lookup_insert_eq by done. intros [= <-]. by rewrite Hrf.
    + rewrite list_lookup_insert_ne by done. intros Hr Hl. apply (majority_mono n g); [by apply (gi_leader n g Hg)|done].
Qed.

(** A granted vote is counted. *)
Lemma ginv_count n g i p q r rf : ginv n g → flights g !! i = Some (VoteRep p q r, currentTerm rf) → g_rafts g !! p = Some rf → VoteGrandted r = true →
  ginv n (mkG (<[p := askForVote_reply r rf]> (g_rafts g)) (g_armed g) (delete i (flights g)) (votes g)).
Proof.
  intros Hg Hi Hp Hgr. set (rf' := askForVote_reply r rf). set (g' := mkG _ _ _ _).
  destruct (peer_step n g p rf (EvVoteReply r) rf' None Hg Hp I eq_refl) as (Hwf' & Hle & _ & Hvotes); [done|].
  assert (Hrf : currentTerm rf' = currentTerm rf ∧ receivedVotes rf' = receivedVotes rf + 1 ∧
    (serverState rf' = LEADER → serverState rf = LEADER ∨ Z.quot (Z.of_nat n) 2 < receivedVotes rf + 1)).
  { unfold rf', askForVote_reply. rewrite Hgr. simpl. rewrite (rw_num _ _ _ (gi_wf n g Hg p rf Hp)).
    destruct (Z.gtb_spec (receivedVotes rf + 1) (Z.quot (Z.of_nat n) 2)); case_bool_decide; simpl; naive_solver. }
  destruct Hrf as (Ht & Hv & Hl). assert (Hlt : (p < length (g_rafts g))%nat) by by eapply lookup_lt_Some.
  pose proof (gi_msgs n g Hg _ _ (list_elem_of_lookup_2 _ _ _ Hi)) as (_ & _ & _ & Hvote). specialize (Hvote Hgr).
  pose proof (pending_delete (flights g) i _ _ p (currentTerm rf) Hi) as Hpd. rewrite decide_True in Hpd by done. simpl in Hpd. rewrite decide_True in Hpd by done. simpl in Hpd.
  destruct (gi_count n g Hg p rf Hp) as (C & Hnd & HC & Hcnt). rewrite Hpd in Hnd.
  assert (Hcnt' : receivedVotes rf ≤ Z.of_nat (length C)) by (destruct Hcnt as [?|Hn]; [done|]; rewrite Hn in Hpd; by apply Permutation_nil_cons in Hpd).
  assert (HndC : NoDup ((q :: C) ++ pending (delete i (flights g)) p (currentTerm rf))) by (simpl; by rewrite Permutation_middle).
  assert (HqC : ∀ v, v ∈ q :: C → votes g !! (v, currentTerm rf) = Some (Z.of_nat p)) by (intros v [->|?]%elem_of_cons; [done|by apply HC]).
  split.
  - simpl. rewrite length_insert. apply Hg.
  - intros p' x. simpl. destruct (decide (p' = p)) as [->|Hne]; [rewrite list_lookup_insert_eq by done; by intros [= <-]|].
    rewrite list_lookup_insert_ne by done. apply (gi_wf n g Hg).
  - exact Hvotes.
  - intros m t0 Hin%list_elem_of_delete_inv. apply (msg_ok_mono n g); [by apply (gi_msgs n g Hg)|done|].
    intros p' t1. by apply (term_reached_update g g' p rf rf').
  - intros p' x. simpl. destruct (decide (p' = p)) as [->|Hne].
    + rewrite list_lookup_insert_eq by done. intros [= <-]. exists (q :: C). simpl. rewrite Ht, Hv. split; [done|]. split; [done|]. left. lia.
    + rewrite list_lookup_insert_ne by done. intros Hr. apply (count_ok_shrink g); [by apply (gi_count n g Hg)|done|]. intros t0. apply pending_delete_sub.
  - intros p' x. simpl. destruct (decide (p' = p)) as [->|Hne].
    + rewrite list_lookup_insert_eq by done. intros [= <-] Hlead. rewrite Ht. destruct (Hl Hlead) as [?|Hmaj]; [by apply (gi_leader n g Hg)|].
      exists (q :: C). split; [by apply NoDup_app in HndC as [? _]|]. split; [done|]. simpl. Z.to_euclidean_division_equations. lia.
    + rewrite list_lookup_insert_ne by done. intros Hr Hlead. by apply (gi_leader n g Hg).
Qed.


(** A message takes the place of another one for the same vote. *)
Lemma pending_replace fs i m m' tg p t : fs !! i = Some (m, tg) → vote_target p m' = vote_target p m ∨ vote_target p m' = None →
  pending (delete i fs ++ [(m', tg)]) p t ⊆+ pending fs p t.
Proof.
  intros Hi Hm. rewrite (pending_delete fs i m tg p t Hi), pending_app, pending_cons, (comm app). simpl. rewrite app_nil_r.
  apply submseteq_app; [|done]. case_decide; [|done]. destruct Hm as [->| ->]; [done|]. apply submseteq_nil_l.
Qed.

Lemma elem_of_replace {A} i (l : list A) x y : y ∈ (delete i l ++ [x])%list → y ∈ l ∨ y = x.
Proof. intros [Hin%list_elem_of_delete_inv|Hin%list_elem_of_singleton]%elem_of_app; auto. Qed.

Lemma ginv_init n : ginv n (ginit n).
Proof.
  split; simpl.
  - by rewrite length_fmap, length_seq.
  - intros p rf Hp. apply list_lookup_fmap_Some in Hp as (i & -> & Hi). apply lookup_seq in Hi as [-> _]. apply Make_wf.
  - intros q t x Hx. by rewrite lookup_empty in Hx.
  - intros m t []%not_elem_of_nil.
  - intros p rf _. exists []. simpl. split; [constructor|]. split; [by intros v []%not_elem_of_nil|by right].
  - intros p rf Hp. apply list_lookup_fmap_Some in Hp as (i & -> & _). done.
Qed.

(** Side conditions of [ginv_calm] that hold by the form of the event. *)
Ltac calm := try done; try (by intros ? ? [=]); try (by intros ? [=]); try (intros; apply pending_delete_sub).

Lemma ginv_step_timers n g c g' : ginv n g → timely_step g c g' → (∀ i, c ≠ CStep i) → ginv n g'.
Proof.
  intros Hg Hs Hc. destruct Hs as [p rf Hp|p rf t go rf' Hp Ht Hf|p rf Hp|i|i|i|i|i|i|i]; try (by destruct (Hc i)).
  - apply (ginv_calm n g p rf EvArm (election_arm rf).2 None); calm. intros; by left.
  - destruct go; [by apply (ginv_fire n g p rf t)|]. rewrite app_nil_r.
    apply (ginv_calm n g p rf (EvFire t) rf' None); calm; [by simpl; rewrite Hf|intros t0 [= <-]; by rewrite Hf|intros; by left].
  - rewrite list_insert_id by done. apply ginv_msgs; [done| |].
    + intros p' t. rewrite pending_app. destruct (heartbeat_tick rf); [rewrite pending_beats|]; by rewrite app_nil_r.
    + intros m t [Hin|Hin]%elem_of_app; [by left|right]. destruct (heartbeat_tick rf); [|by apply not_elem_of_nil in Hin].
      by apply list_elem_of_fmap in Hin as (q & [= -> ->] & _).
  - apply ginv_msgs; [done|intros; apply pending_delete_sub|]. intros m t Hin%list_elem_of_delete_inv. by left.
Qed.

Lemma ginv_vote n g i p q args t rf reply rf' : ginv n g → flights g !! i = Some (VoteReq p q args, t) → g_rafts g !! q = Some rf →
  RequestVote args RequestVoteReply0 rf = Ret (reply, rf') →
  ginv n (mkG (<[q := rf']> (g_rafts g)) (g_armed g) (delete i (flights g) ++ [(VoteRep p q reply, t)])
    (if VoteGrandted reply then <[(q, CandidateTerm args) := CandidateId args]> (votes g) else votes g)).
Proof.
  intros Hg Hi Hq Hr. pose proof (gi_msgs n g Hg _ _ (list_elem_of_lookup_2 _ _ _ Hi)) as (Hp & Hqn & Hreach & HT & Hid).
  set (v := if VoteGrandted reply then Some (CandidateTerm args, CandidateId args) else None).
  assert (Hv : (if VoteGrandted reply then <[(q, CandidateTerm args) := CandidateId args]> (votes g) else votes g) = cast q v (votes g))
    by (unfold v; by destruct (VoteGrandted reply)).
  assert (Hap : raft_apply (EvRequestVote args) rf = Ret (rf', v)) by (cbn [raft_apply]; by rewrite Hr).
  assert (He : raft_event_ok n rf (EvRequestVote args)) by (simpl; lia).
  assert (Hpos : ∀ t x, v = Some (t, x) → 0 ≤ x) by (unfold v; intros t0 x; destruct (VoteGrandted reply); [intros [= _ <-]; lia|done]).
  rewrite Hv. apply (ginv_calm n g q rf (EvRequestVote args) rf' v); calm.
  - intros p' t'. apply (pending_replace _ _ _ _ _ _ _ Hi). by left.
  - intros m t' [Hin|[= -> ->]]%elem_of_replace; [by left|right]. simpl. split_and!; [done|done| |].
    + apply (term_reached_update g _ q rf rf'); [done..| |done]. by eapply peer_step.
    + intros Hgr. unfold v. rewrite Hgr. simpl. by rewrite HT, Hid, lookup_insert_eq.
Qed.

Lemma ginv_step n g c g' : ginv n g → timely_step g c g' → ginv n g'.
Proof.
  intros Hg Hs. assert ((∀ i, c ≠ CStep i) ∨ ∃ i, c = CStep i) as [Hc|[i0 ->]] by (destruct c; naive_solver); [by eapply ginv_step_timers|].
  inversion Hs as [| | | |i p q t rf Hi Hp Ht|i p q t rf args Hi Hp Hh|i p q args t rf reply rf' Hi Hq Hr|
    i p q r t rf Hi Hp Ht|i p q args t rf Hi Hq|i p q r t rf Hi Hp Ht]; subst.
  - pose proof (gi_msgs n g Hg _ _ (list_elem_of_lookup_2 _ _ _ Hi)) as (Hpn & Hqn & Hreach).
    apply ginv_msgs; [done|intros p' t'; apply (pending_replace _ _ _ _ _ _ _ Hi); by left|].
    intros m t' [Hin|[= -> ->]]%elem_of_replace; [by left|right]. simpl. split_and!; try done. apply (gi_wf n g Hg p rf Hp).
  - apply ginv_msgs; [done|intros p' t'; apply (pending_replace _ _ _ _ _ _ _ Hi); by left|].
    intros m t' [Hin|[= -> ->]]%elem_of_replace; [by left|by right].
  - by eapply ginv_vote.
  - destruct (VoteGrandted r) eqn:Hgr; [rewrite <-(Ht eq_refl) in Hi; by apply (ginv_count n g i0 p q)|].
    apply (ginv_calm n g p rf (EvVoteReply r) _ None); calm; [by intros r0 [= <-]|intros m t' Hin%list_elem_of_delete_inv; by left].
  - apply (ginv_calm n g q rf (EvAppendEntries args) _ None); calm; [intros p' t'; apply (pending_replace _ _ _ _ _ _ _ Hi); by left|].
    intros m t' [Hin|[= -> ->]]%elem_of_replace; [by left|by right].
  - apply (ginv_calm n g p rf (EvHeartbeatReply r) _ None); calm. intros m t' Hin%list_elem_of_delete_inv; by left.
Qed.

Lemma timely_run_inv n cs g : timely_run n cs g → ginv n g.
Proof. induction 1 as [|cs c g g' _ IH Hs]; [apply ginv_init|by eapply ginv_step]. Qed.

(** *** Two majorities meet *)

Lemma majorities_meet (n : nat) (C C' : list nat) : NoDup C → NoDup C' → (∀ v, v ∈ C → v < n)%nat → (∀ v, v ∈ C' → v < n)%nat →
  (n < 2 * length C)%nat → (n < 2 * length C')%nat → ∃ v, v ∈ C ∧ v ∈ C'.
Proof.
  intros Hnd Hnd' Hlt Hlt' Hn Hn'. destruct (decide (Exists (λ v, v ∈ C') C)) as [(v & ? & ?)%Exists_exists|Hno]; [by exists v|exfalso].
  assert (Hnda : NoDup (C ++ C')).
  { apply NoDup_app. split; [done|]. split; [|done]. intros v Hv Hv'. apply Hno, Exists_exists. by exists v. }
  assert (Hsub : C ++ C' ⊆+ seq 0 n).
  { apply NoDup_submseteq; [done|]. intros v [Hv|Hv]%elem_of_app; apply elem_of_seq; [specialize (Hlt v Hv)|specialize (Hlt' v Hv)]; lia. }
  apply submseteq_length in Hsub. rewrite length_app, length_seq in Hsub. lia.
Qed.

Lemma ginv_one_leader n g p p' t : ginv n g → leads (erase g) p t → leads (erase g) p' t → p = p'.
Proof.
  intros Hg (rf & Hp & Hl & Ht) (rf' & Hp' & Hl' & Ht').
  destruct (gi_leader n g Hg p rf Hp Hl) as (C & Hnd & HC & Hn). destruct (gi_leader n g Hg p' rf' Hp' Hl') as (C' & Hnd' & HC' & Hn').
  rewrite Ht in HC. rewrite Ht' in HC'.
  assert (Hlt : ∀ v x, votes g !! (v, t) = Some x → (v < n)%nat).
  { intros v x Hv. destruct (gi_votes n g Hg v t x Hv) as (r & Hr & _). rewrite <-(gi_len n g Hg). by eapply lookup_lt_Some. }
  destruct (majorities_meet n C C' Hnd Hnd') as (v & Hv & Hv'); [by intros v ?%HC%Hlt|by intros v ?%HC'%Hlt|done|done|].
  apply HC in Hv. apply HC' in Hv'. rewrite Hv in Hv'. injection Hv' as E. lia.
Qed.

(** ** Theorems *)

(** C15 (election safety).  Whatever goroutines, timers, messages and losses a schedule
    interleaves, the group never has two leaders in one term, provided that askForVote
    reads the term before the candidate leaves it, that a granted vote is counted in
    the term it was asked for and that a refused heartbeat does not name a term below
    the leader's; the annotated run is a run of the network. *)
Theorem election_safety n cs g : timely_run n cs g →
  net_run cs (net_init n) = Ret (erase g) ∧ ∀ p p' t, leads (erase g) p t → leads (erase g) p' t → p = p'.
Proof.
  intros Hrun. split; [by apply timely_run_net|]. intros p p' t. apply (ginv_one_leader n). by eapply timely_run_inv.
Qed.

(** Peer 1 of three stands in term 1 and gets both votes; then it sends a heartbeat
    to peer 0. *)
Definition calm_schedule : list choice :=
  [CArm 1; CFire 1; CStep 0; CStep 0; CStep 0; CStep 0; CStep 0; CStep 0; CBeat 1; CStep 0; CLose 0; CStep 0; CStep 0]%nat.

(** Adds a step to the run in the context. *)
Tactic Notation "timely" uconstr(s) constr(i) :=
  match goal with H : timely_run ?n ?cs ?g |- _ =>
    let Hs := fresh "Hs" in let H' := fresh "H" in
    eassert (Hs : timely_step g _ _) by (eapply (s g i); vm_compute; (reflexivity || discriminate || (intros; reflexivity)));
    pose proof (tr_step n cs _ g _ H Hs) as H'; clear Hs H; vm_compute in H'
  end.

Lemma election_safety_witness : ∃ g, timely_run 3 calm_schedule g ∧ leads (erase g) 1 1 ∧ ∀ p, leads (erase g) p 1 → p = 1%nat.
Proof.
  pose proof (tr_start 3) as H.
  timely ts_arm 1%nat.
  timely ts_fire 1%nat.
  do 2 timely ts_ask 0%nat.
  do 2 timely ts_vote 0%nat.
  do 2 timely ts_count 0%nat.
  timely ts_beat 1%nat.
  timely ts_gobeat 0%nat.
  timely ts_lose 0%nat.
  timely ts_beatreq 0%nat.
  timely ts_beatrep 0%nat.
  match goal with H : timely_run _ _ _ |- _ => rename H into Hrun end.
  eexists. split; [exact Hrun|]. split; [by eexists|]. intros p Hp.
  apply (proj2 (election_safety 3 _ _ Hrun) p 1%nat 1 Hp). by eexists.
Defined.

(** The goroutines of peer 0's election in term 1 run after it has started one in term
    2: two of them ask peer 1 for its vote in term 2 and both answers are counted. *)
Definition late_asks_schedule : list choice :=
  [CArm 0; CFire 0; CArm 0; CFire 0;                      (* GoAsk 0 1..4, twice *)
   CLose 1; CLose 1; CLose 1; CLose 2; CLose 2; CLose 2;  (* GoAsk 0 1; GoAsk 0 1 *)
   CStep 0; CStep 0; CStep 0; CStep 0; CStep 0; CStep 0;  (* asked, granted and counted twice *)
   CArm 2; CFire 2; CLose 0; CLose 0; CLose 0; CLose 0;   (* peer 2 in term 1 *)
   CArm 2; CFire 2; CLose 0; CLose 0;                     (* peer 2 in term 2: GoAsk 2 3; GoAsk 2 4 *)
   CStep 0; CStep 0; CStep 0; CStep 0; CStep 0; CStep 0]%nat.

(** Without the first condition two leaders are possible: in a group of five a
    candidate counts the vote of one peer twice, because [askForVote] reads the term
    when the goroutine runs and not when the election starts. *)
Theorem late_asks_two_leaders : ∃ s, net_run late_asks_schedule (net_init 5) = Ret s ∧ leads s 0 2 ∧ leads s 2 2.
Proof.
  eexists. split; [vm_compute; reflexivity|]. split; eexists; (split; [reflexivity|]); split; reflexivity.
Qed.
