(* ===== verification/PorcBitset.v ===== *)
(** * Lab2_MapReduce, porcupine: bit sets

    [porcupine/bitset.go]: a set of small numbers as a slice of 64-bit words.
    Words are [Z] in [0 .. 2^64-1]; positions are non-negative.  The theorem: the
    operations implement finite sets. *)

From S2P Require Import Prelude.
Open Scope Z_scope.

Notation bitset := (list Z).

Definition newBitset (bits : Z) : bitset :=
  let extra := if bits mod 64 =? 0 then 0 else 1 in
  let chunks := bits / 64 + extra in
  replicate (Z.to_nat chunks) 0.

Definition bitset_clone (b : bitset) : bitset := b.

Definition bitsetIndex (pos : Z) : Z * Z := (pos / 64, pos mod 64).

Definition bitset_set (pos : Z) (b : bitset) : outcome bitset :=
  let '(major, minor) := bitsetIndex pos in
  w ← slice_get b major;
  slice_set b major (Z.lor w (wrap64 (Z.shiftl 1 minor))).

Definition bitset_clear (pos : Z) (b : bitset) : outcome bitset :=
  let '(major, minor) := bitsetIndex pos in
  w ← slice_get b major;
  slice_set b major (Z.ldiff w (wrap64 (Z.shiftl 1 minor))).

Definition bitset_get (pos : Z) (b : bitset) : outcome bool :=
  let '(major, minor) := bitsetIndex pos in
  w ← slice_get b major;
  Ret (negb (Z.land w (wrap64 (Z.shiftl 1 minor)) =? 0)).

(** [bits.OnesCount64] *)
Definition OnesCount64 (w : Z) : Z := Z.of_nat (length (filter (λ i, Z.testbit w i = true) (seqZ 0 64))).

Definition popcnt (b : bitset) : Z := foldl (λ total v, total + OnesCount64 v) 0 b.

Definition bitset_hash (b : bitset) : Z := foldl Z.lxor (wrap64 (popcnt b)) b.

Fixpoint words_equal (b b2 : bitset) : bool :=
  match b, b2 with
  | v :: b', v2 :: b2' => if v =? v2 then words_equal b' b2' else false
  | _, _ => true
  end.

Definition bitset_equals (b b2 : bitset) : bool :=
  if (length b =? length b2)%nat then words_equal b b2 else false.

(** ** The set a bit set stands for *)

Definition words_ok (b : bitset) : Prop := Forall (λ w, 0 ≤ w < uint64_max) b.

Definition member (b : bitset) (pos : Z) : Prop :=
  ∃ w, b !! Z.to_nat (pos / 64) = Some w ∧ Z.testbit w (pos mod 64) = true.

Definition in_range (b : bitset) (pos : Z) : Prop := 0 ≤ pos < 64 * go_len b.

Lemma index_range b pos : in_range b pos → 0 ≤ pos / 64 < go_len b ∧ 0 ≤ pos mod 64 < 64.
Proof.
  intros [H0 H1]. split; [|apply Z.mod_pos_bound; lia]. split; [apply Z.div_pos; lia|]. apply Z.div_lt_upper_bound; lia.
Qed.

Lemma mask_eq i : 0 ≤ i < 64 → wrap64 (Z.shiftl 1 i) = 2 ^ i.
Proof.
  intros Hi. unfold wrap64, uint64_max. rewrite Z.shiftl_1_l. apply Z.mod_small. split; [lia|]. apply Z.pow_lt_mono_r; lia.
Qed.

Lemma word_bound w : 0 ≤ w → (∀ i, 64 ≤ i → Z.testbit w i = false) → w < uint64_max.
Proof.
  intros Hw Hb. destruct (Z.eq_dec w 0) as [->|Hne]; [unfold uint64_max; lia|].
  apply Z.log2_lt_pow2; [lia|]. destruct (Z.lt_ge_cases (Z.log2 w) 64); [done|].
  specialize (Hb (Z.log2 w)). rewrite Z.bit_log2 in Hb by lia. discriminate Hb. lia.
Qed.

Lemma word_high w i : 0 ≤ w < uint64_max → 64 ≤ i → Z.testbit w i = false.
Proof.
  intros Hw Hi. destruct (Z.eq_dec w 0) as [->|Hne]; [apply Z.bits_0|]. apply Z.bits_above_log2; [lia|].
  apply Z.log2_lt_pow2; [lia|]. apply (Z.lt_le_trans _ uint64_max); [lia|]. unfold uint64_max. apply Z.pow_le_mono_r; lia.
Qed.

Lemma position_eq pos q : 0 ≤ pos → 0 ≤ q → (q / 64 = pos / 64 ∧ q mod 64 = pos mod 64) ↔ q = pos.
Proof. intros Hp Hq. split; [|by intros ->]. intros [Hd Hm]. rewrite (Z.div_mod q 64), (Z.div_mod pos 64) by lia. lia. Qed.

(** Updating one word with an operation that acts bitwise. *)
Lemma bitset_update b pos (f : Z → Z) (g : bool → bool) : words_ok b → in_range b pos →
  (∀ w, 0 ≤ w < uint64_max → 0 ≤ f w < uint64_max) →
  (∀ w i, 0 ≤ i → Z.testbit (f w) i = if i =? pos mod 64 then g (Z.testbit w i) else Z.testbit w i) →
  ∃ w, slice_get b (pos / 64) = Ret w ∧ 
  ∃ b', slice_set b (pos / 64) (f w) = Ret b' ∧ words_ok b' ∧ go_len b' = go_len b ∧
    ∀ q, in_range b q → (member b' q ↔ if q =? pos then g (Z.testbit w (pos mod 64)) = true else member b q).
Proof.
  intros Hok Hr Hf Hbit. destruct (index_range b pos Hr) as [Hi Hm]. destruct (slice_get_ok b (pos / 64) Hi) as (w & Hg & Hw).
  exists w. split; [done|]. exists (<[Z.to_nat (pos / 64) := f w]> b). split; [by apply slice_set_ok|].
  split; [apply Forall_insert; [done|]; apply Hf; exact (Forall_lookup_1 _ _ _ _ Hok Hw)|].
  split; [unfold go_len; by rewrite length_insert|]. intros q Hq. destruct (index_range b q Hq) as [Hqi Hqm]. unfold member.
  pose proof (position_eq pos q ltac:(unfold in_range in Hr; lia) ltac:(unfold in_range in Hq; lia)) as Hpos.
  destruct (decide (Z.to_nat (q / 64) = Z.to_nat (pos / 64))) as [Heq|Hne].
  - rewrite Heq, list_lookup_insert_eq, Hw by (unfold go_len in Hi; lia). assert (Hd : q / 64 = pos / 64) by lia.
    destruct (Z.eqb_spec q pos) as [->|Hqp].
    + split; [intros (w' & [= <-] & Hb)|intros Hb; exists (f w); split; [done|]]; rewrite Hbit, Z.eqb_refl in * by lia; done.
    + assert (Hmn : q mod 64 ≠ pos mod 64) by (intros ?; apply Hqp, Hpos; done).
      split; intros (w' & [= <-] & Hb); eexists; (split; [done|]); rewrite Hbit in * by lia;
        destruct (Z.eqb_spec (q mod 64) (pos mod 64)); done.
  - rewrite list_lookup_insert_ne by done. destruct (Z.eqb_spec q pos) as [->|]; [done|]. done.
Qed.

Lemma set_word pos w : 0 ≤ pos mod 64 < 64 → 0 ≤ w < uint64_max → 0 ≤ Z.lor w (2 ^ (pos mod 64)) < uint64_max.
Proof.
  intros Hm Hw. assert (0 ≤ Z.lor w (2 ^ (pos mod 64))) by (apply Z.lor_nonneg; lia). split; [done|].
  apply word_bound; [done|]. intros i Hi. rewrite Z.lor_spec, Z.pow2_bits_eqb, (word_high w i) by (done || lia).
  destruct (Z.eqb_spec (pos mod 64) i); [lia|done].
Qed.

Lemma clear_word pos w : 0 ≤ pos mod 64 < 64 → 0 ≤ w < uint64_max → 0 ≤ Z.ldiff w (2 ^ (pos mod 64)) < uint64_max.
Proof.
  intros Hm Hw. assert (0 ≤ Z.ldiff w (2 ^ (pos mod 64))) by (apply Z.ldiff_nonneg; lia). split; [done|].
  apply word_bound; [done|]. intros i Hi. by rewrite Z.ldiff_spec, (word_high w i) by (done || lia).
Qed.

Lemma get_spec b pos : words_ok b → in_range b pos →
  ∃ v, bitset_get pos b = Ret v ∧ (v = true ↔ member b pos).
Proof.
  intros Hok Hr. destruct (index_range b pos Hr) as [Hi Hm]. destruct (slice_get_ok b (pos / 64) Hi) as (w & Hg & Hw).
  unfold bitset_get, bitsetIndex. rewrite Hg. cbn [mbind outcome_bind]. eexists. split; [done|]. rewrite mask_eq by done.
  assert (Hbit : Z.land w (2 ^ (pos mod 64)) = 0 ↔ Z.testbit w (pos mod 64) = false).
  { split.
    - intros H0. assert (Hz : Z.testbit (Z.land w (2 ^ (pos mod 64))) (pos mod 64) = false) by (rewrite H0; apply Z.bits_0).
      rewrite Z.land_spec, Z.pow2_bits_true, andb_true_r in Hz by lia. done.
    - intros H0. apply Z.bits_inj'. intros i Hi'. rewrite Z.land_spec, Z.pow2_bits_eqb, Z.bits_0 by lia.
      destruct (Z.eqb_spec (pos mod 64) i) as [<-|]; [by rewrite H0|by rewrite andb_false_r]. }
  unfold member. rewrite Hw. destruct (Z.eqb_spec (Z.land w (2 ^ (pos mod 64))) 0) as [H0|H0]; simpl.
  - split; [done|]. intros (w' & [= <-] & Hb). apply Hbit in H0. congruence.
  - split; [|done]. intros _. exists w. split; [done|]. destruct (Z.testbit w (pos mod 64)); [done|]. by destruct H0; apply Hbit.
Qed.

Lemma words_equal_spec b b2 : length b = length b2 → words_equal b b2 = true ↔ b = b2.
Proof.
  revert b2. induction b as [|v b IH]; intros [|v2 b2] Hl; simpl in *; try done. destruct (Z.eqb_spec v v2) as [->|Hne].
  - rewrite IH by lia. split; congruence.
  - split; congruence.
Qed.

Lemma bitset_equals_spec b b2 : bitset_equals b b2 = true ↔ b = b2.
Proof.
  unfold bitset_equals. destruct (Nat.eqb_spec (length b) (length b2)) as [Hl|Hl]; [by apply words_equal_spec|].
  split; [done|]. by intros ->.
Qed.

(** Two bit sets of the same length with the same members are the same slice. *)
Lemma members_ext b b2 : words_ok b → words_ok b2 → length b = length b2 →
  (∀ q, in_range b q → member b q ↔ member b2 q) → b = b2.
Proof.
  intros Hok Hok2 Hl Hm. apply (list_eq_same_length _ _ (length b)); [done..|]. intros i w w2 Hi Hw Hw2.
  pose proof (Forall_lookup_1 _ _ _ _ Hok Hw) as Hr. pose proof (Forall_lookup_1 _ _ _ _ Hok2 Hw2) as Hr2. simpl in Hr, Hr2.
  apply Z.bits_inj'. intros j Hj. destruct (Z.lt_ge_cases j 64) as [Hj64|Hj64]; [|by rewrite !word_high].
  specialize (Hm (64 * Z.of_nat i + j)). unfold member, in_range, go_len in Hm.
  assert (Hd : (64 * Z.of_nat i + j) / 64 = Z.of_nat i) by (rewrite Z.mul_comm, Z.div_add_l, Z.div_small by lia; lia).
  assert (Hmod : (64 * Z.of_nat i + j) mod 64 = j) by (rewrite Z.add_comm, Z.mul_comm, Z.mod_add, Z.mod_small by lia; done).
  rewrite Hd, Hmod, Nat2Z.id, Hw, Hw2 in Hm. destruct Hm as [H1 H2]; [lia|].
  destruct (Z.testbit w j) eqn:E1, (Z.testbit w2 j) eqn:E2; try done.
  - destruct H1 as (? & [= <-] & ?); [by eexists|congruence].
  - destruct H2 as (? & [= <-] & ?); [by eexists|congruence].
Qed.

Lemma set_spec b pos : words_ok b → in_range b pos → ∃ b', bitset_set pos b = Ret b' ∧ words_ok b' ∧ go_len b' = go_len b ∧
  ∀ q, in_range b q → (member b' q ↔ q = pos ∨ member b q).
Proof.
  intros Hok Hr. destruct (index_range b pos Hr) as [Hi Hm].
  destruct (bitset_update b pos (λ w, Z.lor w (2 ^ (pos mod 64))) (λ _, true) Hok Hr) as (w & Hg & b' & Hs & Hok' & Hl' & Hmem).
  - intros w Hw. by apply set_word.
  - intros w i Hi0. rewrite Z.lor_spec, Z.pow2_bits_eqb, (Z.eqb_sym (pos mod 64)) by lia. destruct (i =? pos mod 64); [apply orb_true_r|apply orb_false_r].
  - exists b'. unfold bitset_set, bitsetIndex. rewrite Hg. cbn [mbind outcome_bind]. rewrite mask_eq by done.
    repeat (split; [done|]). intros q Hq. rewrite Hmem by done. destruct (Z.eqb_spec q pos); naive_solver.
Qed.

Lemma clear_spec b pos : words_ok b → in_range b pos → ∃ b', bitset_clear pos b = Ret b' ∧ words_ok b' ∧ go_len b' = go_len b ∧
  ∀ q, in_range b q → (member b' q ↔ q ≠ pos ∧ member b q).
Proof.
  intros Hok Hr. destruct (index_range b pos Hr) as [Hi Hm].
  destruct (bitset_update b pos (λ w, Z.ldiff w (2 ^ (pos mod 64))) (λ _, false) Hok Hr) as (w & Hg & b' & Hs & Hok' & Hl' & Hmem).
  - intros w Hw. by apply clear_word.
  - intros w i Hi0. rewrite Z.ldiff_spec, Z.pow2_bits_eqb, (Z.eqb_sym (pos mod 64)) by lia. destruct (i =? pos mod 64); [apply andb_false_r|apply andb_true_r].
  - exists b'. unfold bitset_clear, bitsetIndex. rewrite Hg. cbn [mbind outcome_bind]. rewrite mask_eq by done.
    repeat (split; [done|]). intros q Hq. rewrite Hmem by done. destruct (Z.eqb_spec q pos); naive_solver.
Qed.

(** A new bit set has room for its bits and no members. *)
Lemma newBitset_spec n : 0 ≤ n → words_ok (newBitset n) ∧ n ≤ 64 * go_len (newBitset n) ∧ ∀ q, ¬ member (newBitset n) q.
Proof.
  intros Hn. unfold newBitset. set (k := n / 64 + (if n mod 64 =? 0 then 0 else 1)).
  assert (Hk : 0 ≤ k ∧ n ≤ 64 * k).
  { subst k. pose proof (Z.div_mod n 64 ltac:(lia)). pose proof (Z.mod_pos_bound n 64 ltac:(lia)). pose proof (Z.div_pos n 64 Hn ltac:(lia)).
    destruct (Z.eqb_spec (n mod 64) 0); lia. }
  split; [|split].
  - apply Forall_replicate. unfold uint64_max. lia.
  - unfold go_len. rewrite length_replicate. lia.
  - intros q (w & Hw%lookup_replicate_1 & Hb). destruct Hw as [-> _]. by rewrite Z.bits_0 in Hb.
Qed.

(** Bit sets are sets.  For a bit set and a position within its size: [set]
    and [clear] return a bit set of the same size whose members are the old ones
    with the position added or removed, [get] tells whether the position is a
    member, and two bit sets of the same size are [equals] exactly when they have
    the same members. *)
Theorem bitset_refines_set (b b2 : bitset) (pos : Z) :
  words_ok b → words_ok b2 → go_len b2 = go_len b → in_range b pos →
  (∃ b', bitset_set pos b = Ret b' ∧ words_ok b' ∧ go_len b' = go_len b ∧
     ∀ q, in_range b q → (member b' q ↔ q = pos ∨ member b q)) ∧
  (∃ b', bitset_clear pos b = Ret b' ∧ words_ok b' ∧ go_len b' = go_len b ∧
     ∀ q, in_range b q → (member b' q ↔ q ≠ pos ∧ member b q)) ∧
  (∃ v, bitset_get pos b = Ret v ∧ (v = true ↔ member b pos)) ∧
  (bitset_equals b b2 = true ↔ ∀ q, in_range b q → (member b q ↔ member b2 q)).
Proof.
  intros Hok Hok2 Hl Hr. split; [by apply set_spec|]. split; [by apply clear_spec|]. split; [by apply get_spec|].
  rewrite bitset_equals_spec. split; [by intros ->|]. intros Hq. apply members_ext; [done..| |done]. unfold go_len in Hl. lia.
Qed.

Lemma bitset_refines_set_witness :
  (∃ b', bitset_set 70 (newBitset 100) = Ret b' ∧ words_ok b' ∧ go_len b' = 2 ∧
     ∀ q, in_range (newBitset 100) q → (member b' q ↔ q = 70 ∨ member (newBitset 100) q)) ∧
  (∃ b', bitset_clear 70 (newBitset 100) = Ret b' ∧ words_ok b' ∧ go_len b' = 2 ∧
     ∀ q, in_range (newBitset 100) q → (member b' q ↔ q ≠ 70 ∧ member (newBitset 100) q)) ∧
  (∃ v, bitset_get 70 (newBitset 100) = Ret v ∧ (v = true ↔ member (newBitset 100) 70)) ∧
  (bitset_equals (newBitset 100) [0; 0] = true ↔
   ∀ q, in_range (newBitset 100) q → (member (newBitset 100) q ↔ member [0; 0] q)).
Proof.
  apply (bitset_refines_set (newBitset 100) [0; 0] 70);
    [repeat constructor; vm_compute; done..|reflexivity|unfold in_range; simpl; vm_compute; split; [discriminate|reflexivity]].
Defined.
