(* ===== verification/PorcChecker.v ===== *)
(** * Lab2_MapReduce, porcupine: the linearizability checker

    [porcupine/checker.go] and the types of [porcupine/model.go].  The doubly
    linked list of entries lives in an explicit heap, so that [lift] and [unlift]
    are the pointer updates of the source; following a nil pointer panics. *)

From S2P Require Import Prelude PorcBitset.
Open Scope Z_scope.

(** ** Data *)

Inductive entryKind := callEntry | returnEntry.

#[global] Instance entryKind_eq_dec : EqDecision entryKind.
Proof. solve_decision. Defined.

Section Checker.
(** The values of a history ([interface{}]) and the states of the model. *)
Context {V State : Type}.

Record Operation := mkOperation { op_ClientId : Z; Input : V; Call : Z; Output : V; Return : Z }.
Record Event := mkEvent { ev_ClientId : Z; Kind : entryKind; ev_Value : V; Id : Z }.
Record entry := mkEntry { kind : entryKind; value : V; id : Z; time : Z; clientId : Z }.

(** The part of [Model] the search uses.  [Step] may panic (a failed type assertion). *)
Record Model := mkModel { Init : State; Step : State → V → V → outcome (bool * State); Equal : State → State → bool }.

(** [byTime.Less] *)
Definition Less (a b : entry) : bool :=
  if time a =? time b then bool_decide (kind a = callEntry) && bool_decide (kind b = returnEntry)
  else time a <? time b.

(** The entries of [makeEntries] before sorting, numbered from [n]. *)
Fixpoint op_entries (n : Z) (history : list Operation) : list entry :=
  match history with
  | [] => []
  | elem :: history' =>
      mkEntry callEntry (Input elem) n (Call elem) (op_ClientId elem) ::
      mkEntry returnEntry (Output elem) n (Return elem) (op_ClientId elem) :: op_entries (n + 1) history'
  end.

(** [sort] stands for [sort.Sort(byTime(...))]. *)
Definition makeEntries (sort : list entry → list entry) (history : list Operation) : list entry :=
  sort (op_entries 0 history).

Fixpoint renumber_loop (events : list Event) (m : gmap Z Z) (next : Z) : list Event :=
  match events with
  | [] => []
  | v :: events' =>
      match m !! Id v with
      | Some r => mkEvent (ev_ClientId v) (Kind v) (ev_Value v) r :: renumber_loop events' m next
      | None => mkEvent (ev_ClientId v) (Kind v) (ev_Value v) next :: renumber_loop events' (<[Id v := next]> m) (next + 1)
      end
  end.
Definition renumber (events : list Event) : list Event := renumber_loop events ∅ 0.

Definition convertEntries (events : list Event) : list entry :=
  imap (λ i elem, mkEntry (Kind elem) (ev_Value elem) (Id elem) (Z.of_nat i) (ev_ClientId elem)) events.

(** ** The linked list *)

Record node := mkNode { n_value : option V; match_ : option nat; n_id : Z; next : option nat; prev : option nat }.

Definition set_next (p : option nat) (n : node) : node := mkNode (n_value n) (match_ n) (n_id n) p (prev n).
Definition set_prev (p : option nat) (n : node) : node := mkNode (n_value n) (match_ n) (n_id n) (next n) p.

(** Allocated nodes by address; [fresh] is the next address. *)
Record heap := mkHeap { cells : gmap nat node; fresh : nat }.

Definition deref (p : option nat) (h : heap) : outcome node :=
  match p with
  | None => Panic
  | Some l => match cells h !! l with Some n => Ret n | None => Panic end
  end.

Definition store (p : option nat) (f : node → node) (h : heap) : outcome heap :=
  match p with
  | None => Panic
  | Some l => match cells h !! l with Some n => Ret (mkHeap (<[l := f n]> (cells h)) (fresh h)) | None => Panic end
  end.

Definition alloc (n : node) (h : heap) : nat * heap := (fresh h, mkHeap (<[fresh h := n]> (cells h)) (S (fresh h))).

Definition insertBefore (n mark : option nat) (h : heap) : outcome heap :=
  match mark with
  | None => Ret h
  | Some _ =>
      mk ← deref mark h;
      let beforeMark := prev mk in
      h1 ← store mark (set_prev n) h;
      h2 ← store n (set_next mark) h1;
      match beforeMark with
      | None => Ret h2
      | Some _ => h3 ← store n (set_prev beforeMark) h2; store beforeMark (set_next n) h3
      end
  end.

(** [length], following at most [fuel] links. *)
Fixpoint length_loop (fuel : nat) (n : option nat) (h : heap) : outcome Z :=
  match n, fuel with
  | None, _ => Ret 0
  | Some _, O => Panic
  | Some _, S fuel' => nd ← deref n h; l ← length_loop fuel' (next nd) h; Ret (l + 1)
  end.

(** The loop of [makeLinkedEntries] over the entries from the last to the first. *)
Fixpoint link_loop (rev_entries : list entry) (root : option nat) (match' : gmap Z nat) (h : heap) : outcome (option nat * heap) :=
  match rev_entries with
  | [] => Ret (root, h)
  | elem :: rest =>
      match kind elem with
      | returnEntry =>
          let '(l, h1) := alloc (mkNode (Some (value elem)) None (id elem) None None) h in
          h2 ← insertBefore (Some l) root h1;
          link_loop rest (Some l) (<[id elem := l]> match') h2
      | callEntry =>
          let '(l, h1) := alloc (mkNode (Some (value elem)) (match' !! id elem) (id elem) None None) h in
          h2 ← insertBefore (Some l) root h1;
          link_loop rest (Some l) match' h2
      end
  end.

Definition empty_heap : heap := mkHeap ∅ 0.

Definition makeLinkedEntries (entries : list entry) : outcome (option nat * heap) :=
  link_loop (reverse entries) None ∅ empty_heap.

(** Taking a node out of the list, and putting it back: the two halves of [lift]
    and of [unlift]. *)
Definition unlink (p : option nat) (h : heap) : outcome heap :=
  nd ← deref p h;
  h1 ← store (prev nd) (set_next (next nd)) h;
  match next nd with
  | None => Ret h1
  | Some _ => store (next nd) (set_prev (prev nd)) h1
  end.

Definition relink (p : option nat) (h : heap) : outcome heap :=
  nd ← deref p h;
  h1 ← store (prev nd) (set_next p) h;
  match next nd with
  | None => Ret h1
  | Some _ => store (next nd) (set_prev p) h1
  end.

(** [entry.next] is dereferenced without a test in [lift] and [unlift]. *)
Definition unlink_entry (p : option nat) (h : heap) : outcome heap :=
  nd ← deref p h;
  h1 ← store (prev nd) (set_next (next nd)) h;
  store (next nd) (set_prev (prev nd)) h1.

Definition relink_entry (p : option nat) (h : heap) : outcome heap :=
  nd ← deref p h;
  h1 ← store (prev nd) (set_next p) h;
  store (next nd) (set_prev p) h1.

Definition lift (entry : option nat) (h : heap) : outcome heap :=
  h1 ← unlink_entry entry h;
  nd ← deref entry h1;
  unlink (match_ nd) h1.

Definition unlift (entry : option nat) (h : heap) : outcome heap :=
  nd ← deref entry h;
  h1 ← relink (match_ nd) h;
  relink_entry entry h1.

(** ** The search *)

Record cacheEntry := mkCacheEntry { ce_linearized : bitset; ce_state : State }.
Record callsEntry := mkCallsEntry { c_entry : nat; c_state : State }.

Definition cacheContains (model : Model) (cache : gmap Z (list cacheEntry)) (e : cacheEntry) : bool :=
  existsb (λ elem, bitset_equals (ce_linearized e) (ce_linearized elem) && Equal model (ce_state e) (ce_state elem))
    (default [] (cache !! bitset_hash (ce_linearized e))).

(** The variables of the loop of [checkSingle].  [longest] holds references into
    [seqs], the sequences allocated so far. *)
Record search := mkSearch {
  s_heap : heap;
  s_entry : option nat;
  linearized : bitset;
  cache : gmap Z (list cacheEntry);
  calls : list callsEntry;
  s_state : State;
  longest : list (option nat);
  seqs : list (list Z)
}.

Definition call_ids (h : heap) (cs : list callsEntry) : outcome (list Z) :=
  foldr (λ c acc, l ← acc; nd ← deref (Some (c_entry c)) h; Ret (n_id nd :: l)) (Ret []) cs.

(** The update of [longest] when the search backtracks: the entries of [calls]
    whose best prefix is shorter get the current one, created once. *)
Definition note_longest (s : search) : outcome search :=
  seq ← call_ids (s_heap s) (calls s);
  let ref := length (seqs s) in
  '(lg, used) ← foldl (λ acc c,
      '(lg, used) ← acc;
      nd ← deref (Some (c_entry c)) (s_heap s);
      old ← slice_get lg (n_id nd);
      let better := match old with
                    | None => true
                    | Some r => (length (default [] (seqs s !! r)) <? length (calls s))%nat && negb (r =? ref)%nat
                    end in
      if better then lg' ← slice_set lg (n_id nd) (Some ref); Ret (lg', true) else Ret (lg, used))
    (Ret (longest s, false)) (calls s);
  Ret (mkSearch (s_heap s) (s_entry s) (linearized s) (cache s) (calls s) (s_state s) lg
         (if (used : bool) then seqs s ++ [seq] else seqs s)%list).

(** One iteration: the new variables, or [inl] the result [false]. *)
Definition check_iter (model : Model) (computePartial : bool) (s : search) (head : nat) : outcome (search + search) :=
  nd ← deref (s_entry s) (s_heap s);
  match match_ nd with
  | Some mt =>
      matching ← deref (Some mt) (s_heap s);
      match n_value nd, n_value matching with
      | Some v, Some mv =>
          '(ok, newState) ← Step model (s_state s) v mv;
          if (ok : bool) then
            newLinearized ← bitset_set (n_id nd) (bitset_clone (linearized s));
            let newCacheEntry := mkCacheEntry newLinearized newState in
            if negb (cacheContains model (cache s) newCacheEntry) then
              let hash := bitset_hash newLinearized in
              let cache' := <[hash := (default [] (cache s !! hash) ++ [newCacheEntry])%list]> (cache s) in
              lin' ← bitset_set (n_id nd) (linearized s);
              match s_entry s with
              | None => Panic
              | Some e =>
                  h' ← lift (Some e) (s_heap s);
                  hd ← deref (Some head) h';
                  Ret (inr (mkSearch h' (next hd) lin' cache' (calls s ++ [mkCallsEntry e (s_state s)])%list newState
                              (longest s) (seqs s)))
              end
            else Ret (inr (mkSearch (s_heap s) (next nd) (linearized s) (cache s) (calls s) (s_state s) (longest s) (seqs s)))
          else Ret (inr (mkSearch (s_heap s) (next nd) (linearized s) (cache s) (calls s) (s_state s) (longest s) (seqs s)))
      | _, _ => Panic
      end
  | None =>
      match last (calls s) with
      | None => Ret (inl s)
      | Some callsTop =>
          s ← (if computePartial then note_longest s else Ret s);
          top ← deref (Some (c_entry callsTop)) (s_heap s);
          lin' ← bitset_clear (n_id top) (linearized s);
          h' ← unlift (Some (c_entry callsTop)) (s_heap s);
          top' ← deref (Some (c_entry callsTop)) h';
          Ret (inr (mkSearch h' (next top') lin' (cache s) (removelast (calls s)) (c_state callsTop) (longest s) (seqs s)))
      end
  end.

(** What [checkSingle] returns: whether it found a linearization, and the calls in
    the order they were linearized with the partial results. *)
Record checked := mkChecked { ok : bool; order : list Z; c_longest : list (option nat); c_seqs : list (list Z) }.

(** The loop; [kill k] is the flag as read in iteration [k].  [None]: out of fuel. *)
Fixpoint check_loop (fuel : nat) (kill : nat → bool) (k : nat) (model : Model) (computePartial : bool) (head : nat) (n : nat) (s : search) :
    outcome (option checked) :=
  match fuel with
  | O => Ret None
  | S fuel' =>
      hd ← deref (Some head) (s_heap s);
      match next hd with
      | None =>
          seq ← call_ids (s_heap s) (calls s);
          Ret (Some (mkChecked true seq (replicate n (Some (length (seqs s)))) (seqs s ++ [seq])%list))
      | Some _ =>
          if kill k then Ret (Some (mkChecked false [] (longest s) (seqs s)))
          else
            r ← check_iter model computePartial s head;
            match r with
            | inl s' => Ret (Some (mkChecked false [] (longest s') (seqs s')))
            | inr s' => check_loop fuel' kill (S k) model computePartial head n s'
            end
      end
  end.

Definition checkSingle (fuel : nat) (kill : nat → bool) (model : Model) (history : list entry) (computePartial : bool) :
    outcome (option checked) :=
  '(root, h) ← makeLinkedEntries history;
  len ← length_loop (S (fresh h)) root h;
  let n := Z.quot len 2 in
  let '(head, h1) := alloc (mkNode None None (-1) None None) h in
  h2 ← insertBefore (Some head) root h1;
  check_loop fuel kill 0 model computePartial head (Z.to_nat n)
    (mkSearch h2 root (newBitset n) ∅ [] (Init model) (replicate (Z.to_nat n) None) []).

(** ** Results of the partitions *)

Inductive CheckResult := Unknown | Ok | Illegal.

(** The select loop of [checkParallel].  [sched] lists what the select receives:
    [Some i] the result of the goroutine of partition [i], [None] the timeout.
    Until the loop ends nobody sets [kill], so a result that is received is that of
    an undisturbed search.  [Ret None]: the loop waits for ever, or the event in
    [sched] cannot happen. *)
Fixpoint parallel_loop (fuel : nat) (model : Model) (history : list (list entry)) (computeInfo : bool)
    (sched : list (option nat)) (okay : bool) (received : list nat) : outcome (option (bool * bool)) :=
  match sched with
  | [] => Ret None
  | None :: _ => Ret (Some (okay, true))
  | Some i :: rest =>
      match history !! i with
      | None => Ret None
      | Some subhistory =>
          if bool_decide (i ∈ received) then Ret None
          else
            res ← checkSingle fuel (λ _, false) model subhistory computeInfo;
            match res with
            | None => Ret None
            | Some r =>
                let okay' := okay && ok r in
                if negb okay' && negb computeInfo then Ret (Some (okay', false))
                else if (length history <=? S (length received))%nat then Ret (Some (okay', false))
                else parallel_loop fuel model history computeInfo rest okay' (i :: received)
            end
      end
  end.

Definition checkParallel (fuel : nat) (model : Model) (history : list (list entry)) (computeInfo : bool) (sched : list (option nat)) :
    outcome (option CheckResult) :=
  res ← parallel_loop fuel model history computeInfo sched true [];
  Ret (match res with
       | None => None
       | Some (okay, timedOut) => Some (if negb okay then Illegal else if (timedOut : bool) then Unknown else Ok)
       end).

(** The distinct sequences [longest] refers to. *)
Definition partialLinearizations (r : checked) : list (list Z) :=
  (λ ref, default [] (c_seqs r !! ref)) <$> remove_dups (omap (λ p, p) (c_longest r)).

End Checker.
