(* ===== verification/PorcList.v ===== *)
(** * Lab2_MapReduce, porcupine: the linked list of entries

    The list segments of the checker's heap: [lift] takes a call and its return
    out of the list, [unlift] puts them back where they were, and
    [makeLinkedEntries] builds the list of all entries. *)

From S2P Require Import Prelude PorcBitset PorcChecker.
Open Scope Z_scope.

Section List.
Context {V : Type}.
Implicit Types (h : heap (V := V)) (R A B C : list nat) (p q : option nat).

(** The first element of [R] or what follows; the last one or what precedes. *)
Definition first_or R q : option nat := match R with l :: _ => Some l | [] => q end.
Definition last_or p R : option nat := match last R with Some l => Some l | None => p end.

(** The nodes [R] are linked in order, between [p] and [q]. *)
Fixpoint seg h p R q : Prop :=
  match R with
  | [] => True
  | l :: R' => (∃ nd, cells h !! l = Some nd ∧ prev nd = p ∧ next nd = first_or R' q) ∧ seg h (Some l) R' q
  end.

Definition dll h R : Prop := NoDup R ∧ seg h None R None.

Lemma seg_app h p A B q : seg h p (A ++ B) q ↔ seg h p A (first_or B q) ∧ seg h (last_or p A) B q.
Proof.
  revert p. induction A as [|l A IH]; intros p; simpl; [naive_solver|]. rewrite IH.
  assert (Hl : last_or (Some l) A = last_or p (l :: A)) by (unfold last_or; rewrite last_cons; by destruct (last A)).
  assert (Hf : first_or (A ++ B) q = first_or A (first_or B q)) by by destruct A.
  rewrite Hf. rewrite <-Hl. naive_solver.
Qed.

(** A segment only depends on its own nodes. *)
Lemma seg_frame h h' p R q : (∀ l, l ∈ R → cells h' !! l = cells h !! l) → seg h p R q → seg h' p R q.
Proof.
  revert p. induction R as [|l R IH]; intros p Hf; simpl; [done|]. intros [(nd & Hnd & Hp & Hn) Hs]. split.
  - exists nd. split; [|done]. rewrite Hf; [done|]. by left.
  - apply IH; [|done]. intros x Hx. apply Hf. by right.
Qed.

Lemma first_or_cases R q : (R = [] ∧ first_or R q = q) ∨ (∃ b B, R = b :: B ∧ first_or R q = Some b).
Proof. destruct R; [by left|right; by eexists _, _]. Qed.

Lemma mkHeap_eta h : mkHeap (cells h) (fresh h) = h.
Proof. by destruct h. Qed.

(** Putting [x] back between [a] and [b] undoes taking it out. *)
Lemma relink_between h h' a x b na nx nb : cells h !! a = Some na → cells h !! x = Some nx → cells h !! b = Some nb →
  a ≠ x → a ≠ b → x ≠ b → prev nx = Some a → next nx = Some b → next na = Some x → prev nb = Some x →
  cells h' = <[b := set_prev (Some a) nb]> (<[a := set_next (Some b) na]> (cells h)) → fresh h' = fresh h →
  (nd ← deref (Some x) h'; h1 ← store (prev nd) (set_next (Some x)) h'; store (next nd) (set_prev (Some x)) h1) = Ret h.
Proof.
  intros Hna Hx Hb Hax Hab Hxb Hpx Hnx Hna' Hpb Hc Hfr. cbn [deref]. rewrite Hc, !lookup_insert_ne, Hx by done. cbn [mbind outcome_bind].
  rewrite Hpx, Hnx. cbn [store]. rewrite Hc, lookup_insert_ne, lookup_insert_eq by done. cbn [mbind outcome_bind cells fresh].
  rewrite lookup_insert_ne, lookup_insert_eq by done. f_equal. rewrite <-(mkHeap_eta h), <-Hfr. f_equal.
  apply map_eq. intros l. destruct (decide (b = l)) as [<-|Hbl].
  - rewrite lookup_insert_eq, Hb. f_equal. destruct nb; unfold set_prev in *; simpl in *; congruence.
  - rewrite lookup_insert_ne by done. destruct (decide (a = l)) as [<-|Hal].
    + rewrite lookup_insert_eq, Hna. f_equal. destruct na; unfold set_next in *; simpl in *; congruence.
    + by rewrite !lookup_insert_ne by done.
Qed.

(** Taking [x] out after [a]: the pointers around it are updated, its own stay;
    putting it back restores the heap. *)
Lemma unlink_spec h A a x B : dll h (A ++ a :: x :: B) →
  ∃ h', unlink (Some x) h = Ret h' ∧ dll h' (A ++ a :: B) ∧ relink (Some x) h' = Ret h ∧
    (∀ l nd, cells h !! l = Some nd → ∃ nd', cells h' !! l = Some nd' ∧ match_ nd' = match_ nd ∧ n_id nd' = n_id nd ∧ n_value nd' = n_value nd) ∧
    (∀ l, l ∉ A ++ a :: B → cells h' !! l = cells h !! l) ∧ fresh h' = fresh h ∧
    (B ≠ [] → unlink_entry (Some x) h = Ret h' ∧ relink_entry (Some x) h' = Ret h).
Proof.
  intros [Hnd Hseg]. apply seg_app in Hseg as [HA HB]. cbn [seg] in HB.
  destruct HB as [(na & Hna & Hpa & Hna') [(nx & Hx & Hpx & Hnx) HB]]. cbn [first_or] in Hna'.
  assert (Hax : a ≠ x) by (intros ->; apply NoDup_app in Hnd as (_ & _ & Hnd); apply NoDup_cons in Hnd as [Hnd _]; set_solver).
  assert (HnA : a ∉ A ∧ x ∉ A) by (apply NoDup_app in Hnd as (_ & Hd & _); split; intros Hin; apply (Hd _ Hin); set_solver).
  assert (HnB : a ∉ B ∧ x ∉ B) by (apply NoDup_app in Hnd as (_ & _ & Hd); rewrite !NoDup_cons in Hd; set_solver).
  assert (Hnd' : NoDup (A ++ a :: B)).
  { apply NoDup_app in Hnd as (H1 & H2 & H3). apply NoDup_cons in H3 as [H3 H4]. apply NoDup_cons in H4 as [H4 H5].
    apply NoDup_app. split; [done|]. split; [set_solver|]. constructor; [set_solver|done]. }
  unfold unlink, unlink_entry, relink, relink_entry. cbn [deref]. rewrite Hx. cbn [mbind outcome_bind]. rewrite Hpx. cbn [store].
  rewrite Hna, Hnx. cbn [mbind outcome_bind]. destruct (first_or_cases B None) as [[-> Hf]|(b & B' & -> & Hf)]; rewrite Hf.
  - eexists. split; [done|]. split; [|split; [|split; [|split; [|split; [done|done]]]]].
    + split; [done|]. apply seg_app. cbn [seg first_or]. split.
      * eapply seg_frame; [|exact HA]. intros l Hl. simpl. rewrite lookup_insert_ne; [done|]. intros <-. by destruct HnA.
      * split; [|done]. exists (set_next None na). cbn [cells]. by rewrite lookup_insert_eq.
    + cbn [deref cells]. rewrite lookup_insert_ne, Hx by done. cbn [mbind outcome_bind]. rewrite Hpx, Hnx, Hf. cbn [store cells].
      rewrite lookup_insert_eq. cbn [mbind outcome_bind cells fresh]. f_equal. rewrite <-(mkHeap_eta h). f_equal.
      rewrite insert_insert_eq. apply insert_id. rewrite Hna. f_equal. destruct na; unfold set_next in *; simpl in *; congruence.
    + intros l nd Hl. cbn [cells]. destruct (decide (a = l)) as [<-|]; [rewrite lookup_insert_eq|rewrite lookup_insert_ne by done; eauto].
      assert (nd = na) as -> by congruence. by eexists.
    + intros l Hl. cbn [cells]. rewrite lookup_insert_ne; [done|]. intros <-. apply Hl. set_solver.
  - cbn [seg] in HB. destruct HB as [(nb & Hb & Hpb & Hnb) HB].
    assert (Hab : a ≠ b ∧ b ∉ A ∧ x ≠ b ∧ b ∉ B').
    { apply NoDup_app in Hnd' as (_ & H2 & H3). rewrite !NoDup_cons in H3. set_solver. }
    destruct Hab as (Hab & HbA & Hxb & HbB). cbn [store cells]. rewrite lookup_insert_ne, Hb by done.
    assert (Hback : ∀ h', cells h' = <[b := set_prev (Some a) nb]> (<[a := set_next (Some b) na]> (cells h)) → fresh h' = fresh h →
      (nd ← deref (Some x) h'; h1 ← store (prev nd) (set_next (Some x)) h'; store (next nd) (set_prev (Some x)) h1) = Ret h).
    { intros h'. rewrite Hf in Hnx. by apply (relink_between h h' a x b na nx nb). }
    eexists. split; [done|]. split; [|split; [|split; [|split; [|split; [done|intros _; split; [done|]]]]]].
    + split; [done|]. apply seg_app. cbn [seg first_or]. split.
      * eapply seg_frame; [|exact HA]. intros l Hl. cbn [cells]. rewrite !lookup_insert_ne; [done|intros <-; by destruct HnA|intros <-; done].
      * split; [exists (set_next (Some b) na); cbn [cells]; by rewrite lookup_insert_ne, lookup_insert_eq|].
        split; [exists (set_prev (Some a) nb); cbn [cells]; by rewrite lookup_insert_eq|].
        eapply seg_frame; [|exact HB]. intros l Hl. cbn [cells]. rewrite !lookup_insert_ne; [done|intros <-; set_solver..].
    + cbn [deref cells]. rewrite !lookup_insert_ne, Hx by done. cbn [mbind outcome_bind]. rewrite Hpx, Hnx, Hf.
      specialize (Hback (mkHeap (<[b:=set_prev (Some a) nb]> (<[a:=set_next (Some b) na]> (cells h))) (fresh h)) eq_refl eq_refl).
      cbn [deref cells] in Hback. rewrite !lookup_insert_ne, Hx in Hback by done. cbn [mbind outcome_bind] in Hback.
      by rewrite Hpx, Hnx, Hf in Hback.
    + intros l nd Hl. cbn [cells]. destruct (decide (b = l)) as [<-|]; [rewrite lookup_insert_eq; assert (nd = nb) as -> by congruence; by eexists|].
      rewrite lookup_insert_ne by done. destruct (decide (a = l)) as [<-|]; [rewrite lookup_insert_eq|rewrite lookup_insert_ne by done; eauto].
      assert (nd = na) as -> by congruence. by eexists.
    + intros l Hl. cbn [cells]. rewrite !lookup_insert_ne; [done|intros <-; set_solver..].
    + by apply Hback.
Qed.

(** The nodes in [R] are as in [h] up to their links. *)
Definition same_nodes h h' : Prop :=
  ∀ l nd, cells h !! l = Some nd → ∃ nd', cells h' !! l = Some nd' ∧ match_ nd' = match_ nd ∧ n_id nd' = n_id nd ∧ n_value nd' = n_value nd.

Lemma lift_spec h A a e B m C nd : dll h (A ++ a :: e :: B ++ m :: C) → cells h !! e = Some nd → match_ nd = Some m →
  ∃ h', lift (Some e) h = Ret h' ∧ dll h' (A ++ a :: B ++ C) ∧ unlift (Some e) h' = Ret h ∧ same_nodes h h' ∧ fresh h' = fresh h.
Proof.
  intros Hdll He Hm. pose proof (proj1 Hdll) as Hnd.
  destruct (unlink_spec h A a e (B ++ m :: C) Hdll) as (h1 & _ & Hd1 & _ & Hs1 & Hfr1 & Hf1 & Hue).
  destruct Hue as [Hu1 Hr1]; [by destruct B|].
  assert (HeR : e ∉ A ++ a :: B ++ m :: C).
  { apply NoDup_app in Hnd as (_ & H2 & H3). apply NoDup_cons in H3 as [H3 H4]. apply NoDup_cons in H4 as [H4 _].
    intros [Hin|[->|Hin]%elem_of_cons]%elem_of_app; [by apply (H2 _ Hin); set_solver|set_solver|done]. }
  assert (He1 : cells h1 !! e = Some nd) by (rewrite Hfr1; done).
  assert (Hsplit : ∃ A' a', (A ++ a :: B)%list = (A' ++ [a'])%list).
  { destruct (exists_last (l := (A ++ a :: B)%list)) as (A' & a' & ->); [by destruct A|]. by exists A', a'. }
  destruct Hsplit as (A' & a' & Hsp).
  assert (Hd1' : dll h1 (A' ++ a' :: m :: C)).
  { replace (A' ++ a' :: m :: C)%list with ((A' ++ [a']) ++ m :: C)%list by by rewrite <-app_assoc. rewrite <-Hsp, <-app_assoc. done. }
  destruct (unlink_spec h1 A' a' m C Hd1') as (h2 & Hu2 & Hd2 & Hr2 & Hs2 & Hfr2 & Hf2 & _).
  assert (HR : (A' ++ a' :: C)%list = (A ++ a :: B ++ C)%list).
  { replace (A' ++ a' :: C)%list with ((A' ++ [a']) ++ C)%list by by rewrite <-app_assoc. by rewrite <-Hsp, <-app_assoc. }
  exists h2. split; [|split; [by rewrite <-HR|split; [|split]]].
  - unfold lift. rewrite Hu1. cbn [mbind outcome_bind deref]. rewrite He1. cbn [mbind outcome_bind]. by rewrite Hm.
  - unfold unlift. cbn [deref]. rewrite Hfr2; [|rewrite HR; set_solver]. rewrite He1. cbn [mbind outcome_bind]. rewrite Hm, Hr2.
    cbn [mbind outcome_bind]. done.
  - intros l n Hl. destruct (Hs1 l n Hl) as (n1 & Hl1 & ? & ? & ?). destruct (Hs2 l n1 Hl1) as (n2 & Hl2 & ? & ? & ?).
    exists n2. split; [done|]. repeat split; congruence.
  - congruence.
Qed.

End List.

(** Lift and unlift.  On a well-formed list in which a call [e] is preceded by
    some node and followed later by its return [m], [lift] returns a heap whose
    list is the old one without [e] and [m], and [unlift] of [e] on that heap
    restores the heap exactly. *)
Theorem unlift_restores {V : Type} (h : heap (V := V)) (A : list nat) (a e : nat) (B : list nat) (m : nat) (C : list nat)
    (nd : node (V := V)) :
  dll h (A ++ a :: e :: B ++ m :: C) → cells h !! e = Some nd → match_ nd = Some m →
  ∃ h', lift (Some e) h = Ret h' ∧ dll h' (A ++ a :: B ++ C) ∧ unlift (Some e) h' = Ret h.
Proof.
  intros Hd He Hm. destruct (lift_spec h A a e B m C nd Hd He Hm) as (h' & Hl & Hd' & Hu & _). by exists h'.
Qed.

(** Two overlapping operations behind a head node. *)
Definition demo_heap : heap (V := Z) :=
  mkHeap {[9%nat := mkNode None None (-1) (Some 0%nat) None;
           0%nat := mkNode (Some 1) (Some 2%nat) 0 (Some 1%nat) (Some 9%nat);
           1%nat := mkNode (Some 2) (Some 3%nat) 1 (Some 2%nat) (Some 0%nat);
           2%nat := mkNode (Some 0) None 0 (Some 3%nat) (Some 1%nat);
           3%nat := mkNode (Some 0) None 1 None (Some 2%nat)]} 10.

Lemma unlift_restores_witness : ∃ h', lift (Some 0%nat) demo_heap = Ret h' ∧ dll h' [9; 1; 3]%nat ∧ unlift (Some 0%nat) h' = Ret demo_heap.
Proof.
  apply (unlift_restores demo_heap [] 9 0 [1]%nat 2 [3]%nat (mkNode (Some 1) (Some 2%nat) 0 (Some 1%nat) (Some 9%nat)));
    [|vm_compute; reflexivity|reflexivity].
  split; [refine (bool_decide_unpack _ _); vm_compute; exact I|].
  repeat (split; [eexists; split; [vm_compute; reflexivity|split; reflexivity]|]). exact I.
Defined.
