(* ===== verification/PorcSound.v ===== *)
(** * Lab2_MapReduce, porcupine: soundness of the search

    If [checkSingle] answers true, the order in which it linearized the calls is a
    linearization of the history: a permutation of the operations that the model
    accepts and that respects the order of non-overlapping operations. *)

From S2P Require Import Prelude PorcBitset PorcChecker PorcList.
Open Scope Z_scope.

Section Link.
Context {V : Type}.
Implicit Types (h : heap (V := V)) (es : list (entry (V := V))) (R : list nat).

(** ** The list [makeLinkedEntries] builds *)

(** The address of the first return of operation [i]. *)
Fixpoint ret_loc (i : Z) es R : option nat :=
  match es, R with
  | e :: es', l :: R' => if decide (kind e = returnEntry ∧ id e = i) then Some l else ret_loc i es' R'
  | _, _ => None
  end.

(** The nodes [R] hold the entries [es]. *)
Fixpoint rep h es R : Prop :=
  match es, R with
  | [], [] => True
  | e :: es', l :: R' =>
      (∃ nd, cells h !! l = Some nd ∧ n_value nd = Some (value e) ∧ n_id nd = id e ∧
         match_ nd = match kind e with returnEntry => None | callEntry => ret_loc (id e) es' R' end) ∧ rep h es' R'
  | _, _ => False
  end.

Definition heap_below h : Prop := ∀ l, is_Some (cells h !! l) → (l < fresh h)%nat.

Lemma seg_dom h p R q l : seg h p R q → l ∈ R → is_Some (cells h !! l).
Proof.
  revert p. induction R as [|x R IH]; intros p; simpl; [intros _ []%not_elem_of_nil|].
  intros [(nd & Hnd & _) Hs] [->|Hin]%elem_of_cons; [by exists nd|]. by eapply IH.
Qed.

Lemma rep_same h h' es R : same_nodes h h' → rep h es R → rep h' es R.
Proof.
  intros Hs. revert R. induction es as [|e es IH]; intros [|l R]; simpl; try done.
  intros [(nd & Hnd & Hv & Hi & Hm) Hr]. split; [|by apply IH]. destruct (Hs l nd Hnd) as (nd' & Hnd' & Hm' & Hi' & Hv').
  exists nd'. repeat split; try done; congruence.
Qed.

(** Adding a node in front of the list. *)
Lemma insert_front h R nd0 : dll h R → heap_below h → next nd0 = None → prev nd0 = None →
  let l := fresh h in
  ∃ h', insertBefore (Some l) (first_or R None) (alloc nd0 h).2 = Ret h' ∧ dll h' (l :: R) ∧ heap_below h' ∧
    fresh h' = S (fresh h) ∧ same_nodes (alloc nd0 h).2 h' ∧ same_nodes h h'.
Proof.
  intros [Hn Hseg] Hb Hnx Hpv l. set (h1 := (alloc nd0 h).2).
  assert (Hl : cells h !! l = None) by (destruct (cells h !! l) eqn:E; [|done]; specialize (Hb l ltac:(by eexists)); unfold l in *; lia).
  assert (HlR : l ∉ R) by (intros Hin; destruct (seg_dom _ _ _ _ _ Hseg Hin); congruence).
  assert (Hb1 : heap_below h1).
  { intros x. unfold h1, alloc. simpl. intros [nd Hx]. apply lookup_insert_Some in Hx as [[<- _]|[_ Hx]]; [lia|].
    specialize (Hb x ltac:(by eexists)). lia. }
  assert (Hsame1 : same_nodes h h1).
  { intros x nd Hx. exists nd. split; [|done]. unfold h1, alloc. simpl. rewrite lookup_insert_ne; [done|]. fold l. intros <-. congruence. }
  destruct R as [|m R]; cbn [first_or insertBefore].
  - exists h1. split; [done|]. split; [|split; [exact Hb1|split; [done|split; [|exact Hsame1]]]].
    + split; [apply NoDup_singleton|]. simpl. split; [|done]. exists nd0. split; [apply lookup_insert_eq|]. done.
    + intros x nd Hx. by exists nd.
  - cbn [seg] in Hseg. destruct Hseg as [(nm & Hm & Hpm & Hnm) Hseg]. assert (Hlm : l ≠ m) by set_solver.
    assert (HmR : m ∉ R) by by apply NoDup_cons in Hn as [? _].
    assert (Hm1 : cells h1 !! m = Some nm) by (unfold h1, alloc; simpl; by rewrite lookup_insert_ne).
    cbn [deref]. rewrite Hm1. cbn [mbind outcome_bind store]. rewrite Hm1. cbn [mbind outcome_bind store cells].
    rewrite lookup_insert_ne by done. unfold h1 at 1, alloc at 1. cbn [cells snd]. rewrite lookup_insert_eq. cbn [mbind outcome_bind].
    rewrite Hpm. eexists. split; [done|].
    split; [|split; [|split; [done|split]]].
    + split; [by constructor|]. cbn [seg first_or]. split; [|split].
      * exists (set_next (Some m) nd0). cbn [cells]. fold l. by rewrite lookup_insert_eq.
      * exists (set_prev (Some l) nm). cbn [cells]. fold l. by rewrite lookup_insert_ne, lookup_insert_eq.
      * eapply seg_frame; [|exact Hseg]. intros x Hx. cbn [cells]. fold l. rewrite !lookup_insert_ne; [|intros <-; set_solver..].
        unfold h1, alloc. simpl. fold l. rewrite lookup_insert_ne; [done|]. intros <-. set_solver.
    + intros x. cbn [cells fresh]. intros [nd Hx]. apply lookup_insert_Some in Hx as [[<- _]|[_ Hx]]; [unfold h1, alloc; simpl; lia|].
      apply lookup_insert_Some in Hx as [[<- _]|[_ Hx]]; [apply Hb1; by eexists|]. apply Hb1. by eexists.
    + intros x nd Hx. cbn [cells]. fold l. destruct (decide (l = x)) as [<-|]; [rewrite lookup_insert_eq|].
      * unfold h1, alloc in Hx. simpl in Hx. fold l in Hx. rewrite lookup_insert_eq in Hx. injection Hx as <-. by eexists.
      * rewrite lookup_insert_ne by done. destruct (decide (m = x)) as [<-|]; [|rewrite lookup_insert_ne by done; eauto].
        rewrite lookup_insert_eq. assert (nd = nm) as -> by congruence. by eexists.
    + intros x nd Hx. cbn [cells]. fold l. destruct (decide (l = x)) as [<-|]; [congruence|]. rewrite lookup_insert_ne by done.
      destruct (decide (m = x)) as [<-|]; [rewrite lookup_insert_eq; assert (nd = nm) as -> by congruence; by eexists|].
      rewrite lookup_insert_ne by done. destruct (Hsame1 x nd Hx) as (nd' & Hx' & ?). by exists nd'.
Qed.

Lemma link_loop_spec rev es R m h : dll h R → rep h es R → heap_below h → (∀ i, m !! i = ret_loc i es R) →
  ∃ root h' R', link_loop rev (first_or R None) m h = Ret (root, h') ∧ root = first_or R' None ∧
    dll h' R' ∧ rep h' (reverse rev ++ es) R' ∧ heap_below h'.
Proof.
  revert es R m h. induction rev as [|e rev IH]; intros es R m h Hd Hr Hb Hm; cbn [link_loop].
  - exists (first_or R None), h, R. by rewrite reverse_nil.
  - set (nd0 := mkNode (Some (value e)) (match kind e with returnEntry => None | callEntry => m !! id e end) (id e) None None).
    destruct (insert_front h R nd0 Hd Hb eq_refl eq_refl) as (h' & Hi & Hd' & Hb' & Hf' & Hs1 & Hs2).
    assert (Hr' : rep h' (e :: es) (fresh h :: R)).
    { cbn [rep]. split; [|by apply (rep_same h)]. destruct (Hs1 (fresh h) nd0) as (nd' & Hnd' & Hm' & Hi' & Hv'); [apply lookup_insert_eq|].
      exists nd'. repeat split; [done..|]. rewrite Hm'. simpl. destruct (kind e); [apply Hm|done]. }
    rewrite reverse_cons, <-app_assoc. cbn [app].
    assert (Hm' : ∀ i, (match kind e with returnEntry => <[id e := fresh h]> m | callEntry => m end) !! i = ret_loc i (e :: es) (fresh h :: R)).
    { intros i. cbn [ret_loc]. destruct (kind e).
      - rewrite decide_False by naive_solver. apply Hm.
      - rewrite lookup_insert. repeat case_decide; naive_solver. }
    destruct (IH (e :: es) (fresh h :: R) _ h' Hd' Hr' Hb' Hm') as (root & h2 & R2 & Hl & Hroot & Hrest).
    exists root, h2, R2. split; [|done]. unfold alloc in Hi. unfold alloc. destruct (kind e); cbn [snd] in Hi; subst nd0; cbn [snd] in *;
      rewrite Hi; exact Hl.
Qed.

Lemma makeLinkedEntries_spec es : ∃ root h R, makeLinkedEntries es = Ret (root, h) ∧ root = first_or R None ∧
  dll h R ∧ rep h es R ∧ heap_below h.
Proof.
  destruct (link_loop_spec (reverse es) [] [] ∅ empty_heap) as (root & h & R & Hl & Hroot & Hd & Hr & Hb).
  - split; [constructor|done].
  - done.
  - intros l [nd Hl]. done.
  - done.
  - rewrite reverse_involutive, app_nil_r in Hr. by exists root, h, R.
Qed.

End Link.

(** ** Order in a list *)

Lemma sublist_drop_mid {A : Type} (l P Q : list A) x : l `sublist_of` P ++ x :: Q → x ∉ l → l `sublist_of` P ++ Q.
Proof.
  intros Hs Hx. apply sublist_app_r in Hs as (l1 & l2 & -> & H1 & H2). apply sublist_app; [done|].
  apply sublist_cons_r in H2 as [H2|(l2' & -> & H2)]; [done|]. set_solver.
Qed.

(** [x] occurs before [y] in a list without duplicates. *)
Lemma sublist_pair_lookup {A : Type} (l : list A) x y : [x; y] `sublist_of` l ↔ ∃ i j, (i < j)%nat ∧ l !! i = Some x ∧ l !! j = Some y.
Proof.
  split.
  - induction l as [|z l IH]; [by intros ?%sublist_nil_r|]. intros [Hs|(l' & [= <- <-] & Hs)]%sublist_cons_r.
    + destruct (IH Hs) as (i & j & ? & ? & ?). exists (S i), (S j). split; [lia|done].
    + apply singleton_sublist_l in Hs. apply list_elem_of_lookup in Hs as [j Hj]. exists 0%nat, (S j). split; [lia|done].
  - intros (i & j & Hij & Hi & Hj). rewrite <-(take_drop (S i) l). apply (sublist_app [x] _ [y]); apply singleton_sublist_l.
    + apply (list_elem_of_lookup_2 _ i). by rewrite lookup_take_lt by lia.
    + apply (list_elem_of_lookup_2 _ (j - S i)). rewrite lookup_drop. by replace (S i + (j - S i))%nat with j by lia.
Qed.

Lemma NoDup_pair_asym {A : Type} (l : list A) x y : NoDup l → [x; y] `sublist_of` l → [y; x] `sublist_of` l → False.
Proof.
  intros Hn (i & j & Hij & Hi & Hj)%sublist_pair_lookup (i' & j' & Hij' & Hi' & Hj')%sublist_pair_lookup.
  assert (i = j') by by eapply NoDup_lookup. assert (j = i') by by eapply NoDup_lookup. lia.
Qed.

Lemma filter_all {A : Type} (P : A → Prop) `{∀ x, Decision (P x)} l : Forall P l → filter P l = l.
Proof. induction 1 as [|x l Hx _ IH]; [done|]. by rewrite filter_cons_True, IH. Qed.

Lemma filter_none {A : Type} (P : A → Prop) `{∀ x, Decision (P x)} l : Forall (λ x, ¬ P x) l → filter P l = [].
Proof. induction 1 as [|x l Hx _ IH]; [done|]. by rewrite filter_cons_False. Qed.

Lemma filter_iff_in {A : Type} (P Q : A → Prop) `{∀ x, Decision (P x), ∀ x, Decision (Q x)} (l : list A) :
  (∀ x, x ∈ l → P x ↔ Q x) → filter P l = filter Q l.
Proof.
  induction l as [|x l IH]; intros Hiff; [done|]. rewrite !filter_cons, IH by (intros y Hy; apply Hiff; by right).
  specialize (Hiff x ltac:(by left)). destruct (decide (P x)), (decide (Q x)); tauto.
Qed.

(** ** Histories and their linearizations *)

Section Spec.
Context {V State : Type}.

(** Every call is answered later; an operation has one call and one return. *)
Definition wf_history (es : list (entry (V := V))) : Prop :=
  (∀ i e, es !! i = Some e → kind e = callEntry →
     ∃ j r, (i < j)%nat ∧ es !! j = Some r ∧ kind r = returnEntry ∧ id r = id e) ∧
  (∀ i j e e', es !! i = Some e → es !! j = Some e' → kind e = kind e' → id e = id e' → i = j).

(** The ids of the operations. *)
Definition operations (es : list (entry (V := V))) : list Z :=
  map id (filter (λ e, kind e = callEntry) es).

(** The model accepts the operations [ids] one after the other from [st]. *)
Fixpoint accepted (model : Model (V := V) (State := State)) (es : list (entry (V := V))) (st : State) (ids : list Z) : Prop :=
  match ids with
  | [] => True
  | i :: ids' => ∃ c r st', c ∈ es ∧ r ∈ es ∧ kind c = callEntry ∧ kind r = returnEntry ∧ id c = i ∧ id r = i ∧
      Step model st (value c) (value r) = Ret (true, st') ∧ accepted model es st' ids'
  end.

(** Operation [i] returned before operation [j] was called. *)
Definition precedes (es : list (entry (V := V))) (i j : Z) : Prop :=
  ∃ r c, [r; c] `sublist_of` es ∧ kind r = returnEntry ∧ id r = i ∧ kind c = callEntry ∧ id c = j.

Definition linearization (model : Model (V := V) (State := State)) (es : list (entry (V := V))) (ids : list Z) : Prop :=
  ids ≡ₚ operations es ∧ accepted model es (Init model) ids ∧
  ∀ i j, [i; j] `sublist_of` ids → ¬ precedes es j i.
End Spec.

Section Link2.
Context {V : Type}.
Implicit Types (h : heap (V := V)) (es : list (entry (V := V))) (R : list nat).

Lemma ret_loc_spec i es R l : ret_loc i es R = Some l → ∃ k e, es !! k = Some e ∧ R !! k = Some l ∧ kind e = returnEntry ∧ id e = i.
Proof.
  revert R. induction es as [|e es IH]; intros [|x R]; simpl; try done. case_decide as Hd.
  - intros [= ->]. exists 0%nat, e. by destruct Hd.
  - intros H. destruct (IH R H) as (k & e' & ?). by exists (S k), e'.
Qed.

Lemma ret_loc_exists i es R k e : length R = length es → es !! k = Some e → kind e = returnEntry → id e = i →
  is_Some (ret_loc i es R).
Proof.
  revert R k. induction es as [|e' es IH]; intros [|x R] k Hl Hk Hr Hi; simpl in *; try done.
  case_decide as Hd; [done|]. destruct k as [|k]; simpl in Hk; [injection Hk as ->; tauto|]. apply (IH R k); [lia|done..].
Qed.

(** What a node of the list says about the entry at its position. *)
Definition node_of h es R (i : nat) (l : nat) : Prop :=
  ∃ e nd, es !! i = Some e ∧ cells h !! l = Some nd ∧ n_value nd = Some (value e) ∧ n_id nd = id e ∧
    match kind e with
    | returnEntry => match_ nd = None
    | callEntry => ∃ j r m, (i < j)%nat ∧ es !! j = Some r ∧ kind r = returnEntry ∧ id r = id e ∧ R !! j = Some m ∧ match_ nd = Some m
    end.

Lemma rep_length h es R : rep h es R → length R = length es.
Proof. revert R. induction es as [|e es IH]; intros [|l R]; simpl; try done. intros [_ Hr]. f_equal. by apply IH. Qed.

Lemma rep_lookup h es R i l : rep h es R → R !! i = Some l → ∃ e nd, es !! i = Some e ∧ cells h !! l = Some nd ∧
  n_value nd = Some (value e) ∧ n_id nd = id e ∧
  match_ nd = match kind e with returnEntry => None | callEntry => ret_loc (id e) (drop (S i) es) (drop (S i) R) end.
Proof.
  revert R i. induction es as [|e es IH]; intros [|x R] i; simpl; try done. intros [(nd & Hnd) Hr] Hi.
  destruct i as [|i]; simpl in Hi; [|by apply IH]. injection Hi as ->. by exists e, nd.
Qed.

Lemma rep_node_of h es R : wf_history es → rep h es R → ∀ i l, R !! i = Some l → node_of h es R i l.
Proof.
  intros [Hret _] Hrep i l Hi. destruct (rep_lookup h es R i l Hrep Hi) as (e & nd & He & Hnd & Hv & Hid & Hm).
  exists e, nd. repeat (split; [done|]). destruct (kind e) eqn:Hk; [|done].
  destruct (Hret i e He Hk) as (j & r & Hij & Hj & Hkr & Hir). pose proof (rep_length h es R Hrep) as Hlen.
  destruct (ret_loc_exists (id e) (drop (S i) es) (drop (S i) R) (j - S i) r) as [m Hrl]; try done.
  - rewrite !length_drop. lia.
  - rewrite lookup_drop. by replace (S i + (j - S i))%nat with j by lia.
  - destruct (ret_loc_spec _ _ _ _ Hrl) as (k & r' & Hk1 & Hk2 & Hk3 & Hk4). rewrite lookup_drop in Hk1. rewrite lookup_drop in Hk2.
    exists (S i + k)%nat, r', m. split; [lia|]. repeat (split; [done|]). by rewrite Hm.
Qed.
End Link2.

(** ** The search *)

Section Search.
Context {V State : Type}.
Context (model : Model (V := V) (State := State)) (es : list (entry (V := V))).
Context (head : nat) (h0 : heap (V := V)) (R0 : list nat).
Context (Hwf : wf_history es) (Hdll0 : dll h0 (head :: R0)).
Context (Hnodes : ∀ i l, R0 !! i = Some l → node_of h0 es R0 i l).

(** The return node of a call node, and whether a node is a call. *)
Definition mt (l : nat) : option nat := cells h0 !! l ≫= match_.
Definition is_call (l : nat) : Prop := mt l ≠ None.

Lemma R0_nodup : NoDup R0.
Proof. destruct Hdll0 as [Hn _]. by apply NoDup_cons in Hn as [_ ?]. Qed.

Lemma mt_after e m : e ∈ R0 → mt e = Some m → [e; m] `sublist_of` R0 ∧ mt m = None.
Proof.
  intros [i Hi]%list_elem_of_lookup Hm. destruct (Hnodes i e Hi) as (c & nd & Hc & Hnd & _ & _ & Hk).
  unfold mt in *. rewrite Hnd in Hm. simpl in Hm. destruct (kind c); [|congruence].
  destruct Hk as (j & r & m' & Hij & Hj & Hkr & _ & HRj & Hm'). assert (m' = m) as -> by congruence.
  split; [apply sublist_pair_lookup; eauto|]. destruct (Hnodes j m HRj) as (r' & nd' & Hr' & Hnd' & _ & _ & Hk').
  rewrite Hnd'. simpl. assert (r' = r) as -> by congruence. rewrite Hkr in Hk'. done.
Qed.

Lemma mt_inj e e' m : e ∈ R0 → e' ∈ R0 → mt e = Some m → mt e' = Some m → e = e'.
Proof.
  intros [i Hi]%list_elem_of_lookup [i' Hi']%list_elem_of_lookup Hm Hm'.
  destruct (Hnodes i e Hi) as (c & nd & Hc & Hnd & _ & _ & Hk). destruct (Hnodes i' e' Hi') as (c' & nd' & Hc' & Hnd' & _ & _ & Hk').
  unfold mt in *. rewrite Hnd in Hm. rewrite Hnd' in Hm'. simpl in *.
  destruct (kind c) eqn:Hkc; [|congruence]. destruct (kind c') eqn:Hkc'; [|congruence].
  destruct Hk as (j & r & m1 & _ & Hj & _ & Hid & HRj & Hm1). destruct Hk' as (j' & r' & m2 & _ & Hj' & _ & Hid' & HRj' & Hm2).
  assert (j = j') as <-. { eapply (NoDup_lookup R0); [apply R0_nodup|exact HRj|]. congruence. }
  assert (i = i') as <-; [|congruence]. destruct Hwf as [_ Hu]. apply (Hu i i' c c'); congruence.
Qed.

(** The operations linearized so far: from the whole list, each step lifts a call
    that only calls precede. *)
Inductive path : heap → State → list (callsEntry (State := State)) → list nat → Prop :=
| path_nil : path h0 (Init model) [] R0
| path_push h st cs P e B m C h' st' nd ndm v w :
    path h st cs (P ++ e :: B ++ m :: C) → Forall is_call P →
    cells h0 !! e = Some nd → match_ nd = Some m → cells h0 !! m = Some ndm → n_value nd = Some v → n_value ndm = Some w →
    Step model st v w = Ret (true, st') →
    lift (Some e) h = Ret h' → unlift (Some e) h' = Ret h → dll h' (head :: P ++ B ++ C) → same_nodes h h' →
    path h' st' (cs ++ [mkCallsEntry e st]) (P ++ B ++ C).

Lemma path_heap h st cs R : path h st cs R → dll h (head :: R) ∧ same_nodes h0 h.
Proof.
  intros Hp. induction Hp as [|h st cs P e B m C h' st' nd ndm v w Hp IH HP He Hm Hndm Hv Hw Hst Hl Hu Hd Hs]; [split; [done|by intros l nd Hl; exists nd]|].
  split; [done|]. destruct IH as [_ IH]. intros l n Hn. destruct (IH l n Hn) as (n1 & Hn1 & ? & ? & ?).
  destruct (Hs l n1 Hn1) as (n2 & Hn2 & ? & ? & ?). exists n2. split; [done|]. repeat split; congruence.
Qed.

Lemma mid_sublist {A : Type} (P B C : list A) e m : (P ++ B ++ C) `sublist_of` (P ++ e :: B ++ m :: C).
Proof. apply sublist_app; [done|]. apply sublist_cons. apply sublist_app; [done|]. by apply sublist_cons. Qed.

Lemma path_sublist h st cs R : path h st cs R → R `sublist_of` R0.
Proof.
  intros Hp. induction Hp as [|h st cs P e B m C h' st' nd ndm v w Hp IH]; [done|]. etrans; [apply mid_sublist|exact IH].
Qed.

(** A call that is still in the list has its return in the list, later. *)
Lemma path_paired h st cs R e m : path h st cs R → e ∈ R → mt e = Some m → [e; m] `sublist_of` R.
Proof.
  intros Hp. revert e m. induction Hp as [|h st cs P e B m C h' st' nd ndm v w Hp IH HP He Hm]; intros x mx Hx Hmx; [by apply mt_after|].
  assert (Hme : mt e = Some m) by (unfold mt; by rewrite He). pose proof (path_sublist _ _ _ _ Hp) as Hsub.
  assert (HeR : e ∈ R0) by (eapply elem_of_submseteq; [|apply sublist_submseteq, Hsub]; set_solver).
  assert (HxR : x ∈ R0) by (eapply elem_of_submseteq; [|apply sublist_submseteq, Hsub]; set_solver).
  assert (Hn : NoDup (P ++ e :: B ++ m :: C)) by (eapply sublist_NoDup; [apply R0_nodup|done]).
  assert (Hne : e ∉ P ++ B ++ C ∧ m ∉ P ++ B ++ C).
  { apply NoDup_app in Hn as (_ & Hn1 & Hn2). apply NoDup_cons in Hn2 as [Hn2 Hn3]. apply NoDup_app in Hn3 as (_ & Hn4 & Hn5).
    apply NoDup_cons in Hn5 as [Hn5 _]. set_solver. }
  assert (Hxe : x ≠ e ∧ x ≠ m) by (split; intros ->; by destruct Hne).
  assert (Hmxe : mx ≠ e ∧ mx ≠ m).
  { split; intros ->; [destruct (mt_after x e HxR Hmx); congruence|]. by apply (proj1 Hxe), (mt_inj x e m). }
  specialize (IH x mx ltac:(set_solver) Hmx). apply sublist_drop_mid in IH; [|set_solver]. rewrite app_assoc in IH.
  apply sublist_drop_mid in IH; [|set_solver]. by rewrite <-app_assoc in IH.
Qed.

(** The nodes taken out are the calls in [cs] and their returns. *)
Lemma path_perm h st cs R : path h st cs R →
  R0 ≡ₚ R ++ map c_entry cs ++ omap mt (map c_entry cs) ∧ Forall is_call (map c_entry cs).
Proof.
  intros Hp. induction Hp as [|h st cs P e B m C h' st' nd ndm v w Hp IH HP He Hm]; [simpl; by rewrite app_nil_r|].
  destruct IH as [IH Hc]. assert (Hme : mt e = Some m) by (unfold mt; by rewrite He). rewrite map_app, omap_app. simpl. rewrite Hme. split.
  - rewrite IH. solve_Permutation.
  - apply Forall_app. split; [done|]. constructor; [|done]. unfold is_call. congruence.
Qed.

(** A later operation did not return before an earlier one was called. *)
Lemma path_order h st cs R : path h st cs R →
  (∀ c r x, c ∈ map c_entry cs → x ∈ R → mt x = Some r → ¬ [r; c] `sublist_of` R0) ∧
  (∀ c x r, [c; x] `sublist_of` map c_entry cs → mt x = Some r → ¬ [r; c] `sublist_of` R0).
Proof.
  intros Hp. induction Hp as [|h st cs P e B m C h' st' nd ndm v w Hp IH HP He Hm]; [split; [by intros ? ? ? ?%not_elem_of_nil|by intros ? ? ? ?%sublist_nil_r]|].
  destruct IH as [IH1 IH2]. assert (Hme : mt e = Some m) by (unfold mt; by rewrite He). rewrite map_app. simpl.
  pose proof (path_sublist _ _ _ _ Hp) as Hsub. split.
  - intros c r x [Hc|Hc]%elem_of_app Hx Hr; [apply (IH1 c r x); [done|set_solver|done]|]. apply list_elem_of_singleton in Hc as ->.
    assert (HxR : x ∈ P ++ e :: B ++ m :: C) by set_solver. intros Hbad.
    pose proof (path_paired _ _ _ _ _ _ Hp HxR Hr) as Hpair. apply (NoDup_pair_asym R0 r e R0_nodup Hbad). etrans; [|exact Hsub].
    assert (Hrr : mt r = None) by (eapply mt_after; [eapply elem_of_submseteq; [|apply sublist_submseteq, Hsub]; exact HxR|done]).
    assert (HrP : r ∉ P) by (intros Hin; rewrite Forall_forall in HP; by apply (HP r Hin)).
    assert (Hre : r ≠ e) by congruence. assert (HrR : r ∈ P ++ e :: B ++ m :: C).
    { eapply elem_of_submseteq; [|apply sublist_submseteq, Hpair]. set_solver. }
    apply sublist_inserts_l. apply sublist_skip. apply singleton_sublist_l. set_solver.
  - intros c x r Hcx Hr. apply sublist_app_r in Hcx as (l1 & l2 & Heq & Hl1 & Hl2).
    apply sublist_cons_r in Hl2 as [Hl2|(l2' & -> & Hl2)].
    + apply sublist_nil_r in Hl2 as ->. rewrite app_nil_r in Heq. subst l1. by eapply IH2.
    + apply sublist_nil_r in Hl2 as ->. destruct l1 as [|a [|b l1]]; simplify_eq/=; [|by destruct l1].
      eapply (IH1 _ _ e); [by apply singleton_sublist_l|set_solver|exact Hme].
Qed.

(** The entries the calls and their returns hold. *)
Lemma call_entry e m nd ndm v w : e ∈ R0 → cells h0 !! e = Some nd → match_ nd = Some m → cells h0 !! m = Some ndm →
  n_value nd = Some v → n_value ndm = Some w →
  ∃ c r, c ∈ es ∧ r ∈ es ∧ kind c = callEntry ∧ kind r = returnEntry ∧ id c = n_id nd ∧ id r = n_id nd ∧ value c = v ∧ value r = w.
Proof.
  intros [i Hi]%list_elem_of_lookup Hnd Hm Hndm Hv Hw. destruct (Hnodes i e Hi) as (c & nd' & Hc & Hnd' & Hv' & Hid & Hk).
  assert (nd' = nd) as -> by congruence. destruct (kind c) eqn:Hkc; [|congruence].
  destruct Hk as (j & r & m' & _ & Hj & Hkr & Hidr & HRj & Hm'). assert (m' = m) as -> by congruence.
  destruct (Hnodes j m HRj) as (r' & nd'' & Hr' & Hnd'' & Hvr & _). assert (r' = r) as -> by congruence.
  assert (nd'' = ndm) as -> by congruence. exists c, r. split; [by eapply list_elem_of_lookup_2|].
  split; [by eapply list_elem_of_lookup_2|]. repeat split; congruence.
Qed.

Definition node_id (l : nat) : Z := match cells h0 !! l with Some nd => n_id nd | None => 0 end.

(** The state is the one the model reaches through the linearized operations. *)
Lemma path_accepted h st cs R ids : path h st cs R → accepted model es st ids →
  accepted model es (Init model) (map (λ c, node_id (c_entry c)) cs ++ ids).
Proof.
  intros Hp. revert ids. induction Hp as [|h st cs P e B m C h' st' nd ndm v w Hp IH HP He Hm Hndm Hv Hw Hst]; intros ids Hids; [done|].
  rewrite map_app, <-app_assoc. apply IH. pose proof (path_sublist _ _ _ _ Hp) as Hsub.
  destruct (call_entry e m nd ndm v w) as (c & r & Hc & Hr & Hkc & Hkr & Hic & Hir & Hvc & Hvr); try done.
  { eapply elem_of_submseteq; [|apply sublist_submseteq, Hsub]. set_solver. }
  simpl. exists c, r, st'. unfold node_id. rewrite He. repeat (split; [done|]). split; [congruence|done].
Qed.

(** ** The end of the search *)

#[local] Instance is_call_dec l : Decision (is_call l).
Proof. unfold is_call. apply _. Defined.

Lemma operations_perm : length R0 = length es → map node_id (filter is_call R0) = operations es.
Proof.
  intros Hlen. assert (HF : Forall2 (λ l e, node_id l = id e ∧ (is_call l ↔ kind e = callEntry)) R0 es).
  { apply Forall2_same_length_lookup. split; [done|]. intros i l e Hl He. destruct (Hnodes i l Hl) as (e' & nd & He' & Hnd & _ & Hid & Hk).
    assert (e' = e) as -> by congruence. unfold node_id, is_call, mt. rewrite Hnd. simpl. split; [done|].
    destruct (kind e); [|by rewrite Hk]. destruct Hk as (j & r & m & _ & _ & _ & _ & _ & ->). done. }
  clear -HF. unfold operations. induction HF as [|l e R es' [Hid Hk] HF IH]; [done|]. rewrite !filter_cons.
  destruct (decide (is_call l)), (decide (kind e = callEntry)); simpl; [f_equal; done|tauto|tauto|done].
Qed.

(** The position of a call node and of its return. *)
Lemma call_position c : c ∈ R0 → is_call c → ∃ i e j r m, R0 !! i = Some c ∧ es !! i = Some e ∧ kind e = callEntry ∧ id e = node_id c ∧
  mt c = Some m ∧ R0 !! j = Some m ∧ es !! j = Some r ∧ kind r = returnEntry ∧ id r = node_id c.
Proof.
  intros [i Hi]%list_elem_of_lookup Hc. destruct (Hnodes i c Hi) as (e & nd & He & Hnd & _ & Hid & Hk).
  unfold is_call, node_id, mt in *. rewrite Hnd in *. simpl in *. destruct (kind e) eqn:Hke; [|done].
  destruct Hk as (j & r & m & _ & Hj & Hkr & Hir & HRj & Hm). exists i, e, j, r, m. repeat split; congruence.
Qed.

Lemma precedes_nodes c x r : c ∈ R0 → x ∈ R0 → is_call c → mt x = Some r → precedes es (node_id x) (node_id c) → [r; c] `sublist_of` R0.
Proof.
  intros Hc Hx Hcc Hr (er & ec & Hs & Hkr & Hir & Hkc & Hic). apply sublist_pair_lookup in Hs as (a & b & Hab & Ha & Hb).
  destruct (call_position c Hc Hcc) as (i & e & _ & _ & _ & Hi & He & Hke & Hide & _).
  destruct (call_position x Hx) as (_ & _ & j & r' & m & _ & _ & _ & _ & Hm & Hj & Hr' & Hkr' & Hidr'); [unfold is_call; congruence|].
  assert (m = r) as -> by congruence. destruct Hwf as [_ Hu]. apply sublist_pair_lookup. exists j, i.
  assert (a = j) as <- by (apply (Hu a j er r'); congruence). assert (b = i) as <- by (apply (Hu b i ec e); congruence). done.
Qed.

Lemma path_linearization h st cs : length R0 = length es → path h st cs [] →
  linearization model es (map (λ c, node_id (c_entry c)) cs).
Proof.
  intros Hlen Hp. destruct (path_perm _ _ _ _ Hp) as [Hperm Hcalls]. simpl in Hperm. destruct (path_order _ _ _ _ Hp) as [_ Hord].
  assert (Hin : ∀ c, c ∈ map c_entry cs → c ∈ R0) by (intros c Hc; rewrite Hperm; set_solver).
  rewrite <-(map_map c_entry node_id). split; [|split].
  - rewrite <-(operations_perm Hlen). apply Permutation_map. rewrite Hperm, filter_app.
    rewrite (filter_all _ (map c_entry cs)) by done.
    rewrite (filter_none _ (omap mt _)); [by rewrite app_nil_r|]. apply Forall_forall. intros m (c & Hc & Hm)%list_elem_of_omap Hcall.
    destruct (mt_after c m (Hin c Hc) Hm) as [_ ?]. done.
  - rewrite <-(app_nil_r (map _ _)), map_map. by eapply path_accepted.
  - intros i j (a & b & Hab & Ha & Hb)%sublist_pair_lookup Hpre.
    rewrite list_lookup_fmap in Ha, Hb. apply fmap_Some in Ha as (c & Ha & ->). apply fmap_Some in Hb as (x & Hb & ->).
    assert (Hcall : ∀ k y, map c_entry cs !! k = Some y → y ∈ R0 ∧ is_call y).
    { intros k y Hk. split; [by eapply Hin, list_elem_of_lookup_2|]. by eapply (Forall_lookup_1 _ _ _ _ Hcalls). }
    destruct (mt x) as [r|] eqn:Hr; [|by destruct (Hcall b x Hb)].
    apply (Hord c x r); [apply sublist_pair_lookup; eauto|done|]. apply (precedes_nodes c x r); [by eapply Hcall..|done|done].
Qed.

(** ** The loop *)

Definition search_inv (s : search (V := V) (State := State)) : Prop :=
  ∃ P Q, path (s_heap s) (s_state s) (calls s) (P ++ Q) ∧ Forall is_call P ∧ s_entry s = first_or Q None.

Lemma dll_next (h : heap (V := V)) A e B nd : dll h (A ++ e :: B) → cells h !! e = Some nd → next nd = first_or B None.
Proof. intros [_ Hs] He. apply seg_app in Hs as [_ Hs]. destruct Hs as [(nd' & He' & _ & Hn) _]. congruence. Qed.

Lemma path_node h st cs R e nd : path h st cs R → e ∈ R0 → cells h !! e = Some nd →
  ∃ nd0, cells h0 !! e = Some nd0 ∧ match_ nd0 = match_ nd ∧ n_id nd0 = n_id nd ∧ n_value nd0 = n_value nd.
Proof.
  intros Hp [i Hi]%list_elem_of_lookup He. destruct (Hnodes i e Hi) as (_ & nd0 & _ & Hnd0 & _). destruct (path_heap _ _ _ _ Hp) as [_ Hs].
  destruct (Hs e nd0 Hnd0) as (nd' & He' & ? & ? & ?). exists nd0. split; [done|]. repeat split; congruence.
Qed.

Lemma path_in h st cs P e Q : path h st cs (P ++ e :: Q) → e ∈ R0.
Proof. intros Hp%path_sublist. eapply elem_of_submseteq; [|apply sublist_submseteq, Hp]. set_solver. Qed.

Lemma path_pop h st cs R t : path h st cs R → last cs = Some t →
  ∃ h1 P Q, path h1 (c_state t) (removelast cs) (P ++ c_entry t :: Q) ∧ Forall is_call (P ++ [c_entry t]) ∧ unlift (Some (c_entry t)) h = Ret h1.
Proof.
  intros Hp Hl. destruct Hp as [|h st cs P e B m C h' st' nd ndm v w Hp HP He Hm Hndm Hv Hw Hst Hlift Hu]; [done|].
  rewrite last_snoc in Hl. injection Hl as <-. rewrite removelast_last. exists h, P, (B ++ m :: C)%list. split; [done|]. split; [|done].
  apply Forall_app. split; [done|]. constructor; [|done]. unfold is_call, mt. cbn [c_entry]. rewrite He. simpl. congruence.
Qed.

Lemma note_longest_keeps (s s' : search (V := V) (State := State)) : note_longest s = Ret s' →
  s_heap s' = s_heap s ∧ s_entry s' = s_entry s ∧ calls s' = calls s ∧ s_state s' = s_state s ∧
  linearized s' = linearized s ∧ cache s' = cache s.
Proof. unfold note_longest. intros H. go_inv. done. Qed.

(** Lifting the call the search looks at. *)
Lemma path_lift h st cs P e Q nd ndm m v w st' : path h st cs (P ++ e :: Q) → Forall is_call P →
  cells h !! e = Some nd → match_ nd = Some m → cells h !! m = Some ndm → n_value nd = Some v → n_value ndm = Some w →
  Step model st v w = Ret (true, st') →
  ∃ h' R, lift (Some e) h = Ret h' ∧ path h' st' (cs ++ [mkCallsEntry e st]) R.
Proof.
  intros Hp HP He Hm Hndm Hv Hw Hst. pose proof (path_in _ _ _ _ _ _ Hp) as HeR.
  destruct (path_node _ _ _ _ _ _ Hp HeR He) as (nd0 & He0 & Hm0 & _ & Hv0).
  assert (Hmt : mt e = Some m) by (unfold mt; rewrite He0; simpl; congruence).
  destruct (mt_after e m HeR Hmt) as [HemR _]. assert (HmR : m ∈ R0) by (eapply elem_of_submseteq; [|apply sublist_submseteq, HemR]; set_solver).
  destruct (path_node _ _ _ _ _ _ Hp HmR Hndm) as (ndm0 & Hndm0 & _ & _ & Hw0).
  assert (Hn : NoDup (P ++ e :: Q)) by (eapply sublist_NoDup; [apply R0_nodup|by eapply path_sublist]).
  assert (HmQ : m ∈ Q).
  { pose proof (path_paired _ _ _ _ e m Hp ltac:(set_solver) Hmt) as Hem. apply sublist_app_r in Hem as (l1 & l2 & Heq & H1 & H2).
    apply NoDup_app in Hn as (_ & HPe & _). destruct l1 as [|x l1]; simplify_eq/=.
    - apply sublist_cons_r in H2 as [H2|(l' & [= <-] & H2)]; [|by apply singleton_sublist_l].
      eapply elem_of_submseteq; [|apply sublist_submseteq, H2]. set_solver.
    - exfalso. apply (HPe x); [|by left]. eapply elem_of_submseteq; [|apply sublist_submseteq, H1]. by left. }
  apply list_elem_of_split in HmQ as (B & C & ->). destruct (exists_last (l := head :: P)) as (A & a & HA); [done|].
  destruct (path_heap _ _ _ _ Hp) as [Hd _].
  assert (HdA : dll h (A ++ a :: e :: B ++ m :: C)).
  { replace (A ++ a :: e :: B ++ m :: C)%list with ((A ++ [a]) ++ e :: B ++ m :: C)%list by by rewrite <-app_assoc. by rewrite <-HA. }
  destruct (lift_spec h A a e B m C nd HdA He Hm) as (h' & Hl & Hd' & Hu & Hs & _). exists h', (P ++ B ++ C)%list. split; [done|].
  eapply path_push; try done; [congruence..|].
  replace (head :: P ++ B ++ C)%list with ((head :: P) ++ B ++ C)%list by done. by rewrite HA, <-app_assoc.
Qed.

Lemma deref_Ret (p : option nat) (h : heap (V := V)) nd : deref p h = Ret nd → ∃ l, p = Some l ∧ cells h !! l = Some nd.
Proof. unfold deref. destruct p as [l|]; [|done]. destruct (cells h !! l) eqn:E; [|done]. intros [= ->]. by exists l. Qed.

(** The search passes over a call. *)
Lemma inv_skip s s' e nd m : search_inv s → s_entry s = Some e → cells (s_heap s) !! e = Some nd → match_ nd = Some m →
  s_heap s' = s_heap s → s_state s' = s_state s → calls s' = calls s → s_entry s' = next nd → search_inv s'.
Proof.
  intros (P & Q & Hp & HP & He) Hse Hnd Hm Hh Hst Hc Hn. rewrite He in Hse. destruct Q as [|x Q]; [done|]. simpl in Hse.
  injection Hse as ->. exists (P ++ [e])%list, Q. rewrite Hh, Hst, Hc, <-app_assoc. split; [done|]. split.
  - apply Forall_app. split; [done|]. constructor; [|done].
    destruct (path_node _ _ _ _ _ _ Hp (path_in _ _ _ _ _ _ Hp) Hnd) as (nd0 & He0 & Hm0 & _). unfold is_call, mt. rewrite He0. simpl. congruence.
  - rewrite Hn. destruct (path_heap _ _ _ _ Hp) as [Hd _]. by apply (dll_next _ (head :: P) e Q nd Hd).
Qed.

Lemma check_iter_inv computePartial s s' : search_inv s → check_iter model computePartial s head = Ret (inr s') → search_inv s'.
Proof.
  intros Hinv H. unfold check_iter in H. apply bind_Ret_inv in H as (nd & Hd & H). apply deref_Ret in Hd as (e & Hse & Hnd).
  destruct (match_ nd) as [m|] eqn:Hm.
  - apply bind_Ret_inv in H as (ndm & Hdm & H). apply deref_Ret in Hdm as (? & [= <-] & Hndm).
    destruct (n_value nd) as [v|] eqn:Hv; [|done]. destruct (n_value ndm) as [w|] eqn:Hw; [|done].
    apply bind_Ret_inv in H as ([ok newState] & Hst & H). destruct ok; [|injection H as <-; by eapply inv_skip].
    apply bind_Ret_inv in H as (nl & _ & H). destruct (negb _); [|injection H as <-; by eapply inv_skip].
    apply bind_Ret_inv in H as (lin' & _ & H). rewrite Hse in H. destruct Hinv as (P & Q & Hp & HP & He). rewrite He in Hse.
    destruct Q as [|x Q]; [done|]. simpl in Hse. injection Hse as ->.
    destruct (path_lift _ _ _ _ _ _ _ _ _ _ _ _ Hp HP Hnd Hm Hndm Hv Hw Hst) as (h' & R & Hl & Hp').
    rewrite Hl in H. cbn [mbind outcome_bind] in H. apply bind_Ret_inv in H as (hd & Hhd & H).
    apply deref_Ret in Hhd as (? & [= <-] & Hhd). injection H as <-. exists [], R. simpl. split; [done|]. split; [constructor|].
    destruct (path_heap _ _ _ _ Hp') as [Hd' _]. by apply (dll_next _ [] head R hd Hd').
  - destruct (last (calls s)) as [t|] eqn:Hlast; [|done]. apply bind_Ret_inv in H as (s1 & Hs1 & H).
    assert (Hk : s_heap s1 = s_heap s ∧ s_entry s1 = s_entry s ∧ calls s1 = calls s ∧ s_state s1 = s_state s).
    { destruct computePartial; [destruct (note_longest_keeps _ _ Hs1); tauto|by go_inv]. }
    destruct Hk as (Hk1 & _ & Hk3 & _). destruct Hinv as (P & Q & Hp & _). rewrite Hk1, Hk3 in H.
    destruct (path_pop _ _ _ _ _ Hp Hlast) as (h1 & P' & Q' & Hp' & HP' & Hu).
    apply bind_Ret_inv in H as (top & _ & H). apply bind_Ret_inv in H as (lin' & _ & H). rewrite Hu in H. cbn [mbind outcome_bind] in H.
    apply bind_Ret_inv in H as (top' & Htop' & H). apply deref_Ret in Htop' as (? & [= <-] & Htop'). injection H as <-.
    exists (P' ++ [c_entry t])%list, Q'. simpl. rewrite <-app_assoc. split; [done|]. split; [done|].
    destruct (path_heap _ _ _ _ Hp') as [Hd' _]. by apply (dll_next _ (head :: P') _ Q' top' Hd').
Qed.

Lemma call_ids_nodes h st cs R (l : list (callsEntry (State := State))) ids : path h st cs R → (∀ c, c ∈ l → c_entry c ∈ R0) → call_ids h l = Ret ids →
  ids = map (λ c, node_id (c_entry c)) l.
Proof.
  intros Hp. revert ids. induction l as [|c l IH]; intros ids Hin Hc; [by injection Hc as <-|]. simpl in Hc.
  apply bind_Ret_inv in Hc as (ids' & Hids & Hc). apply bind_Ret_inv in Hc as (nd & Hnd & Hc). injection Hc as <-.
  simpl. f_equal; [|apply IH; [set_solver|done]]. destruct (cells h !! c_entry c) as [nd1|] eqn:Hnd1; [|done]. injection Hnd as ->.
  destruct (path_node _ _ _ _ _ _ Hp (Hin c ltac:(by left)) Hnd1) as (nd0 & Hnd0 & _ & Hid & _). unfold node_id. by rewrite Hnd0.
Qed.

Lemma check_loop_sound fuel kill k computePartial n s r : length R0 = length es → search_inv s →
  check_loop fuel kill k model computePartial head n s = Ret (Some r) → ok r = true → linearization model es (order r).
Proof.
  intros Hlen. revert k s. induction fuel as [|fuel IH]; intros k s Hinv H Hok; [done|]. cbn [check_loop] in H.
  apply bind_Ret_inv in H as (hd & Hhd & H). apply deref_Ret in Hhd as (? & [= <-] & Hhd). destruct (next hd) eqn:Hn.
  - destruct (kill k); [injection H as <-; done|]. apply bind_Ret_inv in H as ([s'|s'] & Hit & H); [injection H as <-; done|].
    apply (IH (S k) s'); [by eapply check_iter_inv|done..].
  - apply bind_Ret_inv in H as (ids & Hids & H). injection H as <-. simpl. destruct Hinv as (P & Q & Hp & _).
    destruct (path_heap _ _ _ _ Hp) as [Hd _]. rewrite (dll_next _ [] head _ hd Hd Hhd) in Hn.
    destruct (P ++ Q)%list as [|x R] eqn:HPQ; [|done]. rewrite (call_ids_nodes _ _ _ _ (calls s) ids Hp); [by eapply path_linearization| |done].
    intros c Hc. destruct (path_perm _ _ _ _ Hp) as [Hperm _]. rewrite Hperm. simpl. apply elem_of_app. left. by apply list_elem_of_fmap_2.
Qed.
End Search.

(** A true answer is right: let every call of a history have its return
    later and no operation have two calls or two returns.  If [checkSingle] returns
    true, for any model, any fuel and whatever it reads from [kill], then the calls
    it linearized, in that order, are a linearization: they are the operations of
    the history, the model accepts them one after the other from its initial state
    with the outputs of the history, and no operation comes after one that was
    called only after it had returned. *)
Lemma checkSingle_linearizes {V State : Type} (model : Model (V := V) (State := State)) (history : list (entry (V := V)))
    (fuel : nat) (kill : nat → bool) (computePartial : bool) (r : checked) :
  wf_history history → checkSingle fuel kill model history computePartial = Ret (Some r) → ok r = true →
  linearization model history (order r).
Proof.
  intros Hwf H Hok. unfold checkSingle in H. destruct (makeLinkedEntries_spec history) as (root & h & R & Hmk & -> & Hd & Hrep & Hb).
  rewrite Hmk in H. cbn [mbind outcome_bind] in H. apply bind_Ret_inv in H as (len & _ & H).
  set (nd0 := mkNode None None (-1) None None) in H. destruct (insert_front h R nd0 Hd Hb eq_refl eq_refl) as (h2 & Hi & Hd2 & _ & _ & _ & Hs).
  unfold alloc in Hi, H. cbn [snd] in Hi. rewrite Hi in H. cbn [mbind outcome_bind] in H.
  pose proof (rep_same _ _ _ _ Hs Hrep) as Hrep2. pose proof (rep_node_of h2 history R Hwf Hrep2) as Hnodes.
  eapply (check_loop_sound model history (fresh h) h2 R); try done; [by eapply rep_length|].
  exists [], R. split; [apply path_nil|done].
Qed.

(** A register: [inl v] writes [v], [inr tt] reads. *)
Definition register : Model (V := Z + unit) (State := Z) :=
  mkModel 0 (λ st i o, match i, o with
                       | inl v, _ => Ret (true, v)
                       | inr _, inl v => Ret (st =? v, st)
                       | inr _, inr _ => Ret (false, st)
                       end) Z.eqb.

(** A write of 7 overlapping a read of 0, then a read of 7. *)
Definition register_history : list (entry (V := Z + unit)) :=
  [mkEntry callEntry (inl 7) 0 0 0; mkEntry callEntry (inr tt) 1 1 1; mkEntry returnEntry (inr tt) 0 2 0;
   mkEntry returnEntry (inl 0) 1 3 1; mkEntry callEntry (inr tt) 2 4 0; mkEntry returnEntry (inl 7) 2 5 0].
