(* ===== verification/PorcComplete.v ===== *)
(** * Lab2_MapReduce, porcupine: the search decides linearizability

    The search ends without a panic on every complete history, and it answers
    false only if no linearization exists.  The invariant says of every state of the
    search that its cache entry is either on the stack of calls or without a
    linearization of the remaining operations. *)

From S2P Require Import Prelude PorcBitset PorcChecker PorcList PorcSound.
Open Scope Z_scope.

(** A history in which every return has its call, numbered below half its length. *)
Definition complete_history {V : Type} (es : list (entry (V := V))) : Prop :=
  wf_history es ∧
  (∀ j r, es !! j = Some r → kind r = returnEntry → ∃ i c, (i < j)%nat ∧ es !! i = Some c ∧ kind c = callEntry ∧ id c = id r) ∧
  (∀ e, e ∈ es → 0 ≤ id e < Z.quot (Z.of_nat (length es)) 2).

(** The model's step returns on every operation of the history, in every state. *)
Definition step_total {V State : Type} (model : Model (V := V) (State := State)) (es : list (entry (V := V))) : Prop :=
  ∀ st c r, c ∈ es → r ∈ es → kind c = callEntry → kind r = returnEntry → id c = id r →
  ∃ b st', Step model st (value c) (value r) = Ret (b, st').

(** States the model calls equal accept the same operations. *)
Definition equal_sound {V State : Type} (model : Model (V := V) (State := State)) (es : list (entry (V := V))) : Prop :=
  ∀ a b, Equal model a b = true → ∀ ids, accepted model es a ids → accepted model es b ids.

Lemma NoDup_split_unique {A : Type} (P Q P' Q' : list A) e : NoDup (P ++ e :: Q) → (P ++ e :: Q)%list = (P' ++ e :: Q')%list → P = P' ∧ Q = Q'.
Proof.
  revert P'. induction P as [|x P IH]; intros [|y P'] Hn Heq; simpl in *; simplify_eq.
  - done.
  - apply NoDup_cons in Hn as [Hn _]. destruct Hn. set_solver.
  - apply NoDup_cons in Hn as [Hn _]. destruct Hn. set_solver.
  - apply NoDup_cons in Hn as [_ Hn]. destruct (IH P' Hn) as [-> ->]; done.
Qed.

Section Nodes.
Context {V State : Type}.
Context (model : Model (V := V) (State := State)) (es : list (entry (V := V))).
Context (head : nat) (h0 : heap (V := V)) (R0 : list nat).
Context (Hcomplete : complete_history es) (Hdll0 : dll h0 (head :: R0)) (Hlen : length R0 = length es).
Context (Hnodes : ∀ i l, R0 !! i = Some l → node_of h0 es R0 i l).

Notation mt := (mt h0).
Notation is_call := (is_call h0).
Notation node_id := (node_id h0).
Notation path := (path model head h0 R0).
Notation num := (Z.quot (Z.of_nat (length es)) 2).

#[local] Instance call_dec l : Decision (is_call l).
Proof. unfold PorcSound.is_call. apply _. Defined.

Lemma Hwf : wf_history es.
Proof. apply Hcomplete. Qed.

(** The entry of a node. *)
Lemma node_entry i l : R0 !! i = Some l → ∃ e, es !! i = Some e ∧ id e = node_id l ∧ (is_call l ↔ kind e = callEntry).
Proof.
  intros Hi. destruct (Hnodes i l Hi) as (e & nd & He & Hnd & _ & Hid & Hk). exists e. split; [done|].
  unfold PorcSound.node_id, PorcSound.is_call, PorcSound.mt. rewrite Hnd. split; [done|]. simpl.
  destruct (kind e); [|by rewrite Hk]. destruct Hk as (j & r & m & _ & _ & _ & _ & _ & ->). done.
Qed.

Lemma node_id_range l : l ∈ R0 → 0 ≤ node_id l < num.
Proof.
  intros [i Hi]%list_elem_of_lookup. destruct (node_entry i l Hi) as (e & He & <- & _). destruct Hcomplete as (_ & _ & Hr).
  apply Hr. by eapply list_elem_of_lookup_2.
Qed.

Lemma match_id e m : e ∈ R0 → mt e = Some m → m ∈ R0 ∧ node_id m = node_id e.
Proof.
  intros Hin Hm. assert (Hc : is_call e) by (unfold PorcSound.is_call; congruence).
  destruct (call_position es h0 R0 Hnodes e Hin Hc) as (i & c & j & r & m' & Hi & Hci & Hk & Hid & Hm' & Hj & Hr & Hkr & Hidr).
  assert (m' = m) as -> by congruence. split; [by eapply list_elem_of_lookup_2|].
  destruct (node_entry j m Hj) as (r' & Hr' & <- & _). congruence.
Qed.

(** Two nodes with the same number are equal or a call and its return. *)
Lemma same_id x y : x ∈ R0 → y ∈ R0 → node_id x = node_id y → x = y ∨ mt x = Some y ∨ mt y = Some x.
Proof.
  intros Hx Hy Hid. pose proof Hwf as [_ Hu].
  assert (Hcr : ∀ a b, a ∈ R0 → b ∈ R0 → node_id a = node_id b → is_call a → ¬ is_call b → mt a = Some b).
  { intros a b Ha [j Hj]%list_elem_of_lookup Hab Hca Hcb.
    destruct (call_position es h0 R0 Hnodes a Ha Hca) as (i & c & k & r & m & _ & _ & _ & _ & Hm & Hk & Hr & Hkr & Hidr).
    destruct (node_entry j b Hj) as (r' & Hr' & Hid' & Hkb). assert (kind r' = returnEntry) by (destruct (kind r'); [tauto|done]).
    assert (k = j) as -> by (apply (Hu k j r r'); congruence). congruence. }
  destruct (decide (is_call x)) as [Hcx|Hcx], (decide (is_call y)) as [Hcy|Hcy].
  2: right; left; by apply Hcr. 2: right; right; by apply Hcr.
  all: left; apply list_elem_of_lookup in Hx as [i Hi]; apply list_elem_of_lookup in Hy as [j Hj];
    destruct (node_entry i x Hi) as (e & He & Hide & Hke); destruct (node_entry j y Hj) as (e' & He' & Hide' & Hke');
    assert (i = j) as <-; [apply (Hu i j e e'); try congruence; destruct (kind e) eqn:E1, (kind e') eqn:E2; intuition congruence|congruence].
Qed.

(** A return node has its call in the list, before it. *)
Lemma return_call m : m ∈ R0 → ¬ is_call m → ∃ e, e ∈ R0 ∧ mt e = Some m ∧ node_id e = node_id m.
Proof.
  intros Hm Hc. pose proof Hm as [j Hj]%list_elem_of_lookup. destruct (node_entry j m Hj) as (r & Hr & Hid & Hk).
  assert (Hkr : kind r = returnEntry) by (destruct (kind r); [tauto|done]). destruct Hcomplete as (_ & Hcall & _).
  destruct (Hcall j r Hr Hkr) as (i & c & Hij & Hci & Hkc & Hidc).
  destruct (lookup_lt_is_Some_2 R0 i) as [e He]; [rewrite Hlen; by eapply lookup_lt_Some|].
  destruct (node_entry i e He) as (c' & Hc' & Hidc' & Hkc'). assert (c' = c) as -> by congruence.
  assert (HeR : e ∈ R0) by by eapply list_elem_of_lookup_2.
  destruct (same_id e m HeR Hm) as [->|[Hmt|Hmt]]; [congruence|tauto| |].
  - exists e. split; [done|]. split; [done|congruence].
  - destruct Hc. unfold PorcSound.is_call. congruence.
Qed.

(** ** What remains *)

(** The nodes of the operations that are not in [L]. *)
Definition rest (L : list Z) : list nat := filter (λ l, node_id l ∉ L) R0.

Definition ids (cs : list (callsEntry (State := State))) : list Z := map (λ c, node_id (c_entry c)) cs.

Lemma rest_elem L l : l ∈ rest L ↔ node_id l ∉ L ∧ l ∈ R0.
Proof. unfold rest. by rewrite list_elem_of_filter. Qed.

Lemma rest_ext L L' : (∀ i, 0 ≤ i < num → i ∈ L ↔ i ∈ L') → rest L = rest L'.
Proof. intros HL. unfold rest. apply filter_iff_in. intros l Hl. by rewrite (HL _ (node_id_range l Hl)). Qed.

Lemma rest_nodup L : NoDup (rest L).
Proof. apply NoDup_filter. apply (R0_nodup head h0 R0 Hdll0). Qed.

Lemma path_rest h st cs R : path h st cs R → R = rest (ids cs).
Proof.
  intros Hp. induction Hp as [|h st cs P e B m C h' st' nd ndm v w Hp IH HP He Hm].
  - unfold rest. symmetry. apply filter_all. apply Forall_forall. intros l _. apply not_elem_of_nil.
  - assert (Hme : mt e = Some m) by (unfold PorcSound.mt; by rewrite He).
    assert (HinR : ∀ l, l ∈ P ++ e :: B ++ m :: C → l ∈ R0) by (intros l; rewrite IH, rest_elem; tauto).
    assert (HeR : e ∈ R0) by (apply HinR; set_solver). destruct (match_id e m HeR Hme) as [HmR Hidm].
    assert (Hnd' : NoDup (P ++ e :: B ++ m :: C)) by (rewrite IH; apply rest_nodup).
    assert (Hne : e ∉ P ++ B ++ C ∧ m ∉ P ++ B ++ C).
    { apply NoDup_app in Hnd' as (_ & Hn1 & Hn2). apply NoDup_cons in Hn2 as [Hn2 Hn3]. apply NoDup_app in Hn3 as (_ & Hn4 & Hn5).
      apply NoDup_cons in Hn5 as [Hn5 _]. set_solver. }
    assert (Hkeep : ∀ l, l ∈ P ++ B ++ C → node_id l ≠ node_id e).
    { intros l Hl Heq. destruct (same_id l e) as [->|[Hmt|Hmt]]; [apply HinR; set_solver|done|done|by destruct Hne| |].
      - apply (mt_after es h0 R0 Hnodes l e) in Hmt as [_ Hmt]; [congruence|]. apply HinR. set_solver.
      - assert (l = m) as -> by congruence. by destruct Hne. }
    assert (Hfilt : rest (ids (cs ++ [mkCallsEntry e st])) = filter (λ l, node_id l ≠ node_id e) (rest (ids cs))).
    { unfold rest. rewrite list_filter_filter. apply list_filter_iff. intros l. unfold ids. rewrite map_app. simpl. set_solver. }
    rewrite Hfilt, <-IH, !filter_app, !filter_cons, !filter_app, !filter_cons.
    rewrite (decide_False (P := node_id e ≠ node_id e)) by tauto. rewrite (decide_False (P := node_id m ≠ node_id e)) by tauto.
    rewrite !filter_all; [done|apply Forall_forall; intros l Hl; apply Hkeep; set_solver..].
Qed.

(** ** Completions *)

(** The model accepts operation [i] in [st]. *)
Definition op_step (st : State) (i : Z) (st' : State) : Prop :=
  ∃ c r, c ∈ es ∧ r ∈ es ∧ kind c = callEntry ∧ kind r = returnEntry ∧ id c = i ∧ id r = i ∧ Step model st (value c) (value r) = Ret (true, st').

Lemma entry_unique e e' : e ∈ es → e' ∈ es → kind e = kind e' → id e = id e' → e = e'.
Proof.
  intros [i Hi]%list_elem_of_lookup [j Hj]%list_elem_of_lookup Hk Hid. pose proof Hwf as [_ Hu].
  assert (i = j) as <- by by eapply Hu. congruence.
Qed.

Lemma op_step_fun st i st1 st2 : op_step st i st1 → op_step st i st2 → st1 = st2.
Proof.
  intros (c & r & Hc & Hr & Hkc & Hkr & Hic & Hir & Hs) (c' & r' & Hc' & Hr' & Hkc' & Hkr' & Hic' & Hir' & Hs').
  assert (c' = c) as -> by (apply entry_unique; congruence). assert (r' = r) as -> by (apply entry_unique; congruence). congruence.
Qed.

(** The operations that are not in [L] have a linearization from [st]. *)
Definition completable (L : list Z) (st : State) : Prop :=
  ∃ l, l ≡ₚ map node_id (filter is_call (rest L)) ∧ accepted model es st l ∧ ∀ i j, [i; j] `sublist_of` l → ¬ precedes es j i.

(** Continuing with the call [x] leads nowhere. *)
Definition failed (L : list Z) (st : State) (x : nat) : Prop :=
  ∀ st', op_step st (node_id x) st' → ¬ completable (L ++ [node_id x]) st'.

Lemma completable_ext L L' st : (∀ i, 0 ≤ i < num → i ∈ L ↔ i ∈ L') → completable L st → completable L' st.
Proof. intros HL (l & Hl & H). exists l. split; [|done]. by rewrite <-(rest_ext L L' HL). Qed.

(** The calls that remain after [x] are the others. *)
Lemma rest_calls L x : x ∈ rest L → is_call x → filter is_call (rest L) ≡ₚ x :: filter is_call (rest (L ++ [node_id x])).
Proof.
  intros Hx Hc. pose proof (rest_nodup L) as Hn. apply NoDup_Permutation; [by apply NoDup_filter| |].
  - constructor; [|apply NoDup_filter, rest_nodup]. rewrite list_elem_of_filter, rest_elem. set_solver.
  - intros y. rewrite elem_of_cons, !list_elem_of_filter, !rest_elem, elem_of_app, list_elem_of_singleton. split.
    + intros (Hy & HyL & HyR). destruct (decide (y = x)) as [->|Hne]; [by left|]. right. split; [done|]. split; [|done].
      intros [?|Hid]; [done|]. apply rest_elem in Hx as [_ HxR].
      destruct (same_id y x HyR HxR Hid) as [?|[Hmt|Hmt]]; [done| |].
      * apply (mt_after es h0 R0 Hnodes y x HyR) in Hmt as [_ ?]. done.
      * apply (mt_after es h0 R0 Hnodes x y HxR) in Hmt as [_ ?]. done.
    + apply rest_elem in Hx as [HxL HxR]. naive_solver.
Qed.

(** The first operation of a completion is one of the calls before the first
    return. *)
Lemma first_choice L st P m Q : rest L = (P ++ m :: Q)%list → ¬ is_call m → Forall (failed L st) P → ¬ completable L st.
Proof.
  intros HR Hm HP (l & Hperm & Hacc & Hord). pose proof (rest_nodup L) as Hn.
  assert (HmR : m ∈ rest L) by (rewrite HR; set_solver). pose proof HmR as [HmL HmR0]%rest_elem.
  destruct (return_call m HmR0 Hm) as (e & HeR & Hmt & Hide).
  assert (Hel : node_id m ∈ l).
  { rewrite Hperm, <-Hide. apply list_elem_of_fmap_2, list_elem_of_filter. split; [unfold PorcSound.is_call; congruence|]. apply rest_elem. by rewrite Hide. }
  destruct l as [|i l]; [by apply elem_of_nil in Hel|].
  assert (Hi : i ∈ map node_id (filter is_call (rest L))) by (rewrite <-Hperm; by left).
  apply list_elem_of_fmap in Hi as (x & -> & [Hcx Hx]%list_elem_of_filter). pose proof Hx as [HxL HxR]%rest_elem.
  assert (HxP : x ∈ P).
  { rewrite HR in Hx. apply elem_of_app in Hx as [?|[->|HxQ]%elem_of_cons]; [done|done|]. exfalso.
    assert (Hmx : [m; x] `sublist_of` R0).
    { trans (rest L); [|apply sublist_filter]. rewrite HR. apply sublist_inserts_l, sublist_skip. by apply singleton_sublist_l. }
    assert (Hne : node_id m ≠ node_id x).
    { intros Heq. destruct (same_id m x HmR0 HxR Heq) as [->|[Hmt'|Hmt']]; [done|destruct Hm; unfold PorcSound.is_call; congruence|].
      apply (mt_after es h0 R0 Hnodes x m HxR) in Hmt' as [Hxm _]. by eapply NoDup_pair_asym; [apply (R0_nodup head h0 R0 Hdll0)|..]. }
    apply elem_of_cons in Hel as [Hel|Hel]; [done|]. apply (Hord (node_id x) (node_id m)); [by apply sublist_skip, singleton_sublist_l|].
    apply sublist_pair_lookup in Hmx as (a & b & Hab & Ha & Hb). destruct (node_entry a m Ha) as (r & Hr & Hidr & Hkr).
    destruct (node_entry b x Hb) as (c & Hc & Hidc & Hkc). exists r, c. split; [apply sublist_pair_lookup; eauto|].
    split; [destruct (kind r); tauto|]. split; [done|]. split; [tauto|done]. }
  simpl in Hacc. destruct Hacc as (c & r & st' & Hc & Hr & Hkc & Hkr & Hic & Hir & Hst & Hrest).
  rewrite Forall_forall in HP. apply (HP x HxP st'); [by exists c, r|]. exists l. split; [|split; [done|]].
  - apply (Permutation_cons_inv (a := node_id x)). rewrite Hperm. rewrite (rest_calls L x Hx Hcx). done.
  - intros i j Hij. apply Hord. by apply sublist_cons.
Qed.

(** ** The state of the search *)

(** The bit set [lin] stands for the operations [L]. *)
Definition lin_ok (lin : bitset) (L : list Z) : Prop :=
  words_ok lin ∧ go_len lin = go_len (newBitset num) ∧ ∀ q, in_range lin q → (member lin q ↔ q ∈ L).

(** [L] and [st'] are those after some of the calls [cs], which lead to [st]. *)
Definition on_stack (cs : list (callsEntry (State := State))) (st : State) (L : list Z) (st' : State) : Prop :=
  ∃ cs1 cs2, cs = (cs1 ++ cs2)%list ∧ cs1 ≠ [] ∧ (∀ i, i ∈ L ↔ i ∈ ids cs1) ∧ st' = match cs2 with [] => st | t :: _ => c_state t end.

Definition cache_ok (cache : gmap Z (list (cacheEntry (State := State)))) cs st : Prop :=
  ∀ hash ces ce, cache !! hash = Some ces → ce ∈ ces →
  ∃ L, lin_ok (ce_linearized ce) L ∧ (on_stack cs st L (ce_state ce) ∨ ¬ completable L (ce_state ce)).

(** The calls that were passed over before each call of [cs] lead nowhere. *)
Definition frames_failed (cs : list (callsEntry (State := State))) : Prop :=
  ∀ cs1 t cs2 P Q, cs = (cs1 ++ t :: cs2)%list → rest (ids cs1) = (P ++ c_entry t :: Q)%list → Forall (failed (ids cs1) (c_state t)) P.

Record full_inv (s : search (V := V) (State := State)) (P Q : list nat) : Prop := {
  fi_path : path (s_heap s) (s_state s) (calls s) (P ++ Q);
  fi_calls : Forall is_call P;
  fi_entry : s_entry s = first_or Q None;
  fi_lin : lin_ok (linearized s) (ids (calls s));
  fi_failed : Forall (failed (ids (calls s)) (s_state s)) P;
  fi_frames : frames_failed (calls s);
  fi_cache : cache_ok (cache s) (calls s) (s_state s);
  fi_longest : length (longest s) = Z.to_nat num
}.

Lemma lin_ok_range lin L x : lin_ok lin L → x ∈ R0 → in_range lin (node_id x).
Proof.
  intros (_ & Hl & _) Hx. pose proof (node_id_range x Hx) as Hr.
  destruct (newBitset_spec num) as (_ & Hn & _); [apply Z.quot_pos; lia|]. unfold in_range. rewrite Hl. lia.
Qed.

Lemma lin_ok_set lin L x : lin_ok lin L → x ∈ R0 → ∃ lin', bitset_set (node_id x) lin = Ret lin' ∧ lin_ok lin' (L ++ [node_id x]).
Proof.
  intros Hlin Hx. pose proof (lin_ok_range _ _ _ Hlin Hx) as Hr. destruct Hlin as (Hw & Hl & Hm).
  destruct (set_spec lin (node_id x) Hw Hr) as (lin' & Hs & Hw' & Hl' & Hm'). exists lin'. split; [done|]. split; [done|]. split; [congruence|].
  intros q Hq. assert (Hq' : in_range lin q) by (unfold in_range in *; congruence). rewrite Hm', Hm by done. set_solver.
Qed.

Lemma lin_ok_clear lin L x : lin_ok lin (L ++ [node_id x]) → x ∈ R0 → node_id x ∉ L → ∃ lin', bitset_clear (node_id x) lin = Ret lin' ∧ lin_ok lin' L.
Proof.
  intros Hlin Hx HL. pose proof (lin_ok_range _ _ _ Hlin Hx) as Hr. destruct Hlin as (Hw & Hl & Hm).
  destruct (clear_spec lin (node_id x) Hw Hr) as (lin' & Hs & Hw' & Hl' & Hm'). exists lin'. split; [done|]. split; [done|]. split; [congruence|].
  intros q Hq. assert (Hq' : in_range lin q) by (unfold in_range in *; congruence). rewrite Hm', Hm by done. set_solver.
Qed.

(** Equal bit sets stand for the same operations. *)
Lemma lin_ok_same lin L L' i : lin_ok lin L → lin_ok lin L' → 0 ≤ i < num → i ∈ L ↔ i ∈ L'.
Proof.
  intros (_ & Hl & Hm) (_ & _ & Hm') Hi. assert (Hr : in_range lin i).
  { destruct (newBitset_spec num) as (_ & Hn & _); [lia|]. unfold in_range. rewrite Hl. lia. }
  by rewrite <-Hm, <-Hm'.
Qed.

Lemma path_calls_in h st cs R c : path h st cs R → c ∈ cs → c_entry c ∈ R0 ∧ is_call (c_entry c).
Proof.
  intros Hp Hc. destruct (path_perm _ _ _ _ _ _ _ _ Hp) as [Hperm Hcalls].
  assert (Hin : c_entry c ∈ map c_entry cs) by by apply list_elem_of_fmap_2. rewrite Forall_forall in Hcalls. split; [|by apply Hcalls].
  rewrite Hperm. set_solver.
Qed.

Lemma path_last h st cs t R : path h st (cs ++ [t]) R →
  ∃ h1 P Q, path h1 (c_state t) cs (P ++ c_entry t :: Q) ∧ Forall is_call (P ++ [c_entry t]) ∧ unlift (Some (c_entry t)) h = Ret h1 ∧
    op_step (c_state t) (node_id (c_entry t)) st.
Proof.
  intros Hp. remember (cs ++ [t])%list as cs' eqn:Heq.
  destruct Hp as [|h st cs' P e B m C h' st' nd ndm v w Hp HP He Hm Hndm Hv Hw Hst Hlift Hu]; [by destruct cs|].
  apply app_inj_tail in Heq as [-> <-]. simpl. exists h, P, (B ++ m :: C)%list. split; [done|]. split; [|split; [done|]].
  - apply Forall_app. split; [done|]. constructor; [|done]. unfold PorcSound.is_call, PorcSound.mt. rewrite He. simpl. congruence.
  - assert (HeR : e ∈ R0) by by eapply (path_in model es head h0 R0 Hwf Hdll0 Hnodes).
    destruct (call_entry es h0 R0 Hnodes e m nd ndm v w HeR He Hm Hndm Hv Hw) as (c & r & Hc & Hr & Hkc & Hkr & Hic & Hir & <- & <-).
    assert (Hid : node_id e = n_id nd) by (unfold PorcSound.node_id; by rewrite He). rewrite Hid. by exists c, r.
Qed.

(** ** Iterations *)

(** The node the search looks at. *)
Lemma path_cell h st cs R l : path h st cs R → l ∈ R0 →
  ∃ nd, cells h !! l = Some nd ∧ match_ nd = mt l ∧ n_id nd = node_id l ∧ is_Some (n_value nd).
Proof.
  intros Hp Hl. pose proof Hl as [i Hi]%list_elem_of_lookup. destruct (Hnodes i l Hi) as (e & nd0 & _ & Hnd0 & Hv & _).
  destruct (path_heap _ _ _ _ Hdll0 _ _ _ _ Hp) as [_ Hs]. destruct (Hs l nd0 Hnd0) as (nd & Hnd & Hm & Hid & Hv').
  exists nd. unfold PorcSound.mt, PorcSound.node_id. rewrite Hnd0. simpl. split; [done|]. split; [done|]. split; [done|]. rewrite Hv', Hv. by eexists.
Qed.

Lemma inv_in s P e Q : full_inv s P (e :: Q) → e ∈ R0.
Proof. intros Hi. eapply (path_in model es head h0 R0 Hwf Hdll0 Hnodes). apply (fi_path _ _ _ Hi). Qed.

Lemma inv_rest s P Q : full_inv s P Q → rest (ids (calls s)) = (P ++ Q)%list.
Proof. intros Hi. symmetry. eapply path_rest. apply (fi_path _ _ _ Hi). Qed.

Lemma inv_next s P e Q nd : full_inv s P (e :: Q) → cells (s_heap s) !! e = Some nd → next nd = first_or Q None.
Proof.
  intros Hi Hnd. destruct (path_heap _ _ _ _ Hdll0 _ _ _ _ (fi_path _ _ _ Hi)) as [Hd _]. by apply (dll_next _ (head :: P) e Q nd Hd).
Qed.

(** Passing over a call that leads nowhere. *)
Lemma inv_pass s P e Q en : full_inv s P (e :: Q) → is_call e → failed (ids (calls s)) (s_state s) e → en = first_or Q None →
  full_inv (mkSearch (s_heap s) en (linearized s) (cache s) (calls s) (s_state s) (longest s) (seqs s)) (P ++ [e]) Q.
Proof.
  intros [Hp HP He Hlin Hf Hfr Hc Hl] Hce Hfe ->. split; simpl; try done; [by rewrite <-app_assoc|apply Forall_app; by repeat constructor..].
Qed.

(** A state in the cache is known to lead nowhere when the search meets it again. *)
Lemma cache_hit s P e Q lin' st' : full_inv s P (e :: Q) → equal_sound model es → lin_ok lin' (ids (calls s) ++ [node_id e]) →
  cacheContains model (cache s) (mkCacheEntry lin' st') = true → op_step (s_state s) (node_id e) st' → failed (ids (calls s)) (s_state s) e.
Proof.
  intros Hi Heq Hlin Hcc Hop st2 Hop2. assert (st2 = st') as -> by by eapply op_step_fun. clear Hop Hop2.
  unfold cacheContains in Hcc. apply existsb_exists in Hcc as (ce & Hin & [He1 He2]%andb_true_iff). apply bitset_equals_spec in He1. simpl in He1, He2.
  destruct (cache s !! _) as [ces|] eqn:Hces; [|done]. simpl in Hin. apply list_elem_of_In in Hin.
  destruct (fi_cache _ _ _ Hi _ _ _ Hces Hin) as (L & HL & HLs). rewrite <-He1 in HL.
  assert (Hsame : ∀ i, 0 ≤ i < num → i ∈ L ↔ i ∈ ids (calls s) ++ [node_id e]) by (intros i Hr; by eapply lin_ok_same).
  pose proof (inv_in _ _ _ _ Hi) as HeR. destruct HLs as [(cs1 & cs2 & Hcs & _ & HLi & _)|Hno].
  - exfalso. assert (Hin' : node_id e ∈ L) by (apply Hsame; [by apply node_id_range|set_solver]). apply HLi in Hin'.
    assert (Her : e ∈ rest (ids (calls s))) by (rewrite (inv_rest _ _ _ Hi); set_solver). apply rest_elem in Her as [Her _].
    apply Her. unfold ids in *. rewrite Hcs, map_app. set_solver.
  - intros Hcompl. apply Hno. apply (completable_ext (ids (calls s) ++ [node_id e])); [intros i Hr; by rewrite Hsame|].
    destruct Hcompl as (l & Hl & Hacc & Hord). exists l. split; [done|]. split; [by apply (Heq st')|done].
Qed.

(** Adding the new state to the cache and lifting the call. *)
Lemma inv_push s P e Q lin' st' h' R hd : full_inv s P (e :: Q) → is_call e → lin_ok lin' (ids (calls s) ++ [node_id e]) →
  path h' st' (calls s ++ [mkCallsEntry e (s_state s)]) R → cells h' !! head = Some hd →
  full_inv (mkSearch h' (next hd) lin' (<[bitset_hash lin' := (default [] (cache s !! bitset_hash lin') ++ [mkCacheEntry lin' st'])%list]> (cache s))
              (calls s ++ [mkCallsEntry e (s_state s)]) st' (longest s) (seqs s)) [] R.
Proof.
  intros Hi Hce Hlin Hp' Hhd. pose proof (inv_rest _ _ _ Hi) as HR. destruct Hi as [Hp HP He Hl Hf Hfr Hc Hlg].
  assert (Hids : ids (calls s ++ [mkCallsEntry e (s_state s)]) = (ids (calls s) ++ [node_id e])%list) by (unfold ids; by rewrite map_app).
  split; simpl; try done.
  - destruct (path_heap _ _ _ _ Hdll0 _ _ _ _ Hp') as [Hd _]. by apply (dll_next _ [] head R hd Hd).
  - by rewrite Hids.
  - intros cs1 t cs2 P' Q' Hcs HR'. destruct (exists_last (l := (t :: cs2)%list)) as (cs2' & t' & Hcs2); [done|].
    rewrite Hcs2, app_assoc in Hcs. apply app_inj_tail in Hcs as [Hcs <-]. destruct cs2' as [|t2 cs2'].
    + injection Hcs2 as -> ->. rewrite app_nil_r in Hcs. subst cs1. simpl in *. rewrite HR in HR'.
      assert (Hn : NoDup (P ++ e :: Q)) by (rewrite <-HR; apply rest_nodup).
      apply (NoDup_split_unique _ _ _ _ _ Hn) in HR' as [<- _]. done.
    + injection Hcs2 as -> ->. by eapply Hfr.
  - intros hash ces ce Hces Hin.
    assert (Hold : ∀ ces', cache s !! hash = Some ces' → ce ∈ ces' → ∃ L, lin_ok (ce_linearized ce) L ∧
      (on_stack (calls s ++ [mkCallsEntry e (s_state s)]) st' L (ce_state ce) ∨ ¬ completable L (ce_state ce))).
    { intros ces' Hces' Hin'. destruct (Hc _ _ _ Hces' Hin') as (L & HL & [(cs1 & cs2 & Hcs & Hne & HLi & Hst)|?]); exists L; (split; [done|]); [left|by right].
      exists cs1, (cs2 ++ [mkCallsEntry e (s_state s)])%list. rewrite Hcs, <-app_assoc. split; [done|]. split; [done|]. split; [done|]. by destruct cs2. }
    apply lookup_insert_Some in Hces as [[<- <-]|[_ Hces]]; [|by eapply Hold].
    apply elem_of_app in Hin as [Hin|Hin%list_elem_of_singleton].
    + destruct (cache s !! bitset_hash lin') as [ces'|] eqn:Hces'; [by eapply Hold|by apply elem_of_nil in Hin].
    + subst ce. simpl. exists (ids (calls s) ++ [node_id e])%list. split; [done|]. left. exists (calls s ++ [mkCallsEntry e (s_state s)])%list, [].
      rewrite app_nil_r, Hids. split; [done|]. split; [by destruct (calls s)|done].
Qed.

Context (Htotal : step_total model es) (Hequal : equal_sound model es) (computePartial : bool).

(** At a call: the search passes over it, or pushes it. *)
Lemma iter_call s P e Q : full_inv s P (e :: Q) → is_call e → ∃ s', check_iter model computePartial s head = Ret (inr s') ∧
  (full_inv s' (P ++ [e]) Q ∧ calls s' = calls s ∨
   ∃ R, full_inv s' [] R ∧ calls s' = (calls s ++ [mkCallsEntry e (s_state s)])%list ∧ (length R < length (P ++ e :: Q))%nat).
Proof.
  intros Hi Hce. pose proof (inv_in _ _ _ _ Hi) as HeR. pose proof (fi_path _ _ _ Hi) as Hp.
  destruct (path_cell _ _ _ _ e Hp HeR) as (nd & Hnd & Hm & Hid & [v Hv]). destruct (mt e) as [m|] eqn:Hmt; [|done].
  destruct (match_id e m HeR Hmt) as [HmR _]. destruct (path_cell _ _ _ _ m Hp HmR) as (ndm & Hndm & _ & _ & [w Hw]).
  destruct (path_node _ _ _ _ _ Hdll0 Hnodes _ _ _ _ _ _ Hp HeR Hnd) as (nd0 & Hnd0 & Hm0 & Hid0 & Hv0).
  destruct (path_node _ _ _ _ _ Hdll0 Hnodes _ _ _ _ _ _ Hp HmR Hndm) as (ndm0 & Hndm0 & _ & _ & Hw0).
  destruct (call_entry es h0 R0 Hnodes e m nd0 ndm0 v w) as (c & r & Hc & Hr & Hkc & Hkr & Hic & Hir & Hvc & Hvr); try congruence.
  destruct (Htotal (s_state s) c r Hc Hr Hkc Hkr ltac:(congruence)) as (b & st' & Hst). rewrite Hvc, Hvr in Hst.
  assert (Hop : ∀ st2, op_step (s_state s) (node_id e) st2 → b = true ∧ st2 = st').
  { intros st2 (c2 & r2 & Hc2 & Hr2 & Hkc2 & Hkr2 & Hic2 & Hir2 & Hst2).
    assert (c2 = c) as -> by (apply entry_unique; congruence). assert (r2 = r) as -> by (apply entry_unique; congruence). rewrite Hvc, Hvr in Hst2.
    split; congruence. }
  unfold check_iter. rewrite (fi_entry _ _ _ Hi). cbn [first_or deref]. rewrite Hnd. cbn [mbind outcome_bind]. rewrite Hm, Hndm.
  cbn [mbind outcome_bind]. rewrite Hv, Hw, Hst. cbn [mbind outcome_bind]. pose proof (inv_next _ _ _ _ _ Hi Hnd) as Hnx. rewrite Hid.
  destruct b; [|eexists; split; [done|]; left; split; [apply inv_pass; [done..| |done]|done]; intros st2 [? _]%Hop; done].
  assert (Hop' : op_step (s_state s) (node_id e) st').
  { exists c, r. repeat (split; [done|]). split; [congruence|]. split; [congruence|]. congruence. }
  destruct (lin_ok_set _ _ e (fi_lin _ _ _ Hi) HeR) as (lin' & Hset & Hlin'). unfold bitset_clone. rewrite Hset. cbn [mbind outcome_bind].
  destruct (cacheContains model (cache s) (mkCacheEntry lin' st')) eqn:Hcc; cbn [negb].
  - eexists. split; [done|]. left. split; [|done]. apply inv_pass; [done..|by eapply cache_hit|done].
  - cbn [mbind outcome_bind].
    destruct (path_lift _ _ _ _ _ Hwf Hdll0 Hnodes _ _ _ _ _ _ _ _ _ _ _ _ Hp (fi_calls _ _ _ Hi) Hnd Hm Hndm Hv Hw Hst) as (h' & R & Hl & Hp').
    rewrite Hl. cbn [mbind outcome_bind deref]. destruct (path_heap _ _ _ _ Hdll0 _ _ _ _ Hp') as [[_ [(hd & Hhd & _) _]] _]. rewrite Hhd. cbn [mbind outcome_bind].
    eexists. split; [done|]. right. exists R. split; [by apply (inv_push s P e Q)|]. split; [done|].
    rewrite <-(inv_rest _ _ _ Hi), (path_rest _ _ _ _ Hp'). unfold ids. rewrite map_app. simpl. fold (ids (calls s)).
    assert (Hsplit : rest (ids (calls s) ++ [node_id e]) = filter (λ l, node_id l ≠ node_id e) (rest (ids (calls s)))).
    { unfold rest. rewrite list_filter_filter. apply list_filter_iff. intros l. set_solver. }
    rewrite Hsplit. apply (length_filter_lt _ _ e); [rewrite (inv_rest _ _ _ Hi); set_solver|tauto].
Qed.

Lemma call_ids_ok h st cs R (l : list (callsEntry (State := State))) : path h st cs R → (∀ c, c ∈ l → c_entry c ∈ R0) → returns (call_ids h l).
Proof.
  intros Hp. induction l as [|c l IH]; intros Hin; [by eexists|]. destruct IH as [ids' Hids]; [set_solver|].
  destruct (path_cell _ _ _ _ (c_entry c) Hp) as (nd & Hnd & _); [set_solver|]. change (returns (l' ← call_ids h l; nd ← deref (Some (c_entry c)) h; Ret (n_id nd :: l'))). rewrite Hids. simpl. rewrite Hnd. by eexists.
Qed.

(** Recording the best prefixes does not fail. *)
Lemma note_longest_ok s R : path (s_heap s) (s_state s) (calls s) R → length (longest s) = Z.to_nat num →
  ∃ s', note_longest s = Ret s' ∧ length (longest s') = Z.to_nat num.
Proof.
  intros Hp Hlg. assert (Hin : ∀ c, c ∈ calls s → c_entry c ∈ R0) by (intros c Hc; by eapply path_calls_in).
  destruct (call_ids_ok _ _ _ _ (calls s) Hp Hin) as [seq Hseq]. unfold note_longest. rewrite Hseq. cbn [mbind outcome_bind].
  set (f := λ (acc : outcome (list (option nat) * bool)) (c : callsEntry (State := State)), _).
  assert (Hf : ∀ l lg used, (∀ c, c ∈ l → c_entry c ∈ R0) → length lg = Z.to_nat num →
    ∃ lg' used', foldl f (Ret (lg, used)) l = Ret (lg', used') ∧ length lg' = Z.to_nat num).
  { induction l as [|c l IH]; intros lg used Hl Hlen'; [by exists lg, used|]. cbn [foldl].
    assert (HcR : c_entry c ∈ R0) by (apply Hl; by left). destruct (path_cell _ _ _ _ (c_entry c) Hp HcR) as (nd & Hnd & _ & Hid & _).
    pose proof (node_id_range _ HcR) as Hr. destruct (slice_get_ok lg (n_id nd)) as (old & Hg & _); [unfold go_len; lia|].
    assert (Hstep : ∃ lg1 used1, f (Ret (lg, used)) c = Ret (lg1, used1) ∧ length lg1 = Z.to_nat num).
    { unfold f. cbn [mbind outcome_bind deref]. rewrite Hnd. cbn [mbind outcome_bind]. rewrite Hg. cbn [mbind outcome_bind].
      match goal with |- context [if ?b then _ else _] => destruct b end; [|by eexists _, _].
      rewrite slice_set_ok by (unfold go_len; lia). cbn [mbind outcome_bind]. eexists _, _. split; [done|]. by rewrite length_insert. }
    destruct Hstep as (lg1 & used1 & -> & Hl1). apply IH; [set_solver|done]. }
  destruct (Hf (calls s) (longest s) false Hin Hlg) as (lg' & used' & -> & Hl'). cbn [mbind outcome_bind]. eexists. split; [done|]. done.
Qed.

(** Backtracking to the last call. *)
Lemma inv_pop s P m Q cs t h1 lin' lg sq P' Q' top' : full_inv s P (m :: Q) → ¬ is_call m → calls s = (cs ++ [t])%list →
  path h1 (c_state t) cs (P' ++ c_entry t :: Q') → Forall is_call (P' ++ [c_entry t]) → op_step (c_state t) (node_id (c_entry t)) (s_state s) →
  lin_ok lin' (ids cs) → length lg = Z.to_nat num → cells h1 !! c_entry t = Some top' →
  full_inv (mkSearch h1 (next top') lin' (cache s) cs (c_state t) lg sq) (P' ++ [c_entry t]) Q'.
Proof.
  intros Hi Hm Hcs Hp1 HP' Hop Hlin' Hlg Htop. pose proof (inv_rest _ _ _ Hi) as HR.
  assert (Hno : ¬ completable (ids (calls s)) (s_state s)) by (eapply first_choice; [exact HR|done|apply (fi_failed _ _ _ Hi)]).
  assert (Hids : ids (calls s) = (ids cs ++ [node_id (c_entry t)])%list) by (unfold ids; by rewrite Hcs, map_app).
  destruct Hi as [Hp HP He Hl Hf Hfr Hc _]. split; simpl; try done.
  - by rewrite <-app_assoc.
  - destruct (path_heap _ _ _ _ Hdll0 _ _ _ _ Hp1) as [Hd _]. by apply (dll_next _ (head :: P') (c_entry t) Q' top' Hd).
  - apply Forall_app. split.
    + eapply (Hfr cs t [] P' Q'); [done|]. symmetry. by eapply path_rest.
    + constructor; [|done]. intros st' Hst'. rewrite (op_step_fun _ _ _ _ Hst' Hop), <-Hids. done.
  - intros cs1 t1 cs2 P1 Q1 -> HR1. eapply (Hfr cs1 t1 (cs2 ++ [t]) P1 Q1); [|done]. by rewrite Hcs, <-app_assoc.
  - intros hash ces ce Hces Hin. destruct (Hc _ _ _ Hces Hin) as (L & HL & [(cs1 & cs2 & Hcs' & Hne & HLi & Hst)|?]); exists L; (split; [done|]); [|by right].
    destruct cs2 as [|t2 cs2] using rev_ind; [|clear IHcs2].
    + right. rewrite app_nil_r in Hcs'. subst cs1. rewrite Hst. intros Hco. apply Hno. eapply completable_ext; [|exact Hco]. intros i _. apply HLi.
    + left. rewrite Hcs, app_assoc in Hcs'. apply app_inj_tail in Hcs' as [-> ->]. exists cs1, cs2. split; [done|]. split; [done|]. split; [done|].
      rewrite Hst. by destruct cs2.
Qed.

(** At a return: the search is over, or goes back to the last call. *)
Lemma iter_return s P m Q : full_inv s P (m :: Q) → ¬ is_call m →
  (calls s = [] ∧ check_iter model computePartial s head = Ret (inl s) ∧ ¬ completable [] (Init model)) ∨
  ∃ cs t s' P' Q', calls s = (cs ++ [t])%list ∧ check_iter model computePartial s head = Ret (inr s') ∧ full_inv s' (P' ++ [c_entry t]) Q' ∧ calls s' = cs.
Proof.
  intros Hi Hm. pose proof (inv_in _ _ _ _ Hi) as HmR. pose proof (fi_path _ _ _ Hi) as Hp.
  destruct (path_cell _ _ _ _ m Hp HmR) as (nd & Hnd & Hmt & _). assert (Hmn : match_ nd = None) by (rewrite Hmt; destruct (mt m) eqn:E; [|done]; destruct Hm; unfold PorcSound.is_call; congruence).
  unfold check_iter. rewrite (fi_entry _ _ _ Hi). cbn [first_or deref]. rewrite Hnd. cbn [mbind outcome_bind]. rewrite Hmn.
  destruct (calls s) as [|t cs _] eqn:Hcs using rev_ind.
  - left. split; [done|]. simpl. split; [done|]. inversion Hp as [Hst|]; [|by destruct cs]. 
    assert (Hno : ¬ completable (ids (calls s)) (s_state s)) by (eapply first_choice; [apply (inv_rest _ _ _ Hi)|done|apply (fi_failed _ _ _ Hi)]).
    rewrite Hcs in Hno. simpl in Hno. congruence.
  - right. rewrite last_snoc. destruct (path_last _ _ _ _ _ Hp) as (h1 & P' & Q' & Hp1 & HP' & Hu & Hop).
    assert (HtR : c_entry t ∈ R0) by (by eapply (path_in model es head h0 R0 Hwf Hdll0 Hnodes)).
    assert (Hs1 : ∃ s1, (if computePartial then note_longest s else Ret s) = Ret s1 ∧ length (longest s1) = Z.to_nat num ∧
      s_heap s1 = s_heap s ∧ calls s1 = calls s ∧ linearized s1 = linearized s ∧ cache s1 = cache s).
    { destruct computePartial; [|exists s; repeat (split; [done||apply (fi_longest _ _ _ Hi)|]); done].
      destruct (note_longest_ok s _ (fi_path _ _ _ Hi) (fi_longest _ _ _ Hi)) as (s1 & Hn1 & Hl1). exists s1. split; [done|]. split; [done|].
      destruct (note_longest_keeps _ _ Hn1) as (? & _ & ? & _ & ? & ?). done. }
    destruct Hs1 as (s1 & -> & Hlg & Hh & Hc1 & Hli & Hca). cbn [mbind outcome_bind]. rewrite Hh, Hli, Hca, Hc1, Hcs.
    destruct (path_cell _ _ _ _ (c_entry t) Hp HtR) as (top & Htop & _ & Hidt & _). rewrite Htop. cbn [mbind outcome_bind]. rewrite Hidt.
    assert (HtL : node_id (c_entry t) ∉ ids cs).
    { assert (Hin : c_entry t ∈ rest (ids cs)) by (rewrite <-(path_rest _ _ _ _ Hp1); set_solver). by apply rest_elem in Hin as [? _]. }
    destruct (lin_ok_clear (linearized s) (ids cs) (c_entry t)) as (lin' & Hcl & Hlin'); [|done..|].
    { pose proof (fi_lin _ _ _ Hi) as Hl. rewrite Hcs in Hl. unfold ids in Hl. by rewrite map_app in Hl. }
    rewrite Hcl. cbn [mbind outcome_bind]. rewrite Hu. cbn [mbind outcome_bind].
    destruct (path_cell _ _ _ _ (c_entry t) Hp1 HtR) as (top' & Htop' & _). rewrite Htop'. cbn [mbind outcome_bind]. rewrite removelast_last.
    eexists cs, t, _, P', Q'. split; [done|]. split; [done|]. split; [|done]. by eapply inv_pop.
Qed.

(** ** Runs of the loop *)

(** One round of the loop. *)
Definition round (s s' : search (V := V) (State := State)) : Prop :=
  (∃ hd x, deref (Some head) (s_heap s) = Ret hd ∧ next hd = Some x) ∧ check_iter model computePartial s head = Ret (inr s').

Lemma inv_head s P Q : full_inv s P Q → ∃ hd, deref (Some head) (s_heap s) = Ret hd ∧ next hd = first_or (P ++ Q) None.
Proof.
  intros Hi. destruct (path_heap _ _ _ _ Hdll0 _ _ _ _ (fi_path _ _ _ Hi)) as [Hd _]. pose proof Hd as [_ [(hd & Hhd & _) _]].
  exists hd. simpl. rewrite Hhd. split; [done|]. by apply (dll_next _ [] head (P ++ Q) hd Hd).
Qed.

Lemma inv_round s P Q s' : full_inv s P Q → P ++ Q ≠ [] → check_iter model computePartial s head = Ret (inr s') → round s s'.
Proof.
  intros Hi Hne Hit. split; [|done]. destruct (inv_head s P Q Hi) as (hd & Hhd & Hn). destruct (P ++ Q)%list as [|x R] eqn:E; [done|]. by exists hd, x.
Qed.

(** While operations remain, the search does not run off the list. *)
Lemma inv_nonempty s P Q : full_inv s P Q → P ++ Q ≠ [] → Q ≠ [].
Proof.
  intros Hi Hne ->. rewrite app_nil_r in Hne. destruct P as [|e P]; [done|]. pose proof (fi_path _ _ _ Hi) as Hp. rewrite app_nil_r in Hp.
  pose proof (fi_calls _ _ _ Hi) as HP. assert (Hc : is_call e) by (by inversion HP). destruct (mt e) as [m|] eqn:Hmt; [|done].
  pose proof (path_paired _ _ _ _ _ Hwf Hdll0 Hnodes _ _ _ _ e m Hp ltac:(by left) Hmt) as Hem.
  assert (HmP : m ∈ e :: P) by (eapply elem_of_submseteq; [|apply sublist_submseteq, Hem]; set_solver).
  assert (HeR : e ∈ R0) by (eapply elem_of_submseteq; [|apply sublist_submseteq; eapply path_sublist, Hp]; by left).
  destruct (mt_after es h0 R0 Hnodes e m HeR Hmt) as [_ Hmn]. rewrite Forall_forall in HP. by apply (HP m HmP).
Qed.

(** From every state the search comes to the end of the list, or back to the same
    calls with all of them passed over. *)
Lemma explore N : ∀ s P Q, full_inv s P Q → (length (P ++ Q) < N)%nat →
  ∃ s' P' Q', rtc round s s' ∧ full_inv s' P' Q' ∧ (P' ++ Q' = [] ∨ (calls s' = calls s ∧ ∃ m Q2, Q' = m :: Q2 ∧ ¬ is_call m)).
Proof.
  induction N as [|N IHN]; intros s P Q Hi HN; [lia|].
  revert s P Hi HN. induction Q as [|e Q IHQ]; intros s P Hi HN.
  - exists s, P, []. split; [done|]. split; [done|]. left. destruct (decide (P ++ [] = [])); [done|]. by destruct (inv_nonempty s P [] Hi).
  - destruct (decide (is_call e)) as [Hc|Hc]; [|exists s, P, (e :: Q); split; [done|]; split; [done|]; right; split; [done|]; by exists e, Q].
    assert (Hne : P ++ e :: Q ≠ []) by by destruct P.
    destruct (iter_call s P e Q Hi Hc) as (s1 & Hit & [[Hi1 Hc1]|(R & Hi1 & Hc1 & Hlt)]); pose proof (inv_round _ _ _ _ Hi Hne Hit) as Hround.
    + destruct (IHQ s1 (P ++ [e])%list Hi1) as (s' & P' & Q' & Hrtc & Hi' & Hend); [by rewrite <-app_assoc|].
      exists s', P', Q'. split; [by eapply rtc_l|]. split; [done|]. by rewrite <-Hc1.
    + destruct (IHN s1 [] R Hi1) as (s2 & P2 & Q2 & Hrtc & Hi2 & [Hend|(Hc2 & m & Q3 & -> & Hm)]); [simpl; lia| |].
      { exists s2, P2, Q2. split; [by eapply rtc_l|]. split; [done|]. by left. }
      destruct (iter_return s2 P2 m Q3 Hi2 Hm) as [(Hnil & _)|(cs & t & s3 & P3 & Q4 & Hcs & Hit2 & Hi3 & Hc3)]; [rewrite Hc2, Hc1 in Hnil; by destruct (calls s)|].
      rewrite Hc2, Hc1 in Hcs. apply app_inj_tail in Hcs as [<- <-]. simpl in Hi3.
      pose proof (inv_rest _ _ _ Hi3) as HR3. rewrite Hc3, (inv_rest _ _ _ Hi), <-app_assoc in HR3. simpl in HR3.
      apply NoDup_split_unique in HR3 as [<- <-]; [|rewrite <-(inv_rest _ _ _ Hi); apply rest_nodup].
      destruct (IHQ s3 (P ++ [e])%list Hi3) as (s' & P' & Q' & Hrtc' & Hi' & Hend); [by rewrite <-app_assoc|].
      assert (Hne2 : P2 ++ m :: Q3 ≠ []) by by destruct P2.
      exists s', P', Q'. split; [|split; [done|by rewrite <-Hc3]].
      eapply rtc_l; [done|]. etrans; [done|]. eapply rtc_l; [by eapply inv_round|done].
Qed.

Lemma check_loop_rounds k s s' : nsteps round k s s' → ∀ fuel i n,
  check_loop (k + fuel) (λ _, false) i model computePartial head n s = check_loop fuel (λ _, false) (k + i) model computePartial head n s'.
Proof.
  induction 1 as [s|k s s1 s2 [(hd & x & Hhd & Hn) Hit] _ IH]; intros fuel i n; [done|]. simpl. simpl in Hhd. rewrite Hhd. cbn [mbind outcome_bind].
  rewrite Hn, Hit. cbn [mbind outcome_bind]. rewrite IH. by replace (k + S i)%nat with (S (k + i)) by lia.
Qed.

Lemma check_loop_decides s n : full_inv s [] R0 → calls s = [] → ∃ fuel r,
  check_loop fuel (λ _, false) 0 model computePartial head n s = Ret (Some r) ∧ (ok r = false → ¬ completable [] (Init model)).
Proof.
  intros Hi Hc. destruct (explore (S (length R0)) s [] R0 Hi) as (s' & P' & Q' & Hrtc & Hi' & Hend); [simpl; lia|].
  apply rtc_nsteps in Hrtc as [k Hk]. exists (k + 1)%nat. rewrite (check_loop_rounds _ _ _ Hk). simpl.
  destruct (inv_head s' P' Q' Hi') as (hd & Hhd & Hn). simpl in Hhd. rewrite Hhd. cbn [mbind outcome_bind]. rewrite Hn.
  destruct Hend as [-> |(Hc' & m & Q2 & -> & Hm)].
  - simpl. destruct (call_ids_ok _ _ _ _ (calls s') (fi_path _ _ _ Hi')) as [seq ->]; [intros c Hin; by eapply path_calls_in; [apply (fi_path _ _ _ Hi')|]|].
    eexists. split; [done|]. done.
  - destruct (iter_return s' P' m Q2 Hi' Hm) as [(_ & Hit & Hno)|(cs & t & s3 & P3 & Q4 & Hcs & _)]; [|rewrite Hc', Hc in Hcs; by destruct cs].
    assert (Hfirst : ∃ x, first_or (P' ++ m :: Q2) None = Some x) by (destruct P'; by eexists). destruct Hfirst as [x ->].
    rewrite Hit. cbn [mbind outcome_bind]. eexists. split; [done|]. done.
Qed.
End Nodes.

(** ** The whole search *)

Lemma length_loop_ok {V : Type} (h : heap (V := V)) p R fuel : seg h p R None → (length R ≤ fuel)%nat →
  length_loop fuel (first_or R None) h = Ret (Z.of_nat (length R)).
Proof.
  revert p fuel. induction R as [|l R IH]; intros p fuel Hs Hf; [by destruct fuel|]. destruct fuel as [|fuel]; simpl in *; [lia|].
  destruct Hs as [(nd & Hnd & _ & Hn) Hs]. rewrite Hnd. cbn [mbind outcome_bind]. rewrite Hn, (IH _ _ Hs) by lia. cbn [mbind outcome_bind].
  f_equal. lia.
Qed.

(** The nodes of the list are at most as many as were allocated. *)
Lemma nodes_bound {V : Type} (h : heap (V := V)) R : dll h R → heap_below h → (length R ≤ fresh h)%nat.
Proof.
  intros [Hn Hs] Hb. rewrite <-(length_seq (fresh h) 0). apply submseteq_length, NoDup_submseteq; [done|]. intros l Hl.
  apply elem_of_seq. destruct (seg_dom _ _ _ _ _ Hs Hl) as [nd Hnd]. specialize (Hb l ltac:(by eexists)). lia.
Qed.

Lemma search_decides {V State : Type} (model : Model (V := V) (State := State)) (history : list (entry (V := V))) (computePartial : bool) :
  complete_history history → step_total model history → equal_sound model history →
  ∃ fuel r, checkSingle fuel (λ _, false) model history computePartial = Ret (Some r) ∧
    (ok r = true → linearization model history (order r)) ∧ (ok r = false → ∀ l, ¬ linearization model history l).
Proof.
  intros Hcomplete Htotal Hequal. pose proof (proj1 Hcomplete) as Hw.
  destruct (makeLinkedEntries_spec history) as (root & h & R & Hmk & -> & Hd & Hrep & Hb). pose proof (rep_length _ _ _ Hrep) as Hlen.
  set (nd0 := mkNode (V := V) None None (-1) None None). destruct (insert_front h R nd0 Hd Hb eq_refl eq_refl) as (h2 & Hi & Hd2 & _ & _ & _ & Hs).
  pose proof (rep_node_of h2 history R Hw (rep_same _ _ _ _ Hs Hrep)) as Hnodes. set (n := Z.quot (Z.of_nat (length history)) 2).
  set (s0 := mkSearch h2 (first_or R None) (newBitset n) ∅ [] (Init model) (replicate (Z.to_nat n) None) []).
  assert (Hn : 0 ≤ n) by (apply Z.quot_pos; lia). destruct (newBitset_spec n Hn) as (Hwords & _ & Hmem).
  assert (Hinv : full_inv model history (fresh h) h2 R s0 [] R).
  { split; simpl; try done.
    - apply path_nil.
    - split; [done|]. split; [done|]. intros q _. split; [by intros ?%Hmem|by intros ?%elem_of_nil].
    - intros cs1 t cs2 P Q Hcs. by destruct cs1.
    - by rewrite length_replicate. }
  destruct (check_loop_decides model history (fresh h) h2 R Hcomplete Hd2 Hlen Hnodes Htotal Hequal computePartial s0 (Z.to_nat n) Hinv eq_refl)
    as (fuel & r & Hr & Hno).
  assert (Hck : checkSingle fuel (λ _, false) model history computePartial = Ret (Some r)).
  { unfold checkSingle. rewrite Hmk. cbn [mbind outcome_bind]. destruct Hd as [Hnd Hseg].
    rewrite (length_loop_ok h None R) by (done || (pose proof (nodes_bound h R (conj Hnd Hseg) Hb); lia)). cbn [mbind outcome_bind].
    rewrite Hlen. fold n nd0. unfold alloc in *. cbn [snd] in Hi. rewrite Hi. cbn [mbind outcome_bind]. exact Hr. }
  exists fuel, r. split; [done|]. split; [intros Hok; by eapply checkSingle_linearizes|].
  intros Hok l (Hperm & Hacc & Hord). apply (Hno Hok). exists l. split; [|done].
  rewrite Hperm, <-(operations_perm history h2 R Hnodes Hlen). unfold rest.
  rewrite (filter_all (λ l, node_id h2 l ∉ [])); [done|]. apply Forall_forall. intros x _. apply not_elem_of_nil.
Qed.

(** More fuel does not change an answer. *)
Lemma check_loop_mono {V State : Type} (model : Model (V := V) (State := State)) kill computePartial head n r fuel k i s :
  check_loop fuel kill i model computePartial head n s = Ret (Some r) → check_loop (fuel + k) kill i model computePartial head n s = Ret (Some r).
Proof.
  revert i s. induction fuel as [|fuel IH]; intros i s; [done|]. simpl. destruct (cells (s_heap s) !! head) as [hd|]; [|done]. cbn [mbind outcome_bind].
  destruct (next hd); [|done]. destruct (kill i); [done|]. destruct (check_iter model computePartial s head) as [[s'|s']| |]; try done. apply IH.
Qed.

Lemma checkSingle_mono {V State : Type} (model : Model (V := V) (State := State)) kill history computePartial r fuel fuel' :
  (fuel ≤ fuel')%nat → checkSingle fuel kill model history computePartial = Ret (Some r) → checkSingle fuel' kill model history computePartial = Ret (Some r).
Proof.
  intros Hf H. replace fuel' with (fuel + (fuel' - fuel))%nat by lia. unfold checkSingle in *.
  apply bind_Ret_inv in H as ([root h] & -> & H). cbn [mbind outcome_bind]. apply bind_Ret_inv in H as (len & -> & H). cbn [mbind outcome_bind].
  destruct (alloc _ h) as [hd h1]. apply bind_Ret_inv in H as (h2 & -> & H). cbn [mbind outcome_bind]. by apply check_loop_mono.
Qed.

(** C7 (the search decides linearizability).  On a complete history (every call
    has its return later and every return its call earlier, one of each per
    operation, operations numbered below half the length), for a model whose step
    returns on the operations of the history and whose equal states accept the same
    operations, [checkSingle] ends without a panic, with the same answer for all
    larger bounds on the number of rounds.  It answers true exactly when the history
    has a linearization, and then the order it found is one. *)
Theorem checkSingle_decides {V State : Type} (model : Model (V := V) (State := State)) (history : list (entry (V := V))) (computePartial : bool) :
  complete_history history → step_total model history → equal_sound model history →
  ∃ fuel r, (∀ fuel', (fuel ≤ fuel')%nat → checkSingle fuel' (λ _, false) model history computePartial = Ret (Some r)) ∧
    (ok r = true ↔ ∃ l, linearization model history l) ∧ (ok r = true → linearization model history (order r)).
Proof.
  intros Hc Ht He. destruct (search_decides model history computePartial Hc Ht He) as (fuel & r & Hr & Hyes & Hno).
  exists fuel, r. split; [intros fuel' Hf; by eapply checkSingle_mono|]. split; [|done]. split; [eauto|]. intros [l Hl].
  destruct (ok r); [done|]. by destruct (Hno eq_refl l).
Qed.

Lemma register_complete : complete_history register_history.
Proof.
  split; [split|split].
  - intros i e Hi Hk. destruct i as [|[|[|[|[|[|i]]]]]]; simpl in Hi; try discriminate Hi; injection Hi as <-; try discriminate Hk.
    + exists 2%nat. eexists. repeat split; lia.
    + exists 3%nat. eexists. repeat split; lia.
    + exists 5%nat. eexists. repeat split; lia.
  - intros i j e e' Hi Hj. destruct i as [|[|[|[|[|[|i]]]]]]; simpl in Hi; try discriminate Hi; injection Hi as <-;
      destruct j as [|[|[|[|[|[|j]]]]]]; simpl in Hj; try discriminate Hj; injection Hj as <-; simpl; intros; done.
  - intros j r Hj Hk. destruct j as [|[|[|[|[|[|j]]]]]]; simpl in Hj; try discriminate Hj; injection Hj as <-; try discriminate Hk.
    + exists 0%nat. eexists. repeat split; lia.
    + exists 1%nat. eexists. repeat split; lia.
    + exists 4%nat. eexists. repeat split; lia.
  - intros e He. unfold register_history in He. rewrite !elem_of_cons, elem_of_nil in He.
    change (Z.quot (Z.of_nat (length register_history)) 2) with 3. destruct He as [->|[->|[->|[->|[->|[->|[]]]]]]]; simpl; lia.
Qed.

Lemma checkSingle_decides_witness :
  ∃ fuel r, (∀ fuel', (fuel ≤ fuel')%nat → checkSingle fuel' (λ _, false) register register_history false = Ret (Some r)) ∧
    (ok r = true ↔ ∃ l, linearization register register_history l) ∧ (ok r = true → linearization register register_history (order r)).
Proof.
  apply (checkSingle_decides register register_history false register_complete).
  - intros st c r _ _ _ _ _. destruct (value c) as [v|u], (value r) as [w|u']; simpl; eauto.
  - intros a b Hab%Z.eqb_eq. subst. auto.
Defined.
