(* ===== verification/PorcCheck.v ===== *)
(** * Lab2_MapReduce, porcupine: checking operations and the key/value model

    [checkOperations], [checkEvents] and the functions of [porcupine/porcupine.go]
    on top of the search, the default functions of [porcupine/model.go], and the
    model of [models/kv.go].  The theorems lift the soundness of the search to
    histories of operations with call and return times, and to the key/value model
    with its partition by key. *)

From S2P Require Import Prelude PorcBitset PorcChecker PorcList PorcSound PorcComplete.
Open Scope string_scope.
Open Scope Z_scope.

(** ** The model with its optional functions *)

Section Full.
Context {V State : Type} `{!EqDecision State}.

(** [nil] functions are [None]; the functions that describe values are only used
    for the visualization. *)
Record FullModel := mkFullModel {
  Partition : option (list (Operation (V := V)) → outcome (list (list (Operation (V := V)))));
  PartitionEvent : option (list (Event (V := V)) → outcome (list (list (Event (V := V)))));
  m_Init : State;
  m_Step : State → V → V → outcome (bool * State);
  m_Equal : option (State → State → bool)
}.

Definition NoPartition (history : list (Operation (V := V))) : outcome (list (list (Operation (V := V)))) := Ret [history].
Definition NoPartitionEvent (history : list (Event (V := V))) : outcome (list (list (Event (V := V)))) := Ret [history].
Definition ShallowEqual (state1 state2 : State) : bool := bool_decide (state1 = state2).

Definition fillDefault (model : FullModel) : FullModel :=
  mkFullModel (Some (default NoPartition (Partition model))) (Some (default NoPartitionEvent (PartitionEvent model)))
    (m_Init model) (m_Step model) (Some (default ShallowEqual (m_Equal model))).

(** Calling a function value that may be nil. *)
Definition call {A : Type} (f : option A) : outcome A := match f with Some g => Ret g | None => Panic end.

(** The search calls [Equal] on the filled model. *)
Definition search_model (model : FullModel) : Model (V := V) (State := State) :=
  mkModel (m_Init model) (m_Step model) (default ShallowEqual (m_Equal model)).

Context (sort : list (entry (V := V)) → list (entry (V := V))).

Definition checkOperations (fuel : nat) (model : FullModel) (history : list (Operation (V := V))) (verbose : bool) (sched : list (option nat)) :
    outcome (option CheckResult) :=
  let model := fillDefault model in
  part ← call (Partition model);
  partitions ← part history;
  checkParallel fuel (search_model model) (makeEntries sort <$> partitions) verbose sched.

Definition checkEvents (fuel : nat) (model : FullModel) (history : list (Event (V := V))) (verbose : bool) (sched : list (option nat)) :
    outcome (option CheckResult) :=
  let model := fillDefault model in
  part ← call (PartitionEvent model);
  partitions ← part history;
  checkParallel fuel (search_model model) ((λ h, convertEntries (renumber h)) <$> partitions) verbose sched.

(** Without a timeout the select never receives one: [sched] is a list of partitions. *)
Definition is_Ok (res : option CheckResult) : option bool :=
  match res with None => None | Some Ok => Some true | Some _ => Some false end.

Definition CheckOperations (fuel : nat) (model : FullModel) (history : list (Operation (V := V))) (sched : list nat) : outcome (option bool) :=
  res ← checkOperations fuel model history false (Some <$> sched); Ret (is_Ok res).

Definition CheckOperationsTimeout (fuel : nat) (model : FullModel) (history : list (Operation (V := V))) (sched : list (option nat)) :
    outcome (option CheckResult) := checkOperations fuel model history false sched.

Definition CheckOperationsVerbose (fuel : nat) (model : FullModel) (history : list (Operation (V := V))) (sched : list (option nat)) :
    outcome (option CheckResult) := checkOperations fuel model history true sched.

Definition CheckEvents (fuel : nat) (model : FullModel) (history : list (Event (V := V))) (sched : list nat) : outcome (option bool) :=
  res ← checkEvents fuel model history false (Some <$> sched); Ret (is_Ok res).

Definition CheckEventsTimeout (fuel : nat) (model : FullModel) (history : list (Event (V := V))) (sched : list (option nat)) :
    outcome (option CheckResult) := checkEvents fuel model history false sched.

Definition CheckEventsVerbose (fuel : nat) (model : FullModel) (history : list (Event (V := V))) (sched : list (option nat)) :
    outcome (option CheckResult) := checkEvents fuel model history true sched.
End Full.

(** ** models/kv.go *)

Record KvInput := mkKvInput { Op : Z; Key : string; Value : string }.
Record KvOutput := mkKvOutput { out_Value : string }.

(** The dynamic types of the values of a history. *)
Inductive KvValue := KvIn (i : KvInput) | KvOut (o : KvOutput).

Module KvModel.
(** A type assertion on a value of the other type panics. *)
Definition as_input (v : KvValue) : outcome KvInput := match v with KvIn i => Ret i | KvOut _ => Panic end.
Definition as_output (v : KvValue) : outcome KvOutput := match v with KvOut o => Ret o | KvIn _ => Panic end.

Fixpoint group_by_key (history : list (Operation (V := KvValue))) (m : gmap string (list (Operation (V := KvValue)))) :
    outcome (gmap string (list (Operation (V := KvValue)))) :=
  match history with
  | [] => Ret m
  | v :: history' =>
      inp ← as_input (Input v);
      group_by_key history' (<[Key inp := (default [] (m !! Key inp) ++ [v])%list]> m)
  end.

Definition Partition (history : list (Operation (V := KvValue))) : outcome (list (list (Operation (V := KvValue)))) :=
  m ← group_by_key history ∅;
  let keys := sort_Strings (map_to_list m).*1 in
  Ret ((λ k, default [] (m !! k)) <$> keys).

Definition Init : string := "".

Definition Step (state : string) (input output : KvValue) : outcome (bool * string) :=
  inp ← as_input input;
  out ← as_output output;
  Ret (if Op inp =? 0 then (bool_decide (out_Value out = state), state)
       else if Op inp =? 1 then (true, Value inp)
       else (true, state +:+ Value inp)).

(** The text shown for an operation in a visualization. *)
Definition DescribeOperation (input output : KvValue) : outcome string :=
  inp ← as_input input;
  out ← as_output output;
  Ret (if Op inp =? 0 then "get('" +:+ Key inp +:+ "') -> '" +:+ out_Value out +:+ "'"
       else if Op inp =? 1 then "put('" +:+ Key inp +:+ "', '" +:+ Value inp +:+ "')"
       else if Op inp =? 2 then "append('" +:+ Key inp +:+ "', '" +:+ Value inp +:+ "')"
       else "<invalid>").

Definition model : FullModel := mkFullModel (Some Partition) None Init Step None.
End KvModel.

(** ** Sorting by time *)

(** [a] may stand before [b]: what [sort.Sort] with [byTime] leaves. *)
Definition not_after {V : Type} (a b : entry (V := V)) : Prop := Less b a = false.

#[global] Instance not_after_dec {V} (a b : entry (V := V)) : Decision (not_after a b).
Proof. unfold not_after. apply _. Defined.

Lemma not_after_spec {V} (a b : entry (V := V)) :
  not_after a b ↔ time a < time b ∨ (time a = time b ∧ (kind a = callEntry ∨ kind b = returnEntry)).
Proof.
  unfold not_after, Less. destruct (Z.eqb_spec (time b) (time a)) as [He|He].
  - destruct (kind a), (kind b); simpl; split; intros H; try done; try (right; split; [done|tauto]).
    destruct H as [?|[_ [[=]|[=]]]]. lia.
  - destruct (Z.ltb_spec (time b) (time a)); split; intros H'; try done; [destruct H'; lia|left; lia].
Qed.

#[global] Instance not_after_total {V} : Total (not_after (V := V)).
Proof. intros a b. rewrite !not_after_spec. destruct (kind a), (kind b); destruct (Z.lt_trichotomy (time a) (time b)) as [|[|]]; naive_solver. Qed.

#[global] Instance not_after_trans {V} : Transitive (not_after (V := V)).
Proof. intros a b c. rewrite !not_after_spec. destruct (kind a), (kind b), (kind c); intros; intuition (lia || congruence). Qed.

(** What [sort.Sort] promises: it is not stable. *)
Class TimeSort {V : Type} (sort : list (entry (V := V)) → list (entry (V := V))) := {
  time_sort_perm : ∀ l, sort l ≡ₚ l;
  time_sort_sorted : ∀ l, Sorted not_after (sort l)
}.

#[global] Instance merge_time_sort {V} : TimeSort (V := V) (merge_sort not_after).
Proof. split; [intros l; apply merge_sort_Permutation|intros l; apply (Sorted_merge_sort _)]. Qed.

Lemma sorted_pair {V} (l : list (entry (V := V))) i j a b : Sorted not_after l → l !! i = Some a → l !! j = Some b → (i < j)%nat → not_after a b.
Proof.
  intros Hs%Sorted_StronglySorted; [|apply _]. revert i j. induction Hs as [|x l Hs IH Hx]; intros i j Hi Hj Hij; [done|].
  destruct j as [|j]; [lia|]. destruct i as [|i]; simpl in *; [|eapply IH; try done; lia].
  injection Hi as ->. by eapply Forall_lookup_1.
Qed.

(** ** The entries of a history of operations *)

Section Ops.
Context {V State : Type} `{!EqDecision State}.
Context (sort : list (entry (V := V)) → list (entry (V := V))) `{!TimeSort sort}.
Implicit Types (ops : list (Operation (V := V))).

Definition call_of (i : Z) (op : Operation (V := V)) : entry := mkEntry callEntry (Input op) i (Call op) (op_ClientId op).
Definition return_of (i : Z) (op : Operation (V := V)) : entry := mkEntry returnEntry (Output op) i (Return op) (op_ClientId op).

Lemma op_entries_elem n ops e : e ∈ op_entries n ops ↔
  ∃ k op, ops !! k = Some op ∧ (e = call_of (n + Z.of_nat k) op ∨ e = return_of (n + Z.of_nat k) op).
Proof.
  revert n. induction ops as [|op ops IH]; intros n; simpl.
  - rewrite elem_of_nil. naive_solver.
  - rewrite !elem_of_cons, IH. split.
    + intros [->|[->|(k & o & Hk & He)]]; [exists 0%nat, op; rewrite Z.add_0_r; auto..|].
      exists (S k), o. replace (n + Z.of_nat (S k)) with (n + 1 + Z.of_nat k) by lia. done.
    + intros ([|k] & o & Hk & He); simpl in Hk; [injection Hk as <-; rewrite Z.add_0_r in He; tauto|].
      right. right. exists k, o. replace (n + Z.of_nat (S k)) with (n + 1 + Z.of_nat k) in He by lia. done.
Qed.

Lemma op_entries_keys_ge n ops e : e ∈ op_entries n ops → n ≤ id e.
Proof. intros (k & op & _ & [-> | ->])%op_entries_elem; simpl; lia. Qed.

Lemma op_entries_nodup n ops : NoDup ((λ e, (kind e, id e)) <$> op_entries n ops).
Proof.
  revert n. induction ops as [|op ops IH]; intros n; simpl; [constructor|].
  assert (Hn : ∀ k, (k, n) ∉ (λ e, (kind e, id e)) <$> op_entries (n + 1) ops).
  { intros k ([? ?] & [= _ ?] & Hin%op_entries_keys_ge)%list_elem_of_fmap. simpl in *. lia. }
  constructor; [|constructor; [apply Hn|apply IH]]. rewrite elem_of_cons. intros [[=]|Hin]. by apply (Hn _ Hin).
Qed.

Lemma op_entries_operations n ops : operations (op_entries n ops) = seqZ n (Z.of_nat (length ops)).
Proof.
  revert n. induction ops as [|op ops IH]; intros n; [done|]. unfold operations in *. cbn [op_entries].
  rewrite filter_cons_True, filter_cons_False by done. simpl length. rewrite Nat2Z.inj_succ, seqZ_cons by lia. simpl. f_equal.
  rewrite IH. f_equal; lia.
Qed.

Lemma makeEntries_elem ops e : e ∈ makeEntries sort ops ↔
  ∃ k op, ops !! k = Some op ∧ (e = call_of (Z.of_nat k) op ∨ e = return_of (Z.of_nat k) op).
Proof. unfold makeEntries. rewrite time_sort_perm. apply (op_entries_elem 0). Qed.

Lemma makeEntries_unique ops i j e e' : makeEntries sort ops !! i = Some e → makeEntries sort ops !! j = Some e' →
  kind e = kind e' → id e = id e' → i = j.
Proof.
  intros Hi Hj Hk Hid. assert (Hn : NoDup ((λ e, (kind e, id e)) <$> makeEntries sort ops)).
  { unfold makeEntries. rewrite time_sort_perm. apply op_entries_nodup. }
  eapply (NoDup_lookup _ _ _ (kind e, id e) Hn); rewrite list_lookup_fmap; [by rewrite Hi|rewrite Hj; simpl; congruence].
Qed.

(** An entry strictly earlier in the order stands earlier in the list. *)
Lemma makeEntries_before ops a b : a ∈ makeEntries sort ops → b ∈ makeEntries sort ops → ¬ not_after b a → a ≠ b →
  [a; b] `sublist_of` makeEntries sort ops.
Proof.
  intros [i Hi]%list_elem_of_lookup [j Hj]%list_elem_of_lookup Hnot Hne. apply sublist_pair_lookup. exists i, j. split; [|done].
  destruct (Nat.lt_trichotomy i j) as [|[->|Hji]]; [done|congruence|]. destruct Hnot.
  eapply sorted_pair; [apply time_sort_sorted|exact Hj|exact Hi|done].
Qed.

Definition timed (op : Operation (V := V)) : Prop := Call op ≤ Return op.

Lemma makeEntries_wf ops : Forall timed ops → wf_history (makeEntries sort ops).
Proof.
  intros Ht. split; [|apply makeEntries_unique]. intros i e Hi Hk.
  destruct (proj1 (makeEntries_elem ops e)) as (k & op & Hop & He); [by eapply list_elem_of_lookup_2|]. destruct He as [-> | ->]; [|done].
  assert (Hr : return_of (Z.of_nat k) op ∈ makeEntries sort ops) by (apply makeEntries_elem; eauto).
  assert (Hs : [call_of (Z.of_nat k) op; return_of (Z.of_nat k) op] `sublist_of` makeEntries sort ops).
  { apply makeEntries_before; [by eapply list_elem_of_lookup_2|done| |done]. rewrite not_after_spec. simpl.
    pose proof (Forall_lookup_1 _ _ _ _ Ht Hop) as Hc. unfold timed in Hc. intros [?|[_ [[=]|[=]]]]. lia. }
  apply sublist_pair_lookup in Hs as (i' & j & Hij & Hi' & Hj).
  assert (i' = i) as -> by by eapply makeEntries_unique. by exists j, (return_of (Z.of_nat k) op).
Qed.

(** ** Linearizations of operations *)

(** The model accepts the operations with numbers [ids] one after the other. *)
Fixpoint op_accepted (model : Model (V := V) (State := State)) ops (st : State) (ids : list Z) : Prop :=
  match ids with
  | [] => True
  | i :: ids' => ∃ op st', ops !! Z.to_nat i = Some op ∧ Step model st (Input op) (Output op) = Ret (true, st') ∧ op_accepted model ops st' ids'
  end.

(** [ids] orders all operations so that the model accepts them and an operation
    that returned before another was called comes first. *)
Definition op_linearization (model : Model (V := V) (State := State)) ops (ids : list Z) : Prop :=
  ids ≡ₚ seqZ 0 (Z.of_nat (length ops)) ∧ op_accepted model ops (Init model) ids ∧
  ∀ i j a b, [i; j] `sublist_of` ids → ops !! Z.to_nat i = Some a → ops !! Z.to_nat j = Some b → ¬ Return b < Call a.

Lemma accepted_ops model ops st ids : accepted model (makeEntries sort ops) st ids → op_accepted model ops st ids.
Proof.
  revert st. induction ids as [|i ids IH]; intros st; simpl; [done|]. intros (c & r & st' & Hc & Hr & Hkc & Hkr & Hic & Hir & Hst & Hrest).
  apply makeEntries_elem in Hc as (k & op & Hop & [-> | ->]); [|done]. apply makeEntries_elem in Hr as (k' & op' & Hop' & [-> | ->]); [done|].
  simpl in *. assert (k' = k) as -> by lia. assert (op' = op) as -> by congruence. exists op, st'. subst i. rewrite Nat2Z.id.
  split; [done|]. split; [done|]. by apply IH.
Qed.

Lemma linearization_ops model ops ids : linearization model (makeEntries sort ops) ids → op_linearization model ops ids.
Proof.
  intros (Hperm & Hacc & Hord). assert (Hseq : ids ≡ₚ seqZ 0 (Z.of_nat (length ops))).
  { rewrite Hperm, <-op_entries_operations. unfold operations, makeEntries. by rewrite time_sort_perm. }
  split; [done|]. split; [by apply accepted_ops|]. intros i j a b Hij Ha Hb Hlt. apply (Hord i j Hij).
  assert (Hpos : ∀ x, x ∈ [i; j] → 0 ≤ x).
  { intros x Hx. assert (Hin : x ∈ ids) by (eapply elem_of_submseteq; [exact Hx|by apply sublist_submseteq]).
    rewrite Hseq, elem_of_seqZ in Hin. lia. }
  pose proof (Hpos i ltac:(set_solver)). pose proof (Hpos j ltac:(set_solver)).
  exists (return_of j b), (call_of i a). split; [|done]. apply makeEntries_before; [| | |done].
  - apply makeEntries_elem. exists (Z.to_nat j), b. rewrite Z2Nat.id by lia. auto.
  - apply makeEntries_elem. exists (Z.to_nat i), a. rewrite Z2Nat.id by lia. auto.
  - rewrite not_after_spec. simpl. lia.
Qed.

(** ** All partitions *)

(** The search answers true for partition [i]. *)
Definition passed (fuel : nat) (model : Model (V := V) (State := State)) (history : list (list (entry (V := V)))) (computeInfo : bool) (i : nat) : Prop :=
  ∀ h, history !! i = Some h → ∃ r, checkSingle fuel (λ _, false) model h computeInfo = Ret (Some r) ∧ ok r = true.

Lemma pigeonhole l n j : NoDup l → (∀ x, x ∈ l → (x < n)%nat) → (n ≤ length l)%nat → (j < n)%nat → j ∈ l.
Proof.
  intros Hn Hlt Hlen Hj. assert (Hp : l ≡ₚ seq 0 n).
  { apply submseteq_length_Permutation; [|by rewrite length_seq]. apply NoDup_submseteq; [done|]. intros x Hx. apply elem_of_seq.
    specialize (Hlt x Hx). lia. }
  rewrite Hp. apply elem_of_seq. lia.
Qed.

Lemma parallel_loop_ok fuel model history computeInfo sched okay received :
  parallel_loop fuel model history computeInfo sched okay received = Ret (Some (true, false)) →
  NoDup received → (∀ i, i ∈ received → (i < length history)%nat) →
  (okay = true → ∀ i, i ∈ received → passed fuel model history computeInfo i) → ∀ i, passed fuel model history computeInfo i.
Proof.
  revert okay received. induction sched as [|[i|] sched IH]; intros okay received H Hnd Hlt Hrec; simpl in H; try done.
  destruct (history !! i) as [h|] eqn:Hi; [|done]. case_bool_decide as Hin; [done|].
  apply bind_Ret_inv in H as ([r|] & Hres & H); [|done].
  assert (Hnd' : NoDup (i :: received)) by by constructor.
  assert (Hlt' : ∀ j, j ∈ i :: received → (j < length history)%nat).
  { intros j [->|Hj]%elem_of_cons; [by eapply lookup_lt_Some|by apply Hlt]. }
  assert (Hrec' : okay && ok r = true → ∀ j, j ∈ i :: received → passed fuel model history computeInfo j).
  { intros [Ho Hr]%andb_true_iff j [->|Hj]%elem_of_cons; [|by apply Hrec]. intros h' Hh'. exists r. split; [congruence|done]. }
  destruct (negb (okay && ok r) && negb computeInfo) eqn:E; [destruct (okay && ok r); simplify_eq/=|].
  destruct (Nat.leb_spec (length history) (S (length received))) as [Hle|Hle]; [|by eapply IH].
  injection H as Hok. intros j h' Hh'. apply (Hrec' Hok j); [|done]. eapply (pigeonhole _ (length history)); [done..|]. by eapply lookup_lt_Some.
Qed.

Lemma checkParallel_Ok fuel model history computeInfo sched : checkParallel fuel model history computeInfo sched = Ret (Some Ok) →
  ∀ i, passed fuel model history computeInfo i.
Proof.
  unfold checkParallel. intros H. apply bind_Ret_inv in H as ([[okay timedOut]|] & H & Hr); [|done]. destruct okay, timedOut; try done.
  eapply parallel_loop_ok; [exact H|constructor|by intros ? ?%elem_of_nil|by intros _ ? ?%elem_of_nil].
Qed.

Lemma checkOperations_ops fuel (model : FullModel (V := V) (State := State)) history sched parts :
  default NoPartition (Partition model) history = Ret parts →
  checkOperations sort fuel model history false sched = Ret (Some Ok) →
  ∀ ops, ops ∈ parts → Forall timed ops → ∃ ids, op_linearization (search_model (fillDefault model)) ops ids.
Proof.
  intros Hpart H ops [i Hi]%list_elem_of_lookup Ht. unfold checkOperations in H. cbn [fillDefault Partition call mbind outcome_bind] in H.
  rewrite Hpart in H. cbn [mbind outcome_bind] in H.
  destruct (checkParallel_Ok _ _ _ _ _ H i (makeEntries sort ops)) as (r & Hr & Hok); [by rewrite list_lookup_fmap, Hi|].
  exists (order r). apply linearization_ops. eapply checkSingle_linearizes; [by apply makeEntries_wf|done..].
Qed.

(** *** Both directions *)

Lemma op_accepted_entries model ops st ids : (∀ i, i ∈ ids → 0 ≤ i) → op_accepted model ops st ids → accepted model (makeEntries sort ops) st ids.
Proof.
  revert st. induction ids as [|i ids IH]; intros st Hpos; simpl; [done|]. intros (op & st' & Hop & Hst & Hrest).
  assert (0 ≤ i) by (apply Hpos; by left). exists (call_of i op), (return_of i op), st'.
  assert (Hin : ∀ e, e = call_of i op ∨ e = return_of i op → e ∈ makeEntries sort ops).
  { intros e He. apply makeEntries_elem. exists (Z.to_nat i), op. rewrite Z2Nat.id by done. done. }
  split; [apply Hin; by left|]. split; [apply Hin; by right|]. do 5 (split; [done|]). apply IH; [set_solver|done].
Qed.

Lemma ops_linearization model ops ids : op_linearization model ops ids → linearization model (makeEntries sort ops) ids.
Proof.
  intros (Hperm & Hacc & Hord). assert (Hpos : ∀ i, i ∈ ids → 0 ≤ i) by (intros i; rewrite Hperm, elem_of_seqZ; lia).
  split; [rewrite Hperm, <-op_entries_operations; unfold operations, makeEntries; by rewrite time_sort_perm|].
  split; [by apply op_accepted_entries|]. intros i j Hij (r & c & Hs & Hkr & Hir & Hkc & Hic).
  apply sublist_pair_lookup in Hs as (a & b & Hab & Ha & Hb).
  pose proof (sorted_pair _ _ _ _ _ (time_sort_sorted _) Ha Hb Hab) as Hna. rewrite not_after_spec in Hna.
  destruct (proj1 (makeEntries_elem ops r)) as (k & op & Hop & [-> | ->]); [by eapply list_elem_of_lookup_2|done|].
  destruct (proj1 (makeEntries_elem ops c)) as (k' & op' & Hop' & [-> | ->]); [by eapply list_elem_of_lookup_2| |done]. simpl in *. subst.
  apply (Hord (Z.of_nat k') (Z.of_nat k) op' op Hij); [by rewrite Nat2Z.id..|]. destruct Hna as [?|[_ [[=]|[=]]]]. done.
Qed.

Lemma op_entries_length n ops : length (op_entries n ops) = (2 * length ops)%nat.
Proof. revert n. induction ops as [|op ops IH]; intros n; simpl; [done|]. rewrite IH. lia. Qed.

Lemma makeEntries_complete ops : Forall timed ops → complete_history (makeEntries sort ops).
Proof.
  intros Ht. pose proof (makeEntries_wf ops Ht) as Hw. split; [done|]. split.
  - intros j r Hj Hk. destruct (proj1 (makeEntries_elem ops r)) as (k & op & Hop & [-> | ->]); [by eapply list_elem_of_lookup_2|done|].
    destruct (proj1 (list_elem_of_lookup (makeEntries sort ops) (call_of (Z.of_nat k) op))) as [i Hi]; [apply makeEntries_elem; eauto|].
    destruct (proj1 Hw i _ Hi eq_refl) as (j' & r & Hij & Hj' & Hkr & Hidr). simpl in Hidr.
    assert (j' = j) as -> by (by eapply (makeEntries_unique ops j' j r (return_of (Z.of_nat k) op))). by exists i, (call_of (Z.of_nat k) op).
  - intros e (k & op & Hop & He)%makeEntries_elem. apply lookup_lt_Some in Hop. unfold makeEntries. rewrite time_sort_perm, op_entries_length.
    replace (Z.of_nat (2 * length ops)) with (Z.of_nat (length ops) * 2) by lia. rewrite Z.quot_mul by lia. destruct He as [-> | ->]; simpl; lia.
Qed.

(** Enough rounds for all partitions. *)
Lemma all_decided (model : Model (V := V) (State := State)) (hs : list (list (entry (V := V)))) :
  (∀ h, h ∈ hs → complete_history h ∧ step_total model h ∧ equal_sound model h) →
  ∃ fuel, ∀ fuel', (fuel ≤ fuel')%nat → ∀ h, h ∈ hs → ∃ r, checkSingle fuel' (λ _, false) model h false = Ret (Some r) ∧
    (ok r = true ↔ ∃ l, linearization model h l).
Proof.
  induction hs as [|h hs IH]; intros Hh; [exists 0%nat; by intros ? ? ? ?%elem_of_nil|].
  destruct IH as [f1 Hf1]; [intros x Hx; apply Hh; by right|]. destruct (Hh h ltac:(by left)) as (Hc & Ht & He).
  destruct (search_decides model h false Hc Ht He) as (f2 & r & Hr & Hyes & Hno). exists (f1 `max` f2)%nat. intros fuel' Hf x [->|Hx]%elem_of_cons.
  - exists r. split; [eapply checkSingle_mono; [|done]; lia|]. split; [eauto|]. intros [l Hl]. destruct (ok r); [done|]. by destruct (Hno eq_refl l).
  - apply Hf1; [lia|done].
Qed.

Lemma parallel_loop_total fuel (model : Model (V := V) (State := State)) hs sched okay received :
  (∀ h, h ∈ hs → ∃ r, checkSingle fuel (λ _, false) model h false = Ret (Some r) ∧ (ok r = true ↔ ∃ l, linearization model h l)) →
  NoDup sched → (∀ i, i ∈ sched → (i < length hs)%nat ∧ i ∉ received) → sched ≠ [] → (length received + length sched = length hs)%nat →
  ∃ b, parallel_loop fuel model hs false (Some <$> sched) okay received = Ret (Some (b, false)) ∧
    (b = true ↔ okay = true ∧ ∀ i h, i ∈ sched → hs !! i = Some h → ∃ l, linearization model h l).
Proof.
  intros Hhs. revert okay received. induction sched as [|i sched IH]; intros okay received Hnd Hin Hne Hlen; [done|].
  apply NoDup_cons in Hnd as [Hni Hnd]. destruct (Hin i ltac:(by left)) as [Hlt Hrec]. destruct (lookup_lt_is_Some_2 hs i Hlt) as [h Hh].
  simpl. rewrite Hh, bool_decide_false by done. destruct (Hhs h ltac:(by eapply list_elem_of_lookup_2)) as (r & -> & Hr). cbn [mbind outcome_bind].
  assert (Hi : ok r = true ↔ ∀ h', hs !! i = Some h' → ∃ l, linearization model h' l).
  { rewrite Hr. split; [intros Hl h' Hh'; by assert (h' = h) as -> by congruence|]. intros Hl. by apply Hl. }
  assert (Hsplit : (∀ j h', j ∈ i :: sched → hs !! j = Some h' → ∃ l, linearization model h' l) ↔
    ok r = true ∧ ∀ j h', j ∈ sched → hs !! j = Some h' → ∃ l, linearization model h' l).
  { rewrite Hi. setoid_rewrite elem_of_cons. naive_solver. }
  destruct (okay && ok r) eqn:Hok; cbn [negb andb].
  - apply andb_true_iff in Hok as [-> Hokr]. destruct (Nat.leb_spec (length hs) (S (length received))) as [Hle|Hle].
    + exists true. split; [done|]. destruct sched as [|j sched]; [|simpl in *; lia]. split; [|done]. intros _. split; [done|]. apply Hsplit.
      split; [done|]. by intros ? ? ?%elem_of_nil.
    + destruct (IH true (i :: received) Hnd) as (b & Hloop & Hb).
      * intros j Hj. destruct (Hin j ltac:(by right)). set_solver.
      * intros ->. simpl in *. lia.
      * simpl in *. lia.
      * exists b. split; [exact Hloop|]. rewrite Hb, Hsplit. naive_solver.
  - exists false. split; [done|]. split; [done|]. intros [-> Hall]. apply Hsplit in Hall as [Hokr _]. rewrite Hokr in Hok. done.
Qed.
End Ops.

(** ** The key/value model *)

(** The operation is a request on key [k]; its values have the model's types. *)
Definition on_key (k : string) (op : Operation (V := KvValue)) : Prop :=
  match Input op with KvIn i => Key i = k | KvOut _ => False end.

#[global] Instance on_key_dec k op : Decision (on_key k op).
Proof. unfold on_key. destruct (Input op); apply _. Defined.

Definition typed (op : Operation (V := KvValue)) : Prop :=
  match Input op, Output op with KvIn _, KvOut _ => True | _, _ => False end.

Lemma group_by_key_spec history m : Forall typed history → ∃ m', KvModel.group_by_key history m = Ret m' ∧
  ∀ k, default [] (m' !! k) = (default [] (m !! k) ++ filter (on_key k) history)%list ∧
    (is_Some (m' !! k) ↔ is_Some (m !! k) ∨ filter (on_key k) history ≠ []).
Proof.
  intros Ht. revert m. induction Ht as [|op history Hop _ IH]; intros m; simpl.
  - exists m. split; [done|]. intros k. rewrite app_nil_r. naive_solver.
  - unfold typed in Hop. destruct (Input op) as [i|] eqn:Hin; [|done]. simpl.
    destruct (IH (<[Key i := (default [] (m !! Key i) ++ [op])%list]> m)) as (m' & Hm' & Hk). exists m'. split; [done|]. intros k.
    destruct (Hk k) as [Hd Hs]. rewrite Hd, Hs. destruct (decide (Key i = k)) as [<-|Hne].
    + rewrite lookup_insert_eq, filter_cons_True by (unfold on_key; by rewrite Hin). simpl. rewrite <-app_assoc. split; [done|].
      split; [intros _; by right|]. intros _. left. by eexists.
    + rewrite lookup_insert_ne, filter_cons_False by (done || unfold on_key; by rewrite Hin). done.
Qed.

(** Each partition holds the operations on one key, in their order; every key of
    the history has its partition. *)
Lemma Partition_spec history : Forall typed history → ∃ parts, KvModel.Partition history = Ret parts ∧
  (∀ k, filter (on_key k) history ≠ [] → filter (on_key k) history ∈ parts) ∧
  (∀ ops, ops ∈ parts → ∃ k, ops = filter (on_key k) history).
Proof.
  intros Ht. destruct (group_by_key_spec history ∅ Ht) as (m & Hm & Hk). unfold KvModel.Partition. rewrite Hm. cbn [mbind outcome_bind].
  eexists. split; [done|]. assert (Heq : ∀ k, default [] (m !! k) = filter (on_key k) history) by (intros k; destruct (Hk k) as [-> _]; done). split.
  - intros k Hne. apply list_elem_of_fmap. exists k. split; [by rewrite Heq|]. unfold sort_Strings. rewrite merge_sort_Permutation.
    destruct (Hk k) as [_ [_ Hs]]. destruct Hs as [l Hl]; [by right|]. apply list_elem_of_fmap. exists (k, l). split; [done|]. by apply elem_of_map_to_list.
  - intros ops (k & -> & _)%list_elem_of_fmap. exists k. by rewrite Heq.
Qed.

Lemma kv_step_total (history : list (Operation (V := KvValue))) sort `{!TimeSort sort} : Forall typed history →
  step_total (search_model (fillDefault KvModel.model)) (makeEntries sort history).
Proof.
  intros Hty st c r Hc Hr Hkc Hkr Hid. apply (makeEntries_elem sort) in Hc as (k & op & Hop & [-> | ->]); [|done].
  apply (makeEntries_elem sort) in Hr as (k' & op' & Hop' & [-> | ->]); [done|]. simpl in Hid. assert (k' = k) as -> by lia.
  assert (op' = op) as -> by congruence. pose proof (Forall_lookup_1 _ _ _ _ Hty Hop) as Ht. unfold typed in Ht. simpl.
  unfold KvModel.Step. destruct (Input op); [|done]. destruct (Output op); [done|]. simpl. destruct (Op i =? 0), (Op i =? 1); eauto.
Qed.

Lemma kv_equal_sound es : equal_sound (search_model (fillDefault KvModel.model)) es.
Proof. intros a b Hab. simpl in Hab. apply bool_decide_eq_true_1 in Hab. by subst. Qed.

(** [CheckOperations] with the key/value model decides whether the operations on
    each key have a linearization. *)
Lemma CheckOperations_per_key (sort : list (entry (V := KvValue)) → list (entry (V := KvValue))) `{!TimeSort sort}
    (history : list (Operation (V := KvValue))) (parts : list (list (Operation (V := KvValue)))) (sched : list nat) :
  Forall typed history → Forall timed history → history ≠ [] →
  KvModel.Partition history = Ret parts → sched ≡ₚ seq 0 (length parts) →
  ∃ fuel b, (∀ fuel', (fuel ≤ fuel')%nat → CheckOperations sort fuel' KvModel.model history sched = Ret (Some b)) ∧
    (b = true ↔ ∀ k, ∃ ids, op_linearization (search_model (fillDefault KvModel.model)) (filter (on_key k) history) ids).
Proof.
  intros Hty Ht Hne Hp Hsched. set (m := search_model (fillDefault KvModel.model)). destruct (Partition_spec history Hty) as (parts' & Hp' & Hall & Hone).
  assert (parts' = parts) as -> by congruence.
  assert (Hsub : ∀ ops, ops ∈ parts → Forall typed ops ∧ Forall timed ops).
  { intros ops (k & ->)%Hone. rewrite Forall_forall in Hty, Ht. split; apply Forall_forall; intros op [_ ?]%list_elem_of_filter; auto. }
  assert (Hparts : ∀ ops, ops ∈ parts → (∃ l, linearization m (makeEntries sort ops) l) ↔ ∃ ids, op_linearization m ops ids).
  { intros ops _. split; intros [l Hl]; exists l; [by apply (linearization_ops sort)|by apply ops_linearization]. }
  destruct (all_decided m (makeEntries sort <$> parts)) as [fuel Hfuel].
  { intros h (ops & -> & [Ho1 Ho2]%Hsub)%list_elem_of_fmap. split; [by apply makeEntries_complete|]. split; [by apply kv_step_total|apply kv_equal_sound]. }
  assert (Hkey : ∃ k, filter (on_key k) history ≠ []).
  { destruct history as [|op history]; [done|]. inversion Hty as [|? ? Hop]; subst. unfold typed in Hop. destruct (Input op) as [i|] eqn:E; [|done].
    exists (Key i). rewrite filter_cons_True; [done|]. unfold on_key. by rewrite E. }
  assert (Hpne : parts ≠ []) by (destruct Hkey as [k Hk%Hall]; intros ->; by apply elem_of_nil in Hk).
  assert (Hrun : ∀ fuel', (fuel ≤ fuel')%nat → ∃ b, CheckOperations sort fuel' KvModel.model history sched = Ret (Some b) ∧
    (b = true ↔ ∀ k, ∃ ids, op_linearization m (filter (on_key k) history) ids)).
  { intros fuel' Hf. destruct (parallel_loop_total sort fuel' m (makeEntries sort <$> parts) sched true []) as (b & Hb & Hiff).
    - by apply Hfuel.
    - rewrite Hsched. apply NoDup_seq.
    - intros i. rewrite Hsched, elem_of_seq, length_fmap. set_solver by lia.
    - intros ->. apply Permutation_nil_l in Hsched. by destruct parts.
    - simpl. by rewrite Hsched, length_seq, length_fmap.
    - exists b. split.
      + assert (Hco : checkOperations sort fuel' KvModel.model history false (Some <$> sched) =
          (parts ← KvModel.Partition history; checkParallel fuel' m (makeEntries sort <$> parts) false (Some <$> sched))) by done.
        unfold CheckOperations. rewrite Hco, Hp. cbn [mbind outcome_bind].
        unfold checkParallel. rewrite Hb. cbn [mbind outcome_bind]. by destruct b.
      + rewrite Hiff. split.
        * intros [_ Hl] k. destruct (decide (filter (on_key k) history = [])) as [->|Hk]; [exists []; split; [done|]; split; [done|]; by intros ? ? ? ? ?%sublist_nil_r|].
          pose proof (Hall k Hk) as Hin. apply Hparts; [done|]. apply list_elem_of_lookup in Hin as [i Hi].
          apply (Hl i); [rewrite Hsched; apply elem_of_seq; apply lookup_lt_Some in Hi; lia|]. by rewrite list_lookup_fmap, Hi.
        * intros Hk. split; [done|]. intros i h _ Hi. rewrite list_lookup_fmap in Hi. apply fmap_Some in Hi as (ops & Hi & ->).
          assert (Hin : ops ∈ parts) by by eapply list_elem_of_lookup_2. apply Hparts; [done|]. destruct (Hone ops Hin) as [k ->]. apply Hk. }
  destruct (Hrun fuel (Nat.le_refl _)) as (b & Hb & Hiff). exists fuel, b. split; [|done]. intros fuel' Hf.
  destruct (Hrun fuel' Hf) as (b' & Hb' & Hiff'). rewrite Hb'. do 2 f_equal. destruct b, b'; naive_solver.
Qed.

(** Two clients on two keys: an append that overlaps a get of the old value, and a
    put on the other key that a later get sees. *)
Definition kv_history : list (Operation (V := KvValue)) :=
  [mkOperation 0 (KvIn (mkKvInput 2 "a" "x")) 0 (KvOut (mkKvOutput "")) 30;
   mkOperation 1 (KvIn (mkKvInput 0 "a" "")) 10 (KvOut (mkKvOutput "")) 20;
   mkOperation 1 (KvIn (mkKvInput 1 "b" "y")) 40 (KvOut (mkKvOutput "")) 50;
   mkOperation 0 (KvIn (mkKvInput 0 "b" "")) 60 (KvOut (mkKvOutput "y")) 70].

(** A stale read is refused: on a history with one put that has returned and
    a later get that still returns the old value, the answer is false. *)
Example stale_read_refused :
  CheckOperations (merge_sort not_after) 20 KvModel.model
    [mkOperation 0 (KvIn (mkKvInput 1 "a" "x")) 0 (KvOut (mkKvOutput "")) 10;
     mkOperation 1 (KvIn (mkKvInput 0 "a" "")) 20 (KvOut (mkKvOutput "")) 30] [0]%nat = Ret (Some false).
Proof. vm_compute. reflexivity. Qed.

(** The empty history.  With the key/value model an empty history has no
    partition, so the select loop has no result to receive and no bound on the
    number received is tested: [CheckOperations] never returns. *)
Theorem empty_history_blocks (sort : list (entry (V := KvValue)) → list (entry (V := KvValue))) (fuel : nat) (sched : list nat) :
  CheckOperations sort fuel KvModel.model [] sched = Ret None.
Proof. unfold CheckOperations, checkOperations. simpl. by destruct sched. Qed.
