(* ===== verification/PorcVisual.v ===== *)
(** * Lab2_MapReduce, porcupine: data for the visualization

    [computeVisualizationData] of [porcupine/visualization.go], which replays the
    partial linearizations of the search and panics if the model refuses a step, and
    [Visualize] and [VisualizePath], which write it into a page.  The theorem: on what
    the search returns, finished or killed, it never panics, and without an error the
    page is on disk.

    The text of the page around the data (the constant [html]) and [json.Marshal] are
    parameters. *)

From S2P Require Import Prelude GoFiles PorcBitset PorcChecker PorcList PorcSound PorcComplete.
From stdpp Require Import pretty.
Open Scope string_scope.
Open Scope Z_scope.

Record historyElement := mkHistoryElement { h_ClientId : Z; Start : Z; End_ : Z; Description : string }.
Record linearizationStep := mkLinearizationStep { Index : Z; StateDescription : string }.
Record partitionVisualizationData := mkPartitionData {
  History : list historyElement;
  PartialLinearizations : list (list linearizationStep);
  Largest : gmap Z Z
}.

Section Visual.
Context {V State : Type}.
(** The nil value of [interface{}], and the functions of the model that describe
    values. *)
Context (nil : V) (DescribeOperation : V → V → string) (DescribeState : State → string).
(** [sort.Slice] by decreasing length. *)
Context (sort_partials : list (list Z) → list (list Z)).
Context (model : Model (V := V) (State := State)).

(** Reading a missing key of a Go map gives the zero value. *)
Definition value_at (m : gmap Z V) (i : Z) : V := default nil (m !! i).

(** The loop over the entries of a partition. *)
Definition note_entry (acc : outcome (list historyElement * gmap Z V * gmap Z V)) (elem : entry (V := V)) :
    outcome (list historyElement * gmap Z V * gmap Z V) :=
  '(history, callValue, returnValue) ← acc;
  e ← slice_get history (id elem);
  match kind elem with
  | callEntry =>
      history' ← slice_set history (id elem) (mkHistoryElement (clientId elem) (time elem) (End_ e) (Description e));
      Ret (history', <[id elem := value elem]> callValue, returnValue)
  | returnEntry =>
      history' ← slice_set history (id elem)
                   (mkHistoryElement (h_ClientId e) (Start e) (time elem) (DescribeOperation (value_at callValue (id elem)) (value elem)));
      Ret (history', callValue, <[id elem := value elem]> returnValue)
  end.

(** The loop over one partial linearization: [i] is its index, [size] its length. *)
Fixpoint replay (callValue returnValue : gmap Z V) (i size : Z) (partial : list Z) (state : State) (largestIndex largestSize : gmap Z Z) :
    outcome (list linearizationStep * gmap Z Z * gmap Z Z) :=
  match partial with
  | [] => Ret ([], largestIndex, largestSize)
  | histId :: partial' =>
      '(okay, state') ← Step model state (value_at callValue histId) (value_at returnValue histId);
      if negb okay then Panic
      else
        let '(li, ls) := if default 0 (largestSize !! histId) <? size then (<[histId := i]> largestIndex, <[histId := size]> largestSize)
                         else (largestIndex, largestSize) in
        '(steps, li', ls') ← replay callValue returnValue i size partial' state' li ls;
        Ret (mkLinearizationStep histId (DescribeState state') :: steps, li', ls')
  end.

Fixpoint replay_all (callValue returnValue : gmap Z V) (i : Z) (partials : list (list Z)) (li ls : gmap Z Z) :
    outcome (list (list linearizationStep) * gmap Z Z) :=
  match partials with
  | [] => Ret ([], li)
  | partial :: rest =>
      '(steps, li', ls') ← replay callValue returnValue i (go_len partial) partial (Init model) li ls;
      '(all, li'') ← replay_all callValue returnValue (i + 1) rest li' ls';
      Ret (steps :: all, li'')
  end.

Definition partition_data (entries : list (entry (V := V))) (partials : list (list Z)) : outcome partitionVisualizationData :=
  let n := Z.quot (go_len entries) 2 in
  '(history, callValue, returnValue) ← foldl note_entry (Ret (replicate (Z.to_nat n) (mkHistoryElement 0 0 0 ""), ∅, ∅)) entries;
  '(linearizations, largestIndex) ← replay_all callValue returnValue 0 (sort_partials partials) ∅ ∅;
  Ret (mkPartitionData history linearizations largestIndex).

(** [info.history] and [info.partialLinearizations]. *)
Fixpoint computeVisualizationData (history : list (list (entry (V := V)))) (partials : list (list (list Z))) :
    outcome (list partitionVisualizationData) :=
  match history with
  | [] => Ret []
  | entries :: history' =>
      match partials with
      | [] => Panic
      | ps :: partials' =>
          d ← partition_data entries ps;
          rest ← computeVisualizationData history' partials';
          Ret (d :: rest)
      end
  end.

(** [json.Marshal], [None] when it reports an error, and the page before and after
    the place of the data. *)
Context (marshal : list partitionVisualizationData → option string) (html_head html_tail : string).

(** [info] is the history and the partial linearizations; [write] is the [Write] of
    the writer.  The flag is whether the error is nil. *)
Definition Visualize {Out : Type} (write : string → Out → Out * bool) (history : list (list (entry (V := V)))) (partials : list (list (list Z)))
    (output : Out) : outcome (Out * bool) :=
  data ← computeVisualizationData history partials;
  match marshal data with
  | None => Ret (output, false)
  | Some jsonData => Ret (write (html_head +:+ jsonData +:+ html_tail) output)
  end.

Definition VisualizePath {FS : Type} `{FileSystem FS} (history : list (list (entry (V := V)))) (partials : list (list (list Z)))
    (path : string) (fs : FS) : outcome (FS * bool) :=
  match os_Create path fs with
  | None => Ret (fs, false)
  | Some fs1 => Visualize (file_Write path) history partials fs1
  end.
End Visual.

(** ** The recorded sequences are accepted *)

Section Recorded.
Context {V State : Type}.
Context (model : Model (V := V) (State := State)) (es : list (entry (V := V))).

Section Loop.
Context (head : nat) (h0 : heap (V := V)) (R0 : list nat).
Context (Hwf : wf_history es) (Hdll0 : dll h0 (head :: R0)).
Context (Hnodes : ∀ i l, R0 !! i = Some l → node_of h0 es R0 i l).
Notation inv := (search_inv model head h0 R0).
Notation acc := (Forall (accepted model es (Init model))).

Lemma calls_accepted (s : search (V := V) (State := State)) seq : inv s → call_ids (s_heap s) (calls s) = Ret seq → accepted model es (Init model) seq.
Proof.
  intros (P & Q & Hp & _) Hseq. destruct (path_perm _ _ _ _ _ _ _ _ Hp) as [Hperm _].
  rewrite (call_ids_nodes model es head h0 R0 Hwf Hdll0 Hnodes _ _ _ _ (calls s) seq Hp); [| |done].
  - rewrite <-(app_nil_r (map _ _)). by eapply (path_accepted model es head h0 R0 Hwf Hdll0 Hnodes).
  - intros c Hc. rewrite Hperm. assert (c_entry c ∈ map c_entry (calls s)) by by apply list_elem_of_fmap_2. set_solver.
Qed.

Lemma check_iter_seqs cp s r : inv s → acc (seqs s) → check_iter model cp s head = Ret r →
  acc (seqs (match r with inl s' | inr s' => s' end)).
Proof.
  intros Hi Ha H. unfold check_iter in H. apply bind_Ret_inv in H as (nd & _ & H). destruct (match_ nd).
  - apply bind_Ret_inv in H as (ndm & _ & H). destruct (n_value nd); [|done]. destruct (n_value ndm); [|done].
    apply bind_Ret_inv in H as ([b st'] & _ & H). destruct b; [|by injection H as <-]. apply bind_Ret_inv in H as (nl & _ & H).
    destruct (negb _); [|by injection H as <-]. apply bind_Ret_inv in H as (lin' & _ & H). destruct (s_entry s); [|done].
    apply bind_Ret_inv in H as (h' & _ & H). apply bind_Ret_inv in H as (hd & _ & H). by injection H as <-.
  - destruct (last (calls s)); [|by injection H as <-]. apply bind_Ret_inv in H as (s1 & Hs1 & H).
    assert (Ha1 : acc (seqs s1)).
    { destruct cp; [|by injection Hs1 as <-]. unfold note_longest in Hs1. apply bind_Ret_inv in Hs1 as (seq & Hseq & Hs1).
      apply bind_Ret_inv in Hs1 as ([lg used] & _ & Hs1). injection Hs1 as <-. simpl. destruct used; [|done].
      apply Forall_app. split; [done|]. constructor; [|done]. by eapply calls_accepted. }
    apply bind_Ret_inv in H as (top & _ & H). apply bind_Ret_inv in H as (lin' & _ & H). apply bind_Ret_inv in H as (h' & _ & H).
    apply bind_Ret_inv in H as (top' & _ & H). by injection H as <-.
Qed.

Lemma check_loop_seqs fuel kill k cp n s r : inv s → acc (seqs s) →
  check_loop fuel kill k model cp head n s = Ret (Some r) → acc (c_seqs r).
Proof.
  revert k s. induction fuel as [|fuel IH]; intros k s Hi Ha H; [done|]. cbn [check_loop] in H. apply bind_Ret_inv in H as (hd & _ & H).
  destruct (next hd).
  - destruct (kill k); [by injection H as <-|]. apply bind_Ret_inv in H as (res & Hit & H). pose proof (check_iter_seqs _ _ _ Hi Ha Hit) as Ha'.
    destruct res as [s'|s']; [by injection H as <-|]. eapply (IH (S k) s'); [|done..]. by eapply (check_iter_inv model es head h0 R0 Hwf Hdll0 Hnodes).
  - apply bind_Ret_inv in H as (seq & Hseq & H). injection H as <-. simpl. apply Forall_app. split; [done|]. constructor; [|done]. by eapply calls_accepted.
Qed.
End Loop.

(** Every sequence a search records, finished or killed, is one the model accepts. *)
Lemma partials_accepted fuel kill cp r : wf_history es → checkSingle fuel kill model es cp = Ret (Some r) →
  Forall (accepted model es (Init model)) (partialLinearizations r).
Proof.
  intros Hwf H. assert (Ha : Forall (accepted model es (Init model)) (c_seqs r)).
  { unfold checkSingle in H. destruct (makeLinkedEntries_spec es) as (root & h & R & Hmk & -> & Hd & Hrep & Hb).
    rewrite Hmk in H. cbn [mbind outcome_bind] in H. apply bind_Ret_inv in H as (len & _ & H).
    set (nd0 := mkNode None None (-1) None None) in H. destruct (insert_front h R nd0 Hd Hb eq_refl eq_refl) as (h2 & Hi & Hd2 & _ & _ & _ & Hs).
    unfold alloc in Hi, H. cbn [snd] in Hi. rewrite Hi in H. cbn [mbind outcome_bind] in H.
    pose proof (rep_node_of h2 es R Hwf (rep_same _ _ _ _ Hs Hrep)) as Hnodes.
    eapply (check_loop_seqs (fresh h) h2 R Hwf Hd2 Hnodes); [| |exact H]; [|constructor]. exists [], R. split; [apply path_nil|done]. }
  apply Forall_forall. intros seq (ref & -> & _)%list_elem_of_fmap. destruct (c_seqs r !! ref) as [seq|] eqn:E; [|done].
  by apply (Forall_lookup_1 _ _ _ _ Ha E).
Qed.
End Recorded.

(** ** Replaying *)

Section Replay.
Context {V State : Type} (nil : V) (DescribeOperation : V → V → string) (DescribeState : State → string).
Context (sort_partials : list (list Z) → list (list Z)) (Hsort : ∀ l, sort_partials l ≡ₚ l).
Context (model : Model (V := V) (State := State)) (es : list (entry (V := V))) (Hc : complete_history es).
Notation num := (Z.to_nat (Z.quot (go_len es) 2)).

(** What the first loop has stored after the entries [pre]. *)
Record noted (pre : list (entry (V := V))) (history : list historyElement) (callValue returnValue : gmap Z V) : Prop := {
  noted_length : length history = num;
  noted_call : ∀ c, c ∈ pre → kind c = callEntry → callValue !! id c = Some (value c) ∧
    ∃ e d, history !! Z.to_nat (id c) = Some (mkHistoryElement (clientId c) (time c) e d);
  noted_return : ∀ c r, c ∈ pre → r ∈ pre → kind c = callEntry → kind r = returnEntry → id c = id r →
    returnValue !! id r = Some (value r) ∧
    history !! Z.to_nat (id r) = Some (mkHistoryElement (clientId c) (time c) (time r) (DescribeOperation (value c) (value r)))
}.

(** Two entries of the same kind and number are the same; a call comes first. *)
Lemma earlier_entry pre x post y : es = (pre ++ x :: post)%list → y ∈ pre → id y = id x → kind y = callEntry ∧ kind x = returnEntry.
Proof.
  intros Hes [i Hi]%list_elem_of_lookup Hid. destruct Hc as ((Hret & Hu) & Hcall & _).
  assert (Hy : es !! i = Some y) by (rewrite Hes; by apply lookup_app_l_Some). assert (Hx : es !! length pre = Some x) by (rewrite Hes; by apply list_lookup_middle).
  pose proof (lookup_lt_Some _ _ _ Hi) as Hlt. destruct (kind y) eqn:Hky, (kind x) eqn:Hkx; [|done| |].
  - assert (i = length pre) by (eapply Hu; try done; congruence). lia.
  - destruct (Hret (length pre) x Hx Hkx) as (j & r & Hj & Hr & Hkr & Hidr). assert (i = j) by (eapply Hu; try done; congruence). lia.
  - assert (i = length pre) by (eapply Hu; try done; congruence). lia.
Qed.

Lemma noted_snoc pre x post history cv rv : es = (pre ++ x :: post)%list → noted pre history cv rv →
  ∃ history' cv' rv', note_entry nil DescribeOperation (Ret (history, cv, rv)) x = Ret (history', cv', rv') ∧ noted (pre ++ [x]) history' cv' rv'.
Proof.
  intros Hes [Hl Hcl Hrt]. assert (Hr : 0 ≤ id x < go_len history).
  { unfold go_len. rewrite Hl. destruct Hc as (_ & _ & Hr). specialize (Hr x). rewrite Hes in Hr at 1. specialize (Hr ltac:(set_solver)). unfold go_len. lia. }
  assert (Hlt : (Z.to_nat (id x) < length history)%nat) by (unfold go_len in Hr; lia).
  assert (Hother : ∀ y, y ∈ pre → id y ≠ id x → Z.to_nat (id x) ≠ Z.to_nat (id y)).
  { intros y Hy Hne Heq. apply Hne. destruct Hc as (_ & _ & Hr'). specialize (Hr' y ltac:(rewrite Hes; set_solver)). lia. }
  unfold note_entry. cbn [mbind outcome_bind]. destruct (slice_get_ok history (id x) Hr) as (e & -> & He). cbn [mbind outcome_bind].
  destruct (kind x) eqn:Hkx; rewrite slice_set_ok by done; cbn [mbind outcome_bind]; eexists _, _, _; (split; [done|]); split.
  - by rewrite length_insert.
  - intros c [Hc'|Hc']%elem_of_app Hk.
    + destruct (decide (id c = id x)) as [Heq|Hne]; [destruct (earlier_entry _ _ _ _ Hes Hc' Heq); congruence|].
      rewrite lookup_insert_ne, list_lookup_insert_ne by auto. by apply Hcl.
    + apply list_elem_of_singleton in Hc' as ->. rewrite lookup_insert_eq, list_lookup_insert_eq by done. eauto.
  - intros c r Hcin Hrin Hkc Hkr Hid. apply elem_of_app in Hrin as [Hrin|Hrin%list_elem_of_singleton]; [|congruence].
    destruct (decide (id r = id x)) as [Heq|Hne]; [destruct (earlier_entry _ _ _ _ Hes Hrin Heq); congruence|].
    apply elem_of_app in Hcin as [Hcin|Hcin%list_elem_of_singleton]; [|congruence].
    rewrite list_lookup_insert_ne by auto. by apply Hrt.
  - by rewrite length_insert.
  - intros c [Hc'|Hc'%list_elem_of_singleton]%elem_of_app Hk; [|congruence]. destruct (Hcl c Hc' Hk) as (Hv & e0 & d & Hh). split; [done|].
    destruct (decide (id c = id x)) as [Heq|Hne]; [|rewrite list_lookup_insert_ne by auto; eauto].
    rewrite Heq in Hh |- *. rewrite list_lookup_insert_eq by done. rewrite He in Hh. injection Hh as ->. eauto.
  - intros c r Hcin Hrin Hkc Hkr Hid. apply elem_of_app in Hcin as [Hcin|Hcin%list_elem_of_singleton]; [|congruence].
    apply elem_of_app in Hrin as [Hrin|Hrin%list_elem_of_singleton].
    + destruct (decide (id r = id x)) as [Heq|Hne]; [destruct (earlier_entry _ _ _ _ Hes Hrin Heq); congruence|].
      rewrite lookup_insert_ne, list_lookup_insert_ne by auto. by apply Hrt.
    + subst r. rewrite lookup_insert_eq, list_lookup_insert_eq by done. split; [done|]. destruct (Hcl c Hcin Hkc) as (Hv & e0 & d & Hh).
      rewrite Hid in Hh, Hv. rewrite He in Hh. injection Hh as ->. unfold value_at. rewrite Hv. done.
Qed.

Lemma noted_all : ∃ history cv rv,
  foldl (note_entry nil DescribeOperation) (Ret (replicate num (mkHistoryElement 0 0 0 ""), ∅, ∅)) es = Ret (history, cv, rv) ∧ noted es history cv rv.
Proof.
  assert (Hgen : ∀ pre post, es = (pre ++ post)%list → ∃ history cv rv,
    foldl (note_entry nil DescribeOperation) (Ret (replicate num (mkHistoryElement 0 0 0 ""), ∅, ∅)) pre = Ret (history, cv, rv) ∧ noted pre history cv rv).
  { induction pre as [|x pre IH] using rev_ind; intros post Hes.
    - eexists _, _, _. split; [done|]. split; [by rewrite length_replicate|by intros ? ?%elem_of_nil|by intros ? ? ?%elem_of_nil].
    - rewrite <-app_assoc in Hes. destruct (IH (x :: post) Hes) as (history & cv & rv & Hf & Hn).
      destruct (noted_snoc pre x post history cv rv Hes Hn) as (h' & cv' & rv' & Hx & Hn'). exists h', cv', rv'. split; [|done].
      rewrite foldl_app, Hf. exact Hx. }
  apply (Hgen es []). by rewrite app_nil_r.
Qed.

Lemma replay_ok cv rv i size partial : (∀ c, c ∈ es → kind c = callEntry → cv !! id c = Some (value c)) →
  (∀ c r, c ∈ es → r ∈ es → kind c = callEntry → kind r = returnEntry → id c = id r → rv !! id r = Some (value r)) →
  ∀ st li ls, accepted model es st partial → ∃ steps li' ls', replay nil DescribeState model cv rv i size partial st li ls = Ret (steps, li', ls') ∧
    map Index steps = partial.
Proof.
  intros Hcv Hrv. induction partial as [|h partial IH]; intros st li ls; simpl; [by eexists _, _, _|].
  intros (c & r & st' & Hcin & Hr & Hkc & Hkr & Hic & Hir & Hst & Hacc).
  assert (H1 : value_at nil cv h = value c) by (unfold value_at; subst h; by rewrite Hcv).
  assert (H2 : value_at nil rv h = value r) by (unfold value_at; rewrite <-Hir; rewrite (Hrv c r); [done..|congruence]).
  rewrite H1, H2, Hst. cbn [mbind outcome_bind negb].
  match goal with |- context [if ?b then (?x, ?y) else (?u, ?v)] => destruct (if b then (x, y) else (u, v)) as [li1 ls1] end.
  destruct (IH st' li1 ls1 Hacc) as (steps & li' & ls' & -> & Hi). cbn [mbind outcome_bind]. eexists _, _, _. split; [done|]. simpl. by f_equal.
Qed.

Lemma replay_all_ok cv rv partials : (∀ c, c ∈ es → kind c = callEntry → cv !! id c = Some (value c)) →
  (∀ c r, c ∈ es → r ∈ es → kind c = callEntry → kind r = returnEntry → id c = id r → rv !! id r = Some (value r)) →
  Forall (accepted model es (Init model)) partials → ∀ i li ls, ∃ all li', replay_all nil DescribeState model cv rv i partials li ls = Ret (all, li') ∧
    map (map Index) all = partials.
Proof.
  intros Hcv Hrv. induction 1 as [|p partials Hp _ IH]; intros i li ls; simpl; [by eexists _, _|].
  destruct (replay_ok cv rv i (go_len p) p Hcv Hrv (Init model) li ls Hp) as (steps & li1 & ls1 & -> & Hs). cbn [mbind outcome_bind].
  destruct (IH (i + 1) li1 ls1) as (all & li2 & -> & Ha). cbn [mbind outcome_bind]. eexists _, _. split; [done|]. simpl. by f_equal.
Qed.

Lemma partition_data_ok partials : Forall (accepted model es (Init model)) partials →
  ∃ d, partition_data nil DescribeOperation DescribeState sort_partials model es partials = Ret d ∧
    map (map Index) (PartialLinearizations d) ≡ₚ partials ∧ length (History d) = num ∧
    ∀ c r, c ∈ es → r ∈ es → kind c = callEntry → kind r = returnEntry → id c = id r →
      History d !! Z.to_nat (id c) = Some (mkHistoryElement (clientId c) (time c) (time r) (DescribeOperation (value c) (value r))).
Proof.
  intros Hp. unfold partition_data. destruct noted_all as (history & cv & rv & -> & [Hl Hcl Hrt]). cbn [mbind outcome_bind].
  destruct (replay_all_ok cv rv (sort_partials partials)) with (i := 0) (li := (∅ : gmap Z Z)) (ls := (∅ : gmap Z Z)) as (all & li & Hall & Hidx).
  - intros c Hcin Hk. by apply Hcl.
  - intros c r Hcin Hr Hkc Hkr Hid. by apply (Hrt c r).
  - by rewrite Hsort.
  - rewrite Hall. cbn [mbind outcome_bind]. eexists. split; [done|]. simpl. split; [by rewrite Hidx, Hsort|]. split; [done|].
    intros c r Hcin Hr Hkc Hkr Hid. rewrite Hid. by apply Hrt.
Qed.
End Replay.

(** What the page shows for an operation. *)
Definition shows {V : Type} (DescribeOperation : V → V → string) (es : list (entry (V := V))) (d : partitionVisualizationData) : Prop :=
  ∀ c r, c ∈ es → r ∈ es → kind c = callEntry → kind r = returnEntry → id c = id r →
  History d !! Z.to_nat (id c) = Some (mkHistoryElement (clientId c) (time c) (time r) (DescribeOperation (value c) (value r))).

(** The data of searches. *)
Lemma visualization_data_ok {V State : Type} (nil : V) (DescribeOperation : V → V → string) (DescribeState : State → string)
    (sort_partials : list (list Z) → list (list Z)) (model : Model (V := V) (State := State))
    (histories : list (list (entry (V := V)))) (rs : list checked) :
  (∀ l, sort_partials l ≡ₚ l) → Forall complete_history histories →
  Forall2 (λ h r, ∃ fuel kill, checkSingle fuel kill model h true = Ret (Some r)) histories rs →
  ∃ ds, computeVisualizationData nil DescribeOperation DescribeState sort_partials model histories (partialLinearizations <$> rs) = Ret ds ∧
    Forall2 (shows DescribeOperation) histories ds ∧
    Forall2 (λ r d, map (map Index) (PartialLinearizations d) ≡ₚ partialLinearizations r) rs ds.
Proof.
  intros Hsort Hcs Hrs. induction Hrs as [|h r histories rs (fuel & kill & Hr) Hrs IH]; [by exists []|].
  inversion Hcs as [|? ? Hc Hcs']; subst. destruct (IH Hcs') as (ds & Hds & Hh & Hp).
  destruct (partition_data_ok nil DescribeOperation DescribeState sort_partials Hsort model h Hc (partialLinearizations r)) as (d & Hd & Hpd & _ & Hhd).
  { eapply partials_accepted; [apply Hc|done]. }
  exists (d :: ds). split; [|split; by constructor]. rewrite fmap_cons. cbn [computeVisualizationData]. rewrite Hd. cbn [mbind outcome_bind].
  by rewrite Hds.
Qed.

(** C36 (the visualization never refuses a partial linearization).  Let the
    partitions be complete histories, and let each of them have been searched with
    partial linearizations, to the end or until the search was killed at any moment.
    Then [computeVisualizationData] on the results returns: no index is out of range
    and every replayed step is accepted by the model, so that its panic is
    unreachable.  It lists each recorded sequence once, and shows each operation
    with its client, its call and return times and its description.  And
    [VisualizePath] returns for every path; if it reports no error, the file at the
    path is the page with exactly this data. *)
Theorem visualization_total {V State FS : Type} `{FileSystemLaws FS} (nil : V) (DescribeOperation : V → V → string) (DescribeState : State → string)
    (sort_partials : list (list Z) → list (list Z)) (marshal : list partitionVisualizationData → option string) (html_head html_tail : string)
    (model : Model (V := V) (State := State)) (histories : list (list (entry (V := V)))) (rs : list checked) :
  (∀ l, sort_partials l ≡ₚ l) → Forall complete_history histories →
  Forall2 (λ h r, ∃ fuel kill, checkSingle fuel kill model h true = Ret (Some r)) histories rs →
  ∃ ds, computeVisualizationData nil DescribeOperation DescribeState sort_partials model histories (partialLinearizations <$> rs) = Ret ds ∧
    Forall2 (shows DescribeOperation) histories ds ∧
    Forall2 (λ r d, map (map Index) (PartialLinearizations d) ≡ₚ partialLinearizations r) rs ds ∧
    ∀ path (fs : FS), ∃ fs' ok,
      VisualizePath nil DescribeOperation DescribeState sort_partials model marshal html_head html_tail histories (partialLinearizations <$> rs) path fs = Ret (fs', ok) ∧
      (ok = true → ∃ jsonData, marshal ds = Some jsonData ∧ io_ReadAll path fs' = Some (html_head +:+ jsonData +:+ html_tail)).
Proof.
  intros Hsort Hcs Hrs. destruct (visualization_data_ok nil DescribeOperation DescribeState sort_partials model histories rs Hsort Hcs Hrs) as (ds & Hds & Hsh & Hp).
  exists ds. split; [done|]. split; [done|]. split; [done|]. intros path fs. unfold VisualizePath, Visualize.
  destruct (os_Create path fs) as [fs1|] eqn:Hcr; [|by exists fs, false]. rewrite Hds. cbn [mbind outcome_bind].
  destruct (marshal ds) as [js|]; [|by exists fs1, false]. destruct (file_Write path _ fs1) as [fs2 ok] eqn:Hwr. exists fs2, ok. split; [done|].
  intros ->. exists js. split; [done|]. by apply (write_read path _ fs fs1 fs2).
Qed.

(** The search of the register's history, killed in its third round. *)
Lemma visualization_total_witness :
  ∃ ds, computeVisualizationData (inr tt) (λ _ _, "op") (λ _, "state") (λ l, l) register [register_history; register_history]
          (partialLinearizations <$> [mkChecked false [] [None; None; None] []; mkChecked true [1; 0; 2] [Some 1%nat; Some 1%nat; Some 1%nat] [[0]; [1; 0; 2]]]) = Ret ds ∧
    Forall2 (shows (λ _ _, "op")) [register_history; register_history] ds ∧
    Forall2 (λ r d, map (map Index) (PartialLinearizations d) ≡ₚ partialLinearizations r)
      [mkChecked false [] [None; None; None] []; mkChecked true [1; 0; 2] [Some 1%nat; Some 1%nat; Some 1%nat] [[0]; [1; 0; 2]]] ds ∧
    ∀ path (fs : MemFS), ∃ fs' ok,
      VisualizePath (inr tt) (λ _ _, "op") (λ _, "state") (λ l, l) register (λ ds, Some (pretty (length ds))) "<" ">" [register_history; register_history]
        (partialLinearizations <$> [mkChecked false [] [None; None; None] []; mkChecked true [1; 0; 2] [Some 1%nat; Some 1%nat; Some 1%nat] [[0]; [1; 0; 2]]]) path fs = Ret (fs', ok) ∧
      (ok = true → ∃ jsonData, Some (pretty (length ds)) = Some jsonData ∧ io_ReadAll path fs' = Some ("<" +:+ jsonData +:+ ">")).
Proof.
  apply (visualization_total (FS := MemFS) (inr tt) (λ _ _, "op") (λ _, "state") (λ l, l) (λ ds, Some (pretty (length ds)))); [reflexivity|constructor; [apply register_complete|constructor; [apply register_complete|constructor]]|].
  constructor; [|constructor; [|constructor]].
  - exists 20%nat, (λ k, (2 <=? k)%nat). vm_compute. reflexivity.
  - exists 20%nat, (λ _, false). vm_compute. reflexivity.
Defined.
