(* ===== verification/PorcLocality.v ===== *)
(** * Lab2_MapReduce, porcupine: partitioning by key

    The comment on [Partition] in [porcupine/model.go] asks that a history is
    linearizable exactly when each partition is.  For [models/kv.go] this is
    proved here against the specification of the whole store: linearizations of the
    operations on each key can be merged into one of all operations, by the latest
    call time up to each operation, which lies between its call and its return. *)

From S2P Require Import Prelude PorcBitset PorcChecker PorcList PorcSound PorcComplete PorcCheck.
Open Scope string_scope.
Open Scope Z_scope.

Notation kv_op := (Operation (V := KvValue)).

(** ** The store *)

(** The values of all keys; a key without a value has the empty string. *)
Definition store_step (st : gmap string string) (input output : KvValue) : outcome (bool * gmap string string) :=
  inp ← KvModel.as_input input;
  '(b, v) ← KvModel.Step (default "" (st !! Key inp)) input output;
  Ret (b, <[Key inp := v]> st).

Definition store_model : Model := mkModel (∅ : gmap string string) store_step (λ a b, bool_decide (a = b)).

Definition key_model : Model (V := KvValue) := search_model (fillDefault KvModel.model).

(** ** The operations on a key *)

Section Key.
Context (history : list kv_op).

(** Operation number [i] of the history is on key [k]. *)
Definition at_key (k : string) (i : Z) : Prop :=
  match history !! Z.to_nat i with Some op => on_key k op | None => False end.

#[global] Instance at_key_dec k i : Decision (at_key k i).
Proof. unfold at_key. destruct (history !! Z.to_nat i); apply _. Defined.

Definition key_ids (k : string) : list Z := filter (at_key k) (seqZ 0 (Z.of_nat (length history))).

(** An operation that returned before another was called comes first. *)
Definition real_time (ids : list Z) : Prop :=
  ∀ i j a b, [i; j] `sublist_of` ids → history !! Z.to_nat i = Some a → history !! Z.to_nat j = Some b → ¬ Return b < Call a.

Definition key_linearization (k : string) (l : list Z) : Prop :=
  l ≡ₚ key_ids k ∧ op_accepted key_model history "" l ∧ real_time l.
End Key.

(** The numbers of the operations on [k], beside those operations. *)
Lemma key_ids_ops history k : Forall2 (λ g op, history !! Z.to_nat g = Some op) (key_ids history k) (filter (on_key k) history).
Proof.
  unfold key_ids. assert (Hgen : ∀ pre post, history = (pre ++ post)%list →
    Forall2 (λ g op, history !! Z.to_nat g = Some op) (filter (at_key history k) (seqZ (Z.of_nat (length pre)) (Z.of_nat (length post)))) (filter (on_key k) post)).
  { intros pre post. revert pre. induction post as [|op post IH]; intros pre Hh; [constructor|]. simpl length. rewrite Nat2Z.inj_succ, seqZ_cons by lia.
    assert (Hl : history !! Z.to_nat (Z.of_nat (length pre)) = Some op) by (rewrite Nat2Z.id, Hh; by apply list_lookup_middle).
    specialize (IH (pre ++ [op])%list ltac:(by rewrite <-app_assoc)). rewrite length_app in IH. simpl in IH.
    replace (Z.of_nat (length pre + 1)) with (Z.succ (Z.of_nat (length pre))) in IH by lia. rewrite Z.pred_succ.
    assert (Hiff : at_key history k (Z.of_nat (length pre)) ↔ on_key k op) by (unfold at_key; by rewrite Hl).
    rewrite !filter_cons. destruct (decide (at_key history k _)), (decide (on_key k op)); [by constructor|tauto|tauto|done]. }
  apply (Hgen [] history eq_refl).
Qed.

Lemma key_ids_elem history k i : i ∈ key_ids history k ↔ 0 ≤ i ∧ at_key history k i.
Proof.
  unfold key_ids. rewrite list_elem_of_filter, elem_of_seqZ. split; [lia + tauto|]. intros [Hi Hk]. split; [done|]. split; [done|].
  unfold at_key in Hk. destruct (history !! Z.to_nat i) eqn:E; [|done]. apply lookup_lt_Some in E. lia.
Qed.

Lemma key_ids_nodup history k : NoDup (key_ids history k).
Proof. apply NoDup_filter, NoDup_seqZ. Qed.

(** ** From the positions in a partition to those in the history *)

Section Translate.
Context (history : list kv_op) (k : string).
Notation sub := (filter (on_key k) history).

Definition global (j : Z) : Z := default 0 (key_ids history k !! Z.to_nat j).

Lemma global_lookup j op : sub !! Z.to_nat j = Some op → history !! Z.to_nat (global j) = Some op.
Proof.
  intros Hj. destruct (Forall2_lookup_r _ _ _ _ _ (key_ids_ops history k) Hj) as (g & Hg & Hop). unfold global. by rewrite Hg.
Qed.

Lemma global_seq : map global (seqZ 0 (Z.of_nat (length sub))) = key_ids history k.
Proof.
  rewrite <-(Forall2_length _ _ _ (key_ids_ops history k)). unfold global. generalize (key_ids history k). intros l.
  apply list_eq. intros i. rewrite list_lookup_fmap. destruct (decide (i < length l)%nat) as [Hi|Hi].
  - rewrite (proj2 (lookup_seqZ _ _ i (Z.of_nat i))) by lia. cbn [fmap option_fmap option_map]. rewrite Nat2Z.id.
    destruct (lookup_lt_is_Some_2 l i Hi) as [x Hx]. by rewrite Hx.
  - rewrite (lookup_ge_None_2 l) by lia. rewrite (proj2 (fmap_None _ _)); [done|]. apply lookup_ge_None_2. rewrite length_seqZ. lia.
Qed.

Lemma sub_range j : 0 ≤ j < Z.of_nat (length sub) → ∃ op, sub !! Z.to_nat j = Some op ∧ history !! Z.to_nat (global j) = Some op.
Proof. intros Hj. destruct (lookup_lt_is_Some_2 sub (Z.to_nat j)) as [op Hop]; [lia|]. exists op. split; [done|]. by apply global_lookup. Qed.

Lemma accepted_global st ids : (∀ j, j ∈ ids → 0 ≤ j < Z.of_nat (length sub)) →
  op_accepted key_model sub st ids ↔ op_accepted key_model history st (map global ids).
Proof.
  revert st. induction ids as [|j ids IH]; intros st Hr; simpl; [done|]. destruct (sub_range j (Hr j ltac:(by left))) as (op & Hop & Hg).
  rewrite Hop, Hg. assert (IH' : ∀ st, op_accepted key_model sub st ids ↔ op_accepted key_model history st (map global ids)) by (intros st'; apply IH; set_solver).
  split; intros (o & st' & [= <-] & Hs & Hrest); exists op, st'; (split; [done|]); (split; [done|]); by apply IH'.
Qed.

Lemma sublist_map_pair {A B : Type} (f : A → B) (l : list A) x y : [x; y] `sublist_of` map f l → ∃ a b, [a; b] `sublist_of` l ∧ x = f a ∧ y = f b.
Proof.
  intros (i & j & Hij & Hi & Hj)%sublist_pair_lookup. rewrite list_lookup_fmap in Hi, Hj.
  apply fmap_Some in Hi as (a & Hi & ->). apply fmap_Some in Hj as (b & Hj & ->). exists a, b. split; [|done]. apply sublist_pair_lookup. eauto.
Qed.

Lemma real_time_global ids : (∀ j, j ∈ ids → 0 ≤ j < Z.of_nat (length sub)) →
  (∀ i j a b, [i; j] `sublist_of` ids → sub !! Z.to_nat i = Some a → sub !! Z.to_nat j = Some b → ¬ Return b < Call a) ↔
  real_time history (map global ids).
Proof.
  intros Hr. assert (Hin : ∀ i j, [i; j] `sublist_of` ids → (0 ≤ i < Z.of_nat (length sub)) ∧ 0 ≤ j < Z.of_nat (length sub)).
  { intros i j Hij. split; apply Hr; (eapply elem_of_submseteq; [|apply sublist_submseteq, Hij]; set_solver). }
  split.
  - intros H i j a b (i' & j' & Hij & -> & ->)%sublist_map_pair Ha Hb. destruct (Hin i' j' Hij) as [Hi Hj].
    destruct (sub_range i' Hi) as (a' & Ha' & Hga). destruct (sub_range j' Hj) as (b' & Hb' & Hgb).
    apply (H i' j' a b Hij); congruence.
  - intros H i j a b Hij Ha Hb. apply (H (global i) (global j)); [|by apply global_lookup..].
    apply sublist_pair_lookup in Hij as (x & y & Hxy & Hx & Hy). apply sublist_pair_lookup. exists x, y. rewrite !list_lookup_fmap, Hx, Hy. done.
Qed.

(** A linearization of the partition of [k] is one of the operations on [k]. *)
Lemma key_linearization_iff : (∃ ids, op_linearization key_model sub ids) ↔ ∃ l, key_linearization history k l.
Proof.
  split.
  - intros (ids & Hperm & Hacc & Hord). assert (Hr : ∀ j, j ∈ ids → 0 ≤ j < Z.of_nat (length sub)) by (intros j; rewrite Hperm, elem_of_seqZ; lia).
    exists (map global ids). split; [by rewrite Hperm, global_seq|]. split; [by apply accepted_global|by apply real_time_global].
  - intros (l & Hperm & Hacc & Hord). rewrite <-global_seq in Hperm. apply Permutation_map_inv in Hperm as (ids & -> & Hperm).
    assert (Hr : ∀ j, j ∈ ids → 0 ≤ j < Z.of_nat (length sub)) by (intros j; rewrite <-Hperm, elem_of_seqZ; lia).
    exists ids. split; [done|]. split; [by apply accepted_global|by apply real_time_global].
Qed.
End Translate.

(** ** The store and its keys *)

Section Store.
Context (history : list kv_op) (Hty : Forall typed history).

Lemma typed_lookup i op : history !! Z.to_nat i = Some op → ∃ inp out, Input op = KvIn inp ∧ Output op = KvOut out.
Proof.
  intros Hop. pose proof (Forall_lookup_1 _ _ _ _ Hty Hop) as Ht. unfold typed in Ht.
  destruct (Input op) as [inp|]; [|done]. destruct (Output op) as [|out]; [done|]. by exists inp, out.
Qed.

(** An order is accepted by the store exactly when the part of each key is
    accepted for that key. *)
Lemma store_accepted ids st : (∀ i, i ∈ ids → is_Some (history !! Z.to_nat i)) →
  op_accepted store_model history st ids ↔ ∀ k, op_accepted key_model history (default "" (st !! k)) (filter (at_key history k) ids).
Proof.
  revert st. induction ids as [|i ids IH]; intros st Hin; [simpl; naive_solver|].
  destruct (Hin i ltac:(by left)) as [op Hop]. destruct (typed_lookup i op Hop) as (inp & out & Hi & Ho).
  assert (Hat : ∀ k, at_key history k i ↔ Key inp = k) by (intros k; unfold at_key; rewrite Hop; unfold on_key; by rewrite Hi).
  assert (IH' := λ st, IH st (λ j Hj, Hin j (list_elem_of_further _ _ _ Hj))). clear IH.
  cbn [op_accepted]. rewrite Hop. unfold store_model at 1. cbn [Step]. unfold store_step.
  split.
  - intros (o & st' & [= <-] & Hs & Hrest) k. rewrite Hi, Ho in Hs. cbn [KvModel.as_input mbind outcome_bind] in Hs.
    apply bind_Ret_inv in Hs as ([b v] & Hs & Heq). injection Heq as -> <-. rewrite filter_cons. pose proof (proj1 (IH' _) Hrest k) as Hk.
    destruct (decide (at_key history k i)) as [Ha|Ha]; pose proof Ha as Ha'; rewrite Hat in Ha'.
    + subst k. rewrite lookup_insert_eq in Hk. simpl. exists op, v. rewrite Hi, Ho. split; [done|]. split; [exact Hs|done].
    + by rewrite lookup_insert_ne in Hk.
  - intros Hk. pose proof (Hk (Key inp)) as Hi'. rewrite filter_cons_True in Hi' by by apply Hat. simpl in Hi'.
    destruct Hi' as (o & v & Hop' & Hs & Hrest). assert (o = op) as -> by congruence. rewrite Hi, Ho in Hs.
    exists op, (<[Key inp := v]> st). split; [done|]. rewrite Hi, Ho. cbn [KvModel.as_input mbind outcome_bind].
    rewrite Hs. split; [done|]. apply IH'. intros k. destruct (decide (Key inp = k)) as [<-|Hne]; [by rewrite lookup_insert_eq|].
    rewrite lookup_insert_ne by done. specialize (Hk k). rewrite filter_cons_False in Hk by (by rewrite Hat). done.
Qed.

(** ** Merging the orders of the keys *)

Definition call_time (i : Z) : Z := match history !! Z.to_nat i with Some op => Call op | None => 0 end.
Definition return_time (i : Z) : Z := match history !! Z.to_nat i with Some op => Return op | None => 0 end.

(** Each operation with the latest call time up to it, at least [a]. *)
Fixpoint annotate (a : Z) (l : list Z) : list (Z * Z) :=
  match l with
  | [] => []
  | i :: l' => let p := Z.max a (call_time i) in (p, i) :: annotate p l'
  end.

Definition points (l : list Z) : list (Z * Z) := match l with [] => [] | i :: _ => annotate (call_time i) l end.

Definition earlier (x y : Z * Z) : Prop := x.1 ≤ y.1.
#[local] Instance earlier_dec x y : Decision (earlier x y).
Proof. unfold earlier. apply _. Defined.
#[local] Instance earlier_total : Total earlier.
Proof. intros x y. unfold earlier. lia. Qed.
#[local] Instance earlier_trans : Transitive earlier.
Proof. intros x y z. unfold earlier. lia. Qed.

(** The points lie between call and return. *)
Definition within (x : Z * Z) : Prop := call_time x.2 ≤ x.1 ≤ return_time x.2.

Lemma annotate_spec a l : (∀ i, i ∈ l → a ≤ return_time i ∧ call_time i ≤ return_time i) →
  (∀ i j, [i; j] `sublist_of` l → call_time i ≤ return_time j) →
  (annotate a l).*2 = l ∧ Sorted earlier (annotate a l) ∧ Forall within (annotate a l) ∧ (∀ x, x ∈ annotate a l → a ≤ x.1).
Proof.
  revert a. induction l as [|i l IH]; intros a Ha Hord; [simpl; split; [done|]; split; [constructor|]; split; [constructor|]; by intros x ?%elem_of_nil|].
  destruct (Ha i ltac:(by left)) as [Ha1 Ha2]. cbn [annotate]. destruct (IH (Z.max a (call_time i))) as (Hsnd & Hsort & Hwith & Hge).
  - intros j Hj. destruct (Ha j ltac:(by right)). assert (call_time i ≤ return_time j) by (apply Hord, sublist_skip; by apply singleton_sublist_l). lia.
  - intros x y Hxy. apply Hord. by apply sublist_cons.
  - split; [simpl; by f_equal|]. split; [|split].
    + constructor; [done|]. destruct (annotate _ l) as [|x m]; [constructor|]. constructor. unfold earlier. simpl. apply Hge. by left.
    + constructor; [|done]. unfold within. simpl. lia.
    + intros x [->|Hx]%elem_of_cons; [simpl; lia|]. specialize (Hge x Hx). lia.
Qed.

Lemma points_spec l : (∀ i, i ∈ l → call_time i ≤ return_time i) → (∀ i j, [i; j] `sublist_of` l → call_time i ≤ return_time j) →
  (points l).*2 = l ∧ Sorted earlier (points l) ∧ Forall within (points l).
Proof.
  intros Ht Hord. destruct l as [|i l]; [simpl; split; [done|split; constructor]|]. unfold points.
  destruct (annotate_spec (call_time i) (i :: l)) as (H1 & H2 & H3 & _); [|done|done].
  intros j [->|Hj]%elem_of_cons; [split; [|by apply Ht; left]; apply Ht; by left|]. split; [|apply Ht; by right].
  apply Hord, sublist_skip. by apply singleton_sublist_l.
Qed.

Definition merge_all (ls : list (list (Z * Z))) : list (Z * Z) := foldr (list_merge earlier) [] ls.

Lemma merge_all_sorted ls : Forall (Sorted earlier) ls → Sorted earlier (merge_all ls).
Proof. induction 1 as [|l ls Hl _ IH]; [constructor|]. simpl. by apply (Sorted_list_merge _). Qed.

Lemma merge_all_perm ls : merge_all ls ≡ₚ concat ls.
Proof. induction ls as [|l ls IH]; [done|]. simpl. by rewrite merge_Permutation, IH. Qed.

(** The part of a merge that comes from one of the lists keeps its order. *)
Lemma merge_filter (P : Z * Z → Prop) `{∀ x, Decision (P x)} l1 l2 :
  (Forall (λ x, ¬ P x) l1 → filter P (list_merge earlier l1 l2) = filter P l2) ∧
  (Forall (λ x, ¬ P x) l2 → filter P (list_merge earlier l1 l2) = filter P l1).
Proof.
  revert l2. induction l1 as [|x l1 IH1]; intros l2.
  { split; [by destruct l2|]. intros Hl. destruct l2; [done|]. by apply filter_none. }
  induction l2 as [|y l2 IH2].
  { rewrite list_merge_nil_r. split; [|done]. intros Hl. by apply filter_none. }
  rewrite list_merge_cons. destruct (IH1 (y :: l2)) as [IHa IHb]. destruct IH2 as [IHc IHd]. split; intros Hl.
  - inversion Hl as [|? ? Hx Hl1]; subst. destruct (decide (earlier x y)).
    + rewrite filter_cons_False by done. by apply IHa.
    + rewrite !(filter_cons P y). rewrite IHc by done. done.
  - inversion Hl as [|? ? Hy Hl2]; subst. destruct (decide (earlier x y)).
    + rewrite !(filter_cons P x). rewrite IHb by done. done.
    + rewrite filter_cons_False by done. by apply IHd.
Qed.

Lemma filter_snd (P : Z → Prop) `{∀ x, Decision (P x)} (m : list (Z * Z)) : filter P m.*2 = (filter (λ x, P x.2) m).*2.
Proof. induction m as [|x m IH]; [done|]. rewrite fmap_cons, !filter_cons, IH. by destruct (decide (P x.2)). Qed.

(** The keys of the history. *)
Definition keys : list string := remove_dups (omap (λ op, match Input op with KvIn i => Some (Key i) | KvOut _ => None end) history).

Lemma at_key_range k i : 0 ≤ i → at_key history k i → i ∈ seqZ 0 (Z.of_nat (length history)) ∧ k ∈ keys.
Proof.
  intros Hi Hk. unfold at_key in Hk. destruct (history !! Z.to_nat i) as [op|] eqn:Hop; [|done]. pose proof (lookup_lt_Some _ _ _ Hop) as Hlt.
  split; [apply elem_of_seqZ; lia|]. unfold keys. apply elem_of_remove_dups, list_elem_of_omap. exists op.
  split; [by eapply list_elem_of_lookup_2|]. unfold on_key in Hk. destruct (Input op); [by subst|done].
Qed.

Lemma at_key_exists i : i ∈ seqZ 0 (Z.of_nat (length history)) → ∃ k, k ∈ keys ∧ at_key history k i.
Proof.
  intros [Hi Hlt]%elem_of_seqZ. destruct (lookup_lt_is_Some_2 history (Z.to_nat i)) as [op Hop]; [lia|].
  destruct (typed_lookup i op Hop) as (inp & out & Hin & _). assert (Hk : at_key history (Key inp) i) by (unfold at_key; rewrite Hop; unfold on_key; by rewrite Hin).
  exists (Key inp). split; [|done]. by eapply at_key_range.
Qed.

Lemma at_key_fun k k' i : at_key history k i → at_key history k' i → k = k'.
Proof. unfold at_key, on_key. destruct (history !! Z.to_nat i) as [op|]; [|done]. destruct (Input op); [congruence|done]. Qed.

(** The merge of the orders [ls] of the keys [ks] is an order of all their
    operations that keeps each of them. *)
Lemma merge_orders ks ls : NoDup ks → Forall2 (λ k l, l ≡ₚ key_ids history k ∧ (points l).*2 = l) ks ls →
  let ids := (merge_all (points <$> ls)).*2 in
  NoDup ids ∧ (∀ i, i ∈ ids ↔ ∃ k, k ∈ ks ∧ i ∈ key_ids history k) ∧
  (∀ k l, (k, l) ∈ zip ks ls → filter (at_key history k) ids = l).
Proof.
  intros Hnd Hf. induction Hf as [|k l ks ls [Hl Hp] Hf IH]; [simpl; split; [constructor|]; split; [set_solver|set_solver]|].
  apply NoDup_cons in Hnd as [Hk Hnd]. destruct (IH Hnd) as (Hn & Hin & Hkeep). clear IH. set (M := merge_all (points <$> ls)) in *.
  change (merge_all (points <$> l :: ls)) with (list_merge earlier (points l) M). cbv zeta.
  assert (Hperm : (list_merge earlier (points l) M).*2 ≡ₚ l ++ M.*2) by (rewrite merge_Permutation, fmap_app, Hp; done).
  assert (Hl_at : ∀ i, i ∈ l → at_key history k i) by (intros i; rewrite Hl, key_ids_elem; tauto).
  assert (HM_at : ∀ i, i ∈ M.*2 → ¬ at_key history k i).
  { intros i (k' & Hk' & Hi)%Hin Hat. apply key_ids_elem in Hi as [_ Hi]. by rewrite (at_key_fun _ _ _ Hat Hi) in Hk. }
  pose proof (λ k0, filter_snd (at_key history k0)) as Hsnd.
  split; [|split].
  - rewrite Hperm. apply NoDup_app. split; [rewrite Hl; apply key_ids_nodup|]. split; [|done]. intros i Hi1%Hl_at Hi2. by apply (HM_at i).
  - intros i. rewrite Hperm, elem_of_app, Hin, Hl. set_solver.
  - intros k0 l0 Hz. rewrite Hsnd. destruct (merge_filter (λ x, at_key history k0 x.2) (points l) M) as [Hf1 Hf2].
    apply elem_of_cons in Hz as [[= -> ->]|Hz].
    + rewrite Hf2, <-Hsnd, Hp; [by apply filter_all, Forall_forall|]. apply Forall_forall. intros x Hx. apply HM_at. by apply list_elem_of_fmap_2.
    + rewrite Hf1, <-Hsnd; [by apply Hkeep|]. apply Forall_forall. intros x Hx Hat.
      assert (Hx2 : x.2 ∈ l) by (rewrite <-Hp; by apply list_elem_of_fmap_2). apply Hl_at in Hx2.
      rewrite (at_key_fun _ _ _ Hx2 Hat) in Hk. apply Hk. by apply elem_of_zip_l in Hz.
Qed.

Lemma real_time_times l : (∀ i, i ∈ l → is_Some (history !! Z.to_nat i)) →
  real_time history l ↔ ∀ i j, [i; j] `sublist_of` l → call_time i ≤ return_time j.
Proof.
  intros Hin. unfold call_time, return_time. split.
  - intros Hr i j Hij. assert (Hs : ∀ x, x ∈ [i; j] → is_Some (history !! Z.to_nat x)).
    { intros x Hx. apply Hin. eapply elem_of_submseteq; [exact Hx|by apply sublist_submseteq]. }
    destruct (Hs i ltac:(set_solver)) as [a Ha]. destruct (Hs j ltac:(set_solver)) as [b Hb]. specialize (Hr i j a b Hij Ha Hb).
    rewrite Ha, Hb. lia.
  - intros Hr i j a b Hij Ha Hb. specialize (Hr i j Hij). rewrite Ha, Hb in Hr. lia.
Qed.

Lemma keys_nodup : NoDup keys.
Proof. apply NoDup_remove_dups. Qed.

Context (Ht : Forall timed history).

(** The order of the points respects real time. *)
Lemma sorted_real_time m : Sorted earlier m → Forall within m → (∀ x, x ∈ m → is_Some (history !! Z.to_nat x.2)) → real_time history m.*2.
Proof.
  intros Hs Hw Hin. apply real_time_times; [intros i (x & -> & Hx)%list_elem_of_fmap; by apply Hin|].
  intros i j (x & y & Hxy & -> & ->)%sublist_map_pair. apply sublist_pair_lookup in Hxy as (a & b & Hab & Ha & Hb).
  pose proof (Forall_lookup_1 _ _ _ _ Hw Ha) as [Hx _]. pose proof (Forall_lookup_1 _ _ _ _ Hw Hb) as [_ Hy].
  assert (Hle : earlier x y); [|unfold earlier in Hle; lia].
  apply Sorted_StronglySorted in Hs; [|apply _]. revert a b Hab Ha Hb. clear -Hs. induction Hs as [|z m _ IH Hz]; intros a b Hab Ha Hb; [done|].
  destruct b as [|b]; [lia|]. destruct a as [|a]; simpl in *; [|by eapply (IH a b); [lia|..]]. injection Ha as ->. by eapply Forall_lookup_1.
Qed.

Lemma locality_merge : (∀ k, ∃ l, key_linearization history k l) → ∃ ids, op_linearization store_model history ids.
Proof.
  intros Hkeys. assert (Hls : ∀ ks, ∃ ls, Forall2 (λ k l, key_linearization history k l) ks ls).
  { induction ks as [|k ks [ls IH]]; [by exists []|]. destruct (Hkeys k) as [l Hl]. exists (l :: ls). by constructor. }
  destruct (Hls keys) as [ls Hl]. clear Hls Hkeys.
  assert (Hsome : ∀ k i, i ∈ key_ids history k → is_Some (history !! Z.to_nat i)).
  { intros k i [_ Hi]%key_ids_elem. unfold at_key in Hi. by destruct (history !! Z.to_nat i). }
  assert (Hpts : ∀ k l, key_linearization history k l → (points l).*2 = l ∧ Sorted earlier (points l) ∧ Forall within (points l)).
  { intros k l (Hp & _ & Hr). assert (Hin : ∀ i, i ∈ l → is_Some (history !! Z.to_nat i)) by (intros i; rewrite Hp; apply Hsome).
    apply points_spec; [|by apply real_time_times]. intros i [op Hop]%Hin. unfold call_time, return_time. rewrite Hop. by apply (Forall_lookup_1 _ _ _ _ Ht Hop). }
  destruct (merge_orders keys ls keys_nodup) as (Hn & Hin & Hkeep).
  { eapply Forall2_impl; [exact Hl|]. intros k l Hkl. split; [by destruct Hkl|by eapply Hpts]. }
  set (M := merge_all (points <$> ls)) in *. exists M.*2.
  assert (HMin : ∀ i, i ∈ M.*2 → is_Some (history !! Z.to_nat i)) by (intros i (k & _ & Hi)%Hin; by eapply Hsome).
  assert (HF : Forall (λ l, ∃ k, key_linearization history k l) ls).
  { apply Forall_forall. intros l [a Ha]%list_elem_of_lookup. destruct (Forall2_lookup_r _ _ _ _ _ Hl Ha) as (k & _ & ?). by exists k. }
  split; [|split].
  - apply NoDup_Permutation; [done|apply NoDup_seqZ|]. intros i. rewrite Hin. split.
    + intros (k & _ & [Hi Hk]%key_ids_elem). by eapply at_key_range.
    + intros Hi. destruct (at_key_exists i Hi) as (k & Hk & Hat). exists k. split; [done|]. apply key_ids_elem. apply elem_of_seqZ in Hi. split; [lia|done].
  - apply store_accepted; [done|]. intros k. simpl. destruct (decide (k ∈ keys)) as [Hk|Hk].
    + apply list_elem_of_lookup in Hk as [a Ha]. destruct (Forall2_lookup_l _ _ _ _ _ Hl Ha) as (l & Hal & Hkl).
      rewrite (Hkeep k l); [apply Hkl|]. apply (list_elem_of_lookup_2 _ a). by rewrite lookup_zip_with, Ha; simpl; rewrite Hal.
    + rewrite filter_none; [done|]. apply Forall_forall. intros i (k' & Hk' & [Hi Hat']%key_ids_elem)%Hin Hat. by rewrite (at_key_fun _ _ _ Hat Hat') in Hk.
  - apply sorted_real_time.
    + apply merge_all_sorted. rewrite Forall_fmap. eapply Forall_impl; [exact HF|]. intros l [k Hk]. by eapply Hpts.
    + unfold M. rewrite merge_all_perm. apply Forall_concat. rewrite Forall_fmap. eapply Forall_impl; [exact HF|]. intros l [k Hk]. by eapply Hpts.
    + intros x Hx. apply HMin. by apply list_elem_of_fmap_2.
Qed.

Lemma locality_split ids : op_linearization store_model history ids → ∀ k, key_linearization history k (filter (at_key history k) ids).
Proof.
  intros (Hp & Hacc & Hr) k. assert (Hin : ∀ i, i ∈ ids → is_Some (history !! Z.to_nat i)).
  { intros i. rewrite Hp, elem_of_seqZ. intros Hi. apply lookup_lt_is_Some_2. lia. }
  split; [unfold key_ids; by rewrite Hp|]. split; [by apply (proj1 (store_accepted ids ∅ Hin) Hacc k)|].
  intros i j a b Hij. apply Hr. etrans; [exact Hij|apply sublist_filter].
Qed.
End Store.

Lemma store_iff_keys (history : list kv_op) : Forall typed history → Forall timed history →
  (∃ ids, op_linearization store_model history ids) ↔ ∀ k, ∃ ids, op_linearization key_model (filter (on_key k) history) ids.
Proof.
  intros Hty Ht. split.
  - intros [ids Hids] k. apply key_linearization_iff. eexists. by apply locality_split.
  - intros Hk. apply locality_merge; [done..|]. intros k. by apply key_linearization_iff.
Qed.

(** Partitioning by key.  For operations of the model's types that do not
    return before they are called: the history has a linearization for the whole
    store, a map from keys to values, exactly when for every key the operations on
    that key have one for the single value [KvModel] keeps. *)
Theorem kv_locality (history : list kv_op) : Forall typed history → Forall timed history →
  (∃ ids, op_linearization store_model history ids) ↔ ∀ k, ∃ ids, op_linearization key_model (filter (on_key k) history) ids.
Proof. apply store_iff_keys. Qed.

Lemma kv_locality_witness :
  (∃ ids, op_linearization store_model kv_history ids) ↔ ∀ k, ∃ ids, op_linearization key_model (filter (on_key k) kv_history) ids.
Proof. apply (kv_locality kv_history); [repeat constructor|repeat constructor; unfold timed; simpl; lia]. Defined.


