(* ===== verification/HttpServer.v ===== *)
(** * Lab1_HTTP_server: requests and responses

    The request handling of [httpserver.go]: [performGet], [performPost],
    [handleHTTPRequest] and [connectionHandler] up to its call of [decrement].
    Parsing a request and printing a response are the work of net/http: a handler
    starts from the result of [http.ReadRequest] and ends with the response it
    hands to [Response.Write]. *)

From S2P Require Import Prelude GoFiles.
From stdpp Require Import pretty.
From Stdlib Require Import Ascii.
Open Scope string_scope.
Open Scope Z_scope.

(** ** Data of net/http *)

(** The body of a request: the bytes that can be read, and whether the read ends
    without an error. *)
Record body := mkBody { b_bytes : string; b_complete : bool }.

Record Request := mkRequest {
  Method : string; RequestURI : string; Host : string;
  req_Proto : string; req_ProtoMajor : Z; req_ProtoMinor : Z; req_Body : body
}.

(** [Body] is the path of the open file, if any. *)
Record Response := mkResponse {
  Proto : string; ProtoMajor : Z; ProtoMinor : Z; Status : string; StatusCode : Z; Close : bool;
  Header : list (string * string); Body : option string
}.

Definition set_Status (st : string) (code : Z) (r : Response) : Response :=
  mkResponse (Proto r) (ProtoMajor r) (ProtoMinor r) st code (Close r) (Header r) (Body r).
Definition Header_Add (k v : string) (r : Response) : Response :=
  mkResponse (Proto r) (ProtoMajor r) (ProtoMinor r) (Status r) (StatusCode r) (Close r) (Header r ++ [(k, v)])%list (Body r).
Definition set_Body (b : option string) (r : Response) : Response :=
  mkResponse (Proto r) (ProtoMajor r) (ProtoMinor r) (Status r) (StatusCode r) (Close r) (Header r) b.

(** [path.Ext]: from the last dot of the last path element. *)
Fixpoint ext_loop (rev : list ascii) (suffix : list ascii) : list ascii :=
  match rev with
  | [] => []
  | c :: rev' => if decide (c = "/"%char) then [] else if decide (c = "."%char) then c :: suffix else ext_loop rev' (c :: suffix)
  end.
Definition path_Ext (p : string) : string := String.string_of_list_ascii (ext_loop (reverse (String.list_ascii_of_string p)) []).

(** [file.Stat] on an open file: size and name. *)
Class OsStat (FS : Type) := file_Stat : string → FS → option (Z * string).
Class OsStatLaws (FS : Type) `{FileSystem FS, OsStat FS} := {
  stat_size : ∀ p fs c n name, io_ReadAll p fs = Some c → file_Stat p fs = Some (n, name) → n = Z.of_nat (String.length c)
}.

(** ** The handlers *)

Section Handlers.
Context {FS : Type} `{FileSystem FS, OsStat FS}.

Definition defaultResponse (request : Request) : Response :=
  mkResponse (req_Proto request) (req_ProtoMajor request) (req_ProtoMinor request) "200 OK" 200 true [] None.

Definition internalErrorResponse : Response :=
  mkResponse "HTTP/1.1" 1 1 "500 Internal Server Error" 500 true [] None.

(** The switch of [performGet]. *)
Definition content_type (ext : string) : option string :=
  if decide (ext = ".html") then Some "text/html"
  else if decide (ext = ".txt") then Some "text/plain"
  else if decide (ext = ".gif") then Some "image/gif"
  else if decide (ext = ".jpeg") then Some "image/jpeg"
  else if decide (ext = ".jpg") then Some "image/jpeg"
  else if decide (ext = ".css") then Some "text/css"
  else None.

(** A double quote. *)
Definition quote : string := String (ascii_of_nat 34) "".

(** [wd] is what [os.Getwd] returns; the response so far is [resp]. *)
Definition performGet (wd : option string) (httpReq : Request) (resp : Response) (fs : FS) : Response :=
  match content_type (path_Ext (RequestURI httpReq)) with
  | None => set_Status "400 Bad Request" 400 resp
  | Some ct =>
      let resp := Header_Add "Content-Type" ct resp in
      match wd with
      | None => internalErrorResponse
      | Some workingDir =>
          let file := workingDir +:+ RequestURI httpReq in
          if negb (os_Open file fs) then Header_Add "Content-Length" "0" (set_Status "404 Not Found" 404 resp)
          else
            match file_Stat file fs with
            | None => internalErrorResponse
            | Some (size, name) =>
                let resp := Header_Add "Content-Length" (pretty size) resp in
                let resp := Header_Add "Content-Disposition" ("attachment; filename=" +:+ quote +:+ name +:+ quote) resp in
                set_Body (Some file) resp
            end
      end
  end.

(** [io.Copy] from the body of a request into the file at [path]. *)
Definition io_Copy (path : string) (b : body) (fs : FS) : FS * bool :=
  let '(fs', written) := file_Write path (b_bytes b) fs in (fs', written && b_complete b).

Definition performPost (wd : option string) (httpReq : Request) (resp : Response) (fs : FS) : FS * Response :=
  match wd with
  | None => (fs, internalErrorResponse)
  | Some workingDir =>
      let path := workingDir +:+ RequestURI httpReq in
      match os_Create path fs with
      | None => (fs, internalErrorResponse)
      | Some fs1 =>
          let '(fs2, copied) := io_Copy path (req_Body httpReq) fs1 in
          if negb copied then (fs2, internalErrorResponse) else (fs2, resp)
      end
  end.

Definition handleHTTPRequest (wd : option string) (httpReq : Request) (resp : Response) (fs : FS) : FS * Response :=
  if decide (Method httpReq = "GET") then (fs, performGet wd httpReq resp fs)
  else if decide (Method httpReq = "POST") then performPost wd httpReq resp fs
  else (fs, set_Status "501 Not Implemented" 501 resp).

(** [connectionHandler] between reading the request ([read], [None] if that
    failed) and [decrement]: the response that is written, and the bytes read from
    its body. *)
Definition respond (wd : option string) (read : option Request) (fs : FS) : FS * option (Response * option string) :=
  match read with
  | None => (fs, None)
  | Some request =>
      let '(fs', response) := handleHTTPRequest wd request (defaultResponse request) fs in
      (fs', Some (response, Body response ≫= λ file, io_ReadAll file fs'))
  end.
End Handlers.

(** ** What clients see *)

Section Theorems.
Context {FS : Type} `{FileSystem FS, OsStat FS}.

(** The status and the body of the answer, as the code decides them. *)
Definition get_answer (wd : option string) (req : Request) (fs : FS) : Z * option string :=
  match content_type (path_Ext (RequestURI req)), wd with
  | None, _ => (400, None)
  | Some _, None => (500, None)
  | Some _, Some d =>
      let file := d +:+ RequestURI req in
      if os_Open file fs then match file_Stat file fs with Some _ => (200, Some file) | None => (500, None) end else (404, None)
  end.

Lemma performGet_answer wd req fs : let r := performGet wd req (defaultResponse req) fs in (StatusCode r, Body r) = get_answer wd req fs.
Proof.
  unfold performGet, get_answer. destruct (content_type _) as [ct|]; [|done]. destruct wd as [d|]; [|done].
  destruct (os_Open _ fs); [|done]. simpl. by destruct (file_Stat _ fs) as [[? ?]|].
Qed.

Lemma performPost_answer wd req fs : let r := (performPost wd req (defaultResponse req) fs).2 in
  (StatusCode r = 200 ∨ StatusCode r = 500) ∧ Body r = None.
Proof.
  unfold performPost. destruct wd as [d|]; simpl; [|auto]. destruct (os_Create _ fs) as [fs1|]; simpl; [|auto].
  destruct (io_Copy _ _ fs1) as [fs2 [|]]; simpl; auto.
Qed.


End Theorems.

Section Roundtrip.
Context {FS : Type} `{FileSystemLaws FS, !OsStat FS, !OsStatLaws FS}.

(** C22 (POST then GET).  If a POST of a body to a path with a served extension is
    answered with 200, a GET of the same path, with no change of files in between
    and file metadata readable, is answered with 200, the content type of the
    extension, the length of the body that was posted as Content-Length, and that
    body. *)
Theorem post_get_roundtrip (wd : option string) (fs fs1 : FS) (post get : Request) (resp : Response) (b : option string) (ct : string) :
  Method post = "POST" → Method get = "GET" → RequestURI get = RequestURI post →
  content_type (path_Ext (RequestURI get)) = Some ct →
  respond wd (Some post) fs = (fs1, Some (resp, b)) → StatusCode resp = 200 →
  (∀ d, wd = Some d → is_Some (file_Stat (d +:+ RequestURI get) fs1)) →
  ∃ resp', respond wd (Some get) fs1 = (fs1, Some (resp', Some (b_bytes (req_Body post)))) ∧ StatusCode resp' = 200 ∧
    ("Content-Type", ct) ∈ Header resp' ∧
    ("Content-Length", pretty (Z.of_nat (String.length (b_bytes (req_Body post))))) ∈ Header resp'.
Proof.
  intros Hpost Hget Huri Hct Hr Hcode Hstat. unfold respond, handleHTTPRequest in Hr. rewrite Hpost in Hr.
  rewrite decide_False, decide_True in Hr by done. unfold performPost in Hr.
  destruct wd as [d|]; [|injection Hr as <- <- <-; done]. destruct (os_Create _ fs) as [fs0|] eqn:Hc; [|injection Hr as <- <- <-; done].
  unfold io_Copy in Hr. destruct (file_Write _ _ fs0) as [fs2 written] eqn:Hw.
  destruct (written && b_complete (req_Body post)) eqn:Hok; [|injection Hr as <- <- <-; done]. injection Hr as -> <- <-.
  apply andb_true_iff in Hok as [-> _]. destruct (write_read _ _ _ _ _ Hc Hw) as [Ho Hread]. rewrite <-Huri in *.
  destruct (Hstat d eq_refl) as [[n name] Hst]. pose proof (stat_size _ _ _ _ _ Hread Hst) as ->.
  unfold respond, handleHTTPRequest. rewrite decide_True by done. unfold performGet. rewrite Hct, Ho, Hst. simpl. rewrite Hread.
  eexists. split; [done|]. simpl. split; [done|]. set_solver.
Qed.
End Roundtrip.

(** ** A run on the in-memory files *)

Definition mem_stat : OsStat MemFS := λ p fs, c ← io_ReadAll p fs; Some (Z.of_nat (String.length c), p).
#[global] Existing Instance mem_stat.

#[global] Instance mem_stat_laws : OsStatLaws MemFS.
Proof. split. intros p fs c n name Hr Hs. unfold file_Stat, mem_stat in Hs. rewrite Hr in Hs. simpl in Hs. congruence. Qed.

Definition demo_fs : MemFS := mkMemFS ∅ {["/srv/"]}.
Definition demo_post : Request := mkRequest "POST" "/a.txt" "localhost" "HTTP/1.1" 1 1 (mkBody "hello" true).
Definition demo_get : Request := mkRequest "GET" "/a.txt" "localhost" "HTTP/1.1" 1 1 (mkBody "" true).

Lemma post_get_roundtrip_witness :
  ∃ resp', respond (Some "/srv") (Some demo_get) (mkMemFS {["/srv/a.txt" := "hello"]} {["/srv/"]}) =
             (mkMemFS {["/srv/a.txt" := "hello"]} {["/srv/"]}, Some (resp', Some "hello")) ∧ StatusCode resp' = 200 ∧
    ("Content-Type", "text/plain") ∈ Header resp' ∧ ("Content-Length", pretty 5) ∈ Header resp'.
Proof.
  apply (post_get_roundtrip (Some "/srv") demo_fs (mkMemFS {["/srv/a.txt" := "hello"]} {["/srv/"]}) demo_post demo_get
           (defaultResponse demo_post) None "text/plain"); try reflexivity.
  intros d [= <-]. eexists. vm_compute. reflexivity.
Defined.
