(* ===== verification/HttpLoop.v ===== *)
(** * Lab1_HTTP_server: the accept loop and its condition variable

    [main], [decrement] and [connectionHandler] of [httpserver.go] as threads that
    interleave at the operations on the mutex.  The theorems: at most ten
    connections are served at a time, the server never ends with its fatal error,
    and the loop never misses the signal it waits for. *)

From S2P Require Import Prelude.
Open Scope Z_scope.

Definition MAX_CONNECTIONS : Z := 10.

(** ** The loop of [main] *)

(** Where [main] is: in Accept; before Lock; at the test of the for loop; in Wait,
    and in Wait after it was signalled; before the increment; before Unlock; before
    the go statement. *)
Inductive main_pc := MAccept | MLock | MTest | MWaiting | MWoken | MInc | MUnlock | MSpawn.

#[global] Instance main_pc_eq_dec : EqDecision main_pc.
Proof. solve_decision. Defined.

(** The shared variables and the threads.  [mutex] holds the owner: 0 for [main],
    [S i] for the handler of connection [i].  [H] is the position in a handler. *)
Record HTTPserver {H : Type} := mkHTTPserver {
  numConnections : Z; numTotal : Z; mutex : option nat; mpc : main_pc; handlers : list H
}.
Arguments HTTPserver H : clear implicits.
Arguments mkHTTPserver {H}.

Section Loop.
Context {H : Type}.
Implicit Types (s : HTTPserver H).

Definition set_main (pc : main_pc) (mu : option nat) s : HTTPserver H := mkHTTPserver (numConnections s) (numTotal s) mu pc (handlers s).
Definition set_handler (i : nat) (pc : H) (mu : option nat) s : HTTPserver H :=
  mkHTTPserver (numConnections s) (numTotal s) mu (mpc s) (<[i := pc]> (handlers s)).
Definition set_num (n : Z) s : HTTPserver H := mkHTTPserver n (numTotal s) (mutex s) (mpc s) (handlers s).

(** [Signal] wakes [main] if it is waiting; only [main] ever waits. *)
Definition Signal s : HTTPserver H :=
  match mpc s with MWaiting => set_main MWoken (mutex s) s | _ => s end.

(** An [int] that overflows wraps around. *)
Definition int_incr (n : Z) : Z := (n + 1 + 2 ^ 63) mod 2 ^ 64 - 2 ^ 63.

(** One step of [main]; [None] if it has to wait.  A handler starts at [start]. *)
Definition main_step (start : H) s : option (outcome (HTTPserver H)) :=
  match mpc s with
  | MAccept => Some (Ret (set_main MLock (mutex s) s))
  | MLock =>
      match mutex s with
      | None => Some (Ret (mkHTTPserver (numConnections s) (int_incr (numTotal s)) (Some 0%nat) MTest (handlers s)))
      | Some _ => None
      end
  | MTest =>
      if numConnections s =? MAX_CONNECTIONS then Some (Ret (set_main MWaiting None s))
      else Some (Ret (set_main MInc (mutex s) s))
  | MWaiting => None
  | MWoken => match mutex s with None => Some (Ret (set_main MTest (Some 0%nat) s)) | Some _ => None end
  | MInc =>
      let s := set_num (numConnections s + 1) s in
      if numConnections s >? MAX_CONNECTIONS then Some Exit else Some (Ret (set_main MUnlock (mutex s) s))
  | MUnlock => Some (Ret (set_main MSpawn None s))
  | MSpawn => Some (Ret (mkHTTPserver (numConnections s) (numTotal s) (mutex s) MAccept (handlers s ++ [start])))
  end.

(** The critical section of [decrement]. *)
Definition decrement s : HTTPserver H :=
  let s := set_num (numConnections s - 1) s in
  if numConnections s =? MAX_CONNECTIONS - 1 then Signal s else s.

Definition getArgs : HTTPserver H := mkHTTPserver 0 0 None MAccept [].
End Loop.

Lemma decrement_fields {H : Type} (s : HTTPserver H) : numConnections (decrement s) = numConnections s - 1 ∧ mutex (decrement s) = mutex s ∧
  handlers (decrement s) = handlers s ∧
  mpc (decrement s) = (if decide (mpc s = MWaiting ∧ numConnections s = MAX_CONNECTIONS) then MWoken else mpc s).
Proof.
  destruct s as [n tot mu pc hs]. unfold decrement, Signal, set_num, set_main. simpl. destruct (Z.eqb_spec (n - 1) (MAX_CONNECTIONS - 1)) as [He|He]; simpl.
  - destruct pc; simpl; repeat (split; [done|]); try done. case_decide as Hd; [done|]. destruct Hd. split; [done|lia].
  - repeat (split; [done|]). case_decide as Hd; [lia|done].
Qed.

(** ** Threads that move *)

(** How many handlers satisfy [P] after one of them moved. *)
Lemma filter_insert_length {H : Type} (P : H → Prop) `{∀ x, Decision (P x)} (l : list H) i old new : l !! i = Some old →
  Z.of_nat (length (filter P (<[i := new]> l))) =
  Z.of_nat (length (filter P l)) - (if decide (P old) then 1 else 0) + (if decide (P new) then 1 else 0).
Proof.
  revert i. induction l as [|x l IH]; intros [|i] Hi; simpl in Hi; try done.
  - injection Hi as ->. change (<[0%nat := new]> (old :: l)) with (new :: l). rewrite !filter_cons.
    destruct (decide (P old)), (decide (P new)); cbn [length]; lia.
  - change (<[S i := new]> (x :: l)) with (x :: <[i := new]> l). rewrite !filter_cons. specialize (IH i Hi).
    destruct (decide (P x)); cbn [length]; lia.
Qed.

(** The mutex belongs to a handler exactly when that handler is at a position of
    its critical sections. *)
Definition lock_ok {H : Type} (holds : H → Prop) (mu : option nat) (hs : list H) : Prop :=
  ∀ i, mu = Some (S i) ↔ ∃ pc, hs !! i = Some pc ∧ holds pc.

Lemma lock_ok_insert {H : Type} (holds : H → Prop) (hs : list H) i (old new : H) (mu mu' : option nat) : hs !! i = Some old →
  lock_ok holds mu hs → (∀ j, j ≠ i → mu' = Some (S j) ↔ mu = Some (S j)) → (mu' = Some (S i) ↔ holds new) →
  lock_ok holds mu' (<[i := new]> hs).
Proof.
  intros Hi Hh Hne Heq j. destruct (decide (j = i)) as [->|Hj].
  - rewrite list_lookup_insert_eq by (by eapply lookup_lt_Some). rewrite Heq. naive_solver.
  - rewrite list_lookup_insert_ne by done. by rewrite Hne, (Hh j).
Qed.

Lemma lock_ok_snoc {H : Type} (holds : H → Prop) (hs : list H) mu new : lock_ok holds mu hs → ¬ holds new → lock_ok holds mu (hs ++ [new]).
Proof.
  intros Hh Hn i. rewrite (Hh i). destruct (decide (i < length hs)%nat); [by rewrite lookup_app_l by lia|].
  rewrite (lookup_ge_None_2 hs) by lia. destruct (decide (i = length hs)) as [->|]; [rewrite list_lookup_middle by done; naive_solver|].
  rewrite lookup_ge_None_2 by (rewrite length_app; simpl; lia). naive_solver.
Qed.

(** With the mutex free or with [main], no handler is in a critical section. *)
Lemma lock_ok_change {H : Type} (holds : H → Prop) (hs : list H) mu mu' : lock_ok holds mu hs →
  (∀ i, mu ≠ Some (S i)) → (∀ i, mu' ≠ Some (S i)) → lock_ok holds mu' hs.
Proof. intros Hh H1 H2 i. rewrite <-(Hh i). split; intros Hx; [by destruct (H2 i)|by destruct (H1 i)]. Qed.

(** ** The invariant of the loop *)

Section Invariant.
Context {H : Type}.
(** The positions in critical sections, and those of a handler that has not yet
    given back its connection. *)
Context (holds counted : H → Prop) `{∀ pc, Decision (counted pc)}.
Implicit Types (s : HTTPserver H).

Definition num_counted s : Z := Z.of_nat (length (filter counted (handlers s))).

(** [main] has counted a connection it has not handed over yet. *)
Definition pending s : Z := if decide (mpc s = MUnlock ∨ mpc s = MSpawn) then 1 else 0.

(** [leaked] connections are counted but have no handler any more. *)
Record loop_inv (leaked : Z) s : Prop := {
  inv_main_lock : mutex s = Some 0%nat ↔ (mpc s = MTest ∨ mpc s = MInc ∨ mpc s = MUnlock);
  inv_handler_lock : lock_ok holds (mutex s) (handlers s);
  inv_count : numConnections s = num_counted s + pending s + leaked;
  inv_max : numConnections s ≤ MAX_CONNECTIONS;
  inv_inc : mpc s = MInc → numConnections s < MAX_CONNECTIONS;
  inv_waiting : mpc s = MWaiting → numConnections s = MAX_CONNECTIONS;
  inv_woken : mpc s = MWoken → numConnections s < MAX_CONNECTIONS
}.

Lemma inv_init : loop_inv 0 getArgs.
Proof. split; simpl; try done; [naive_solver|]. intros i. naive_solver. Qed.

(** Splits on the cases of [pending] and closes what arithmetic and equality can. *)
Ltac loop_solve :=
  unfold pending, num_counted, MAX_CONNECTIONS in *; simpl in *; repeat case_decide; simpl in *; intros;
  try done; try lia; naive_solver lia.

Lemma main_step_inv start leaked s r : ¬ holds start → counted start → loop_inv leaked s → main_step start s = Some r →
  ∃ s', r = Ret s' ∧ loop_inv leaked s'.
Proof.
  intros Hstart Hcnt. destruct s as [n tot mu pc hs]. intros [Hm Hh Hc Hmax Hinc Hw Hwk] Hs. unfold main_step, set_main, set_num in Hs. simpl in *.
  assert (Hlock : ∀ mu', (mu = None ∨ mu = Some 0%nat) → (mu' = None ∨ mu' = Some 0%nat) → lock_ok holds mu' hs).
  { intros mu' H1 H2. eapply lock_ok_change; [exact Hh|naive_solver..]. }
  destruct pc; simpl in Hs; try discriminate Hs.
  - injection Hs as <-. eexists. split; [done|]. split; try done; loop_solve.
  - destruct mu; [done|]. injection Hs as <-. eexists. split; [done|]. split; [loop_solve|by apply Hlock; auto|loop_solve..].
  - assert (mu = Some 0%nat) as -> by (apply Hm; auto).
    destruct (Z.eqb_spec n MAX_CONNECTIONS); injection Hs as <-; eexists; (split; [done|]);
      (split; [loop_solve|by apply Hlock; auto|loop_solve..]).
  - destruct mu; [done|]. injection Hs as <-. eexists. split; [done|]. split; [loop_solve|by apply Hlock; auto|loop_solve..].
  - destruct (Z.gtb_spec (n + 1) MAX_CONNECTIONS) as [Hgt|Hgt]; [specialize (Hinc eq_refl); lia|].
    injection Hs as <-. eexists. split; [done|]. split; try done; loop_solve.
  - assert (mu = Some 0%nat) as -> by (apply Hm; auto).
    injection Hs as <-. eexists. split; [done|]. split; [loop_solve|by apply Hlock; auto|loop_solve..].
  - injection Hs as <-. eexists. split; [done|]. split; simpl; try done.
    + rewrite Hm. naive_solver.
    + by apply lock_ok_snoc.
    + rewrite Hc. unfold pending, num_counted. simpl. rewrite filter_app, length_app, filter_cons_True by done. simpl. lia.
Qed.

Lemma num_counted_insert s s' i old new : handlers s !! i = Some old → handlers s' = <[i := new]> (handlers s) →
  num_counted s' = num_counted s - (if decide (counted old) then 1 else 0) + (if decide (counted new) then 1 else 0).
Proof. intros Hi Hh. unfold num_counted. rewrite Hh. by apply filter_insert_length. Qed.

(** A handler in a critical section owns the mutex, so [main] is outside its own. *)
Lemma holds_mutex leaked s i pc : loop_inv leaked s → handlers s !! i = Some pc → holds pc →
  mutex s = Some (S i) ∧ mpc s ≠ MTest ∧ mpc s ≠ MInc ∧ mpc s ≠ MUnlock.
Proof.
  intros [Hm Hh _ _ _ _ _] Hi Hp. assert (Hmu : mutex s = Some (S i)) by (apply (Hh i); eauto). split; [done|].
  repeat split; intros Hx; assert (mutex s = Some 0%nat) by (apply Hm; auto); congruence.
Qed.

(** A handler moves: it takes the mutex if it is free, keeps or releases its own. *)
Lemma handler_move leaked leaked' s i old new mu' : loop_inv leaked s → handlers s !! i = Some old →
  (mu' = Some (S i) ↔ holds new) →
  (mu' = mutex s ∨ (mutex s = None ∧ mu' = Some (S i)) ∨ (mutex s = Some (S i) ∧ mu' = None)) →
  leaked' = leaked + (if decide (counted old) then 1 else 0) - (if decide (counted new) then 1 else 0) →
  loop_inv leaked' (set_handler i new mu' s).
Proof.
  intros [Hm Hh Hc Hmax Hinc Hw Hwk] Hi Hnew Hmu ->. split; simpl; try done.
  - rewrite <-Hm. naive_solver.
  - apply (lock_ok_insert _ _ _ old _ (mutex s)); [done..| |done]. intros j Hj. naive_solver.
  - rewrite (num_counted_insert s _ i old new) by done. unfold pending in *. simpl. lia.
Qed.

(** The critical section of [decrement] by a handler that holds the mutex. *)
Lemma handler_decrement leaked s i old new : loop_inv leaked s → handlers s !! i = Some old → holds old → holds new →
  counted old → ¬ counted new → loop_inv leaked (set_handler i new (mutex s) (decrement s)).
Proof.
  intros Hinv Hi Ho Hn Hco Hcn. destruct (holds_mutex _ _ _ _ Hinv Hi Ho) as (Hmu & Hpc).
  destruct Hinv as [Hm Hh Hc Hmax Hinc Hw Hwk]. destruct (decrement_fields s) as (Dn & Dm & Dh & Dp).
  split; simpl; rewrite ?Dn, ?Dm, ?Dh, ?Dp.
  - rewrite Hm. case_decide; naive_solver.
  - apply (lock_ok_insert _ _ _ old _ (mutex s)); [done..|]. naive_solver.
  - rewrite (num_counted_insert s _ i old new) by (done || (simpl; by rewrite Dh)). rewrite decide_True, decide_False by done.
    rewrite Hc. unfold pending. simpl. rewrite Dp. destruct (decide (mpc s = MWaiting ∧ _)) as [[-> _]|_]; simpl; lia.
  - lia.
  - case_decide; [done|]. by destruct Hpc as (_ & ? & _).
  - case_decide as Hd; [done|]. intros Hwt. destruct Hd. split; [done|by apply Hw].
  - case_decide as Hd; intros Hwt; [lia|]. specialize (Hwk Hwt). lia.
Qed.
End Invariant.

(** ** The handlers of the server *)

(** Reading, answering and writing; before Lock; in the critical section; before
    Unlock; finished. *)
Inductive handler_pc := HRun | HLock | HDec | HUnlock | HEnd.

#[global] Instance handler_pc_eq_dec : EqDecision handler_pc.
Proof. solve_decision. Defined.

Notation server := (HTTPserver handler_pc).

Definition connectionHandler_step (i : nat) (s : server) : option (outcome server) :=
  match handlers s !! i with
  | None => None
  | Some HRun => Some (Ret (set_handler i HLock (mutex s) s))
  | Some HLock => match mutex s with None => Some (Ret (set_handler i HDec (Some (S i)) s)) | Some _ => None end
  | Some HDec => Some (Ret (set_handler i HUnlock (mutex s) (decrement s)))
  | Some HUnlock => Some (Ret (set_handler i HEnd None s))
  | Some HEnd => None
  end.

(** A thread: [None] is [main], [Some i] the handler of connection [i]. *)
Definition thread_step (t : option nat) (s : server) : option (outcome server) :=
  match t with None => main_step HRun s | Some i => connectionHandler_step i s end.

Inductive step (s : server) : outcome server → Prop :=
| step_thread t r : thread_step t s = Some r → step s r.

Inductive reachable : server → Prop :=
| reachable_init : reachable getArgs
| reachable_step s s' : reachable s → step s (Ret s') → reachable s'.

(** ** Invariant *)

(** A handler that has not yet given its connection back. *)
Definition busy (pc : handler_pc) : Prop := pc = HRun ∨ pc = HLock ∨ pc = HDec.
#[global] Instance busy_dec pc : Decision (busy pc).
Proof. unfold busy. apply _. Defined.

(** In the critical section of [decrement]. *)
Definition holds (pc : handler_pc) : Prop := pc = HDec ∨ pc = HUnlock.

Notation num_busy := (num_counted busy).
Notation server_inv := (loop_inv holds busy 0).

Lemma handler_step_inv i s r : server_inv s → connectionHandler_step i s = Some r → ∃ s', r = Ret s' ∧ server_inv s'.
Proof.
  intros Hinv Hs. unfold connectionHandler_step in Hs. destruct (handlers s !! i) as [pc|] eqn:Hi; [|done].
  assert (Hno : ¬ holds pc → mutex s ≠ Some (S i)).
  { intros Hnp Hmu. apply (inv_handler_lock _ _ _ _ Hinv i) in Hmu as (pc' & Hpc' & ?). congruence. }
  destruct pc; try discriminate Hs.
  - injection Hs as <-. eexists. split; [done|]. eapply handler_move; [done..| |by left|done].
    split; [intros Hmu; destruct Hno; [unfold holds; naive_solver|done]|unfold holds; naive_solver].
  - destruct (mutex s) eqn:Hmu; [done|]. injection Hs as <-. eexists. split; [done|].
    eapply handler_move; [done..| |by right; left|done]. unfold holds. naive_solver.
  - injection Hs as <-. eexists. split; [done|]. eapply handler_decrement; [done..| | | |]; unfold holds, busy; naive_solver.
  - destruct (holds_mutex _ _ _ _ _ _ Hinv Hi ltac:(by right)) as [Hmu _]. injection Hs as <-. eexists. split; [done|].
    eapply handler_move; [done..| |by right; right|done]. unfold holds. naive_solver.
Qed.

Lemma step_inv s r : server_inv s → step s r → ∃ s', r = Ret s' ∧ server_inv s'.
Proof. intros Hi [[i|] r' Hs]; [by eapply handler_step_inv|]. eapply main_step_inv; [..|done|done]; unfold holds, busy; naive_solver. Qed.

Lemma reachable_inv s : reachable s → server_inv s.
Proof.
  induction 1 as [|s s' _ IH Hs]; [apply inv_init|]. destruct (step_inv _ _ IH Hs) as (s2 & [= <-] & ?). done.
Qed.

(** ** Runs *)

Fixpoint run (ts : list (option nat)) (s : server) : option server :=
  match ts with
  | [] => Some s
  | t :: ts' => match thread_step t s with Some (Ret s') => run ts' s' | _ => None end
  end.

Lemma run_reachable ts s s' : reachable s → run ts s = Some s' → reachable s'.
Proof.
  revert s. induction ts as [|t ts IH]; intros s Hr; simpl; [by intros [= <-]|].
  destruct (thread_step t s) as [[s1| |]|] eqn:Hs; try done. apply IH. eapply reachable_step; [done|]. by econstructor.
Qed.

Lemma run_app ts ts' s s1 s2 : run ts s = Some s1 → run ts' s1 = Some s2 → run (ts ++ ts') s = Some s2.
Proof.
  revert s. induction ts as [|t ts IH]; intros s; simpl; [by intros [= ->]|].
  destruct (thread_step t s) as [[s'| |]|]; try done. by apply IH.
Qed.

Lemma run_inv ts s s' : server_inv s → run ts s = Some s' → server_inv s'.
Proof.
  revert s. induction ts as [|t ts IH]; intros s Hi; simpl; [by intros [= <-]|].
  destruct (thread_step t s) as [[s1| |]|] eqn:Hs; try done. apply IH.
  destruct (step_inv s (Ret s1) Hi) as (? & [= <-] & ?); [by econstructor|done].
Qed.

(** Woken and with the mutex free, the loop takes the waiting connection. *)
Lemma woken_accepts s : server_inv s → mpc s = MWoken → mutex s = None →
  ∃ s', run [None; None; None; None; None] s = Some s' ∧ mpc s' = MAccept ∧ length (handlers s') = S (length (handlers s)).
Proof.
  intros Hi Hp Hmu. pose proof (inv_woken _ _ _ s Hi Hp) as Hlt. destruct s as [n tot mu pc hs]. simpl in *. subst.
  unfold main_step. simpl. destruct (Z.eqb_spec n MAX_CONNECTIONS) as [|_]; [lia|]. simpl.
  destruct (Z.gtb_spec (n + 1) MAX_CONNECTIONS); [lia|]. simpl. eexists. split; [done|]. simpl. split; [done|]. rewrite length_app. simpl. lia.
Qed.

(** A handler in its critical section wakes the loop and frees the mutex. *)
Lemma handler_wakes s i : server_inv s → mpc s = MWaiting → handlers s !! i = Some HDec →
  ∃ s', run [Some i; Some i] s = Some s' ∧ mpc s' = MWoken ∧ mutex s' = None ∧ length (handlers s') = length (handlers s).
Proof.
  intros Hi Hp Hh. pose proof (inv_waiting _ _ _ s Hi Hp) as Hn. destruct (decrement_fields s) as (_ & _ & Dh & Dp).
  cbn [run thread_step]. unfold connectionHandler_step at 1. rewrite Hh. unfold connectionHandler_step. cbn [handlers set_handler]. rewrite Dh.
  rewrite list_lookup_insert_eq by by eapply lookup_lt_Some. eexists. split; [done|]. simpl. rewrite Dp, decide_True by done.
  split; [done|]. split; [done|]. by rewrite !length_insert, Dh.
Qed.

(** A busy handler gets into its critical section when the mutex is free. *)
Lemma busy_enters s i pc : handlers s !! i = Some pc → busy pc → pc ≠ HDec → mutex s = None →
  ∃ ts s', run ts s = Some s' ∧ mpc s' = mpc s ∧ handlers s' !! i = Some HDec ∧ length (handlers s') = length (handlers s).
Proof.
  intros Hh Hb Hne Hmu. pose proof (lookup_lt_Some _ _ _ Hh) as Hlt. destruct Hb as [->|[->| ->]]; [| |done].
  - exists [Some i; Some i]. cbn [run thread_step]. unfold connectionHandler_step at 1. rewrite Hh. unfold connectionHandler_step.
    cbn [handlers set_handler mutex]. rewrite list_lookup_insert_eq by done. rewrite Hmu. eexists. split; [done|]. simpl. split; [done|].
    rewrite !length_insert, list_lookup_insert_eq by by rewrite length_insert. done.
  - exists [Some i]. cbn [run thread_step]. unfold connectionHandler_step. rewrite Hh, Hmu. eexists. split; [done|]. simpl.
    split; [done|]. rewrite list_lookup_insert_eq by done. by rewrite length_insert.
Qed.

Lemma waiting_continues s : server_inv s → mpc s = MWaiting → mutex s = None →
  ∃ ts s', run ts s = Some s' ∧ mpc s' = MAccept ∧ length (handlers s') = S (length (handlers s)).
Proof.
  intros Hi Hp Hmu. pose proof (inv_waiting _ _ _ s Hi Hp) as Hn. pose proof (inv_count _ _ _ s Hi) as Hc. unfold pending, num_counted in Hc.
  rewrite Hp in Hc. rewrite decide_False in Hc by (intros [[=]|[=]]). destruct (filter busy (handlers s)) as [|pc l] eqn:Hf; [rewrite Hn in Hc; done|].
  assert (Hin : pc ∈ filter busy (handlers s)) by (rewrite Hf; by left). apply list_elem_of_filter in Hin as [Hb [i Hh]%list_elem_of_lookup].
  destruct (busy_enters s i pc) as (ts1 & s1 & Hr1 & Hp1 & Hh1 & Hl1); [done..| |done|].
  { intros ->. assert (mutex s = Some (S i)) by (apply (inv_handler_lock _ _ _ s Hi i); exists HDec; split; [done|by left]). congruence. }
  pose proof (run_inv _ _ _ Hi Hr1) as Hi1. destruct (handler_wakes s1 i Hi1) as (s2 & Hr2 & Hp2 & Hm2 & Hl2); [congruence|done|].
  destruct (woken_accepts s2) as (s3 & Hr3 & Hp3 & Hl3); [by eapply run_inv|done..|].
  exists (ts1 ++ [Some i; Some i] ++ [None; None; None; None; None])%list, s3. split; [|split; [done|congruence]].
  eapply run_app; [done|]. by eapply run_app.
Qed.

(** C18 (at most ten connections).  In every reachable state of the server, with any
    interleaving of the loop and the handlers: the number of handlers that have not
    given back their connection is at most MAX_CONNECTIONS and the counter is that
    number (plus the connection being handed over); no step ends the process with
    the fatal error; and if the loop waits, all MAX_CONNECTIONS connections are in
    use, so that it never sleeps through a signal. *)
Theorem server_capacity (s : server) : reachable s →
  num_busy s ≤ MAX_CONNECTIONS ∧ numConnections s = num_busy s + pending s ∧ ¬ step s Exit ∧ ¬ step s Panic ∧
  (mpc s = MWaiting → num_busy s = MAX_CONNECTIONS).
Proof.
  intros Hr%reachable_inv. pose proof Hr as [Hm Hh Hc Hmax Hinc Hw Hwk]. rewrite Z.add_0_r in Hc.
  assert (Hp : 0 ≤ pending s) by (unfold pending; case_decide; lia). split; [lia|]. split; [done|].
  split; [by intros (? & [=] & _)%step_inv|]. split; [by intros (? & [=] & _)%step_inv|].
  intros Hwait. specialize (Hw Hwait). unfold pending in Hc. rewrite decide_False in Hc by (intros [?|?]; congruence). lia.
Qed.

(** C35 (the loop is woken).  From every reachable state in which the loop waits for
    a connection to end, the threads can run so that the loop takes the connection
    it accepted, hands it to a new handler and accepts again: it is never stuck. *)
Theorem server_wakes (s : server) : reachable s → mpc s = MWaiting →
  ∃ ts s', run ts s = Some s' ∧ mpc s' = MAccept ∧ length (handlers s') = S (length (handlers s)).
Proof.
  intros Hi%reachable_inv Hp. destruct (mutex s) as [[|i]|] eqn:Hmu; [| |by apply waiting_continues].
  - apply (inv_main_lock _ _ _ s Hi) in Hmu. rewrite Hp in Hmu. naive_solver.
  - apply (inv_handler_lock _ _ _ s Hi i) in Hmu as (pc & Hh & [-> | ->]).
    + destruct (handler_wakes s i Hi Hp Hh) as (s1 & Hr1 & Hp1 & Hm1 & Hl1).
      destruct (woken_accepts s1) as (s2 & Hr2 & Hp2 & Hl2); [by eapply run_inv|done..|].
      exists ([Some i; Some i] ++ [None; None; None; None; None])%list, s2. split; [by eapply run_app|split; [done|congruence]].
    + assert (Hr : run [Some i] s = Some (set_handler i HEnd None s)) by (simpl; unfold connectionHandler_step; by rewrite Hh).
      destruct (waiting_continues (set_handler i HEnd None s)) as (ts & s' & Hr' & Hp' & Hl'); [by eapply run_inv|done..|].
      exists ([Some i] ++ ts)%list, s'. split; [by eapply run_app|]. split; [done|]. rewrite Hl'. simpl. by rewrite length_insert.
Qed.

(** Ten connections are being served and the loop waits with the eleventh. *)
Definition full_schedule : list (option nat) :=
  (concat (replicate 10 (replicate 6 None)) ++ replicate 3 None)%list.
Definition full_server : server := mkHTTPserver 10 11 None MWaiting (replicate 10 HRun).

Lemma full_reachable : reachable full_server.
Proof. eapply (run_reachable full_schedule getArgs); [constructor|]. vm_compute. reflexivity. Qed.

Lemma server_capacity_witness :
  num_busy full_server ≤ 10 ∧ numConnections full_server = num_busy full_server + pending full_server ∧
  ¬ step full_server Exit ∧ ¬ step full_server Panic ∧ (mpc full_server = MWaiting → num_busy full_server = 10).
Proof. exact (server_capacity full_server full_reachable). Defined.

Lemma server_wakes_witness : ∃ ts s', run ts full_server = Some s' ∧ mpc s' = MAccept ∧ length (handlers s') = 11%nat.
Proof. exact (server_wakes full_server full_reachable eq_refl). Defined.
