(* ===== verification/HttpProxy.v ===== *)
(** * Lab1_HTTP_server: the proxy

    [Proxy/proxy.go]: what the proxy answers, and its accept loop with handlers
    that read, forward and count connections.  The loop of [main] is the text of
    the server's loop, so it is the same step function.  The theorems: requests are
    forwarded or refused as the code decides, the limit holds, and a handler that
    refuses a request keeps its place for ever. *)

From S2P Require Import Prelude HttpServer HttpLoop.
Open Scope string_scope.
Open Scope Z_scope.

(** ** Answers *)

Definition proxy_response (request : Request) (st : string) (code : Z) : Response :=
  mkResponse (req_Proto request) (req_ProtoMajor request) (req_ProtoMinor request) st code false [] None.
Definition badRequest (request : Request) : Response := proxy_response request "400 Bad Request" 400.
Definition notFound (request : Request) : Response := proxy_response request "404 Not Found" 404.
Definition notImplemented (request : Request) : Response := proxy_response request "501 Not Implemented" 501.
Definition proxy_internalErrorResponse : Response := mkResponse "HTTP/1.1" 1 1 "500 Internal Server Error" 500 true [] None.

Definition validGETRequest (request : Request) : bool := bool_decide (Method request = "GET").

(** What the network does during one connection: the address of the client
    connection, whether a server can be dialled, whether the request is written to
    it, and the response read back. *)
Record network := mkNetwork {
  LocalAddr : string;
  Dial : string → bool;
  request_written : bool;
  ReadResponse : option Response
}.

(** What a handler does to the outside: requests sent to a server, and responses
    handed to [writeResponse]. *)
Inductive action := Forward (host : string) (request : Request) | Reply (response : Response).

(** [port] is the proxy's own port. *)
Definition requestAndForward (port : string) (net : network) (request : Request) : list action :=
  if decide (Host request = "") then [Reply (badRequest request)]
  else if decide (Host request = LocalAddr net ∨ Host request = "localhost:" +:+ port) then [Reply (badRequest request)]
  else if negb (Dial net (Host request)) then [Reply (notFound request)]
  else if negb (request_written net) then [Forward (Host request) request]
  else match ReadResponse net with
       | None => [Forward (Host request) request; Reply (badRequest request)]
       | Some response => [Forward (Host request) request; Reply response]
       end.

(** [connectionHandler] from [http.ReadRequest] ([read]) to the second Lock: the
    actions, and whether the code reaches that Lock. *)
Definition proxy_respond (port : string) (net : network) (read : option Request) : list action * bool :=
  match read with
  | None => ([Reply proxy_internalErrorResponse], false)
  | Some request =>
      if negb (validGETRequest request) then ([Reply (notImplemented request)], false)
      else (requestAndForward port net request, true)
  end.

(** ** The loop *)

(** Before the first Lock; at the check; before its Unlock; reading and forwarding;
    before the second Lock; in the second critical section; before its Unlock;
    returned. *)
Inductive proxy_pc := PLock1 | PCheck | PUnlock1 | PRun | PLock2 | PDec | PUnlock2 | PEnd.

#[global] Instance proxy_pc_eq_dec : EqDecision proxy_pc.
Proof. solve_decision. Defined.

Notation proxy := (HTTPserver proxy_pc).

Definition proxy_main_step (s : proxy) : option (outcome proxy) := main_step PLock1 s.

(** [reaches_lock] is the second component of [proxy_respond] for the connection. *)
Definition proxy_handler_step (reaches_lock : bool) (i : nat) (s : proxy) : option (outcome proxy) :=
  match handlers s !! i with
  | None => None
  | Some PLock1 => match mutex s with None => Some (Ret (set_handler i PCheck (Some (S i)) s)) | Some _ => None end
  | Some PCheck => if numConnections s >? MAX_CONNECTIONS then Some Exit else Some (Ret (set_handler i PUnlock1 (mutex s) s))
  | Some PUnlock1 => Some (Ret (set_handler i PRun None s))
  | Some PRun => Some (Ret (set_handler i (if reaches_lock then PLock2 else PEnd) (mutex s) s))
  | Some PLock2 => match mutex s with None => Some (Ret (set_handler i PDec (Some (S i)) s)) | Some _ => None end
  | Some PDec => Some (Ret (set_handler i PUnlock2 (mutex s) (decrement s)))
  | Some PUnlock2 => Some (Ret (set_handler i PEnd None s))
  | Some PEnd => None
  end.

(** A step of a thread; a handler's step comes with the network and the request it
    reads, which only matter at [PRun]. *)
Inductive proxy_step (port : string) (s : proxy) : outcome proxy → Prop :=
| proxy_step_main r : proxy_main_step s = Some r → proxy_step port s r
| proxy_step_handler i net read r : proxy_handler_step (proxy_respond port net read).2 i s = Some r → proxy_step port s r.

Inductive proxy_reachable (port : string) : proxy → Prop :=
| proxy_reachable_init : proxy_reachable port getArgs
| proxy_reachable_step s s' : proxy_reachable port s → proxy_step port s (Ret s') → proxy_reachable port s'.

(** An executable run: each step names the thread and what a handler reads. *)
Fixpoint proxy_run (port : string) (ts : list (option (nat * network * option Request))) (s : proxy) : option proxy :=
  match ts with
  | [] => Some s
  | t :: ts' =>
      match (match t with None => proxy_main_step s | Some (i, net, read) => proxy_handler_step (proxy_respond port net read).2 i s end) with
      | Some (Ret s') => proxy_run port ts' s'
      | _ => None
      end
  end.

Lemma proxy_run_reachable port ts s s' : proxy_reachable port s → proxy_run port ts s = Some s' → proxy_reachable port s'.
Proof.
  revert s. induction ts as [|[[[i net] read]|] ts IH]; intros s Hr; simpl; [by intros [= <-]| |].
  - destruct (proxy_handler_step _ i s) as [[s1| |]|] eqn:Hs; try done. apply IH. eapply proxy_reachable_step; [done|]. by econstructor 2.
  - destruct (proxy_main_step s) as [[s1| |]|] eqn:Hs; try done. apply IH. eapply proxy_reachable_step; [done|]. by econstructor.
Qed.

(** ** Theorems *)

(** The responses handed to the client. *)
Definition replies (acts : list action) : list Response := omap (λ a, match a with Reply r => Some r | Forward _ _ => None end) acts.

(** A request the proxy accepts to forward. *)
Definition forwardable (port : string) (net : network) (req : Request) : Prop :=
  Method req = "GET" ∧ Host req ≠ "" ∧ Host req ≠ LocalAddr net ∧ Host req ≠ "localhost:" +:+ port ∧ Dial net (Host req) = true.

Definition forwards_as (port : string) (net : network) (read : option Request) (acts : list action) : Prop :=
  (∀ host req, Forward host req ∈ acts ↔ read = Some req ∧ host = Host req ∧ forwardable port net req) ∧
  (∀ host req resp, Forward host req ∈ acts → request_written net = true → ReadResponse net = Some resp →
     acts = [Forward host req; Reply resp]) ∧
  (length (replies acts) ≤ 1)%nat ∧ (replies acts = [] → request_written net = false).

Lemma refuses port net read r : (∀ req, read = Some req → ¬ forwardable port net req) → forwards_as port net read [Reply r].
Proof.
  intros Hno. assert (Hf : ∀ host req, Forward host req ∉ [Reply r]) by (intros host req Hin%list_elem_of_singleton; done).
  split; [intros host req; split; [by intros ?%Hf|by intros (? & _ & ?%Hno)]|]. split; [by intros host req resp ?%Hf|]. by split; [simpl; lia|].
Qed.

Lemma accepts port net req acts : forwardable port net req →
  acts = [Forward (Host req) req] ∧ request_written net = false ∨
  (∃ r, acts = [Forward (Host req) req; Reply r] ∧ ∀ resp, ReadResponse net = Some resp → r = resp) →
  forwards_as port net (Some req) acts.
Proof.
  intros Hfw Hacts. assert (Hin : ∀ host req', Forward host req' ∈ acts ↔ host = Host req ∧ req' = req).
  { intros host req'. destruct Hacts as [[-> _]|(r & -> & _)]; rewrite ?elem_of_cons, elem_of_nil; naive_solver. }
  split; [intros host req'; rewrite Hin; naive_solver|]. split.
  - intros host req' resp [-> ->]%Hin Hw Hr. destruct Hacts as [[_ Hw']|(r & -> & Hresp)]; [congruence|]. by rewrite (Hresp resp Hr).
  - destruct Hacts as [[-> Hw]|(r & -> & _)]; simpl; (split; [lia|done]).
Qed.

(** C38 (what the proxy forwards).  A readable GET request is sent to the host it
    names, unchanged, exactly when that host is not empty, not the proxy itself and
    can be dialled; nothing else is sent anywhere.  If the server answers, its
    response is what the client gets; the client gets at most one response, and
    exactly one unless the request could not be written to the server. *)
Theorem proxy_forwards (port : string) (net : network) (read : option Request) :
  let acts := (proxy_respond port net read).1 in
  (∀ host req, Forward host req ∈ acts ↔ read = Some req ∧ host = Host req ∧ forwardable port net req) ∧
  (∀ host req resp, Forward host req ∈ acts → request_written net = true → ReadResponse net = Some resp →
     acts = [Forward host req; Reply resp]) ∧
  (length (replies acts) ≤ 1)%nat ∧ (replies acts = [] → request_written net = false).
Proof.
  change (forwards_as port net read (proxy_respond port net read).1). destruct read as [req|]; cbn [proxy_respond fst]; [|by apply refuses].
  unfold validGETRequest. case_bool_decide as Hm; cbn [negb fst]; [|apply refuses; intros ? [= <-] (? & _); done].
  unfold requestAndForward. case_decide as H0; [apply refuses; intros ? [= <-] (_ & ? & _); done|].
  case_decide as H1; [apply refuses; intros ? [= <-] (_ & _ & ? & ? & _); by destruct H1|].
  destruct (Dial net (Host req)) eqn:Hd; cbn [negb]; [|apply refuses; intros ? [= <-] (_ & _ & _ & _ & ?); congruence].
  apply accepts; [unfold forwardable; tauto|].
  destruct (request_written net); [|by left]. right. destruct (ReadResponse net) as [resp|]; eexists; (split; [done|]); by intros ? [= <-].
Qed.

(** *** The limit *)

Definition proxy_holds (pc : proxy_pc) : Prop := pc = PCheck ∨ pc = PUnlock1 ∨ pc = PDec ∨ pc = PUnlock2.
Definition proxy_busy (pc : proxy_pc) : Prop := pc ≠ PUnlock2 ∧ pc ≠ PEnd.
#[global] Instance proxy_busy_dec pc : Decision (proxy_busy pc).
Proof. unfold proxy_busy. apply _. Defined.

Definition proxy_inv (s : proxy) : Prop := ∃ leaked, 0 ≤ leaked ∧ loop_inv proxy_holds proxy_busy leaked s.

Lemma proxy_handler_step_inv b i s r : proxy_inv s → proxy_handler_step b i s = Some r → ∃ s', r = Ret s' ∧ proxy_inv s'.
Proof.
  intros (leaked & Hl & Hinv) Hs. unfold proxy_handler_step in Hs. destruct (handlers s !! i) as [pc|] eqn:Hi; [|done].
  assert (Hno : ¬ proxy_holds pc → mutex s ≠ Some (S i)).
  { intros Hnp Hmu. apply (inv_handler_lock _ _ _ _ Hinv i) in Hmu as (pc' & Hpc' & ?). congruence. }
  assert (Hyes : proxy_holds pc → mutex s = Some (S i)) by (intros Hp; by eapply (holds_mutex _ _ _ _ _ _ Hinv Hi Hp)).
  unfold proxy_holds in Hno, Hyes.
  destruct pc; try discriminate Hs.
  - destruct (mutex s) eqn:Hmu; [done|]. injection Hs as <-. eexists. split; [done|]. exists leaked. split; [done|].
    eapply handler_move; [done..| |by right; left|simpl; lia]. unfold proxy_holds. naive_solver.
  - destruct (Z.gtb_spec (numConnections s) MAX_CONNECTIONS) as [Hgt|_]; [pose proof (inv_max _ _ _ _ Hinv); lia|].
    injection Hs as <-. eexists. split; [done|]. exists leaked. split; [done|].
    eapply handler_move; [done..| |by left|simpl; lia]. unfold proxy_holds. naive_solver.
  - injection Hs as <-. eexists. split; [done|]. exists leaked. split; [done|].
    eapply handler_move; [done..| |right; right; split; [naive_solver|done]|simpl; lia]. unfold proxy_holds. naive_solver.
  - injection Hs as <-. eexists. split; [done|]. exists (leaked + if b then 0 else 1). split; [destruct b; lia|].
    eapply handler_move; [done..| |by left|destruct b; simpl; lia]. unfold proxy_holds. destruct b; naive_solver.
  - destruct (mutex s) eqn:Hmu; [done|]. injection Hs as <-. eexists. split; [done|]. exists leaked. split; [done|].
    eapply handler_move; [done..| |by right; left|simpl; lia]. unfold proxy_holds. naive_solver.
  - injection Hs as <-. eexists. split; [done|]. exists leaked. split; [done|].
    eapply handler_decrement; [done..| | | |]; unfold proxy_holds, proxy_busy; naive_solver.
  - injection Hs as <-. eexists. split; [done|]. exists leaked. split; [done|].
    eapply handler_move; [done..| |right; right; split; [naive_solver|done]|simpl; lia]. unfold proxy_holds. naive_solver.
Qed.

Lemma proxy_step_inv port s r : proxy_inv s → proxy_step port s r → ∃ s', r = Ret s' ∧ proxy_inv s'.
Proof.
  intros Hinv [r' Hs|i net read r' Hs]; [|by eapply proxy_handler_step_inv]. destruct Hinv as (leaked & Hl & Hinv).
  destruct (main_step_inv proxy_holds proxy_busy PLock1 leaked s r') as (s' & -> & Hi'); [unfold proxy_holds, proxy_busy; naive_solver..|done|done|].
  exists s'. split; [done|]. by exists leaked.
Qed.

Lemma proxy_reachable_inv port s : proxy_reachable port s → proxy_inv s.
Proof.
  induction 1 as [|s s' _ IH Hs]; [exists 0; split; [done|apply inv_init]|].
  destruct (proxy_step_inv _ _ _ IH Hs) as (s2 & [= <-] & ?). done.
Qed.

(** At most ten connections through the proxy.  In every reachable state, for
    any requests and any behaviour of the network, at most MAX_CONNECTIONS handlers
    are active and the counter is at least their number; neither of the fatal
    errors of the loop and of the handlers ends the process. *)
Theorem proxy_capacity (port : string) (s : proxy) : proxy_reachable port s →
  num_counted proxy_busy s ≤ numConnections s ≤ MAX_CONNECTIONS ∧ ¬ proxy_step port s Exit ∧ ¬ proxy_step port s Panic.
Proof.
  intros Hr%proxy_reachable_inv. split; [|split; by intros (? & [=] & _)%proxy_step_inv].
  destruct Hr as (leaked & Hl & [_ _ Hc Hmax _ _ _]). assert (0 ≤ pending s) by (unfold pending; case_decide; lia). lia.
Qed.

(** *** Refused requests use up the proxy *)

Definition demo_net : network := mkNetwork "10.0.0.1:1234" (λ _, true) true None.
Definition demo_put : Request := mkRequest "PUT" "/a.txt" "example.org" "HTTP/1.1" 1 1 (mkBody "" true).

(** The loop takes connection [i] and its handler refuses the request. *)
Definition refuse (i : nat) : list (option (nat * network * option Request)) :=
  (replicate 6 None ++ replicate 4 (Some (i, demo_net, Some demo_put)))%list.

(** All ten places are taken by handlers that have returned. *)
Definition blocked_proxy : proxy := mkHTTPserver 10 11 None MWaiting (replicate 10 PEnd).

(** Refused requests block the proxy.  After ten requests that are not GET
    requests the proxy reaches a state in which every handler has returned, the
    loop waits for a connection to end, and no thread can take a step, whatever
    arrives: the handler of a refused request returns without decrementing the
    counter. *)
Theorem proxy_leak_blocks (port : string) :
  proxy_reachable port blocked_proxy ∧ ∀ r, ¬ proxy_step port blocked_proxy r.
Proof.
  split.
  - eapply (proxy_run_reachable port (concat (refuse <$> seq 0 10) ++ replicate 3 None)%list getArgs); [constructor|]. vm_compute. reflexivity.
  - intros r [r' Hs|i net read r' Hs]; [done|]. unfold proxy_handler_step in Hs.
    destruct (handlers blocked_proxy !! i) as [pc|] eqn:Hi; [|done]. simpl in Hi.
    do 10 (destruct i as [|i]; [simpl in Hi; injection Hi as <-; discriminate Hs|]). done.
Qed.

Definition busy_proxy : proxy := mkHTTPserver 1 1 None MAccept [PLock1].

Lemma proxy_capacity_witness :
  num_counted proxy_busy busy_proxy ≤ 1 ≤ 10 ∧ ¬ proxy_step "1234" busy_proxy Exit ∧ ¬ proxy_step "1234" busy_proxy Panic.
Proof.
  apply (proxy_capacity "1234" busy_proxy). eapply (proxy_run_reachable "1234" (replicate 6 None) getArgs); [constructor|].
  vm_compute. reflexivity.
Defined.
