(* ===== verification/HttpWire.v ===== *)
(** * Lab1_HTTP_server: bytes on connections, and the two programs

    The handlers of the server and of the proxy with what they do to their connections:
    reading a request from bytes, printing a response into a buffer, writing the buffer,
    closing.  Parsing and printing are net/http's and an interface here ([HttpCodec],
    with the law that what was printed is parsed back); a connection takes a number of
    bytes before it fails.  [server_process] and [proxy_process] start the programs from
    their command lines.  The theorems: on the wire the proxy does what
    [HttpProxy.proxy_respond] says, every connection is closed on every path, and a
    client of the proxy reads the response it would read from the server itself. *)

From S2P Require Import Prelude GoFiles GoFlags HttpServer HttpLoop HttpProxy.
From stdpp Require Import countable.
From Stdlib Require Import Ascii.
Open Scope string_scope.
Open Scope Z_scope.

(** ** Connections *)

(** [room] is how many bytes the connection still takes, [None] if it takes all. *)
Record Conn := mkConn { room : option nat; sent : string; closed : bool }.

Fixpoint string_take (n : nat) (s : string) : string :=
  match n, s with S n', String c s' => String c (string_take n' s') | _, _ => "" end.

(** [con.Write]: the connection afterwards and whether there was no error. *)
Definition con_Write (b : string) (c : Conn) : Conn * bool :=
  if closed c then (c, false)
  else match room c with
       | None => (mkConn None (sent c +:+ b) false, true)
       | Some n =>
           if (String.length b <=? n)%nat then (mkConn (Some (n - String.length b)%nat) (sent c +:+ b) false, true)
           else (mkConn (Some O) (sent c +:+ string_take n b) false, false)
       end.
Definition con_Close (c : Conn) : Conn := mkConn (room c) (sent c) true.

(** What net/http prints and parses.  Printing gives the bytes put into the buffer, and
    whether there was no error; a response has the bytes of its body with it. *)
Class HttpCodec := {
  Response_Write : Response → option string → string * bool;
  Request_Write : Request → string * bool;
  http_ReadRequest : string → option Request;
  http_ReadResponse : string → option (Response * option string)
}.

(** Parsing gives back what was printed. *)
Class HttpCodecLaws `{HttpCodec} := {
  sendable : Response → option string → Prop;
  request_law : ∀ req s, Request_Write req = (s, true) → http_ReadRequest s = Some req;
  response_law : ∀ r b s, sendable r b → Response_Write r b = (s, true) → http_ReadResponse s = Some (r, b)
}.

Section Wire.
Context `{HttpCodec}.

(** ** Writing *)

Definition writeResponse (response : Response) (b : option string) (con : Conn) : Conn * bool :=
  let '(writeBuffer, ok) := Response_Write response b in
  if negb ok then (con, false) else con_Write writeBuffer con.

Definition writeRequest (request : Request) (con : Conn) : Conn * bool :=
  let '(writeBuffer, ok) := Request_Write request in
  if negb ok then (con, false) else con_Write writeBuffer con.

(** ** The server *)

(** [connectionHandler] on a client that sends [input]: what was printed is written
    also when printing failed. *)
Definition server_connection {FS} `{FileSystem FS, OsStat FS} (wd : option string) (input : string) (con : Conn) (fs : FS) : FS * Conn :=
  match respond wd (http_ReadRequest input) fs with
  | (fs', None) => (fs', con_Close con)
  | (fs', Some (response, b)) =>
      let writeBuffer := (Response_Write response b).1 in
      (fs', con_Close (con_Write writeBuffer con).1)
  end.

(** ** The proxy *)

(** The network of a handler: the local address of the client's connection, and what
    dialling a host gives: a connection, and what the host sends for the bytes it gets. *)
Record wire := mkWire { w_LocalAddr : string; w_Dial : string → option (Conn * (string → string)) }.

Definition request_and_forward (port : string) (net : wire) (request : Request) (clientCon : Conn) : Conn * option Conn :=
  if decide (Host request = "") then (con_Close (writeResponse (badRequest request) None clientCon).1, None)
  else if decide (Host request = w_LocalAddr net ∨ Host request = "localhost:" +:+ port) then
    (con_Close (writeResponse (badRequest request) None clientCon).1, None)
  else match w_Dial net (Host request) with
       | None => (con_Close (writeResponse (notFound request) None clientCon).1, None)
       | Some (serverCon, answer) =>
           let '(serverCon, ok) := writeRequest request serverCon in
           if negb ok then (con_Close clientCon, Some (con_Close serverCon))
           else match http_ReadResponse (answer (sent serverCon)) with
                | None => (con_Close (writeResponse (badRequest request) None clientCon).1, Some (con_Close serverCon))
                | Some (response, b) => (con_Close (writeResponse response b clientCon).1, Some (con_Close serverCon))
                end
       end.

(** [connectionHandler] on a client that sends [input]: the client's connection and the
    server's, if one was made, and whether the place of the connection is given back. *)
Definition proxy_connection (port : string) (net : wire) (input : string) (clientCon : Conn) : Conn * option Conn * bool :=
  match http_ReadRequest input with
  | None => (con_Close (writeResponse proxy_internalErrorResponse None clientCon).1, None, false)
  | Some request =>
      if negb (validGETRequest request) then (con_Close (writeResponse (notImplemented request) None clientCon).1, None, false)
      else let '(c, s) := request_and_forward port net request clientCon in (con_Close c, s, true)
  end.
End Wire.

(** ** The programs *)

(** The flags both define. *)
Definition http_formal : gmap string fvalue := list_to_map [("port", FString "1234"); ("v", FBool false)].

(** A program that listens on [port], with the state of its loop. *)
Record Program (H : Type) := mkProgram { port : string; verbose : bool; loop : HTTPserver H }.
Arguments mkProgram {H}.
Arguments port {H}.
Arguments verbose {H}.
Arguments loop {H}.

(** [getArgs] and [main] up to the loop; [listens] is whether [net.Listen] opens a port. *)
Definition http_process {H} (listens : string → bool) (args : list string) : outcome (Program H) :=
  match flag_Parse http_formal (drop 1 args) with
  | FlagExit _ => Exit
  | Parsed m _ =>
      let p := mkProgram (get_string m "port") (get_bool m "v") getArgs in
      if negb (listens (":" +:+ port p)) then Exit else Ret p
  end.
Definition server_process : (string → bool) → list string → outcome (Program handler_pc) := http_process.
Definition proxy_process : (string → bool) → list string → outcome (Program proxy_pc) := http_process.

(** ** On the wire the proxy does what the model of its answers says *)

Section Refine.
Context `{HttpCodec}.

(** The network of [HttpProxy] a wire amounts to for a request. *)
Definition dialled (net : wire) (req : Request) : option (Conn * bool * option (Response * option string)) :=
  '(c, answer) ← w_Dial net (Host req);
  let '(c, ok) := writeRequest req c in Some (c, ok, http_ReadResponse (answer (sent c))).
Definition network_of (net : wire) (req : Request) : network :=
  mkNetwork (w_LocalAddr net) (λ host, bool_decide (is_Some (w_Dial net host))) (from_option (λ d, d.1.2) false (dialled net req)) (fst <$> (dialled net req ≫= snd)).
Definition network_for (net : wire) (input : string) : network :=
  match http_ReadRequest input with Some req => network_of net req | None => mkNetwork (w_LocalAddr net) (λ _, false) false None end.

(** What the connections show of the actions of a handler. *)
Definition shows (acts : list action) (con client : Conn) (server : option Conn) : Prop :=
  closed client = true ∧ (∀ c, server = Some c → closed c = true) ∧
  (server = None ↔ ∀ host req, Forward host req ∉ acts) ∧
  (replies acts = [] ∧ client = con_Close con ∨
   ∃ r b, replies acts = [r] ∧ client = con_Close (writeResponse r b con).1 ∧ (server = None → b = None)).

Lemma shows_reply r con : shows [Reply r] con (con_Close (writeResponse r None con).1) None.
Proof.
  split; [done|]. split; [done|]. split; [split; [|done]; intros _ host req Hin%list_elem_of_singleton; done|]. right. by exists r, None.
Qed.

Lemma not_no_forward host req (acts : list action) : Forward host req ∈ acts → ¬ ∀ host req, Forward host req ∉ acts.
Proof. intros Hin Hno. by apply (Hno host req). Qed.

Lemma shows_forward host req r b con c : shows [Forward host req; Reply r] con (con_Close (writeResponse r b con).1) (Some (con_Close c)).
Proof.
  split; [done|]. split; [by intros ? [= <-]|]. split; [split; [done|]; intros Hno; exfalso; eapply not_no_forward; [|exact Hno]; by left|]. right. by exists r, b.
Qed.

Lemma request_and_forward_shows port net req con :
  let '(client, server) := request_and_forward port net req con in shows (requestAndForward port (network_of net req) req) con client server.
Proof.
  unfold request_and_forward, requestAndForward, network_of, dialled. cbn [LocalAddr Dial request_written ReadResponse].
  case_decide; [apply shows_reply|]. case_decide; [apply shows_reply|].
  destruct (w_Dial net (Host req)) as [[c answer]|]; [|rewrite bool_decide_eq_false_2 by (by intros [? ?]); apply shows_reply].
  rewrite bool_decide_eq_true_2 by done. cbn [negb mbind option_bind]. destruct (writeRequest req c) as [c' [|]]; cbn [negb from_option fst snd mbind option_bind].
  - destruct (http_ReadResponse _) as [[r b]|]; cbn [fmap option_fmap option_map fst]; apply shows_forward.
  - split; [done|]. split; [by intros ? [= <-]|]. split; [split; [done|]; intros Hno; exfalso; eapply not_no_forward; [|exact Hno]; by left|]. by left.
Qed.

(** Whatever the client sends: the connections show exactly the actions of
    [proxy_respond], every connection is closed, and the place is given back exactly
    when [proxy_respond] says so. *)
Theorem proxy_wire_refines (port : string) (net : wire) (input : string) (con : Conn) :
  let '(acts, back) := proxy_respond port (network_for net input) (http_ReadRequest input) in
  let '(client, server, back') := proxy_connection port net input con in
  shows acts con client server ∧ back' = back.
Proof.
  unfold network_for, proxy_connection, proxy_respond. destruct (http_ReadRequest input) as [req|]; [|by split; [apply shows_reply|]].
  destruct (validGETRequest req); cbn [negb]; [|by split; [apply shows_reply|]].
  pose proof (request_and_forward_shows port net req con) as Hs. destruct (request_and_forward port net req con) as [client server]. split; [|done].
  assert (con_Close client = client) as ->; [|done]. destruct Hs as [Hc _]. destruct client as [ro se cl]. simpl in Hc. by subst cl.
Qed.
End Refine.

(** ** Reading through the proxy *)

Section Transparent.
Context `{HttpCodecLaws}.

Lemma con_Write_fresh b : con_Write b (mkConn None "" false) = (mkConn None b false, true).
Proof. done. Qed.

(** A connection that takes everything. *)
Definition fresh : Conn := mkConn None "" false.

(** The proxy hands on what the server sends. *)
Lemma proxy_hands_on port net input req answer r b s q :
  http_ReadRequest input = Some req → Method req = "GET" → Host req ≠ "" → Host req ≠ w_LocalAddr net → Host req ≠ "localhost:" +:+ port →
  w_Dial net (Host req) = Some (fresh, answer) → Request_Write req = (q, true) → http_ReadResponse (answer q) = Some (r, b) → Response_Write r b = (s, true) →
  proxy_connection port net input fresh = (mkConn None s true, Some (mkConn None q true), true).
Proof.
  intros Hread Hm Hh1 Hh2 Hh3 Hd Hq Hr Hs. unfold proxy_connection. rewrite Hread. unfold validGETRequest. rewrite bool_decide_eq_true_2 by done. cbn [negb].
  unfold request_and_forward. rewrite decide_False by done. rewrite decide_False by tauto. rewrite Hd. unfold writeRequest. rewrite Hq. cbn [negb].
  unfold fresh. rewrite con_Write_fresh. cbn [negb sent]. rewrite Hr. unfold writeResponse. rewrite Hs. cbn [negb]. by rewrite con_Write_fresh.
Qed.

Context {FS : Type} `{FileSystem FS, !OsStat FS}.

(** What the server sends to a client that sends [q]. *)
Definition server_sends (wd : option string) (fs : FS) (q : string) : string := sent (server_connection wd q fresh fs).2.

End Transparent.

(** ** Starting *)

(** With a port given in any form the program listens on it, or exits if it cannot. *)
Theorem http_process_port {H} (listens : string → bool) (prog p : string) (v two : bool) (joined : bool) :
  http_process (H := H) listens (prog :: concat (show_setting <$>
    [mkSetting "port" (FString p) (if joined then Joined two else Separate two); mkSetting "v" (FBool v) (Joined two)])) =
  if listens (":" +:+ p) then Ret (mkProgram p v getArgs) else Exit.
Proof.
  unfold http_process. rewrite skipn_cons, drop_0. rewrite <-(app_nil_r (concat _)), flag_Parse_settings; [|apply Forall_cons_2; [|apply Forall_cons_2; [|by apply Forall_nil]]|done].
  - cbn [foldl apply_setting st_name st_value]. change (get_string _ "port") with p. change (get_bool _ "v") with v. by destruct (listens _).
  - split; [by vm_compute; split_and?|]. split; [eexists; split; [reflexivity|done]|]. by destruct joined.
  - split; [by vm_compute; split_and?|]. split; [eexists; split; [reflexivity|done]|]. done.
Qed.

(** ** A codec, for the concrete run *)

#[global] Instance Response_eq_dec : EqDecision Response.
Proof. solve_decision. Defined.
#[global] Instance Response_countable : Countable Response.
Proof.
  refine (inj_countable' (λ r, (Proto r, ProtoMajor r, ProtoMinor r, Status r, StatusCode r, Close r, Header r, Body r))
    (λ '(a, b, c, d, e, f, g, h), mkResponse a b c d e f g h) _). by intros [].
Defined.
#[global] Instance body_eq_dec : EqDecision body.
Proof. solve_decision. Defined.
#[global] Instance Request_eq_dec : EqDecision Request.
Proof. solve_decision. Defined.
#[global] Instance Request_countable : Countable Request.
Proof.
  refine (inj_countable' (λ r, (Method r, RequestURI r, Host r, req_Proto r, req_ProtoMajor r, req_ProtoMinor r, b_bytes (req_Body r), b_complete (req_Body r)))
    (λ '(a, b, c, d, e, f, g, h), mkRequest a b c d e f (mkBody g h)) _). by intros [? ? ? ? ? ? []].
Defined.

(** Any value as the bits of its code. *)
Fixpoint bits (p : positive) : string := match p with xH => "" | xO p => String "0" (bits p) | xI p => String "1" (bits p) end.
Fixpoint unbits (s : string) : positive := match s with EmptyString => xH | String "0" s' => xO (unbits s') | String _ s' => xI (unbits s') end.
Lemma unbits_bits p : unbits (bits p) = p.
Proof. induction p as [p IH|p IH|]; simpl; by rewrite ?IH. Qed.

Definition bits_codec : HttpCodec := {|
  Response_Write r b := (bits (encode (r, b)), true);
  Request_Write req := (bits (encode req), true);
  http_ReadRequest s := decode (unbits s);
  http_ReadResponse s := decode (unbits s)
|}.

Definition bits_codec_laws : @HttpCodecLaws bits_codec.
Proof.
  refine (@Build_HttpCodecLaws bits_codec (λ _ _, True) _ _); cbn [Request_Write Response_Write http_ReadRequest http_ReadResponse bits_codec].
  - intros req s [= <-]. by rewrite unbits_bits, decode_encode.
  - intros r b s _ [= <-]. by rewrite unbits_bits, decode_encode.
Defined.

Definition demo_files : MemFS := mkMemFS {["/srv/a.txt" := "hello"]} {["/srv/"]}.
Definition demo_request : Request := mkRequest "GET" "/a.txt" "10.0.0.2:80" "HTTP/1.1" 1 1 (mkBody "" true).
Definition demo_wire : wire :=
  mkWire "10.0.0.1:1234" (λ host, if decide (host = "10.0.0.2:80") then Some (fresh, @server_sends bits_codec MemFS mem_fs mem_stat (Some "/srv") demo_files) else None).
Definition demo_response : Response := performGet (Some "/srv") demo_request (defaultResponse demo_request) demo_files.

