(* ===== verification/LabRPC.v ===== *)
(** * Lab2_MapReduce, labrpc: the simulated network

    [labrpc/labrpc.go]: client ends, servers and the goroutines that carry a call
    from [ClientEnd.Call] to a handler and its reply back, or lose it.  Each call is
    a small state machine; the steps of all calls and the operations of the tests on
    the network interleave in any order.  Encoding is labgob's: arguments and
    replies are the encoded bytes.  The theorems: a handler runs at most once per
    call, a call that succeeds returns the reply of that run by a server that was
    connected then, and on a healthy network a call succeeds. *)

From S2P Require Import Prelude.
From Stdlib Require Import Ascii.
Open Scope string_scope.
Open Scope Z_scope.

(** Names of ends and servers ([interface{}]) and the state of the receivers. *)
Section LabRPC.
Context {Name : Type} `{Countable Name} {S : Type}.

(** ** Services and servers *)

(** A method of a receiver: the state and the encoded arguments to the state and
    the encoded reply. *)
Notation handler := (S → string → S * string).

(** What reflection tells about a method. *)
Record reflect_method := mkMethod {
  m_Name : string; m_PkgPath : string; m_NumIn : Z; m_In2_isPtr : bool; m_NumOut : Z; m_Func : handler
}.

Record Service := mkService { svc_name : string; rcvr : S; methods : gmap string handler }.

(** The test of the loop of [MakeService]. *)
Definition suitable (m : reflect_method) : bool :=
  negb (negb (bool_decide (m_PkgPath m = "")) || negb (m_NumIn m =? 3) || negb (m_In2_isPtr m) || negb (m_NumOut m =? 0)).

Definition MakeService (typeName : string) (receiver : S) (ms : list reflect_method) : Service :=
  mkService typeName receiver
    (foldl (λ acc m, if suitable m then <[m_Name m := m_Func m]> acc else acc) ∅ ms).

Record Server := mkServer { services : gmap string Service; srv_count : Z }.

Definition MakeServer : Server := mkServer ∅ 0.
Definition AddService (svc : Service) (rs : Server) : Server := mkServer (<[svc_name svc := svc]> (services rs)) (srv_count rs).
Definition Server_GetCount (rs : Server) : Z := srv_count rs.

Record reqMsg := mkReq { endname : Name; svcMeth : string; args : string }.
Record replyMsg := mkReply { rep_ok : bool; reply : string }.

(** [strings.LastIndex(s, dot)] and the slices around it; no dot makes the slice
    bounds invalid. *)
Fixpoint cut_last_dot (rev : list ascii) (suffix : list ascii) : outcome (string * string) :=
  match rev with
  | [] => Panic
  | c :: rev' => if decide (c = "."%char) then Ret (String.string_of_list_ascii (reverse rev'), String.string_of_list_ascii suffix)
                 else cut_last_dot rev' (c :: suffix)
  end.
Definition split_method (s : string) : outcome (string * string) := cut_last_dot (reverse (String.list_ascii_of_string s)) [].

Definition Service_dispatch (methname : string) (req : reqMsg) (svc : Service) : outcome (replyMsg * Service) :=
  match methods svc !! methname with
  | Some f => let '(r', rep) := f (rcvr svc) (args req) in Ret (mkReply true rep, mkService (svc_name svc) r' (methods svc))
  | None => Exit
  end.

Definition Server_dispatch (req : reqMsg) (rs : Server) : outcome (replyMsg * Server) :=
  let count' := srv_count rs + 1 in
  '(serviceName, methodName) ← split_method (svcMeth req);
  match services rs !! serviceName with
  | Some svc =>
      '(rep, svc') ← Service_dispatch methodName req svc;
      Ret (rep, mkServer (<[serviceName := svc']> (services rs)) count')
  | None => Exit
  end.

(** ** The network *)

(** Servers are addresses in a heap; a nil server is [None]. *)
Record Network := mkNetwork {
  reliable : bool; longDelays : bool; longReordering : bool;
  ends : gset Name; enabled : gmap Name bool; servers : gmap Name (option nat); connections : gmap Name (option Name);
  done : bool; count : Z; bytes : Z
}.

Definition MakeNetwork : Network := mkNetwork true false false ∅ ∅ ∅ ∅ false 0 0.

Definition Cleanup (rn : Network) : outcome Network :=
  if done rn then Panic
  else Ret (mkNetwork (reliable rn) (longDelays rn) (longReordering rn) (ends rn) (enabled rn) (servers rn) (connections rn) true (count rn) (bytes rn)).
Definition Reliable (yes : bool) (rn : Network) : Network :=
  mkNetwork yes (longDelays rn) (longReordering rn) (ends rn) (enabled rn) (servers rn) (connections rn) (done rn) (count rn) (bytes rn).
Definition LongReordering (yes : bool) (rn : Network) : Network :=
  mkNetwork (reliable rn) (longDelays rn) yes (ends rn) (enabled rn) (servers rn) (connections rn) (done rn) (count rn) (bytes rn).
Definition LongDelays (yes : bool) (rn : Network) : Network :=
  mkNetwork (reliable rn) yes (longReordering rn) (ends rn) (enabled rn) (servers rn) (connections rn) (done rn) (count rn) (bytes rn).
Definition MakeEnd (e : Name) (rn : Network) : outcome Network :=
  if bool_decide (e ∈ ends rn) then Exit
  else Ret (mkNetwork (reliable rn) (longDelays rn) (longReordering rn) ({[e]} ∪ ends rn) (<[e := false]> (enabled rn)) (servers rn)
              (<[e := None]> (connections rn)) (done rn) (count rn) (bytes rn)).
Definition set_servers (m : gmap Name (option nat)) (rn : Network) : Network :=
  mkNetwork (reliable rn) (longDelays rn) (longReordering rn) (ends rn) (enabled rn) m (connections rn) (done rn) (count rn) (bytes rn).
Definition AddServer (servername : Name) (rs : nat) (rn : Network) : Network := set_servers (<[servername := Some rs]> (servers rn)) rn.
Definition DeleteServer (servername : Name) (rn : Network) : Network := set_servers (<[servername := None]> (servers rn)) rn.
Definition Connect (e servername : Name) (rn : Network) : Network :=
  mkNetwork (reliable rn) (longDelays rn) (longReordering rn) (ends rn) (enabled rn) (servers rn) (<[e := Some servername]> (connections rn))
    (done rn) (count rn) (bytes rn).
Definition Enable (e : Name) (b : bool) (rn : Network) : Network :=
  mkNetwork (reliable rn) (longDelays rn) (longReordering rn) (ends rn) (<[e := b]> (enabled rn)) (servers rn) (connections rn) (done rn) (count rn) (bytes rn).

(** [atomic.AddInt32] and [atomic.AddInt64] wrap around. *)
Definition add_int (w : Z) (a b : Z) : Z := (a + b + 2 ^ (w - 1)) mod 2 ^ w - 2 ^ (w - 1).
Definition add_stats (requests len : Z) (rn : Network) : Network :=
  mkNetwork (reliable rn) (longDelays rn) (longReordering rn) (ends rn) (enabled rn) (servers rn) (connections rn) (done rn)
    (add_int 32 (count rn) requests) (add_int 64 (bytes rn) len).

Definition GetTotalCount (rn : Network) : Z := count rn.
Definition GetTotalBytes (rn : Network) : Z := bytes rn.

(** Reading a Go map gives the zero value for a missing key. *)
Definition lookup_server (servername : Name) (rn : Network) : option nat := default None (servers rn !! servername).

Definition GetCount (servername : Name) (rn : Network) (objs : gmap nat Server) : outcome Z :=
  match lookup_server servername rn with
  | None => Panic
  | Some l => match objs !! l with Some rs => Ret (Server_GetCount rs) | None => Panic end
  end.

Definition readEndnameInfo (e : Name) (rn : Network) : bool * option Name * option nat * bool * bool :=
  let en := default false (enabled rn !! e) in
  let servername := default None (connections rn !! e) in
  let server := match servername with Some s => lookup_server s rn | None => None end in
  (en, servername, server, reliable rn, longReordering rn).

Definition isServerDead (e servername : Name) (server : nat) (rn : Network) : bool :=
  negb (default false (enabled rn !! e)) || negb (bool_decide (lookup_server servername rn = Some server)).

(** ** Calls *)

(** Where the goroutine of [processReq] is: before [readEndnameInfo]; sleeping
    before a failure reply; before the handler is started, with what was read
    (server name, server, reliable, longreordering); in the loop that waits for the
    handler; after it, with the handler's reply if it came; sleeping with a delayed
    reply; after the reply was sent. *)
Inductive waiter :=
| WRead
| WTimeout
| WInfo (servername : Name) (server : nat) (rel reorder : bool)
| WLoop (servername : Name) (server : nat) (rel reorder : bool)
| WAfter (servername : Name) (server : nat) (rel reorder : bool) (got : option replyMsg)
| WDelayed (rep : replyMsg)
| WDone (rep : replyMsg).

(** The goroutine that runs the handler. *)
Inductive executor := XNone | XReady (server : nat) | XDone (server : nat) (rep : replyMsg).

Record callState := mkCall { c_req : reqMsg; c_waiter : waiter; c_exec : executor }.

(** [executed] records the runs of handlers: call, server and reply. *)
Record World := mkWorld { net : Network; objs : gmap nat Server; rpcs : gmap nat callState; executed : list (nat * nat * replyMsg) }.

Definition set_call (i : nat) (c : callState) (w : World) : World := mkWorld (net w) (objs w) (<[i := c]> (rpcs w)) (executed w).
Definition set_net (n : Network) (w : World) : World := mkWorld n (objs w) (rpcs w) (executed w).

Definition failure : replyMsg := mkReply false "".

Inductive event :=
| ESend (i : nat) (req : reqMsg)
| ERead (i : nat)
| ETimer (i : nat)
| EStart (i : nat) (drop : bool)
| EExecute (i : nat)
| ETake (i : nat)
| EPoll (i : nat)
| EFinish (i : nat) (drop delay : bool).

(** [ClientEnd.Call] up to waiting for the reply, and the receive of the network's
    goroutine. *)
Definition send (i : nat) (req : reqMsg) (w : World) : option (outcome World) :=
  if done (net w) then None
  else match rpcs w !! i with
       | Some _ => None
       | None => Some (Ret (set_call i (mkCall req WRead XNone) (set_net (add_stats 1 (Z.of_nat (String.length (args req))) (net w)) w)))
       end.

(** [processReq], from one blocking operation to the next.  [drop] and [delay] are
    the outcomes of the random tests; they only count where the code makes the
    test. *)
Definition read_info (c : callState) (w : World) : waiter :=
  let '(en, servername, server, rel, reorder) := readEndnameInfo (endname (c_req c)) (net w) in
  match servername, server with
  | Some sn, Some s => if (en : bool) then WInfo sn s rel reorder else WTimeout
  | _, _ => WTimeout
  end.

Definition finish (c : callState) (sn : Name) (s : nat) (rel reorder : bool) (got : option replyMsg) (drop delay : bool) (w : World) :
    waiter * Network :=
  let serverDead := isServerDead (endname (c_req c)) sn s (net w) in
  match got with
  | None => (WDone failure, net w)
  | Some rep =>
      if serverDead then (WDone failure, net w)
      else if negb rel && drop then (WDone failure, net w)
      else if reorder && delay then (WDelayed rep, net w)
      else (WDone rep, add_stats 0 (Z.of_nat (String.length (reply rep))) (net w))
  end.

Definition rpc_step (e : event) (w : World) : option (outcome World) :=
  match e with
  | ESend i req => send i req w
  | ERead i =>
      match rpcs w !! i with
      | Some c => match c_waiter c with
                  | WRead => Some (Ret (set_call i (mkCall (c_req c) (read_info c w) (c_exec c)) w))
                  | _ => None
                  end
      | None => None
      end
  | ETimer i =>
      match rpcs w !! i with
      | Some c => match c_waiter c with
                  | WTimeout => Some (Ret (set_call i (mkCall (c_req c) (WDone failure) (c_exec c)) w))
                  | WDelayed rep => Some (Ret (set_call i (mkCall (c_req c) (WDone rep) (c_exec c))
                                                 (set_net (add_stats 0 (Z.of_nat (String.length (reply rep))) (net w)) w)))
                  | _ => None
                  end
      | None => None
      end
  | EStart i drop =>
      match rpcs w !! i with
      | Some c => match c_waiter c with
                  | WInfo sn s rel reorder =>
                      if negb rel && drop then Some (Ret (set_call i (mkCall (c_req c) (WDone failure) (c_exec c)) w))
                      else Some (Ret (set_call i (mkCall (c_req c) (WLoop sn s rel reorder) (XReady s)) w))
                  | _ => None
                  end
      | None => None
      end
  | EExecute i =>
      match rpcs w !! i with
      | Some c => match c_exec c with
                  | XReady s =>
                      match objs w !! s with
                      | Some rs =>
                          Some ('(rep, rs') ← Server_dispatch (c_req c) rs;
                                Ret (mkWorld (net w) (<[s := rs']> (objs w)) (<[i := mkCall (c_req c) (c_waiter c) (XDone s rep)]> (rpcs w))
                                       (executed w ++ [(i, s, rep)])))
                      | None => None
                      end
                  | _ => None
                  end
      | None => None
      end
  | ETake i =>
      match rpcs w !! i with
      | Some c => match c_waiter c, c_exec c with
                  | WLoop sn s rel reorder, XDone _ rep =>
                      Some (Ret (set_call i (mkCall (c_req c) (WAfter sn s rel reorder (Some rep)) (c_exec c)) w))
                  | _, _ => None
                  end
      | None => None
      end
  | EPoll i =>
      match rpcs w !! i with
      | Some c => match c_waiter c with
                  | WLoop sn s rel reorder =>
                      if isServerDead (endname (c_req c)) sn s (net w)
                      then Some (Ret (set_call i (mkCall (c_req c) (WAfter sn s rel reorder None) (c_exec c)) w))
                      else Some (Ret w)
                  | _ => None
                  end
      | None => None
      end
  | EFinish i drop delay =>
      match rpcs w !! i with
      | Some c => match c_waiter c with
                  | WAfter sn s rel reorder got =>
                      let '(wt, n) := finish c sn s rel reorder got drop delay w in
                      Some (Ret (set_call i (mkCall (c_req c) wt (c_exec c)) (set_net n w)))
                  | _ => None
                  end
      | None => None
      end
  end.

(** The operations of the tests on the network. *)
Inductive admin :=
| AReliable (b : bool) | ALongReordering (b : bool) | ALongDelays (b : bool)
| AMakeEnd (e : Name) | AAddServer (sn : Name) (s : nat) (rs : Server) | ADeleteServer (sn : Name)
| AConnect (e sn : Name) | AEnable (e : Name) (b : bool) | ACleanup.

Definition admin_step (a : admin) (w : World) : outcome World :=
  match a with
  | AReliable b => Ret (set_net (Reliable b (net w)) w)
  | ALongReordering b => Ret (set_net (LongReordering b (net w)) w)
  | ALongDelays b => Ret (set_net (LongDelays b (net w)) w)
  | AMakeEnd e => n ← MakeEnd e (net w); Ret (set_net n w)
  | AAddServer sn s rs =>
      (* a new server object, or one that exists already *)
      Ret (mkWorld (AddServer sn s (net w)) (match objs w !! s with Some _ => objs w | None => <[s := rs]> (objs w) end) (rpcs w) (executed w))
  | ADeleteServer sn => Ret (set_net (DeleteServer sn (net w)) w)
  | AConnect e sn => Ret (set_net (Connect e sn (net w)) w)
  | AEnable e b => Ret (set_net (Enable e b (net w)) w)
  | ACleanup => n ← Cleanup (net w); Ret (set_net n w)
  end.

Definition world0 : World := mkWorld MakeNetwork ∅ ∅ [].

Inductive world_step (w : World) : World → Prop :=
| step_rpc e w' : rpc_step e w = Some (Ret w') → world_step w w'
| step_admin a w' : admin_step a w = Ret w' → world_step w w'.

Inductive world_reachable : World → Prop :=
| world_init : world_reachable world0
| world_next w w' : world_reachable w → world_step w w' → world_reachable w'.

(** ** At most one run per call *)

Definition runs_of (w : World) : list nat := (λ x, x.1.1) <$> executed w.

(** What the position of the waiting goroutine says about the handler's. *)
Definition waiter_ok (wt : waiter) (x : executor) : Prop :=
  match wt with
  | WRead | WTimeout | WInfo _ _ _ _ => x = XNone
  | WLoop _ s _ _ => x = XReady s ∨ ∃ rep, x = XDone s rep
  | WAfter _ s _ _ None => x = XReady s ∨ ∃ rep, x = XDone s rep
  | WAfter _ s _ _ (Some rep) => x = XDone s rep
  | WDelayed rep => ∃ s, x = XDone s rep
  | WDone rep => rep_ok rep = true → ∃ s, x = XDone s rep
  end.

Definition exec_ok (w : World) (i : nat) (x : executor) : Prop :=
  match x with XDone s rep => (i, s, rep) ∈ executed w | _ => i ∉ runs_of w end.

Record world_inv (w : World) : Prop := {
  wi_nodup : NoDup (runs_of w);
  wi_known : ∀ i, i ∈ runs_of w → is_Some (rpcs w !! i);
  wi_call : ∀ i c, rpcs w !! i = Some c → waiter_ok (c_waiter c) (c_exec c) ∧ exec_ok w i (c_exec c)
}.

(** A step that changes only the waiting goroutine of call [i], and the network. *)
Lemma inv_waiter w i c n wt x : world_inv w → rpcs w !! i = Some c → waiter_ok wt x → exec_ok w i x →
  world_inv (set_call i (mkCall (c_req c) wt x) (set_net n w)).
Proof.
  intros [Hn Hk Hc] Hi Hw Hx. split; simpl; [done| |].
  - intros j Hj. destruct (decide (i = j)) as [<-|]; [rewrite lookup_insert_eq; by eexists|rewrite lookup_insert_ne by done; by apply Hk].
  - intros j c' Hj. destruct (decide (i = j)) as [<-|Hne]; [rewrite lookup_insert_eq in Hj; injection Hj as <-; done|].
    rewrite lookup_insert_ne in Hj by done. by apply Hc.
Qed.

Lemma set_net_same w : set_net (net w) w = w.
Proof. by destruct w. Qed.

Lemma read_info_cases c w : read_info c w = WTimeout ∨ ∃ sn s rel reorder, read_info c w = WInfo sn s rel reorder.
Proof.
  unfold read_info. destruct (readEndnameInfo _ _) as [[[[en sn] s] rel] reorder]. destruct sn, s; auto. destruct en; eauto 10.
Qed.

Lemma finish_cases c sn s rel reorder got drop delay w wt n : finish c sn s rel reorder got drop delay w = (wt, n) →
  wt = WDone failure ∨ ∃ rep, got = Some rep ∧ isServerDead (endname (c_req c)) sn s (net w) = false ∧ (wt = WDelayed rep ∨ wt = WDone rep).
Proof.
  unfold finish. destruct got as [rep|]; [|intros [= <- <-]; by left]. destruct (isServerDead _ _ _ _) eqn:Hd; [intros [= <- <-]; by left|].
  destruct (negb rel && drop); [intros [= <- <-]; by left|]. destruct (reorder && delay); intros [= <- <-]; right; exists rep; auto.
Qed.

Lemma dispatch_ok req rs rep rs' : Server_dispatch req rs = Ret (rep, rs') → rep_ok rep = true.
Proof.
  unfold Server_dispatch. intros Hd. apply bind_Ret_inv in Hd as ([sn mn] & _ & Hd). destruct (services rs !! sn); [|done].
  apply bind_Ret_inv in Hd as ([r svc'] & Hs & Hd). injection Hd as -> _. unfold Service_dispatch in Hs. destruct (methods _ !! mn) as [f|]; [|done].
  destruct (f _ _). by injection Hs as <- _.
Qed.

Lemma execute_inv w i c s rs rep rs' : world_inv w → rpcs w !! i = Some c → c_exec c = XReady s → Server_dispatch (c_req c) rs = Ret (rep, rs') →
  world_inv (mkWorld (net w) (<[s := rs']> (objs w)) (<[i := mkCall (c_req c) (c_waiter c) (XDone s rep)]> (rpcs w)) (executed w ++ [(i, s, rep)])).
Proof.
  intros [Hn Hk Hc] Hi Hx Hd. destruct (Hc i c Hi) as [Hw He]. rewrite Hx in Hw, He. simpl in He.
  assert (Hruns : ∀ P Q R, runs_of (mkWorld P Q R (executed w ++ [(i, s, rep)])) = (runs_of w ++ [i])%list) by (intros; unfold runs_of; simpl; by rewrite fmap_app).
  split; rewrite ?Hruns.
  - apply NoDup_app. split; [done|]. split; [intros j Hj Hj'%list_elem_of_singleton; by subst j|apply NoDup_singleton].
  - intros j [Hj|Hj%list_elem_of_singleton]%elem_of_app; simpl; [|subst j; rewrite lookup_insert_eq; by eexists].
    destruct (decide (i = j)) as [<-|]; [rewrite lookup_insert_eq; by eexists|rewrite lookup_insert_ne by done; by apply Hk].
  - simpl. intros j c' Hj. destruct (decide (i = j)) as [<-|Hne].
    + rewrite lookup_insert_eq in Hj. injection Hj as <-. simpl. split; [|set_solver].
      destruct (c_waiter c) as [ | | | | sn0 s0 rel0 ro0 [rep0|] | rep0 | rep0 ]; simpl in *; try discriminate Hw.
      * destruct Hw as [[= <-]|[rep1 [=]]]. right. by eexists.
      * destruct Hw as [[= <-]|[rep1 [=]]]. right. by eexists.
      * destruct Hw as [s1 [=]].
      * intros Hr. destruct (Hw Hr) as [s1 [=]].
    + rewrite lookup_insert_ne in Hj by done. destruct (Hc j c' Hj) as [Hw' He']. split; [done|]. unfold exec_ok in *. rewrite Hruns.
      destruct (c_exec c'); simpl; [set_solver..|]. set_solver.
Qed.

Lemma rpc_step_inv e w w' : world_inv w → rpc_step e w = Some (Ret w') → world_inv w'.
Proof.
  intros Hi Hs. destruct e as [i req|i|i|i drop|i|i|i|i drop delay]; unfold rpc_step in Hs.
  1: { unfold send in Hs. destruct (done (net w)); [done|]. destruct (rpcs w !! i) eqn:Hr; [done|]. injection Hs as <-. destruct Hi as [Hn Hk Hc].
    assert (Hni : i ∉ runs_of w) by (intros Hin; destruct (Hk i Hin); congruence). split; simpl; [done| |].
    - intros j Hj. destruct (decide (i = j)) as [<-|]; [done|]. rewrite lookup_insert_ne by done. by apply Hk.
    - intros j c Hj. apply lookup_insert_Some in Hj as [[<- <-]|[_ Hj]]; [done|by apply Hc]. }
  all: destruct (rpcs w !! i) as [c|] eqn:Hc; [|done]; destruct (wi_call _ Hi i c Hc) as [Hw Hx].
  4: { destruct (c_exec c) as [|s|s rep] eqn:He; try done. destruct (objs w !! s); [|done]. injection Hs as Hs.
    apply bind_Ret_inv in Hs as ([rep rs'] & Hd & Hs). injection Hs as <-. by eapply execute_inv. }
  all: destruct (c_waiter c) as [ | |sn s rel ro|sn s rel ro|sn s rel ro got|rep|rep] eqn:Hwt; try discriminate Hs; simpl in Hw.
  - injection Hs as <-. rewrite <-(set_net_same w) at 2. apply inv_waiter; [exact Hi|exact Hc| |exact Hx].
    destruct (read_info_cases c w) as [->|(sn & s & rel & ro & ->)]; done.
  - injection Hs as <-. rewrite <-(set_net_same w) at 1. by apply inv_waiter.
  - injection Hs as <-. apply inv_waiter; [exact Hi|exact Hc| |exact Hx]. intros _. exact Hw.
  - destruct (negb rel && drop); injection Hs as <-; rewrite <-(set_net_same w) at 1; apply inv_waiter; try done; [|rewrite Hw in Hx; done]. simpl. by left.
  - destruct (c_exec c) as [|s'|s' rep] eqn:He; try done. injection Hs as <-. rewrite <-(set_net_same w) at 1. apply inv_waiter; [done..| |done]. simpl.
    destruct Hw as [[=]|[rep' [= <- <-]]]. done.
  - destruct (isServerDead _ _ _ _); injection Hs as <-; [|done]. rewrite <-(set_net_same w) at 1. by apply inv_waiter.
  - destruct (finish c sn s rel ro got drop delay w) as [wt n] eqn:Hf. injection Hs as <-. apply inv_waiter; [done..| |done].
    apply finish_cases in Hf as [->|(rep & -> & _ & [-> | ->])]; [done|simpl; eauto|simpl; eauto].
Qed.

Lemma admin_step_inv a w w' : world_inv w → admin_step a w = Ret w' → world_inv w'.
Proof.
  intros [Hn Hk Hc] Hs. destruct a; simpl in Hs; try (injection Hs as <-; by split).
  - apply bind_Ret_inv in Hs as (n & _ & Hs). injection Hs as <-. by split.
  - apply bind_Ret_inv in Hs as (n & _ & Hs). injection Hs as <-. by split.
Qed.

Lemma reachable_world_inv w : world_reachable w → world_inv w.
Proof.
  induction 1 as [|w w' _ IH Hs]; [split; simpl; [constructor|by intros ? ?%elem_of_nil|done]|].
  destruct Hs as [e w' Hs|a w' Hs]; [by eapply rpc_step_inv|by eapply admin_step_inv].
Qed.

(** ** Deleted servers *)

(** Call [i] waits for server [s] under the name [sn], which is no longer
    registered, or has failed. *)
Definition abandoned (sn : Name) (s i : nat) (w : World) : Prop :=
  ∃ c, rpcs w !! i = Some c ∧ lookup_server sn (net w) ≠ Some s ∧
    match c_waiter c with
    | WLoop sn' s' _ _ | WAfter sn' s' _ _ _ => sn' = sn ∧ s' = s
    | WDone rep => rep_ok rep = false
    | _ => False
    end.

(** Steps that do not register [s] under [sn] again. *)
Inductive step_without (sn : Name) (s : nat) (w : World) : World → Prop :=
| sw_rpc e w' : rpc_step e w = Some (Ret w') → step_without sn s w w'
| sw_admin a w' : admin_step a w = Ret w' → (∀ rs, a ≠ AAddServer sn s rs) → step_without sn s w w'.

Lemma add_stats_server a b sn rn : lookup_server sn (add_stats a b rn) = lookup_server sn rn.
Proof. done. Qed.

Definition event_call (e : event) : nat :=
  match e with ESend i _ | ERead i | ETimer i | EStart i _ | EExecute i | ETake i | EPoll i | EFinish i _ _ => i end.

(** The step of a call leaves the others and the registered servers alone. *)
Lemma rpc_step_frame e w w' j : rpc_step e w = Some (Ret w') →
  (∀ i, event_call e = i → i ≠ j → rpcs w' !! j = rpcs w !! j) ∧ ∀ sn, lookup_server sn (net w') = lookup_server sn (net w).
Proof.
  intros Hs. destruct e as [i req|i|i|i drop|i|i|i|i drop delay]; unfold rpc_step in Hs.
  1: { unfold send in Hs. destruct (done (net w)); [done|]. destruct (rpcs w !! i); [done|]. injection Hs as <-. simpl.
    split; [intros i' -> Hne; by rewrite lookup_insert_ne|done]. }
  all: destruct (rpcs w !! i) as [c|]; [|done].
  4: { destruct (c_exec c); try done. destruct (objs w !! server); [|done]. injection Hs as Hs. apply bind_Ret_inv in Hs as ([rep rs'] & _ & Hs).
    injection Hs as <-. simpl. split; [intros i' -> Hne; by rewrite lookup_insert_ne|done]. }
  all: destruct (c_waiter c) eqn:Hwt; try discriminate Hs.
  5: destruct (c_exec c); try discriminate Hs.
  all: try (injection Hs as <-; simpl; split; [intros i' -> Hne; by rewrite lookup_insert_ne|done]).
  - destruct (negb rel && drop); injection Hs as <-; simpl; (split; [intros i' -> Hne; by rewrite lookup_insert_ne|done]).
  - destruct (isServerDead _ _ _ _); injection Hs as <-; simpl; (split; [intros i' -> Hne; by rewrite ?lookup_insert_ne|done]).
  - destruct (finish c _ _ _ _ _ drop delay w) as [wt n] eqn:Hf. injection Hs as <-. simpl. split; [intros i' -> Hne; by rewrite lookup_insert_ne|].
    intros sn. unfold finish in Hf. destruct got; [|by injection Hf as <- <-]. destruct (isServerDead _ _ _ _); [by injection Hf as <- <-|].
    destruct (negb rel && drop); [by injection Hf as <- <-|]. destruct (reorder && delay); by injection Hf as <- <-.
Qed.

Lemma abandoned_dead sn s e w : lookup_server sn (net w) ≠ Some s → isServerDead e sn s (net w) = true.
Proof. intros Hne. unfold isServerDead. rewrite bool_decide_false by done. apply orb_true_r. Qed.

Lemma abandoned_rpc sn s i e w w' : abandoned sn s i w → rpc_step e w = Some (Ret w') → abandoned sn s i w'.
Proof.
  intros (c & Hc & Hsn & Hw) Hs. destruct (rpc_step_frame e w w' i Hs) as [Hfr Hls].
  destruct (decide (event_call e = i)) as [He|He]; [|exists c; rewrite (Hfr (event_call e) eq_refl He), Hls; done].
  assert (Hnew : ∀ wt x, rpcs w' !! i = Some (mkCall (c_req c) wt x) →
    match wt with WLoop sn' s' _ _ | WAfter sn' s' _ _ _ => sn' = sn ∧ s' = s | WDone rep => rep_ok rep = false | _ => False end → abandoned sn s i w').
  { intros wt x Hr Hwt. exists (mkCall (c_req c) wt x). rewrite Hls. done. }
  destruct e as [i' req|i'|i'|i' drop|i'|i'|i'|i' drop delay]; simpl in He; subst i'; unfold rpc_step, send in Hs; rewrite Hc in Hs.
  - by destruct (done (net w)).
  - by destruct (c_waiter c).
  - destruct (c_waiter c); done.
  - by destruct (c_waiter c).
  - destruct (c_exec c); try done. destruct (objs w !! server); [|done]. injection Hs as Hs. apply bind_Ret_inv in Hs as ([rep rs'] & _ & Hs).
    injection Hs as <-. eapply Hnew; [simpl; by rewrite lookup_insert_eq|done].
  - destruct (c_waiter c); try done. destruct (c_exec c); try done. injection Hs as <-. eapply Hnew; [simpl; by rewrite lookup_insert_eq|done].
  - destruct (c_waiter c) as [ | | |sn' s' rel ro| | | ] eqn:E; try done. destruct (isServerDead _ _ _ _); injection Hs as <-.
    + eapply Hnew; [simpl; by rewrite lookup_insert_eq|done].
    + exists c. by rewrite E.
  - destruct (c_waiter c) as [ | | | |sn' s' rel ro got| | ]; try done. destruct Hw as [-> ->].
    destruct (finish c sn s rel ro got drop delay w) as [wt n] eqn:Hf. injection Hs as <-. eapply Hnew; [simpl; by rewrite lookup_insert_eq|].
    apply finish_cases in Hf as [->|(rep & _ & Hd & _)]; [done|]. by rewrite (abandoned_dead sn s) in Hd.
Qed.

Lemma abandoned_admin sn s i a w w' : abandoned sn s i w → admin_step a w = Ret w' → (∀ rs, a ≠ AAddServer sn s rs) → abandoned sn s i w'.
Proof.
  intros (c & Hc & Hsn & Hw) Hs Ha.
  assert (Hw' : rpcs w' = rpcs w ∧ lookup_server sn (net w') ≠ Some s); [|destruct Hw' as [Hr Hl]; exists c; by rewrite Hr].
  destruct a; simpl in Hs; try (injection Hs as <-; done).
  - apply bind_Ret_inv in Hs as (n & Hn & Hs). injection Hs as <-. unfold MakeEnd in Hn. case_bool_decide; [done|]. injection Hn as <-. done.
  - injection Hs as <-. split; [done|]. simpl. unfold lookup_server in *. simpl. destruct (decide (sn0 = sn)) as [->|Hne]; [|by rewrite lookup_insert_ne].
    rewrite lookup_insert_eq. simpl. intros [= ->]. by apply (Ha rs).
  - injection Hs as <-. split; [done|]. simpl. unfold lookup_server in *. simpl. destruct (decide (sn0 = sn)) as [->|Hne]; [by rewrite lookup_insert_eq|by rewrite lookup_insert_ne].
  - apply bind_Ret_inv in Hs as (n & Hn & Hs). injection Hs as <-. unfold Cleanup in Hn. destruct (done (net w)); [done|]. injection Hn as <-. done.
Qed.

(** ** A call on a healthy network *)

Fixpoint run_events (es : list event) (w : World) : option World :=
  match es with
  | [] => Some w
  | e :: es' => match rpc_step e w with Some (Ret w') => run_events es' w' | _ => None end
  end.

Definition no_dot (s : string) : Prop := Forall (λ c, c ≠ "."%char) (String.list_ascii_of_string s).

Lemma cut_last_dot_spec a b suffix : Forall (λ c, c ≠ "."%char) b →
  cut_last_dot (b ++ "."%char :: a) suffix = Ret (String.string_of_list_ascii (reverse a), String.string_of_list_ascii (reverse b ++ suffix)).
Proof.
  intros Hb. revert suffix. induction Hb as [|c b Hc _ IH]; intros suffix; cbn [cut_last_dot app].
  - by rewrite decide_True, reverse_nil.
  - rewrite decide_False, IH, reverse_cons, <-app_assoc by done. done.
Qed.

Lemma list_ascii_app a b : String.list_ascii_of_string (a +:+ b) = (String.list_ascii_of_string a ++ String.list_ascii_of_string b)%list.
Proof. induction a as [|c a IH]; [done|]. simpl. by rewrite <-IH. Qed.

Lemma split_method_spec a b : no_dot b → split_method (a +:+ "." +:+ b) = Ret (a, b).
Proof.
  intros Hb. unfold split_method. rewrite !list_ascii_app, !reverse_app. simpl. rewrite <-app_assoc. simpl.
  rewrite cut_last_dot_spec by by apply Forall_reverse. rewrite !reverse_involutive, app_nil_r. by rewrite !String.string_of_list_ascii_of_string.
Qed.
End LabRPC.

(** C23 (at most one run per call).  In every state the network can reach, whatever
    is lost, delayed or reordered and whatever the tests do to ends and servers, the
    handler of a call has run at most once, and a call that has returned true has
    the reply of exactly such a run. *)
Theorem rpc_at_most_once {Name : Type} `{Countable Name} {S : Type} (w : World (Name := Name) (S := S)) : world_reachable w →
  NoDup (runs_of w) ∧
  ∀ i c rep, rpcs w !! i = Some c → c_waiter c = WDone rep → rep_ok rep = true → ∃ s, (i, s, rep) ∈ executed w.
Proof.
  intros [Hn _ Hc]%reachable_world_inv. split; [done|]. intros i c rep Hi Hw Hr. destruct (Hc i c Hi) as [Hwt Hx]. rewrite Hw in Hwt.
  destruct (Hwt Hr) as [s Hs]. rewrite Hs in Hx. by exists s.
Qed.

(** No answer from a deleted server.  If a call is waiting for a server, in the
    loop or after it, and the server's name is deleted, then the call never returns
    true as long as that server is not registered again: neither steps of calls nor
    other operations on the network change that. *)
Theorem deleted_server_never_answers {Name : Type} `{Countable Name} {S : Type} (w w' : World (Name := Name) (S := S))
    (i s : nat) (sn : Name) (c : callState) :
  rpcs w !! i = Some c →
  (∃ rel ro, c_waiter c = WLoop sn s rel ro ∨ ∃ got, c_waiter c = WAfter sn s rel ro got) →
  rtc (step_without sn s) (set_net (DeleteServer sn (net w)) w) w' →
  ∃ c', rpcs w' !! i = Some c' ∧ ∀ rep, c_waiter c' = WDone rep → rep_ok rep = false.
Proof.
  intros Hi Hw Hrtc. assert (Ha : abandoned sn s i (set_net (DeleteServer sn (net w)) w)).
  { exists c. split; [done|]. split; [unfold lookup_server; simpl; by rewrite lookup_insert_eq|].
    destruct Hw as (rel & ro & [-> |(got & ->)]); done. }
  assert (Ha' : abandoned sn s i w').
  { induction Hrtc as [|w1 w2 w3 Hs _ IH]; [done|]. apply IH. destruct Hs as [e w2 Hs|a w2 Hs Hne]; [by eapply abandoned_rpc|by eapply abandoned_admin]. }
  destruct Ha' as (c' & Hc' & _ & Hm). exists c'. split; [done|]. intros rep Hrep. by rewrite Hrep in Hm.
Qed.

(** A call on a healthy network.  On a network that is not shut down, reliable
    and without long reordering, let the end be enabled and connected to a
    registered server that has the service and the method of the request.  Then the
    goroutines of a new call, run one after the other and whatever the random tests
    give, return true with the reply of the method on the arguments; the method has
    run once, on the receiver, and the server has counted one more request. *)
Theorem rpc_round_trip {Name : Type} `{Countable Name} {S : Type} (w : World (Name := Name) (S := S)) (i s : nat) (e sn : Name)
    (serviceName methodName a : string) (rs : Server) (svc : Service) (f : S → string → S * string) (r' : S) (rep : string) (b1 b2 b3 : bool) :
  done (net w) = false → reliable (net w) = true → longReordering (net w) = false →
  enabled (net w) !! e = Some true → connections (net w) !! e = Some (Some sn) → servers (net w) !! sn = Some (Some s) → objs w !! s = Some rs →
  no_dot methodName → services rs !! serviceName = Some svc → methods svc !! methodName = Some f → f (rcvr svc) a = (r', rep) →
  rpcs w !! i = None →
  ∃ w' c', run_events [ESend i (mkReq e (serviceName +:+ "." +:+ methodName) a); ERead i; EStart i b1; EExecute i; ETake i; EFinish i b2 b3] w = Some w' ∧
    rpcs w' !! i = Some c' ∧ c_waiter c' = WDone (mkReply true rep) ∧ executed w' = (executed w ++ [(i, s, mkReply true rep)])%list ∧
    objs w' = <[s := mkServer (<[serviceName := mkService (svc_name svc) r' (methods svc)]> (services rs)) (srv_count rs + 1)]> (objs w).
Proof.
  intros Hd Hr Hl He Hc Hs Ho Hdot Hsvc Hm Hf Hi. cbn [run_events rpc_step]. unfold send. rewrite Hd, Hi. cbn [rpcs set_call]. rewrite lookup_insert_eq.
  unfold read_info, readEndnameInfo, lookup_server. simpl. rewrite He, Hc. simpl. rewrite Hs, Hr, Hl. simpl. rewrite lookup_insert_eq. simpl.
  rewrite lookup_insert_eq. simpl. rewrite Ho. unfold Server_dispatch. cbn [svcMeth]. rewrite (split_method_spec _ _ Hdot). cbn [mbind outcome_bind].
  rewrite Hsvc. unfold Service_dispatch. rewrite Hm. cbn [args]. rewrite Hf. cbn [mbind outcome_bind]. simpl. rewrite lookup_insert_eq. simpl.
  rewrite lookup_insert_eq. simpl. unfold isServerDead, lookup_server. simpl. rewrite He, Hs. simpl. rewrite bool_decide_true by done. simpl.
  eexists _, _. split; [done|]. simpl. rewrite lookup_insert_eq. done.
Qed.

(** ** A counter behind the network *)

(** A receiver that appends its argument to a log and returns the log. *)
Definition log_method : reflect_method (S := string) := mkMethod "Append" "" 3 true 0 (λ st a, (st +:+ a, st +:+ a)).
Definition log_service : Service := MakeService "Log" "" [log_method; mkMethod "helper" "pkg" 1 false 1 (λ st a, (st, a))].
Definition log_server : Server := AddService log_service MakeServer.

Definition demo_admin : list (admin (Name := string) (S := string)) :=
  [AMakeEnd "end"; AAddServer "server" 7 log_server; AConnect "end" "server"; AEnable "end" true].
Definition run_admin (l : list admin) (w : World (Name := string) (S := string)) : outcome World :=
  foldl (λ acc a, w ← acc; admin_step a w) (Ret w) l.
Definition demo_net : Network (Name := string) :=
  mkNetwork true false false {["end"]} {["end" := true]} {["server" := Some 7%nat]} {["end" := Some "server"]} false 0 0.
Definition demo_world : World (Name := string) (S := string) := mkWorld demo_net {[7%nat := log_server]} ∅ [].

Lemma run_admin_reachable l w w' : world_reachable w → run_admin l w = Ret w' → world_reachable w'.
Proof.
  unfold run_admin. revert w. induction l as [|a l IH]; intros w Hr Hl; simpl in Hl; [by injection Hl as <-|].
  destruct (admin_step a w) as [w1| |] eqn:Ha; [|exfalso; clear -Hl; induction l; simpl in Hl; done..].
  apply (IH w1); [|done]. eapply world_next; [done|]. by eapply step_admin.
Qed.

Lemma run_events_reachable es w w' : world_reachable (Name := string) (S := string) w → run_events es w = Some w' → world_reachable w'.
Proof.
  revert w. induction es as [|e es IH]; intros w Hr; simpl; [by intros [= <-]|]. destruct (rpc_step e w) as [[w1| |]|] eqn:He; try done.
  apply IH. eapply world_next; [done|]. by eapply step_rpc.
Qed.

Lemma run_events_without sn s es (w w' : World (Name := string) (S := string)) : run_events es w = Some w' → rtc (step_without sn s) w w'.
Proof.
  revert w. induction es as [|e es IH]; intros w; simpl; [by intros [= <-]|]. destruct (rpc_step e w) as [[w1| |]|] eqn:He; try done.
  intros Hw. eapply rtc_l; [by eapply sw_rpc|by apply IH].
Qed.

Lemma demo_world_reachable : world_reachable demo_world.
Proof. eapply (run_admin_reachable demo_admin world0); [constructor|]. vm_compute. reflexivity. Qed.

Definition demo_req : reqMsg (Name := string) := mkReq "end" "Log.Append" "x".

(** The first call is answered; the second waits in the loop. *)
Definition demo_events : list (event (Name := string)) :=
  [ESend 0 demo_req; ERead 0; EStart 0 true; EExecute 0; ETake 0; EFinish 0 true true; ESend 1 demo_req; ERead 1; EStart 1 false].

Definition demo_call (i : nat) : callState (Name := string) :=
  match i with
  | O => mkCall demo_req (WDone (mkReply true "x")) (XDone 7 (mkReply true "x"))
  | _ => mkCall demo_req (WLoop "server" 7%nat true false) (XReady 7)
  end.

Lemma rpc_at_most_once_witness :
  ∃ w, run_events demo_events demo_world = Some w ∧ NoDup (runs_of w) ∧
    ∀ i c rep, rpcs w !! i = Some c → c_waiter c = WDone rep → rep_ok rep = true → ∃ s, (i, s, rep) ∈ executed w.
Proof.
  destruct (run_events demo_events demo_world) as [w|] eqn:Hw; [|vm_compute in Hw; discriminate Hw].
  exists w. split; [reflexivity|]. apply (rpc_at_most_once w). eapply run_events_reachable; [apply demo_world_reachable|exact Hw].
Defined.

Lemma deleted_server_never_answers_witness :
  ∃ w w' c', run_events demo_events demo_world = Some w ∧
    run_events [EExecute 1; ETake 1; EFinish 1 false false] (set_net (DeleteServer "server" (net w)) w) = Some w' ∧
    rpcs w' !! 1%nat = Some c' ∧ ∀ rep, c_waiter c' = WDone rep → rep_ok rep = false.
Proof.
  destruct (run_events demo_events demo_world) as [w|] eqn:Hw; [|vm_compute in Hw; discriminate Hw].
  destruct (run_events [EExecute 1; ETake 1; EFinish 1 false false] (set_net (DeleteServer "server" (net w)) w)) as [w'|] eqn:Hw';
    [|exfalso; vm_compute in Hw; injection Hw as <-; vm_compute in Hw'; discriminate Hw'].
  destruct (deleted_server_never_answers w w' 1 7 "server" (demo_call 1)) as (c' & Hc' & Hrep).
  - vm_compute in Hw. injection Hw as <-. vm_compute. reflexivity.
  - exists true, false. by left.
  - by eapply run_events_without.
  - exists w, w', c'. split; [done|]. split; [exact Hw'|]. done.
Defined.

Lemma rpc_round_trip_witness :
  ∃ w' c', run_events [ESend 0 demo_req; ERead 0; EStart 0 true; EExecute 0; ETake 0; EFinish 0 true true] demo_world = Some w' ∧
    rpcs w' !! 0%nat = Some c' ∧ c_waiter c' = WDone (mkReply true "x") ∧ executed w' = [(0, 7, mkReply true "x")]%nat ∧
    objs w' = <[7%nat := mkServer (<["Log" := mkService "Log" "x" (methods log_service)]> (services log_server)) 1]> {[7%nat := log_server]}.
Proof.
  apply (rpc_round_trip demo_world 0 7 "end" "server" "Log" "Append" "x" log_server log_service (λ st a, (st +:+ a, st +:+ a)) "x" "x" true true true);
    try (vm_compute; reflexivity).
  unfold no_dot. simpl. repeat (constructor; [done|]). constructor.
Defined.
