(* ===== verification/RaftConfig.v ===== *)
(** * Lab2_MapReduce, raft: the test configuration and the network

    [raft/config.go]: the harness that starts, crashes, restarts, connects and
    partitions peers over the network of [LabRPC].  The state is the [config] struct
    together with the Raft and server objects it points to; every method that
    changes it is a function.  This file shows which messages the network lets
    through; [RaftConfigLog] has the checks on what peers apply.

    A call of [t.Fatal] or [log.Fatalf] ends the test: [Exit].  Names drawn by
    [randstring] are an argument: [draw j] is the name drawn in round [j] of a loop. *)

From S2P Require Import Prelude Raft LabRPC.
Open Scope Z_scope.

(** The network is used with end names (strings) and server names (ints). *)
Notation netname := (string + Z)%type.

Section RaftConfig.
Context {Cmd : Type} `{EqDecision Cmd}.

(** An [interface{}] holding a command; [None] is nil. *)
Notation iface := (option Cmd).

(** The methods that reflection finds on a [*Raft]; the receiver is the address of
    the object. *)
Variable raft_methods : list (reflect_method (S := nat)).

(** Decoding a snapshot with labgob: the last index and the log. *)
Variable gob_decode : list Z → option (Z * list iface).

(** ** State *)

(** The objects behind the pointers: peers, and the labrpc servers made for them. *)
Record memory := mkMemory { raft_at : gmap nat Raft; server_at : gmap nat (Server (S := nat)); next_addr : nat }.

Record config := mkConfig {
  failed : bool;                        (* t.Failed() *)
  finished : bool;
  net : Network (Name := netname);
  n : nat;
  rafts : list (option nat);            (* addresses *)
  applyErr : list string;
  connected : list bool;
  saved : list (option Persister);
  endnames : list (option (list string));
  logs : list (gmap Z iface);
  lastApplied : list Z;
  start : Z;
  t0 : Z; rpcs0 : Z; cmds0 : Z; bytes0 : Z;
  maxIndex : Z; maxIndex0 : Z;
  mem : memory
}.

Definition set_net (x : Network) (c : config) : config :=
  mkConfig (failed c) (finished c) x (n c) (rafts c) (applyErr c) (connected c) (saved c) (endnames c) (logs c) (lastApplied c) (start c) (t0 c) (rpcs0 c) (cmds0 c) (bytes0 c) (maxIndex c) (maxIndex0 c) (mem c).
Definition set_rafts (x : list (option nat)) (c : config) : config :=
  mkConfig (failed c) (finished c) (net c) (n c) x (applyErr c) (connected c) (saved c) (endnames c) (logs c) (lastApplied c) (start c) (t0 c) (rpcs0 c) (cmds0 c) (bytes0 c) (maxIndex c) (maxIndex0 c) (mem c).
Definition set_connected (x : list bool) (c : config) : config :=
  mkConfig (failed c) (finished c) (net c) (n c) (rafts c) (applyErr c) x (saved c) (endnames c) (logs c) (lastApplied c) (start c) (t0 c) (rpcs0 c) (cmds0 c) (bytes0 c) (maxIndex c) (maxIndex0 c) (mem c).
Definition set_saved (x : list (option Persister)) (c : config) : config :=
  mkConfig (failed c) (finished c) (net c) (n c) (rafts c) (applyErr c) (connected c) x (endnames c) (logs c) (lastApplied c) (start c) (t0 c) (rpcs0 c) (cmds0 c) (bytes0 c) (maxIndex c) (maxIndex0 c) (mem c).
Definition set_endnames (x : list (option (list string))) (c : config) : config :=
  mkConfig (failed c) (finished c) (net c) (n c) (rafts c) (applyErr c) (connected c) (saved c) x (logs c) (lastApplied c) (start c) (t0 c) (rpcs0 c) (cmds0 c) (bytes0 c) (maxIndex c) (maxIndex0 c) (mem c).
Definition set_logs (x : list (gmap Z iface)) (mi : Z) (c : config) : config :=
  mkConfig (failed c) (finished c) (net c) (n c) (rafts c) (applyErr c) (connected c) (saved c) (endnames c) x (lastApplied c) (start c) (t0 c) (rpcs0 c) (cmds0 c) (bytes0 c) mi (maxIndex0 c) (mem c).
Definition set_lastApplied (x : list Z) (c : config) : config :=
  mkConfig (failed c) (finished c) (net c) (n c) (rafts c) (applyErr c) (connected c) (saved c) (endnames c) (logs c) x (start c) (t0 c) (rpcs0 c) (cmds0 c) (bytes0 c) (maxIndex c) (maxIndex0 c) (mem c).
Definition set_finished (x : bool) (c : config) : config :=
  mkConfig (failed c) x (net c) (n c) (rafts c) (applyErr c) (connected c) (saved c) (endnames c) (logs c) (lastApplied c) (start c) (t0 c) (rpcs0 c) (cmds0 c) (bytes0 c) (maxIndex c) (maxIndex0 c) (mem c).
Definition set_mem (x : memory) (c : config) : config :=
  mkConfig (failed c) (finished c) (net c) (n c) (rafts c) (applyErr c) (connected c) (saved c) (endnames c) (logs c) (lastApplied c) (start c) (t0 c) (rpcs0 c) (cmds0 c) (bytes0 c) (maxIndex c) (maxIndex0 c) x.

(** ** Connecting *)

(** [cfg.endnames[i][j]]; a nil row is an empty slice. *)
Definition endname_of (i j : Z) (c : config) : outcome string :=
  row ← slice_get (endnames c) i; slice_get (default [] row) j.

Definition enable_end (i j : Z) (b : bool) (c : config) : outcome config :=
  e ← endname_of i j c; Ret (set_net (Enable (inl e) b (net c)) c).

Definition connect (i : Z) (c : config) : outcome config :=
  cs ← slice_set (connected c) i true;
  let c := set_connected cs c in
  c ← for_range (n c) 0 (λ j c, b ← slice_get (connected c) j; if b : bool then enable_end i j true c else Ret c) c;
  for_range (n c) 0 (λ j c, b ← slice_get (connected c) j; if b : bool then enable_end j i true c else Ret c) c.

Definition disconnect (i : Z) (c : config) : outcome config :=
  cs ← slice_set (connected c) i false;
  let c := set_connected cs c in
  c ← for_range (n c) 0 (λ j c, row ← slice_get (endnames c) i; if row : option _ then enable_end i j false c else Ret c) c;
  for_range (n c) 0 (λ j c, row ← slice_get (endnames c) j; if row : option _ then enable_end j i false c else Ret c) c.

(** ** Crashing and starting a peer *)

(** [rf.Kill()] on a pointer of [cfg.rafts]. *)
Definition kill_at (a : nat) (m : memory) : memory := mkMemory (alter Kill a (raft_at m)) (server_at m) (next_addr m).

Definition crash1 (i : Z) (c : config) : outcome config :=
  c ← disconnect i c;
  let c := set_net (DeleteServer (inr i) (net c)) c in
  s ← slice_get (saved c) i;
  sv ← slice_set (saved c) i (Copy <$> s);
  let c := set_saved sv c in
  rf ← slice_get (rafts c) i;
  c ← match rf with
      | Some a => rs ← slice_set (rafts c) i None; Ret (set_rafts rs (set_mem (kill_at a (mem c)) c))
      | None => Ret c
      end;
  s ← slice_get (saved c) i;
  sv ← slice_set (saved c) i ((λ ps, Save (ReadRaftState ps) (ReadSnapshot ps) MakePersister) <$> s);
  Ret (set_saved sv c).

(** The assignments [cfg.logs[i][j] = xlog[j]]. *)
Definition xlog_map (xlog : list iface) : gmap Z iface :=
  foldl (λ m j, match xlog !! j with Some v => <[Z.of_nat j := v]> m | None => m end) ∅ (seq 0 (length xlog)).

(** Whether the returned string is not empty, and the new state. *)
Definition ingestSnap (i : Z) (snapshot : option (list Z)) (index : Z) (c : config) : outcome (bool * config) :=
  match snapshot with
  | None => Exit
  | Some bs =>
      match gob_decode bs with
      | None => Exit
      | Some (lastIncludedIndex, xlog) =>
          if negb (index =? -1) && negb (index =? lastIncludedIndex) then Ret (true, c)
          else
            lg ← slice_set (logs c) i (xlog_map xlog);
            la ← slice_set (lastApplied c) i lastIncludedIndex;
            Ret (false, set_lastApplied la (set_logs lg (maxIndex c) c))
      end
  end.

(** A new peer with the labrpc server for it. *)
Definition new_raft (rf : Raft) (m : memory) : nat * memory :=
  let a := next_addr m in
  (a, mkMemory (<[a := rf]> (raft_at m)) (<[a := AddService (MakeService "Raft" a raft_methods) MakeServer]> (server_at m)) (S a)).

Definition start1 (draw : Z → string) (i : Z) (c : config) : outcome config :=
  c ← crash1 i c;
  en ← slice_set (endnames c) i (Some (draw <$> seqZ 0 (Z.of_nat (n c))));
  let c := set_endnames en c in
  c ← for_range (n c) 0 (λ j c,
        e ← endname_of i j c;
        nt ← MakeEnd (inl e) (net c);
        Ret (set_net (Connect (inl e) (inr j) nt) c)) c;
  la ← slice_set (lastApplied c) i 0;
  let c := set_lastApplied la c in
  s ← slice_get (saved c) i;
  c ← match s with
      | Some ps =>
          sv ← slice_set (saved c) i (Some (Copy ps));
          let c := set_saved sv c in
          if 0 <? SnapshotSize (Copy ps) then
            '(err, c) ← ingestSnap i (Some (ReadSnapshot (Copy ps))) (-1) c;
            if (err : bool) then Exit else Ret c
          else Ret c
      | None => sv ← slice_set (saved c) i (Some MakePersister); Ret (set_saved sv c)
      end;
  s ← slice_get (saved c) i;
  match s with
  | None => Panic
  | Some ps =>
      let '(a, m) := new_raft (Make (n c) i ps) (mem c) in
      rs ← slice_set (rafts c) i (Some a);
      let c := set_rafts rs (set_mem m c) in
      Ret (set_net (AddServer (inr i) a (net c)) c)
  end.

Definition setunreliable (unrel : bool) (c : config) : config := set_net (Reliable (negb unrel) (net c)) c.
Definition setlongreordering (longrel : bool) (c : config) : config := set_net (LongReordering longrel (net c)) c.

(** Everything before the first peer is started, at time [now]. *)
Definition blank_config (k : nat) (now : Z) : config :=
  mkConfig false false MakeNetwork k (replicate k None) (replicate k EmptyString) (replicate k false) (replicate k None) (replicate k None)
    (replicate k ∅) (replicate k 0) now 0 0 0 0 0 0 (mkMemory ∅ ∅ 0).

Definition make_config (k : nat) (unreliable : bool) (now : Z) (draw : Z → Z → string) : outcome config :=
  let c := blank_config k now in
  let c := setunreliable unreliable c in
  let c := set_net (LongDelays true (net c)) c in
  c ← for_range (n c) 0 (λ i c,
        lg ← slice_set (logs c) i ∅;
        start1 (draw i) i (set_logs lg (maxIndex c) c)) c;
  for_range (n c) 0 connect c.

(** ** Statistics and the end of a test *)

Definition rpcCount (server : Z) (c : config) : outcome Z := GetCount (inr server) (net c) (server_at (mem c)).
Definition rpcTotal (c : config) : Z := GetTotalCount (net c).
Definition bytesTotal (c : config) : Z := GetTotalBytes (net c).

Definition checkTimeout (now : Z) (c : config) : outcome unit :=
  if negb (failed c) && (120 * 10 ^ 9 <? now - start c) then Exit else Ret tt.
Definition checkFinished (c : config) : bool := finished c.

Definition cleanup (now : Z) (c : config) : outcome config :=
  let c := set_finished true c in
  c ← for_range (length (rafts c)) 0 (λ i c,
        rf ← slice_get (rafts c) i;
        match rf with Some a => Ret (set_mem (kill_at a (mem c)) c) | None => Ret c end) c;
  nt ← Cleanup (net c);
  let c := set_net nt c in
  _ ← checkTimeout now c; Ret c.

Definition begin (now : Z) (c : config) : config :=
  mkConfig (failed c) (finished c) (net c) (n c) (rafts c) (applyErr c) (connected c) (saved c) (endnames c) (logs c) (lastApplied c) (start c)
    now (rpcTotal c) 0 (bytesTotal c) (maxIndex c) (maxIndex c) (mem c).

(** What [end] prints: seconds (here in the unit of the clock), peers, calls, bytes
    and agreements; nothing when the test has failed. *)
Definition end_ (now : Z) (c : config) : outcome (option (Z * nat * Z * Z * Z)) :=
  _ ← checkTimeout now c;
  if failed c then Ret None
  else Ret (Some (now - t0 c, n c, rpcTotal c - rpcs0 c, bytesTotal c - bytes0 c, maxIndex c - maxIndex0 c)).

Definition LogSize (c : config) : outcome Z :=
  for_range (n c) 0 (λ i logsize,
    s ← slice_get (saved c) i;
    match s with None => Panic | Some ps => let k := RaftStateSize ps in Ret (if k >? logsize then k else logsize) end) 0.

(** ** Which ends are open *)

(** The name of the end from [i] to [j], if [i] was started. *)
Definition name (c : config) (i j : nat) : option string := row ← mjoin (endnames c !! i); row !! j.
Definition conn (c : config) (i : nat) : bool := default false (connected c !! i).

(** Enabling or disabling the ends of a list. *)
Definition enable_all (es : list string) (b : bool) (nt : Network (Name := netname)) : Network (Name := netname) := foldl (λ nt e, Enable (inl e) b nt) nt es.

Lemma enable_all_enabled es b nt e :
  enabled (enable_all es b nt) !! (inl e : netname) = if bool_decide (e ∈ es) then Some b else enabled nt !! inl e.
Proof.
  revert nt. induction es as [|x es IH]; intros nt; [by rewrite bool_decide_false by set_solver|].
  change (enable_all (x :: es) b nt) with (enable_all es b (Enable (inl x) b nt)). rewrite IH.
  destruct (decide (e ∈ es)); [by rewrite !bool_decide_true by set_solver|]. rewrite (bool_decide_false (e ∈ es)) by done. cbn [enabled Enable].
  destruct (decide (e = x)) as [->|Hne]; [by rewrite lookup_insert_eq, bool_decide_true by set_solver|].
  rewrite lookup_insert_ne by congruence. by rewrite bool_decide_false by set_solver.
Qed.

Lemma enable_all_enabled_server es b nt i : enabled (enable_all es b nt) !! (inr i : netname) = enabled nt !! inr i.
Proof. revert nt. induction es as [|x es IH]; intros nt; simpl; [done|]. rewrite IH. simpl. by rewrite lookup_insert_ne. Qed.

Lemma enable_all_frame es b nt :
  ends (enable_all es b nt) = ends nt ∧ connections (enable_all es b nt) = connections nt ∧ servers (enable_all es b nt) = servers nt.
Proof. revert nt. induction es as [|x es IH]; intros nt; simpl; [done|]. destruct (IH (Enable (inl x) b nt)) as (-> & -> & ->). done. Qed.

(** A loop that opens or closes the ends [f j] for the rounds [j] with [f j] defined. *)
Lemma enable_loop (body : Z → config → outcome config) (f : nat → option string) (b : bool) k c :
  (∀ j nt, (j < k)%nat → body (Z.of_nat j) (set_net nt c) =
     Ret (match f j with Some e => set_net (Enable (inl e) b nt) c | None => set_net nt c end)) →
  for_range k 0 body c = Ret (set_net (enable_all (omap f (seq 0 k)) b (net c)) c).
Proof.
  intros Hb. destruct (for_range_inv (λ j c', c' = set_net (enable_all (omap f (seq 0 j)) b (net c)) c) body k 0 c) as (c' & Hc' & ->); [by destruct c| |exact Hc'].
  intros j c' Hj ->. eexists. split; [apply Hb; lia|]. rewrite seq_S, omap_app. unfold enable_all. rewrite foldl_app. simpl. by destruct (f j).
Qed.

Lemma elem_of_omap_seq {A} (f : nat → option A) k x : x ∈ omap f (seq 0 k) ↔ ∃ j, (j < k)%nat ∧ f j = Some x.
Proof.
  rewrite list_elem_of_omap. split.
  - intros (j & Hj%elem_of_seq & ?). exists j. split; [lia|done].
  - intros (j & ? & ?). exists j. split; [apply elem_of_seq; lia|done].
Qed.

(** The shape of the configuration, and what the network knows about it. *)
Record config_wf (c : config) : Prop := {
  wf_connected : length (connected c) = n c;
  wf_rafts : length (rafts c) = n c;
  wf_saved : length (saved c) = n c;
  wf_endnames : length (endnames c) = n c;
  wf_logs : length (logs c) = n c;
  wf_lastApplied : length (lastApplied c) = n c;
  wf_rows : ∀ i row, endnames c !! i = Some (Some row) → length row = n c;
  wf_started : ∀ i, conn c i = true → is_Some (mjoin (endnames c !! i));
  wf_inj : ∀ i j i' j' e, name c i j = Some e → name c i' j' = Some e → i = i' ∧ j = j';
  wf_ends : ∀ i j e, name c i j = Some e →
    inl e ∈ ends (net c) ∧ connections (net c) !! inl e = Some (Some (inr (Z.of_nat j))) ∧
    enabled (net c) !! inl e = Some (conn c i && conn c j);
  wf_stale : ∀ x, enabled (net c) !! x = Some true → ∃ i j e, x = inl e ∧ name c i j = Some e;
  wf_servers : ∀ i o, rafts c !! i = Some o → lookup_server (inr (Z.of_nat i)) (net c) = o;
  wf_objects : ∀ i a, rafts c !! i = Some (Some a) →
    (a < next_addr (mem c))%nat ∧ is_Some (raft_at (mem c) !! a) ∧ is_Some (server_at (mem c) !! a)
}.

Lemma name_lt c i j e : config_wf c → name c i j = Some e → (i < n c)%nat ∧ (j < n c)%nat.
Proof.
  intros Hwf. unfold name. destruct (endnames c !! i) as [[row|]|] eqn:E; try done. simpl. intros Hj. split.
  - rewrite <-(wf_endnames c Hwf). by eapply lookup_lt_Some.
  - rewrite <-(wf_rows c Hwf i row E). by eapply lookup_lt_Some.
Qed.

Lemma endname_of_name c i j e : name c i j = Some e → endname_of (Z.of_nat i) (Z.of_nat j) c = Ret e.
Proof.
  unfold name, endname_of. rewrite slice_get_nat. destruct (endnames c !! i) as [[row|]|]; try done. simpl. intros Hj. by rewrite slice_get_nat, Hj.
Qed.

Lemma name_started c i j : config_wf c → is_Some (mjoin (endnames c !! i)) → (j < n c)%nat → ∃ e, name c i j = Some e.
Proof.
  intros Hwf [row Hrow] Hj. unfold name. rewrite Hrow. simpl. apply lookup_lt_is_Some_2. rewrite (wf_rows c Hwf i); [done|].
  destruct (endnames c !! i) as [[?|]|]; naive_solver.
Qed.

Lemma conn_lt c i : config_wf c → conn c i = true → (i < n c)%nat.
Proof.
  intros Hwf. unfold conn. destruct (connected c !! i) eqn:E; [|done]. intros _. rewrite <-(wf_connected c Hwf). by eapply lookup_lt_Some.
Qed.

(** *** connect and disconnect *)

Definition outgoing (c : config) (g : nat → bool) (i : nat) : list string := omap (λ j, if g j then name c i j else None) (seq 0 (n c)).
Definition incoming (c : config) (g : nat → bool) (i : nat) : list string := omap (λ j, if g j then name c j i else None) (seq 0 (n c)).

(** The result of opening or closing the ends from and to [i]. *)
Definition switch (c : config) (i : nat) (b : bool) (g : nat → bool) : config :=
  set_net (enable_all (incoming c g i) b (enable_all (outgoing c g i) b (net c))) (set_connected (<[i := b]> (connected c)) c).

Lemma connect_eq c i : config_wf c → (i < n c)%nat → is_Some (mjoin (endnames c !! i)) →
  connect (Z.of_nat i) c = Ret (switch c i true (conn (set_connected (<[i := true]> (connected c)) c))).
Proof.
  intros Hwf Hi Hst. unfold connect. rewrite slice_set_ok, Nat2Z.id by (unfold go_len; rewrite (wf_connected c Hwf); lia). cbn [mbind outcome_bind].
  set (c1 := set_connected _ c). set (g := conn c1).
  assert (Hg : ∀ j, (j < n c)%nat → slice_get (connected c1) (Z.of_nat j) = Ret (g j)).
  { intros j Hj. rewrite slice_get_nat. unfold g, conn. destruct (connected c1 !! j) eqn:E; [done|]. apply lookup_ge_None in E.
    simpl in E. rewrite length_insert, (wf_connected c Hwf) in E. lia. }
  assert (Hst' : ∀ j, g j = true → is_Some (mjoin (endnames c !! j))).
  { intros j Hj. unfold g, conn in Hj. simpl in Hj. destruct (decide (j = i)) as [->|Hne]; [done|].
    rewrite list_lookup_insert_ne in Hj by done. by apply (wf_started c Hwf). }
  rewrite (enable_loop _ (λ j, if g j then name c i j else None) true).
  - cbn [mbind outcome_bind]. rewrite (enable_loop _ (λ j, if g j then name c j i else None) true); [done|].
    intros j nt Hj. cbn. rewrite Hg by done. cbn. destruct (g j) eqn:Hgj; [|done]. destruct (name_started c j i Hwf (Hst' j Hgj) Hi) as [e He].
    rewrite He. unfold enable_end. change (endname_of _ _ _) with (endname_of (Z.of_nat j) (Z.of_nat i) c). by rewrite (endname_of_name _ _ _ _ He).
  - intros j nt Hj. cbn. rewrite Hg by done. cbn. destruct (g j) eqn:Hgj; [|done]. destruct (name_started c i j Hwf Hst Hj) as [e He].
    rewrite He. unfold enable_end. change (endname_of _ _ _) with (endname_of (Z.of_nat i) (Z.of_nat j) c). by rewrite (endname_of_name _ _ _ _ He).
Qed.

Lemma disconnect_eq c i : config_wf c → (i < n c)%nat → disconnect (Z.of_nat i) c = Ret (switch c i false (λ _, true)).
Proof.
  intros Hwf Hi. unfold disconnect. rewrite slice_set_ok, Nat2Z.id by (unfold go_len; rewrite (wf_connected c Hwf); lia). cbn [mbind outcome_bind].
  assert (Hrow : ∀ a b nt, (a < n c)%nat → (b < n c)%nat →
    (row ← slice_get (endnames c) (Z.of_nat a);
     if row : option _ then enable_end (Z.of_nat a) (Z.of_nat b) false (set_net nt (set_connected (<[i := false]> (connected c)) c))
     else Ret (set_net nt (set_connected (<[i := false]> (connected c)) c))) =
    Ret (match name c a b with Some e => set_net (Enable (inl e) false nt) (set_connected (<[i := false]> (connected c)) c)
         | None => set_net nt (set_connected (<[i := false]> (connected c)) c) end)).
  { intros a b nt Ha Hb. rewrite slice_get_nat. destruct (endnames c !! a) as [[row|]|] eqn:E.
    - cbn. destruct (name_started c a b Hwf) as [e He]; [by rewrite E|done|]. rewrite He. unfold enable_end.
      change (endname_of _ _ _) with (endname_of (Z.of_nat a) (Z.of_nat b) c). by rewrite (endname_of_name _ _ _ _ He).
    - cbn. unfold name. by rewrite E.
    - apply lookup_ge_None in E. rewrite (wf_endnames c Hwf) in E. lia. }
  rewrite (enable_loop _ (name c i) false) by (intros; by apply Hrow). cbn [mbind outcome_bind].
  rewrite (enable_loop _ (λ j, name c j i) false) by (intros; by apply Hrow). done.
Qed.

Lemma elem_of_outgoing c g i j e : config_wf c → (∀ i' j', name c i' j' = Some e → i' = i ∧ j' = j) → name c i j = Some e →
  ∀ k, e ∈ outgoing c g k ↔ k = i ∧ g j = true.
Proof.
  intros Hwf Hu He k. unfold outgoing. rewrite elem_of_omap_seq. split.
  - intros (j' & _ & Hj). destruct (g j') eqn:Hg; [|done]. destruct (Hu _ _ Hj) as [<- <-]. done.
  - intros [-> Hg]. exists j. rewrite Hg. split; [|done]. by destruct (name_lt c i j e Hwf He).
Qed.

Lemma elem_of_incoming c g i j e : config_wf c → (∀ i' j', name c i' j' = Some e → i' = i ∧ j' = j) → name c i j = Some e →
  ∀ k, e ∈ incoming c g k ↔ k = j ∧ g i = true.
Proof.
  intros Hwf Hu He k. unfold incoming. rewrite elem_of_omap_seq. split.
  - intros (j' & _ & Hj). destruct (g j') eqn:Hg; [|done]. destruct (Hu _ _ Hj) as [<- <-]. done.
  - intros [-> Hg]. exists i. rewrite Hg. split; [|done]. by destruct (name_lt c i j e Hwf He).
Qed.

Lemma switch_conn c i b g j : config_wf c → (i < n c)%nat → conn (switch c i b g) j = if decide (j = i) then b else conn c j.
Proof.
  intros Hwf Hi. unfold switch, conn. simpl. destruct (decide (j = i)) as [->|Hne]; [|by rewrite list_lookup_insert_ne].
  by rewrite list_lookup_insert_eq by (rewrite (wf_connected c Hwf); lia).
Qed.

Lemma switch_enabled c i (b : bool) (g : nat → bool) i' j' e : config_wf c → (i < n c)%nat →
  (∀ j : nat, g j = if b then conn (switch c i b g) j else true) → name c i' j' = Some e →
  enabled (net (switch c i b g)) !! inl e = Some (conn (switch c i b g) i' && conn (switch c i b g) j').
Proof.
  intros Hwf Hi Hg He. assert (Hu : ∀ x y, name c x y = Some e → x = i' ∧ y = j') by (intros x y Hxy; by apply (wf_inj c Hwf x y i' j' e)).
  unfold switch at 1. cbn [net set_net]. rewrite !enable_all_enabled.
  rewrite (bool_decide_ext _ _ (elem_of_outgoing c g i' j' e Hwf Hu He i)), (bool_decide_ext _ _ (elem_of_incoming c g i' j' e Hwf Hu He i)).
  destruct (wf_ends c Hwf i' j' e He) as (_ & _ & ->). pose proof (Hg i') as Hgi. pose proof (Hg j') as Hgj.
  rewrite !(switch_conn c i b g) in * by done.
  destruct (decide (i' = i)) as [->|Hi'], (decide (j' = i)) as [->|Hj']; destruct b; rewrite ?Hgi, ?Hgj; f_equal.
  all: repeat case_bool_decide; try done.
  all: repeat match goal with |- context [conn ?cc ?x] => destruct (conn cc x) end; naive_solver.
Qed.

Lemma switch_frame c i b g :
  ends (net (switch c i b g)) = ends (net c) ∧ connections (net (switch c i b g)) = connections (net c) ∧
  servers (net (switch c i b g)) = servers (net c).
Proof.
  unfold switch. cbn [net set_net]. destruct (enable_all_frame (incoming c g i) b (enable_all (outgoing c g i) b (net c))) as (-> & -> & ->).
  apply enable_all_frame.
Qed.

Lemma switch_wf c i (b : bool) (g : nat → bool) : config_wf c → (i < n c)%nat → (b = true → is_Some (mjoin (endnames c !! i))) →
  (∀ j : nat, g j = if b then conn (switch c i b g) j else true) → config_wf (switch c i b g).
Proof.
  intros Hwf Hi Hst Hg. pose proof (λ i' j' e, switch_enabled c i b g i' j' e Hwf Hi Hg) as He.
  destruct (switch_frame c i b g) as (He1 & He2 & He3). split.
  - simpl. rewrite length_insert. apply Hwf.
  - apply Hwf.
  - apply Hwf.
  - apply Hwf.
  - apply Hwf.
  - apply Hwf.
  - apply Hwf.
  - intros j. rewrite switch_conn by done. destruct (decide (j = i)) as [->|Hne]; [apply Hst|apply (wf_started c Hwf)].
  - apply Hwf.
  - intros i' j' e Hn. rewrite He1, He2, (He _ _ _ Hn). by destruct (wf_ends c Hwf i' j' e Hn) as (? & ? & _).
  - intros [e|x] Hx.
    + unfold switch in Hx. cbn [net set_net] in Hx. rewrite !enable_all_enabled in Hx.
      destruct (decide (e ∈ incoming c g i)) as [Hin|Hin].
      { apply elem_of_omap_seq in Hin as (j & _ & Hj). destruct (g j); [|done]. eauto. }
      rewrite bool_decide_false in Hx by done. destruct (decide (e ∈ outgoing c g i)) as [Hout|Hout].
      { apply elem_of_omap_seq in Hout as (j & _ & Hj). destruct (g j); [|done]. eauto. }
      rewrite bool_decide_false in Hx by done. by apply (wf_stale c Hwf).
    + unfold switch in Hx. cbn [net set_net] in Hx. rewrite !enable_all_enabled_server in Hx. by apply (wf_stale c Hwf).
  - intros j o Hj. unfold lookup_server. rewrite He3. by apply (wf_servers c Hwf).
  - apply Hwf.
Qed.

Lemma connect_wf c i : config_wf c → (i < n c)%nat → is_Some (mjoin (endnames c !! i)) →
  ∃ c', connect (Z.of_nat i) c = Ret c' ∧ config_wf c' ∧ n c' = n c ∧ endnames c' = endnames c ∧ ends (net c') = ends (net c) ∧
    ∀ j, conn c' j = if decide (j = i) then true else conn c j.
Proof.
  intros Hwf Hi Hst. rewrite connect_eq by done. eexists. split; [done|]. split; [by apply switch_wf|]. split; [done|]. split; [done|].
  split; [apply switch_frame|]. intros j. by apply switch_conn.
Qed.

Lemma disconnect_wf c i : config_wf c → (i < n c)%nat →
  ∃ c', disconnect (Z.of_nat i) c = Ret c' ∧ config_wf c' ∧ conn c' i = false ∧ ends (net c') = ends (net c) ∧
    n c' = n c ∧ endnames c' = endnames c ∧ rafts c' = rafts c ∧ saved c' = saved c ∧ logs c' = logs c ∧ mem c' = mem c.
Proof.
  intros Hwf Hi. rewrite disconnect_eq by done. eexists. split; [done|]. split; [by apply switch_wf|].
  split; [|split; [apply switch_frame|done]]. rewrite switch_conn by done. by rewrite decide_True.
Qed.

(** *** crash1 *)

Lemma set_saved_wf c sv : config_wf c → length sv = n c → config_wf (set_saved sv c).
Proof. intros [] ?. by split. Qed.
Lemma set_logs_wf c lg mi : config_wf c → length lg = n c → config_wf (set_logs lg mi c).
Proof. intros [] ?. by split. Qed.
Lemma set_lastApplied_wf c la : config_wf c → length la = n c → config_wf (set_lastApplied la c).
Proof. intros [] ?. by split. Qed.

(** Removing the server and the peer of [i] together. *)
Lemma remove_wf c i : config_wf c → (i < n c)%nat → ∀ m, (∀ a, is_Some (raft_at (mem c) !! a) → is_Some (raft_at m !! a)) →
  server_at m = server_at (mem c) → next_addr m = next_addr (mem c) →
  config_wf (set_rafts (<[i := None]> (rafts c)) (set_mem m (set_net (DeleteServer (inr (Z.of_nat i)) (net c)) c))).
Proof.
  intros Hwf Hi m Hm Hs Hn. destruct Hwf. split; simpl; try done.
  - by rewrite length_insert.
  - intros j o Hj. unfold lookup_server. simpl. destruct (decide (j = i)) as [->|Hne].
    + rewrite list_lookup_insert_eq in Hj by lia. injection Hj as <-. by rewrite lookup_insert_eq.
    + rewrite list_lookup_insert_ne in Hj by done. rewrite lookup_insert_ne by (intros [= Hz]; lia). by apply wf_servers0.
  - intros j a Hj. rewrite Hs, Hn. destruct (decide (j = i)) as [->|Hne]; [by rewrite list_lookup_insert_eq in Hj by lia|].
    rewrite list_lookup_insert_ne in Hj by done. destruct (wf_objects0 j a Hj) as (? & ? & ?). auto.
Qed.

(** What a crash leaves: the peer is gone, its persisted bytes stay. *)
Definition crash_post (i : nat) (c c' : config) : Prop :=
  config_wf c' ∧ conn c' i = false ∧ rafts c' !! i = Some None ∧ saved c' = saved c ∧ n c' = n c ∧ endnames c' = endnames c ∧
  logs c' = logs c ∧ next_addr (mem c') = next_addr (mem c) ∧ ends (net c') = ends (net c).

Lemma resave (s : option Persister) : (λ ps, Save (ReadRaftState ps) (ReadSnapshot ps) MakePersister) <$> (Copy <$> s) = s.
Proof. destruct s as [[rs sn]|]; done. Qed.

Lemma crash1_wf c i : config_wf c → (i < n c)%nat → ∃ c', crash1 (Z.of_nat i) c = Ret c' ∧ crash_post i c c'.
Proof.
  intros Hwf Hi. unfold crash1. destruct (disconnect_wf c i Hwf Hi) as (c1 & -> & Hwf1 & Hc1 & Hen & Hn & He & Hr & Hs & Hl & Hm). cbn [mbind outcome_bind].
  cbn [saved set_net rafts]. destruct (lookup_lt_is_Some_2 (saved c1) i) as [s Es]; [rewrite (wf_saved c1 Hwf1); lia|].
  destruct (lookup_lt_is_Some_2 (rafts c1) i) as [o Eo]; [rewrite (wf_rafts c1 Hwf1); lia|].
  assert (Hlen : length (saved c1) = n c1) by apply Hwf1. assert (Hi1 : (i < n c1)%nat) by lia.
  rewrite slice_get_nat, Es. cbn [mbind outcome_bind]. rewrite slice_set_ok, Nat2Z.id by (unfold go_len; lia). cbn [mbind outcome_bind].
  cbn [rafts set_saved]. rewrite slice_get_nat. cbn [set_net rafts]. rewrite Eo. cbn [mbind outcome_bind].
  pose proof (λ m, remove_wf c1 i Hwf1 Hi1 m) as Hrm.
  assert (Hend : ∀ c2, config_wf c2 → saved c2 = <[i := Copy <$> s]> (saved c1) → n c2 = n c1 → rafts c2 !! i = Some None → endnames c2 = endnames c1 →
    logs c2 = logs c1 → conn c2 i = false → next_addr (mem c2) = next_addr (mem c1) → ends (net c2) = ends (net c1) →
    ∃ c', (s0 ← slice_get (saved c2) (Z.of_nat i);
           sv ← slice_set (saved c2) (Z.of_nat i) ((λ ps, Save (ReadRaftState ps) (ReadSnapshot ps) MakePersister) <$> s0); Ret (set_saved sv c2)) = Ret c' ∧
          crash_post i c c').
  { intros c2 Hwf2 Hs2 Hn2 Hr2 He2 Hl2 Hc2 Hx2 Hen2. rewrite Hs2, slice_get_nat, list_lookup_insert_eq by lia. cbn [mbind outcome_bind].
    rewrite slice_set_ok, Nat2Z.id by (unfold go_len; rewrite length_insert; lia). cbn [mbind outcome_bind]. eexists. split; [done|].
    rewrite resave, list_insert_insert_eq. unfold crash_post. simpl. rewrite Hn2, He2, Hl2, Hx2, Hen2, Hn, He, Hl, Hm, Hen. split_and!; try done.
    - apply (set_saved_wf c2); [done|]. rewrite length_insert. lia.
    - rewrite <-Hs. by apply list_insert_id. }
  destruct o as [a|].
  - rewrite slice_set_ok, Nat2Z.id by (unfold go_len; rewrite (wf_rafts c1 Hwf1); lia). cbn [mbind outcome_bind]. apply Hend; try done.
    + refine (set_saved_wf _ _ (Hrm (kill_at a (mem c1)) _ eq_refl eq_refl) _); [|simpl; rewrite length_insert; lia].
      intros b [rf Hb]. simpl. destruct (decide (a = b)) as [->|]; [rewrite lookup_alter_eq, Hb; by eexists|by rewrite lookup_alter_ne, Hb].
    + simpl. by rewrite list_lookup_insert_eq by (rewrite (wf_rafts c1 Hwf1); lia).
  - apply Hend; try done. replace (set_saved _ _) with (set_saved (<[i := Copy <$> s]> (saved c1))
      (set_rafts (<[i := None]> (rafts c1)) (set_mem (mem c1) (set_net (DeleteServer (inr (Z.of_nat i)) (net c1)) c1)))).
    + apply set_saved_wf; [by apply Hrm|simpl; rewrite length_insert; lia].
    + by rewrite (list_insert_id (rafts c1)).
Qed.

(** *** start1 *)

(** The network after the ends of the first [k] names were made and connected. *)
Record ends_made (names : list string) (nt0 : Network (Name := netname)) (k : nat) (nt : Network (Name := netname)) : Prop := {
  em_servers : servers nt = servers nt0;
  em_new : ∀ j e, (j < k)%nat → names !! j = Some e → inl e ∉ ends nt0 ∧ inl e ∈ ends nt ∧
    connections nt !! inl e = Some (Some (inr (Z.of_nat j))) ∧ enabled nt !! inl e = Some false;
  em_inj : ∀ j j' e, (j < k)%nat → (j' < k)%nat → names !! j = Some e → names !! j' = Some e → j = j';
  em_old : ∀ x, x ∈ ends nt0 → x ∈ ends nt ∧ connections nt !! x = connections nt0 !! x ∧ enabled nt !! x = enabled nt0 !! x;
  em_open : ∀ x, enabled nt !! x = Some true → enabled nt0 !! x = Some true
}.

Lemma ends_made_0 names nt0 : ends_made names nt0 0 nt0.
Proof. split; try done; lia. Qed.

Lemma ends_made_S names nt0 k nt e : ends_made names nt0 k nt → names !! k = Some e → inl e ∉ ends nt →
  ∃ nt', MakeEnd (inl e) nt = Ret nt' ∧ ends_made names nt0 (S k) (Connect (inl e) (inr (Z.of_nat k)) nt').
Proof.
  intros [Hs Hnew Hinj Hold Hopen] He Hfresh. unfold MakeEnd. rewrite bool_decide_false by done. eexists. split; [done|]. split; simpl; try done.
  - intros j e' Hj He'. destruct (decide (j = k)) as [->|Hne].
    + assert (e' = e) as -> by congruence. rewrite !lookup_insert_eq. split; [|set_solver]. intros Hin. by destruct (Hold _ Hin).
    + destruct (Hnew j e') as (? & Hin & ? & ?); [lia|done|]. assert (e' ≠ e) by (intros ->; done).
      rewrite !lookup_insert_ne by congruence. set_solver.
  - intros j j' e' Hj Hj' Hje Hje'.
    destruct (decide (j = k)) as [->|], (decide (j' = k)) as [->|]; [done| | |apply (Hinj j j' e'); [lia..|done|done]].
    + destruct (Hnew j' e') as (_ & Hin & _); [lia|done|]. congruence.
    + destruct (Hnew j e') as (_ & Hin & _); [lia|done|]. congruence.
  - intros x Hx. destruct (Hold x Hx) as (Hin & ? & ?). assert (x ≠ inl e) by (intros ->; done). rewrite !lookup_insert_ne by done. set_solver.
  - intros x. destruct (decide (x = inl e)) as [->|Hne]; [by rewrite lookup_insert_eq|]. rewrite lookup_insert_ne by done. apply Hopen.
Qed.

Lemma make_ends_loop c i names : endnames c !! i = Some (Some names) → length names = n c →
  let body := λ j c, e ← endname_of (Z.of_nat i) j c; nt ← MakeEnd (inl e) (net c); Ret (set_net (Connect (inl e) (inr j) nt) c) in
  (∃ nt, for_range (n c) 0 body c = Ret (set_net nt c) ∧ ends_made names (net c) (n c) nt) ∨ for_range (n c) 0 body c = Exit.
Proof.
  intros Hrow Hlen body. destruct (for_range_inv_Exit (λ k c', ∃ nt, c' = set_net nt c ∧ ends_made names (net c) k nt) body (n c) 0 c)
    as [(c' & Hc' & nt & -> & Hnt)|?]; [exists (net c); split; [by destruct c|apply ends_made_0]| |left; exists nt; done|by right].
  intros j c' Hj (nt & -> & Hnt). destruct (lookup_lt_is_Some_2 names j) as [e He]; [lia|]. unfold body.
  rewrite (endname_of_name _ i j e) by (unfold name; simpl; by rewrite Hrow). cbn [mbind outcome_bind net set_net].
  destruct (decide (inl e ∈ ends nt)) as [Hin|Hin]; [right; unfold MakeEnd; by rewrite bool_decide_true by done|].
  left. destruct (ends_made_S names (net c) j nt e Hnt He Hin) as (nt' & -> & Hnt'). cbn. eexists. split; [done|]. by eexists.
Qed.

(** The new ends take the place of those of the peer that crashed. *)
Lemma fresh_ends_wf c i names nt : config_wf c → (i < n c)%nat → conn c i = false → length names = n c → ends_made names (net c) (n c) nt →
  config_wf (set_net nt (set_endnames (<[i := Some names]> (endnames c)) c)).
Proof.
  intros Hwf Hi Hc Hlen Hem. set (c' := set_net _ _).
  assert (Hname : ∀ a b e, name c' a b = Some e → (a = i ∧ names !! b = Some e ∧ (b < n c)%nat) ∨ (a ≠ i ∧ name c a b = Some e)).
  { intros a b e. unfold name. simpl. destruct (decide (a = i)) as [->|Hne].
    - rewrite list_lookup_insert_eq by (rewrite (wf_endnames c Hwf); lia). simpl. intros Hb. left. split; [done|]. split; [done|].
      rewrite <-Hlen. by eapply lookup_lt_Some.
    - rewrite list_lookup_insert_ne by done. by right. }
  assert (Hconn : ∀ a, conn c' a = conn c a) by done. destruct Hem as [Hs Hnew Hinj Hold Hopen].
  assert (Hcross : ∀ a b b' e, name c a b = Some e → names !! b' = Some e → (b' < n c)%nat → False).
  { intros a b b' e Ha Hb' Hlt. destruct (Hnew b' e Hlt Hb') as (Hn & _). by destruct (wf_ends c Hwf a b e Ha). }
  split; try (apply Hwf).
  - simpl. rewrite length_insert. apply Hwf.
  - intros a row. simpl. destruct (decide (a = i)) as [->|Hne].
    + rewrite list_lookup_insert_eq by (rewrite (wf_endnames c Hwf); lia). by intros [= <-].
    + rewrite list_lookup_insert_ne by done. apply (wf_rows c Hwf).
  - intros a. rewrite Hconn. intros Ha. simpl. destruct (decide (a = i)) as [->|Hne]; [congruence|].
    rewrite list_lookup_insert_ne by done. by apply (wf_started c Hwf).
  - intros a b a' b' e [(-> & Hb & ?)|[? Ha]]%Hname [(-> & Hb' & ?)|[? Ha']]%Hname; [|exfalso; eauto..|by apply (wf_inj c Hwf _ _ _ _ e)].
    split; [done|]. by apply (Hinj b b' e).
  - intros a b e [(-> & Hb & Hlt)|[Hne Ha]]%Hname; rewrite !Hconn.
    + rewrite Hc. by destruct (Hnew b e Hlt Hb) as (_ & ? & ? & ?).
    + destruct (wf_ends c Hwf a b e Ha) as (Hin & Hcn & Hen). destruct (Hold _ Hin) as (? & E1 & E2). simpl. by rewrite E1, E2.
  - intros x Hx. destruct (wf_stale c Hwf x) as (a & b & e & -> & He); [by apply Hopen|]. exists a, b, e. split; [done|].
    destruct (decide (a = i)) as [->|Hne]; [|unfold name; simpl; by rewrite list_lookup_insert_ne].
    exfalso. destruct (wf_ends c Hwf i b e He) as (Hin & _ & Hen). rewrite Hc in Hen. destruct (Hold _ Hin) as (_ & _ & E). change (net c') with nt in Hx. simpl in Hen. congruence.
  - intros a o Ha. unfold lookup_server. simpl. rewrite Hs. by apply (wf_servers c Hwf).
Qed.

Lemma register_wf c i rf : config_wf c → (i < n c)%nat →
  config_wf (set_net (AddServer (inr (Z.of_nat i)) (next_addr (mem c)) (net c))
    (set_rafts (<[i := Some (next_addr (mem c))]> (rafts c)) (set_mem (new_raft rf (mem c)).2 c))).
Proof.
  intros Hwf Hi. destruct Hwf. split; simpl; try done.
  - by rewrite length_insert.
  - intros j o Hj. unfold lookup_server. simpl. destruct (decide (j = i)) as [->|Hne].
    + rewrite list_lookup_insert_eq in Hj by lia. injection Hj as <-. by rewrite lookup_insert_eq.
    + rewrite list_lookup_insert_ne in Hj by done. rewrite lookup_insert_ne by (intros [= Hz]; lia). by apply wf_servers0.
  - intros j a Hj. destruct (decide (j = i)) as [->|Hne].
    + rewrite list_lookup_insert_eq in Hj by lia. injection Hj as <-. rewrite !lookup_insert_eq. split; [lia|]. split; by eexists.
    + rewrite list_lookup_insert_ne in Hj by done. destruct (wf_objects0 j a Hj) as (? & ? & ?). rewrite !lookup_insert_ne by lia. split; [lia|done].
Qed.

(** [ingestSnap] changes the log and [lastApplied] of one server, or nothing. *)
Lemma ingestSnap_frame c i sn idx : config_wf c → (i < n c)%nat →
  ingestSnap (Z.of_nat i) sn idx c = Exit ∨ ingestSnap (Z.of_nat i) sn idx c = Ret (true, c) ∨
  ∃ xlog last bs, sn = Some bs ∧ gob_decode bs = Some (last, xlog) ∧ (idx = -1 ∨ idx = last) ∧
    ingestSnap (Z.of_nat i) sn idx c =
      Ret (false, set_lastApplied (<[i := last]> (lastApplied c)) (set_logs (<[i := xlog_map xlog]> (logs c)) (maxIndex c) c)).
Proof.
  intros Hwf Hi. unfold ingestSnap. destruct sn as [bs|]; [|by left]. destruct (gob_decode bs) as [[last xlog]|] eqn:Hd; [|by left]. right.
  destruct (negb (idx =? -1) && negb (idx =? last)) eqn:E; [by left|]. right. exists xlog, last, bs. split; [done|]. split; [done|]. split; [lia|].
  rewrite (slice_set_ok (logs c)) by (unfold go_len; rewrite (wf_logs c Hwf); lia). rewrite Nat2Z.id. cbn [mbind outcome_bind].
  rewrite slice_set_ok by (unfold go_len; rewrite (wf_lastApplied c Hwf); lia). by rewrite Nat2Z.id.
Qed.

(** What a start makes: a new peer from the persisted bytes, not yet connected. *)
Definition start_post (i : nat) (c c' : config) : Prop :=
  ends (net c) ⊆ ends (net c') ∧ (∀ j e, name c' i j = Some e → inl e ∉ ends (net c)) ∧
  config_wf c' ∧ conn c' i = false ∧ n c' = n c ∧ is_Some (mjoin (endnames c' !! i)) ∧ (∀ j, j ≠ i → endnames c' !! j = endnames c !! j) ∧
  ∃ ps, (ps = MakePersister ∧ saved c !! i = Some None ∨ saved c !! i = Some (Some ps)) ∧ saved c' !! i = Some (Some ps) ∧
    rafts c' !! i = Some (Some (next_addr (mem c))) ∧ raft_at (mem c') !! next_addr (mem c) = Some (Make (n c) (Z.of_nat i) ps).

Lemma start1_finish c0 c i ps : config_wf c → (i < n c)%nat → conn c i = false → n c = n c0 → is_Some (mjoin (endnames c !! i)) →
  (∀ j, j ≠ i → endnames c !! j = endnames c0 !! j) → next_addr (mem c) = next_addr (mem c0) → saved c !! i = Some (Some ps) →
  (ps = MakePersister ∧ saved c0 !! i = Some None ∨ saved c0 !! i = Some (Some ps)) →
  ends (net c0) ⊆ ends (net c) → (∀ j e, name c i j = Some e → inl e ∉ ends (net c0)) →
  ∃ c', (s ← slice_get (saved c) (Z.of_nat i);
         match s with
         | None => Panic
         | Some ps =>
             let '(a, m) := new_raft (Make (n c) (Z.of_nat i) ps) (mem c) in
             rs ← slice_set (rafts c) (Z.of_nat i) (Some a);
             let c := set_rafts rs (set_mem m c) in
             Ret (set_net (AddServer (inr (Z.of_nat i)) a (net c)) c)
         end) = Ret c' ∧ start_post i c0 c'.
Proof.
  intros Hwf Hi Hc Hn Hst Hrows Hx Hs Hps Hsub Hfr. rewrite slice_get_nat, Hs. cbn [mbind outcome_bind new_raft].
  rewrite slice_set_ok, Nat2Z.id by (unfold go_len; rewrite (wf_rafts c Hwf); lia). cbn [mbind outcome_bind]. eexists. split; [done|].
  unfold start_post. split_and!; try done.
  - exact (register_wf c i (Make (n c) (Z.of_nat i) ps) Hwf Hi).
  - exists ps. simpl. rewrite list_lookup_insert_eq by (rewrite (wf_rafts c Hwf); lia). rewrite Hx, lookup_insert_eq, Hn. done.
Qed.

Lemma start1_wf draw c i : config_wf c → (i < n c)%nat →
  start1 draw (Z.of_nat i) c = Exit ∨ ∃ c', start1 draw (Z.of_nat i) c = Ret c' ∧ start_post i c c'.
Proof.
  intros Hwf Hi. unfold start1. destruct (crash1_wf c i Hwf Hi) as (c1 & -> & Hwf1 & Hc1 & _ & Hs1 & Hn1 & He1 & _ & Hx1 & Hen1). cbn [mbind outcome_bind].
  set (names := draw <$> seqZ 0 (Z.of_nat (n c1))). assert (Hi1 : (i < n c1)%nat) by lia.
  assert (Hlen : length names = n c1) by (unfold names; rewrite length_fmap, length_seqZ; lia).
  rewrite slice_set_ok, Nat2Z.id by (unfold go_len; rewrite (wf_endnames c1 Hwf1); lia). cbn [mbind outcome_bind].
  pose proof (make_ends_loop (set_endnames (<[i := Some names]> (endnames c1)) c1) i names) as Hl. cbn zeta in Hl.
  destruct Hl as [(nt & -> & Hem)| ->];
    [simpl; by rewrite list_lookup_insert_eq by (rewrite (wf_endnames c1 Hwf1); lia)|done| |by left]. cbn [mbind outcome_bind].
  pose proof (fresh_ends_wf c1 i names nt Hwf1 Hi1 Hc1 Hlen Hem) as Hwf2. set (c2 := set_net nt _) in *.
  rewrite slice_set_ok, Nat2Z.id by (unfold go_len; rewrite (wf_lastApplied c2 Hwf2); simpl; lia). cbn [mbind outcome_bind].
  set (c3 := set_lastApplied _ c2). assert (Hwf3 : config_wf c3) by (apply set_lastApplied_wf; [done|rewrite length_insert; apply Hwf2]).
  assert (Hst3 : is_Some (mjoin (endnames c3 !! i))) by (simpl; rewrite list_lookup_insert_eq by (rewrite (wf_endnames c1 Hwf1); lia); by eexists).
  assert (Hr3 : ∀ j, j ≠ i → endnames c3 !! j = endnames c !! j) by (intros j Hj; simpl; by rewrite list_lookup_insert_ne, He1).
  assert (Hsub3 : ends (net c) ⊆ ends (net c3)) by (rewrite <-Hen1; intros x Hx; by destruct (em_old _ _ _ _ Hem x Hx)).
  assert (Hfr3 : ∀ j e, name c3 i j = Some e → inl e ∉ ends (net c)).
  { intros j e. unfold name. simpl. rewrite list_lookup_insert_eq by (rewrite (wf_endnames c1 Hwf1); lia). simpl. intros Hj. rewrite <-Hen1.
    apply (em_new _ _ _ _ Hem j e); [|done]. simpl. rewrite <-Hlen. by eapply lookup_lt_Some. }
  destruct (lookup_lt_is_Some_2 (saved c3) i) as [s Es]; [rewrite (wf_saved c3 Hwf3); exact Hi1|].
  assert (Hs3 : saved c !! i = Some s) by (rewrite <-Hs1; exact Es).
  rewrite slice_get_nat, Es. cbn [mbind outcome_bind].
  assert (Hlen3 : length (saved c3) = n c1) by apply (wf_saved c3 Hwf3). assert (Hlen1 : length (saved c1) = n c1) by apply Hwf1.
  destruct s as [ps|]; cbn [mbind outcome_bind]; rewrite slice_set_ok, Nat2Z.id by (unfold go_len; lia); cbn [mbind outcome_bind].
  - destruct (0 <? SnapshotSize (Copy ps)) eqn:Hsz; rewrite ?Hsz.
    + set (c4 := set_saved _ c3). assert (Hwf4 : config_wf c4) by (apply set_saved_wf; [done|by rewrite length_insert]).
      destruct (ingestSnap_frame c4 i (Some (ReadSnapshot (Copy ps))) (-1) Hwf4 Hi1) as [-> |[-> |(xl & la & bs & _ & _ & _ & ->)]]; [by left..|].
      right. cbn [mbind outcome_bind].
      apply (start1_finish c _ i ps); try done; [|simpl; rewrite list_lookup_insert_eq by lia; by destruct ps|by right].
      apply set_lastApplied_wf; [apply set_logs_wf; [done|]|]; rewrite length_insert; apply Hwf4.
    + right. cbn [mbind outcome_bind].
      apply (start1_finish c _ i ps); try done; [|simpl; rewrite list_lookup_insert_eq by lia; by destruct ps|by right].
      apply set_saved_wf; [done|by rewrite length_insert].
  - right. apply (start1_finish c _ i MakePersister); try done; [|simpl; by rewrite list_lookup_insert_eq by lia|by left].
    apply set_saved_wf; [done|by rewrite length_insert].
Qed.

(** *** make_config *)

Definition all_started (c : config) (k : nat) : Prop := ∀ i, (i < k)%nat → is_Some (mjoin (endnames c !! i)).

Lemma blank_config_wf k now : config_wf (blank_config k now).
Proof.
  assert (Hrow : ∀ i : nat, mjoin (endnames (blank_config k now) !! i) = None).
  { intros i. simpl. destruct (replicate k None !! i) as [o|] eqn:E; [|done]. by apply lookup_replicate_1 in E as [-> _]. }
  assert (Hconn : ∀ i, conn (blank_config k now) i = false).
  { intros i. unfold conn. simpl. destruct (replicate k false !! i) as [o|] eqn:E; [|done]. by apply lookup_replicate_1 in E as [-> _]. }
  assert (Hname : ∀ i j, name (blank_config k now) i j = None) by (intros i j; unfold name; by rewrite Hrow).
  split; try (simpl; apply length_replicate); simpl.
  - by intros i row [Hr _]%lookup_replicate_1.
  - intros i. by rewrite Hconn.
  - intros i j i' j' e. by rewrite Hname.
  - intros i j e. by rewrite Hname.
  - intros x. by rewrite lookup_empty.
  - intros i o [-> _]%lookup_replicate_1. unfold lookup_server. simpl. by rewrite lookup_empty.
  - by intros i a [Hr _]%lookup_replicate_1.
Qed.

Lemma net_flags_wf c nt : config_wf c → ends nt = ends (net c) → enabled nt = enabled (net c) → servers nt = servers (net c) →
  connections nt = connections (net c) → config_wf (set_net nt c).
Proof.
  intros [] He Hn Hs Hc. split; try done; simpl; rewrite ?He, ?Hn, ?Hc; try done.
  intros i o Hi. unfold lookup_server. rewrite Hs. by apply wf_servers0.
Qed.

Lemma make_config_wf k unreliable now draw :
  make_config k unreliable now draw = Exit ∨
  ∃ c, make_config k unreliable now draw = Ret c ∧ config_wf c ∧ n c = k ∧ all_started c k ∧ ∀ i, (i < k)%nat → conn c i = true.
Proof.
  unfold make_config. cbn zeta. set (c0 := set_net (LongDelays true _) _).
  assert (Hwf0 : config_wf c0) by (apply net_flags_wf; try done; apply net_flags_wf; try done; apply blank_config_wf).
  change (n c0) with k.
  destruct (for_range_inv_Exit (λ j c, config_wf c ∧ n c = k ∧ all_started c j)
    (λ i c, lg ← slice_set (logs c) i ∅; start1 (draw i) i (set_logs lg (maxIndex c) c)) k 0 c0)
    as [(c1 & H1 & Hwf1 & Hn1 & Hst1)|H1].
  { split; [done|]. split; [done|]. intros i. lia. }
  { intros j c Hj (Hwf & Hn & Hst). rewrite slice_set_ok by (unfold go_len; rewrite (wf_logs c Hwf); lia). cbn [mbind outcome_bind]. rewrite Nat2Z.id.
    destruct (start1_wf (draw (Z.of_nat j)) (set_logs (<[j := ∅]> (logs c)) (maxIndex c) c) j) as [->|(c' & -> & _ & _ & Hwf' & _ & Hn' & Hj' & Hoth & _)];
      [apply set_logs_wf; [done|rewrite length_insert; apply Hwf]|simpl; lia|by right|].
    left. exists c'. split; [done|]. split; [done|]. split; [by rewrite Hn'|]. intros i Hi. destruct (decide (i = j)) as [->|Hne]; [done|].
    rewrite Hoth by done. apply Hst. lia. }
  2: { left. change 0 with (Z.of_nat 0). by rewrite H1. }
  right. change 0 with (Z.of_nat 0). rewrite H1. cbn [mbind outcome_bind]. rewrite Hn1.
  destruct (for_range_inv (λ j c, config_wf c ∧ n c = k ∧ all_started c k ∧ ∀ i, (i < j)%nat → conn c i = true) connect k 0 c1)
    as (c2 & -> & Hwf2 & Hn2 & Hst2 & Hc2); [split_and!; try done; lia| |by exists c2].
  intros j c Hj (Hwf & Hn & Hst & Hc). destruct (connect_wf c j Hwf) as (c' & -> & Hwf' & Hn' & He' & _ & Hcc); [lia|apply Hst; lia|].
  exists c'. split_and!; [done|done|congruence|intros i; rewrite He'; apply Hst|]. intros i Hi. rewrite Hcc. case_decide; [done|]. apply Hc. lia.
Qed.

(** ** The configuration during a test *)

(** The operations a test performs, and what goroutines do meanwhile: calls change
    the statistics of the network, peers change their own state, servers count
    requests, appliers write the logs. *)
Inductive config_step (c : config) : config → Prop :=
| cs_connect i c' : (i < n c)%nat → connect (Z.of_nat i) c = Ret c' → config_step c c'
| cs_disconnect i c' : (i < n c)%nat → disconnect (Z.of_nat i) c = Ret c' → config_step c c'
| cs_crash i c' : (i < n c)%nat → crash1 (Z.of_nat i) c = Ret c' → config_step c c'
| cs_start draw i c' : (i < n c)%nat → start1 draw (Z.of_nat i) c = Ret c' → config_step c c'
| cs_unreliable b : config_step c (setunreliable b c)
| cs_reordering b : config_step c (setlongreordering b c)
| cs_call r l : config_step c (set_net (add_stats r l (net c)) c)
| cs_peer f a : config_step c (set_mem (mkMemory (alter f a (raft_at (mem c))) (server_at (mem c)) (next_addr (mem c))) c)
| cs_server f a : config_step c (set_mem (mkMemory (raft_at (mem c)) (alter f a (server_at (mem c))) (next_addr (mem c))) c)
| cs_apply lg la mi : length lg = length (logs c) → length la = length (lastApplied c) →
    config_step c (set_lastApplied la (set_logs lg mi c)).

Definition config_ok (c : config) : Prop := config_wf c ∧ all_started c (n c).

Definition config_reachable (c : config) : Prop :=
  ∃ k unreliable now draw c0, make_config k unreliable now draw = Ret c0 ∧ rtc config_step c0 c.

Lemma is_Some_alter {A} (f : A → A) (a b : nat) (m : gmap nat A) : is_Some (m !! b) → is_Some (alter f a m !! b).
Proof. intros [x Hx]. destruct (decide (a = b)) as [->|]; [rewrite lookup_alter_eq, Hx; by eexists|by rewrite lookup_alter_ne, Hx]. Qed.

(** A step keeps the invariant, and no step gives a used name to an end again. *)
Lemma config_step_ok c c' : config_ok c → config_step c c' →
  config_ok c' ∧ ends (net c) ⊆ ends (net c') ∧
  (∀ i j e, name c' i j = Some e → name c i j = Some e ∨ inl e ∉ ends (net c)).
Proof.
  intros [Hwf Hst] Hs. destruct Hs as [i c' Hi Hc|i c' Hi Hc|i c' Hi Hc|draw i c' Hi Hc|b|b|r l|f a|f a|lg la mi Hlg Hla].
  - destruct (connect_wf c i Hwf Hi (Hst i Hi)) as (c1 & Hc1 & Hwf1 & Hn & He & Hen & _). rewrite Hc in Hc1. injection Hc1 as <-.
    rewrite Hen. split; [split; [done|]; intros j; rewrite Hn, He; apply Hst|]. split; [done|]. intros j j' e. unfold name. rewrite He. by left.
  - destruct (disconnect_wf c i Hwf Hi) as (c1 & Hc1 & Hwf1 & _ & Hen & Hn & He & _). rewrite Hc in Hc1. injection Hc1 as <-.
    rewrite Hen. split; [split; [done|]; intros j; rewrite Hn, He; apply Hst|]. split; [done|]. intros j j' e. unfold name. rewrite He. by left.
  - destruct (crash1_wf c i Hwf Hi) as (c1 & Hc1 & Hwf1 & _ & _ & _ & Hn & He & _ & _ & Hen). rewrite Hc in Hc1. injection Hc1 as <-.
    rewrite Hen. split; [split; [done|]; intros j; rewrite Hn, He; apply Hst|]. split; [done|]. intros j j' e. unfold name. rewrite He. by left.
  - destruct (start1_wf draw c i Hwf Hi) as [Hc1|(c1 & Hc1 & Hsub & Hfr & Hwf1 & _ & Hn & Hi' & He & _)]; rewrite Hc in Hc1; [done|]. injection Hc1 as <-.
    split; [split; [done|]|split; [done|]].
    + intros j. rewrite Hn. destruct (decide (j = i)) as [->|Hne]; [done|]. rewrite He by done. apply Hst.
    + intros j j' e Hj. destruct (decide (j = i)) as [->|Hne]; [right; by eapply Hfr|]. left. revert Hj. unfold name. by rewrite He.
  - split; [split; [by apply net_flags_wf|done]|]. split; [done|by left].
  - split; [split; [by apply net_flags_wf|done]|]. split; [done|by left].
  - split; [split; [by apply net_flags_wf|done]|]. split; [done|by left].
  - split; [split; [|done]|split; [done|by left]]. destruct Hwf. split; try done. simpl. intros i b Hb. destruct (wf_objects0 i b Hb) as (? & ? & ?).
    split; [done|]. split; [by apply is_Some_alter|done].
  - split; [split; [|done]|split; [done|by left]]. destruct Hwf. split; try done. simpl. intros i b Hb. destruct (wf_objects0 i b Hb) as (? & ? & ?).
    split; [done|]. split; [done|by apply is_Some_alter].
  - split; [split; [|done]|split; [done|by left]].
    apply set_lastApplied_wf; [apply set_logs_wf; [done|]|]; [rewrite Hlg|simpl; rewrite Hla]; apply Hwf.
Qed.

Lemma reachable_config_ok c : config_reachable c → config_ok c.
Proof.
  intros (k & unrel & now & draw & c0 & Hm & Hr). destruct (make_config_wf k unrel now draw) as [E|(c0' & E & Hwf & Hn & Hst & _)]; rewrite Hm in E; [done|].
  injection E as <-. assert (Hok : config_ok c0) by (split; [done|by rewrite Hn]). clear -Hr Hok.
  induction Hr as [|c1 c2 c3 Hs _ IH]; [done|]. apply IH. by destruct (config_step_ok c1 c2 Hok Hs).
Qed.

(** An end name that was used and belongs to no peer any more. *)
Definition retired (e : string) (c : config) : Prop := inl e ∈ ends (net c) ∧ ∀ i j, name c i j ≠ Some e.

Lemma retired_steps e c c' : config_ok c → retired e c → rtc config_step c c' → config_ok c' ∧ retired e c'.
Proof.
  intros Hok Hre Hr. induction Hr as [|c1 c2 c3 Hs _ IH]; [done|]. destruct (config_step_ok c1 c2 Hok Hs) as (Hok2 & Hsub & Hn).
  apply IH; [done|]. destruct Hre as [Hin Hno]. split; [set_solver|]. intros i j Hj. destruct (Hn i j e Hj) as [Hj'|Hj']; [by eapply Hno|done].
Qed.

(** C26 (who can talk to whom).  In every state of a test, the network carries a
    call from peer [i] to peer [j] exactly when both are connected, to the server of
    the running instance of [j] if there is one; an end that is enabled belongs to
    two connected peers; and connecting, disconnecting and crashing a peer return,
    starting one never panics. *)
Theorem config_connectivity (c : config) : config_reachable c →
  (∀ i j, (i < n c)%nat → (j < n c)%nat → ∃ e o, name c i j = Some e ∧ rafts c !! j = Some o ∧
     readEndnameInfo (inl e) (net c) = (conn c i && conn c j, Some (inr (Z.of_nat j)), o, reliable (net c), longReordering (net c))) ∧
  (∀ x, enabled (net c) !! x = Some true → ∃ i j e, x = inl e ∧ name c i j = Some e ∧ conn c i = true ∧ conn c j = true) ∧
  (∀ i, (i < n c)%nat → returns (connect (Z.of_nat i) c) ∧ returns (disconnect (Z.of_nat i) c) ∧ returns (crash1 (Z.of_nat i) c) ∧
     ∀ draw, start1 draw (Z.of_nat i) c ≠ Panic).
Proof.
  intros [Hwf Hst]%reachable_config_ok. split; [|split].
  - intros i j Hi Hj. destruct (name_started c i j Hwf (Hst i Hi) Hj) as [e He]. destruct (wf_ends c Hwf i j e He) as (_ & Hc & Hen).
    destruct (lookup_lt_is_Some_2 (rafts c) j) as [o Ho]; [by rewrite (wf_rafts c Hwf)|]. exists e, o. split; [done|]. split; [done|].
    unfold readEndnameInfo. rewrite Hc, Hen. simpl. by rewrite (wf_servers c Hwf j o Ho).
  - intros x Hx. destruct (wf_stale c Hwf x Hx) as (i & j & e & -> & He). exists i, j, e. split; [done|]. split; [done|].
    destruct (wf_ends c Hwf i j e He) as (_ & _ & Hen). rewrite Hx in Hen. injection Hen as Hb. by apply andb_true_iff.
  - intros i Hi. destruct (connect_wf c i Hwf Hi (Hst i Hi)) as (c1 & -> & _). destruct (disconnect_wf c i Hwf Hi) as (c2 & -> & _).
    destruct (crash1_wf c i Hwf Hi) as (c3 & -> & _). split_and!; [by eexists..|]. intros draw.
    by destruct (start1_wf draw c i Hwf Hi) as [->|(c' & -> & _)].
Qed.

(** A restart replaces the old instance.  Starting peer [i] again makes a new
    Raft object from the bytes its predecessor had persisted and leaves it
    disconnected; and none of the ends of the old instance is ever enabled again,
    whatever the test does afterwards. *)
Theorem restart_isolates (c c' c'' : config) (draw : Z → string) (i : nat) :
  config_reachable c → (i < n c)%nat → start1 draw (Z.of_nat i) c = Ret c' → rtc config_step c' c'' →
  (∃ ps, (ps = MakePersister ∧ saved c !! i = Some None ∨ saved c !! i = Some (Some ps)) ∧ saved c' !! i = Some (Some ps) ∧
     rafts c' !! i = Some (Some (next_addr (mem c))) ∧ raft_at (mem c') !! next_addr (mem c) = Some (Make (n c) (Z.of_nat i) ps)) ∧
  conn c' i = false ∧
  ∀ j e, name c i j = Some e → inl e ∈ ends (net c'') ∧ enabled (net c'') !! inl e ≠ Some true.
Proof.
  intros [Hwf Hst]%reachable_config_ok Hi Hs Hr. assert (Hok' : config_ok c').
  { destruct (config_step_ok c c' (conj Hwf Hst)); [by eapply cs_start|done]. }
  destruct (start1_wf draw c i Hwf Hi) as [E|(c1 & E & Hsub & Hfr & _ & Hc & _ & _ & He & Hps)]; rewrite Hs in E; [done|]. injection E as <-.
  split; [done|]. split; [done|]. intros j e Hje. destruct (wf_ends c Hwf i j e Hje) as (Hin & _).
  assert (Hre : retired e c').
  { split; [set_solver|]. intros a b Hab. destruct (decide (a = i)) as [->|Hne]; [by eapply Hfr|].
    assert (Hab' : name c a b = Some e) by (revert Hab; unfold name; by rewrite He). by destruct (wf_inj c Hwf a b i j e Hab' Hje). }
  destruct (retired_steps e c' c'' Hok' Hre Hr) as [[Hwf2 _] [Hin2 Hno]]. split; [done|]. intros Hx.
  destruct (wf_stale c'' Hwf2 _ Hx) as (a & b & e' & [= <-] & Hab). by eapply Hno.
Qed.
End RaftConfig.

(** ** Three peers, of which one is restarted *)

Definition draw3 (round i j : Z) : string :=
  String.string_of_list_ascii [Ascii.ascii_of_nat (Z.to_nat (65 + round)); Ascii.ascii_of_nat (Z.to_nat (65 + i)); Ascii.ascii_of_nat (Z.to_nat (65 + j))].

Notation make3 := (make_config (Cmd := Z) [] (λ _, None) 3 false 0 (draw3 0)).

(** Three steps that succeed, with a test on the first two results. *)
Lemma three_steps {A} (m : outcome A) (f g : A → outcome A) (test : A → bool) :
  match (c ← m; c' ← f c; c'' ← g c'; Ret (test c && test c')) with Ret b => b | _ => false end = true →
  ∃ c c' c'', m = Ret c ∧ f c = Ret c' ∧ g c' = Ret c'' ∧ test c = true ∧ test c' = true.
Proof.
  destruct m as [c| |]; simpl; [|done..]. destruct (f c) as [c'| |] eqn:Hf; simpl; [|done..]. destruct (g c') as [c''| |] eqn:Hg; simpl; [|done..].
  intros [? ?]%andb_true_iff. by exists c, c', c''.
Qed.

(** The states before and after peer 0 is restarted, and after it is connected
    again. *)
Lemma restart3_ok : ∃ c c' c'', make3 = Ret c ∧ start1 [] (λ _, None) (draw3 1 0) 0 c = Ret c' ∧ connect 0 c' = Ret c'' ∧
  Nat.eqb (n c) 3 = true ∧ Nat.eqb (n c') 3 = true.
Proof. apply (three_steps make3 (start1 [] (λ _, None) (draw3 1 0) 0) (connect 0) (λ c, Nat.eqb (n c) 3)). vm_compute. reflexivity. Qed.

Lemma config_connectivity_witness :
  ∃ c, make3 = Ret c ∧ ∀ i j, (i < n c)%nat → (j < n c)%nat → ∃ e o, name c i j = Some e ∧ rafts c !! j = Some o ∧
     readEndnameInfo (inl e) (net c) = (conn c i && conn c j, Some (inr (Z.of_nat j)), o, reliable (net c), longReordering (net c)).
Proof.
  destruct restart3_ok as (c & _ & _ & Hc & _). exists c. split; [exact Hc|].
  apply (config_connectivity [] (λ _, None) c). exists 3%nat, false, 0, (draw3 0), c. split; [exact Hc|constructor].
Defined.

Lemma restart_isolates_witness :
  ∃ c c' c'', make3 = Ret c ∧ start1 [] (λ _, None) (draw3 1 0) 0 c = Ret c' ∧ connect 0 c' = Ret c'' ∧
    conn c' 0 = false ∧ ∀ j e, name c 0 j = Some e → inl e ∈ ends (net c'') ∧ enabled (net c'') !! inl e ≠ Some true.
Proof.
  destruct restart3_ok as (c & c' & c'' & Hc & Hc' & Hc'' & Hn & Hn'). exists c, c', c''. split; [exact Hc|]. split; [exact Hc'|]. split; [exact Hc''|].
  apply (restart_isolates [] (λ _, None) c c' c'' (draw3 1 0) 0).
  - exists 3%nat, false, 0, (draw3 0), c. split; [exact Hc|constructor].
  - apply Nat.eqb_eq in Hn. rewrite Hn. lia.
  - exact Hc'.
  - apply rtc_once. apply (cs_connect _ _ c' 0 c''); [apply Nat.eqb_eq in Hn'; rewrite Hn'; lia|exact Hc''].
Defined.
