(* ===== verification/RaftConfigLog.v ===== *)
(** * Lab2_MapReduce, raft: what the tests check

    The rest of [raft/config.go]: the goroutines that read a peer's apply channel
    and compare what peers apply, and the checks and waits of the tests.  What other
    goroutines change between two reads is an argument: a check takes the values it
    reads, each of its own moment.  The theorems: the tests go on only while all
    peers apply the same commands in order, counting commits is exact, and what it
    means that a check or [one] succeeds. *)

From S2P Require Import Prelude Raft LabRPC RaftConfig.
Open Scope Z_scope.

Section RaftConfigLog.
Context {Cmd : Type} `{EqDecision Cmd}.
Notation iface := (option Cmd).
Notation config := (config (Cmd := Cmd)).

Record ApplyMsg := mkApplyMsg {
  CommandValid : bool; Command : iface; CommandIndex : Z;
  SnapshotValid : bool; Snapshot : option (list Z); SnapshotTerm : Z; SnapshotIndex : Z
}.

(** ** Comparing what peers apply *)

(** The error names the last server that has another value; then whether the
    previous index was applied by [i], and the new state. *)
Definition checkLogs (i : Z) (m : ApplyMsg) (c : config) : outcome (option Z * bool * config) :=
  let v := Command m in
  err ← for_range (length (logs c)) 0 (λ j err,
          lg ← slice_get (logs c) j;
          match lg !! CommandIndex m with
          | Some old => if decide (old ≠ v) then _ ← slice_get (logs c) i; Ret (Some j) else Ret err
          | None => Ret err
          end) None;
  lg ← slice_get (logs c) i;
  let prevok := bool_decide (is_Some (lg !! (CommandIndex m - 1))) in
  lgs ← slice_set (logs c) i (<[CommandIndex m := v]> lg);
  Ret (err, prevok, set_logs lgs (if CommandIndex m >? maxIndex c then CommandIndex m else maxIndex c) c).

(** One message read from the apply channel of server [i]. *)
Definition applier (i : Z) (m : ApplyMsg) (c : config) : outcome config :=
  if negb (CommandValid m) then Ret c
  else
    '(err, prevok, c) ← checkLogs i m c;
    if ((CommandIndex m >? 1) && negb prevok) || bool_decide (is_Some err) then Exit else Ret c.

Definition SnapShotInterval : Z := 10.

(** [xlog] for a snapshot at [index]; a missing entry is nil. *)
Definition snapshot_log (lg : gmap Z iface) (index : Z) : list iface := (λ j, default None (lg !! j)) <$> seqZ 0 (index + 1).

(** One message in the variant with snapshots; also the arguments of
    [rf.Snapshot], which does nothing.  Decoding and encoding a snapshot are
    labgob's. *)
Definition applierSnap (gob_decode : list Z → option (Z * list iface)) (gob_encode : Z → list iface → list Z) (i : Z) (m : ApplyMsg) (c : config) : outcome (config * option (Z * list Z)) :=
  if SnapshotValid m then
    '(err, c) ← ingestSnap gob_decode i (Snapshot m) (SnapshotIndex m) c;
    if (err : bool) then Exit else Ret (c, None)
  else if CommandValid m then
    la ← slice_get (lastApplied c) i;
    let err := negb (CommandIndex m =? la + 1) in
    '(err, c) ← (if err then Ret (true, c)
                 else '(e, prevok, c) ← checkLogs i m c;
                      Ret (((CommandIndex m >? 1) && negb prevok) || bool_decide (is_Some e), c));
    las ← slice_set (lastApplied c) i (CommandIndex m);
    let c := set_lastApplied las c in
    sn ← (if Z.rem (CommandIndex m + 1) SnapShotInterval =? 0 then
            lg ← slice_get (logs c) i;
            Ret (Some (CommandIndex m, gob_encode (CommandIndex m) (snapshot_log lg (CommandIndex m))))
          else Ret None);
    if (err : bool) then Exit else Ret (c, sn)
  else Ret (c, None).

(** ** Checks on leaders and terms *)

(** What a check reads of server [i]: nothing if it is not connected, and otherwise
    [cfg.rafts[i].GetState()], which panics on a nil pointer. *)
Definition look (c : config) (i : Z) : outcome (option (Z * bool)) :=
  b ← slice_get (connected c) i;
  if (b : bool) then
    rf ← slice_get (rafts c) i;
    match rf with
    | Some a => match raft_at (mem c) !! a with Some r => Ret (Some (GetState r)) | None => Panic end
    | None => Panic
    end
  else Ret None.

(** [leaders], and then [lastTermWithLeader] unless a term has two; the iteration
    order of the map does not change the result. *)
Definition collect_leaders (k : nat) (reads : Z → outcome (option (Z * bool))) : outcome (gmap Z (list Z)) :=
  for_range k 0 (λ i leaders,
    s ← reads i;
    match s with
    | Some (term, true) => Ret (<[term := (default [] (leaders !! term) ++ [i])%list]> leaders)
    | _ => Ret leaders
    end) ∅.

Definition last_term (leaders : list (Z * list Z)) : outcome Z :=
  foldl (λ acc '(term, ls), last ← acc; if go_len (ls : list Z) >? 1 then Exit else Ret (if term >? last then term else last)) (Ret (-1)) leaders.

(** [reads it i] is what iteration [it] reads of server [i]. *)
Fixpoint checkOneLeader_loop (iters it k : nat) (reads : nat → Z → outcome (option (Z * bool))) : outcome Z :=
  match iters with
  | O => Exit
  | S iters' =>
      leaders ← collect_leaders k (reads it);
      lastTermWithLeader ← last_term (map_to_list leaders);
      if decide (leaders = ∅) then checkOneLeader_loop iters' (S it) k reads
      else slice_get (default [] (leaders !! lastTermWithLeader)) 0
  end.
Definition checkOneLeader (k : nat) (reads : nat → Z → outcome (option (Z * bool))) : outcome Z := checkOneLeader_loop 10 0 k reads.

Definition checkTerms (k : nat) (reads : Z → outcome (option (Z * bool))) : outcome Z :=
  for_range k 0 (λ i term,
    s ← reads i;
    match s with
    | Some (xterm, _) => if term =? -1 then Ret xterm else if negb (term =? xterm) then Exit else Ret term
    | None => Ret term
    end) (-1).

Definition checkNoLeader (k : nat) (reads : Z → outcome (option (Z * bool))) : outcome unit :=
  for_range k 0 (λ i u, s ← reads i; match s with Some (_, true) => Exit | _ => Ret u end) tt.

(** ** Counting commits *)

(** [reads]: for each server the error of its applier and its log. *)
Fixpoint nCommitted_loop (reads : list (string * gmap Z iface)) (index : Z) (count : Z) (cmd : iface) : outcome (Z * iface) :=
  match reads with
  | [] => Ret (count, cmd)
  | (applyErr, lg) :: reads' =>
      if decide (applyErr ≠ EmptyString) then Exit
      else match lg !! index with
           | Some cmd1 => if (count >? 0) && bool_decide (cmd ≠ cmd1) then Exit else nCommitted_loop reads' index (count + 1) cmd1
           | None => nCommitted_loop reads' index count cmd
           end
  end.
Definition nCommitted (reads : list (string * gmap Z iface)) (index : Z) : outcome (Z * iface) := nCommitted_loop reads index 0 None.

(** The reads of [nCommitted] in one state. *)
Definition commit_reads (c : config) : list (string * gmap Z iface) := zip (applyErr c) (logs c).

(** [-1] because a later term was seen, or the command. *)
Inductive waited := WaitMoved | WaitCmd (cmd : iface).

(** [obs it]: what [nCommitted] reads in iteration [it], and the terms of
    [cfg.rafts] ([None] is a nil pointer); [final] is the last read.  [to] is in
    milliseconds and the result carries the time slept. *)
Fixpoint moved_on (terms : list (option Z)) (startTerm : Z) : outcome bool :=
  match terms with
  | [] => Ret false
  | None :: _ => Panic
  | Some t :: terms' => if t >? startTerm then Ret true else moved_on terms' startTerm
  end.

Fixpoint wait_loop (iters it : nat) (to slept : Z) (index k startTerm : Z) (obs : nat → list (string * gmap Z iface) * list (option Z)) : outcome (bool * Z) :=
  match iters with
  | O => Ret (false, slept)
  | S iters' =>
      '(nd, _) ← nCommitted (obs it).1 index;
      if nd >=? k then Ret (false, slept)
      else
        let slept := slept + to in
        let to := if to <? 1000 then to * 2 else to in
        moved ← (if startTerm >? -1 then moved_on (obs it).2 startTerm else Ret false);
        if (moved : bool) then Ret (true, slept) else wait_loop iters' (S it) to slept index k startTerm obs
  end.

Definition wait (index k startTerm : Z) (obs : nat → list (string * gmap Z iface) * list (option Z)) (final : list (string * gmap Z iface)) :
    outcome (waited * Z) :=
  '(moved, slept) ← wait_loop 30 0 10 0 index k startTerm obs;
  if (moved : bool) then Ret (WaitMoved, slept)
  else '(nd, cmd) ← nCommitted final index;
       if nd <? k then Exit else Ret (WaitCmd cmd, slept).

(** ** Agreement on one command *)

(** One round of the outer loop of [one]: whether the test was already finished,
    what each server answers to [Start] ([None]: not connected or not running), and
    what each poll within the two seconds reads. *)
Record attempt := mkAttempt { a_finished : bool; a_start : Z → option (Z * bool); a_polls : list (list (string * gmap Z iface)) }.

(** The inner loop over the servers: the index or -1, and [starts]. *)
Fixpoint try_servers (rounds : nat) (k starts : Z) (start : Z → option (Z * bool)) : Z * Z :=
  match rounds with
  | O => (-1, starts)
  | S rounds' =>
      let starts := Z.rem (starts + 1) k in
      match start starts with
      | Some (index1, true) => (index1, starts)
      | _ => try_servers rounds' k starts start
      end
  end.

Fixpoint poll (polls : list (list (string * gmap Z iface))) (index expectedServers : Z) (cmd : iface) : outcome bool :=
  match polls with
  | [] => Ret false
  | reads :: polls' =>
      '(nd, cmd1) ← nCommitted reads index;
      if (nd >? 0) && (nd >=? expectedServers) && bool_decide (cmd1 = cmd) then Ret true else poll polls' index expectedServers cmd
  end.

(** [late] is whether the test is finished when the ten seconds are over. *)
Fixpoint one_loop (attempts : list attempt) (k : nat) (starts : Z) (cmd : iface) (expectedServers : Z) (retry late : bool) : outcome Z :=
  match attempts with
  | [] => if late then Ret (-1) else Exit
  | a :: attempts' =>
      if a_finished a then Ret (-1)
      else
        let '(index, starts) := try_servers k (Z.of_nat k) starts (a_start a) in
        if negb (index =? -1) then
          ok ← poll (a_polls a) index expectedServers cmd;
          if (ok : bool) then Ret index
          else if negb retry then Exit
          else one_loop attempts' k starts cmd expectedServers retry late
        else one_loop attempts' k starts cmd expectedServers retry late
  end.
Definition one (attempts : list attempt) (k : nat) (cmd : iface) (expectedServers : Z) (retry late : bool) : outcome Z :=
  one_loop attempts k 0 cmd expectedServers retry late.

(** ** The appliers *)

(** The value server [j] has applied at an index. *)
Definition applied (c : config) (j : nat) (idx : Z) : option iface := lg ← logs c !! j; lg !! idx.

(** No two servers have applied different commands at an index, and no server has
    applied an index without the one before. *)
Record consistent (c : config) : Prop := {
  co_agree : ∀ i j idx v w, applied c i idx = Some v → applied c j idx = Some w → v = w;
  co_order : ∀ i idx, 1 < idx → is_Some (applied c i idx) → is_Some (applied c i (idx - 1))
}.

(** What [applier] accepts, and what it then does. *)
Definition acceptable (i : nat) (m : ApplyMsg) (c : config) : Prop :=
  (∀ j v, applied c j (CommandIndex m) = Some v → v = Command m) ∧ (1 < CommandIndex m → is_Some (applied c i (CommandIndex m - 1))).

Definition record (i : nat) (m : ApplyMsg) (c : config) : config :=
  set_logs (<[i := <[CommandIndex m := Command m]> (default ∅ (logs c !! i))]> (logs c)) (Z.max (CommandIndex m) (maxIndex c)) c.

Lemma checkLogs_spec i m c : (i < length (logs c))%nat → ∃ err,
  checkLogs (Z.of_nat i) m c = Ret (err, bool_decide (is_Some (applied c i (CommandIndex m - 1))), record i m c) ∧
  (err = None ↔ ∀ j v, applied c j (CommandIndex m) = Some v → v = Command m).
Proof.
  intros Hi. unfold checkLogs. destruct (lookup_lt_is_Some_2 (logs c) i Hi) as [lg Hlg].
  destruct (for_range_inv (λ k err, err = None ↔ ∀ j v, (j < k)%nat → applied c j (CommandIndex m) = Some v → v = Command m)
    (λ j err, lg ← slice_get (logs c) j;
       match lg !! CommandIndex m with
       | Some old => if decide (old ≠ Command m) then _ ← slice_get (logs c) (Z.of_nat i); Ret (Some j) else Ret err
       | None => Ret err
       end) (length (logs c)) 0 None) as (err & Herr & Hspec).
  { split; [lia|done]. }
  { intros k e Hk He. destruct (lookup_lt_is_Some_2 (logs c) k) as [lk Hlk]; [lia|]. rewrite !slice_get_nat, Hlk, Hlg. cbn [mbind outcome_bind].
    assert (Hap : applied c k (CommandIndex m) = lk !! CommandIndex m) by (unfold applied; by rewrite Hlk).
    destruct (lk !! CommandIndex m) as [old|] eqn:Eo; [destruct (decide (old ≠ Command m)) as [Hne|Heq]|]; eexists; (split; [reflexivity|]).
    - split; [done|]. intros Hall. exfalso. apply Hne. by apply (Hall k old); [lia|].
    - rewrite He. split; intros Hall j v Hj Hv; [|by apply (Hall j v); [lia|]]. destruct (decide (j = k)) as [->|]; [|by apply (Hall j v); [lia|]].
      apply dec_stable in Heq. congruence.
    - rewrite He. split; intros Hall j v Hj Hv; [|by apply (Hall j v); [lia|]]. destruct (decide (j = k)) as [->|]; [congruence|by apply (Hall j v); [lia|]]. }
  change 0 with (Z.of_nat 0) at 1. rewrite Herr. cbn [mbind outcome_bind]. rewrite slice_get_nat, Hlg. cbn [mbind outcome_bind].
  rewrite slice_set_ok, Nat2Z.id by (unfold go_len; lia). cbn [mbind outcome_bind]. exists err. split.
  - unfold record, applied. rewrite Hlg. simpl. do 3 f_equal. destruct (Z.gtb_spec (CommandIndex m) (maxIndex c)); lia.
  - rewrite Hspec. simpl. split; intros Hall j v; [|by eauto]. intros Hv. apply (Hall j v); [|done].
    unfold applied in Hv. destruct (logs c !! j) eqn:E; [|done]. by eapply lookup_lt_Some.
Qed.

(** The complete behaviour of [applier]. *)
Lemma applier_spec i m c : (i < length (logs c))%nat →
  (CommandValid m = false → applier (Z.of_nat i) m c = Ret c) ∧
  (CommandValid m = true → acceptable i m c → applier (Z.of_nat i) m c = Ret (record i m c)) ∧
  (CommandValid m = true → ¬ acceptable i m c → applier (Z.of_nat i) m c = Exit).
Proof.
  intros Hi. unfold applier. destruct (checkLogs_spec i m c Hi) as (err & -> & Herr).
  split; [by intros ->|]. split; intros Hv; rewrite Hv; cbn [negb mbind outcome_bind].
  - intros [Ha Ho]. rewrite (proj2 Herr Ha). rewrite (bool_decide_false (is_Some None)) by by intros []. rewrite orb_false_r.
    destruct (Z.gtb_spec (CommandIndex m) 1) as [Hlt|]; [|done]. by rewrite bool_decide_true by by apply Ho.
  - intros Hna. destruct ((CommandIndex m >? 1) && negb (bool_decide (is_Some (applied c i (CommandIndex m - 1))))) eqn:E; [done|].
    destruct err as [j|]; [done|]. exfalso. apply Hna. split; [by apply Herr|]. intros Hlt. apply andb_false_iff in E as [E|E]; [lia|].
    apply negb_false_iff in E. by apply bool_decide_eq_true in E.
Qed.

Lemma applied_record i m c j idx : (i < length (logs c))%nat →
  applied (record i m c) j idx = if decide (j = i ∧ idx = CommandIndex m) then Some (Command m) else applied c j idx.
Proof.
  intros Hi. unfold applied, record. simpl. destruct (decide (j = i)) as [->|Hne].
  - rewrite list_lookup_insert_eq by done. simpl. destruct (lookup_lt_is_Some_2 (logs c) i Hi) as [lg Hlg]. rewrite Hlg. simpl.
    destruct (decide (idx = CommandIndex m)) as [->|Hx]; [rewrite lookup_insert_eq, decide_True; done|].
    rewrite lookup_insert_ne by done. by rewrite decide_False by tauto.
  - rewrite list_lookup_insert_ne by done. by rewrite decide_False by tauto.
Qed.

Lemma record_consistent i m c : consistent c → (i < length (logs c))%nat → acceptable i m c →
  consistent (record i m c) ∧ ∀ j idx v, applied c j idx = Some v → applied (record i m c) j idx = Some v.
Proof.
  intros [Hag Hor] Hi [Hv Ho]. assert (Hmono : ∀ j idx v, applied c j idx = Some v → applied (record i m c) j idx = Some v).
  { intros j idx v Hj. rewrite applied_record by done. case_decide as Hd; [|done]. destruct Hd as [-> ->]. by rewrite (Hv i v Hj). }
  split; [|done]. split.
  - intros a b idx v w. rewrite !applied_record by done. repeat case_decide; intros Ha Hb; destruct_and?; simplify_eq;
      first [done|by eapply Hag|by eapply Hv|symmetry; by eapply Hv].
  - intros a idx Hidx Ha. destruct (decide (a = i ∧ idx = CommandIndex m)) as [[-> ->]|Hne].
    + destruct (Ho Hidx) as [w Hw]. exists w. by apply Hmono.
    + rewrite applied_record, decide_False in Ha by done. destruct (Hor a idx Hidx Ha) as [w Hw]. exists w. by apply Hmono.
Qed.

(** The messages read by the appliers of all servers, in the order they are
    handled. *)
Fixpoint run_appliers (ms : list (nat * ApplyMsg)) (c : config) : outcome config :=
  match ms with
  | [] => Ret c
  | (i, m) :: ms' => c' ← applier (Z.of_nat i) m c; run_appliers ms' c'
  end.

Lemma applier_step i m c c' : consistent c → (i < length (logs c))%nat → applier (Z.of_nat i) m c = Ret c' →
  consistent c' ∧ length (logs c') = length (logs c) ∧ (∀ j idx v, applied c j idx = Some v → applied c' j idx = Some v) ∧
  (CommandValid m = true → applied c' i (CommandIndex m) = Some (Command m)).
Proof.
  intros Hco Hi Ha. destruct (applier_spec i m c Hi) as (H1 & H2 & H3). destruct (CommandValid m).
  - assert (Hacc : acceptable i m c).
    { assert (Hn : ¬ ¬ acceptable i m c) by (intros Hn; rewrite (H3 eq_refl Hn) in Ha; done).
      split; [intros j v Hj|intros Hlt]; apply dec_stable; intros Hne; apply Hn; intros [Hx Hy]; [by apply Hne, (Hx j)|by apply Hne, Hy]. }
    rewrite (H2 eq_refl Hacc) in Ha. injection Ha as <-. destruct (record_consistent i m c Hco Hi Hacc) as [? ?].
    split; [done|]. split; [unfold record; simpl; by rewrite length_insert|]. split; [done|]. intros _. rewrite applied_record by done. by rewrite decide_True.
  - rewrite H1 in Ha by done. injection Ha as <-. done.
Qed.

Lemma run_appliers_spec ms c c' : consistent c → Forall (λ im, (im.1 < length (logs c))%nat) ms → run_appliers ms c = Ret c' →
  consistent c' ∧ length (logs c') = length (logs c) ∧ (∀ j idx v, applied c j idx = Some v → applied c' j idx = Some v) ∧
  (∀ i m, (i, m) ∈ ms → CommandValid m = true → applied c' i (CommandIndex m) = Some (Command m)).
Proof.
  revert c. induction ms as [|[i m] ms IH]; intros c Hco Hms Hr; simpl in Hr.
  { injection Hr as <-. split_and!; try done. by intros i m ?%elem_of_nil. }
  apply Forall_cons in Hms as [Hi Hms]. simpl in Hi. apply bind_Ret_inv in Hr as (c1 & H1 & Hr).
  destruct (applier_step i m c c1 Hco Hi H1) as (Hco1 & Hl1 & Hm1 & Hv1). destruct (IH c1 Hco1) as (Hco' & Hl' & Hm' & Hv'); [by rewrite Hl1|done|].
  split; [done|]. split; [congruence|]. split; [eauto|]. intros i' m' [[= -> ->]|Hin]%elem_of_cons Hval; [|by apply Hv']. by apply Hm', Hv1.
Qed.

Lemma blank_consistent k now : consistent (blank_config k now).
Proof.
  assert (Hn : ∀ i idx, applied (blank_config k now) i idx = None).
  { intros i idx. unfold applied. simpl. destruct (replicate k ∅ !! i) as [lg|] eqn:E; [|done]. apply lookup_replicate_1 in E as [-> _]. simpl.
    by rewrite lookup_empty. }
  split; [intros i j idx v w; by rewrite Hn|]. intros i idx _. rewrite Hn. by intros [].
Qed.

(** ** Counting *)

(** The values the reads show at an index. *)
Definition seen (reads : list (string * gmap Z iface)) (index : Z) : list iface := omap (λ '(_, lg), lg !! index) reads.

Lemma seen_cons e lg reads index : seen ((e, lg) :: reads) index = match lg !! index with Some w => w :: seen reads index | None => seen reads index end.
Proof. done. Qed.

Lemma nCommitted_loop_ok reads index count cmd v : Forall (λ r : string * gmap Z iface, r.1 = EmptyString) reads → 0 ≤ count → (0 < count → cmd = v) →
  Forall (λ w, w = v) (seen reads index) →
  nCommitted_loop reads index count cmd = Ret (count + Z.of_nat (length (seen reads index)), match seen reads index with [] => cmd | _ => v end).
Proof.
  revert count cmd. induction reads as [|[e lg] reads IH]; intros count cmd He Hc Hv Hall; [simpl; by rewrite Z.add_0_r|]. cbn [nCommitted_loop].
  apply Forall_cons in He as [He0 He]. simpl in He0. subst e. rewrite decide_False by (intros Hx; by apply Hx).
  rewrite seen_cons in Hall |- *. destruct (lg !! index) as [w|] eqn:E; [|by apply IH].
  apply Forall_cons in Hall as [-> Hall]. replace ((count >? 0) && bool_decide (cmd ≠ v)) with false.
  - rewrite IH by (done || lia). rewrite length_cons. f_equal. f_equal; [lia|]. by destruct (seen reads index).
  - destruct (Z.gtb_spec count 0); [|done]. rewrite Hv by lia. by rewrite bool_decide_false by (intros Hx; by apply Hx).
Qed.

Lemma nCommitted_loop_inv reads index count cmd nd v : 0 ≤ count → nCommitted_loop reads index count cmd = Ret (nd, v) →
  nd = count + Z.of_nat (length (seen reads index)) ∧ (0 < count → v = cmd) ∧ Forall (λ w, w = v) (seen reads index).
Proof.
  revert count cmd. induction reads as [|[e lg] reads IH]; intros count cmd Hc Hr; simpl in Hr.
  { injection Hr as <- <-. split; [simpl; lia|]. by split. }
  case_decide; [done|]. rewrite seen_cons. destruct (lg !! index) as [w|] eqn:E; [|by apply IH].
  destruct ((count >? 0) && bool_decide (cmd ≠ w)) eqn:Ec; [done|]. apply IH in Hr as (-> & Hw & Hall); [|lia].
  assert (v = w) as -> by (apply Hw; lia). split; [rewrite length_cons; lia|]. split; [|by apply Forall_cons].
  intros Hlt. apply andb_false_iff in Ec as [Ec|Ec]; [lia|]. apply bool_decide_eq_false in Ec. by apply dec_stable in Ec.
Qed.

Lemma seen_applied c reads index w :
  Forall2 (λ (r : string * gmap Z iface) lg, r.1 = EmptyString ∧ r.2 ⊆ lg) reads (logs c) → w ∈ seen reads index → ∃ i, applied c i index = Some w.
Proof.
  intros Hr. unfold seen, applied. rewrite list_elem_of_omap. intros ([e lg] & Hin & Hw). apply list_elem_of_lookup in Hin as [i Hi].
  destruct (Forall2_lookup_l _ _ _ _ _ Hr Hi) as (lg' & Hlg' & _ & Hsub). exists i. rewrite Hlg'. simpl. by eapply lookup_weaken.
Qed.

(** ** The rounds of one *)

Lemma rem_rem_add k a b : 0 < k → 0 ≤ a → 0 ≤ b → Z.rem (Z.rem a k + b) k = Z.rem (a + b) k.
Proof.
  intros Hk Ha Hb. pose proof (Z.mod_pos_bound a k). rewrite (Z.rem_mod_nonneg a k), !Z.rem_mod_nonneg by lia. apply Zplus_mod_idemp_l.
Qed.

Lemma try_servers_result rounds k starts start index st : 0 < k → 0 ≤ starts → try_servers rounds k starts start = (index, st) →
  0 ≤ st ∧ (index = -1 ∨ 0 ≤ st < k ∧ start st = Some (index, true)).
Proof.
  intros Hk. revert starts. induction rounds as [|r IH]; intros starts Hs; simpl; [intros [= <- <-]; split; [done|by left]|].
  assert (Hb : 0 ≤ Z.rem (starts + 1) k < k) by (rewrite Z.rem_mod_nonneg by lia; apply Z.mod_pos_bound; lia).
  destruct (start (Z.rem (starts + 1) k)) as [[idx []]|] eqn:E; [|apply IH; lia..]. intros [= <- <-]. split; [lia|]. by right.
Qed.

(** A leader within reach of the remaining rounds is found. *)
Lemma try_servers_reaches rounds k starts start d idx : 0 < k → 0 ≤ starts → (d < rounds)%nat →
  start (Z.rem (starts + Z.of_nat d + 1) k) = Some (idx, true) →
  ∃ s idx', 0 ≤ s < k ∧ start s = Some (idx', true) ∧ try_servers rounds k starts start = (idx', s).
Proof.
  intros Hk. revert starts d. induction rounds as [|r IH]; intros starts d Hs Hd Hst; [lia|]. simpl.
  assert (Hb : 0 ≤ Z.rem (starts + 1) k < k) by (rewrite Z.rem_mod_nonneg by lia; apply Z.mod_pos_bound; lia).
  destruct (start (Z.rem (starts + 1) k)) as [[idx' []]|] eqn:E; [by eexists _, _| |].
  all: destruct d as [|d]; [rewrite Z.add_0_r in Hst; congruence|].
  all: apply (IH _ d); [lia|lia|]; rewrite <-Hst; f_equal; rewrite <-!Z.add_assoc, rem_rem_add by lia; f_equal; lia.
Qed.

(** All servers are tried in [k] rounds. *)
Lemma try_servers_finds (k : nat) starts start s idx : 0 ≤ starts → 0 ≤ s < Z.of_nat k → start s = Some (idx, true) →
  ∃ s' idx', 0 ≤ s' < Z.of_nat k ∧ start s' = Some (idx', true) ∧ try_servers k (Z.of_nat k) starts start = (idx', s').
Proof.
  intros Hst Hs E. apply (try_servers_reaches k (Z.of_nat k) starts start (Z.to_nat ((s - starts - 1) mod Z.of_nat k)) idx); [lia|done| |].
  - pose proof (Z.mod_pos_bound (s - starts - 1) (Z.of_nat k)). lia.
  - rewrite Z2Nat.id by (apply Z.mod_pos_bound; lia). rewrite <-E. f_equal.
    rewrite Z.rem_mod_nonneg by (pose proof (Z.mod_pos_bound (s - starts - 1) (Z.of_nat k)); lia).
    replace (starts + (s - starts - 1) mod Z.of_nat k + 1) with ((s - starts - 1) mod Z.of_nat k + (starts + 1)) by lia.
    rewrite Zplus_mod_idemp_l. replace (s - starts - 1 + (starts + 1)) with s by lia. by apply Z.mod_small.
Qed.

Lemma poll_true polls index k cmd : poll polls index k cmd = Ret true →
  ∃ reads nd, reads ∈ polls ∧ nCommitted reads index = Ret (nd, cmd) ∧ 0 < nd ∧ k ≤ nd.
Proof.
  induction polls as [|reads polls IH]; simpl; [done|]. intros Hp. apply bind_Ret_inv in Hp as ([nd cmd1] & Hn & Hp).
  destruct ((nd >? 0) && (nd >=? k) && bool_decide (cmd1 = cmd)) eqn:E.
  - apply andb_true_iff in E as [[? ?]%andb_true_iff Hc]. apply bool_decide_eq_true in Hc as ->. exists reads, nd.
    split; [apply elem_of_cons; by left|]. split; [done|]. lia.
  - destruct (IH Hp) as (r & nd' & Hin & Hr). exists r, nd'. split; [apply elem_of_cons; by right|done].
Qed.

Lemma one_loop_result attempts (k : nat) starts cmd e retry late index : (0 < k)%nat → 0 ≤ starts →
  one_loop attempts k starts cmd e retry late = Ret index → index ≠ -1 →
  ∃ a s reads nd, a ∈ attempts ∧ 0 ≤ s < Z.of_nat k ∧ a_start a s = Some (index, true) ∧ reads ∈ a_polls a ∧
    nCommitted reads index = Ret (nd, cmd) ∧ 0 < nd ∧ e ≤ nd.
Proof.
  intros Hk. revert starts. induction attempts as [|a attempts IH]; intros starts Hs Hr Hne; simpl in Hr; [destruct late; congruence|].
  destruct (a_finished a); [congruence|]. destruct (try_servers k (Z.of_nat k) starts (a_start a)) as [idx st] eqn:Et.
  assert (Hk' : 0 < Z.of_nat k) by lia. destruct (try_servers_result _ _ _ _ _ _ Hk' Hs Et) as [Hst Hidx].
  assert (Hrest : one_loop attempts k st cmd e retry late = Ret index → ∃ a0 s reads nd, a0 ∈ a :: attempts ∧ 0 ≤ s < Z.of_nat k ∧
    a_start a0 s = Some (index, true) ∧ reads ∈ a_polls a0 ∧ nCommitted reads index = Ret (nd, cmd) ∧ 0 < nd ∧ e ≤ nd).
  { intros Hl. destruct (IH st Hst Hl Hne) as (a0 & s & reads & nd & Hin & Hrest). exists a0, s, reads, nd. split; [apply elem_of_cons; by right|done]. }
  destruct (Z.eqb_spec idx (-1)) as [->|Hidx1]; [by apply Hrest|]. simpl in Hr. apply bind_Ret_inv in Hr as (ok & Hp & Hr).
  destruct ok; [|destruct retry; [by apply Hrest|done]]. injection Hr as <-. destruct Hidx as [?|[Hb Hst1]]; [done|].
  destruct (poll_true _ _ _ _ Hp) as (reads & nd & Hin & Hn & ? & ?). exists a, st, reads, nd. split; [apply elem_of_cons; by left|done].
Qed.

(** ** Leaders *)

(** The servers below [k] that a reading [r] shows as leader of term [t]. *)
Definition leading (r : Z → option (Z * bool)) (k : nat) (t : Z) : list Z := filter (λ i, r i = Some (t, true)) (Z.of_nat <$> seq 0 k).

Lemma elem_of_leading r k t i : i ∈ leading r k t ↔ 0 ≤ i < Z.of_nat k ∧ r i = Some (t, true).
Proof.
  unfold leading. rewrite list_elem_of_filter, list_elem_of_fmap. split.
  - intros (Hr & j & -> & Hj%elem_of_seq). split; [lia|done].
  - intros [Hi Hr]. split; [done|]. exists (Z.to_nat i). split; [lia|]. apply elem_of_seq. lia.
Qed.

Lemma leading_NoDup r k t : NoDup (leading r k t).
Proof. apply NoDup_filter, NoDup_fmap_2; [apply _|apply NoDup_seq]. Qed.

Lemma collect_leaders_spec k reads r : (∀ i, 0 ≤ i < Z.of_nat k → reads i = Ret (r i)) →
  ∃ m, collect_leaders k reads = Ret m ∧ ∀ t, m !! t = match leading r k t with [] => None | l => Some l end.
Proof.
  intros Hr. unfold collect_leaders.
  apply (for_range_inv (λ j (m : gmap Z (list Z)), ∀ t, m !! t = match leading r j t with [] => None | l => Some l end) _ k 0 ∅); [done|].
  intros j m Hj Hm. rewrite Hr by lia. cbn [mbind outcome_bind].
  assert (Hs : ∀ t, leading r (S j) t = (leading r j t ++ (if decide (r (Z.of_nat j) = Some (t, true)) then [Z.of_nat j] else []))%list).
  { intros t. unfold leading. rewrite seq_S, fmap_app, filter_app. f_equal. }
  destruct (r (Z.of_nat j)) as [[term []]|] eqn:Erj.
  - eexists. split; [reflexivity|]. intros t. rewrite Hs. destruct (decide (term = t)) as [->|Hne].
    + rewrite lookup_insert_eq, decide_True, Hm by done. by destruct (leading r j t).
    + rewrite lookup_insert_ne, decide_False, app_nil_r by congruence. apply Hm.
  - eexists. split; [reflexivity|]. intros t. rewrite Hs, decide_False, app_nil_r by congruence. apply Hm.
  - eexists. split; [reflexivity|]. intros t. rewrite Hs, decide_False, app_nil_r by congruence. apply Hm.
Qed.

Lemma last_term_from l acc :
  let body := λ (acc : outcome Z) '(term, ls), last ← acc; if go_len (ls : list Z) >? 1 then Exit else Ret (if term >? last then term else last) in
  (foldl body (Ret acc) l = Exit ∧ ∃ t ls, (t, ls) ∈ l ∧ (1 < length ls)%nat) ∨
  ∃ T, foldl body (Ret acc) l = Ret T ∧ (∀ t ls, (t, ls) ∈ l → (length ls ≤ 1)%nat ∧ t ≤ T) ∧ acc ≤ T ∧ (T = acc ∨ ∃ ls, (T, ls) ∈ l).
Proof.
  intros body. assert (HE : ∀ l, foldl body Exit l = Exit) by (clear; induction l as [|[t ls] l IH]; simpl; done).
  revert acc. induction l as [|[t ls] l IH]; intros acc; cbn [foldl].
  - right. exists acc. split; [done|]. split; [by intros t ls ?%elem_of_nil|]. split; [lia|by left].
  - assert (Hb : body (Ret acc) (t, ls) = if go_len ls >? 1 then Exit else Ret (if t >? acc then t else acc)) by done. rewrite Hb. clear Hb.
    destruct (Z.gtb_spec (go_len ls) 1) as [Hlen|Hlen]; unfold go_len in Hlen.
    { left. rewrite HE. split; [done|]. exists t, ls. split; [apply elem_of_cons; by left|lia]. }
    destruct (IH (if t >? acc then t else acc)) as [[HEx (t' & ls' & Hin & ?)]|(T & HT & Hall & Hge & Hcase)].
    + left. split; [done|]. exists t', ls'. split; [apply elem_of_cons; by right|done].
    + right. exists T. split; [done|]. destruct (Z.gtb_spec t acc).
      * split; [intros t' ls' [[= -> ->]|Hin]%elem_of_cons; [lia|by apply Hall]|]. split; [lia|]. right.
        destruct Hcase as [->|[ls' Hin]]; [exists ls|exists ls']; apply elem_of_cons; auto.
      * split; [intros t' ls' [[= -> ->]|Hin]%elem_of_cons; [lia|by apply Hall]|]. split; [lia|].
        destruct Hcase as [->|[ls' Hin]]; [by left|right; exists ls'; apply elem_of_cons; auto].
Qed.

Definition quiet (r : Z → option (Z * bool)) (k : nat) : Prop := ∀ i t, 0 ≤ i < Z.of_nat k → r i ≠ Some (t, true).
Definition split_vote (r : Z → option (Z * bool)) (k : nat) : Prop :=
  ∃ i j t, 0 ≤ i < Z.of_nat k ∧ 0 ≤ j < Z.of_nat k ∧ i ≠ j ∧ r i = Some (t, true) ∧ r j = Some (t, true).
(** [x] is the leader with the greatest term, and no term has two. *)
Definition one_leader (r : Z → option (Z * bool)) (k : nat) (x : Z) : Prop :=
  0 ≤ x < Z.of_nat k ∧ ¬ split_vote r k ∧ ∃ T, r x = Some (T, true) ∧ ∀ i t, 0 ≤ i < Z.of_nat k → r i = Some (t, true) → t ≤ T.

(** One iteration of [checkOneLeader]. *)
Lemma leader_iteration k reads r m : (∀ i t, 0 ≤ i < Z.of_nat k → r i = Some (t, true) → 0 ≤ t) → collect_leaders k reads = Ret m →
  (∀ t, m !! t = match leading r k t with [] => None | l => Some l end) →
  (last_term (map_to_list m) = Exit ∧ split_vote r k) ∨
  (∃ T, last_term (map_to_list m) = Ret T ∧ m = ∅ ∧ quiet r k) ∨
  (∃ T x, last_term (map_to_list m) = Ret T ∧ m ≠ ∅ ∧ slice_get (default [] (m !! T)) 0 = Ret x ∧ one_leader r k x).
Proof.
  intros Hpos _ Hm.
  assert (Hlead : ∀ t i, 0 ≤ i < Z.of_nat k → r i = Some (t, true) → ∃ l, m !! t = Some l ∧ i ∈ l ∧ l = leading r k t).
  { intros t i Hi Hr. assert (Hin : i ∈ leading r k t) by by apply elem_of_leading. exists (leading r k t). rewrite Hm.
    by destruct (leading r k t); [apply elem_of_nil in Hin|]. }
  assert (Hback : ∀ t l, m !! t = Some l → l = leading r k t ∧ l ≠ []) by (intros t l; rewrite Hm; destruct (leading r k t); naive_solver).
  destruct (last_term_from (map_to_list m) (-1)) as [[HE (t & l & Hin & Hlen)]|(T & HT & Hall & Hge & Hcase)]; cbn zeta in *.
  - left. split; [exact HE|]. apply elem_of_map_to_list in Hin. destruct (Hback t l Hin) as [-> _].
    destruct (leading r k t) as [|i [|j l]] eqn:El; [simpl in Hlen; lia..|]. pose proof (leading_NoDup r k t) as Hnd. rewrite El in Hnd.
    destruct (proj1 (elem_of_leading r k t i)) as [Hi Hri]; [rewrite El; set_solver|].
    destruct (proj1 (elem_of_leading r k t j)) as [Hj Hrj]; [rewrite El; set_solver|].
    exists i, j, t. split; [done|]. split; [done|]. split; [|done]. intros ->. apply NoDup_cons in Hnd as [Hn _]. set_solver.
  - right. destruct (decide (m = ∅)) as [->|Hne].
    + left. exists T. split; [exact HT|]. split; [done|]. intros i t Hi Hr. by destruct (Hlead t i Hi Hr) as (l & Hl & _).
    + right. destruct Hcase as [->|[l Hin]].
      { exfalso. apply Hne, map_eq. intros t. rewrite lookup_empty. destruct (m !! t) as [l|] eqn:E; [|done]. exfalso.
        destruct (Hback t l E) as [-> Hl]. destruct (leading r k t) as [|i l] eqn:El; [done|].
        destruct (proj1 (elem_of_leading r k t i)) as [Hi Hr]; [rewrite El; set_solver|]. pose proof (Hpos i t Hi Hr).
        destruct (Hall t (i :: l)) as [_ ?]; [by apply elem_of_map_to_list|]. lia. }
      apply elem_of_map_to_list in Hin. destruct (Hback T l Hin) as [-> Hl]. destruct (leading r k T) as [|x l] eqn:El; [done|].
      destruct (proj1 (elem_of_leading r k T x)) as [Hx Hrx]; [rewrite El; set_solver|].
      exists T, x. split; [exact HT|]. split; [done|]. rewrite Hin. split; [done|]. split; [done|]. split.
      * intros (i & j & t & Hi & Hj & Hij & Hri & Hrj). destruct (Hlead t i Hi Hri) as (l1 & Hl1 & Hin1 & E1).
        destruct (Hlead t j Hj Hrj) as (l2 & Hl2 & Hin2 & E2). destruct (Hall t l1) as [Hlen _]; [by apply elem_of_map_to_list|].
        assert (l2 = l1) as -> by congruence. destruct l1 as [|a [|b l1]]; [set_solver|set_solver|simpl in Hlen; lia].
      * exists T. split; [done|]. intros i t Hi Hr. destruct (Hlead t i Hi Hr) as (l1 & Hl1 & _).
        apply (Hall t l1). by apply elem_of_map_to_list.
Qed.

Lemma checkOneLeader_loop_spec iters it k reads r : (∀ it i, 0 ≤ i < Z.of_nat k → reads it i = Ret (r it i)) →
  (∀ it i t, 0 ≤ i < Z.of_nat k → r it i = Some (t, true) → 0 ≤ t) →
  (∃ x d, checkOneLeader_loop iters it k reads = Ret x ∧ (it ≤ d < it + iters)%nat ∧ (∀ d', (it ≤ d' < d)%nat → quiet (r d') k) ∧ one_leader (r d) k x) ∨
  (checkOneLeader_loop iters it k reads = Exit ∧ ∀ d, (it ≤ d < it + iters)%nat → quiet (r d) k) ∨
  (checkOneLeader_loop iters it k reads = Exit ∧
     ∃ d, (it ≤ d < it + iters)%nat ∧ (∀ d', (it ≤ d' < d)%nat → quiet (r d') k) ∧ split_vote (r d) k).
Proof.
  intros Hr Hpos. revert it. induction iters as [|iters IH]; intros it; simpl; [right; left; split; [done|lia]|].
  destruct (collect_leaders_spec k (reads it) (r it) (Hr it)) as (m & Hc & Hm). rewrite Hc. cbn [mbind outcome_bind].
  destruct (leader_iteration k (reads it) (r it) m (Hpos it) Hc Hm) as [[-> Hs]|[(T & -> & -> & Hq)|(T & x & -> & Hne & Hx & Hone)]]; cbn [mbind outcome_bind].
  - right. right. split; [done|]. exists it. split; [lia|]. split; [lia|done].
  - rewrite decide_True by done.
    assert (Hq' : ∀ d', (it ≤ d')%nat → (S it ≤ d')%nat ∨ quiet (r d') k) by (intros d' Hd; destruct (decide (d' = it)) as [->|]; [by right|left; lia]).
    destruct (IH (S it)) as [(x & d & Hl & Hd & Hb & Ho)|[[Hl Hall]|(Hl & d & Hd & Hb & Hs)]].
    + left. exists x, d. split; [done|]. split; [lia|]. split; [|done]. intros d' Hd'. destruct (Hq' d') as [?|?]; [lia| |done]. apply Hb. lia.
    + right. left. split; [done|]. intros d Hd. destruct (Hq' d) as [?|?]; [lia| |done]. apply Hall. lia.
    + right. right. split; [done|]. exists d. split; [lia|]. split; [|done]. intros d' Hd'. destruct (Hq' d') as [?|?]; [lia| |done]. apply Hb. lia.
  - rewrite decide_False by done. left. exists x, it. split; [done|]. split; [lia|]. split; [lia|done].
Qed.

(** ** wait *)

(** The longest time [wait_loop] can sleep. *)
Fixpoint sleep_bound (iters : nat) (to : Z) : Z :=
  match iters with O => 0 | S iters' => to + sleep_bound iters' (if to <? 1000 then to * 2 else to) end.

Lemma sleep_bound_nonneg iters to : 0 ≤ to → 0 ≤ sleep_bound iters to.
Proof. revert to. induction iters as [|iters IH]; intros to Hto; simpl; [lia|]. pose proof (IH (if to <? 1000 then to * 2 else to)). destruct (to <? 1000); lia. Qed.

Lemma moved_on_true terms startTerm : moved_on terms startTerm = Ret true → ∃ t, Some t ∈ terms ∧ startTerm < t.
Proof.
  induction terms as [|[t|] terms IH]; simpl; try done. destruct (Z.gtb_spec t startTerm).
  - intros _. exists t. split; [apply elem_of_cons; by left|lia].
  - intros Hm. destruct (IH Hm) as (t' & Hin & ?). exists t'. split; [apply elem_of_cons; by right|done].
Qed.

Lemma wait_loop_spec iters it to slept index k startTerm obs moved s : 0 ≤ to →
  wait_loop iters it to slept index k startTerm obs = Ret (moved, s) →
  s ≤ slept + sleep_bound iters to ∧
  (moved = true → -1 < startTerm ∧ ∃ d t, (it ≤ d < it + iters)%nat ∧ Some t ∈ (obs d).2 ∧ startTerm < t).
Proof.
  revert it to slept. induction iters as [|iters IH]; intros it to slept Hto; simpl; [intros [= <- <-]; split; [lia|done]|].
  intros Hw. apply bind_Ret_inv in Hw as ([nd v] & _ & Hw). set (to' := if to <? 1000 then to * 2 else to) in *.
  assert (Hto' : 0 ≤ to') by (unfold to'; destruct (to <? 1000); lia).
  pose proof (sleep_bound_nonneg iters to' Hto') as Hsb. destruct (nd >=? k); [injection Hw as <- <-; split; [lia|done]|].
  apply bind_Ret_inv in Hw as (mv & Hmv & Hw). destruct mv.
  - injection Hw as <- <-. split; [lia|]. intros _. destruct (Z.gtb_spec startTerm (-1)); [|done]. split; [done|].
    apply moved_on_true in Hmv as (t & Hin & ?). exists it, t. split; [lia|done].
  - apply IH in Hw as [Hs Hm]; [|done]. split; [lia|]. intros Hmt. destruct (Hm Hmt) as (? & d & t & ? & ?). split; [done|]. exists d, t. split; [lia|done].
Qed.

(** ** Snapshots *)

Lemma xlog_map_lookup (xlog : list iface) x : xlog_map xlog !! x = if decide (0 ≤ x) then xlog !! Z.to_nat x else None.
Proof.
  assert (Hk : ∀ k, (k ≤ length xlog)%nat →
    foldl (λ m j, match xlog !! j with Some v => <[Z.of_nat j := v]> m | None => m end) (∅ : gmap Z iface) (seq 0 k) !! x =
    if decide (0 ≤ x < Z.of_nat k) then xlog !! Z.to_nat x else None).
  { induction k as [|k IH]; intros Hk; [rewrite decide_False by lia; apply lookup_empty|]. rewrite seq_S, foldl_app, Nat.add_0_l. cbn [foldl].
    destruct (lookup_lt_is_Some_2 xlog k) as [v Hv]; [lia|]. rewrite Hv. simpl. destruct (decide (x = Z.of_nat k)) as [->|Hne].
    - rewrite lookup_insert_eq, decide_True, Nat2Z.id by lia. done.
    - rewrite lookup_insert_ne, IH by (congruence || lia). repeat case_decide; try done; lia. }
  unfold xlog_map. rewrite Hk by done. repeat case_decide; try done; try lia. symmetry. apply lookup_ge_None_2. lia.
Qed.

Lemma snapshot_log_lookup (lg : gmap Z iface) index x : 0 ≤ x ≤ index → snapshot_log lg index !! Z.to_nat x = Some (default None (lg !! x)).
Proof. intros Hx. unfold snapshot_log. rewrite list_lookup_fmap, lookup_seqZ_lt by lia. simpl. by replace (0 + Z.of_nat (Z.to_nat x)) with x by lia. Qed.

Lemma snapshot_log_length (lg : gmap Z iface) index : 0 ≤ index → length (snapshot_log lg index) = Z.to_nat (index + 1).
Proof. intros Hi. unfold snapshot_log. by rewrite length_fmap, length_seqZ. Qed.

(** The snapshot a server writes is its log up to the index. *)
Lemma applierSnap_snapshot gob_decode gob_encode i m c c1 idx bs : (i < length (logs c))%nat → applierSnap gob_decode gob_encode (Z.of_nat i) m c = Ret (c1, Some (idx, bs)) →
  idx = CommandIndex m ∧ ∃ lg, logs c1 !! i = Some lg ∧ bs = gob_encode idx (snapshot_log lg idx).
Proof.
  intros Hi. unfold applierSnap. destruct (SnapshotValid m).
  { intros H. apply bind_Ret_inv in H as ([err c2] & _ & H). destruct err; [done|]. by injection H. }
  destruct (CommandValid m); [|by intros [= _]]. intros H. apply bind_Ret_inv in H as (la & _ & H). apply bind_Ret_inv in H as ([err c2] & Hc2 & H).
  apply bind_Ret_inv in H as (las & _ & H). apply bind_Ret_inv in H as (sn & Hsn & H). destruct err; [done|]. injection H as <- ->.
  destruct (Z.rem _ _ =? 0); [|done]. apply bind_Ret_inv in Hsn as (lg & Hlg & Hsn). injection Hsn as <- <-. split; [done|]. exists lg.
  apply slice_get_Ret in Hlg as [_ Hlg]. rewrite Nat2Z.id in Hlg. done.
Qed.


(** An error is caught.  A message that has another command than some server
    applied at the index, or that skips an index, ends the test at once; every other
    message is accepted. *)
Theorem applier_catches (i : nat) (m : ApplyMsg) (c : config) : (i < length (logs c))%nat → CommandValid m = true →
  (applier (Z.of_nat i) m c = Ret (record i m c) ↔
     (∀ j v, applied c j (CommandIndex m) = Some v → v = Command m) ∧ (1 < CommandIndex m → is_Some (applied c i (CommandIndex m - 1)))) ∧
  (applier (Z.of_nat i) m c = Exit ∨ applier (Z.of_nat i) m c = Ret (record i m c)).
Proof.
  intros Hi Hv. destruct (checkLogs_spec i m c Hi) as (err & Hc & Herr). unfold applier. rewrite Hv, Hc. cbn [negb mbind outcome_bind].
  destruct (((CommandIndex m >? 1) && negb (bool_decide (is_Some (applied c i (CommandIndex m - 1))))) || bool_decide (is_Some err)) eqn:E.
  - split; [|by left]. split; [done|]. intros [Ha Ho]. exfalso. rewrite (proj2 Herr Ha) in E.
    rewrite (bool_decide_false (is_Some None)), orb_false_r in E by by intros []. apply andb_true_iff in E as [E1 E2%negb_true_iff%bool_decide_eq_false].
    apply E2, Ho. lia.
  - split; [|by right]. split; [intros _|done]. apply orb_false_iff in E as [E1 E2%bool_decide_eq_false]. split.
    + apply Herr. destruct err; [by destruct E2; eexists|done].
    + intros Hlt. apply andb_false_iff in E1 as [?|E1%negb_false_iff%bool_decide_eq_true]; [lia|done].
Qed.

(** What a successful agreement means.  If [one] returns an index, then in some
    round a server that answered [Start] as leader gave this index, and in a poll of
    that round at least the expected number of servers had applied exactly this
    command there, and no server another one.  Every round asks the servers in turn
    and finds a server that accepts the command if there is one. *)
Theorem one_agreement (attempts : list attempt) (k : nat) (cmd : iface) (expectedServers : Z) (retry late : bool) (index : Z) :
  (0 < k)%nat → one attempts k cmd expectedServers retry late = Ret index → index ≠ -1 →
  (∃ a s reads, a ∈ attempts ∧ 0 ≤ s < Z.of_nat k ∧ a_start a s = Some (index, true) ∧ reads ∈ a_polls a ∧
     (0 < length (seen reads index))%nat ∧ expectedServers ≤ Z.of_nat (length (seen reads index)) ∧ ∀ w, w ∈ seen reads index → w = cmd) ∧
  (∀ a starts s idx, a ∈ attempts → 0 ≤ starts → 0 ≤ s < Z.of_nat k → a_start a s = Some (idx, true) →
     ∃ s' idx', 0 ≤ s' < Z.of_nat k ∧ a_start a s' = Some (idx', true) ∧ try_servers k (Z.of_nat k) starts (a_start a) = (idx', s')).
Proof.
  intros Hk Ho Hne. split.
  - destruct (one_loop_result _ _ _ _ _ _ _ _ Hk (Z.le_refl 0) Ho Hne) as (a & s & reads & nd & Ha & Hs & Hst & Hin & Hn & Hpos & He).
    apply nCommitted_loop_inv in Hn as (-> & _ & Hall); [|lia]. exists a, s, reads. split_and!; try done; [lia..|]. by apply Forall_forall.
  - intros a starts s idx _ Hst Hs E. by apply (try_servers_finds k starts (a_start a) s idx).
Qed.

(** The leader check.  When every server that is read has a term of at least 0,
    [checkOneLeader] never panics.  It returns a server exactly when, in the first of
    ten iterations that shows a leader, no term has two leaders, and then the leader
    with the greatest term; it fails when two servers lead the same term there or no
    iteration shows a leader. *)
Theorem checkOneLeader_spec (k : nat) (reads : nat → Z → outcome (option (Z * bool))) (r : nat → Z → option (Z * bool)) :
  (∀ it i, 0 ≤ i < Z.of_nat k → reads it i = Ret (r it i)) →
  (∀ it i t, 0 ≤ i < Z.of_nat k → r it i = Some (t, true) → 0 ≤ t) →
  (∃ x d, checkOneLeader k reads = Ret x ∧ (d < 10)%nat ∧ (∀ d', (d' < d)%nat → quiet (r d') k) ∧ one_leader (r d) k x) ∨
  (checkOneLeader k reads = Exit ∧ ∀ d, (d < 10)%nat → quiet (r d) k) ∨
  (checkOneLeader k reads = Exit ∧ ∃ d, (d < 10)%nat ∧ (∀ d', (d' < d)%nat → quiet (r d') k) ∧ split_vote (r d) k).
Proof.
  intros Hr Hpos. destruct (checkOneLeader_loop_spec 10 0 k reads r Hr Hpos) as [(x & d & Hl & Hd & Hb & Ho)|[[Hl Hall]|(Hl & d & Hd & Hb & Hs)]].
  - left. exists x, d. split; [exact Hl|]. split; [lia|]. split; [|done]. intros d' Hd'. apply Hb. lia.
  - right. left. split; [exact Hl|]. intros d Hd. apply Hall. lia.
  - right. right. split; [exact Hl|]. exists d. split; [lia|]. split; [|done]. intros d' Hd'. apply Hb. lia.
Qed.

(** Waiting is bounded.  [wait] sleeps at most 30.71 seconds.  It returns a
    command only when at least [k] servers have applied it at the index, and -1 only
    when it was given a term and saw a peer in a later one. *)
Theorem wait_bounded (index k startTerm : Z) (obs : nat → list (string * gmap Z iface) * list (option Z)) (final : list (string * gmap Z iface))
    (res : waited) (slept : Z) :
  wait index k startTerm obs final = Ret (res, slept) →
  slept ≤ 30710 ∧
  match res with
  | WaitCmd cmd => k ≤ Z.of_nat (length (seen final index)) ∧ ∀ w, w ∈ seen final index → w = cmd
  | WaitMoved => -1 < startTerm ∧ ∃ d t, (d < 30)%nat ∧ Some t ∈ (obs d).2 ∧ startTerm < t
  end.
Proof.
  unfold wait. intros Hw. apply bind_Ret_inv in Hw as ([moved s] & Hl & Hw). apply wait_loop_spec in Hl as [Hs Hm]; [|lia].
  change (sleep_bound 30 10) with 30710 in Hs. destruct moved.
  - injection Hw as <- <-. split; [lia|]. destruct (Hm eq_refl) as (? & d & t & ? & ?). split; [done|]. exists d, t. split; [lia|done].
  - apply bind_Ret_inv in Hw as ([nd cmd] & Hn & Hw). destruct (Z.ltb_spec nd k); [done|]. injection Hw as <- <-. split; [lia|].
    apply nCommitted_loop_inv in Hn as (-> & _ & Hall); [|lia]. split; [lia|]. by apply Forall_forall.
Qed.

(** Snapshots carry the log.  With an encoding that decodes what it encoded, the
    snapshot that a server writes after a command, delivered to any server at any
    later time, gives that server exactly the entries of the writer up to the index,
    sets its last applied index, and changes no other server. *)
Theorem snapshot_transfers (gob_decode : list Z → option (Z * list iface)) (gob_encode : Z → list iface → list Z) (i j : nat) (m : ApplyMsg) (term idx : Z) (c c1 c2 : config) (bs : list Z) :
  (∀ k xlog, gob_decode (gob_encode k xlog) = Some (k, xlog)) →
  (i < length (logs c))%nat → (j < length (logs c2))%nat → length (lastApplied c2) = length (logs c2) → 0 ≤ CommandIndex m →
  applierSnap gob_decode gob_encode (Z.of_nat i) m c = Ret (c1, Some (idx, bs)) →
  ∃ c3, applierSnap gob_decode gob_encode (Z.of_nat j) (mkApplyMsg false None 0 true (Some bs) term idx) c2 = Ret (c3, None) ∧ idx = CommandIndex m ∧
    lastApplied c3 !! j = Some idx ∧
    (∀ x, applied c3 j x = if decide (0 ≤ x ≤ idx) then Some (default None (applied c1 i x)) else None) ∧
    (∀ j' x, j' ≠ j → applied c3 j' x = applied c2 j' x).
Proof.
  intros Hgob Hi Hj Hla Hpos Ha. destruct (applierSnap_snapshot _ _ i m c c1 idx bs Hi Ha) as (-> & lg & Hlg & ->).
  unfold applierSnap. cbn [SnapshotValid Snapshot SnapshotIndex]. unfold ingestSnap. rewrite Hgob, Z.eqb_refl, andb_false_r.
  rewrite (slice_set_ok (logs c2)) by (unfold go_len; lia). cbn [mbind outcome_bind]. rewrite slice_set_ok by (unfold go_len; lia).
  cbn [mbind outcome_bind]. rewrite !Nat2Z.id. eexists. split; [reflexivity|]. split; [done|]. split; [|split].
  - simpl. apply list_lookup_insert_eq. lia.
  - intros x. unfold applied. simpl. rewrite list_lookup_insert_eq, Hlg by lia. simpl. rewrite xlog_map_lookup.
    destruct (decide (0 ≤ x ≤ CommandIndex m)).
    + rewrite decide_True by lia. by apply snapshot_log_lookup.
    + case_decide; [|done]. apply lookup_ge_None_2. rewrite snapshot_log_length by done. lia.
  - intros j' x Hne. unfold applied. simpl. by rewrite list_lookup_insert_ne.
Qed.
End RaftConfigLog.

(** ** Three servers *)

Definition cmd_msg (idx v : Z) : ApplyMsg (Cmd := Z) := mkApplyMsg true (Some v) idx false None 0 0.
Definition demo_msgs : list (nat * ApplyMsg) := [(0%nat, cmd_msg 1 50); (1%nat, cmd_msg 1 50); (0%nat, cmd_msg 2 60)].


(** A second server applies another command. *)
Lemma applier_catches_witness :
  applier 1 (cmd_msg 1 51) (record 0 (cmd_msg 1 50) (blank_config 3 0)) = Exit ∧
  (applier 1 (cmd_msg 1 51) (record 0 (cmd_msg 1 50) (blank_config 3 0)) = Exit ∨
   applier 1 (cmd_msg 1 51) (record 0 (cmd_msg 1 50) (blank_config 3 0)) = Ret (record 1 (cmd_msg 1 51) (record 0 (cmd_msg 1 50) (blank_config 3 0)))).
Proof.
  split; [vm_compute; reflexivity|].
  apply (applier_catches 1 (cmd_msg 1 51) (record 0 (cmd_msg 1 50) (blank_config 3 0))); [simpl; lia|reflexivity].
Defined.

Definition demo_reads : list (string * gmap Z (option Z)) := [(EmptyString, {[1 := Some 50]}); (EmptyString, ∅); (EmptyString, {[1 := Some 50]})].
Definition demo_attempt : attempt := mkAttempt false (λ s, if s =? 2 then Some (1, true) else Some (-1, false)) [demo_reads].

Lemma one_agreement_witness :
  one [demo_attempt] 3 (Some 50) 2 false false = Ret 1 ∧
  ∃ a s reads, a ∈ [demo_attempt] ∧ 0 ≤ s < 3 ∧ a_start a s = Some (1, true) ∧ reads ∈ a_polls a ∧
    (0 < length (seen reads 1))%nat ∧ 2 ≤ Z.of_nat (length (seen reads 1)) ∧ ∀ w, w ∈ seen reads 1 → w = Some 50.
Proof. split; [vm_compute; reflexivity|]. apply (one_agreement [demo_attempt] 3 (Some 50) 2 false false 1); [lia|vm_compute; reflexivity|lia]. Defined.

Lemma checkOneLeader_spec_witness :
  let r := λ (it : nat) (i : Z), if i =? 1 then Some (3, true) else Some (3, false) in
  checkOneLeader 3 (λ it i, Ret (r it i)) = Ret 1 ∧
  ((∃ x d, checkOneLeader 3 (λ it i, Ret (r it i)) = Ret x ∧ (d < 10)%nat ∧ (∀ d', (d' < d)%nat → quiet (r d') 3) ∧ one_leader (r d) 3 x) ∨
   (checkOneLeader 3 (λ it i, Ret (r it i)) = Exit ∧ ∀ d, (d < 10)%nat → quiet (r d) 3) ∨
   (checkOneLeader 3 (λ it i, Ret (r it i)) = Exit ∧ ∃ d, (d < 10)%nat ∧ (∀ d', (d' < d)%nat → quiet (r d') 3) ∧ split_vote (r d) 3)).
Proof.
  intros r. split; [vm_compute; reflexivity|]. apply (checkOneLeader_spec 3 (λ it i, Ret (r it i)) r); [done|].
  intros it i t _. unfold r. destruct (i =? 1); intros [= <-]. lia.
Defined.

(** The longest wait. *)
Lemma wait_bounded_witness :
  wait 1 1 0 (λ _, ([], [])) [(EmptyString, {[1 := Some 50]})] = Ret (WaitCmd (Some 50), 30710) ∧ 30710 ≤ 30710 ∧
  1 ≤ Z.of_nat (length (seen [(EmptyString, {[1 := Some 50]})] 1)) ∧ ∀ w, w ∈ seen [(EmptyString, {[1 := Some 50]})] 1 → w = Some 50.
Proof.
  split; [vm_compute; reflexivity|].
  apply (wait_bounded 1 1 0 (λ _, ([], [])) [(EmptyString, {[1 := Some 50]})] (WaitCmd (Some 50)) 30710). vm_compute. reflexivity.
Defined.

(** An encoding of snapshots of ints. *)
Fixpoint enc_list (xlog : list (option Z)) : list Z :=
  match xlog with [] => [] | None :: l => 0 :: enc_list l | Some x :: l => 1 :: x :: enc_list l end.
Definition demo_encode (k : Z) (xlog : list (option Z)) : list Z := k :: enc_list xlog.
Fixpoint dec_list (bs : list Z) : option (list (option Z)) :=
  match bs with
  | [] => Some []
  | 0 :: bs' => l ← dec_list bs'; Some (None :: l)
  | 1 :: x :: bs' => l ← dec_list bs'; Some (Some x :: l)
  | _ => None
  end.
Definition demo_decode (bs : list Z) : option (Z * list (option Z)) := match bs with [] => None | k :: bs' => l ← dec_list bs'; Some (k, l) end.

Lemma demo_gob k xlog : demo_decode (demo_encode k xlog) = Some (k, xlog).
Proof.
  unfold demo_decode, demo_encode. assert (Hl : dec_list (enc_list xlog) = Some xlog); [|by rewrite Hl].
  induction xlog as [|[x|] xlog IH]; [done| |]; simpl; by rewrite IH.
Qed.

(** Server 0 with the commands 1 to 8 applied. *)
Definition eight : config (Cmd := Z) := 
  set_lastApplied [8; 0; 0] (set_logs [list_to_map ((λ x, (x, Some (10 * x))) <$> seqZ 1 8); ∅; ∅] 8 (blank_config 3 0)).

Lemma snapshot_transfers_witness :
  ∃ c1 bs c3, applierSnap demo_decode demo_encode 0 (cmd_msg 9 90) eight = Ret (c1, Some (9, bs)) ∧
    applierSnap demo_decode demo_encode 1 (mkApplyMsg false None 0 true (Some bs) 1 9) (blank_config 3 0) = Ret (c3, None) ∧
    lastApplied c3 !! 1%nat = Some 9 ∧
    ∀ x, applied c3 1 x = if decide (0 ≤ x ≤ 9) then Some (default None (applied c1 0 x)) else None.
Proof.
  destruct (applierSnap demo_decode demo_encode 0 (cmd_msg 9 90) eight) as [[c1 [[idx bs]|]]| |] eqn:Ha; [|vm_compute in Ha; discriminate Ha..].
  destruct (snapshot_transfers demo_decode demo_encode 0 1 (cmd_msg 9 90) 1 idx eight c1 (blank_config 3 0) bs demo_gob) as (c3 & H3 & Hidx & Hla & Hx & _);
    [simpl; lia|simpl; lia|reflexivity|simpl; lia|exact Ha|].
  simpl in Hidx. subst idx. exists c1, bs, c3. split; [reflexivity|]. by split.
Defined.
