(* ===== verification/LabGob.v ===== *)
(** * Lab2_MapReduce, labgob: checks around encoding

    [labgob/labgob.go] wraps encoding/gob: before a value is encoded, decoded or
    registered it walks the value's type and complains about field names that are
    not capitalized, once per type; before decoding it looks for values that are not
    the default.  Types refer to each other through their identities, so the walk is
    over a graph that may have cycles; [checked] is the global map that stops it.
    The theorems: the walk ends, visits exactly the types that can be reached, and
    complains about each of their lower-case fields once; and which values the check
    before decoding reports. *)

From S2P Require Import Prelude.
From Stdlib Require Import Ascii.
Open Scope Z_scope.

Section LabGob.
(** Identities of types. *)
Context {tid : Type} `{Countable tid}.

(** [reflect.Kind] with what the walk uses; [KElem] is a slice, array or pointer and
    [KOther] every other kind. *)
Inductive kind := KStruct (fields : list (string * tid)) | KElem (elem : tid) | KMap (elem key : tid) | KOther.

(** The kinds of the program's types, and their names. *)
Variable types : gmap tid kind.
Variable type_name : tid → string.
(** [unicode.IsUpper] on a name that starts with a character beyond ASCII. *)
Variable upper_beyond_ascii : string → bool.

(** The empty name decodes to an error rune, which is not upper case. *)
Definition IsUpper (name : string) : bool :=
  match name with
  | EmptyString => false
  | String c _ => if (nat_of_ascii c <? 128)%nat then ((65 <=? nat_of_ascii c) && (nat_of_ascii c <=? 90))%nat else upper_beyond_ascii name
  end.

(** The global variables, and what was printed: a field and its type, or the field
    that is not the default. *)
Inductive message := LowerCase (field type : string) | NonDefault (what : string).
Record lab := mkLab { errorCount : Z; checked : gset tid; printed : list message }.

Definition kind_of (t : tid) : kind := default KOther (types !! t).

(** ** The walk over types *)

Definition mark (t : tid) (st : lab) : lab := mkLab (errorCount st) ({[t]} ∪ checked st) (printed st).
Definition complain (m : message) (st : lab) : lab := mkLab (errorCount st + 1) (checked st) (printed st ++ [m]).

(** The loop over the fields, with the recursive call as an argument. *)
Fixpoint check_fields (rec : tid → lab → option lab) (t : tid) (fs : list (string * tid)) (st : lab) : option lab :=
  match fs with
  | [] => Some st
  | (f, ft) :: fs' =>
      let st := if IsUpper f then st else complain (LowerCase f (type_name t)) st in
      st ← rec ft st; check_fields rec t fs' st
  end.

(** [None] is out of fuel. *)
Fixpoint checkType (fuel : nat) (t : tid) (st : lab) : option lab :=
  match fuel with
  | O => None
  | S fuel' =>
      if decide (t ∈ checked st) then Some st
      else
        let st := mark t st in
        match kind_of t with
        | KStruct fs => check_fields (checkType fuel') t fs st
        | KElem e => checkType fuel' e st
        | KMap e k => st ← checkType fuel' e st; checkType fuel' k st
        | KOther => Some st
        end
  end.

(** The types not walked yet, and fuel that is enough. *)
Definition unchecked (st : lab) : gset tid := dom types ∖ checked st.
Definition enough (st : lab) : nat := S (size (unchecked st)).

(** [reflect.TypeOf] of a nil interface has no kind: the call panics. *)
Definition checkValue (t : option tid) (st : lab) : outcome lab :=
  match t with
  | None => Panic
  | Some t => match checkType (enough st) t st with Some st' => Ret st' | None => Panic end
  end.

(** ** The check before decoding *)

(** Values: a scalar with its type and whether it is the zero value, a struct, a
    pointer to an object (or nil), anything else. *)
Inductive gvalue :=
| VScalar (type : string) (zero : bool)
| VStruct (fields : list (string * gvalue))
| VPtr (target : option nat)
| VOther.

Variable heap : nat → gvalue.

Definition join_name (name name1 : string) : string :=
  if decide (name = EmptyString) then name1 else (name +:+ "." +:+ name1)%string.

(** [levels] is [4 - depth]; at depth 4 the function returns. *)
Fixpoint checkDefault1 (levels : nat) (value : gvalue) (name : string) (st : lab) : lab :=
  match levels with
  | O => st
  | S levels' =>
      match value with
      | VStruct fs => foldl (λ st '(f, v), checkDefault1 levels' v (join_name name f) st) st fs
      | VPtr None => st
      | VPtr (Some a) => checkDefault1 levels' (heap a) name st
      | VScalar ty zero =>
          if zero then st
          else
            let what := if decide (name = EmptyString) then ty else name in
            mkLab (errorCount st + 1) (checked st) (if errorCount st <? 1 then (printed st ++ [NonDefault what])%list else printed st)
      | VOther => st
      end
  end.

Definition checkDefault (value : option gvalue) (st : lab) : lab :=
  match value with None => st | Some v => checkDefault1 3 v EmptyString st end.

(** ** The wrappers; [gob] is the operation of encoding/gob *)

Definition Encode {R} (gob : R) (e : option tid) (st : lab) : outcome (R * lab) := st ← checkValue e st; Ret (gob, st).
Definition Decode {R} (gob : R) (e : option (tid * gvalue)) (st : lab) : outcome (R * lab) :=
  st ← checkValue (fst <$> e) st; Ret (gob, checkDefault (snd <$> e) st).
Definition EncodeValue {R} (gob : R) (value : option tid) (st : lab) : outcome (R * lab) := st ← checkValue value st; Ret (gob, st).
Definition RegisterName {R} (gob : string → R) (name : string) (value : option tid) (st : lab) : outcome (R * lab) :=
  st ← checkValue value st; Ret (gob name, st).
Definition Register {R} (gob : R) (e : option tid) (st : lab) : outcome (R * lab) := st ← checkValue e st; Ret (gob, st).

(** ** The walk visits what can be reached *)

Definition succs (t : tid) : list tid :=
  match kind_of t with KStruct fs => fs.*2 | KElem e => [e] | KMap e k => [e; k] | KOther => [] end.
Definition refers (t u : tid) : Prop := u ∈ succs t.

(** The complaints about one type. *)
Definition field_complaints (t : tid) (fs : list (string * tid)) : list message :=
  omap (λ '(f, _), if IsUpper f then None else Some (LowerCase f (type_name t))) fs.
Definition complaints (t : tid) : list message := match kind_of t with KStruct fs => field_complaints t fs | _ => [] end.
Definition all_complaints (X : gset tid) : list message := elements X ≫= complaints.

Lemma all_complaints_union (X Y : gset tid) : X ## Y → all_complaints (X ∪ Y) ≡ₚ all_complaints X ++ all_complaints Y.
Proof. intros Hd. unfold all_complaints. rewrite elements_disj_union by done. by rewrite bind_app. Qed.

Lemma all_complaints_singleton t : all_complaints {[t]} = complaints t.
Proof. unfold all_complaints. rewrite elements_singleton. simpl. apply app_nil_r. Qed.

Lemma all_complaints_empty : all_complaints ∅ = [].
Proof. unfold all_complaints. by rewrite elements_empty. Qed.

(** What a part of the walk that starts at the types [from] did. *)
Record visited (from : list tid) (st st' : lab) : Prop := {
  vi_mono : checked st ⊆ checked st';
  vi_from : ∀ t, t ∈ from → t ∈ checked st';
  vi_reach : ∀ u, u ∈ checked st' → u ∉ checked st → ∃ t, t ∈ from ∧ rtc refers t u;
  vi_closed : ∀ u v, u ∈ checked st' → u ∉ checked st → refers u v → v ∈ checked st'
}.

(** The complaints of a part of the walk, [extra] apart. *)
Definition complained (extra : list message) (st st' : lab) : Prop :=
  printed st' ≡ₚ printed st ++ extra ++ all_complaints (checked st' ∖ checked st) ∧
  errorCount st' = errorCount st + Z.of_nat (length (extra ++ all_complaints (checked st' ∖ checked st))).

Lemma visited_nil st : visited [] st st.
Proof. split; [done|by intros t ?%elem_of_nil|done|done]. Qed.

Lemma complained_refl st : complained [] st st.
Proof. unfold complained. rewrite difference_diag_L, all_complaints_empty. simpl. rewrite app_nil_r. split; [done|lia]. Qed.

Lemma visited_app from1 from2 st1 st2 st3 : visited from1 st1 st2 → visited from2 st2 st3 → visited (from1 ++ from2) st1 st3.
Proof.
  intros [M1 F1 R1 C1] [M2 F2 R2 C2]. split.
  - set_solver.
  - intros t [?|?]%elem_of_app; [apply M2; by apply F1|by apply F2].
  - intros u Hu Hn. destruct (decide (u ∈ checked st2)) as [H2|H2].
    + destruct (R1 u H2 Hn) as (t & Ht & Hr). exists t. split; [apply elem_of_app; by left|done].
    + destruct (R2 u Hu H2) as (t & Ht & Hr). exists t. split; [apply elem_of_app; by right|done].
  - intros u v Hu Hn Hr. destruct (decide (u ∈ checked st2)) as [H2|H2]; [apply M2; by apply (C1 u v)|by apply (C2 u v)].
Qed.

Lemma complained_trans e1 e2 st1 st2 st3 : checked st1 ⊆ checked st2 → checked st2 ⊆ checked st3 →
  complained e1 st1 st2 → complained e2 st2 st3 → complained (e1 ++ e2) st1 st3.
Proof.
  intros M1 M2 [P1 E1] [P2 E2].
  assert (Hu : checked st3 ∖ checked st1 = (checked st2 ∖ checked st1) ∪ (checked st3 ∖ checked st2)).
  { apply set_eq. intros x. destruct (decide (x ∈ checked st2)); set_solver. }
  assert (Hp : all_complaints (checked st3 ∖ checked st1) ≡ₚ all_complaints (checked st2 ∖ checked st1) ++ all_complaints (checked st3 ∖ checked st2)).
  { rewrite Hu. apply all_complaints_union. set_solver. }
  split.
  - rewrite P2, P1, Hp. solve_Permutation.
  - rewrite E2, E1. rewrite !length_app, (Permutation_length Hp), length_app. lia.
Qed.

(** One complaint in front, and marking a type. *)
Lemma complained_one m st : complained [m] st (complain m st).
Proof. unfold complained, complain. simpl. by rewrite difference_diag_L, all_complaints_empty. Qed.

(** ** The walk ends *)

Lemma enough_mark t st : t ∈ dom types → t ∉ checked st → enough st = S (enough (mark t st)).
Proof.
  intros Hd Hn. unfold enough, unchecked, mark. simpl. f_equal.
  assert (Hu : dom types ∖ checked st = {[t]} ∪ (dom types ∖ ({[t]} ∪ checked st))).
  { apply set_eq. intros x. destruct (decide (x = t)); set_solver. }
  rewrite Hu, size_union, size_singleton by set_solver. done.
Qed.

Lemma enough_mono st st' : checked st ⊆ checked st' → (enough st' ≤ enough st)%nat.
Proof. intros Hs. unfold enough, unchecked. apply le_n_S, subseteq_size. set_solver. Qed.

(** A walk from [t], on enough fuel. *)
Definition walks (rec : tid → lab → option lab) (fuel : nat) : Prop :=
  ∀ t st, (enough st ≤ fuel)%nat → ∃ st', rec t st = Some st' ∧ visited [t] st st' ∧ complained [] st st'.

Lemma check_fields_spec rec fuel t fs st : walks rec fuel → (enough st ≤ fuel)%nat →
  ∃ st', check_fields rec t fs st = Some st' ∧ visited fs.*2 st st' ∧ complained (field_complaints t fs) st st'.
Proof.
  intros Hrec. revert st. induction fs as [|[f ft] fs IH]; intros st Hf; simpl.
  { exists st. split; [done|]. split; [apply visited_nil|apply complained_refl]. }
  set (st1 := if IsUpper f then st else complain (LowerCase f (type_name t)) st).
  set (e1 := if IsUpper f then [] else [LowerCase f (type_name t)]).
  assert (H1 : checked st1 = checked st ∧ complained e1 st st1).
  { unfold st1, e1. destruct (IsUpper f); [split; [done|apply complained_refl]|split; [done|apply complained_one]]. }
  destruct H1 as [Hc1 Hcm1]. assert (Hen : enough st1 = enough st) by (unfold enough, unchecked; by rewrite Hc1).
  destruct (Hrec ft st1) as (st2 & -> & Hv2 & Hcm2); [by rewrite Hen|]. simpl.
  destruct (IH st2) as (st3 & -> & Hv3 & Hcm3); [pose proof (enough_mono st1 st2 (vi_mono _ _ _ Hv2)); lia|].
  exists st3. split; [done|]. pose proof (vi_mono _ _ _ Hv2) as M2. pose proof (vi_mono _ _ _ Hv3) as M3. split.
  - apply (visited_app [ft] (fs.*2) st st2 st3); [|done]. destruct Hv2 as [Hm Hfr Hre Hcl]. rewrite Hc1 in *. by split.
  - unfold field_complaints. simpl. fold (field_complaints t fs).
    replace (match (if IsUpper f then None else Some _) with Some y => y :: _ | None => _ end) with ((e1 ++ []) ++ field_complaints t fs)%list.
    + apply (complained_trans _ _ st st2 st3); [by rewrite <-Hc1|done| |done]. apply (complained_trans _ _ st st1 st2); [by rewrite Hc1|done|done|done].
    + unfold e1. by destruct (IsUpper f).
Qed.

(** Putting the start of the walk in front of the walk of what it refers to. *)
Lemma visit_start t st st' : t ∉ checked st → visited (succs t) (mark t st) st' → complained (complaints t) (mark t st) st' →
  visited [t] st st' ∧ complained [] st st'.
Proof.
  intros Hn [M F R C] [P E]. simpl in *. assert (Ht : t ∈ checked st') by set_solver. split.
  - split.
    + set_solver.
    + by intros u ->%list_elem_of_singleton.
    + intros u Hu Hnu. exists t. split; [by apply list_elem_of_singleton|]. destruct (decide (u = t)) as [->|Hne]; [done|].
      destruct (R u Hu) as (v & Hv & Hr); [set_solver|]. by eapply rtc_l.
    + intros u v Hu Hnu Hr. destruct (decide (u = t)) as [->|Hne]; [by apply F|]. apply (C u v); [done|set_solver|done].
  - assert (Hu : checked st' ∖ checked st = {[t]} ∪ (checked st' ∖ ({[t]} ∪ checked st))).
    { apply set_eq. intros x. destruct (decide (x = t)); set_solver. }
    assert (Hp : all_complaints (checked st' ∖ checked st) ≡ₚ complaints t ++ all_complaints (checked st' ∖ ({[t]} ∪ checked st))).
    { rewrite Hu, all_complaints_union by set_solver. by rewrite all_complaints_singleton. }
    unfold complained. simpl. split; [by rewrite P, Hp|]. rewrite E, (Permutation_length Hp). done.
Qed.

Lemma checkType_spec fuel : walks (checkType fuel) fuel.
Proof.
  induction fuel as [|fuel IH]; intros t st Hf; [unfold enough in Hf; lia|]. simpl. destruct (decide (t ∈ checked st)) as [Hin|Hn].
  { exists st. split; [done|]. split; [|apply complained_refl]. split; [done|by intros u ->%list_elem_of_singleton|done|done]. }
  assert (Hgo : ∀ st', visited (succs t) (mark t st) st' → complained (complaints t) (mark t st) st' →
    ∃ st'', Some st' = Some st'' ∧ visited [t] st st'' ∧ complained [] st st'').
  { intros st' Hv Hc. exists st'. split; [done|]. by apply visit_start. }
  assert (Hf' : kind_of t ≠ KOther → (enough (mark t st) ≤ fuel)%nat).
  { intros Hk. rewrite (enough_mark t st) in Hf; [lia| |done]. apply elem_of_dom. unfold kind_of in Hk. destruct (types !! t); [by eexists|done]. }
  unfold succs, complaints in Hgo. destruct (kind_of t) as [fs|e|e k|].
  - destruct (check_fields_spec (checkType fuel) fuel t fs (mark t st) IH (Hf' ltac:(done))) as (st' & -> & Hv & Hc). by apply Hgo.
  - destruct (IH e (mark t st) (Hf' ltac:(done))) as (st' & -> & Hv & Hc). by apply Hgo.
  - destruct (IH e (mark t st) (Hf' ltac:(done))) as (st1 & -> & Hv1 & Hc1). simpl.
    pose proof (vi_mono _ _ _ Hv1) as M1. destruct (IH k st1) as (st2 & -> & Hv2 & Hc2).
    { pose proof (enough_mono (mark t st) st1 M1). pose proof (Hf' ltac:(done)). lia. }
    pose proof (vi_mono _ _ _ Hv2) as M2. apply Hgo; [by apply (visited_app [e] [k] _ st1)|by apply (complained_trans [] [] _ st1)].
  - apply Hgo; [apply visited_nil|apply complained_refl].
Qed.

(** ** A sequence of calls *)

Definition is_lower (m : message) : bool := match m with LowerCase _ _ => true | NonDefault _ => false end.

(** What holds between calls. *)
Record lab_ok (roots : list tid) (st : lab) : Prop := {
  ok_types : ∀ u, u ∈ checked st ↔ ∃ t, t ∈ roots ∧ rtc refers t u;
  ok_messages : filter is_lower (printed st) ≡ₚ all_complaints (checked st)
}.

Lemma all_complaints_lower X : filter is_lower (all_complaints X) = all_complaints X.
Proof.
  unfold all_complaints. induction (elements X) as [|t l IH]; [done|]. cbn [mbind list_bind]. rewrite filter_app. f_equal; [|exact IH].
  unfold complaints. destruct (kind_of t); try done. unfold field_complaints. induction fields as [|[f ft] fs IHf]; [done|]. simpl.
  destruct (IsUpper f); [exact IHf|]. rewrite filter_cons_True by done. f_equal. exact IHf.
Qed.

Lemma rtc_closed (st : lab) t u : (∀ u v, u ∈ checked st → refers u v → v ∈ checked st) → t ∈ checked st → rtc refers t u → u ∈ checked st.
Proof. intros Hc Ht Hr. induction Hr as [|x y z Hxy _ IH]; [done|]. apply IH. by apply (Hc x y). Qed.

Lemma checkValue_ok roots t st : lab_ok roots st → ∃ st', checkValue (Some t) st = Ret st' ∧ lab_ok (t :: roots) st'.
Proof.
  intros [Ht Hm]. unfold checkValue. destruct (checkType_spec (enough st) t st) as (st' & -> & [M F R C] & [P _]); [done|]. exists st'. split; [done|].
  assert (Hcl : ∀ u v, u ∈ checked st' → refers u v → v ∈ checked st').
  { intros u v Hu Hr. destruct (decide (u ∈ checked st)) as [Hin|Hn]; [|by apply (C u v)]. apply M, Ht. apply Ht in Hin as (r & Hr' & Hru).
    exists r. split; [done|]. by eapply rtc_r. }
  split.
  - intros u. split.
    + intros Hu. destruct (decide (u ∈ checked st)) as [Hin|Hn].
      * apply Ht in Hin as (r & Hr' & Hru). exists r. split; [apply elem_of_cons; by right|done].
      * destruct (R u Hu Hn) as (r & ->%list_elem_of_singleton & Hr). exists t. split; [apply elem_of_cons; by left|done].
    + intros (r & [->|Hr]%elem_of_cons & Hru).
      * apply (rtc_closed st' t u); [done|apply F; by apply list_elem_of_singleton|done].
      * apply M, Ht. by exists r.
  - rewrite P. simpl. rewrite filter_app, Hm, all_complaints_lower.
    assert (Hu : checked st' = checked st ∪ (checked st' ∖ checked st)) by (apply set_eq; intros x; destruct (decide (x ∈ checked st)); set_solver).
    rewrite Hu at 2. rewrite all_complaints_union by set_solver. done.
Qed.

(** ** The check before decoding *)

(** The names of the values that are not the default, in the order they are met. *)
Fixpoint non_default (levels : nat) (value : gvalue) (name : string) : list string :=
  match levels with
  | O => []
  | S levels' =>
      match value with
      | VStruct fs => mjoin ((λ '(f, v), non_default levels' v (join_name name f)) <$> fs)
      | VPtr (Some a) => non_default levels' (heap a) name
      | VScalar ty false => [if decide (name = EmptyString) then ty else name]
      | _ => []
      end
  end.

(** The state after these names were reported. *)
Definition report (names : list string) (st : lab) : lab :=
  mkLab (errorCount st + Z.of_nat (length names)) (checked st)
    (match names with n :: _ => if errorCount st <? 1 then (printed st ++ [NonDefault n])%list else printed st | [] => printed st end).

Lemma report_nil st : report [] st = st.
Proof. destruct st as [e c p]. unfold report. simpl. f_equal. lia. Qed.

Lemma report_app l1 l2 st : 0 ≤ errorCount st → report l2 (report l1 st) = report (l1 ++ l2) st.
Proof.
  intros He. destruct l1 as [|a l1]; [by rewrite report_nil|]. unfold report. simpl. f_equal; [rewrite length_app; lia|].
  destruct l2; [done|]. match goal with |- context [?x <? 1] => destruct (Z.ltb_spec x 1) end; [lia|done].
Qed.

Lemma checkDefault1_spec levels value name st : 0 ≤ errorCount st → checkDefault1 levels value name st = report (non_default levels value name) st.
Proof.
  revert value name st. induction levels as [|levels IH]; intros value name st He; [by rewrite report_nil|]. simpl.
  destruct value as [ty []|fs|[a|]|]; try by rewrite report_nil.
  - done.
  - revert st He. induction fs as [|[f v] fs IHf]; intros st He; simpl; [by rewrite report_nil|].
    rewrite IH by done. rewrite IHf by (unfold report; simpl; lia). by apply report_app.
  - by apply IH.
Qed.

(** Calls on values that are not nil; what gob does is beside the point here. *)
Inductive call := CEncode (t : tid) | CDecode (t : tid) (v : gvalue) | CRegister (t : tid).
Definition call_type (c : call) : tid := match c with CEncode t | CDecode t _ | CRegister t => t end.
Definition run_call (c : call) (st : lab) : outcome lab :=
  snd <$> match c with CEncode t => Encode tt (Some t) st | CDecode t v => Decode tt (Some (t, v)) st | CRegister t => Register tt (Some t) st end.
Fixpoint run_calls (cs : list call) (st : lab) : outcome lab :=
  match cs with [] => Ret st | c :: cs' => st ← run_call c st; run_calls cs' st end.

Lemma checkDefault1_frame levels value name st :
  checked (checkDefault1 levels value name st) = checked st ∧
  filter is_lower (printed (checkDefault1 levels value name st)) = filter is_lower (printed st).
Proof.
  revert value name st. induction levels as [|levels IH]; intros value name st; [done|]. simpl. destruct value as [ty []|fs|[a|]|]; try done.
  - simpl. split; [done|]. destruct (errorCount st <? 1); [|done]. by rewrite filter_app, app_nil_r.
  - revert st. induction fs as [|[f v] fs IHf]; intros st; simpl; [done|]. destruct (IHf (checkDefault1 levels v (join_name name f) st)) as [-> ->]. apply IH.
Qed.

Lemma run_call_ok roots c st : lab_ok roots st → ∃ st', run_call c st = Ret st' ∧ lab_ok (call_type c :: roots) st'.
Proof.
  intros Hok. destruct (checkValue_ok roots (call_type c) st Hok) as (st' & Hc & Hok').
  destruct c as [t|t v|t]; unfold run_call, Encode, Decode, Register; cbn [call_type fst snd fmap option_fmap option_map] in *; rewrite Hc;
    cbn [mbind outcome_bind fmap outcome_fmap snd]; eexists; (split; [reflexivity|]); try done.
  destruct (checkDefault1_frame 3 v EmptyString st') as [Hch Hpr]. destruct Hok' as [Ht Hm]. unfold checkDefault. split; [intros u; by rewrite Hch|by rewrite Hpr, Hch].
Qed.

(** Every type is checked once.  After any sequence of calls of the package
    from its initial state, the types marked as checked are exactly those that can
    be reached, through fields, elements and keys, from the types of the values that
    were passed; no call runs for ever on a recursive type; and the complaints about
    field names are exactly one for each lower-case field of each of these types. *)
Theorem labgob_complains_once (cs : list call) :
  ∃ st, run_calls cs (mkLab 0 ∅ []) = Ret st ∧
    (∀ u, u ∈ checked st ↔ ∃ c, c ∈ cs ∧ rtc refers (call_type c) u) ∧
    filter is_lower (printed st) ≡ₚ all_complaints (checked st).
Proof.
  assert (Hgo : ∀ roots st0, lab_ok roots st0 → ∃ st, run_calls cs st0 = Ret st ∧ lab_ok (reverse (call_type <$> cs) ++ roots) st).
  { induction cs as [|c cs IH]; intros roots st0 H0; simpl; [by exists st0|]. destruct (run_call_ok roots c st0 H0) as (st1 & -> & H1). simpl.
    destruct (IH _ _ H1) as (st & -> & Hst). exists st. split; [done|]. by rewrite reverse_cons, <-app_assoc. }
  destruct (Hgo [] (mkLab 0 ∅ [])) as (st & Hr & Ht & Hm).
  { split; [|done]. intros u. simpl. split; [set_solver|]. by intros (t & ?%elem_of_nil & _). }
  exists st. split; [done|]. split; [|done]. intros u. rewrite Ht, app_nil_r. split.
  - intros (t & Hin & Hr'). apply elem_of_reverse, list_elem_of_fmap in Hin as (c & -> & Hc). by exists c.
  - intros (c & Hc & Hr'). exists (call_type c). split; [|done]. apply elem_of_reverse, list_elem_of_fmap. by exists c.
Qed.

(** Decoding into used variables.  Decoding into a value reports, by name and in
    order, the scalars that are not zero at most three levels deep: all of them are
    counted and only the first error of the program is printed.  A value that is all
    zero is never reported, and nothing below the third level is looked at. *)
Theorem Decode_reports {R} (gob : R) (t : tid) (v : gvalue) (st : lab) : 0 ≤ errorCount st →
  ∃ st1, checkValue (Some t) st = Ret st1 ∧ errorCount st ≤ errorCount st1 ∧
    Decode gob (Some (t, v)) st = Ret (gob, report (non_default 3 v EmptyString) st1).
Proof.
  intros He. destruct (checkType_spec (enough st) t st) as (st1 & Hc & _ & [_ E]); [done|]. exists st1. unfold Decode.
  cbn [fmap option_fmap option_map fst snd]. unfold checkValue. rewrite Hc. cbn [mbind outcome_bind]. split; [done|]. split; [lia|].
  unfold checkDefault. by rewrite checkDefault1_spec by lia.
Qed.
End LabGob.

(** ** A linked list of entries *)

(** Type 0 is a struct with a string field, a field [next] that points to the struct
    itself, and a field [Tags] with a map from strings to strings. *)
Definition list_types : gmap nat kind :=
  {[0%nat := KStruct [("Key", 3); ("next", 1); ("Tags", 2)]%nat; 1%nat := KElem 0%nat; 2%nat := KMap 3%nat 3%nat]}.
Definition list_name (t : nat) : string := match t with O => "Entry"%string | _ => EmptyString end.

(** The lower-case field is found once although the type is used twice. *)
Lemma labgob_complains_once_witness :
  ∃ st, run_calls list_types list_name (λ _, false) (λ _, VOther) [CEncode 1%nat; CRegister 0%nat] (mkLab 0 ∅ []) = Ret st ∧
    printed st = [LowerCase "next" "Entry"] ∧ (∀ u, u ∈ checked st ↔ ∃ c, c ∈ [CEncode 1%nat; CRegister 0%nat] ∧ rtc (refers list_types) (call_type c) u).
Proof.
  destruct (labgob_complains_once list_types list_name (λ _, false) (λ _, VOther) [CEncode 1%nat; CRegister 0%nat]) as (st & Hr & Ht & _).
  exists st. split; [exact Hr|]. split; [|exact Ht]. vm_compute in Hr. injection Hr as <-. reflexivity.
Defined.

(** A reply that was used before: its [Err] is reported, the field one level further
    down is not. *)
Definition used_reply (a : nat) : gvalue :=
  VStruct [("Err"%string, VScalar "Err" false); ("Value"%string, VScalar "string" true); ("Config"%string, VStruct [("Num"%string, VScalar "int" false)])].

Lemma Decode_reports_witness :
  ∃ st1, checkValue list_types list_name (λ _, false) (Some 1%nat) (mkLab 0 {[1%nat]} []) = Ret st1 ∧ 0 ≤ errorCount st1 ∧
    Decode list_types list_name (λ _, false) used_reply tt (Some (1%nat, VPtr (Some 7%nat))) (mkLab 0 {[1%nat]} []) =
      Ret (tt, report (non_default used_reply 3 (VPtr (Some 7%nat)) EmptyString) st1) ∧
    non_default used_reply 3 (VPtr (Some 7%nat)) EmptyString = ["Err"%string].
Proof.
  destruct (Decode_reports list_types list_name (λ _, false) used_reply tt 1%nat (VPtr (Some 7%nat)) (mkLab 0 {[1%nat]} [])) as (st1 & H1 & H2 & H3);
    [simpl; lia|]. exists st1. split; [exact H1|]. split; [exact H2|]. split; [exact H3|]. vm_compute. reflexivity.
Defined.
