(* ===== verification/Clerks.v ===== *)
(** * Lab2_MapReduce, kvraft, shardctrler and shardkv: clerks and skeletons

    The clients of the services of the later labs: [shardctrler/client.go] with
    [common.go] and [server.go], [shardkv/client.go] with [common.go] and
    [server.go], [kvraft/client.go] with [common.go] and [server.go].  The servers
    are skeletons with empty handlers; the clerks of shardctrler and shardkv are
    complete retry loops, and are modelled over an interface of remote calls.  A
    loop that has not ended after the given number of rounds is [None].  The
    theorems: what a returned value means, that a steady service is reached within
    two rounds, that the shard of a key is always a valid index, and that against
    the skeletons the sharded clerk never returns. *)

From S2P Require Import Prelude Raft.
From Stdlib Require Import Ascii.
Open Scope Z_scope.

(** ** Shared: trying servers in turn *)

Section Retry.
(** The world that remote calls and sleeping change; [call] is [None] when
    [ClientEnd.Call] returns false. *)
Context {W Server R : Type}.

(** [for _, srv := range servers]: the first reply that is [good]. *)
Fixpoint try_each (call : Server → W → option R * W) (good : R → bool) (servers : list Server) (w : W) : option R * W :=
  match servers with
  | [] => (None, w)
  | srv :: servers' =>
      let '(rep, w) := call srv w in
      match rep with
      | Some r => if good r then (Some r, w) else try_each call good servers' w
      | None => try_each call good servers' w
      end
  end.

(** The loop around it; it sleeps between rounds. *)
Fixpoint try_rounds (rounds : nat) (sleep : W → W) (call : Server → W → option R * W) (good : R → bool) (servers : list Server) (w : W) : option (R * W) :=
  match rounds with
  | O => None
  | S rounds' =>
      match try_each call good servers w with
      | (Some r, w) => Some (r, w)
      | (None, w) => try_rounds rounds' sleep call good servers (sleep w)
      end
  end.
End Retry.

(** ** shardctrler *)

Module ShardCtrler.

Definition NShards : Z := 10.

Record Config := mkConfig { Num : Z; Shards : list Z; Groups : gmap Z (list string) }.
(** The zero value. *)
Definition Config0 : Config := mkConfig 0 (replicate (Z.to_nat NShards) 0) ∅.

Definition OK : string := "OK".

Record JoinArgs := mkJoinArgs { Servers : gmap Z (list string) }.
Record JoinReply := mkJoinReply { join_WrongLeader : bool; join_Err : string }.
Record LeaveArgs := mkLeaveArgs { GIDs : list Z }.
Record LeaveReply := mkLeaveReply { leave_WrongLeader : bool; leave_Err : string }.
Record MoveArgs := mkMoveArgs { Shard : Z; GID : Z }.
Record MoveReply := mkMoveReply { move_WrongLeader : bool; move_Err : string }.
Record QueryArgs := mkQueryArgs { query_Num : Z }.
Record QueryReply := mkQueryReply { query_WrongLeader : bool; query_Err : string; query_Config : Config }.

(** The calls a clerk makes. *)
Class Service (W Server : Type) := {
  call_Query : QueryArgs → Server → W → option QueryReply * W;
  call_Join : JoinArgs → Server → W → option JoinReply * W;
  call_Leave : LeaveArgs → Server → W → option LeaveReply * W;
  call_Move : MoveArgs → Server → W → option MoveReply * W;
  sleep : W → W
}.

Section Clerk.
Context {W Server : Type} `{Service W Server}.

Record Clerk := mkClerk { servers : list Server }.
Definition MakeClerk (ss : list Server) : Clerk := mkClerk ss.

Definition Query (rounds : nat) (num : Z) (ck : Clerk) (w : W) : option (Config * W) :=
  '(r, w) ← try_rounds rounds sleep (call_Query (mkQueryArgs num)) (λ r, negb (query_WrongLeader r)) (servers ck) w; Some (query_Config r, w).
Definition Join (rounds : nat) (ss : gmap Z (list string)) (ck : Clerk) (w : W) : option W :=
  '(_, w) ← try_rounds rounds sleep (call_Join (mkJoinArgs ss)) (λ r, negb (join_WrongLeader r)) (servers ck) w; Some w.
Definition Leave (rounds : nat) (gids : list Z) (ck : Clerk) (w : W) : option W :=
  '(_, w) ← try_rounds rounds sleep (call_Leave (mkLeaveArgs gids)) (λ r, negb (leave_WrongLeader r)) (servers ck) w; Some w.
Definition Move (rounds : nat) (shard gid : Z) (ck : Clerk) (w : W) : option W :=
  '(_, w) ← try_rounds rounds sleep (call_Move (mkMoveArgs shard gid)) (λ r, negb (move_WrongLeader r)) (servers ck) w; Some w.
End Clerk.

(** The server: its handlers do nothing with the reply they are given. *)
Record ShardCtrler := mkShardCtrler { me : Z; rf : Raft; configs : list Config }.
Definition Join_handler (args : JoinArgs) (reply : JoinReply) (sc : ShardCtrler) : JoinReply * ShardCtrler := (reply, sc).
Definition Leave_handler (args : LeaveArgs) (reply : LeaveReply) (sc : ShardCtrler) : LeaveReply * ShardCtrler := (reply, sc).
Definition Move_handler (args : MoveArgs) (reply : MoveReply) (sc : ShardCtrler) : MoveReply * ShardCtrler := (reply, sc).
Definition Query_handler (args : QueryArgs) (reply : QueryReply) (sc : ShardCtrler) : QueryReply * ShardCtrler := (reply, sc).
Definition Kill (sc : ShardCtrler) : ShardCtrler := mkShardCtrler (me sc) (Raft.Kill (rf sc)) (configs sc).
Definition StartServer (k : nat) (self : Z) (ps : Persister) : ShardCtrler := mkShardCtrler self (Make k self ps) [Config0].

End ShardCtrler.

(** ** shardkv *)

Module ShardKV.
Import ShardCtrler.

(** [int(key[0]) % NShards], and 0 for the empty key. *)
Definition key2shard (key : string) : Z :=
  let shard := match key with EmptyString => 0 | String c _ => Z.of_nat (nat_of_ascii c) end in
  Z.rem shard NShards.

Definition OK : string := "OK".
Definition ErrNoKey : string := "ErrNoKey".
Definition ErrWrongGroup : string := "ErrWrongGroup".
Definition ErrWrongLeader : string := "ErrWrongLeader".

Record PutAppendArgs := mkPutAppendArgs { pa_Key : string; pa_Value : string; pa_Op : string }.
Record PutAppendReply := mkPutAppendReply { pa_Err : string }.
Record GetArgs := mkGetArgs { get_Key : string }.
Record GetReply := mkGetReply { get_Err : string; get_Value : string }.

(** Making an end for a server name and calling it. *)
Class KVService (W : Type) := {
  call_Get : GetArgs → string → W → option GetReply * W;
  call_PutAppend : PutAppendArgs → string → W → option PutAppendReply * W
}.

Section Clerk.
Context {W Server : Type} `{Service W Server} `{KVService W}.

Record Clerk := mkClerk { sm : ShardCtrler.Clerk (Server := Server); config : Config }.
Definition MakeClerk (ctrlers : list Server) : Clerk := mkClerk (ShardCtrler.MakeClerk ctrlers) Config0.

(** What the loop over the servers of a group does with a reply. *)
Inductive verdict := Accept | WrongGroup | Next.
Definition get_verdict (r : GetReply) : verdict :=
  if decide (get_Err r = OK ∨ get_Err r = ErrNoKey) then Accept else if decide (get_Err r = ErrWrongGroup) then WrongGroup else Next.
Definition put_verdict (r : PutAppendReply) : verdict :=
  if decide (pa_Err r = OK) then Accept else if decide (pa_Err r = ErrWrongGroup) then WrongGroup else Next.

Fixpoint try_group {R} (call : string → W → option R * W) (judge : R → verdict) (servers : list string) (w : W) : option R * W :=
  match servers with
  | [] => (None, w)
  | srv :: servers' =>
      let '(rep, w) := call srv w in
      match rep with
      | Some r => match judge r with Accept => (Some r, w) | WrongGroup => (None, w) | Next => try_group call judge servers' w end
      | None => try_group call judge servers' w
      end
  end.

(** The loop of [Get] and of [PutAppend]; asking the controller for the newest
    configuration is given the same number of rounds. *)
Fixpoint kv_rounds {R} (rounds : nat) (call : string → W → option R * W) (judge : R → verdict) (key : string) (ck : Clerk) (w : W) :
    outcome (option (R * Clerk * W)) :=
  match rounds with
  | O => Ret None
  | S rounds' =>
      gid ← slice_get (Shards (config ck)) (key2shard key);
      let '(rep, w) := match Groups (config ck) !! gid with Some servers => try_group call judge servers w | None => (None, w) end in
      match rep with
      | Some r => Ret (Some (r, ck, w))
      | None =>
          match Query rounds (-1) (sm ck) (sleep w) with
          | Some (cfg, w) => kv_rounds rounds' call judge key (mkClerk (sm ck) cfg) w
          | None => Ret None
          end
      end
  end.

Definition Get (rounds : nat) (key : string) (ck : Clerk) (w : W) : outcome (option (string * Clerk * W)) :=
  o ← kv_rounds rounds (call_Get (mkGetArgs key)) get_verdict key ck w;
  Ret ('(r, ck, w) ← o; Some (get_Value r, ck, w)).
Definition PutAppend (rounds : nat) (key value op : string) (ck : Clerk) (w : W) : outcome (option (Clerk * W)) :=
  o ← kv_rounds rounds (call_PutAppend (mkPutAppendArgs key value op)) put_verdict key ck w;
  Ret ('(_, ck, w) ← o; Some (ck, w)).
Definition Put (rounds : nat) (key value : string) (ck : Clerk) (w : W) := PutAppend rounds key value "Put" ck w.
Definition Append (rounds : nat) (key value : string) (ck : Clerk) (w : W) := PutAppend rounds key value "Append" ck w.
End Clerk.

(** The server, with empty handlers. *)
Record ShardKV := mkShardKV { me : Z; rf : Raft; gid : Z; maxraftstate : Z }.
Definition Get_handler (args : GetArgs) (reply : GetReply) (kv : ShardKV) : GetReply * ShardKV := (reply, kv).
Definition PutAppend_handler (args : PutAppendArgs) (reply : PutAppendReply) (kv : ShardKV) : PutAppendReply * ShardKV := (reply, kv).
Definition Kill (kv : ShardKV) : ShardKV := mkShardKV (me kv) (Raft.Kill (rf kv)) (gid kv) (maxraftstate kv).
Definition StartServer (k : nat) (self : Z) (ps : Persister) (maxstate g : Z) : ShardKV := mkShardKV self (Make k self ps) g maxstate.
End ShardKV.

(** ** kvraft *)

Module KVRaft.
Definition OK : string := "OK".
Definition ErrNoKey : string := "ErrNoKey".
Definition ErrWrongLeader : string := "ErrWrongLeader".

Record PutAppendArgs := mkPutAppendArgs { Key : string; Value : string; Op : string }.
Record PutAppendReply := mkPutAppendReply { Err : string }.
Record GetArgs := mkGetArgs { get_Key : string }.
Record GetReply := mkGetReply { get_Err : string; get_Value : string }.

(** The clerk is a skeleton too. *)
Record Clerk (Server : Type) := mkClerk { ck_servers : list Server }.
Definition MakeClerk {Server} (ss : list Server) : Clerk Server := mkClerk Server ss.
Definition Get {Server} (key : string) (ck : Clerk Server) : string := "".
Definition PutAppend {Server} (key value op : string) (ck : Clerk Server) : unit := tt.
Definition Put {Server} (key value : string) (ck : Clerk Server) : unit := PutAppend key value "Put" ck.
Definition Append {Server} (key value : string) (ck : Clerk Server) : unit := PutAppend key value "Append" ck.

Record KVServer := mkKVServer { me : Z; rf : Raft; dead : bool; maxraftstate : Z }.
Definition Get_handler (args : GetArgs) (reply : GetReply) (kv : KVServer) : GetReply * KVServer := (reply, kv).
Definition PutAppend_handler (args : PutAppendArgs) (reply : PutAppendReply) (kv : KVServer) : PutAppendReply * KVServer := (reply, kv).
Definition Kill (kv : KVServer) : KVServer := mkKVServer (me kv) (Raft.Kill (rf kv)) true (maxraftstate kv).
Definition killed (kv : KVServer) : bool := dead kv.
Definition StartKVServer (k : nat) (self : Z) (ps : Persister) (maxstate : Z) : KVServer := mkKVServer self (Make k self ps) false maxstate.
End KVRaft.

(** ** Theorems about the loops *)

Section RetryFacts.
Context {W Server R : Type}.
Implicit Types (call : Server → W → option R * W) (good : R → bool).

Lemma try_each_result call good servers w r w' : try_each call good servers w = (Some r, w') →
  ∃ srv w1 w2, srv ∈ servers ∧ call srv w1 = (Some r, w2) ∧ good r = true.
Proof.
  revert w. induction servers as [|srv servers IH]; intros w; simpl; [done|]. destruct (call srv w) as [rep w1] eqn:Hc. intros Ht.
  assert (Hrest : try_each call good servers w1 = (Some r, w') → ∃ s w1 w2, s ∈ srv :: servers ∧ call s w1 = (Some r, w2) ∧ good r = true).
  { intros Hr. destruct (IH _ Hr) as (s & wa & wb & Hin & Hrest). exists s, wa, wb. split; [apply elem_of_cons; by right|done]. }
  destruct rep as [r1|]; [|by apply Hrest]. destruct (good r1) eqn:Hg; [|by apply Hrest]. injection Ht as -> ->.
  exists srv, w, w'. split; [apply elem_of_cons; by left|done].
Qed.

Lemma try_rounds_result rounds sleep call good servers w r w' : try_rounds rounds sleep call good servers w = Some (r, w') →
  ∃ srv w1 w2, srv ∈ servers ∧ call srv w1 = (Some r, w2) ∧ good r = true.
Proof.
  revert w. induction rounds as [|rounds IH]; intros w; simpl; [done|]. destruct (try_each call good servers w) as [[r1|] w1] eqn:Ht; [|apply IH].
  intros [= -> ->]. by eapply try_each_result.
Qed.

(** In worlds where every good reply is in [P] and some server gives one, a round
    ends with one. *)
Lemma try_each_steady (steady : W → Prop) (P : R → Prop) call good servers w :
  (∀ srv w rep w', steady w → call srv w = (rep, w') → steady w' ∧ ∀ r, rep = Some r → good r = true → P r) →
  (∃ srv, srv ∈ servers ∧ ∀ w, steady w → ∃ r w', call srv w = (Some r, w') ∧ good r = true) → steady w →
  ∃ r w', try_each call good servers w = (Some r, w') ∧ P r ∧ steady w'.
Proof.
  intros Hst (srv & Hin & Hsrv). revert w. induction servers as [|s servers IH]; intros w Hw; [by apply elem_of_nil in Hin|]. simpl.
  destruct (call s w) as [rep w1] eqn:Hc. destruct (Hst s w rep w1 Hw Hc) as [Hw1 HP].
  destruct rep as [r|]; [destruct (good r) eqn:Hg; [by exists r, w1; auto|]|].
  all: apply elem_of_cons in Hin as [->|Hin]; [destruct (Hsrv w Hw) as (r' & w' & Hc' & Hg'); congruence|by apply IH].
Qed.

Lemma try_rounds_steady (steady : W → Prop) (P : R → Prop) rounds sleep call good servers w : (0 < rounds)%nat →
  (∀ srv w rep w', steady w → call srv w = (rep, w') → steady w' ∧ ∀ r, rep = Some r → good r = true → P r) →
  (∃ srv, srv ∈ servers ∧ ∀ w, steady w → ∃ r w', call srv w = (Some r, w') ∧ good r = true) → steady w →
  ∃ r w', try_rounds rounds sleep call good servers w = Some (r, w') ∧ P r ∧ steady w'.
Proof.
  intros Hr Hst Hsrv Hw. destruct rounds; [lia|]. simpl. destruct (try_each_steady steady P call good servers w Hst Hsrv Hw) as (r & w' & -> & ?).
  by exists r, w'.
Qed.
End RetryFacts.

Section KVFacts.
Import ShardCtrler ShardKV.
Context {W Server : Type} `{Service W Server} `{KVService W}.
Notation Clerk := (ShardKV.Clerk (Server := Server)).

Lemma key2shard_bounds key : 0 ≤ key2shard key < NShards.
Proof.
  unfold key2shard. rewrite Z.rem_mod_nonneg by (unfold NShards; destruct key; lia). apply Z.mod_pos_bound. unfold NShards. lia.
Qed.

Lemma try_group_result {R} (call : string → W → option R * W) judge servers w r w' : try_group call judge servers w = (Some r, w') →
  ∃ srv w1 w2, srv ∈ servers ∧ call srv w1 = (Some r, w2) ∧ judge r = Accept.
Proof.
  revert w. induction servers as [|srv servers IH]; intros w; simpl; [done|]. destruct (call srv w) as [rep w1] eqn:Hc. intros Ht.
  assert (Hrest : try_group call judge servers w1 = (Some r, w') → ∃ s w1 w2, s ∈ srv :: servers ∧ call s w1 = (Some r, w2) ∧ judge r = Accept).
  { intros Hr. destruct (IH _ Hr) as (s & wa & wb & Hin & Hrest). exists s, wa, wb. split; [apply elem_of_cons; by right|done]. }
  destruct rep as [r1|]; [|by apply Hrest]. destruct (judge r1) eqn:Hj; [|done|by apply Hrest]. injection Ht as -> ->.
  exists srv, w, w'. split; [apply elem_of_cons; by left|done].
Qed.

(** A configuration as the type of its array makes it. *)
Definition config_typed (c : Config) : Prop := length (Shards c) = Z.to_nat NShards.

(** A result of the loop comes from the group that the clerk's configuration gives
    for the key. *)
Lemma kv_rounds_result {R} rounds (call : string → W → option R * W) judge key (ck : Clerk) w :
  (∀ args srv w r w', call_Query (Server := Server) args srv w = (Some r, w') → config_typed (query_Config r)) → config_typed (config ck) →
  ∃ o, kv_rounds rounds call judge key ck w = Ret o ∧
    ∀ r ck' w', o = Some (r, ck', w') → sm ck' = sm ck ∧ config_typed (config ck') ∧ ∃ gid group srv w1 w2,
      Shards (config ck') !! Z.to_nat (key2shard key) = Some gid ∧ Groups (config ck') !! gid = Some group ∧ srv ∈ group ∧
      call srv w1 = (Some r, w2) ∧ judge r = Accept.
Proof.
  intros Hq. revert ck w. induction rounds as [|rounds IH]; intros ck w Hck; cbn [kv_rounds]; [by exists None|].
  destruct (slice_get_ok (Shards (config ck)) (key2shard key)) as (gid & -> & Hgid).
  { unfold go_len. rewrite Hck. pose proof (key2shard_bounds key). lia. }
  cbn [mbind outcome_bind].
  destruct (match Groups (config ck) !! gid with Some servers => try_group call judge servers w | None => (None, w) end) as [[r|] w1] eqn:Hg.
  - eexists. split; [reflexivity|]. intros r' ck' w' [= <- <- <-]. split; [done|]. split; [done|]. destruct (Groups (config ck) !! gid) as [group|] eqn:Egr; [|done].
    apply try_group_result in Hg as (srv & wa & wb & Hin & Hc & Hj). by exists gid, group, srv, wa, wb.
  - destruct (Query (S rounds) (-1) (sm ck) (sleep w1)) as [[cfg w2]|] eqn:Eq; [|by exists None].
    apply bind_Some in Eq as ([r wr] & Ht & [= <- <-]). apply try_rounds_result in Ht as (srv & wa & wb & _ & Hc & _).
    exact (IH (mkClerk (sm ck) (query_Config r)) wr (Hq _ _ _ _ _ Hc)).
Qed.

(** The same for one round on a steady world. *)
Lemma try_group_steady {R} (steady : W → Prop) (P : R → Prop) (call : string → W → option R * W) judge servers w :
  (∀ srv w rep w', srv ∈ servers → steady w → call srv w = (rep, w') →
     steady w' ∧ ∀ r, rep = Some r → judge r ≠ WrongGroup ∧ (judge r = Accept → P r)) →
  (∃ srv, srv ∈ servers ∧ ∀ w, steady w → ∃ r w', call srv w = (Some r, w') ∧ judge r = Accept) → steady w →
  ∃ r w', try_group call judge servers w = (Some r, w') ∧ P r ∧ steady w'.
Proof.
  intros Hst (srv & Hin & Hsrv). revert w. induction servers as [|s servers IH]; intros w Hw; [by apply elem_of_nil in Hin|]. simpl.
  destruct (call s w) as [rep w1] eqn:Hc. destruct (Hst s w rep w1) as [Hw1 HP]; [apply elem_of_cons; by left|done|done|].
  assert (Hrest : srv ∈ servers → ∃ r w', try_group call judge servers w1 = (Some r, w') ∧ P r ∧ steady w').
  { intros Hi. apply IH; [|done|done]. intros s' wa rep' wb Hs'. apply Hst. apply elem_of_cons. by right. }
  destruct rep as [r|]; [destruct (HP r eq_refl) as [HnW HA]; destruct (judge r) eqn:Hg; [by exists r, w1; auto|done|]|].
  all: apply elem_of_cons in Hin as [->|Hin]; [destruct (Hsrv w Hw) as (r' & w' & Hc' & Hg'); congruence|by apply Hrest].
Qed.

(** Requests go to the right group.  When replies carry configurations of the
    declared array type, [Get] and [PutAppend] never index outside the shards, and
    when they return, the reply is one that a server gave to this request, with OK
    (or ErrNoKey for [Get]), and that server is of the group which the clerk's newest
    configuration assigns to the shard of the key. *)
Theorem clerk_routes (rounds : nat) (key value op : string) (ck : Clerk) (w : W) :
  (∀ args srv w r w', call_Query (Server := Server) args srv w = (Some r, w') → config_typed (query_Config r)) → config_typed (config ck) →
  (∃ o, Get rounds key ck w = Ret o ∧
     ∀ v ck' w', o = Some (v, ck', w') → ∃ r gid group srv w1 w2,
       Shards (config ck') !! Z.to_nat (key2shard key) = Some gid ∧ Groups (config ck') !! gid = Some group ∧ srv ∈ group ∧
       call_Get (mkGetArgs key) srv w1 = (Some r, w2) ∧ (get_Err r = OK ∨ get_Err r = ErrNoKey) ∧ get_Value r = v) ∧
  (∃ o, PutAppend rounds key value op ck w = Ret o ∧
     ∀ ck' w', o = Some (ck', w') → ∃ r gid group srv w1 w2,
       Shards (config ck') !! Z.to_nat (key2shard key) = Some gid ∧ Groups (config ck') !! gid = Some group ∧ srv ∈ group ∧
       call_PutAppend (mkPutAppendArgs key value op) srv w1 = (Some r, w2) ∧ pa_Err r = OK).
Proof.
  intros Hq Hck. split.
  - destruct (kv_rounds_result rounds (call_Get (mkGetArgs key)) get_verdict key ck w Hq Hck) as (o & Hr & Ho). unfold Get. rewrite Hr. simpl.
    eexists. split; [reflexivity|]. intros v ck' w' E. apply bind_Some in E as ([[r ck1] w1] & -> & [= <- <- <-]).
    destruct (Ho r ck1 w1 eq_refl) as (_ & _ & gid & group & srv & wa & wb & Hg & Hgr & Hin & Hc & Hj). exists r, gid, group, srv, wa, wb.
    split_and!; try done. unfold get_verdict in Hj. by repeat case_decide.
  - destruct (kv_rounds_result rounds (call_PutAppend (mkPutAppendArgs key value op)) put_verdict key ck w Hq Hck) as (o & Hr & Ho).
    unfold PutAppend. rewrite Hr. simpl.
    eexists. split; [reflexivity|]. intros ck' w' E. apply bind_Some in E as ([[r ck1] w1] & -> & [= <- <-]).
    destruct (Ho r ck1 w1 eq_refl) as (_ & _ & gid & group & srv & wa & wb & Hg & Hgr & Hin & Hc & Hj). exists r, gid, group, srv, wa, wb.
    split_and!; try done. unfold put_verdict in Hj. by repeat case_decide.
Qed.

(** A steady service is reached.  Suppose that from now on every controller that
    accepts a query gives configuration [cfg] and some controller does, that the
    group responsible for the key under [cfg] never answers with ErrWrongGroup, some
    server of it answers, and every accepted answer has value [v].  Then [Get] of a
    new clerk returns [v] within two rounds, whatever servers are down or refuse, and
    the clerk has learned [cfg]. *)
Theorem steady_Get (steady : W → Prop) (cfg : Config) (gid : Z) (group : list string) (key v : string) (ctrlers : list Server) (rounds : nat) (w : W) :
  (∀ w, steady w → steady (sleep w)) →
  (∀ srv w rep w', steady w → call_Query (mkQueryArgs (-1)) srv w = (rep, w') →
     steady w' ∧ ∀ r, rep = Some r → query_WrongLeader r = false → query_Config r = cfg) →
  (∃ srv, srv ∈ ctrlers ∧ ∀ w, steady w → ∃ r w', call_Query (mkQueryArgs (-1)) srv w = (Some r, w') ∧ query_WrongLeader r = false) →
  config_typed cfg → Shards cfg !! Z.to_nat (key2shard key) = Some gid → Groups cfg !! gid = Some group →
  (∀ srv w rep w', srv ∈ group → steady w → call_Get (mkGetArgs key) srv w = (rep, w') →
     steady w' ∧ ∀ r, rep = Some r → get_verdict r ≠ WrongGroup ∧ (get_verdict r = Accept → get_Value r = v)) →
  (∃ srv, srv ∈ group ∧ ∀ w, steady w → ∃ r w', call_Get (mkGetArgs key) srv w = (Some r, w') ∧ get_verdict r = Accept) →
  steady w →
  ∃ w', Get (S (S rounds)) key (MakeClerk ctrlers) w = Ret (Some (v, mkClerk (ShardCtrler.MakeClerk ctrlers) cfg, w')) ∧ steady w'.
Proof.
  intros Hsl Hq Hqs Hty Hgid Hgr Hg Hgs Hw. unfold Get. cbn [kv_rounds]. change (config (MakeClerk ctrlers)) with Config0.
  destruct (slice_get_ok (Shards Config0) (key2shard key)) as (g0 & -> & _); [exact (key2shard_bounds key)|]. cbn [mbind outcome_bind].
  change (Groups Config0) with (∅ : gmap Z (list string)). rewrite lookup_empty.
  destruct (try_rounds_steady steady (λ r, query_Config r = cfg) (S (S rounds)) sleep (call_Query (mkQueryArgs (-1))) (λ r, negb (query_WrongLeader r))
    ctrlers (sleep w)) as (r & w1 & Hr & Hcfg & Hw1).
  { lia. }
  { intros srv w0 rep w' Hw0 Hc. destruct (Hq srv w0 rep w' Hw0 Hc) as [? HP]. split; [done|]. intros r Hr Hg0. apply HP; [done|]. by destruct (query_WrongLeader r). }
  { destruct Hqs as (srv & Hin & Hs). exists srv. split; [done|]. intros w0 Hw0. destruct (Hs w0 Hw0) as (r & w' & ? & E). exists r, w'. by rewrite E. }
  { by apply Hsl. }
  unfold Query. change (servers (sm (MakeClerk ctrlers))) with ctrlers. rewrite Hr. cbn [mbind option_bind]. rewrite Hcfg. cbn [kv_rounds config].
  destruct (slice_get_ok (Shards cfg) (key2shard key)) as (g1 & -> & Hg1).
  { unfold go_len. rewrite Hty. exact (key2shard_bounds key). }
  rewrite Hgid in Hg1. injection Hg1 as <-. cbn [mbind outcome_bind]. rewrite Hgr.
  destruct (try_group_steady steady (λ r, get_Value r = v) (call_Get (mkGetArgs key)) get_verdict group w1 Hg Hgs Hw1) as (r2 & w2 & -> & <- & Hw2).
  cbn [mbind option_bind outcome_bind]. by exists w2.
Qed.
End KVFacts.

(** ** The skeletons behind the clerks *)

Section Skeleton.
Import ShardCtrler ShardKV.

(** Controllers by index, and key/value servers by name. *)
Definition lab_world : Type := list ShardCtrler * gmap string ShardKV.

(** A call of a controller's handler with a reply of zero values. *)
Definition at_ctrler {A R} (h : A → R → ShardCtrler → R * ShardCtrler) (zero : R) (args : A) (i : nat) (w : lab_world) : option R * lab_world :=
  match w.1 !! i with
  | Some sc => let '(r, sc') := h args zero sc in (Some r, (<[i := sc']> w.1, w.2))
  | None => (None, w)
  end.
Definition at_server {A R} (h : A → R → ShardKV → R * ShardKV) (zero : R) (args : A) (name : string) (w : lab_world) : option R * lab_world :=
  match w.2 !! name with
  | Some kv => let '(r, kv') := h args zero kv in (Some r, (w.1, <[name := kv']> w.2))
  | None => (None, w)
  end.

#[global] Instance skeleton_ctrlers : Service lab_world nat := {|
  call_Query := at_ctrler Query_handler (mkQueryReply false "" Config0);
  call_Join := at_ctrler Join_handler (mkJoinReply false "");
  call_Leave := at_ctrler Leave_handler (mkLeaveReply false "");
  call_Move := at_ctrler Move_handler (mkMoveReply false "");
  sleep := id
|}.
#[global] Instance skeleton_servers : KVService lab_world := {|
  call_Get := at_server Get_handler (mkGetReply "" "");
  call_PutAppend := at_server PutAppend_handler (mkPutAppendReply "")
|}.

(** A controller always answers with the zero configuration, which has no groups:
    a clerk asks again and again and never calls a key/value server. *)
Lemma skeleton_never_returns {R} rounds (call : string → lab_world → option R * lab_world) judge key (ck : Clerk (Server := nat)) w :
  config ck = Config0 → kv_rounds rounds call judge key ck w = Ret None.
Proof.
  revert ck w. induction rounds as [|rounds IH]; intros ck w Hck; [done|]. cbn [kv_rounds]. rewrite Hck.
  destruct (slice_get_ok (Shards Config0) (key2shard key)) as (g0 & -> & _); [exact (key2shard_bounds key)|]. cbn [mbind outcome_bind].
  change (Groups Config0) with (∅ : gmap Z (list string)). rewrite lookup_empty.
  destruct (Query (S rounds) (-1) (sm ck) (sleep w)) as [[cfg w2]|] eqn:Eq; [|done].
  apply bind_Some in Eq as ([r wr] & Ht & [= <- <-]). apply try_rounds_result in Ht as (srv & wa & wb & _ & Hc & _).
  apply IH. simpl in *. unfold at_ctrler in Hc. destruct (wa.1 !! srv); [|done]. by injection Hc as <- <-.
Qed.
End Skeleton.

(** A service with one controller that is up and one group of two servers, of which
    the second answers. *)
Section Demo.
Import ShardCtrler ShardKV.
Definition demo_config : Config := mkConfig 1 (replicate (Z.to_nat NShards) 100) {[100 := ["server-100-0"; "server-100-1"]%string]}.
Definition demo_ctrlers : Service unit nat := {|
  call_Query := λ _ i w, (if decide (i = 1%nat) then Some (mkQueryReply false "OK" demo_config) else if decide (i = 2%nat) then Some (mkQueryReply true "" Config0) else None, w);
  call_Join := λ _ _ w, (None, w); call_Leave := λ _ _ w, (None, w); call_Move := λ _ _ w, (None, w); sleep := id |}.
Definition demo_servers : KVService unit := {|
  call_Get := λ a s w, (if decide (s = "server-100-1"%string) then Some (mkGetReply "OK" "value") else Some (mkGetReply "ErrWrongLeader" ""), w);
  call_PutAppend := λ a s w, (if decide (s = "server-100-1"%string) then Some (mkPutAppendReply "OK") else None, w) |}.

Lemma clerk_routes_witness :
  ∃ o, Get (H := demo_ctrlers) (H0 := demo_servers) 2 "k" (MakeClerk [0; 2; 1]%nat) tt = Ret o ∧ (∃ ck, o = Some ("value"%string, ck, tt)) ∧
     ∀ v ck' w', o = Some (v, ck', w') → ∃ r gid group srv w1 w2,
       Shards (config ck') !! Z.to_nat (key2shard "k") = Some gid ∧ Groups (config ck') !! gid = Some group ∧ srv ∈ group ∧
       call_Get (KVService := demo_servers) (mkGetArgs "k") srv w1 = (Some r, w2) ∧ (get_Err r = OK ∨ get_Err r = ErrNoKey) ∧ get_Value r = v.
Proof.
  destruct (clerk_routes (H := demo_ctrlers) (H0 := demo_servers) 2 "k" "" "" (MakeClerk [0; 2; 1]%nat) tt) as [(o & Hg & Ho) _].
  - intros args srv w r w'. simpl. repeat case_decide; intros [= <- <-]; reflexivity.
  - reflexivity.
  - exists o. split; [exact Hg|]. split; [|exact Ho]. vm_compute in Hg. injection Hg as <-. by eexists.
Defined.

Lemma steady_Get_witness :
  ∃ w', Get (H := demo_ctrlers) (H0 := demo_servers) 2 "k" (MakeClerk [0; 2; 1]%nat) tt =
    Ret (Some ("value"%string, mkClerk (ShardCtrler.MakeClerk [0; 2; 1]%nat) demo_config, w')) ∧ True.
Proof.
  apply (steady_Get (H := demo_ctrlers) (H0 := demo_servers) (λ _, True) demo_config 100 ["server-100-0"; "server-100-1"]%string "k" "value" [0; 2; 1]%nat 0 tt).
  - done.
  - intros srv w rep w' _ [= <- <-]. split; [done|]. intros r. repeat case_decide; intros [= <-]; done.
  - exists 1%nat. split; [set_solver|]. intros [] _. eexists _, _. by split.
  - reflexivity.
  - reflexivity.
  - reflexivity.
  - intros srv w rep w' _ _ [= <- <-]. split; [done|]. intros r. case_decide; intros [= <-]; (split; [by vm_compute|]); [done|by vm_compute].
  - exists "server-100-1"%string. split; [set_solver|]. intros [] _. eexists _, _. split; [reflexivity|]. reflexivity.
  - done.
Defined.
End Demo.
