(* ===== verification/KVConfig.v ===== *)
(** * Lab2_MapReduce, kvraft: the test configuration

    [kvraft/config.go]: servers and clients over the network of [LabRPC], with
    partitions.  ([ShardCtrlerConfig] has the one of shardctrler.)
    The state is the [config] struct with the objects it points to.  The theorems: a
    partition lets exactly the servers of the same side talk, how [make_partition]
    splits the servers around the leader, and the shuffling of a clerk's servers.

    Names drawn by [randstring] are an argument, as is the clock. *)

From S2P Require Import Prelude Raft LabRPC RaftConfig Clerks.
Import KVRaft.
Open Scope Z_scope.

Section KVConfig.
(** What reflection finds on a [*KVServer] and on a [*Raft]; receivers are addresses. *)
Variable kv_methods : list (reflect_method (S := nat)).
Variable raft_methods : list (reflect_method (S := nat)).

Record memory := mkMemory { kv_at : gmap nat KVServer; server_at : gmap nat (Server (S := nat)); next_addr : nat }.

Record config := mkConfig {
  failed : bool;
  net : Network (Name := netname);
  n : nat;
  kvservers : list (option nat);
  saved : list (option Persister);
  endnames : list (option (list string));
  clerks : gmap nat (list string);      (* by the address of the clerk *)
  nextClientId : Z;
  maxraftstate : Z;
  start : Z; t0 : Z; rpcs0 : Z; ops : Z;
  mem : memory
}.

Definition set_net (x : Network) (c : config) : config :=
  mkConfig (failed c) x (n c) (kvservers c) (saved c) (endnames c) (clerks c) (nextClientId c) (maxraftstate c) (start c) (t0 c) (rpcs0 c) (ops c) (mem c).
Definition set_servers (x : list (option nat)) (m : memory) (c : config) : config :=
  mkConfig (failed c) (net c) (n c) x (saved c) (endnames c) (clerks c) (nextClientId c) (maxraftstate c) (start c) (t0 c) (rpcs0 c) (ops c) m.
Definition set_saved (x : list (option Persister)) (c : config) : config :=
  mkConfig (failed c) (net c) (n c) (kvservers c) x (endnames c) (clerks c) (nextClientId c) (maxraftstate c) (start c) (t0 c) (rpcs0 c) (ops c) (mem c).
Definition set_endnames (x : list (option (list string))) (c : config) : config :=
  mkConfig (failed c) (net c) (n c) (kvservers c) (saved c) x (clerks c) (nextClientId c) (maxraftstate c) (start c) (t0 c) (rpcs0 c) (ops c) (mem c).
Definition set_clerks (x : gmap nat (list string)) (id : Z) (c : config) : config :=
  mkConfig (failed c) (net c) (n c) (kvservers c) (saved c) (endnames c) x id (maxraftstate c) (start c) (t0 c) (rpcs0 c) (ops c) (mem c).
Definition set_stats (t r o : Z) (c : config) : config :=
  mkConfig (failed c) (net c) (n c) (kvservers c) (saved c) (endnames c) (clerks c) (nextClientId c) (maxraftstate c) (start c) t r o (mem c).

(** ** Servers and partitions *)

Definition enable_end (i j : Z) (b : bool) (c : config) : outcome config :=
  row ← slice_get (endnames c) i;
  e ← slice_get (default [] row) j;
  Ret (set_net (Enable (inl e) b (net c)) c).

Definition connectUnlocked (i : Z) (to : list Z) (c : config) : outcome config :=
  c ← for_each to (λ x c, enable_end i x true c) c;
  for_each to (λ x c, enable_end x i true c) c.

(** The second loop tests [endnames[j]] for the loop index [j], not for [from[j]]. *)
Definition disconnectUnlocked (i : Z) (from : list Z) (c : config) : outcome config :=
  c ← for_each from (λ x c, row ← slice_get (endnames c) i; if row : option _ then enable_end i x false c else Ret c) c;
  for_each (imap (λ j x, (Z.of_nat j, x)) from) (λ '(j, x) c,
    row ← slice_get (endnames c) j; if row : option _ then enable_end x i false c else Ret c) c.

Definition connect (i : Z) (to : list Z) (c : config) : outcome config := connectUnlocked i to c.
Definition disconnect (i : Z) (from : list Z) (c : config) : outcome config := disconnectUnlocked i from c.

Definition All (c : config) : list Z := Z.of_nat <$> seq 0 (n c).

Definition ConnectAll (c : config) : outcome config := for_range (n c) 0 (λ i c, connectUnlocked i (All c) c) c.

Definition partition (p1 p2 : list Z) (c : config) : outcome config :=
  c ← for_each p1 (λ i c, c ← disconnectUnlocked i p2 c; connectUnlocked i p1 c) c;
  for_each p2 (λ i c, c ← disconnectUnlocked i p1 c; connectUnlocked i p2 c) c.

(** ** Clients *)

(** A fresh set of ends, end [j] connected to server [j]. *)
Definition make_ends (names : list string) (nt : Network) : outcome (Network (Name := netname)) :=
  for_range (length names) 0 (λ j nt, e ← slice_get names j; nt ← MakeEnd (inl e) nt; Ret (Connect (inl e) (inr j) nt)) nt.

(** [sa[i], sa[j] = sa[j], sa[i]] with [j = rand.Intn(i + 1)]; [r i] is the draw. *)
Definition swap_step {A} (r : Z → Z) (i : Z) (sa : list A) : outcome (list A) :=
  x ← slice_get sa i; y ← slice_get sa (r i); sa ← slice_set sa i y; slice_set sa (r i) x.
Definition random_handles {A} (r : Z → Z) (kvh : list A) : outcome (list A) := for_range (length kvh) 0 (swap_step r) kvh.

Definition ConnectClientUnlocked (ck : nat) (to : list Z) (c : config) : outcome config :=
  for_each to (λ x c, e ← slice_get (default [] (clerks c !! ck)) x; Ret (set_net (Enable (inl e) true (net c)) c)) c.
Definition ConnectClient (ck : nat) (to : list Z) (c : config) : outcome config := ConnectClientUnlocked ck to c.
Definition DisconnectClientUnlocked (ck : nat) (from : list Z) (c : config) : outcome config :=
  for_each from (λ x c, e ← slice_get (default [] (clerks c !! ck)) x; Ret (set_net (Enable (inl e) false (net c)) c)) c.
Definition DisconnectClient (ck : nat) (from : list Z) (c : config) : outcome config := DisconnectClientUnlocked ck from c.

(** [ck] is the address of the new clerk; the result has the order in which it calls
    the servers. *)
Definition makeClient (draw : Z → string) (r : Z → Z) (ck : nat) (to : list Z) (c : config) : outcome (list string * config) :=
  let names := draw <$> seqZ 0 (Z.of_nat (n c)) in
  nt ← make_ends names (net c);
  hs ← random_handles r names;
  let c := set_clerks (<[ck := names]> (clerks c)) (nextClientId c + 1) (set_net nt c) in
  c ← ConnectClientUnlocked ck to c;
  Ret (hs, c).

Definition deleteClient (ck : nat) (c : config) : config := set_clerks (delete ck (clerks c)) (nextClientId c) c.

(** ** Stopping and starting servers *)

Definition kill_at (a : nat) (m : memory) : memory := mkMemory (alter Kill a (kv_at m)) (server_at m) (next_addr m).

Definition ShutdownServer (i : Z) (c : config) : outcome config :=
  c ← disconnectUnlocked i (All c) c;
  let c := set_net (DeleteServer (inr i) (net c)) c in
  s ← slice_get (saved c) i;
  sv ← slice_set (saved c) i (Copy <$> s);
  let c := set_saved sv c in
  kv ← slice_get (kvservers c) i;
  match kv with
  | Some a => ks ← slice_set (kvservers c) i None; Ret (set_servers ks (kill_at a (mem c)) c)
  | None => Ret c
  end.

Definition new_server (kv : KVServer) (m : memory) : nat * memory :=
  let a := next_addr m in
  (a, mkMemory (<[a := kv]> (kv_at m))
        (<[a := AddService (MakeService "Raft" a raft_methods) (AddService (MakeService "KVServer" a kv_methods) MakeServer)]> (server_at m)) (S a)).

Definition StartServer (draw : Z → string) (i : Z) (c : config) : outcome config :=
  let names := draw <$> seqZ 0 (Z.of_nat (n c)) in
  en ← slice_set (endnames c) i (Some names);
  let c := set_endnames en c in
  nt ← make_ends names (net c);
  let c := set_net nt c in
  s ← slice_get (saved c) i;
  let ps := match s with Some ps => Copy ps | None => MakePersister end in
  sv ← slice_set (saved c) i (Some ps);
  let c := set_saved sv c in
  let '(a, m) := new_server (StartKVServer (n c) i ps (maxraftstate c)) (mem c) in
  ks ← slice_set (kvservers c) i (Some a);
  let c := set_servers ks m c in
  Ret (set_net (AddServer (inr i) a (net c)) c).

(** ** Leaders *)

(** What [cfg.kvservers[i].rf.GetState()] says; a nil pointer panics. *)
Definition is_leader (c : config) (i : Z) : outcome bool :=
  kv ← slice_get (kvservers c) i;
  match kv with
  | Some a => match kv_at (mem c) !! a with Some k => Ret (GetState (rf k)).2 | None => Panic end
  | None => Panic
  end.

Definition Leader (c : config) : outcome (bool * Z) :=
  o ← for_find (n c) 0 (λ i, b ← is_leader c i; Ret (if b : bool then Some i else None));
  Ret (match o with Some i => (true, i) | None => (false, 0) end).

(** The loop of [make_partition] for a leader [l]. *)
Definition split_around (k : nat) (l : Z) : outcome (list Z * list Z) :=
  let p1 := replicate (k / 2 + 1) 0 in
  let p2 := replicate (k / 2) 0 in
  '(p1, p2, _) ← for_range k 0 (λ i '(p1, p2, j),
      if i =? l then Ret (p1, p2, j)
      else if j <? go_len p1 then p1 ← slice_set p1 j i; Ret (p1, p2, j + 1)
      else p2 ← slice_set p2 (j - go_len p1) i; Ret (p1, p2, j + 1)) (p1, p2, 0);
  p2 ← slice_set p2 (go_len p2 - 1) l;
  Ret (p1, p2).

Definition make_partition (c : config) : outcome (list Z * list Z) := '(_, l) ← Leader c; split_around (n c) l.

(** ** Setting up and statistics *)

Definition make_config (k : nat) (unreliable : bool) (maxstate now : Z) (draw : Z → Z → string) : outcome config :=
  let c := mkConfig false MakeNetwork k (replicate k None) (replicate k None) (replicate k None) ∅ (Z.of_nat k + 1000) maxstate now 0 0 0 (mkMemory ∅ ∅ 0) in
  c ← for_range (n c) 0 (λ i c, StartServer (draw i) i c) c;
  c ← ConnectAll c;
  Ret (set_net (Reliable (negb unreliable) (net c)) c).

Definition rpcTotal (c : config) : Z := GetTotalCount (net c).
Definition checkTimeout (now : Z) (c : config) : outcome unit := if negb (failed c) && (120 * 10 ^ 9 <? now - start c) then Exit else Ret tt.

Definition cleanup (now : Z) (c : config) : outcome config :=
  c ← for_range (length (kvservers c)) 0 (λ i c,
        kv ← slice_get (kvservers c) i;
        match kv with Some a => Ret (set_servers (kvservers c) (kill_at a (mem c)) c) | None => Ret c end) c;
  nt ← Cleanup (net c);
  let c := set_net nt c in
  _ ← checkTimeout now c; Ret c.

Definition max_size (size : Persister → Z) (c : config) : outcome Z :=
  for_range (n c) 0 (λ i m,
    s ← slice_get (saved c) i;
    match s with None => Panic | Some ps => let k := size ps in Ret (if k >? m then k else m) end) 0.
Definition LogSize (c : config) : outcome Z := max_size RaftStateSize c.
Definition SnapshotSize (c : config) : outcome Z := max_size Raft.SnapshotSize c.

Definition begin (now : Z) (c : config) : config := set_stats now (rpcTotal c) 0 c.
Definition op (c : config) : config := set_stats (t0 c) (rpcs0 c) (add_int 32 (ops c) 1) c.
Definition end_ (now : Z) (c : config) : outcome (option (Z * nat * Z * Z)) :=
  _ ← checkTimeout now c;
  if failed c then Ret None else Ret (Some (now - t0 c, n c, rpcTotal c - rpcs0 c, ops c)).

(** ** Which servers can talk *)

Definition name (c : config) (i j : Z) : option string := if decide (0 ≤ i ∧ 0 ≤ j) then row ← mjoin (endnames c !! Z.to_nat i); row !! Z.to_nat j else None.

(** All servers were started, and every end has a name of its own. *)
Record all_up (c : config) : Prop := {
  up_rows : ∀ i, 0 ≤ i < Z.of_nat (n c) → ∃ row, endnames c !! Z.to_nat i = Some (Some row) ∧ length row = n c;
  up_inj : ∀ i j i' j' e, name c i j = Some e → name c i' j' = Some e → i = i' ∧ j = j'
}.

Definition in_range (c : config) (l : list Z) : Prop := Forall (λ i, 0 ≤ i < Z.of_nat (n c)) l.

(** A sequence of switches of ends. *)
Definition switches (ws : list (string * bool)) (nt : Network) : Network (Name := netname) := foldl (λ nt w, Enable (inl w.1) w.2 nt) nt ws.

Lemma switches_app ws1 ws2 nt : switches (ws1 ++ ws2) nt = switches ws2 (switches ws1 nt).
Proof. unfold switches. apply foldl_app. Qed.

Lemma switches_none ws nt e : (∀ b, (e, b) ∉ ws) → enabled (switches ws nt) !! (inl e : netname) = enabled nt !! inl e.
Proof.
  revert nt. induction ws as [|[e' b'] ws IH]; intros nt Hn; [done|]. simpl. rewrite IH by (intros b Hb; apply (Hn b); apply elem_of_cons; by right).
  simpl. rewrite lookup_insert_ne; [done|]. intros [= ->]. apply (Hn b'). apply elem_of_cons. by left.
Qed.

Lemma switches_all ws nt e b : (∀ b', (e, b') ∈ ws → b' = b) → (e, b) ∈ ws → enabled (switches ws nt) !! (inl e : netname) = Some b.
Proof.
  revert nt. induction ws as [|[e' b'] ws IH]; intros nt Hall Hin; [by apply elem_of_nil in Hin|]. simpl.
  destruct (decide ((e, b) ∈ ws)) as [Hw|Hw]; [apply IH; [|done]; intros b0 Hb0; apply Hall; apply elem_of_cons; by right|].
  apply elem_of_cons in Hin as [[= <- <-]|Hin]; [|done]. rewrite switches_none; [simpl; by rewrite lookup_insert_eq|].
  intros b0 Hb0. apply Hw. rewrite <-(Hall b0); [done|]. apply elem_of_cons. by right.
Qed.

(** The ends between [i] and the servers of a list. *)
Definition ends_of (c : config) (i : Z) (l : list Z) (b : bool) : list (string * bool) :=
  omap (λ x, (λ e, (e, b)) <$> name c i x) l ++ omap (λ x, (λ e, (e, b)) <$> name c x i) l.

Lemma name_up c i j : all_up c → 0 ≤ i < Z.of_nat (n c) → 0 ≤ j < Z.of_nat (n c) → ∃ e, name c i j = Some e ∧
  ∀ nt b, enable_end i j b (set_net nt c) = Ret (set_net (Enable (inl e) b nt) c).
Proof.
  intros Hup Hi Hj. destruct (up_rows c Hup i Hi) as (row & Hrow & Hlen). destruct (lookup_lt_is_Some_2 row (Z.to_nat j)) as [e He]; [lia|].
  exists e. unfold name. rewrite decide_True by lia. rewrite Hrow. simpl. split; [done|]. intros nt b. unfold enable_end. simpl.
  destruct (slice_get_ok (endnames c) i) as (r & -> & Hr); [apply lookup_lt_Some in Hrow; unfold go_len; lia|]. simpl.
  assert (r = Some row) as -> by congruence. simpl. destruct (slice_get_ok row j) as (e' & -> & He'); [unfold go_len; lia|].
  assert (e' = e) as -> by congruence. done.
Qed.

(** Switching the ends from or to [i] along a list, as [connectUnlocked] and
    [disconnectUnlocked] do. *)
Lemma switch_list {A} c (f : A → option string) (b : bool) (l : list A) (body : A → config → outcome config) nt :
  (∀ x nt, x ∈ l → ∃ e, f x = Some e ∧ body x (set_net nt c) = Ret (set_net (Enable (inl e) b nt) c)) →
  for_each l body (set_net nt c) = Ret (set_net (switches (omap (λ x, (λ e, (e, b)) <$> f x) l) nt) c).
Proof.
  revert nt. induction l as [|x l IH]; intros nt Hb; [done|]. simpl. destruct (Hb x nt) as (e & He & ->); [apply elem_of_cons; by left|]. simpl.
  rewrite He. simpl. apply IH. intros y nt' Hy. apply Hb. apply elem_of_cons. by right.
Qed.

Lemma connectUnlocked_eq c i l nt : all_up c → 0 ≤ i < Z.of_nat (n c) → in_range c l →
  connectUnlocked i l (set_net nt c) = Ret (set_net (switches (ends_of c i l true) nt) c).
Proof.
  intros Hup Hi Hl. unfold connectUnlocked, in_range in *. rewrite Forall_forall in Hl. rewrite (switch_list c (name c i) true).
  - cbn [mbind outcome_bind]. rewrite (switch_list c (λ x, name c x i) true); [unfold ends_of; by rewrite switches_app|].
    intros x nt' Hx. destruct (name_up c x i Hup (Hl x Hx) Hi) as (e & He & Hb). by exists e.
  - intros x nt' Hx. destruct (name_up c i x Hup Hi (Hl x Hx)) as (e & He & Hb). by exists e.
Qed.

Lemma omap_imap_snd {A B} (f : A → option B) (l : list A) : omap (λ p : Z * A, f p.2) (imap (λ j x, (Z.of_nat j, x)) l) = omap f l.
Proof.
  assert (Hg : ∀ (g : nat → Z), omap (λ p : Z * A, f p.2) (imap (λ j x, (g j, x)) l) = omap f l); [|apply Hg].
  induction l as [|x l IH]; intros g; [done|]. rewrite imap_cons. simpl. destruct (f x); [f_equal|]; apply (IH (g ∘ S)).
Qed.

Lemma disconnectUnlocked_eq c i l nt : all_up c → 0 ≤ i < Z.of_nat (n c) → in_range c l → (length l ≤ n c)%nat →
  disconnectUnlocked i l (set_net nt c) = Ret (set_net (switches (ends_of c i l false) nt) c).
Proof.
  intros Hup Hi Hl Hlen. unfold disconnectUnlocked, in_range in *. rewrite Forall_forall in Hl.
  assert (Hrow : ∀ x, 0 ≤ x < Z.of_nat (n c) → ∃ row, slice_get (endnames c) x = Ret (Some row)).
  { intros x Hx. destruct (up_rows c Hup x Hx) as (row & Hrow & _). exists row. apply slice_get_Ret. split; [lia|done]. }
  rewrite (switch_list c (name c i) false).
  - cbn [mbind outcome_bind]. rewrite (switch_list c (λ p : Z * Z, name c p.2 i) false).
    + unfold ends_of. rewrite switches_app, (omap_imap_snd (λ x, (λ e, (e, false)) <$> name c x i)). done.
    + intros [j x] nt' Hx. apply elem_of_lookup_imap in Hx as (j' & x' & [= -> ->] & Hx).
      destruct (name_up c x' i Hup) as (e & He & Hb); [apply Hl; by eapply list_elem_of_lookup_2|done|]. exists e. split; [done|].
      cbn [endnames set_net]. destruct (Hrow (Z.of_nat j')) as [row ->]; [apply lookup_lt_Some in Hx; lia|]. cbn [mbind outcome_bind]. apply Hb.
  - intros x nt' Hx. destruct (name_up c i x Hup Hi (Hl x Hx)) as (e & He & Hb). exists e. split; [done|].
    cbn [endnames set_net]. destruct (Hrow i Hi) as [row ->]. cbn [mbind outcome_bind]. apply Hb.
Qed.

Lemma switch_blocks c (w : Z → list (string * bool)) (l : list Z) (body : Z → config → outcome config) nt :
  (∀ x nt, x ∈ l → body x (set_net nt c) = Ret (set_net (switches (w x) nt) c)) →
  for_each l body (set_net nt c) = Ret (set_net (switches (l ≫= w) nt) c).
Proof.
  revert nt. induction l as [|x l IH]; intros nt Hb; [done|]. cbn [for_each]. rewrite Hb by (apply elem_of_cons; by left). cbn [mbind outcome_bind].
  rewrite IH by (intros y nt' Hy; apply Hb; apply elem_of_cons; by right). cbn [mbind list_bind]. by rewrite switches_app.
Qed.

Definition partition_switches (c : config) (p1 p2 : list Z) : list (string * bool) :=
  (p1 ≫= λ i, (ends_of c i p2 false ++ ends_of c i p1 true)%list) ++ (p2 ≫= λ i, (ends_of c i p1 false ++ ends_of c i p2 true)%list).

Lemma partition_eq c p1 p2 : all_up c → in_range c p1 → in_range c p2 → (length p1 ≤ n c)%nat → (length p2 ≤ n c)%nat →
  partition p1 p2 c = Ret (set_net (switches (partition_switches c p1 p2) (net c)) c).
Proof.
  intros Hup H1 H2 L1 L2. unfold partition.
  assert (Hone : ∀ a b i nt, in_range c a → in_range c b → (length b ≤ n c)%nat → i ∈ a →
    (c ← disconnectUnlocked i b (set_net nt c); connectUnlocked i a c) = Ret (set_net (switches (ends_of c i b false ++ ends_of c i a true) nt) c)).
  { intros a b i nt Ha Hb Lb Hi. assert (Hir : 0 ≤ i < Z.of_nat (n c)) by (by eapply (proj1 (Forall_forall _ _)) in Ha).
    rewrite disconnectUnlocked_eq by done. cbn [mbind outcome_bind]. rewrite connectUnlocked_eq by done. by rewrite switches_app. }
  replace c with (set_net (net c) c) at 1 by by destruct c.
  rewrite (switch_blocks c (λ i, (ends_of c i p2 false ++ ends_of c i p1 true)%list)) by (intros x nt Hx; by apply Hone). cbn [mbind outcome_bind].
  rewrite (switch_blocks c (λ i, (ends_of c i p1 false ++ ends_of c i p2 true)%list)) by (intros x nt Hx; by apply Hone).
  unfold partition_switches. by rewrite switches_app.
Qed.

Lemma elem_of_ends_of c i l b e v : (e, v) ∈ ends_of c i l b ↔ v = b ∧ ∃ x, x ∈ l ∧ (name c i x = Some e ∨ name c x i = Some e).
Proof.
  unfold ends_of. rewrite elem_of_app, !list_elem_of_omap. split.
  - intros [(x & Hx & Hn)|(x & Hx & Hn)]; apply fmap_Some in Hn as (e' & Hn & [= -> ->]); (split; [done|]); exists x; eauto.
  - intros [-> (x & Hx & [Hn|Hn])]; [left|right]; exists x; rewrite Hn; done.
Qed.

(** The pairs of servers that [partition] joins and separates. *)
Definition same_side (p1 p2 : list Z) (a b : Z) : Prop := (a ∈ p1 ∧ b ∈ p1) ∨ (a ∈ p2 ∧ b ∈ p2).
Definition across (p1 p2 : list Z) (a b : Z) : Prop := (a ∈ p1 ∧ b ∈ p2) ∨ (a ∈ p2 ∧ b ∈ p1).

Lemma elem_of_partition_switches c p1 p2 a b e v : all_up c → name c a b = Some e →
  (e, v) ∈ partition_switches c p1 p2 ↔ (v = true ∧ same_side p1 p2 a b) ∨ (v = false ∧ across p1 p2 a b).
Proof.
  intros Hup He. assert (Hu : ∀ x y, name c x y = Some e → x = a ∧ y = b) by (intros x y Hxy; by apply (up_inj c Hup x y a b e)).
  unfold partition_switches, same_side, across. rewrite elem_of_app, !list_elem_of_bind. split.
  - intros [(i & Hw & Hi)|(i & Hw & Hi)]; apply elem_of_app in Hw as [Hw|Hw]; apply elem_of_ends_of in Hw as (-> & x & Hx & [Hn|Hn]);
      destruct (Hu _ _ Hn) as [-> ->]; tauto.
  - intros [[-> [[Ha Hb]|[Ha Hb]]]|[-> [[Ha Hb]|[Ha Hb]]]]; [left|right|left|right];
      (exists a; split; [|done]; rewrite elem_of_app, !elem_of_ends_of); [right|right|left|left]; (split; [done|]); exists b; split; auto.
Qed.

(** ** The configuration during a test *)

Record kv_wf (c : config) : Prop := {
  kw_servers : length (kvservers c) = n c;
  kw_saved : length (saved c) = n c;
  kw_endnames : length (endnames c) = n c;
  kw_rows : ∀ i row, endnames c !! i = Some (Some row) → length row = n c;
  kw_inj : ∀ i j i' j' e, name c i j = Some e → name c i' j' = Some e → i = i' ∧ j = j';
  kw_ends : ∀ i j e, name c i j = Some e → inl e ∈ ends (net c)
}.

Definition rows_started (c : config) (k : nat) : Prop := ∀ i, (i < k)%nat → is_Some (mjoin (endnames c !! i)).

Lemma wf_all_up c : kv_wf c → rows_started c (n c) → all_up c.
Proof.
  intros Hwf Hst. split; [|apply Hwf]. intros i Hi. destruct (Hst (Z.to_nat i)) as [row Hrow]; [lia|]. exists row.
  destruct (endnames c !! Z.to_nat i) as [[r|]|] eqn:E; simplify_eq/=. split; [done|]. by eapply (kw_rows c Hwf).
Qed.

Lemma switches_frame ws nt : ends (switches ws nt) = ends nt ∧ connections (switches ws nt) = connections nt ∧ servers (switches ws nt) = servers nt.
Proof. revert nt. induction ws as [|w ws IH]; intros nt; simpl; [done|]. destruct (IH (Enable (inl w.1) w.2 nt)) as (-> & -> & ->). done. Qed.

Lemma set_net_wf c nt : kv_wf c → ends (net c) ⊆ ends nt → kv_wf (set_net nt c).
Proof. intros [] Hs. split; try done. simpl. intros i j e Hn. apply Hs. by eapply kw_ends0. Qed.

Lemma make_ends_spec names nt0 : (∃ nt, make_ends names nt0 = Ret nt ∧ ends_made names nt0 (length names) nt) ∨ make_ends names nt0 = Exit.
Proof.
  unfold make_ends. destruct (for_range_inv_Exit (ends_made names nt0) (λ j nt, e ← slice_get names j; nt ← MakeEnd (inl e) nt; Ret (Connect (inl e) (inr j) nt))
    (length names) 0 nt0) as [(nt & Hnt & Hem)|?]; [apply ends_made_0| |left; by exists nt|by right].
  intros j nt Hj Hem. destruct (lookup_lt_is_Some_2 names j) as [e He]; [lia|]. rewrite slice_get_nat, He. cbn [mbind outcome_bind].
  destruct (decide (inl e ∈ ends nt)) as [Hin|Hin]; [right; unfold MakeEnd; by rewrite bool_decide_true by done|].
  left. destruct (ends_made_S names nt0 j nt e Hem He Hin) as (nt' & -> & Hnt'). cbn. by eexists.
Qed.

(** New ends for server [i]. *)
Lemma new_row_wf c i names nt : kv_wf c → (i < n c)%nat → length names = n c → ends_made names (net c) (length names) nt →
  kv_wf (set_net nt (set_endnames (<[i := Some names]> (endnames c)) c)).
Proof.
  intros Hwf Hi Hlen Hem. set (c' := set_net _ _).
  assert (Hname : ∀ a b e, name c' a b = Some e → (a = Z.of_nat i ∧ 0 ≤ b ∧ names !! Z.to_nat b = Some e ∧ inl e ∉ ends (net c) ∧ inl e ∈ ends nt) ∨ name c a b = Some e).
  { intros a b e. unfold name. simpl. case_decide as Hpos; [|done]. destruct (decide (Z.to_nat a = i)) as [<-|Hne].
    - rewrite list_lookup_insert_eq by (rewrite (kw_endnames c Hwf); lia). simpl. intros Hb. left. split; [lia|]. split; [lia|]. split; [done|].
      assert (Hlt : (Z.to_nat b < length names)%nat) by by eapply lookup_lt_Some. by destruct (em_new _ _ _ _ Hem _ _ Hlt Hb) as (? & ? & _).
    - rewrite list_lookup_insert_ne by done. by right. }
  split; try apply Hwf.
  - simpl. rewrite length_insert. apply Hwf.
  - intros a row. simpl. destruct (decide (a = i)) as [->|Hne].
    + rewrite list_lookup_insert_eq by (rewrite (kw_endnames c Hwf); lia). by intros [= <-].
    + rewrite list_lookup_insert_ne by done. apply (kw_rows c Hwf).
  - intros a b a' b' e [(-> & Hb0 & Hb & Hn & _)|Ha]%Hname [(-> & Hb0' & Hb' & Hn' & _)|Ha']%Hname.
    + split; [done|]. pose proof (lookup_lt_Some _ _ _ Hb). pose proof (lookup_lt_Some _ _ _ Hb').
      pose proof (em_inj _ _ _ _ Hem (Z.to_nat b) (Z.to_nat b') e). naive_solver lia.
    + destruct Hn. by eapply (kw_ends c Hwf).
    + destruct Hn'. by eapply (kw_ends c Hwf).
    + by apply (kw_inj c Hwf a b a' b' e).
  - intros a b e [(_ & _ & _ & _ & ?)|Ha]%Hname; [done|]. simpl. destruct (em_old _ _ _ _ Hem (inl e)); [by eapply (kw_ends c Hwf)|done].
Qed.

Lemma StartServer_wf draw c i : kv_wf c → (i < n c)%nat →
  StartServer draw (Z.of_nat i) c = Exit ∨
  ∃ c', StartServer draw (Z.of_nat i) c = Ret c' ∧ kv_wf c' ∧ n c' = n c ∧ is_Some (mjoin (endnames c' !! i)) ∧
    ∀ j, j ≠ i → endnames c' !! j = endnames c !! j.
Proof.
  intros Hwf Hi. unfold StartServer. set (names := draw <$> seqZ 0 (Z.of_nat (n c))).
  assert (Hlen : length names = n c) by (unfold names; rewrite length_fmap, length_seqZ; lia).
  rewrite slice_set_ok, Nat2Z.id by (unfold go_len; rewrite (kw_endnames c Hwf); lia). cbn [mbind outcome_bind].
  destruct (make_ends_spec names (net c)) as [(nt & Hnt & Hem)|Hnt]; change (net (set_endnames _ c)) with (net c); rewrite Hnt; [|by left].
  right. cbn [mbind outcome_bind]. pose proof (new_row_wf c i names nt Hwf Hi Hlen Hem) as Hwf1. set (c1 := set_net nt _) in *.
  destruct (lookup_lt_is_Some_2 (saved c1) i) as [s Es]; [rewrite (kw_saved c1 Hwf1); exact Hi|]. rewrite slice_get_nat, Es. cbn [mbind outcome_bind].
  rewrite slice_set_ok, Nat2Z.id by (unfold go_len; rewrite (kw_saved c1 Hwf1); simpl; lia). cbn [mbind outcome_bind new_server].
  rewrite slice_set_ok, Nat2Z.id by (unfold go_len; simpl; rewrite (kw_servers c Hwf); lia). cbn [mbind outcome_bind]. eexists. split; [reflexivity|].
  split; [|split; [done|split]].
  - destruct Hwf1. split; try done; simpl; by rewrite length_insert.
  - simpl. rewrite list_lookup_insert_eq by (rewrite (kw_endnames c Hwf); lia). by eexists.
  - intros j Hj. simpl. by rewrite list_lookup_insert_ne.
Qed.

Lemma All_in_range c : in_range c (All c).
Proof. apply Forall_forall. intros x (j & -> & Hj%elem_of_seq)%list_elem_of_fmap. lia. Qed.

Lemma All_length c : length (All c) = n c.
Proof. unfold All. by rewrite length_fmap, length_seq. Qed.

Lemma set_net_id c : set_net (net c) c = c.
Proof. by destruct c. Qed.

Lemma ConnectAll_eq c : all_up c → ∃ ws, ConnectAll c = Ret (set_net (switches ws (net c)) c).
Proof.
  intros Hup. unfold ConnectAll.
  destruct (for_range_inv (λ k c', ∃ ws, c' = set_net (switches ws (net c)) c) (λ i c, connectUnlocked i (All c) c) (n c) 0 c) as (c' & Hc' & ws & ->).
  { exists []. symmetry. apply set_net_id. }
  { intros j c' Hj (ws & ->). change (All (set_net _ c)) with (All c). rewrite connectUnlocked_eq; [|done|lia|apply All_in_range].
    eexists. split; [done|]. eexists. by rewrite <-switches_app. }
  by exists ws.
Qed.

Definition cfg_ok (c : config) : Prop := kv_wf c ∧ rows_started c (n c).

Lemma switched_ok c ws : cfg_ok c → cfg_ok (set_net (switches ws (net c)) c).
Proof. intros [Hwf Hst]. split; [|done]. apply set_net_wf; [done|]. by destruct (switches_frame ws (net c)) as (-> & _). Qed.

Lemma make_config_ok k unreliable maxstate now draw c : make_config k unreliable maxstate now draw = Ret c → cfg_ok c ∧ n c = k.
Proof.
  unfold make_config. cbn zeta. set (c0 := mkConfig _ _ _ _ _ _ _ _ _ _ _ _ _ _). change (n c0) with k. intros Hm.
  assert (Hno : ∀ i j, name c0 i j = None).
  { intros i j. unfold name. case_decide; [|done]. simpl. destruct (replicate k None !! Z.to_nat i) as [o|] eqn:E; [|done]. by apply lookup_replicate_1 in E as [-> _]. }
  destruct (for_range_inv_Exit (λ j c, kv_wf c ∧ n c = k ∧ rows_started c j) (λ i c, StartServer (draw i) i c) k 0 c0) as [(c1 & H1 & Hwf1 & Hn1 & Hst1)|H1].
  { split; [|split; [done|intros i; lia]]. split; try apply length_replicate; try (intros i j; intros; by rewrite Hno in *).
    intros i row Hi. simpl in Hi. by apply lookup_replicate_1 in Hi as [? _]. }
  { intros j c1 Hj (Hwf & Hn & Hst). destruct (StartServer_wf (draw (Z.of_nat j)) c1 j Hwf) as [->|(c2 & -> & Hwf2 & Hn2 & Hj2 & Ho2)]; [lia|by right|].
    left. exists c2. split; [done|]. split; [done|]. split; [congruence|]. intros i Hi. destruct (decide (i = j)) as [->|Hne]; [done|].
    rewrite Ho2 by done. apply Hst. lia. }
  2: { change (Z.of_nat 0) with 0 in H1. by rewrite H1 in Hm. }
  change (Z.of_nat 0) with 0 in H1. rewrite H1 in Hm. cbn [mbind outcome_bind] in Hm.
  assert (Hok : cfg_ok c1) by (split; [done|by rewrite Hn1]). destruct (ConnectAll_eq c1) as [ws Hws]; [apply wf_all_up; apply Hok|].
  rewrite Hws in Hm. cbn [mbind outcome_bind] in Hm. injection Hm as <-. split; [|done]. destruct (switched_ok c1 ws Hok) as [Hwf2 Hst2].
  split; [|exact Hst2]. by apply (set_net_wf (set_net (switches ws (net c1)) c1)).
Qed.

Lemma ShutdownServer_ok c i c' : cfg_ok c → 0 ≤ i < Z.of_nat (n c) → ShutdownServer i c = Ret c' → cfg_ok c' ∧ n c' = n c.
Proof.
  intros Hok Hi. unfold ShutdownServer. rewrite <-(set_net_id c) at 2.
  rewrite disconnectUnlocked_eq; [|apply wf_all_up; apply Hok|done|apply All_in_range|by rewrite All_length]. cbn [mbind outcome_bind].
  pose proof (switched_ok c (ends_of c i (All c) false) Hok) as Hok1. set (c1 := set_net (switches _ _) c) in *. change (n c) with (n c1). intros Hs.
  apply bind_Ret_inv in Hs as (s & _ & Hs). apply bind_Ret_inv in Hs as (sv & Hsv & Hs). apply bind_Ret_inv in Hs as (kv & _ & Hs).
  apply slice_set_Ret in Hsv as [_ ->]. destruct Hok1 as [[K1 K2 K3 K4 K5 K6] Hst].
  destruct kv as [a|]; [apply bind_Ret_inv in Hs as (ks & Hks & Hs); apply slice_set_Ret in Hks as [_ ->]|]; injection Hs as <-.
  all: split; [|done]; split; [|exact Hst]; split; simpl; rewrite ?length_insert; done.
Qed.

(** What a test does: servers go up and down and are connected, clients come and go.
    (A client's own ends and the statistics of the network do not matter here.) *)
Inductive config_step (c : config) : config → Prop :=
| ks_connect i l c' : 0 ≤ i < Z.of_nat (n c) → in_range c l → connect i l c = Ret c' → config_step c c'
| ks_disconnect i l c' : 0 ≤ i < Z.of_nat (n c) → in_range c l → (length l ≤ n c)%nat → disconnect i l c = Ret c' → config_step c c'
| ks_partition p1 p2 c' : in_range c p1 → in_range c p2 → (length p1 ≤ n c)%nat → (length p2 ≤ n c)%nat → partition p1 p2 c = Ret c' → config_step c c'
| ks_ConnectAll c' : ConnectAll c = Ret c' → config_step c c'
| ks_shutdown i c' : 0 ≤ i < Z.of_nat (n c) → ShutdownServer i c = Ret c' → config_step c c'
| ks_start draw i c' : (i < n c)%nat → StartServer draw (Z.of_nat i) c = Ret c' → config_step c c'
| ks_client ck names nt : make_ends names (net c) = Ret nt → config_step c (set_clerks (<[ck := names]> (clerks c)) (nextClientId c + 1) (set_net nt c))
| ks_client_ends ws : config_step c (set_net (switches ws (net c)) c)
| ks_deleteClient ck : config_step c (deleteClient ck c)
| ks_servers m : config_step c (set_servers (kvservers c) m c)
| ks_begin now : config_step c (begin now c)
| ks_op : config_step c (op c).

Definition config_reachable (c : config) : Prop :=
  ∃ k unreliable maxstate now draw c0, make_config k unreliable maxstate now draw = Ret c0 ∧ rtc config_step c0 c.

Lemma kv_step_ok c c' : cfg_ok c → config_step c c' → cfg_ok c'.
Proof.
  intros Hok Hs. assert (Hup : all_up c) by (apply wf_all_up; apply Hok). pose proof (set_net_id c) as Hid.
  destruct Hs as [i l c' Hi Hl Hc|i l c' Hi Hl Hlen Hc|p1 p2 c' H1 H2 L1 L2 Hc|c' Hc|i c' Hi Hc|draw i c' Hi Hc|ck names nt Hnt|ws|ck|m|now|].
  - unfold connect in Hc. rewrite <-Hid, connectUnlocked_eq in Hc by done. injection Hc as <-. by apply switched_ok.
  - unfold disconnect in Hc. rewrite <-Hid, disconnectUnlocked_eq in Hc by done. injection Hc as <-. by apply switched_ok.
  - rewrite partition_eq in Hc by done. injection Hc as <-. by apply switched_ok.
  - destruct (ConnectAll_eq c Hup) as [ws Hws]. rewrite Hws in Hc. injection Hc as <-. by apply switched_ok.
  - by destruct (ShutdownServer_ok c i c' Hok Hi Hc).
  - destruct Hok as [Hwf Hst]. destruct (StartServer_wf draw c i Hwf Hi) as [E|(c1 & E & Hwf1 & Hn1 & Hi1 & Ho1)]; rewrite Hc in E; [done|].
    injection E as <-. split; [done|]. intros j Hj. destruct (decide (j = i)) as [->|Hne]; [done|]. rewrite Ho1 by done. apply Hst. by rewrite <-Hn1.
  - destruct (make_ends_spec names (net c)) as [(nt' & E & Hem)|E]; rewrite Hnt in E; [|done]. injection E as <-. destruct Hok as [Hwf Hst]. split; [|done].
    assert (Hwf' : kv_wf (set_net nt c)) by (apply set_net_wf; [done|]; intros x Hx; by destruct (em_old _ _ _ _ Hem x Hx)). by destruct Hwf'.
  - by apply switched_ok.
  - destruct Hok as [[] Hst]. by split.
  - destruct Hok as [[] Hst]. by split.
  - destruct Hok as [[] Hst]. by split.
  - destruct Hok as [[] Hst]. by split.
Qed.

Lemma reachable_cfg_ok c : config_reachable c → cfg_ok c.
Proof.
  intros (k & u & ms & now & draw & c0 & Hm & Hr). apply make_config_ok in Hm as [Hok _]. induction Hr as [|c1 c2 c3 Hs _ IH]; [done|].
  apply IH. by eapply kv_step_ok.
Qed.

(** ** Splitting around the leader *)

Definition others (k : nat) (l : Z) : list Z := filter (λ i, i ≠ l) (Z.of_nat <$> seq 0 k).

Lemma others_S k l : others (S k) l = (others k l ++ (if decide (Z.of_nat k = l) then [] else [Z.of_nat k]))%list.
Proof.
  unfold others. rewrite seq_S, fmap_app, filter_app. f_equal. change (Z.of_nat <$> [(0 + k)%nat]) with [Z.of_nat k].
  rewrite filter_cons, filter_nil. repeat case_decide; naive_solver.
Qed.

Lemma others_length k l : 0 ≤ l → length (others k l) = (if decide (l < Z.of_nat k) then (k - 1)%nat else k).
Proof.
  intros Hl. induction k as [|k IH]; [case_decide; [lia|done]|]. rewrite others_S, length_app, IH. repeat case_decide; simpl; lia.
Qed.

(** Writing the next server into the two parts taken together. *)
Lemma write_part (p1 p2 os : list Z) r x :
  (p1 ++ p2 = os ++ replicate (S r) 0)%list →
  ∃ q1 q2, (if Z.of_nat (length os) <? go_len p1 then q ← slice_set p1 (Z.of_nat (length os)) x; Ret (q, p2)
            else q ← slice_set p2 (Z.of_nat (length os) - go_len p1) x; Ret (p1, q)) = Ret (q1, q2) ∧
    length q1 = length p1 ∧ length q2 = length p2 ∧ (q1 ++ q2 = (os ++ [x]) ++ replicate r 0)%list.
Proof.
  intros E. assert (Hlen : (length p1 + length p2 = length os + S r)%nat) by (rewrite <-length_app, E, length_app, length_replicate; done).
  assert (Hins : <[length os := x]> (p1 ++ p2)%list = ((os ++ [x]) ++ replicate r 0)%list).
  { rewrite E, insert_app_r_alt, Nat.sub_diag by lia. simpl. by rewrite <-app_assoc. }
  unfold go_len. destruct (Z.ltb_spec (Z.of_nat (length os)) (Z.of_nat (length p1))) as [Hlt|Hge].
  - rewrite slice_set_ok, Nat2Z.id by (unfold go_len; lia). eexists _, _. split; [reflexivity|]. rewrite length_insert. split; [done|]. split; [done|].
    by rewrite <-Hins, insert_app_l by lia.
  - rewrite slice_set_ok by (unfold go_len; lia). eexists _, _. split; [reflexivity|]. rewrite length_insert. split; [done|]. split; [done|].
    replace (Z.to_nat (Z.of_nat (length os) - Z.of_nat (length p1))) with (length os - length p1)%nat by lia.
    by rewrite <-Hins, insert_app_r_alt by lia.
Qed.

(** The two parts together are the other servers and then, in the last place, the
    leader. *)
Lemma split_around_spec k l : 0 ≤ l < Z.of_nat k → (2 ≤ k)%nat →
  ∃ p1 p2, split_around k l = Ret (p1, p2) ∧ length p1 = (k / 2 + 1)%nat ∧ length p2 = (k / 2)%nat ∧
    (p1 ++ p2 = <[(2 * (k / 2))%nat := l]> (others k l ++ replicate (2 * (k / 2) + 1 - (k - 1))%nat 0))%list.
Proof.
  intros Hl Hk. unfold split_around. cbn zeta. set (t := (2 * (k / 2) + 1)%nat).
  assert (Hd : (k = 2 * (k / 2) + k mod 2)%nat) by (apply Nat.div_mod; lia). assert (Hm : (k mod 2 < 2)%nat) by (apply Nat.mod_upper_bound; lia).
  assert (Hh : (1 ≤ k / 2)%nat) by (apply (Nat.div_le_mono 2 k 2) in Hk; [exact Hk|lia]).
  destruct (for_range_inv (λ i '(p1, p2, j), length p1 = (k / 2 + 1)%nat ∧ length p2 = (k / 2)%nat ∧ j = Z.of_nat (length (others i l)) ∧
      (p1 ++ p2 = others i l ++ replicate (t - length (others i l)) 0)%list)
    (λ i '(p1, p2, j),
      if i =? l then Ret (p1, p2, j)
      else if j <? go_len p1 then p1 ← slice_set p1 j i; Ret (p1, p2, j + 1)
      else p2 ← slice_set p2 (j - go_len p1) i; Ret (p1, p2, j + 1)) k 0 (replicate (k / 2 + 1) 0, replicate (k / 2) 0, 0))
    as ([[p1 p2] j] & Hr & L1 & L2 & Hj & Hp).
  { rewrite !length_replicate. split; [done|]. split; [done|]. split; [done|]. change (others 0 l) with (@nil Z). cbn [length app].
    rewrite <-replicate_add. f_equal. unfold t. lia. }
  { intros i [[p1 p2] j] Hi (L1 & L2 & -> & Hp). rewrite others_S. destruct (Z.eqb_spec (Z.of_nat i) l) as [El|El].
    - eexists. split; [reflexivity|]. rewrite decide_True by done. rewrite app_nil_r. done.
    - rewrite decide_False by done. assert (Hlt : (length (others i l) < t)%nat) by (rewrite others_length by lia; unfold t; case_decide; lia).
      replace (t - length (others i l))%nat with (S (t - S (length (others i l)))) in Hp by lia.
      destruct (write_part p1 p2 (others i l) _ (Z.of_nat i) Hp) as (q1 & q2 & Hw & Q1 & Q2 & Hq). exists (q1, q2, Z.of_nat (length (others i l)) + 1).
      rewrite length_app. cbn [length]. split.
      + destruct (Z.of_nat (length (others i l)) <? go_len p1); apply bind_Ret_inv in Hw as (q & Hs & [= <- <-]); by rewrite Hs.
      + split; [congruence|]. split; [congruence|]. split; [lia|]. by replace (t - (length (others i l) + 1))%nat with (t - S (length (others i l)))%nat by lia. }
  change (Z.of_nat 0) with 0 in Hr. rewrite Hr. cbn [mbind outcome_bind]. rewrite Nat.add_0_l in Hp, Hj.
  rewrite others_length, decide_True in Hp by lia. fold t.
  rewrite slice_set_ok by (unfold go_len; lia). cbn [mbind outcome_bind]. eexists _, _. split; [reflexivity|]. rewrite length_insert.
  split; [done|]. split; [done|]. rewrite <-Hp, insert_app_r_alt by lia. f_equal. f_equal. unfold go_len. lia.
Qed.

Lemma Leader_range c b l : Leader c = Ret (b, l) → (0 < n c)%nat → 0 ≤ l < Z.of_nat (n c).
Proof.
  unfold Leader. intros H Hn. apply bind_Ret_inv in H as (o & Hf & H).
  assert (Hg : ∀ k i, 0 ≤ i → for_find k i (λ i, b ← is_leader c i; Ret (if b : bool then Some i else None)) = Ret o →
    match o with Some x => i ≤ x < i + Z.of_nat k | None => True end).
  { induction k as [|k IH]; intros i Hi; simpl; [by intros [= <-]|]. destruct (is_leader c i) as [[]| |]; simpl; [intros [= <-]; lia| |done|done].
    intros Hk. apply IH in Hk; [|lia]. destruct o; [lia|done]. }
  apply Hg in Hf; [|lia]. destruct o; injection H as <- <-; lia.
Qed.

(** ** Shuffling *)

Lemma swap_step_perm {A} (r : Z → Z) (i : Z) (sa sa' : list A) : 0 ≤ i < go_len sa → 0 ≤ r i ≤ i → swap_step r i sa = Ret sa' → sa' ≡ₚ sa.
Proof.
  intros Hi Hr. unfold swap_step, go_len in *. destruct (slice_get_ok sa i) as (x & -> & Hx); [unfold go_len; lia|]. cbn [mbind outcome_bind].
  destruct (slice_get_ok sa (r i)) as (y & -> & Hy); [unfold go_len; lia|]. cbn [mbind outcome_bind]. rewrite slice_set_ok by (unfold go_len; lia).
  cbn [mbind outcome_bind]. rewrite slice_set_ok by (unfold go_len; rewrite length_insert; lia). intros [= <-].
  by apply Permutation_insert_swap.
Qed.

Lemma random_handles_perm {A} (r : Z → Z) (kvh : list A) : (∀ i, 0 ≤ i < go_len kvh → 0 ≤ r i ≤ i) → ∃ sa, random_handles r kvh = Ret sa ∧ sa ≡ₚ kvh.
Proof.
  intros Hr. unfold random_handles.
  destruct (for_range_inv (λ _ sa, sa ≡ₚ kvh) (swap_step r) (length kvh) 0 kvh) as (sa & Hs & Hp); [done| |by exists sa].
  intros i sa Hi Hp. pose proof (Permutation_length Hp) as Hlen. assert (Hri : 0 ≤ r (Z.of_nat i) ≤ Z.of_nat i) by (apply Hr; unfold go_len; lia).
  assert (Hsw : ∃ sa', swap_step r (Z.of_nat i) sa = Ret sa').
  { unfold swap_step. destruct (slice_get_ok sa (Z.of_nat i)) as (x & -> & _); [unfold go_len; lia|]. cbn [mbind outcome_bind].
    destruct (slice_get_ok sa (r (Z.of_nat i))) as (y & -> & _); [unfold go_len; lia|]. cbn [mbind outcome_bind].
    rewrite slice_set_ok by (unfold go_len; lia). cbn [mbind outcome_bind]. rewrite slice_set_ok by (unfold go_len; rewrite length_insert; lia). by eexists. }
  destruct Hsw as [sa' Hsw]. exists sa'. split; [done|]. rewrite (swap_step_perm r (Z.of_nat i) sa sa'); [done|unfold go_len; lia|done|done].
Qed.

(** A partition of disjoint sides, in terms of who can send to whom. *)
Lemma partition_isolates c p1 p2 : all_up c → in_range c p1 → in_range c p2 → (length p1 ≤ n c)%nat → (length p2 ≤ n c)%nat →
  (∀ i, i ∈ p1 → i ∈ p2 → False) →
  ∃ c', partition p1 p2 c = Ret c' ∧ endnames c' = endnames c ∧ ∀ a b e, name c a b = Some e →
    (same_side p1 p2 a b → enabled (net c') !! inl e = Some true) ∧ (across p1 p2 a b → enabled (net c') !! inl e = Some false) ∧
    (a ∉ p1 → a ∉ p2 → enabled (net c') !! inl e = enabled (net c) !! inl e).
Proof.
  intros Hup H1 H2 L1 L2 Hdis. rewrite partition_eq by done. eexists. split; [reflexivity|]. split; [done|]. intros a b e He. cbn [net set_net].
  pose proof (λ v, elem_of_partition_switches c p1 p2 a b e v Hup He) as Hin. unfold same_side, across in *. split; [|split].
  - intros Hs. apply switches_all; [|apply Hin; auto]. intros b' [[-> _]|[-> Hx]]%Hin; [done|]. exfalso. destruct Hs as [[]|[]], Hx as [[]|[]]; eauto.
  - intros Ha. apply switches_all; [|apply Hin; auto]. intros b' [[-> Hx]|[-> _]]%Hin; [|done]. exfalso. destruct Ha as [[]|[]], Hx as [[]|[]]; eauto.
  - intros Ha1 Ha2. apply switches_none. intros b' [[-> Hx]|[-> Hx]]%Hin; destruct Hx as [[]|[]]; done.
Qed.

Lemma others_perm k l : 0 ≤ l < Z.of_nat k → (others k l ++ [l])%list ≡ₚ Z.of_nat <$> seq 0 k.
Proof.
  intros Hl. apply NoDup_Permutation.
  - apply NoDup_app. split; [apply NoDup_filter, NoDup_fmap_2; [apply _|apply NoDup_seq]|]. split; [|apply NoDup_singleton].
    intros x [Hx _]%list_elem_of_filter ->%list_elem_of_singleton. done.
  - apply NoDup_fmap_2; [apply _|apply NoDup_seq].
  - intros x. unfold others. rewrite elem_of_app, list_elem_of_filter, list_elem_of_singleton. split; [|destruct (decide (x = l)); tauto].
    intros [[_ Hx]| ->]; [done|]. apply list_elem_of_fmap. exists (Z.to_nat l). split; [lia|]. apply elem_of_seq. lia.
Qed.

(** The leader in the minority.  In every state of a test with an odd number of
    servers, at least three, [make_partition] splits the servers into a majority and a
    minority that has the server [Leader] names, every server on exactly one side;
    and [partition] with these sides leaves exactly the ends between servers of the
    same side enabled. *)
Theorem leader_in_minority (c : config) (found : bool) (l : Z) : config_reachable c → (3 ≤ n c)%nat → (n c mod 2 = 1)%nat → Leader c = Ret (found, l) →
  ∃ p1 p2 c', make_partition c = Ret (p1, p2) ∧ partition p1 p2 c = Ret c' ∧
    length p1 = (n c / 2 + 1)%nat ∧ length p2 = (n c / 2)%nat ∧ l ∈ p2 ∧ (p1 ++ p2)%list ≡ₚ All c ∧
    ∀ a b, 0 ≤ a < Z.of_nat (n c) → 0 ≤ b < Z.of_nat (n c) → ∃ e, name c a b = Some e ∧
      enabled (net c') !! inl e = Some (bool_decide (a ∈ p1 ↔ b ∈ p1)).
Proof.
  intros [Hwf Hst]%reachable_cfg_ok Hn Hodd HL. pose proof (wf_all_up c Hwf Hst) as Hup. pose proof (Leader_range c found l HL ltac:(lia)) as Hl.
  destruct (split_around_spec (n c) l Hl ltac:(lia)) as (p1 & p2 & Hs & L1 & L2 & Hp).
  assert (Hk : n c = (2 * (n c / 2) + 1)%nat) by (pose proof (Nat.div_mod (n c) 2); lia).
  assert (Hp' : (p1 ++ p2)%list = (others (n c) l ++ [l])%list).
  { rewrite Hp. replace (2 * (n c / 2) + 1 - (n c - 1))%nat with 1%nat by lia.
    rewrite insert_app_r_alt by (rewrite others_length by lia; rewrite decide_True by lia; lia).
    replace (2 * (n c / 2) - length (others (n c) l))%nat with 0%nat by (rewrite others_length by lia; rewrite decide_True by lia; lia). done. }
  assert (Hperm : (p1 ++ p2)%list ≡ₚ All c) by (rewrite Hp'; by apply others_perm).
  assert (Hnd : NoDup (p1 ++ p2)) by (rewrite Hperm; apply NoDup_fmap_2; [apply _|apply NoDup_seq]).
  assert (Hin : ∀ x, x ∈ (p1 ++ p2)%list ↔ 0 ≤ x < Z.of_nat (n c)).
  { intros x. rewrite Hperm. split; [intros Hx; by eapply (proj1 (Forall_forall _ _) (All_in_range c))|]. intros Hx. apply list_elem_of_fmap.
    exists (Z.to_nat x). split; [lia|]. apply elem_of_seq. lia. }
  assert (H1 : in_range c p1) by (apply Forall_forall; intros x Hx; apply Hin, elem_of_app; by left).
  assert (H2 : in_range c p2) by (apply Forall_forall; intros x Hx; apply Hin, elem_of_app; by right).
  apply NoDup_app in Hnd as (_ & Hdis & _).
  destruct (partition_isolates c p1 p2 Hup H1 H2) as (c' & Hc' & _ & Hen); [lia|lia|by intros i ? ?; apply (Hdis i)|].
  exists p1, p2, c'. unfold make_partition. rewrite HL. cbn [mbind outcome_bind]. split; [done|]. split; [done|]. split; [done|]. split; [done|].
  split; [|split; [done|]].
  - assert (Hd : drop (length p1) (p1 ++ p2) = p2) by apply drop_app_length. rewrite <-Hd, Hp', drop_app_le; [apply elem_of_app; right; by left|].
    rewrite others_length, decide_True by lia. assert (1 ≤ n c / 2)%nat by lia. lia.
  - intros a b Ha Hb. destruct (name_up c a b Hup Ha Hb) as (e & He & _). exists e. split; [done|]. destruct (Hen a b e He) as (Hsame & Hacr & _).
    apply Hin, elem_of_app in Ha. apply Hin, elem_of_app in Hb. unfold same_side, across in *.
    destruct (decide (a ∈ p1)) as [A1|A1], (decide (b ∈ p1)) as [B1|B1].
    + rewrite bool_decide_true by tauto. apply Hsame. tauto.
    + rewrite bool_decide_false by tauto. apply Hacr. tauto.
    + rewrite bool_decide_false by tauto. apply Hacr. tauto.
    + rewrite bool_decide_true by tauto. apply Hsame. tauto.
Qed.
End KVConfig.

(** With an even number of servers the second part keeps a zero: server 0 is on both
    sides. *)
Lemma even_partition_overlaps : split_around 4 3 = Ret ([0; 1; 2], [0; 3]).
Proof. reflexivity. Qed.

(** ** Three servers *)

Lemma one_step {A} (m : outcome A) (test : A → bool) : match m with Ret c => test c | _ => false end = true → ∃ c, m = Ret c ∧ test c = true.
Proof. destruct m as [c| |]; [|done..]. by exists c. Qed.

Definition no_leader (c : config) : bool := Nat.eqb (n c) 3 && match Leader c with Ret (false, 0) => true | _ => false end.

Lemma leader_in_minority_witness :
  ∃ c p1 p2 c', make_config [] [] 3 false (-1) 0 (draw3 0) = Ret c ∧ make_partition c = Ret (p1, p2) ∧ partition p1 p2 c = Ret c' ∧
    length p1 = 2%nat ∧ length p2 = 1%nat ∧ 0 ∈ p2.
Proof.
  destruct (one_step (make_config [] [] 3 false (-1) 0 (draw3 0)) no_leader) as (c & Hc & Ht); [vm_compute; reflexivity|].
  apply andb_true_iff in Ht as [Hn HL]. apply Nat.eqb_eq in Hn.
  assert (HL' : Leader c = Ret (false, 0)).
  { destruct (Leader c) as [[[] z]| |]; try discriminate HL. destruct z; try discriminate HL. reflexivity. }
  destruct (leader_in_minority [] [] c false 0) as (p1 & p2 & c' & Hp & Hc' & L1 & L2 & Hl & _).
  - exists 3%nat, false, (-1), 0, (draw3 0), c. split; [exact Hc|constructor].
  - rewrite Hn. lia.
  - rewrite Hn. reflexivity.
  - exact HL'.
  - exists c, p1, p2, c'. split; [exact Hc|]. split; [exact Hp|]. split; [exact Hc'|]. rewrite Hn in L1, L2. split; [exact L1|]. split; [exact L2|exact Hl].
Defined.
