(* ===== verification/ShardKVConfig.v ===== *)
(** * Lab2_MapReduce, shardkv: the test configuration

    [shardkv/config.go]: three controllers and three groups of servers over the
    network of [LabRPC], with the controller's clerk of [Clerks].  The state is the
    [config] struct with the objects it points to.  The theorems: at every moment of
    a test a running server can reach exactly the servers of its own group that run
    and the controllers, and a stopped one nobody; and the harness works for groups
    of three only.

    Names drawn by [randstring] are an argument, as is the clock; [t.Fatal] and
    [log.Fatalf] are [Exit]. *)

From S2P Require Import Prelude Raft LabRPC Clerks.
From stdpp Require Import pretty.
Open Scope Z_scope.

Section ShardKVConfig.
(** What reflection finds on a [*ShardKV], a [*ShardCtrler] and a [*Raft]; receivers
    are addresses. *)
Variable kv_methods : list (reflect_method (S := nat)).
Variable ctrler_methods : list (reflect_method (S := nat)).
Variable raft_methods : list (reflect_method (S := nat)).

(** ** State *)

Record memory := mkMemory {
  kv_at : gmap nat ShardKV.ShardKV; ctrler_at : gmap nat ShardCtrler.ShardCtrler; server_at : gmap nat (Server (S := nat)); next_addr : nat
}.

(** A nil slice of names is [None]. *)
Record group := mkGroup {
  gid : Z;
  g_servers : list (option nat);
  saved : list (option Persister);
  endnames : list (option (list string));
  mendnames : list (option (list string))
}.

Record config := mkConfig {
  failed : bool;
  net : Network (Name := string);
  start : Z;
  nctrlers : nat;
  ctrlerservers : list (option nat);
  mck : option (ShardCtrler.Clerk (Server := string));
  ngroups : nat;
  n : nat;
  groups : list (option group);
  clerks : gmap nat (list string);      (* by the address of the clerk *)
  nextClientId : Z;
  maxraftstate : Z;
  mem : memory
}.

Definition set_net (x : Network) (c : config) : config :=
  mkConfig (failed c) x (start c) (nctrlers c) (ctrlerservers c) (mck c) (ngroups c) (n c) (groups c) (clerks c) (nextClientId c) (maxraftstate c) (mem c).
Definition set_ctrlers (x : list (option nat)) (m : memory) (c : config) : config :=
  mkConfig (failed c) (net c) (start c) (nctrlers c) x (mck c) (ngroups c) (n c) (groups c) (clerks c) (nextClientId c) (maxraftstate c) m.
Definition set_mck (x : ShardCtrler.Clerk) (c : config) : config :=
  mkConfig (failed c) (net c) (start c) (nctrlers c) (ctrlerservers c) (Some x) (ngroups c) (n c) (groups c) (clerks c) (nextClientId c) (maxraftstate c) (mem c).
Definition set_groups (x : list (option group)) (c : config) : config :=
  mkConfig (failed c) (net c) (start c) (nctrlers c) (ctrlerservers c) (mck c) (ngroups c) (n c) x (clerks c) (nextClientId c) (maxraftstate c) (mem c).
Definition set_size (g k : nat) (c : config) : config :=
  mkConfig (failed c) (net c) (start c) (nctrlers c) (ctrlerservers c) (mck c) g k (groups c) (clerks c) (nextClientId c) (maxraftstate c) (mem c).
Definition set_clerks (x : gmap nat (list string)) (id : Z) (c : config) : config :=
  mkConfig (failed c) (net c) (start c) (nctrlers c) (ctrlerservers c) (mck c) (ngroups c) (n c) (groups c) x id (maxraftstate c) (mem c).
Definition set_mem (x : memory) (c : config) : config :=
  mkConfig (failed c) (net c) (start c) (nctrlers c) (ctrlerservers c) (mck c) (ngroups c) (n c) (groups c) (clerks c) (nextClientId c) (maxraftstate c) x.

(** [cfg.groups[gi]]; a nil pointer panics when a field is used. *)
Definition get_group (gi : Z) (c : config) : outcome group :=
  o ← slice_get (groups c) gi; match o with Some gg => Ret gg | None => Panic end.
Definition put_group (gi : Z) (gg : group) (c : config) : outcome config :=
  gs ← slice_set (groups c) gi (Some gg); Ret (set_groups gs c).

(** ** Names and ends *)

Definition ctrlername (i : Z) : string := "ctrler" +:+ pretty i.
Definition servername (gid i : Z) : string := "server-" +:+ pretty gid +:+ "-" +:+ pretty i.

(** The function given to clerks and servers: an end called [e] to [srv]. *)
Definition make_end (e srv : string) (nt : Network) : outcome (Network (Name := string)) :=
  nt ← MakeEnd e nt; Ret (Enable e true (Connect e srv nt)).

(** A loop that makes an end to [srv j] for the [j]-th name. *)
Definition make_ends (names : list string) (srv : Z → string) (nt : Network) : outcome (Network (Name := string)) :=
  for_range (length names) 0 (λ j nt, e ← slice_get names j; make_end e (srv j) nt) nt.

Definition draws (draw : Z → string) (k : nat) : list string := draw <$> seqZ 0 (Z.of_nat k).

(** ** Clients *)

(** The slice of names has the length of a group, the loop that of the controllers. *)
Definition makeClient (draw : Z → string) (ck : nat) (c : config) : outcome (ShardKV.Clerk (Server := string) * config) :=
  '(es, nt) ← for_range (nctrlers c) 0 (λ j '(es, nt),
      es ← slice_set es j (draw j); nt ← make_end (draw j) (ctrlername j) nt; Ret (es, nt)) (replicate (n c) "", net c);
  Ret (ShardKV.MakeClerk (draws draw (nctrlers c)), set_clerks (<[ck := es]> (clerks c)) (nextClientId c + 1) (set_net nt c)).

Definition deleteClient (ck : nat) (c : config) : config := set_clerks (delete ck (clerks c)) (nextClientId c) c.

(** ** Stopping and starting servers *)

Definition kill_kv (a : nat) (m : memory) : memory := mkMemory (alter ShardKV.Kill a (kv_at m)) (ctrler_at m) (server_at m) (next_addr m).
Definition kill_ctrler (a : nat) (m : memory) : memory := mkMemory (kv_at m) (alter ShardCtrler.Kill a (ctrler_at m)) (server_at m) (next_addr m).

(** [for j := 0; j < k; j++ { Enable(row[j], false) }]; a nil row has length 0. *)
Definition disable_row (k : nat) (row : option (list string)) (nt : Network) : outcome (Network (Name := string)) :=
  for_range k 0 (λ j nt, e ← slice_get (default [] row) j; Ret (Enable e false nt)) nt.

Definition ShutdownServer (gi i : Z) (c : config) : outcome config :=
  gg ← get_group gi c;
  nt ← for_range (length (g_servers gg)) 0 (λ j nt, row ← slice_get (endnames gg) i; e ← slice_get (default [] row) j; Ret (Enable e false nt)) (net c);
  mrow ← slice_get (mendnames gg) i;
  nt ← disable_row (length (default [] mrow)) mrow nt;
  let c := set_net (DeleteServer (servername (gid gg) i) nt) c in
  s ← slice_get (saved gg) i;
  sv ← slice_set (saved gg) i (Copy <$> s);
  kv ← slice_get (g_servers gg) i;
  match kv with
  | Some a =>
      ks ← slice_set (g_servers gg) i None;
      put_group gi (mkGroup (gid gg) ks sv (endnames gg) (mendnames gg)) (set_mem (kill_kv a (mem c)) c)
  | None => put_group gi (mkGroup (gid gg) (g_servers gg) sv (endnames gg) (mendnames gg)) c
  end.

Definition ShutdownGroup (gi : Z) (c : config) : outcome config := for_range (n c) 0 (λ i c, ShutdownServer gi i c) c.

Definition new_kv (kv : ShardKV.ShardKV) (m : memory) : nat * memory :=
  let a := next_addr m in
  (a, mkMemory (<[a := kv]> (kv_at m)) (ctrler_at m)
        (<[a := AddService (MakeService "Raft" a raft_methods) (AddService (MakeService "ShardKV" a kv_methods) MakeServer)]> (server_at m)) (S a)).
Definition new_ctrler (sc : ShardCtrler.ShardCtrler) (m : memory) : nat * memory :=
  let a := next_addr m in
  (a, mkMemory (kv_at m) (<[a := sc]> (ctrler_at m))
        (<[a := AddService (MakeService "Raft" a raft_methods) (AddService (MakeService "ShardCtrler" a ctrler_methods) MakeServer)]> (server_at m)) (S a)).

(** [draw] for the ends to the group, [mdraw] for those to the controllers. *)
Definition StartServer (draw mdraw : Z → string) (gi i : Z) (c : config) : outcome config :=
  gg ← get_group gi c;
  let names := draws draw (n c) in
  en ← slice_set (endnames gg) i (Some names);
  nt ← make_ends names (servername (gid gg)) (net c);
  let mnames := draws mdraw (nctrlers c) in
  men ← slice_set (mendnames gg) i (Some mnames);
  nt ← make_ends mnames ctrlername nt;
  s ← slice_get (saved gg) i;
  let ps := match s with Some ps => Copy ps | None => MakePersister end in
  sv ← slice_set (saved gg) i (Some ps);
  let '(a, m) := new_kv (ShardKV.StartServer (n c) i ps (maxraftstate c) (gid gg)) (mem c) in
  ks ← slice_set (g_servers gg) i (Some a);
  put_group gi (mkGroup (gid gg) ks sv en men) (set_net (AddServer (servername (gid gg) i) a nt) (set_mem m c)).

Definition StartGroup (draw mdraw : Z → Z → string) (gi : Z) (c : config) : outcome config :=
  for_range (n c) 0 (λ i c, StartServer (draw i) (mdraw i) gi i c) c.

Definition StartCtrlerserver (draw : Z → string) (i : Z) (c : config) : outcome config :=
  nt ← make_ends (draws draw (nctrlers c)) ctrlername (net c);
  let '(a, m) := new_ctrler (ShardCtrler.StartServer (nctrlers c) i MakePersister) (mem c) in
  cs ← slice_set (ctrlerservers c) i (Some a);
  Ret (set_net (AddServer (ctrlername i) a nt) (set_ctrlers cs m c)).

Definition shardclerk (draw : Z → string) (c : config) : outcome (ShardCtrler.Clerk (Server := string) * config) :=
  let names := draws draw (nctrlers c) in
  nt ← make_ends names ctrlername (net c);
  Ret (ShardCtrler.MakeClerk names, set_net nt c).

(** ** Joining and leaving *)

Section Controller.
Context {W : Type} `{ShardCtrler.Service W string}.

(** The map given to the controller. *)
Definition join_map (gis : list Z) (c : config) : outcome (gmap Z (list string)) :=
  for_each gis (λ g m, gg ← get_group g c; Ret (<[gid gg := servername (gid gg) <$> seqZ 0 (Z.of_nat (n c))]> m)) ∅.

(** [None]: the clerk has not got an answer after the given number of rounds. *)
Definition joinm (rounds : nat) (gis : list Z) (c : config) (w : W) : outcome (option W) :=
  m ← join_map gis c;
  match mck c with Some ck => Ret (ShardCtrler.Join rounds m ck w) | None => Panic end.
Definition join (rounds : nat) (gi : Z) (c : config) (w : W) : outcome (option W) := joinm rounds [gi] c w.

Definition leave_gids (gis : list Z) (c : config) : outcome (list Z) :=
  for_each gis (λ g gids, gg ← get_group g c; Ret (gids ++ [gid gg])%list) [].
Definition leavem (rounds : nat) (gis : list Z) (c : config) (w : W) : outcome (option W) :=
  gids ← leave_gids gis c;
  match mck c with Some ck => Ret (ShardCtrler.Leave rounds gids ck w) | None => Panic end.
Definition leave (rounds : nat) (gi : Z) (c : config) (w : W) : outcome (option W) := leavem rounds [gi] c w.
End Controller.

(** ** Setting up, checks and the end *)

(** The names drawn: for the controllers, for the clerk, and for each server. *)
Record drawn := mkDrawn { d_ctrler : Z → Z → string; d_clerk : Z → string; d_ends : Z → Z → Z → string; d_mends : Z → Z → Z → string }.

Definition make_config (k : nat) (unreliable : bool) (maxstate now : Z) (d : drawn) : outcome config :=
  let c := mkConfig false MakeNetwork now 3 (replicate 3 None) None 0 0 [] ∅ 0 maxstate (mkMemory ∅ ∅ ∅ 0) in
  c ← for_range (nctrlers c) 0 (λ i c, StartCtrlerserver (d_ctrler d i) i c) c;
  '(ck, c) ← shardclerk (d_clerk d) c;
  let c := set_groups (replicate 3 None) (set_size 3 k (set_mck ck c)) in
  c ← for_range (ngroups c) 0 (λ gi c,
        c ← put_group gi (mkGroup (100 + gi) (replicate (n c) None) (replicate (n c) None) (replicate (n c) None) (replicate (nctrlers c) None)) c;
        for_range (n c) 0 (λ i c, StartServer (d_ends d gi i) (d_mends d gi i) gi i c) c) c;
  let c := set_clerks ∅ (Z.of_nat (n c) + 1000) c in
  Ret (set_net (Reliable (negb unreliable) (net c)) c).

Definition checkTimeout (now : Z) (c : config) : outcome unit := if negb (failed c) && (120 * 10 ^ 9 <? now - start c) then Exit else Ret tt.

(** A nil persister panics. *)
Definition checklogs (c : config) : outcome unit :=
  for_range (ngroups c) 0 (λ gi _, for_range (n c) 0 (λ i _,
    gg ← get_group gi c;
    s ← slice_get (saved gg) i;
    match s with
    | None => Panic
    | Some ps =>
        if (maxraftstate c >=? 0) && (RaftStateSize ps >? 8 * maxraftstate c) then Exit
        else if (maxraftstate c <? 0) && (go_len (ReadSnapshot ps) >? 0) then Exit else Ret tt
    end) tt) tt.

Definition cleanup (now : Z) (c : config) : outcome config :=
  c ← for_range (ngroups c) 0 (λ gi c, ShutdownGroup gi c) c;
  c ← for_range (nctrlers c) 0 (λ i c,
        o ← slice_get (ctrlerservers c) i;
        match o with Some a => Ret (set_mem (kill_ctrler a (mem c)) c) | None => Panic end) c;
  nt ← Cleanup (net c);
  let c := set_net nt c in
  _ ← checkTimeout now c; Ret c.

(** ** Who can reach whom *)

(** The [j]-th end of server [i] of group [gi] to its group, or to the controllers. *)
Inductive key := ToGroup (gi i j : nat) | ToCtrler (gi i j : nat).
Definition owner (k : key) : nat * nat := match k with ToGroup gi i _ | ToCtrler gi i _ => (gi, i) end.
Definition target (k : key) : string :=
  match k with ToGroup gi _ j => servername (100 + Z.of_nat gi) (Z.of_nat j) | ToCtrler _ _ j => ctrlername (Z.of_nat j) end.
Definition row_of (names mnames : list string) (k : key) : option string := match k with ToGroup _ _ j => names !! j | ToCtrler _ _ j => mnames !! j end.

Definition group_at (c : config) (gi : nat) : option group := mjoin (groups c !! gi).
Definition end_of (c : config) (k : key) : option string :=
  match k with
  | ToGroup gi i j => gg ← group_at c gi; row ← mjoin (endnames gg !! i); row !! j
  | ToCtrler gi i j => gg ← group_at c gi; row ← mjoin (mendnames gg !! i); row !! j
  end.

(** The address of the server object, if the server runs. *)
Definition addr (c : config) (gi i : nat) : option nat := gg ← group_at c gi; mjoin (g_servers gg !! i).
Definition up (c : config) (o : nat * nat) : bool := bool_decide (is_Some (addr c o.1 o.2)).

Record skv_wf (c : config) : Prop := {
  sw_nctrlers : nctrlers c = 3%nat;
  sw_groups : length (groups c) = 3%nat;
  sw_group : ∀ gi gg, group_at c gi = Some gg → gid gg = 100 + Z.of_nat gi ∧ length (g_servers gg) = n c ∧ length (saved gg) = n c ∧
    length (endnames gg) = n c ∧ length (mendnames gg) = 3%nat;
  sw_rows : ∀ gi gg i row, group_at c gi = Some gg → endnames gg !! i = Some (Some row) →
    length row = n c ∧ (∃ mrow, mendnames gg !! i = Some (Some mrow) ∧ length mrow = 3%nat) ∧ (∃ ps, saved gg !! i = Some (Some ps)) ∧
    servers (net c) !! servername (100 + Z.of_nat gi) (Z.of_nat i) = Some (addr c gi i);
  sw_inj : ∀ k k' e, end_of c k = Some e → end_of c k' = Some e → k = k';
  sw_ends : ∀ k e, end_of c k = Some e →
    e ∈ ends (net c) ∧ connections (net c) !! e = Some (Some (target k)) ∧ enabled (net c) !! e = Some (up c (owner k));
  sw_ctrlers : ∀ j, (j < 3)%nat → ∃ a, ctrlerservers c !! j = Some (Some a) ∧ servers (net c) !! ctrlername (Z.of_nat j) = Some (Some a);
  sw_ngroups : ngroups c = 3%nat
}.

Definition started (c : config) (gi i : nat) : Prop := ∃ gg row, group_at c gi = Some gg ∧ endnames gg !! i = Some (Some row).

(** *** Names *)

Lemma servername_prefix gi i : (gi < 3)%nat →
  servername (100 + Z.of_nat gi) i = "server-10" +:+ String (Ascii.ascii_of_nat (48 + gi)) ("-" +:+ pretty i).
Proof. intros Hg. destruct gi as [|[|[|]]]; [reflexivity..|lia]. Qed.

Lemma servername_inj gi gi' i i' : (gi < 3)%nat → (gi' < 3)%nat →
  servername (100 + Z.of_nat gi) i = servername (100 + Z.of_nat gi') i' → gi = gi' ∧ i = i'.
Proof.
  intros Hg Hg'. rewrite !servername_prefix by done. intros E. apply (inj (String.append _)) in E.
  injection E as Ec E. apply (inj (String.append "")) in E. apply (inj pretty) in E. split; [|done].
  destruct gi as [|[|[|]]], gi' as [|[|[|]]]; try lia; discriminate Ec.
Qed.

Lemma servername_ctrlername g i j : servername g i ≠ ctrlername j.
Proof. unfold servername, ctrlername. simpl. discriminate. Qed.

Lemma ctrlername_inj i j : ctrlername i = ctrlername j → i = j.
Proof. unfold ctrlername. intros E. apply (inj (String.append _)) in E. by apply (inj pretty) in E. Qed.
(** *** Making ends *)

(** The network after the ends of the first [k] names were made. *)
Record ends_opened (names : list string) (srv : Z → string) (nt0 : Network (Name := string)) (k : nat) (nt : Network (Name := string)) : Prop := {
  eo_servers : servers nt = servers nt0;
  eo_new : ∀ j e, (j < k)%nat → names !! j = Some e →
    e ∉ ends nt0 ∧ e ∈ ends nt ∧ connections nt !! e = Some (Some (srv (Z.of_nat j))) ∧ enabled nt !! e = Some true;
  eo_inj : ∀ j j' e, (j < k)%nat → (j' < k)%nat → names !! j = Some e → names !! j' = Some e → j = j';
  eo_old : ∀ x, x ∈ ends nt0 → x ∈ ends nt ∧ connections nt !! x = connections nt0 !! x ∧ enabled nt !! x = enabled nt0 !! x
}.

Lemma make_end_spec names srv nt0 k nt e : ends_opened names srv nt0 k nt → names !! k = Some e →
  (∃ nt', make_end e (srv (Z.of_nat k)) nt = Ret nt' ∧ ends_opened names srv nt0 (S k) nt') ∨ make_end e (srv (Z.of_nat k)) nt = Exit.
Proof.
  intros [Hs Hnew Hinj Hold] He. unfold make_end, MakeEnd. destruct (decide (e ∈ ends nt)) as [Hin|Hfresh]; [right; by rewrite bool_decide_true|].
  left. rewrite bool_decide_false by done. eexists. split; [reflexivity|]. split; simpl; try done.
  - intros j e' Hj He'. destruct (decide (j = k)) as [->|Hne].
    + assert (e' = e) as -> by congruence. rewrite !lookup_insert_eq. split; [|set_solver]. intros Hin. by destruct (Hold _ Hin).
    + destruct (Hnew j e') as (? & Hin & ? & ?); [lia|done|]. assert (e' ≠ e) by (intros ->; done).
      rewrite !lookup_insert_ne by congruence. set_solver.
  - intros j j' e' Hj Hj' Hje Hje'.
    destruct (decide (j = k)) as [->|], (decide (j' = k)) as [->|]; [done| | |apply (Hinj j j' e'); [lia..|done|done]].
    + destruct (Hnew j' e') as (_ & Hin & _); [lia|done|]. congruence.
    + destruct (Hnew j e') as (_ & Hin & _); [lia|done|]. congruence.
  - intros x Hx. destruct (Hold x Hx) as (Hin & ? & ?). assert (x ≠ e) by (intros ->; done). rewrite !lookup_insert_ne by done. set_solver.
Qed.

Lemma skv_make_ends_spec names srv nt0 :
  (∃ nt, make_ends names srv nt0 = Ret nt ∧ ends_opened names srv nt0 (length names) nt) ∨ make_ends names srv nt0 = Exit.
Proof.
  unfold make_ends.
  destruct (for_range_inv_Exit (ends_opened names srv nt0) (λ j nt, e ← slice_get names j; make_end e (srv j) nt) (length names) 0 nt0)
    as [(nt & Hnt & Hem)|?]; [split; try done; lia| |left; by exists nt|by right].
  intros j nt Hj Hem. destruct (lookup_lt_is_Some_2 names j) as [e He]; [lia|]. rewrite slice_get_nat, He. cbn [mbind outcome_bind].
  by apply (make_end_spec names).
Qed.

Lemma draws_length draw k : length (draws draw k) = k.
Proof. unfold draws. rewrite length_fmap, length_seqZ. lia. Qed.

(** The ends of a new server, which has the names [names] and [mnames]. *)
Lemma two_rows c gi names mnames nt1 nt k e :
  ends_opened names (servername (100 + Z.of_nat gi)) (net c) (length names) nt1 → ends_opened mnames ctrlername nt1 (length mnames) nt →
  (owner k).1 = gi → row_of names mnames k = Some e →
  e ∉ ends (net c) ∧ e ∈ ends nt ∧ connections nt !! e = Some (Some (target k)) ∧ enabled nt !! e = Some true ∧
  ∀ k', owner k' = owner k → row_of names mnames k' = Some e → k' = k.
Proof.
  intros H1 H2 Hgi Hk.
  assert (Hdis : ∀ j j', names !! j = Some e → mnames !! j' = Some e → False).
  { intros j j' Hj Hj'. destruct (eo_new _ _ _ _ _ H1 j e) as (_ & Hin & _); [by eapply lookup_lt_Some|done|].
    by destruct (eo_new _ _ _ _ _ H2 j' e) as (? & _); [by eapply lookup_lt_Some|done|]. }
  destruct k as [g i j|g i j]; simpl in *; subst g.
  - destruct (eo_new _ _ _ _ _ H1 j e) as (Hf & Hin & Hc & Hen); [by eapply lookup_lt_Some|done|].
    destruct (eo_old _ _ _ _ _ H2 e Hin) as (Hin2 & -> & ->). split_and!; try done.
    intros [g i' j'|g i' j'] [= -> ->] Hk'; simpl in *; [f_equal|by exfalso; eauto].
    by apply (eo_inj _ _ _ _ _ H1 j' j e); [eapply lookup_lt_Some..| |].
  - destruct (eo_new _ _ _ _ _ H2 j e) as (Hf & Hin & Hc & Hen); [by eapply lookup_lt_Some|done|].
    split_and!; try done.
    + intros Hold. by destruct (eo_old _ _ _ _ _ H1 e Hold).
    + intros [g i' j'|g i' j'] [= -> ->] Hk'; simpl in *; [by exfalso; eauto|f_equal].
      by apply (eo_inj _ _ _ _ _ H2 j' j e); [eapply lookup_lt_Some..| |].
Qed.

(** *** Replacing a group *)

Definition with_group (gi : nat) (gg : group) (c : config) : config := set_groups (<[gi := Some gg]> (groups c)) c.

Lemma get_group_nat gi c : get_group (Z.of_nat gi) c = match group_at c gi with Some gg => Ret gg | None => Panic end.
Proof. unfold get_group, group_at. rewrite slice_get_nat. by destruct (groups c !! gi) as [[]|]. Qed.

Lemma put_group_nat gi gg c : (gi < length (groups c))%nat → put_group (Z.of_nat gi) gg c = Ret (with_group gi gg c).
Proof. intros H. unfold put_group. rewrite slice_set_ok by (unfold go_len; lia). cbn [mbind outcome_bind]. by rewrite Nat2Z.id. Qed.

Lemma group_at_lt c gi gg : group_at c gi = Some gg → (gi < length (groups c))%nat.
Proof. unfold group_at. destruct (groups c !! gi) eqn:E; [|done]. intros _. by eapply lookup_lt_Some. Qed.

Lemma group_at_with gi gg c x : (gi < length (groups c))%nat → group_at (with_group gi gg c) x = if decide (x = gi) then Some gg else group_at c x.
Proof.
  intros H. unfold group_at. simpl. case_decide as E; [subst; by rewrite list_lookup_insert_eq|by rewrite list_lookup_insert_ne].
Qed.
(** Server [i] of a group gets the state it has in [gg'] and the network becomes [nt]. *)
Record replaced (c : config) (gi i : nat) (gg gg' : group) (row mrow : list string) (nt : Network (Name := string)) : Prop := {
  rp_gid : gid gg' = gid gg;
  rp_len : length (g_servers gg') = length (g_servers gg) ∧ length (saved gg') = length (saved gg) ∧
    length (endnames gg') = length (endnames gg) ∧ length (mendnames gg') = length (mendnames gg);
  rp_row : endnames gg' !! i = Some (Some row) ∧ mendnames gg' !! i = Some (Some mrow) ∧ length row = n c ∧ length mrow = 3%nat ∧
    ∃ ps, saved gg' !! i = Some (Some ps);
  rp_rest : ∀ x, x ≠ i → endnames gg' !! x = endnames gg !! x ∧ mendnames gg' !! x = mendnames gg !! x ∧ g_servers gg' !! x = g_servers gg !! x ∧
    saved gg' !! x = saved gg !! x;
  rp_name : servers nt !! servername (100 + Z.of_nat gi) (Z.of_nat i) = Some (mjoin (g_servers gg' !! i));
  rp_names : ∀ x, x ≠ servername (100 + Z.of_nat gi) (Z.of_nat i) → servers nt !! x = servers (net c) !! x;
  rp_ends : ∀ k e, owner k = (gi, i) → row_of row mrow k = Some e →
    e ∈ ends nt ∧ connections nt !! e = Some (Some (target k)) ∧ enabled nt !! e = Some (bool_decide (is_Some (mjoin (g_servers gg' !! i)))) ∧
    (∀ k', owner k' = (gi, i) → row_of row mrow k' = Some e → k' = k) ∧ (∀ k', owner k' ≠ (gi, i) → end_of c k' ≠ Some e);
  rp_old : ∀ k e, owner k ≠ (gi, i) → end_of c k = Some e →
    e ∈ ends nt ∧ connections nt !! e = connections (net c) !! e ∧ enabled nt !! e = enabled (net c) !! e
}.

Section Replace.
Context (c : config) (gi i : nat) (gg gg' : group) (row mrow : list string) (nt : Network (Name := string)) (m : memory).
Context (Hwf : skv_wf c) (Hgg : group_at c gi = Some gg) (Hrp : replaced c gi i gg gg' row mrow nt).
Let c' := with_group gi gg' (set_net nt (set_mem m c)).

Lemma replaced_group x : group_at c' x = if decide (x = gi) then Some gg' else group_at c x.
Proof. unfold c'. rewrite group_at_with; [done|]. by eapply group_at_lt. Qed.

Lemma replaced_end k : end_of c' k = if decide (owner k = (gi, i)) then row_of row mrow k else end_of c k.
Proof.
  destruct (rp_row _ _ _ _ _ _ _ _ Hrp) as (Hr & Hm & _). unfold end_of. destruct k as [g x j|g x j]; simpl; rewrite replaced_group.
  all: destruct (decide (g = gi)) as [->|Hg]; [|rewrite decide_False by congruence; done].
  all: simpl; rewrite Hgg; simpl; destruct (decide (x = i)) as [->|Hx].
  all: try (rewrite decide_True by done; rewrite ?Hr, ?Hm; done).
  all: rewrite decide_False by congruence; destruct (rp_rest _ _ _ _ _ _ _ _ Hrp x Hx) as (E1 & E2 & _); by rewrite ?E1, ?E2.
Qed.

Lemma replaced_addr x y : addr c' x y = if decide ((x, y) = (gi, i)) then mjoin (g_servers gg' !! i) else addr c x y.
Proof.
  unfold addr. rewrite replaced_group. destruct (decide (x = gi)) as [->|Hg]; [|rewrite decide_False by congruence; done]. simpl. rewrite Hgg. simpl.
  destruct (decide (y = i)) as [->|Hx]; [by rewrite decide_True by done|]. rewrite decide_False by congruence.
  by destruct (rp_rest _ _ _ _ _ _ _ _ Hrp y Hx) as (_ & _ & -> & _).
Qed.

Lemma replaced_up o : up c' o = if decide (o = (gi, i)) then bool_decide (is_Some (mjoin (g_servers gg' !! i))) else up c o.
Proof. unfold up. destruct o as [x y]. simpl. rewrite replaced_addr. by case_decide. Qed.

Lemma replaced_started x y : started c x y → started c' x y.
Proof.
  intros (g & r & Hg & Hr). destruct (decide (x = gi)) as [->|Hx]; [|exists g, r; by rewrite replaced_group, decide_False].
  assert (g = gg) as -> by congruence. destruct (decide (y = i)) as [->|Hy].
  - exists gg', row. rewrite replaced_group, decide_True by done. by destruct (rp_row _ _ _ _ _ _ _ _ Hrp).
  - exists gg', r. rewrite replaced_group, decide_True by done. split; [done|]. by destruct (rp_rest _ _ _ _ _ _ _ _ Hrp y Hy) as (-> & _).
Qed.

Lemma replaced_wf : skv_wf c'.
Proof.
  pose proof (group_at_lt c gi gg Hgg) as Hlt. pose proof (sw_groups c Hwf) as H3.
  destruct (rp_row _ _ _ _ _ _ _ _ Hrp) as (Hr & Hm & Lr & Lm & Hsv). destruct (rp_len _ _ _ _ _ _ _ _ Hrp) as (L1 & L2 & L3 & L4).
  destruct (sw_group c Hwf gi gg Hgg) as (Hgid & K1 & K2 & K3 & K4). split.
  - apply Hwf.
  - simpl. rewrite length_insert. apply Hwf.
  - intros x g. rewrite replaced_group. case_decide as E; [|apply (sw_group c Hwf)]. subst x. intros [= <-].
    rewrite (rp_gid _ _ _ _ _ _ _ _ Hrp). simpl. split_and!; congruence.
  - intros x g y r. rewrite replaced_group, replaced_addr. intros Hg Hy. destruct (decide ((x, y) = (gi, i))) as [[= -> ->]|Hne].
    + rewrite decide_True in Hg by done. injection Hg as <-. rewrite Hr in Hy. injection Hy as <-. split; [done|]. split; [by exists mrow|]. split; [done|].
      exact (rp_name _ _ _ _ _ _ _ _ Hrp).
    + assert (Hold : ∃ g0, group_at c x = Some g0 ∧ endnames g0 !! y = Some (Some r) ∧ mendnames g0 !! y = mendnames g !! y ∧ saved g0 !! y = saved g !! y).
      { case_decide as E; [subst x|by exists g]. injection Hg as <-. exists gg. assert (Hy' : y ≠ i) by congruence.
        destruct (rp_rest _ _ _ _ _ _ _ _ Hrp y Hy') as (<- & <- & _ & <-). done. }
      destruct Hold as (g0 & Hg0 & Hr0 & Hm0 & Hs0). destruct (sw_rows c Hwf x g0 y r Hg0 Hr0) as (? & (mr & Hmr & ?) & Hps & Hs).
      split; [done|]. split; [exists mr; by rewrite <-Hm0|]. split; [by rewrite <-Hs0|]. simpl. rewrite (rp_names _ _ _ _ _ _ _ _ Hrp); [done|].
      intros E. apply servername_inj in E as [-> E]; [|apply group_at_lt in Hg0; lia|lia]. apply Nat2Z.inj in E. congruence.
  - intros k k' e. rewrite !replaced_end. pose proof (λ k e, rp_ends _ _ _ _ _ _ _ _ Hrp k e) as Hn.
    repeat case_decide; intros Hk Hk'; [|by destruct (Hn k e) as (_ & _ & _ & _ & Ho); [done..|]; by destruct (Ho k')|
      by destruct (Hn k' e) as (_ & _ & _ & _ & Ho); [done..|]; by destruct (Ho k)|by apply (sw_inj c Hwf k k' e)].
    destruct (Hn k' e) as (_ & _ & _ & Hu & _); [done..|]. by apply Hu.
  - intros k e. rewrite replaced_end, replaced_up. case_decide as E; intros Hk.
    + by destruct (rp_ends _ _ _ _ _ _ _ _ Hrp k e E Hk) as (? & ? & ? & _).
    + destruct (rp_old _ _ _ _ _ _ _ _ Hrp k e E Hk) as (? & Hc & He). destruct (sw_ends c Hwf k e Hk) as (_ & Hc0 & He0). simpl. by rewrite Hc, He.
  - intros j Hj. destruct (sw_ctrlers c Hwf j Hj) as (a & Ha & Hs). exists a. split; [done|]. simpl. rewrite (rp_names _ _ _ _ _ _ _ _ Hrp); [done|].
    intros E. symmetry in E. by apply servername_ctrlername in E.
  - apply Hwf.
Qed.
End Replace.

(** *** Starting a server *)

Lemma StartServer_spec draw mdraw c gi i gg : skv_wf c → group_at c gi = Some gg → (i < n c)%nat → (i < 3)%nat →
  StartServer draw mdraw (Z.of_nat gi) (Z.of_nat i) c = Exit ∨
  ∃ gg' row mrow nt m, replaced c gi i gg gg' row mrow nt ∧ is_Some (mjoin (g_servers gg' !! i)) ∧
    StartServer draw mdraw (Z.of_nat gi) (Z.of_nat i) c = Ret (with_group gi gg' (set_net nt (set_mem m c))).
Proof.
  intros Hwf Hgg Hi Hi3. destruct (sw_group c Hwf gi gg Hgg) as (Hgid & K1 & K2 & K3 & K4). unfold StartServer. rewrite get_group_nat, Hgg.
  cbn [mbind outcome_bind]. cbn zeta. rewrite (slice_set_ok (endnames gg)), Nat2Z.id by (unfold go_len; lia). cbn [mbind outcome_bind]. set (names := draws draw (n c)).
  destruct (skv_make_ends_spec names (servername (gid gg)) (net c)) as [(nt1 & E1 & H1)|E1]; rewrite E1; [|by left]. cbn [mbind outcome_bind].
  rewrite (slice_set_ok (mendnames gg)), Nat2Z.id by (unfold go_len; lia). cbn [mbind outcome_bind]. set (mnames := draws mdraw (nctrlers c)).
  destruct (skv_make_ends_spec mnames ctrlername nt1) as [(nt2 & E2 & H2)|E2]; rewrite E2; [|by left]. cbn [mbind outcome_bind]. right.
  destruct (lookup_lt_is_Some_2 (saved gg) i) as [s Es]; [lia|]. rewrite slice_get_nat, Es. cbn [mbind outcome_bind].
  rewrite (slice_set_ok (saved gg)), Nat2Z.id by (unfold go_len; lia). cbn [mbind outcome_bind new_kv].
  rewrite (slice_set_ok (g_servers gg)), Nat2Z.id by (unfold go_len; lia). cbn [mbind outcome_bind].
  rewrite put_group_nat by (simpl; by eapply group_at_lt). eexists _, names, mnames, _, _. split; [|split; [|reflexivity]].
  2: { simpl. rewrite list_lookup_insert_eq by lia. by eexists. }
  rewrite Hgid in H1 |- *. split; cbn [gid g_servers saved endnames mendnames].
  - done.
  - by rewrite !length_insert.
  - rewrite !list_lookup_insert_eq by lia. unfold names, mnames. rewrite !draws_length, (sw_nctrlers c Hwf). split_and!; try done. by eexists.
  - intros x Hx. by rewrite !list_lookup_insert_ne.
  - simpl. rewrite list_lookup_insert_eq, lookup_insert_eq by lia. done.
  - intros x Hx. simpl. rewrite lookup_insert_ne by done. by rewrite (eo_servers _ _ _ _ _ H2), (eo_servers _ _ _ _ _ H1).
  - intros k e Hk Hrow. destruct (two_rows c gi names mnames nt1 nt2 k e H1 H2) as (Hf & Hin & Hc & Hen & Hu); [by rewrite Hk|done|].
    rewrite list_lookup_insert_eq by lia. simpl. rewrite Hk in Hu. split_and!; try done. intros k' _ Hk'. by destruct (sw_ends c Hwf k' e Hk').
  - intros k e _ Hk. destruct (sw_ends c Hwf k e Hk) as (Hin & _ & _). destruct (eo_old _ _ _ _ _ H1 e Hin) as (Hin1 & Hc1 & He1).
    destruct (eo_old _ _ _ _ _ H2 e Hin1) as (Hin2 & Hc2 & He2). simpl. split; [done|]. split; congruence.
Qed.

(** *** Stopping a server *)

Definition disabled_net (es : list string) (nt : Network) : Network (Name := string) := foldl (λ nt e, Enable e false nt) nt es.

Lemma disabled_net_spec es nt :
  ends (disabled_net es nt) = ends nt ∧ connections (disabled_net es nt) = connections nt ∧ servers (disabled_net es nt) = servers nt ∧
  ∀ e, enabled (disabled_net es nt) !! e = if decide (e ∈ es) then Some false else enabled nt !! e.
Proof.
  revert nt. induction es as [|x es IH]; intros nt; simpl.
  - done.
  - destruct (IH (Enable x false nt)) as (-> & -> & -> & He). split_and!; try done. intros e. rewrite He. simpl.
    destruct (decide (e ∈ es)) as [Hin|Hin]; [by rewrite decide_True by (apply elem_of_cons; by right)|].
    destruct (decide (e = x)) as [->|Hne]; [rewrite lookup_insert_eq, decide_True by (apply elem_of_cons; by left); done|].
    rewrite lookup_insert_ne, decide_False by (rewrite ?elem_of_cons; naive_solver). done.
Qed.

Lemma disable_row_eq row nt : disable_row (length row) (Some row) nt = Ret (disabled_net row nt).
Proof.
  unfold disable_row. simpl. destruct (for_range_inv (λ k nt', nt' = disabled_net (take k row) nt) (λ j nt, e ← slice_get row j; Ret (Enable e false nt))
    (length row) 0 nt) as (nt' & Hnt & ->); [done| |change (Z.of_nat 0) with 0 in Hnt; rewrite Hnt; by rewrite take_ge by lia].
  intros j nt' Hj ->. destruct (lookup_lt_is_Some_2 row j) as [e He]; [lia|]. rewrite slice_get_nat, He. eexists. split; [reflexivity|].
  unfold disabled_net. by rewrite (take_S_r _ _ _ He), foldl_app.
Qed.

Lemma ShutdownServer_spec c gi i gg row : skv_wf c → group_at c gi = Some gg → endnames gg !! i = Some (Some row) →
  ∃ gg' mrow nt m, replaced c gi i gg gg' row mrow nt ∧ mjoin (g_servers gg' !! i) = None ∧
    ShutdownServer (Z.of_nat gi) (Z.of_nat i) c = Ret (with_group gi gg' (set_net nt (set_mem m c))).
Proof.
  intros Hwf Hgg Hrow. destruct (sw_group c Hwf gi gg Hgg) as (Hgid & K1 & K2 & K3 & K4). pose proof (lookup_lt_Some _ _ _ Hrow) as Hi.
  destruct (sw_rows c Hwf gi gg i row Hgg Hrow) as (Lr & (mrow & Hm & Lm) & (ps & Hps) & Hs). unfold ShutdownServer. rewrite get_group_nat, Hgg. cbn [mbind outcome_bind].
  assert (E1 : for_range (length (g_servers gg)) 0 (λ j nt, r ← slice_get (endnames gg) (Z.of_nat i); e ← slice_get (default [] r) j; Ret (Enable e false nt)) (net c)
    = Ret (disabled_net row (net c))).
  { rewrite K1, <-Lr, <-disable_row_eq. unfold disable_row. rewrite slice_get_nat, Hrow. done. }
  rewrite E1. cbn [mbind outcome_bind]. rewrite (slice_get_nat (mendnames gg)), Hm. cbn [mbind outcome_bind default]. rewrite disable_row_eq. cbn [mbind outcome_bind].
  rewrite (slice_get_nat (saved gg)), Hps. cbn [mbind outcome_bind].
  rewrite (slice_set_ok (saved gg)), Nat2Z.id by (unfold go_len; lia). cbn [mbind outcome_bind].
  destruct (lookup_lt_is_Some_2 (g_servers gg) i) as [kv Ekv]; [lia|]. rewrite (slice_get_nat (g_servers gg)), Ekv. cbn [mbind outcome_bind].
  set (nt := disabled_net mrow (disabled_net row (net c))). destruct (disabled_net_spec mrow (disabled_net row (net c))) as (A1 & A2 & A3 & A4).
  destruct (disabled_net_spec row (net c)) as (B1 & B2 & B3 & B4). rewrite B1 in A1. rewrite B2 in A2. rewrite B3 in A3. fold nt in A1, A2, A3, A4.
  assert (Hend : ∀ k e, owner k = (gi, i) → row_of row mrow k = Some e ↔ end_of c k = Some e).
  { intros [g x j|g x j] e [= -> ->]; simpl; rewrite Hgg; simpl; rewrite ?Hrow, ?Hm; done. }
  assert (Hoff : ∀ e, (e ∈ row ∨ e ∈ mrow) ↔ ∃ k, owner k = (gi, i) ∧ end_of c k = Some e).
  { intros e. split.
    - intros [(j & Hj)%list_elem_of_lookup|(j & Hj)%list_elem_of_lookup]; [exists (ToGroup gi i j)|exists (ToCtrler gi i j)]; (split; [done|]); by apply Hend.
    - intros ([g x j|g x j] & Hk & He); apply Hend in He; simpl in He; eauto using list_elem_of_lookup_2. }
  assert (Hrp : ∀ ks, length ks = length (g_servers gg) → mjoin (ks !! i) = None → (∀ x, x ≠ i → ks !! x = g_servers gg !! x) →
    replaced c gi i gg (mkGroup (gid gg) ks (<[i := Copy <$> Some ps]> (saved gg)) (endnames gg) (mendnames gg)) row mrow
      (DeleteServer (servername (gid gg) (Z.of_nat i)) nt)).
  { intros ks Lks Hks Hrest. rewrite Hgid. split; cbn [gid g_servers saved endnames mendnames].
    - done.
    - by rewrite length_insert.
    - split_and!; try done. exists (Copy ps). by rewrite list_lookup_insert_eq by lia.
    - intros x Hx. split_and!; try done; [by apply Hrest|by rewrite list_lookup_insert_ne].
    - simpl. by rewrite Hks, lookup_insert_eq.
    - intros x Hx. simpl. by rewrite lookup_insert_ne, A3.
    - intros k e Hk Hre. rewrite (Hend k e Hk) in Hre. destruct (sw_ends c Hwf k e Hre) as (Hin & Hc & _). simpl. rewrite A1, A2, A4, B4, Hks.
      split; [done|]. split; [done|]. split; [|split].
      + assert (e ∈ row ∨ e ∈ mrow) as [|] by (apply Hoff; eauto); repeat case_decide; done.
      + intros k' Hk' Hre'. rewrite (Hend k' e Hk') in Hre'. by apply (sw_inj c Hwf k' k e).
      + intros k' Hk' Hre'. apply Hk'. by rewrite (sw_inj c Hwf k' k e).
    - intros k e Hk Hke. destruct (sw_ends c Hwf k e Hke) as (Hin & _). simpl. rewrite A1, A2, A4, B4. split; [done|]. split; [done|].
      assert (Hno : ¬ (e ∈ row ∨ e ∈ mrow)) by (rewrite Hoff; intros (k' & Hk' & Hke'); apply Hk; by rewrite (sw_inj c Hwf k k' e)).
      by rewrite !decide_False by tauto. }
  destruct kv as [a|].
  - rewrite slice_set_ok, Nat2Z.id by (unfold go_len; lia). cbn [mbind outcome_bind]. rewrite put_group_nat by (simpl; by eapply group_at_lt).
    eexists _, mrow, _, (kill_kv a (mem c)). split; [apply Hrp|split; [|reflexivity]].
    + by rewrite length_insert.
    + by rewrite list_lookup_insert_eq by lia.
    + intros x Hx. by rewrite list_lookup_insert_ne.
    + simpl. by rewrite list_lookup_insert_eq by lia.
  - rewrite put_group_nat by (simpl; by eapply group_at_lt). eexists _, mrow, _, (mem c). split; [apply Hrp|split; [|reflexivity]]; simpl; by rewrite ?Ekv.
Qed.
(** *** The configuration during a test *)

(** New ends do not disturb the old ones. *)
Definition grows (nt nt' : Network (Name := string)) : Prop :=
  servers nt' = servers nt ∧ ∀ x, x ∈ ends nt → x ∈ ends nt' ∧ connections nt' !! x = connections nt !! x ∧ enabled nt' !! x = enabled nt !! x.

Lemma grows_refl nt : grows nt nt.
Proof. done. Qed.

Lemma make_end_grows e srv nt nt0 nt' : grows nt0 nt → make_end e srv nt = Ret nt' → grows nt0 nt'.
Proof.
  intros [Hs Ho]. unfold make_end, MakeEnd. case_bool_decide as He; [done|]. intros [= <-]. split; [done|]. intros x Hx. destruct (Ho x Hx) as (Hin & ? & ?).
  simpl. assert (x ≠ e) by congruence. rewrite !lookup_insert_ne by done. set_solver.
Qed.

Lemma make_ends_grows names srv nt nt' : make_ends names srv nt = Ret nt' → grows nt nt'.
Proof.
  unfold make_ends. change 0 with (Z.of_nat 0). apply (for_range_Ret (λ _ nt', grows nt nt')); [done|].
  intros j nt1 nt2 _ H1 (e & _ & H2)%bind_Ret_inv. by eapply make_end_grows.
Qed.

Lemma skv_set_net_wf c nt : skv_wf c → grows (net c) nt → skv_wf (set_net nt c).
Proof.
  intros [W1 W2 W3 W4 W5 W6 W7 W8] [Hs Ho]. split; try done; simpl.
  - intros gi gg i row Hg Hr. rewrite Hs. by apply (W4 gi gg i row).
  - intros k e Hk. destruct (W6 k e Hk) as (Hin & ? & ?). destruct (Ho e Hin) as (? & -> & ->). done.
  - by rewrite Hs.
Qed.

(** All servers of all groups were started once. *)
Definition skv_ok (c : config) : Prop := skv_wf c ∧ (n c ≤ 3)%nat ∧ ∀ gi i, (gi < 3)%nat → (i < n c)%nat → started c gi i.

(** A started server has a place for its ends to the controllers. *)
Lemma StartServer_Ret draw mdraw c gi i c' : skv_wf c → StartServer draw mdraw (Z.of_nat gi) (Z.of_nat i) c = Ret c' →
  ∃ gg, group_at c gi = Some gg ∧ (i < n c)%nat ∧ (i < 3)%nat.
Proof.
  intros Hwf. unfold StartServer. intros (gg & Hg & H)%bind_Ret_inv. rewrite get_group_nat in Hg. destruct (group_at c gi) as [g|] eqn:E; [|done].
  injection Hg as ->. exists gg. split; [done|]. destruct (sw_group c Hwf gi gg E) as (_ & _ & _ & K3 & K4).
  apply bind_Ret_inv in H as (en & Hen & H). apply slice_set_Ret in Hen as [Hen _]. apply bind_Ret_inv in H as (nt & _ & H).
  apply bind_Ret_inv in H as (men & Hmen & H). apply slice_set_Ret in Hmen as [Hmen _]. unfold go_len in *. lia.
Qed.

Lemma skv_StartServer_wf draw mdraw c gi i c' : skv_wf c → StartServer draw mdraw (Z.of_nat gi) (Z.of_nat i) c = Ret c' →
  skv_wf c' ∧ n c' = n c ∧ ngroups c' = ngroups c ∧ (i < n c)%nat ∧ (i < 3)%nat ∧ started c' gi i ∧ (∀ x y, started c x y → started c' x y) ∧
  ∀ x, is_Some (group_at c x) ↔ is_Some (group_at c' x).
Proof.
  intros Hwf Hs. destruct (StartServer_Ret _ _ _ _ _ _ Hwf Hs) as (gg & Hgg & Hi & Hi3).
  destruct (StartServer_spec draw mdraw c gi i gg Hwf Hgg Hi Hi3) as [E|(gg' & row & mrow & nt & m & Hrp & _ & E)]; rewrite Hs in E; [done|]. injection E as ->.
  split; [by apply (replaced_wf c gi i gg gg' row mrow nt m)|]. split_and!; try done.
  - exists gg', row. rewrite (replaced_group c gi gg gg' nt m Hgg), decide_True by done. split; [done|]. by destruct (rp_row _ _ _ _ _ _ _ _ Hrp).
  - intros x y. by apply (replaced_started c gi i gg gg' row mrow nt m).
  - intros x. rewrite (replaced_group c gi gg gg' nt m Hgg). case_decide as Ex; [|done]. rewrite Ex, Hgg. split; by eexists.
Qed.

Lemma ShutdownServer_wf c gi i c' : skv_ok c → ShutdownServer (Z.of_nat gi) (Z.of_nat i) c = Ret c' → skv_ok c' ∧ n c' = n c.
Proof.
  intros (Hwf & Hn & Hst) Hs. assert (Hst' : started c gi i).
  { unfold ShutdownServer in Hs. apply bind_Ret_inv in Hs as (gg & Hg & Hs). rewrite get_group_nat in Hg. destruct (group_at c gi) as [g|] eqn:E; [|done].
    injection Hg as ->. apply Hst; [apply group_at_lt in E; by rewrite (sw_groups c Hwf) in E|]. apply bind_Ret_inv in Hs as (nt & _ & Hs).
    apply bind_Ret_inv in Hs as (mrow & _ & Hs). apply bind_Ret_inv in Hs as (nt' & _ & Hs). apply bind_Ret_inv in Hs as (s & Hsv & _).
    apply slice_get_Ret in Hsv as [_ Hsv]. apply lookup_lt_Some in Hsv. destruct (sw_group c Hwf gi gg E) as (_ & _ & <- & _). lia. }
  destruct Hst' as (gg & row & Hgg & Hrow).
  destruct (ShutdownServer_spec c gi i gg row Hwf Hgg Hrow) as (gg' & mrow & nt & m & Hrp & _ & E). rewrite Hs in E. injection E as ->.
  split; [|done]. split; [by apply (replaced_wf c gi i gg gg' row mrow nt m)|]. split; [done|]. intros x y Hx Hy.
  apply (replaced_started c gi i gg gg' row mrow nt m Hgg Hrp). by apply Hst.
Qed.

(** What a test does: servers go up and down, clerks come and go, clerks and servers
    make ends, and the servers run. *)
Inductive skv_step (c : config) : config → Prop :=
| ss_start draw mdraw gi i c' : StartServer draw mdraw (Z.of_nat gi) (Z.of_nat i) c = Ret c' → skv_step c c'
| ss_shutdown gi i c' : ShutdownServer (Z.of_nat gi) (Z.of_nat i) c = Ret c' → skv_step c c'
| ss_client draw ck clerk c' : makeClient draw ck c = Ret (clerk, c') → skv_step c c'
| ss_deleteClient ck : skv_step c (deleteClient ck c)
| ss_end e srv nt : make_end e srv (net c) = Ret nt → skv_step c (set_net nt c)
| ss_run m : skv_step c (set_mem m c).

Lemma makeClient_spec draw ck c clerk c' : nctrlers c = 3%nat → makeClient draw ck c = Ret (clerk, c') →
  (3 ≤ n c)%nat ∧ ∃ es nt, c' = set_clerks (<[ck := es]> (clerks c)) (nextClientId c + 1) (set_net nt c) ∧ grows (net c) nt.
Proof.
  intros H3. unfold makeClient. intros ([es nt] & Hl & H)%bind_Ret_inv. injection H as <- <-.
  assert (HI : (nctrlers c ≤ n c)%nat ∧ length es = n c ∧ grows (net c) nt).
  { change 0 with (Z.of_nat 0) in Hl. rewrite <-(Nat.add_0_l (nctrlers c)) at 1. revert Hl.
    apply (for_range_Ret (λ j '(es, nt), (j ≤ n c)%nat ∧ length es = n c ∧ grows (net c) nt) _ _ 0 _ (es, nt)).
    - rewrite length_replicate. split; [lia|]. by split.
    - intros j [es1 nt1] [es2 nt2] _ (Hj & Hlen & Hg) Hb. apply bind_Ret_inv in Hb as (es3 & He & Hb). apply bind_Ret_inv in Hb as (nt3 & Hnt & Hb).
      injection Hb as <- <-. apply slice_set_Ret in He as [Hr ->]. unfold go_len in Hr. rewrite length_insert. split; [lia|]. split; [done|].
      by eapply make_end_grows. }
  destruct HI as (? & ? & ?). split; [lia|]. by exists es, nt.
Qed.

Lemma skv_step_ok c c' : skv_ok c → skv_step c c' → skv_ok c' ∧ n c' = n c.
Proof.
  intros Hok Hs. destruct (Hok) as (Hwf & Hn & Hst). destruct Hs as [draw mdraw gi i c' Hs|gi i c' Hs|draw ck clerk c' Hs|ck|e srv nt Hs|m].
  - destruct (skv_StartServer_wf draw mdraw c gi i c' Hwf Hs) as (Hwf' & Hn' & _ & _ & _ & _ & Hm & _). split; [|done]. split; [done|].
    rewrite Hn'. split; [done|]. intros x y Hx Hy. apply Hm. by apply Hst.
  - by apply ShutdownServer_wf in Hs.
  - apply makeClient_spec in Hs as (_ & es & nt & -> & Hg); [|apply Hwf]. split; [|done]. split; [|done]. by destruct (skv_set_net_wf c nt Hwf Hg).
  - split; [|done]. split; [|done]. by destruct Hwf.
  - split; [|done]. split; [|done]. apply skv_set_net_wf; [done|]. by eapply make_end_grows.
  - split; [|done]. split; [|done]. by destruct Hwf.
Qed.
(** *** make_config *)

(** Before the groups are made: the first [k] controllers run. *)
Record ctrlers_up (k : nat) (c : config) : Prop := {
  cu_n : nctrlers c = 3%nat;
  cu_len : length (ctrlerservers c) = 3%nat;
  cu_groups : groups c = [];
  cu_up : ∀ j, (j < k)%nat → ∃ a, ctrlerservers c !! j = Some (Some a) ∧ servers (net c) !! ctrlername (Z.of_nat j) = Some (Some a)
}.

Lemma StartCtrlerserver_up draw k c c' : ctrlers_up k c → StartCtrlerserver draw (Z.of_nat k) c = Ret c' → ctrlers_up (S k) c'.
Proof.
  intros [H1 H2 H3 H4]. unfold StartCtrlerserver. intros (nt & Hnt & H)%bind_Ret_inv. apply make_ends_grows in Hnt as [Hs _]. cbn [new_ctrler] in H.
  apply bind_Ret_inv in H as (cs & Hcs & [= <-]). apply slice_set_Ret in Hcs as [Hk ->]. unfold go_len in Hk. rewrite Nat2Z.id.
  split; simpl; try done; [by rewrite length_insert|]. intros j Hj. destruct (decide (j = k)) as [->|Hne].
  - eexists. rewrite list_lookup_insert_eq, lookup_insert_eq by lia. done.
  - destruct (H4 j) as (a & Ha & Hsa); [lia|]. exists a. rewrite list_lookup_insert_ne, lookup_insert_ne by (done || (intros ?%ctrlername_inj; lia)).
    by rewrite Hs.
Qed.

(** A group whose servers were not started yet. *)
Definition empty_group (gi k : nat) : group := mkGroup (100 + Z.of_nat gi) (replicate k None) (replicate k None) (replicate k None) (replicate 3 None).

Lemma replicate_None {A} k i : mjoin (replicate k (None : option A) !! i) = None.
Proof. destruct (replicate k None !! i) as [o|] eqn:E; [|done]. by apply lookup_replicate_1 in E as [-> _]. Qed.

Lemma empty_group_wf c gi : skv_wf c → group_at c gi = None → (gi < 3)%nat → skv_wf (with_group gi (empty_group gi (n c)) c).
Proof.
  intros Hwf Hno Hgi. set (c' := with_group _ _ _).
  assert (Hg : ∀ x, group_at c' x = if decide (x = gi) then Some (empty_group gi (n c)) else group_at c x)
    by (intros x; apply group_at_with; rewrite (sw_groups c Hwf); lia).
  assert (He : ∀ k, end_of c' k = if decide ((owner k).1 = gi) then None else end_of c k).
  { intros [g x j|g x j]; cbn [end_of owner fst]; rewrite Hg; case_decide; try done; cbn [mbind option_bind endnames mendnames empty_group]; by rewrite replicate_None. }
  assert (Ha : ∀ x y, addr c' x y = addr c x y).
  { intros x y. unfold addr. rewrite Hg. case_decide as E; [|done]. rewrite E, Hno. simpl. apply replicate_None. }
  split; try apply Hwf.
  - simpl. rewrite length_insert. apply Hwf.
  - intros x gg. rewrite Hg. case_decide as E; [|apply (sw_group c Hwf)]. intros [= <-]. rewrite E. simpl. by rewrite !length_replicate.
  - intros x gg y row. rewrite Hg, Ha. case_decide as E; [|apply (sw_rows c Hwf)]. intros [= <-]. simpl. intros Hr.
    pose proof (replicate_None (A := list string) (n c) y) as Hn. by rewrite Hr in Hn.
  - intros k k' e. rewrite !He. repeat case_decide; try done. apply (sw_inj c Hwf).
  - intros k e. rewrite He. case_decide; [done|]. unfold up. rewrite Ha. apply (sw_ends c Hwf).
Qed.

(** After [g] groups were started. *)
Definition groups_up (k g : nat) (c : config) : Prop :=
  skv_wf c ∧ n c = k ∧ ngroups c = 3%nat ∧ (0 < g → k ≤ 3)%nat ∧ (∀ gi, (g ≤ gi)%nat → group_at c gi = None) ∧ ∀ gi i, (gi < g)%nat → (i < k)%nat → started c gi i.

Lemma start_group_up k g draw mdraw c c' : (g < 3)%nat → groups_up k g c →
  (c ← put_group (Z.of_nat g) (mkGroup (100 + Z.of_nat g) (replicate (n c) None) (replicate (n c) None) (replicate (n c) None) (replicate (nctrlers c) None)) c;
   for_range (n c) 0 (λ i c, StartServer (draw i) (mdraw i) (Z.of_nat g) i c) c) = Ret c' → groups_up k (S g) c'.
Proof.
  intros Hg (Hwf & Hn & Hng & _ & Hno & Hst). rewrite (sw_nctrlers c Hwf). change (mkGroup _ _ _ _ _) with (empty_group g (n c)).
  rewrite put_group_nat by (rewrite (sw_groups c Hwf); lia). cbn [mbind outcome_bind]. set (c1 := with_group _ _ _).
  assert (Hwf1 : skv_wf c1) by (apply empty_group_wf; [done|by apply Hno|done]).
  assert (Hg1 : ∀ x, group_at c1 x = if decide (x = g) then Some (empty_group g (n c)) else group_at c x)
    by (intros x; apply group_at_with; rewrite (sw_groups c Hwf); lia).
  assert (Hst1 : ∀ gi i, (gi < g)%nat → (i < k)%nat → started c1 gi i).
  { intros gi i Hgi Hi. destruct (Hst gi i Hgi Hi) as (gg & row & Hgg & Hr). exists gg, row. rewrite Hg1, decide_False by lia. done. }
  change (n c1) with (n c). rewrite Hn. change 0 with (Z.of_nat 0). intros Hf.
  assert (HI : skv_wf c' ∧ n c' = k ∧ ngroups c' = 3%nat ∧ (k ≤ 3)%nat ∧ (∀ gi, (S g ≤ gi)%nat → group_at c' gi = None) ∧
    (∀ gi i, (gi < g)%nat → (i < k)%nat → started c' gi i) ∧ ∀ i, (i < k)%nat → started c' g i); cycle 1.
  { destruct HI as (? & ? & ? & ? & ? & Ho & Hs). split; [done|]. split_and!; try done. intros gi i Hgi Hi.
    destruct (decide (gi = g)) as [->|]; [by apply Hs|]. apply Ho; [lia|done]. }
  revert Hf. rewrite <-(Nat.add_0_l k).
  apply (for_range_Ret (λ j c, skv_wf c ∧ n c = k ∧ ngroups c = 3%nat ∧ (j ≤ 3)%nat ∧ (∀ gi, (S g ≤ gi)%nat → group_at c gi = None) ∧
    (∀ gi i, (gi < g)%nat → (i < k)%nat → started c gi i) ∧ ∀ i, (i < j)%nat → started c g i) (λ i c, StartServer (draw i) (mdraw i) (Z.of_nat g) i c) k 0 c1).
  - split; [done|]. split; [done|]. split; [done|]. split; [lia|]. split; [|split; [done|lia]].
    intros gi Hgi. rewrite Hg1, decide_False by lia. apply Hno. lia.
  - intros j c2 c3 Hj (Hwf2 & Hn2 & Hng2 & Hj2 & Hno2 & Ho2 & Hs2) H3.
    destruct (skv_StartServer_wf _ _ c2 g j c3 Hwf2 H3) as (Hwf3 & Hn3 & Hng3 & Hj3 & Hj33 & Hsj & Hm & Hgr).
    split; [done|]. split; [congruence|]. split; [congruence|]. split; [lia|]. split; [|split].
    + intros gi Hgi. pose proof (Hno2 gi Hgi) as Hn0. apply eq_None_not_Some. rewrite <-Hgr, Hn0. by intros [].
    + intros gi i Hgi Hi. apply Hm. by apply Ho2.
    + intros i Hi. destruct (decide (i = j)) as [->|]; [done|]. apply Hm, Hs2. lia.
Qed.

Lemma skv_make_config_ok k unreliable maxstate now d c : make_config k unreliable maxstate now d = Ret c → skv_ok c ∧ n c = k ∧ ngroups c = 3%nat.
Proof.
  unfold make_config. cbn zeta. set (c0 := mkConfig _ _ _ _ _ _ _ _ _ _ _ _ _). change (nctrlers c0) with 3%nat. change 0 with (Z.of_nat 0).
  intros (c1 & H1 & H)%bind_Ret_inv.
  apply (for_range_Ret ctrlers_up) in H1; [|split; try done; intros j Hj; lia|intros j s s' _; apply StartCtrlerserver_up]. cbn [Nat.add] in H1.
  apply bind_Ret_inv in H as ([ck c2] & H2 & H). unfold shardclerk in H2. apply bind_Ret_inv in H2 as (nt & Hnt & [= _ <-]).
  apply make_ends_grows in Hnt as [Hs _]. destruct H1 as [N1 N2 N3 N4].
  set (c3 := set_groups _ _) in H. apply bind_Ret_inv in H as (c4 & H4 & [= <-]).
  assert (Hwf3 : skv_wf c3 ∧ ∀ gi, group_at c3 gi = None).
  { assert (Hg : ∀ gi, group_at c3 gi = None) by (intros gi; apply (replicate_None (A := group) 3)).
    assert (He : ∀ k, end_of c3 k = None) by (intros [g i j|g i j]; simpl; by rewrite Hg).
    split; [|done]. split; try done; try (intros; rewrite ?Hg, ?He in *; done). simpl. rewrite Hs. done. }
  destruct Hwf3 as [Hwf3 Hno3]. change (ngroups c3) with 3%nat in H4.
  apply (for_range_Ret (groups_up k)) in H4; [|split; [done|]; split; [done|]; split; [done|]; split; [lia|]; split; [done|lia]|].
  - destruct H4 as (Hwf & Hn & Hng & Hk & _ & Hst). split; [|done]. split; [by destruct Hwf|]. simpl. rewrite Hn. split; [lia|]. done.
  - intros g s s' Hg Hup Hb. by apply (start_group_up k g (d_ends d (Z.of_nat g)) (d_mends d (Z.of_nat g)) s s'); [lia| |].
Qed.

Definition config_reachable (c : config) : Prop :=
  ∃ k unreliable maxstate now d c0, make_config k unreliable maxstate now d = Ret c0 ∧ rtc skv_step c0 c.

Lemma reachable_skv_ok c : config_reachable c → skv_ok c.
Proof.
  intros (k & u & ms & now & d & c0 & Hm & Hr). apply skv_make_config_ok in Hm as [Hok _]. induction Hr as [|c1 c2 c3 Hs _ IH]; [done|].
  apply IH. by eapply skv_step_ok.
Qed.
(** ** Theorems *)

Lemma end_in_range c gi i : skv_ok c → (gi < 3)%nat → (i < n c)%nat →
  (∀ j, (j < n c)%nat → ∃ e, end_of c (ToGroup gi i j) = Some e) ∧ (∀ j, (j < 3)%nat → ∃ e, end_of c (ToCtrler gi i j) = Some e) ∧
  servers (net c) !! servername (100 + Z.of_nat gi) (Z.of_nat i) = Some (addr c gi i).
Proof.
  intros (Hwf & Hn & Hst) Hg Hi. destruct (Hst gi i Hg Hi) as (gg & row & Hgg & Hr). destruct (sw_rows c Hwf gi gg i row Hgg Hr) as (Lr & (mrow & Hm & Lm) & _ & Hs).
  split; [|split; [|done]]; intros j Hj; simpl; rewrite Hgg; simpl; rewrite ?Hr, ?Hm; simpl; apply lookup_lt_is_Some_2; lia.
Qed.

(** Servers reach their group.  At every moment of a test of shardkv, whatever was
    started, stopped, restarted or dialled before, what the network reads for the
    [j]-th end of server [i] of a group is the name of server [j] of the same group and
    the object that runs there, if any; the ends to the controllers lead to the
    running controllers; and all these ends are enabled exactly while server [i]
    runs. *)
Theorem shard_groups_wired (c : config) (gi i : nat) : config_reachable c → (gi < 3)%nat → (i < n c)%nat →
  (∀ j, (j < n c)%nat → ∃ e, end_of c (ToGroup gi i j) = Some e ∧
     readEndnameInfo e (net c) = (up c (gi, i), Some (servername (100 + Z.of_nat gi) (Z.of_nat j)), addr c gi j, reliable (net c), longReordering (net c))) ∧
  (∀ j, (j < 3)%nat → ∃ e a, end_of c (ToCtrler gi i j) = Some e ∧ ctrlerservers c !! j = Some (Some a) ∧
     readEndnameInfo e (net c) = (up c (gi, i), Some (ctrlername (Z.of_nat j)), Some a, reliable (net c), longReordering (net c))).
Proof.
  intros Hok%reachable_skv_ok Hg Hi. destruct (Hok) as (Hwf & _ & _). destruct (end_in_range c gi i Hok Hg Hi) as (He & Hm & _). split; intros j Hj.
  - destruct (He j Hj) as [e Ee]. exists e. split; [done|]. destruct (sw_ends c Hwf _ e Ee) as (_ & Hc & Hen). unfold readEndnameInfo.
    rewrite Hc, Hen. cbn [default from_option id target owner]. unfold lookup_server. destruct (end_in_range c gi j Hok Hg Hj) as (_ & _ & Hs). simpl. by rewrite Hs.
  - destruct (Hm j Hj) as [e Ee]. destruct (sw_ctrlers c Hwf j Hj) as (a & Ha & Hs). exists e, a. split; [done|]. split; [done|].
    destruct (sw_ends c Hwf _ e Ee) as (_ & Hc & Hen). unfold readEndnameInfo. rewrite Hc, Hen. cbn [default from_option id target owner].
    unfold lookup_server. by rewrite Hs.
Qed.

(** The harness has groups of at most three servers, and clerks only for groups of
    three: the slices of names have the length of the other kind of server. *)
Theorem harness_group_size k unreliable maxstate now d c0 c :
  make_config k unreliable maxstate now d = Ret c0 → rtc skv_step c0 c →
  n c = k ∧ (k ≤ 3)%nat ∧ ∀ draw ck r, makeClient draw ck c = Ret r → k = 3%nat.
Proof.
  intros Hm Hr. apply skv_make_config_ok in Hm as (Hok & Hn & _). assert (Hc : skv_ok c ∧ n c = k).
  { revert Hok Hn. induction Hr as [|c1 c2 c3 Hs _ IH]; [done|]. intros Hok Hn. destruct (skv_step_ok c1 c2 Hok Hs) as [Hok2 Hn2]. apply IH; [done|congruence]. }
  destruct Hc as [(Hwf & H3 & _) <-]. split; [done|]. split; [done|]. intros draw ck [clerk c'] Hmk.
  apply makeClient_spec in Hmk as [? _]; [lia|apply Hwf].
Qed.

(** [checklogs] of one server. *)
Definition log_fits (maxstate : Z) (ps : Persister) : bool :=
  if maxstate <? 0 then go_len (ReadSnapshot ps) =? 0 else RaftStateSize ps <=? 8 * maxstate.

Lemma unit_loop (P : nat → Prop) (body : Z → unit → outcome unit) k i :
  (∀ j, (i ≤ j < i + k)%nat → (body (Z.of_nat j) tt = Ret tt ∧ P j) ∨ (body (Z.of_nat j) tt = Exit ∧ ¬ P j)) →
  (for_range k (Z.of_nat i) body tt = Ret tt ∧ ∀ j, (i ≤ j < i + k)%nat → P j) ∨
  (for_range k (Z.of_nat i) body tt = Exit ∧ ∃ j, (i ≤ j < i + k)%nat ∧ ¬ P j).
Proof.
  revert i. induction k as [|k IH]; intros i Hb; cbn [for_range]; [left; split; [done|lia]|].
  destruct (Hb i) as [[-> Hi]|[-> Hi]]; [lia| |right; split; [done|]; exists i; split; [lia|done]]. cbn [mbind outcome_bind].
  replace (Z.of_nat i + 1) with (Z.of_nat (S i)) by lia. destruct (IH (S i)) as [[-> Hall]|[-> (j & Hj & Hn)]]; [intros j Hj; apply Hb; lia| |].
  - left. split; [done|]. intros j Hj. destruct (decide (j = i)) as [->|]; [done|]. apply Hall. lia.
  - right. split; [done|]. exists j. split; [lia|done].
Qed.

Lemma check_one_log (maxstate : Z) (ps : Persister) :
  (if (maxstate >=? 0) && (RaftStateSize ps >? 8 * maxstate) then Exit
   else if (maxstate <? 0) && (go_len (ReadSnapshot ps) >? 0) then Exit else Ret tt) = if log_fits maxstate ps then Ret tt else Exit.
Proof.
  unfold log_fits, go_len. rewrite Z.geb_leb, !Z.gtb_ltb.
  destruct (Z.ltb_spec maxstate 0), (Z.leb_spec 0 maxstate); try lia; cbn [andb].
  - destruct (Z.eqb_spec (Z.of_nat (length (ReadSnapshot ps))) 0), (Z.ltb_spec 0 (Z.of_nat (length (ReadSnapshot ps)))); done || lia.
  - destruct (Z.leb_spec (RaftStateSize ps) (8 * maxstate)), (Z.ltb_spec (8 * maxstate) (RaftStateSize ps)); done || lia.
Qed.

(** The saved state of a server. *)
Definition saved_at (c : config) (gi i : nat) : option Persister := gg ← group_at c gi; mjoin (saved gg !! i).

(** The check of log sizes.  During a test [checklogs] never panics; it passes exactly
    when the saved state of every server is within the limit, and ends the test
    otherwise. *)
Theorem checklogs_decides c : config_reachable c →
  let fits gi i := ∃ ps, saved_at c gi i = Some ps ∧ log_fits (maxraftstate c) ps = true in
  (checklogs c = Ret tt ∧ ∀ gi i, (gi < 3)%nat → (i < n c)%nat → fits gi i) ∨
  (checklogs c = Exit ∧ ∃ gi i, (gi < 3)%nat ∧ (i < n c)%nat ∧ ¬ fits gi i).
Proof.
  intros (Hwf & _ & Hst)%reachable_skv_ok fits. remember (checklogs c) as res eqn:E. unfold checklogs in E. rewrite (sw_ngroups c Hwf) in E.
  match type of E with _ = for_range 3 _ ?b tt => set (body := b) in E end.
  destruct (unit_loop (λ gi, ∀ i, (i < n c)%nat → fits gi i) body 3 0) as [[E' Hall]|[E' (gi & Hgi & Hno)]]; rewrite ?E; clear E.
  - intros gi Hgi. unfold body. change 0 with (Z.of_nat 0). match goal with |- context [for_range (n c) _ ?b tt] => set (b1 := b) end.
    destruct (unit_loop (fits gi) b1 (n c) 0) as [[-> H1]|[-> (i & Hi & Hno)]]; [|left; split; [done|]; intros i Hi; apply H1; lia|].
    2: { right. split; [done|]. intros Hall. apply Hno, Hall. lia. }
    intros i Hi. unfold b1. destruct (Hst gi i) as (gg & row & Hgg & Hr); [lia..|]. rewrite get_group_nat, Hgg. cbn [mbind outcome_bind].
    destruct (sw_rows c Hwf gi gg i row Hgg Hr) as (_ & _ & (ps & Hps) & _). rewrite slice_get_nat, Hps. cbn [mbind outcome_bind]. rewrite check_one_log.
    assert (Hf : fits gi i ↔ log_fits (maxraftstate c) ps = true).
    { unfold fits, saved_at. rewrite Hgg. simpl. rewrite Hps. simpl. split; [by intros (ps' & [= <-] & ?)|by exists ps]. }
    rewrite Hf. destruct (log_fits (maxraftstate c) ps); [by left|by right].
  - left. split; [exact E'|]. intros gi i Hgi Hi. apply Hall; [lia|done].
  - right. split; [exact E'|]. assert (Hx : ∃ i, (i < n c)%nat ∧ ¬ fits gi i); [|destruct Hx as (i & Hi & Hf); exists gi, i; split; [lia|done]].
    assert (Hd : ∀ i, Decision (fits gi i)).
    { intros i. unfold fits. destruct (saved_at c gi i) as [ps|]; [|right; by intros (? & ? & _)].
      destruct (log_fits (maxraftstate c) ps) eqn:E; [left; by exists ps|right; intros (? & [= <-] & ?); congruence]. }
    destruct (decide (Exists (λ i, ¬ fits gi i) (seq 0 (n c)))) as [(i & Hi%elem_of_seq & Hf)%Exists_exists|Hnone]; [exists i; split; [lia|done]|].
    exfalso. apply Hno. intros i Hi. destruct (Hd i) as [?|Hf]; [done|]. exfalso. apply Hnone, Exists_exists. exists i. split; [apply elem_of_seq; lia|done].
Qed.

(** What joining tells the controller: each group with the names of its servers. *)
Lemma join_map_spec c gis : config_reachable c → (0 < n c)%nat → Forall (λ g, 0 ≤ g < 3) gis →
  ∃ m, join_map gis c = Ret m ∧ ∀ gi, m !! (100 + gi) = if decide (gi ∈ gis) then Some (servername (100 + gi) <$> seqZ 0 (Z.of_nat (n c))) else None.
Proof.
  intros (Hwf & _ & Hst)%reachable_skv_ok Hn Hin.
  assert (Hg : ∀ g, 0 ≤ g < 3 → ∃ gg, get_group g c = Ret gg ∧ gid gg = 100 + g).
  { intros g Hr. destruct (Hst (Z.to_nat g) 0%nat) as (gg & _ & Hgg & _); [lia|done|]. exists gg. rewrite <-(Z2Nat.id g), get_group_nat, Hgg by lia.
    split; [done|]. destruct (sw_group c Hwf _ gg Hgg) as [-> _]. lia. }
  assert (Hgen : ∀ m0 : gmap Z (list string), ∃ m, for_each gis (λ g m, gg ← get_group g c; Ret (<[gid gg := servername (gid gg) <$> seqZ 0 (Z.of_nat (n c))]> m)) m0 = Ret m ∧
    ∀ gi, m !! (100 + gi) = if decide (gi ∈ gis) then Some (servername (100 + gi) <$> seqZ 0 (Z.of_nat (n c))) else m0 !! (100 + gi)); [|apply Hgen].
  induction gis as [|g gis IH]; intros m0; cbn [for_each].
  - exists m0. split; [done|]. intros gi. by rewrite decide_False by apply not_elem_of_nil.
  - apply Forall_cons in Hin as [Hg0 Hin]. destruct (Hg g Hg0) as (gg & -> & Hgid). cbn [mbind outcome_bind]. rewrite Hgid.
    destruct (IH Hin (<[100 + g := servername (100 + g) <$> seqZ 0 (Z.of_nat (n c))]> m0)) as (m & Hm & Hl). exists m. split; [exact Hm|]. intros gi. rewrite Hl.
    destruct (decide (gi ∈ gis)) as [Hi|Hi]; [by rewrite decide_True by (apply elem_of_cons; by right)|].
    destruct (decide (gi = g)) as [->|Hne]; [rewrite lookup_insert_eq, decide_True by (apply elem_of_cons; by left); done|].
    rewrite lookup_insert_ne, decide_False by (rewrite ?elem_of_cons; naive_solver lia). done.
Qed.
End ShardKVConfig.

(** ** Three servers per group, of which one is stopped and restarted *)

Definition tag (a b : Z) (j : Z) : string := pretty a +:+ "/" +:+ pretty b +:+ "/" +:+ pretty j.
Definition drawn3 : drawn := mkDrawn (tag 1) (tag 2 0) (λ g i, tag (10 + g) i) (λ g i, tag (20 + g) i).

Definition stopped_and_restarted : outcome config :=
  c ← make_config [] [] [] 3 false (-1) 0 drawn3;
  c ← ShutdownServer 1 2 c;
  c ← ShutdownServer 1 0 c;
  StartServer [] [] (tag 30 0) (tag 31 0) 1 2 c.

Example three_groups : match stopped_and_restarted with
  | Ret c => Nat.eqb (n c) 3 && up c (1, 2)%nat && negb (up c (1, 0)%nat) && bool_decide (checklogs c = Ret tt)
  | _ => false end = true.
Proof. vm_compute. reflexivity. Qed.

Lemma shard_groups_wired_witness :
  ∃ c e, stopped_and_restarted = Ret c ∧ end_of c (ToGroup 1 2 0) = Some e ∧
    readEndnameInfo e (net c) = (up c (1, 2)%nat, Some (servername 101 0), addr c 1 0, reliable (net c), longReordering (net c)).
Proof.
  destruct stopped_and_restarted as [c| |] eqn:E.
  2, 3: exfalso; pose proof three_groups as T; rewrite E in T; discriminate T.
  assert (Hn : n c = 3%nat).
  { pose proof three_groups as T. rewrite E in T. apply andb_true_iff in T as [T _]. apply andb_true_iff in T as [T _].
    apply andb_true_iff in T as [T _]. by apply Nat.eqb_eq in T. }
  assert (Hr : config_reachable [] [] [] c).
  { unfold stopped_and_restarted in E. apply bind_Ret_inv in E as (c0 & H0 & E). apply bind_Ret_inv in E as (c1 & H1 & E).
    apply bind_Ret_inv in E as (c2 & H2 & E). exists 3%nat, false, (-1), 0, drawn3, c0. split; [exact H0|].
    apply (rtc_l _ _ c1); [exact (ss_shutdown _ _ c0 1 2 c1 H1)|]. apply (rtc_l _ _ c2); [exact (ss_shutdown _ _ c1 1 0 c2 H2)|].
    apply rtc_once. exact (ss_start _ _ c2 (tag 30 0) (tag 31 0) 1 2 c E). }
  destruct (shard_groups_wired [] [] [] c 1 2 Hr) as [Hg _]; [lia|rewrite Hn; lia|]. destruct (Hg 0%nat) as (e & He & Hi); [rewrite Hn; lia|].
  exists c, e. split; [done|]. split; [exact He|exact Hi].
Defined.
