(* ===== verification/ShardCtrlerConfig.v ===== *)
(** * Lab2_MapReduce, shardctrler: the test configuration

    [shardctrler/config.go]: controllers and clerks over the network of [LabRPC], with
    partitions.  The state is the [config] struct with the objects it points to; the
    shuffling of a clerk's servers, the fresh ends and the split around a leader are
    those of [KVConfig], whose source has the same text.

    The harness promises a simple network: a set of running servers, a set of clerks
    and a set of open links.  [net_spec] is that promise, with one function per
    operation of a test, and the theorem is that the configuration refines it.

    Names drawn by [randstring] are an argument, as is the clock. *)

From S2P Require Import Prelude Raft LabRPC RaftConfig Clerks KVConfig.
Open Scope Z_scope.

Section ShardCtrlerConfig.
(** What reflection finds on a [*ShardCtrler] and on a [*Raft]; receivers are
    addresses. *)
Variable ctrler_methods : list (reflect_method (S := nat)).
Variable raft_methods : list (reflect_method (S := nat)).

Record memory := mkMemory { ctrler_at : gmap nat ShardCtrler.ShardCtrler; server_at : gmap nat (Server (S := nat)); next_addr : nat }.

Record config := mkConfig {
  failed : bool;
  net : Network (Name := netname);
  n : nat;
  cservers : list (option nat);
  saved : list (option Persister);
  endnames : list (option (list string));
  clerks : gmap nat (list string);      (* by the address of the clerk *)
  nextClientId : Z;
  start : Z;
  mem : memory
}.

Definition set_net (x : Network) (c : config) : config :=
  mkConfig (failed c) x (n c) (cservers c) (saved c) (endnames c) (clerks c) (nextClientId c) (start c) (mem c).
Definition set_cservers (x : list (option nat)) (m : memory) (c : config) : config :=
  mkConfig (failed c) (net c) (n c) x (saved c) (endnames c) (clerks c) (nextClientId c) (start c) m.
Definition set_saved (x : list (option Persister)) (c : config) : config :=
  mkConfig (failed c) (net c) (n c) (cservers c) x (endnames c) (clerks c) (nextClientId c) (start c) (mem c).
Definition set_endnames (x : list (option (list string))) (c : config) : config :=
  mkConfig (failed c) (net c) (n c) (cservers c) (saved c) x (clerks c) (nextClientId c) (start c) (mem c).
Definition set_clerks (x : gmap nat (list string)) (id : Z) (c : config) : config :=
  mkConfig (failed c) (net c) (n c) (cservers c) (saved c) (endnames c) x id (start c) (mem c).

(** ** Servers and partitions *)

Definition enable_end (i j : Z) (b : bool) (c : config) : outcome config :=
  row ← slice_get (endnames c) i;
  e ← slice_get (default [] row) j;
  Ret (set_net (Enable (inl e) b (net c)) c).

Definition connectUnlocked (i : Z) (to : list Z) (c : config) : outcome config :=
  c ← for_each to (λ x c, enable_end i x true c) c;
  for_each to (λ x c, enable_end x i true c) c.

(** The second loop tests [endnames[j]] for the loop index [j], not for [from[j]]. *)
Definition disconnectUnlocked (i : Z) (from : list Z) (c : config) : outcome config :=
  c ← for_each from (λ x c, row ← slice_get (endnames c) i; if row : option _ then enable_end i x false c else Ret c) c;
  for_each (imap (λ j x, (Z.of_nat j, x)) from) (λ '(j, x) c,
    row ← slice_get (endnames c) j; if row : option _ then enable_end x i false c else Ret c) c.

Definition connect (i : Z) (to : list Z) (c : config) : outcome config := connectUnlocked i to c.
Definition disconnect (i : Z) (from : list Z) (c : config) : outcome config := disconnectUnlocked i from c.

Definition All (c : config) : list Z := Z.of_nat <$> seq 0 (n c).

Definition ConnectAll (c : config) : outcome config := for_range (n c) 0 (λ i c, connectUnlocked i (All c) c) c.

Definition partition (p1 p2 : list Z) (c : config) : outcome config :=
  c ← for_each p1 (λ i c, c ← disconnectUnlocked i p2 c; connectUnlocked i p1 c) c;
  for_each p2 (λ i c, c ← disconnectUnlocked i p1 c; connectUnlocked i p2 c) c.

(** ** Clients *)

Definition switch_client (ck : nat) (b : bool) (x : Z) (c : config) : outcome config :=
  e ← slice_get (default [] (clerks c !! ck)) x; Ret (set_net (Enable (inl e) b (net c)) c).

Definition ConnectClientUnlocked (ck : nat) (to : list Z) (c : config) : outcome config := for_each to (switch_client ck true) c.
Definition ConnectClient (ck : nat) (to : list Z) (c : config) : outcome config := ConnectClientUnlocked ck to c.
Definition DisconnectClientUnlocked (ck : nat) (from : list Z) (c : config) : outcome config := for_each from (switch_client ck false) c.
Definition DisconnectClient (ck : nat) (from : list Z) (c : config) : outcome config := DisconnectClientUnlocked ck from c.

(** [ck] is the address of the new clerk, [r] the random draws of [random_handles];
    the result is the clerk with its servers in the order it calls them. *)
Definition makeClient (draw : Z → string) (r : Z → Z) (ck : nat) (to : list Z) (c : config) :
    outcome (ShardCtrler.Clerk (Server := string) * config) :=
  let names := draw <$> seqZ 0 (Z.of_nat (n c)) in
  nt ← make_ends names (net c);
  hs ← random_handles r names;
  let c := set_clerks (<[ck := names]> (clerks c)) (nextClientId c + 1) (set_net nt c) in
  c ← ConnectClientUnlocked ck to c;
  Ret (ShardCtrler.MakeClerk hs, c).

(** The names are no files, so [os.Remove] finds nothing. *)
Definition deleteClient (ck : nat) (c : config) : config := set_clerks (delete ck (clerks c)) (nextClientId c) c.

(** ** Stopping and starting servers *)

Definition kill_at (a : nat) (m : memory) : memory := mkMemory (alter ShardCtrler.Kill a (ctrler_at m)) (server_at m) (next_addr m).

Definition ShutdownServer (i : Z) (c : config) : outcome config :=
  c ← disconnectUnlocked i (All c) c;
  let c := set_net (DeleteServer (inr i) (net c)) c in
  s ← slice_get (saved c) i;
  sv ← slice_set (saved c) i (Copy <$> s);
  let c := set_saved sv c in
  kv ← slice_get (cservers c) i;
  match kv with
  | Some a => ks ← slice_set (cservers c) i None; Ret (set_cservers ks (kill_at a (mem c)) c)
  | None => Ret c
  end.

Definition new_server (sc : ShardCtrler.ShardCtrler) (m : memory) : nat * memory :=
  let a := next_addr m in
  (a, mkMemory (<[a := sc]> (ctrler_at m))
        (<[a := AddService (MakeService "Raft" a raft_methods) (AddService (MakeService "ShardCtrler" a ctrler_methods) MakeServer)]> (server_at m)) (S a)).

Definition StartServer (draw : Z → string) (i : Z) (c : config) : outcome config :=
  let names := draw <$> seqZ 0 (Z.of_nat (n c)) in
  en ← slice_set (endnames c) i (Some names);
  let c := set_endnames en c in
  nt ← make_ends names (net c);
  let c := set_net nt c in
  s ← slice_get (saved c) i;
  let ps := match s with Some ps => Copy ps | None => MakePersister end in
  sv ← slice_set (saved c) i (Some ps);
  let c := set_saved sv c in
  let '(a, m) := new_server (ShardCtrler.StartServer (n c) i ps) (mem c) in
  ks ← slice_set (cservers c) i (Some a);
  let c := set_cservers ks m c in
  Ret (set_net (AddServer (inr i) a (net c)) c).

(** ** Leaders *)

(** A server that does not run is skipped. *)
Definition is_leader (c : config) (i : Z) : outcome bool :=
  kv ← slice_get (cservers c) i;
  match kv with
  | Some a => match ctrler_at (mem c) !! a with Some sc => Ret (GetState (ShardCtrler.rf sc)).2 | None => Panic end
  | None => Ret false
  end.

Definition Leader (c : config) : outcome (bool * Z) :=
  o ← for_find (n c) 0 (λ i, b ← is_leader c i; Ret (if b : bool then Some i else None));
  Ret (match o with Some i => (true, i) | None => (false, 0) end).

Definition make_partition (c : config) : outcome (list Z * list Z) := '(_, l) ← Leader c; split_around (n c) l.

(** ** Setting up and the end *)

Definition empty_config (k : nat) (now : Z) : config :=
  mkConfig false MakeNetwork k (replicate k None) (replicate k None) (replicate k None) ∅ (Z.of_nat k + 1000) now (mkMemory ∅ ∅ 0).

Definition make_config (k : nat) (unreliable : bool) (now : Z) (draw : Z → Z → string) : outcome config :=
  let c := empty_config k now in
  c ← for_range (n c) 0 (λ i c, StartServer (draw i) i c) c;
  c ← ConnectAll c;
  Ret (set_net (Reliable (negb unreliable) (net c)) c).

Definition checkTimeout (now : Z) (c : config) : outcome unit := if negb (failed c) && (120 * 10 ^ 9 <? now - start c) then Exit else Ret tt.

Definition cleanup (now : Z) (c : config) : outcome config :=
  c ← for_range (length (cservers c)) 0 (λ i c,
        kv ← slice_get (cservers c) i;
        match kv with Some a => Ret (set_cservers (cservers c) (kill_at a (mem c)) c) | None => Ret c end) c;
  nt ← Cleanup (net c);
  let c := set_net nt c in
  _ ← checkTimeout now c; Ret c.

(** A nil persister panics. *)
Definition LogSize (c : config) : outcome Z :=
  for_range (n c) 0 (λ i m,
    s ← slice_get (saved c) i;
    match s with None => Panic | Some ps => let k := RaftStateSize ps in Ret (if k >? m then k else m) end) 0.

(** ** The promised network *)

(** A link: from server [i] to server [j], or from clerk [ck] to server [j]. *)
Notation key := ((nat * nat) + (nat * nat))%type.
Definition Srv (i j : nat) : key := inl (i, j).
Definition Cli (ck j : nat) : key := inr (ck, j).
Definition target (k : key) : nat := match k with inl (_, j) | inr (_, j) => j end.
Definition owner (k : key) : nat + nat := match k with inl (i, _) => inl i | inr (ck, _) => inr ck end.

(** [sp_names] are the names that were drawn so far. *)
Record net_spec := mkSpec { sp_n : nat; sp_up : gset nat; sp_clients : gset nat; sp_links : gset key; sp_names : gset string }.

Definition set_links (ls : gset key) (s : net_spec) : net_spec := mkSpec (sp_n s) (sp_up s) (sp_clients s) ls (sp_names s).

Definition draws (draw : Z → string) (k : nat) : list string := draw <$> seqZ 0 (Z.of_nat k).

(** All links from [xs] to [ys]. *)
Definition pairs (xs ys : list nat) : list key := x ← xs; y ← ys; [Srv x y].
Definition around (i : nat) (l : list nat) : gset key := list_to_set (pairs [i] l ++ pairs l [i]).
Definition closed (o : nat + nat) (ls : gset key) : gset key := filter (λ k, owner k ≠ o) ls.

(** What a test does. *)
Inductive op :=
| OConnect (i : nat) (to : list nat)
| ODisconnect (i : nat) (from : list nat)
| OConnectAll
| OPartition (p1 p2 : list nat)
| OMakeClient (draw : Z → string) (r : Z → Z) (ck : nat) (to : list nat)
| ODeleteClient (ck : nat)
| OConnectClient (ck : nat) (to : list nat)
| ODisconnectClient (ck : nat) (from : list nat)
| OShutdown (i : nat)
| OStart (draw : Z → string) (i : nat).

Definition spec_op (o : op) (s : net_spec) : net_spec :=
  let ls := sp_links s in
  match o with
  | OConnect i to => set_links (around i to ∪ ls) s
  | ODisconnect i from => set_links (ls ∖ around i from) s
  | OConnectAll => set_links (list_to_set (pairs (seq 0 (sp_n s)) (seq 0 (sp_n s))) ∪ ls) s
  | OPartition p1 p2 => set_links (list_to_set (pairs p1 p1 ++ pairs p2 p2) ∪ ls ∖ list_to_set (pairs p1 p2 ++ pairs p2 p1)) s
  | OMakeClient draw _ ck to =>
      mkSpec (sp_n s) (sp_up s) ({[ck]} ∪ sp_clients s) (list_to_set (Cli ck <$> to) ∪ closed (inr ck) ls) (list_to_set (draws draw (sp_n s)) ∪ sp_names s)
  | ODeleteClient ck => mkSpec (sp_n s) (sp_up s) (sp_clients s ∖ {[ck]}) (closed (inr ck) ls) (sp_names s)
  | OConnectClient ck to => set_links (list_to_set (Cli ck <$> to) ∪ ls) s
  | ODisconnectClient ck from => set_links (ls ∖ list_to_set (Cli ck <$> from)) s
  | OShutdown i => mkSpec (sp_n s) (sp_up s ∖ {[i]}) (sp_clients s) (ls ∖ around i (seq 0 (sp_n s))) (sp_names s)
  | OStart draw i => mkSpec (sp_n s) ({[i]} ∪ sp_up s) (sp_clients s) (closed (inl i) ls) (list_to_set (draws draw (sp_n s)) ∪ sp_names s)
  end.

Definition below (s : net_spec) (l : list nat) : Prop := Forall (λ i, (i < sp_n s)%nat) l.

(** Names that were not drawn before. *)
Definition fresh (draw : Z → string) (s : net_spec) : Prop := NoDup (draws draw (sp_n s)) ∧ ∀ e, e ∈ draws draw (sp_n s) → e ∉ sp_names s.

(** The calls the tests may make: servers that exist, clerks that are in use, sides
    of a partition apart, random names that do not repeat. *)
Definition allowed (o : op) (s : net_spec) : Prop :=
  match o with
  | OConnect i to => below s (i :: to)
  | ODisconnect i from => below s (i :: from) ∧ (length from ≤ sp_n s)%nat
  | OConnectAll => True
  | OPartition p1 p2 => below s (p1 ++ p2) ∧ (length p1 ≤ sp_n s)%nat ∧ (length p2 ≤ sp_n s)%nat ∧ p1 ## p2
  | OMakeClient draw r ck to => below s to ∧ ck ∉ sp_clients s ∧ (∀ i, 0 ≤ i < Z.of_nat (sp_n s) → 0 ≤ r i ≤ i) ∧ fresh draw s
  | ODeleteClient ck => ck ∈ sp_clients s
  | OConnectClient ck to | ODisconnectClient ck to => below s to ∧ ck ∈ sp_clients s
  | OShutdown i => (i < sp_n s)%nat
  | OStart draw i => (i < sp_n s)%nat ∧ fresh draw s
  end.

Definition run_op (o : op) (c : config) : outcome config :=
  let zs (l : list nat) := Z.of_nat <$> l in
  match o with
  | OConnect i to => connect (Z.of_nat i) (zs to) c
  | ODisconnect i from => disconnect (Z.of_nat i) (zs from) c
  | OConnectAll => ConnectAll c
  | OPartition p1 p2 => partition (zs p1) (zs p2) c
  | OMakeClient draw r ck to => '(_, c) ← makeClient draw r ck (zs to) c; Ret c
  | ODeleteClient ck => Ret (deleteClient ck c)
  | OConnectClient ck to => ConnectClient ck (zs to) c
  | ODisconnectClient ck from => DisconnectClient ck (zs from) c
  | OShutdown i => ShutdownServer (Z.of_nat i) c
  | OStart draw i => StartServer draw (Z.of_nat i) c
  end.

Fixpoint allowed_all (os : list op) (s : net_spec) : Prop :=
  match os with [] => True | o :: os => allowed o s ∧ allowed_all os (spec_op o s) end.
Definition spec_ops (os : list op) (s : net_spec) : net_spec := foldl (λ s o, spec_op o s) s os.

(** What [make_config] does: it starts the servers and connects them all. *)
Definition empty_spec (k : nat) : net_spec := mkSpec k ∅ ∅ ∅ ∅.
Definition starts (draw : Z → Z → string) (i k : nat) : list op := (λ x, OStart (draw (Z.of_nat x)) x) <$> seq i k.
Definition setup (draw : Z → Z → string) (k : nat) : list op := starts draw 0 k ++ [OConnectAll].

(** ** The configuration against the promise *)

Definition end_of (c : config) (k : key) : option string :=
  match k with
  | inl (i, j) => row ← mjoin (endnames c !! i); row !! j
  | inr (ck, j) => row ← clerks c !! ck; row !! j
  end.
(** The address of the running instance of server [i]. *)
Definition addr (c : config) (i : nat) : option nat := mjoin (cservers c !! i).
Definition started (c : config) (i : nat) : Prop := is_Some (mjoin (endnames c !! i)).

Record sim (c : config) (s : net_spec) : Prop := {
  sm_n : n c = sp_n s;
  sm_servers : length (cservers c) = n c;
  sm_saved : length (saved c) = n c;
  sm_endnames : length (endnames c) = n c;
  sm_rows : ∀ i row, endnames c !! i = Some (Some row) → length row = n c;
  sm_clerks : ∀ ck row, clerks c !! ck = Some row → length row = n c;
  sm_dom : ∀ ck, ck ∈ sp_clients s ↔ is_Some (clerks c !! ck);
  sm_inj : ∀ k k' e, end_of c k = Some e → end_of c k' = Some e → k = k';
  sm_ends : ∀ k e, end_of c k = Some e → inl e ∈ ends (net c) ∧
    connections (net c) !! inl e = Some (Some (inr (Z.of_nat (target k)))) ∧ enabled (net c) !! inl e = Some (bool_decide (k ∈ sp_links s));
  sm_up : ∀ i, started c i → servers (net c) !! inr (Z.of_nat i) = Some (addr c i) ∧ (i ∈ sp_up s ↔ is_Some (addr c i));
  sm_store : ∀ i, started c i → ∃ ps, saved c !! i = Some (Some ps);
  sm_mem : ∀ i a, addr c i = Some a → is_Some (ctrler_at (mem c) !! a);
  sm_names : ∀ e, inl e ∈ ends (net c) → e ∈ sp_names s
}.

Definition full (c : config) : Prop := ∀ i, (i < n c)%nat → started c i.

Lemma end_of_server c s i j : sim c s → started c i → (j < n c)%nat → ∃ e row, end_of c (Srv i j) = Some e ∧ endnames c !! i = Some (Some row) ∧ row !! j = Some e.
Proof.
  intros Hs [row Hrow] Hj. destruct (endnames c !! i) as [[r|]|] eqn:E; simplify_eq/=.
  destruct (lookup_lt_is_Some_2 row j) as [e He]; [by rewrite (sm_rows c s Hs i row E)|]. exists e, row. by rewrite E.
Qed.

Lemma end_of_client c s ck j : sim c s → ck ∈ sp_clients s → (j < n c)%nat → ∃ e row, end_of c (Cli ck j) = Some e ∧ clerks c !! ck = Some row ∧ row !! j = Some e.
Proof.
  intros Hs [row Hrow]%(sm_dom c s Hs) Hj. destruct (lookup_lt_is_Some_2 row j) as [e He]; [by rewrite (sm_clerks c s Hs ck row Hrow)|].
  exists e, row. simpl. by rewrite Hrow.
Qed.

(** ** Switching links *)

Definition toggle (ls : gset key) (w : key * bool) : gset key := if w.2 then {[w.1]} ∪ ls else ls ∖ {[w.1]}.
Definition toggles (ws : list (key * bool)) (ls : gset key) : gset key := foldl toggle ls ws.

Lemma toggles_none ws ls k : (∀ b, (k, b) ∉ ws) → k ∈ toggles ws ls ↔ k ∈ ls.
Proof.
  revert ls. induction ws as [|[k' b] ws IH]; intros ls Hn; [done|]. cbn [toggles foldl]. fold (toggles ws (toggle ls (k', b))).
  rewrite IH by (intros b' Hb'; apply (Hn b'); by right). assert (k ≠ k') by (intros ->; apply (Hn b); by left).
  unfold toggle. destruct b; simpl; set_solver.
Qed.

Lemma toggles_all ws ls k b : (∀ b', (k, b') ∈ ws → b' = b) → (k, b) ∈ ws → k ∈ toggles ws ls ↔ b = true.
Proof.
  revert ls. induction ws as [|[k' b'] ws IH]; intros ls Hall Hin; [by apply elem_of_nil in Hin|].
  cbn [toggles foldl]. fold (toggles ws (toggle ls (k', b'))).
  destruct (decide ((k, b) ∈ ws)) as [Hw|Hw]; [apply IH; [|done]; intros b0 Hb0; apply Hall; by right|].
  apply elem_of_cons in Hin as [[= <- <-]|Hin]; [|done]. rewrite toggles_none; [unfold toggle; destruct b; simpl; set_solver|].
  intros b0 Hb0. apply Hw. rewrite <-(Hall b0); [done|]. by right.
Qed.

(** What a list of switches to [b], and then one to the opposite for other links,
    leaves. *)
Lemma toggles_const (ks : list key) (b : bool) (ls : gset key) : toggles ((λ k : key, (k, b)) <$> ks) ls = if b then list_to_set ks ∪ ls else ls ∖ list_to_set ks.
Proof.
  apply set_eq. intros k. destruct (decide (k ∈ ks)) as [Hk|Hk].
  - rewrite (toggles_all _ _ k b).
    + destruct b; set_solver.
    + intros b' (k' & [= -> ->] & _)%list_elem_of_fmap. done.
    + apply list_elem_of_fmap. by exists k.
  - rewrite toggles_none; [destruct b; set_solver|]. intros b' (k' & [= -> ->] & Hk')%list_elem_of_fmap. done.
Qed.

(** [f] changes only the network of [c], by the given switches. *)
Definition switches_links (c : config) (f : config → outcome config) (ws : list (key * bool)) : Prop :=
  ∀ nt s, sim (set_net nt c) s → ∃ nt', f (set_net nt c) = Ret (set_net nt' c) ∧ sim (set_net nt' c) (set_links (toggles ws (sp_links s)) s).

Lemma switches_one c f k e b : end_of c k = Some e → (∀ nt, f (set_net nt c) = Ret (set_net (Enable (inl e) b nt) c)) → switches_links c f [(k, b)].
Proof.
  intros He Hf nt s Hs. rewrite Hf. eexists. split; [done|]. destruct Hs as [S1 S2 S3 S4 S5 S6 S7 S8 S9 S10 S11 S12 S13].
  split; try done. intros k' e' He'. change (end_of c k' = Some e') in He'. destruct (S9 k' e' He') as (Hin & Hc & Hen). split; [done|]. split; [done|]. simpl in *.
  destruct (decide (e' = e)) as [->|Hne].
  - rewrite lookup_insert_eq. assert (k' = k) as -> by by eapply S8. f_equal. unfold toggle. destruct b; simpl; symmetry.
    + apply bool_decide_eq_true. set_solver.
    + apply bool_decide_eq_false. set_solver.
  - rewrite lookup_insert_ne by congruence. rewrite Hen. f_equal. apply bool_decide_ext.
    assert (k' ≠ k) by congruence. unfold toggle. destruct b; simpl; set_solver.
Qed.

Lemma switches_nil c f : (∀ nt, f (set_net nt c) = Ret (set_net nt c)) → switches_links c f [].
Proof. intros Hf nt s Hs. rewrite Hf. exists nt. split; [done|]. by destruct s. Qed.

Lemma switches_seq c f g ws1 ws2 : switches_links c f ws1 → switches_links c g ws2 → switches_links c (λ c, c ← f c; g c) (ws1 ++ ws2).
Proof.
  intros Hf Hg nt s Hs. destruct (Hf nt s Hs) as (nt1 & -> & Hs1). cbn [mbind outcome_bind]. destruct (Hg nt1 _ Hs1) as (nt2 & -> & Hs2).
  exists nt2. split; [done|]. unfold toggles in *. by rewrite foldl_app.
Qed.

Lemma switches_each {A} c (body : A → config → outcome config) (w : A → list (key * bool)) l :
  (∀ x, x ∈ l → switches_links c (body x) (w x)) → switches_links c (for_each l body) (l ≫= w).
Proof.
  induction l as [|x l IH]; intros Hb; [by apply switches_nil|]. apply (switches_seq c (body x) (for_each l body)); [apply Hb; by left|].
  apply IH. intros y Hy. apply Hb. by right.
Qed.

Lemma switches_range c (body : Z → config → outcome config) (w : nat → list (key * bool)) k i :
  (∀ x, (i ≤ x < i + k)%nat → switches_links c (body (Z.of_nat x)) (w x)) → switches_links c (for_range k (Z.of_nat i) body) (seq i k ≫= w).
Proof.
  revert i. induction k as [|k IH]; intros i Hb; [by apply switches_nil|].
  apply (switches_seq c (body (Z.of_nat i)) (for_range k (Z.of_nat i + 1) body)); [apply Hb; lia|].
  replace (Z.of_nat i + 1) with (Z.of_nat (S i)) by lia. apply IH. intros x Hx. apply Hb. lia.
Qed.

(** ** The operations on links *)

Definition all_to (b : bool) (ks : list key) : list (key * bool) := (λ k, (k, b)) <$> ks.
Definition around_list (i : nat) (l : list nat) : list key := pairs [i] l ++ pairs l [i].

Lemma elem_of_pairs xs ys k : k ∈ pairs xs ys ↔ ∃ x y, k = Srv x y ∧ x ∈ xs ∧ y ∈ ys.
Proof. unfold pairs. set_unfold. naive_solver. Qed.

Lemma elem_of_all_to b ks k v : (k, v) ∈ all_to b ks ↔ v = b ∧ k ∈ ks.
Proof. unfold all_to. rewrite list_elem_of_fmap. naive_solver. Qed.

Lemma bind_from i l b : (l ≫= λ x, [(Srv i x, b)]) = all_to b (pairs [i] l).
Proof. unfold all_to, pairs. induction l as [|x l IH]; [done|]. simpl in *. by f_equal. Qed.

Lemma bind_to i l b : (l ≫= λ x, [(Srv x i, b)]) = all_to b (pairs l [i]).
Proof. unfold all_to, pairs. induction l as [|x l IH]; [done|]. simpl in *. by f_equal. Qed.

Lemma for_each_fmap {A B St} (f : A → B) (l : list A) (body : B → St → outcome St) s : for_each (f <$> l) body s = for_each l (λ x, body (f x)) s.
Proof. revert s. induction l as [|x l IH]; intros s; [done|]. simpl. destruct (body (f x) s); simpl; [apply IH|done..]. Qed.

Lemma switches_fmap {A B} c (f : A → B) body (l : list A) ws :
  switches_links c (for_each l (λ x, body (f x))) ws → switches_links c (for_each (f <$> l) body) ws.
Proof. intros H nt s Hs. rewrite for_each_fmap. by apply H. Qed.

Section Links.
Context (c : config) (s0 : net_spec) (Hsim : sim c s0) (Hfull : full c).

Lemma row_started i : (i < n c)%nat → ∃ row, slice_get (endnames c) (Z.of_nat i) = Ret (Some row).
Proof. intros Hi. destruct (Hfull i Hi) as [row Hrow]. exists row. rewrite slice_get_nat. by destruct (endnames c !! i) as [[r|]|]; simplify_eq/=. Qed.

Lemma switches_end i j b : (i < n c)%nat → (j < n c)%nat → switches_links c (enable_end (Z.of_nat i) (Z.of_nat j) b) [(Srv i j, b)].
Proof.
  intros Hi Hj. destruct (end_of_server c s0 i j Hsim (Hfull i Hi) Hj) as (e & row & He & Hrow & Hre). apply (switches_one _ _ _ e); [done|].
  intros nt. unfold enable_end. cbn [endnames set_net net]. rewrite (slice_get_nat (endnames c)), Hrow. cbn [mbind outcome_bind].
  change (default [] (Some row)) with row. by rewrite slice_get_nat, Hre.
Qed.

Lemma switches_connect i to : (i < n c)%nat → Forall (λ x, (x < n c)%nat) to →
  switches_links c (connectUnlocked (Z.of_nat i) (Z.of_nat <$> to)) (all_to true (around_list i to)).
Proof.
  intros Hi Hto. rewrite Forall_forall in Hto. unfold around_list, all_to. rewrite fmap_app. fold (all_to true (pairs [i] to)) (all_to true (pairs to [i])).
  rewrite <-bind_from, <-bind_to. unfold connectUnlocked.
  apply switches_seq; apply switches_fmap, switches_each; intros x Hx; apply switches_end; auto.
Qed.

(** The row the second loop tests is the one of the loop index. *)
Lemma switches_indexed i j0 from : (i < n c)%nat → (j0 + length from ≤ n c)%nat → (∀ x, x ∈ from → (x < n c)%nat) →
  switches_links c (for_each (imap (λ j x, (Z.of_nat (j0 + j), x)) (Z.of_nat <$> from)) (λ '(j, x) c,
    row ← slice_get (endnames c) j; if row : option _ then enable_end x (Z.of_nat i) false c else Ret c)) (from ≫= λ x, [(Srv x i, false)]).
Proof.
  revert j0. induction from as [|x from IH]; intros j0 Hi Hlen Hfr; [by apply switches_nil|]. cbn [length] in Hlen.
  cbn [fmap list_fmap]. rewrite imap_cons.
  assert (Hb : switches_links c (λ c, row ← slice_get (endnames c) (Z.of_nat (j0 + 0)); if row : option _ then enable_end (Z.of_nat x) (Z.of_nat i) false c else Ret c) [(Srv x i, false)]).
  { destruct (row_started (j0 + 0)) as [row Hrow]; [lia|]. pose proof (switches_end x i false (Hfr x ltac:(by left)) Hi) as He.
    intros nt s Hs. cbn [endnames set_net]. rewrite Hrow. by apply He. }
  apply (switches_seq c _ _ _ _ Hb).
  rewrite (imap_ext _ (λ j x, (Z.of_nat (S j0 + j), x))) by (intros; simpl; repeat f_equal; lia).
  apply IH; [done|lia|]. intros y Hy. apply Hfr. by right.
Qed.

Lemma switches_disconnect i from : (i < n c)%nat → Forall (λ x, (x < n c)%nat) from → (length from ≤ n c)%nat →
  switches_links c (disconnectUnlocked (Z.of_nat i) (Z.of_nat <$> from)) (all_to false (around_list i from)).
Proof.
  intros Hi Hfr Hlen. rewrite Forall_forall in Hfr. unfold around_list, all_to. rewrite fmap_app. fold (all_to false (pairs [i] from)) (all_to false (pairs from [i])).
  rewrite <-bind_from, <-bind_to. unfold disconnectUnlocked. apply switches_seq; [|by apply (switches_indexed i 0)].
  apply switches_fmap, switches_each. intros x Hx. destruct (row_started i Hi) as [row Hrow].
  pose proof (switches_end i x false Hi (Hfr x Hx)) as He. intros nt s Hs. cbn [endnames set_net]. rewrite Hrow. by apply He.
Qed.

Lemma switches_client ck x b : is_Some (clerks c !! ck) → (x < n c)%nat → switches_links c (switch_client ck b (Z.of_nat x)) [(Cli ck x, b)].
Proof.
  intros Hck%(sm_dom c s0 Hsim) Hx. destruct (end_of_client c s0 ck x Hsim Hck Hx) as (e & row & He & Hrow & Hre). apply (switches_one _ _ _ e); [done|].
  intros nt. unfold switch_client. cbn [clerks set_net net]. rewrite Hrow. change (default [] (Some row)) with row. by rewrite slice_get_nat, Hre.
Qed.

Lemma switches_clients ck l b : is_Some (clerks c !! ck) → Forall (λ x, (x < n c)%nat) l →
  switches_links c (for_each (Z.of_nat <$> l) (switch_client ck b)) (all_to b (Cli ck <$> l)).
Proof.
  intros Hck Hl. rewrite Forall_forall in Hl. replace (all_to b (Cli ck <$> l)) with (l ≫= λ x, [(Cli ck x, b)]).
  - apply switches_fmap, switches_each. intros x Hx. by apply switches_client; [|apply Hl].
  - unfold all_to. clear. induction l as [|x l IH]; [done|]. simpl in *. by f_equal.
Qed.

Lemma seq_below : Forall (λ x, (x < n c)%nat) (seq 0 (n c)).
Proof. apply Forall_seq. lia. Qed.

Lemma switches_ConnectAll : switches_links c ConnectAll (seq 0 (n c) ≫= λ i, all_to true (around_list i (seq 0 (n c)))).
Proof.
  apply (switches_range c (λ i c0, connectUnlocked i (All c0) c0) _ (n c) 0). intros x Hx nt s Hs.
  exact (switches_connect x (seq 0 (n c)) ltac:(lia) seq_below nt s Hs).
Qed.

Lemma switches_side p1 p2 : Forall (λ x, (x < n c)%nat) p1 → Forall (λ x, (x < n c)%nat) p2 → (length p2 ≤ n c)%nat →
  switches_links c (for_each (Z.of_nat <$> p1) (λ i c, c ← disconnectUnlocked i (Z.of_nat <$> p2) c; connectUnlocked i (Z.of_nat <$> p1) c))
    (p1 ≫= λ i, (all_to false (around_list i p2) ++ all_to true (around_list i p1))%list).
Proof.
  intros H1 H2 Hlen. apply switches_fmap, switches_each. intros x Hx. rewrite Forall_forall in H1.
  apply switches_seq; [apply switches_disconnect|apply switches_connect]; auto; by apply Forall_forall.
Qed.

End Links.

Definition partition_toggles (p1 p2 : list nat) : list (key * bool) :=
  (p1 ≫= λ i, (all_to false (around_list i p2) ++ all_to true (around_list i p1))%list) ++
  (p2 ≫= λ i, (all_to false (around_list i p1) ++ all_to true (around_list i p2))%list).

Lemma elem_of_around i l k : k ∈ around_list i l ↔ ∃ x, x ∈ l ∧ (k = Srv i x ∨ k = Srv x i).
Proof. unfold around_list. rewrite elem_of_app, !elem_of_pairs. set_solver. Qed.

Lemma elem_of_partition_toggles p1 p2 k v :
  (k, v) ∈ partition_toggles p1 p2 ↔ v = true ∧ k ∈ (pairs p1 p1 ++ pairs p2 p2)%list ∨ v = false ∧ k ∈ (pairs p1 p2 ++ pairs p2 p1)%list.
Proof.
  unfold partition_toggles. rewrite elem_of_app, !list_elem_of_bind, !elem_of_app, !elem_of_pairs. split.
  - intros [(i & Hk & Hi)|(i & Hk & Hi)]; apply elem_of_app in Hk as [[-> Hk]%elem_of_all_to|[-> Hk]%elem_of_all_to];
      apply elem_of_around in Hk as (x & Hx & [-> | ->]); naive_solver.
  - intros [[-> [(x & y & -> & Hx & Hy)|(x & y & -> & Hx & Hy)]]|[-> [(x & y & -> & Hx & Hy)|(x & y & -> & Hx & Hy)]]]; [left|right|left|right];
      (exists x; split; [|done]; rewrite elem_of_app, !elem_of_all_to, !elem_of_around); [right|right|left|left]; (split; [done|]); exists y; auto.
Qed.

Lemma partition_links p1 p2 ls : p1 ## p2 → toggles (partition_toggles p1 p2) ls =
  list_to_set (pairs p1 p1 ++ pairs p2 p2) ∪ ls ∖ list_to_set (pairs p1 p2 ++ pairs p2 p1).
Proof.
  intros Hd. pose proof (λ k v, elem_of_partition_toggles p1 p2 k v) as Hw. set (same := (pairs p1 p1 ++ pairs p2 p2)%list) in *. set (across := (pairs p1 p2 ++ pairs p2 p1)%list) in *.
  assert (Hapart : ∀ k, k ∈ same → k ∈ across → False).
  { intros k. unfold same, across. rewrite !elem_of_app, !elem_of_pairs. unfold Srv. set_solver. }
  apply set_eq. intros k. rewrite elem_of_union, elem_of_difference, !elem_of_list_to_set.
  destruct (decide (k ∈ same)) as [Hs|Hs]; [|destruct (decide (k ∈ across)) as [Ha|Ha]].
  - rewrite (toggles_all _ _ k true); [tauto| |apply Hw; auto]. intros b [[-> _]|[-> Ha]]%Hw; [done|]. by destruct (Hapart k).
  - rewrite (toggles_all _ _ k false); [naive_solver| |apply Hw; auto]. intros b [[-> ?]|[-> _]]%Hw; done.
  - rewrite toggles_none; [tauto|]. intros b [[_ ?]|[_ ?]]%Hw; done.
Qed.

Lemma all_links k ls : toggles (seq 0 k ≫= λ i, all_to true (around_list i (seq 0 k))) ls = list_to_set (pairs (seq 0 k) (seq 0 k)) ∪ ls.
Proof.
  rewrite <-(toggles_const (pairs (seq 0 k) (seq 0 k)) true). fold (all_to true (pairs (seq 0 k) (seq 0 k))).
  assert (Hin : ∀ q b, (q, b) ∈ (seq 0 k ≫= λ i, all_to true (around_list i (seq 0 k))) ↔ (q, b) ∈ all_to true (pairs (seq 0 k) (seq 0 k))).
  { intros q b. rewrite list_elem_of_bind, elem_of_all_to, elem_of_pairs. setoid_rewrite elem_of_all_to. setoid_rewrite elem_of_around. naive_solver. }
  apply set_eq. intros q. destruct (decide ((q, true) ∈ all_to true (pairs (seq 0 k) (seq 0 k)))) as [Hq|Hq].
  - rewrite !(toggles_all _ _ q true); try done; [..|by apply Hin]; intros b; [|rewrite Hin]; by intros [-> _]%elem_of_all_to.
  - rewrite !toggles_none; [done|..]; intros b; [|rewrite Hin]; intros [-> Hb]%elem_of_all_to; apply Hq; by apply elem_of_all_to.
Qed.

Lemma set_net_eta c : set_net (net c) c = c.
Proof. by destruct c. Qed.

(** An operation that only switches links. *)
Lemma switched c f ws s ls : sim c s → full c → switches_links c f ws → toggles ws (sp_links s) = ls →
  ∃ c', f c = Ret c' ∧ sim c' (set_links ls s) ∧ full c'.
Proof.
  intros Hs Hf Hw <-. destruct (Hw (net c) s) as (nt & Hr & Hs'); [by rewrite set_net_eta|]. rewrite set_net_eta in Hr.
  by exists (set_net nt c).
Qed.

(** ** Fresh ends *)

(** [c'] has new ends, in place of those [c] has for the owner [o]. *)
Lemma fresh_ends c c' s names nt o : sim c s → length names = n c → ends_made names (net c) (length names) nt →
  ends (net c') = ends nt → connections (net c') = connections nt → enabled (net c') = enabled nt →
  (∀ k, end_of c' k = if decide (owner k = o) then names !! target k else end_of c k) →
  (∀ k k' e, end_of c' k = Some e → end_of c' k' = Some e → k = k') ∧
  (∀ k e, end_of c' k = Some e → inl e ∈ ends (net c') ∧ connections (net c') !! inl e = Some (Some (inr (Z.of_nat (target k)))) ∧
     enabled (net c') !! inl e = Some (bool_decide (k ∈ closed o (sp_links s)))).
Proof.
  intros Hs Hlen [_ Hnew Hinj Hold _] -> -> -> He. split.
  - assert (Hx : ∀ k k' e, owner k = o → owner k' ≠ o → names !! target k = Some e → end_of c k' = Some e → False).
    { intros k k' e _ _ Hk Hk'. destruct (Hnew (target k) e) as (Hn & _); [by eapply lookup_lt_Some|done|].
      by destruct (sm_ends c s Hs k' e Hk') as (? & _). }
    intros k k' e. rewrite !He. intros Hk Hk'. repeat case_decide; [|by destruct (Hx k' k e)|by destruct (Hx k k' e)|by eapply (sm_inj c s Hs)].
    assert (Ht : target k = target k') by (eapply Hinj; [by eapply lookup_lt_Some|by eapply lookup_lt_Some|done|done]).
    destruct k as [[]|[]], k' as [[]|[]]; simpl in *; congruence.
  - intros k e. rewrite He. unfold closed. case_decide as Ho; intros Hk.
    + destruct (Hnew (target k) e) as (_ & ? & ? & ->); [by eapply lookup_lt_Some|done|]. split; [done|]. split; [done|].
      f_equal. symmetry. apply bool_decide_eq_false. rewrite elem_of_filter. tauto.
    + destruct (sm_ends c s Hs k e Hk) as (Hin & Hc & Hen). destruct (Hold _ Hin) as (? & -> & ->). split; [done|]. split; [done|].
      rewrite Hen. f_equal. apply bool_decide_ext. rewrite elem_of_filter. tauto.
Qed.

Lemma names_length (draw : Z → string) k : length (draws draw k) = k.
Proof. unfold draws. rewrite length_fmap, length_seqZ. lia. Qed.

Lemma make_ends_fresh names nt0 : NoDup names → (∀ e, e ∈ names → inl e ∉ ends nt0) →
  ∃ nt, make_ends names nt0 = Ret nt ∧ ends_made names nt0 (length names) nt ∧ ∀ e, inl e ∈ ends nt → e ∈ names ∨ inl e ∈ ends nt0.
Proof.
  intros Hnd Hfr. unfold make_ends. set (body := λ (j : Z) nt, _).
  destruct (for_range_inv (λ j nt, ends_made names nt0 j nt ∧ ∀ e, inl e ∈ ends nt → (∃ i, (i < j)%nat ∧ names !! i = Some e) ∨ inl e ∈ ends nt0)
    body (length names) 0 nt0) as (nt & Hnt & Hem & Hin); [split; [apply ends_made_0|by right]| |].
  - intros j nt Hj [Hem Hin]. destruct (lookup_lt_is_Some_2 names j) as [e He]; [lia|].
    assert (Hne : inl e ∉ ends nt).
    { intros [(i & Hi & Hie)|Hold]%Hin; [|by apply (Hfr e); [by eapply list_elem_of_lookup_2|]].
      assert (i = j) by by eapply NoDup_lookup. lia. }
    destruct (ends_made_S names nt0 j nt e Hem He Hne) as (nt' & Hmk & Hnt'). unfold body. rewrite slice_get_nat, He. cbn [mbind outcome_bind].
    rewrite Hmk. eexists. split; [done|]. split; [done|]. intros x Hx. unfold MakeEnd in Hmk. rewrite bool_decide_false in Hmk by done.
    injection Hmk as <-. simpl in Hx. apply elem_of_union in Hx as [[= ->]%elem_of_singleton|[(i & Hi & Hix)|Hx]%Hin]; [left..|by right].
    + exists j. split; [lia|done].
    + exists i. split; [lia|done].
  - exists nt. split; [done|]. split; [done|]. intros e [(i & _ & Hi)|?]%Hin; [left; by eapply list_elem_of_lookup_2|by right].
Qed.

Lemma StartServer_sim draw c s i : sim c s → (i < n c)%nat → fresh draw s →
  ∃ c', StartServer draw (Z.of_nat i) c = Ret c' ∧ sim c' (spec_op (OStart draw i) s) ∧ n c' = n c ∧ started c' i ∧ ∀ j, started c j → started c' j.
Proof.
  intros Hs Hi [Hnd Hfr]. unfold StartServer. rewrite <-(sm_n c s Hs) in *. fold (draws draw (n c)).
  pose proof (names_length draw (n c)) as Hlen. set (names := draws draw (n c)) in *.
  rewrite slice_set_ok, Nat2Z.id by (unfold go_len; rewrite (sm_endnames c s Hs); lia). cbn [mbind outcome_bind].
  destruct (make_ends_fresh names (net c) Hnd) as (nt & Hnt & Hem & Hnm); [by intros e He Hin; apply (Hfr e He), (sm_names c s Hs)|].
  change (net (set_endnames _ c)) with (net c). rewrite Hnt. cbn [mbind outcome_bind saved set_net set_endnames].
  destruct (lookup_lt_is_Some_2 (saved c) i) as [sv Es]; [by rewrite (sm_saved c s Hs)|]. rewrite slice_get_nat, Es. cbn [mbind outcome_bind].
  rewrite slice_set_ok, Nat2Z.id by (unfold go_len; rewrite (sm_saved c s Hs); lia). cbn [mbind outcome_bind new_server].
  cbn [cservers set_saved set_net set_endnames].
  rewrite slice_set_ok, Nat2Z.id by (unfold go_len; rewrite (sm_servers c s Hs); lia). cbn [mbind outcome_bind]. eexists. split; [reflexivity|].
  set (c' := set_net _ _). assert (Hst : ∀ j, started c' j ↔ j = i ∨ started c j).
  { intros j. unfold started, c'. simpl. destruct (decide (j = i)) as [->|Hne].
    - rewrite list_lookup_insert_eq by (rewrite (sm_endnames c s Hs); lia). simpl. split; [by left|by eexists].
    - rewrite list_lookup_insert_ne by done. naive_solver. }
  assert (Had : ∀ j, addr c' j = if decide (j = i) then Some (next_addr (mem c)) else addr c j).
  { intros j. unfold addr, c'. simpl. case_decide as E; [subst j; by rewrite list_lookup_insert_eq by (rewrite (sm_servers c s Hs); lia)|].
    by rewrite list_lookup_insert_ne. }
  destruct (fresh_ends c c' s names nt (inl i) Hs Hlen Hem eq_refl eq_refl eq_refl) as [Hinj Hends].
  { intros [[a b]|[a b]]; unfold end_of, c'; simpl; [|done]. destruct (decide (a = i)) as [->|Hne].
    - rewrite list_lookup_insert_eq by (rewrite (sm_endnames c s Hs); lia). by rewrite decide_True.
    - rewrite list_lookup_insert_ne by done. by rewrite decide_False by congruence. }
  split; [|split; [done|split; [apply Hst; by left|intros j Hj; apply Hst; by right]]].
  split; try done; try apply Hs.
  - simpl. rewrite length_insert. apply Hs.
  - simpl. rewrite length_insert. apply Hs.
  - simpl. rewrite length_insert. apply Hs.
  - intros j row. simpl. destruct (decide (j = i)) as [->|Hne]; [|rewrite list_lookup_insert_ne by done; apply Hs].
    rewrite list_lookup_insert_eq by (rewrite (sm_endnames c s Hs); lia). by intros [= <-].
  - intros j Hj%Hst. rewrite Had. simpl. rewrite (em_servers _ _ _ _ Hem). destruct (decide (j = i)) as [->|Hne].
    + rewrite lookup_insert_eq. split; [done|]. split; [by eexists|set_solver].
    + rewrite lookup_insert_ne by (intros [= ?]; lia). destruct Hj as [|Hj]; [done|]. destruct (sm_up c s Hs j Hj) as [-> Hup]. split; [done|].
      rewrite <-Hup. set_solver.
  - intros j Hj%Hst. simpl. destruct (decide (j = i)) as [->|Hne].
    + rewrite list_lookup_insert_eq by (rewrite (sm_saved c s Hs); lia). by eexists.
    + rewrite list_lookup_insert_ne by done. destruct Hj as [|Hj]; [done|]. by apply (sm_store c s Hs).
  - intros j a. rewrite Had. simpl. case_decide; [intros [= <-]; rewrite lookup_insert_eq; by eexists|].
    intros Ha. destruct (decide (next_addr (mem c) = a)) as [->|]; [rewrite lookup_insert_eq; by eexists|].
    rewrite lookup_insert_ne by done. by apply (sm_mem c s Hs j).
  - intros e [He|He%(sm_names c s Hs)]%Hnm; simpl; rewrite <-(sm_n c s Hs); set_solver.
Qed.

Lemma makeClient_sim draw r ck to c s : sim c s → full c → below s to → ck ∉ sp_clients s → (∀ i, 0 ≤ i < Z.of_nat (sp_n s) → 0 ≤ r i ≤ i) → fresh draw s →
  ∃ hs c', makeClient draw r ck (Z.of_nat <$> to) c = Ret (ShardCtrler.MakeClerk hs, c') ∧ hs ≡ₚ draws draw (n c) ∧
    sim c' (spec_op (OMakeClient draw r ck to) s) ∧ full c'.
Proof.
  intros Hs Hf Hto Hck Hr [Hnd Hfr]. unfold makeClient. rewrite <-(sm_n c s Hs) in Hnd, Hfr. fold (draws draw (n c)).
  pose proof (names_length draw (n c)) as Hlen. set (names := draws draw (n c)) in *.
  destruct (make_ends_fresh names (net c) Hnd) as (nt & -> & Hem & Hnm); [by intros e He Hin; apply (Hfr e He), (sm_names c s Hs)|]. cbn [mbind outcome_bind].
  destruct (random_handles_perm r names) as (hs & -> & Hperm); [unfold go_len; by rewrite Hlen, (sm_n c s Hs)|]. cbn [mbind outcome_bind].
  set (c1 := set_clerks _ _ _). assert (Hs1 : sim c1 (mkSpec (sp_n s) (sp_up s) ({[ck]} ∪ sp_clients s) (closed (inr ck) (sp_links s)) (list_to_set (draws draw (sp_n s)) ∪ sp_names s))).
  { destruct (fresh_ends c c1 s names nt (inr ck) Hs Hlen Hem eq_refl eq_refl eq_refl) as [Hinj Hends].
    { intros [[a b]|[a b]]; unfold end_of, c1; simpl; [done|]. destruct (decide (a = ck)) as [->|Hne].
      - rewrite lookup_insert_eq. by rewrite decide_True.
      - rewrite lookup_insert_ne by done. by rewrite decide_False by congruence. }
    split; try done; try apply Hs.
    - intros x row. simpl. destruct (decide (ck = x)) as [->|]; [rewrite lookup_insert_eq; by intros [= <-]|].
      rewrite lookup_insert_ne by done. apply Hs.
    - intros x. simpl. destruct (decide (ck = x)) as [->|]; [rewrite lookup_insert_eq; split; [by eexists|set_solver]|].
      rewrite lookup_insert_ne by done. rewrite <-(sm_dom c s Hs). set_solver.
    - intros i Hi. simpl. rewrite (em_servers _ _ _ _ Hem). by apply Hs.
    - intros e [He|He%(sm_names c s Hs)]%Hnm; simpl; rewrite <-(sm_n c s Hs); set_solver. }
  destruct (switched c1 (ConnectClientUnlocked ck (Z.of_nat <$> to)) (all_to true (Cli ck <$> to)) _ (list_to_set (Cli ck <$> to) ∪ closed (inr ck) (sp_links s)) Hs1 Hf) as (c' & -> & Hs' & Hf');
    [|apply (toggles_const _ true)|by exists hs, c'].
  apply (switches_clients c1 _ Hs1); [simpl; rewrite lookup_insert_eq; by eexists|]. unfold below in Hto. by rewrite <-(sm_n c s Hs) in Hto.
Qed.

Lemma deleteClient_sim ck c s : sim c s → sim (deleteClient ck c) (spec_op (ODeleteClient ck) s).
Proof.
  intros Hs. assert (He : ∀ k e, end_of (deleteClient ck c) k = Some e → end_of c k = Some e ∧ owner k ≠ inr ck).
  { intros [[a b]|[a b]] e; simpl; [done|]. destruct (decide (ck = a)) as [->|]; [by rewrite lookup_delete_eq|].
    rewrite lookup_delete_ne by done. intros ?. split; [done|congruence]. }
  split; try done; try apply Hs.
  - intros x row. simpl. intros [_ Hx]%lookup_delete_Some. by apply (sm_clerks c s Hs x).
  - intros x. simpl. destruct (decide (ck = x)) as [->|]; [rewrite lookup_delete_eq; split; [set_solver|by intros []]|].
    rewrite lookup_delete_ne by done. rewrite <-(sm_dom c s Hs). set_solver.
  - intros k k' e [Hk _]%He [Hk' _]%He. by eapply (sm_inj c s Hs).
  - intros k e [Hk Ho]%He. destruct (sm_ends c s Hs k e Hk) as (? & ? & Hen). split; [done|]. split; [done|]. simpl. rewrite Hen. f_equal.
    apply bool_decide_ext. unfold closed. rewrite elem_of_filter. tauto.
Qed.

Lemma ShutdownServer_sim i c s : sim c s → full c → (i < n c)%nat →
  ∃ c', ShutdownServer (Z.of_nat i) c = Ret c' ∧ sim c' (spec_op (OShutdown i) s) ∧ full c'.
Proof.
  intros Hs Hf Hi. unfold ShutdownServer.
  destruct (switched c (λ c, disconnectUnlocked (Z.of_nat i) (All c) c) (all_to false (around_list i (seq 0 (n c)))) s (sp_links s ∖ around i (seq 0 (sp_n s))) Hs Hf)
    as (c1 & -> & Hs1 & Hf1).
  { intros nt s' Hs'. apply (switches_disconnect c s Hs Hf i (seq 0 (n c)) Hi); [apply seq_below|by rewrite length_seq|done]. }
  { rewrite <-(sm_n c s Hs). apply (toggles_const _ false). }
  cbn [mbind outcome_bind]. assert (Hn : n c1 = n c) by (rewrite (sm_n _ _ Hs1), (sm_n _ _ Hs); done). rewrite <-Hn in Hi. clear c Hs Hf Hn.
  destruct (Hf1 i Hi) as [row Hrow]. destruct (sm_store _ _ Hs1 i) as [ps Hps]; [by eexists|].
  cbn [saved set_net cservers set_saved]. rewrite (slice_get_nat (saved c1)), Hps. cbn [mbind outcome_bind].
  rewrite (slice_set_ok (saved c1)), Nat2Z.id by (unfold go_len; rewrite (sm_saved _ _ Hs1); lia). cbn [mbind outcome_bind cservers set_net set_saved].
  destruct (lookup_lt_is_Some_2 (cservers c1) i) as [o Ho]; [by rewrite (sm_servers _ _ Hs1)|]. rewrite (slice_get_nat (cservers c1)), Ho. cbn [mbind outcome_bind].
  assert (Hstep : ∀ m, (∀ a, is_Some (ctrler_at (mem c1) !! a) → is_Some (ctrler_at m !! a)) →
    sim (set_cservers (<[i := None]> (cservers c1)) m (set_saved (<[i := Some (Copy ps)]> (saved c1)) (set_net (DeleteServer (inr (Z.of_nat i)) (net c1)) c1)))
      (spec_op (OShutdown i) s)).
  { intros m Hm. assert (Had : ∀ c', cservers c' = <[i := None]> (cservers c1) → ∀ j, addr c' j = if decide (j = i) then None else addr c1 j).
    { intros c' Hc' j. unfold addr. rewrite Hc'. case_decide as E; [subst j; by rewrite list_lookup_insert_eq by (by eapply lookup_lt_Some)|].
      by rewrite list_lookup_insert_ne. }
    destruct Hs1 as [S1 S2 S3 S4 S5 S6 S7 S8 S9 S10 S11 S12 S13]. split; try done; try (simpl; by rewrite length_insert).
    - intros j Hj. rewrite Had by done. simpl. destruct (decide (j = i)) as [->|Hne].
      + rewrite lookup_insert_eq. split; [done|]. split; [set_solver|by intros []].
      + rewrite lookup_insert_ne by (intros [= ?]; lia). destruct (S10 j Hj) as [-> Hup]. split; [done|]. rewrite <-Hup. set_solver.
    - intros j Hj. simpl. destruct (decide (j = i)) as [->|Hne]; [rewrite list_lookup_insert_eq by (by eapply lookup_lt_Some); by eexists|].
      rewrite list_lookup_insert_ne by done. by apply S11.
    - intros j a. rewrite Had by done. case_decide; [done|]. intros Ha. apply Hm. by apply (S12 j). }
  destruct o as [a|].
  - rewrite slice_set_ok, Nat2Z.id by (unfold go_len; rewrite (sm_servers _ _ Hs1); lia). cbn [mbind outcome_bind]. eexists. split; [done|]. split; [|done].
    apply Hstep. intros a' Ha'. simpl. by rewrite lookup_alter_is_Some.
  - eexists. split; [done|]. split; [|done]. rewrite <-(list_insert_id (cservers c1) i None Ho) in Hstep. specialize (Hstep (mem c1) (λ _ H, H)).
    destruct c1. simpl in *. by rewrite list_insert_insert_eq, list_insert_id in Hstep.
Qed.

(** ** Runs *)

(** Starting a server needs no other one to be there; everything else is done when
    all are. *)
Lemma op_refines o c s : sim c s → full c → allowed o s → ∃ c', run_op o c = Ret c' ∧ sim c' (spec_op o s) ∧ full c'.
Proof.
  intros Hs Hf Ha. pose proof (sm_n c s Hs) as Hn.
  destruct o as [i to|i from| |p1 p2|draw r ck to|ck|ck to|ck from|i|draw i]; cbn [allowed run_op spec_op] in *; unfold below in Ha; rewrite <-?Hn in Ha; rewrite <-?Hn.
  - apply Forall_cons in Ha as [Hi Hto]. by apply (switched c _ _ s _ Hs Hf (switches_connect c s Hs Hf i to Hi Hto)), (toggles_const _ true).
  - destruct Ha as [[Hi Hfr]%Forall_cons Hlen].
    by apply (switched c _ _ s _ Hs Hf (switches_disconnect c s Hs Hf i from Hi Hfr Hlen)), (toggles_const _ false).
  - by apply (switched c _ _ s _ Hs Hf (switches_ConnectAll c s Hs Hf)), all_links.
  - destruct Ha as ([H1 H2]%Forall_app & L1 & L2 & Hd).
    apply (switched c _ (partition_toggles p1 p2) s _ Hs Hf); [|by apply partition_links].
    apply (switches_seq c _ _ _ _ (switches_side c s Hs Hf p1 p2 H1 H2 L2) (switches_side c s Hs Hf p2 p1 H2 H1 L1)).
  - destruct Ha as (Hto & Hck & Hr & Hfr).
    destruct (makeClient_sim draw r ck to c s Hs Hf) as (hs & c' & -> & _ & Hs' & Hf'); [by unfold below; rewrite <-Hn|done|by rewrite <-Hn|done|].
    exists c'. split; [done|]. cbn [spec_op] in Hs'. by rewrite <-Hn in Hs'.
  - eexists. split; [done|]. split; [|done]. rewrite Hn. by apply deleteClient_sim.
  - destruct Ha as [Hto Hck%(sm_dom c s Hs)]. by apply (switched c _ _ s _ Hs Hf (switches_clients c s Hs ck to true Hck Hto)), (toggles_const _ true).
  - destruct Ha as [Hfr Hck%(sm_dom c s Hs)]. by apply (switched c _ _ s _ Hs Hf (switches_clients c s Hs ck from false Hck Hfr)), (toggles_const _ false).
  - destruct (ShutdownServer_sim i c s Hs Hf Ha) as (c' & Hr & Hs' & Hf'). cbn [spec_op] in Hs'. rewrite <-Hn in Hs'. by exists c'.
  - destruct Ha as [Hi Hfr]. destruct (StartServer_sim draw c s i Hs Hi Hfr) as (c' & Hr & Hs' & Hn' & Hi' & Hst).
    exists c'. split; [done|]. cbn [spec_op] in Hs'. rewrite <-Hn in Hs'. split; [done|].
    intros j Hj. apply Hst, Hf. by rewrite <-Hn'.
Qed.

Lemma ops_refine os c s : sim c s → full c → allowed_all os s → ∃ c', for_each os run_op c = Ret c' ∧ sim c' (spec_ops os s) ∧ full c'.
Proof.
  revert c s. induction os as [|o os IH]; intros c s Hs Hf Ha; [by exists c|]. destruct Ha as [Ho Hos].
  destruct (op_refines o c s Hs Hf Ho) as (c1 & Hr & Hs1 & Hf1). cbn [for_each]. rewrite Hr. by apply IH.
Qed.

Lemma starts_refine draw k i c s : sim c s → allowed_all (starts draw i k) s → (i + k ≤ n c)%nat → (∀ j, (j < i)%nat → started c j) →
  ∃ c', for_range k (Z.of_nat i) (λ i c, StartServer (draw i) i c) c = Ret c' ∧ sim c' (spec_ops (starts draw i k) s) ∧
    n c' = n c ∧ ∀ j, (j < i + k)%nat → started c' j.
Proof.
  revert i c s. induction k as [|k IH]; intros i c s Hs Ha Hk Hst.
  { exists c. split; [done|]. split; [done|]. split; [done|]. intros j Hj. apply Hst. lia. }
  destruct Ha as [[Hi Hfr] Ha]. destruct (StartServer_sim (draw (Z.of_nat i)) c s i Hs ltac:(lia) Hfr) as (c1 & Hr & Hs1 & Hn1 & Hi1 & Ho1).
  cbn [for_range]. rewrite Hr. cbn [mbind outcome_bind]. replace (Z.of_nat i + 1) with (Z.of_nat (S i)) by lia.
  destruct (IH (S i) c1 _ Hs1 Ha) as (c' & Hr' & Hs' & Hn' & Hst'); [lia| |].
  { intros j Hj. destruct (decide (j = i)) as [->|]; [done|]. apply Ho1, Hst. lia. }
  exists c'. split; [done|]. split; [done|]. split; [congruence|]. intros j Hj. apply Hst'. lia.
Qed.

Lemma empty_sim k now : sim (empty_config k now) (empty_spec k).
Proof.
  assert (Hne : ∀ q, end_of (empty_config k now) q = None).
  { intros [[a b]|[a b]]; simpl; [|done]. destruct (replicate k None !! a) as [o|] eqn:E; [|done]. by apply lookup_replicate_1 in E as [-> _]. }
  assert (Hns : ∀ i, ¬ started (empty_config k now) i).
  { intros i [row Hrow]. simpl in Hrow. destruct (replicate k None !! i) as [o|] eqn:E; [|done]. by apply lookup_replicate_1 in E as [-> _]. }
  split; try done; try apply length_replicate.
  - intros i row Hi. by apply lookup_replicate_1 in Hi as [? _].
  - intros ck. simpl. split; [set_solver|by intros []].
  - intros q q' e. by rewrite Hne.
  - intros q e. by rewrite Hne.
  - intros i Hi. by destruct (Hns i).
  - intros i Hi. by destruct (Hns i).
  - intros i a. unfold addr. simpl. destruct (replicate k None !! i) as [o|] eqn:E; [|done]. by apply lookup_replicate_1 in E as [-> _].
Qed.

Lemma allowed_app os1 os2 s : allowed_all (os1 ++ os2) s ↔ allowed_all os1 s ∧ allowed_all os2 (spec_ops os1 s).
Proof. revert s. induction os1 as [|o os IH]; intros s; cbn; [tauto|]. rewrite IH. tauto. Qed.

Lemma make_config_refines k unreliable now draw : allowed_all (setup draw k) (empty_spec k) →
  ∃ c, make_config k unreliable now draw = Ret c ∧ sim c (spec_ops (setup draw k) (empty_spec k)) ∧ full c ∧ n c = k.
Proof.
  intros [Ha _]%allowed_app. unfold make_config. change (n (empty_config k now)) with k.
  destruct (starts_refine draw k 0 _ _ (empty_sim k now) Ha) as (c1 & Hr & Hs1 & Hn1 & Hst); [done|lia|].
  change (Z.of_nat 0) with 0 in Hr. rewrite Hr. cbn [mbind outcome_bind]. change (n (empty_config k now)) with k in Hn1.
  destruct (op_refines OConnectAll c1 _ Hs1) as (c2 & Hr2 & Hs2 & Hf2); [by intros j Hj; apply Hst; lia|done|].
  cbn [run_op] in Hr2. rewrite Hr2. cbn [mbind outcome_bind]. eexists. split; [done|].
  unfold setup, spec_ops. rewrite foldl_app. fold (spec_ops (starts draw 0 k) (empty_spec k)). cbn [foldl].
  assert (Hn2 : n c2 = k) by (rewrite (sm_n _ _ Hs2); cbn; rewrite <-(sm_n _ _ Hs1); done).
  split; [|split; [exact Hf2|exact Hn2]]. by destruct Hs2.
Qed.

Lemma spec_ops_n os s : sp_n (spec_ops os s) = sp_n s.
Proof.
  revert s. induction os as [|o os IH]; intros s; [done|]. change (spec_ops (o :: os) s) with (spec_ops os (spec_op o s)).
  rewrite IH. by destruct o.
Qed.

(** ** What tests ask *)

Lemma is_leader_sim c s i : sim c s → full c → (i < n c)%nat → ∃ b : bool, is_leader c (Z.of_nat i) = Ret b ∧ (b = true → i ∈ sp_up s).
Proof.
  intros Hs Hf Hi. unfold is_leader. destruct (lookup_lt_is_Some_2 (cservers c) i) as [o Ho]; [by rewrite (sm_servers c s Hs)|].
  rewrite slice_get_nat, Ho. cbn [mbind outcome_bind]. destruct o as [a|]; [|by exists false].
  assert (Ha : addr c i = Some a) by (unfold addr; by rewrite Ho). destruct (sm_mem c s Hs i a Ha) as [sc ->].
  eexists. split; [done|]. intros _. apply (sm_up c s Hs i (Hf i Hi)). by eexists.
Qed.

Lemma Leader_sim c s : sim c s → full c → ∃ (found : bool) l, Leader c = Ret (found, l) ∧ (found = true → 0 ≤ l ∧ Z.to_nat l ∈ sp_up s).
Proof.
  intros Hs Hf. unfold Leader. set (f := λ i : Z, b ← is_leader c i; Ret (if b : bool then Some i else None)).
  assert (Hfind : ∀ k i, (i + k ≤ n c)%nat → ∃ o, for_find k (Z.of_nat i) f = Ret o ∧ match o with Some x => 0 ≤ x ∧ Z.to_nat x ∈ sp_up s | None => True end).
  { induction k as [|k IH]; intros i Hk; [by exists None|]. cbn [for_find].
    destruct (is_leader_sim c s i Hs Hf ltac:(lia)) as (b & Hl & Hb).
    assert (f (Z.of_nat i) = Ret (if b then Some (Z.of_nat i) else None)) as -> by (unfold f; by rewrite Hl). cbn [mbind outcome_bind]. destruct b.
    - eexists. split; [done|]. split; [lia|]. rewrite Nat2Z.id. auto.
    - replace (Z.of_nat i + 1) with (Z.of_nat (S i)) by lia. apply IH. lia. }
  destruct (Hfind (n c) 0%nat) as (o & Ho & Hx); [lia|]. change (Z.of_nat 0) with 0 in Ho. rewrite Ho. cbn [mbind outcome_bind].
  destruct o as [x|]; eexists _, _; (split; [reflexivity|]); [auto|done].
Qed.

Lemma LogSize_sim c s : sim c s → full c → returns (LogSize c).
Proof.
  intros Hs Hf. unfold LogSize. match goal with |- context [for_range _ _ ?f _] => set (body := f) end. destruct (for_range_inv (λ _ _, True) body (n c) 0 0) as (m & Hm & _); [done| |by exists m].
  intros j m Hj _. unfold body. destruct (sm_store c s Hs j) as [ps Hps]; [apply Hf; lia|]. rewrite slice_get_nat, Hps. by eexists.
Qed.

(** A link that exists: both servers do, or the clerk is in use. *)
Definition link_exists (q : key) (s : net_spec) : Prop :=
  (target q < sp_n s)%nat ∧ match q with inl (i, _) => (i < sp_n s)%nat | inr (ck, _) => ck ∈ sp_clients s end.

Lemma link_info c s q : sim c s → full c → link_exists q s → ∃ e, end_of c q = Some e ∧
  readEndnameInfo (inl e) (net c) =
  (bool_decide (q ∈ sp_links s), Some (inr (Z.of_nat (target q))), addr c (target q), reliable (net c), longReordering (net c)).
Proof.
  intros Hs Hf [Ht Hq]. rewrite <-(sm_n c s Hs) in *. assert (He : ∃ e, end_of c q = Some e).
  { destruct q as [[i j]|[ck j]]; simpl in Ht.
    - destruct (end_of_server c s i j Hs (Hf i Hq) Ht) as (e & _ & He & _). by exists e.
    - destruct (end_of_client c s ck j Hs Hq Ht) as (e & _ & He & _). by exists e. }
  destruct He as [e He]. exists e. split; [done|]. destruct (sm_ends c s Hs q e He) as (_ & Hc & Hen).
  destruct (sm_up c s Hs (target q) (Hf _ Ht)) as [Hup _]. unfold readEndnameInfo. rewrite Hc, Hen. simpl. unfold lookup_server. rewrite Hup. done.
Qed.


End ShardCtrlerConfig.

(** ** Three servers and a clerk *)

(** A clerk is made, the servers are split, and server 0 is stopped and started. *)
Definition demo_ops : list op :=
  [OMakeClient (draw3 1 0) (λ _, 0) 7 [0; 1]%nat; OPartition [0; 1]%nat [2]%nat; OShutdown 0; OStart (draw3 2 0) 0].

#[local] Instance below_dec s l : Decision (below s l).
Proof. unfold below. apply _. Defined.

Lemma fresh_decide draw s : bool_decide (NoDup (draws draw (sp_n s)) ∧ Forall (λ e, e ∉ sp_names s) (draws draw (sp_n s))) = true → fresh draw s.
Proof. intros [Hn Hf]%bool_decide_eq_true. split; [done|]. by apply Forall_forall. Qed.

Lemma demo_allowed : allowed_all (setup (draw3 0) 3 ++ demo_ops) (empty_spec 3).
Proof.
  cbn [setup starts demo_ops seq fmap list_fmap app allowed_all allowed].
  repeat match goal with
  | |- _ ∧ _ => split
  | |- True => exact I
  | |- fresh _ _ => apply fresh_decide; vm_compute; reflexivity
  | |- below _ _ => refine (bool_decide_unpack _ _); vm_compute; exact I
  | |- _ ## _ => set_solver
  | |- _ ∉ _ => refine (bool_decide_unpack _ _); vm_compute; exact I
  | |- ∀ i, _ → _ => intros; lia
  | |- (_ ≤ _)%nat => vm_compute; lia
  | |- (_ < _)%nat => vm_compute; lia
  end.
Qed.

