(* ===== verification/OldPrograms.v ===== *)
(** * Lab2_MapReduce, main: the command-line programs of the other labs

    [diskvd.go], [lockc.go], [lockd.go], [pbc.go], [pbd.go] and [viewd.go]: programs
    that read their arguments and start a server or make one call of a client.  The
    packages they import (diskv, lockservice, pbservice, viewservice) are not in the
    repository: each is an interface here, over the state [W] of everything outside
    the program.  The theorems: which server [diskvd] starts for a list of flags, what
    it does with numbers that do not parse, and that every program either makes
    exactly the calls its arguments ask for or prints its usage. *)

From S2P Require Import Prelude GoFlags.
From stdpp Require Import pretty.
From Stdlib Require Import Ascii.
Open Scope string_scope.
Open Scope Z_scope.

(** How a program ends: [main] returns after printing [out]; [os.Exit(1)] after
    printing [out]; the program sleeps for ever; it kills itself. *)
Inductive ending (W : Type) := Returned (out : string) (w : W) | Stopped (out : string) | Sleeping (w : W) | Killed (w : W).
Arguments Returned {W} out w.
Arguments Stopped {W} out.
Arguments Sleeping {W} w.
Arguments Killed {W} w.

Definition newline : string := String "010" "".

(** ** diskvd *)

Module diskvd.

Class DiskV (W : Type) := {
  DiskKV : Type;
  StartServer : Z → list string → list string → Z → string → bool → W → outcome (DiskKV * W);
  Setunreliable : DiskKV → bool → W → outcome W
}.

(** The variables of [main]. *)
Record vars := mkVars { gid : Z; masters : list string; replicas : list string; me : Z; unreliable : bool; dir : string; restart : bool }.
Definition vars0 : vars := mkVars (-1) [] [] (-1) false "" false.

Definition usage {W} : ending W := Stopped ("Usage: diskvd -g gid -m master... -s server... -i my-index -d dir" +:+ newline).

(** One round of the loop; [None] is the call of [usage]. *)
Definition set_arg (a0 a1 : string) (v : vars) : option vars :=
  let '(mkVars g m s i u d r) := v in
  if decide (a0 = "-g") then Some (mkVars (ParseInt 10 a1).1 m s i u d r)
  else if decide (a0 = "-m") then Some (mkVars g (m ++ [a1])%list s i u d r)
  else if decide (a0 = "-s") then Some (mkVars g m (s ++ [a1])%list i u d r)
  else if decide (a0 = "-i") then Some (mkVars g m s (Atoi a1).1 u d r)
  else if decide (a0 = "-u") then Some (mkVars g m s i (default false (ParseBool a1)) d r)
  else if decide (a0 = "-d") then Some (mkVars g m s i u a1 r)
  else if decide (a0 = "-r") then Some (mkVars g m s i u d (default false (ParseBool a1)))
  else None.

(** The loop over pairs of arguments, from index 1: [args] is what is left. *)
Fixpoint read_args (args : list string) (v : vars) : option vars :=
  match args with
  | a0 :: a1 :: args' => v ← set_arg a0 a1 v; read_args args' v
  | _ => Some v
  end.

(** The guard after the loop. *)
Definition incomplete (v : vars) : bool :=
  (gid v <? 0) || (me v <? 0) || (go_len (masters v) <? 1) || (go_len (replicas v) <=? me v) || bool_decide (dir v = "").

Section Main.
Context {W : Type} `{DiskV W}.

(** [sleep] is what happens in the ten minutes before the program kills itself. *)
Definition main (sleep : W → W) (args : list string) (w : W) : outcome (ending W) :=
  match read_args (drop 1 args) vars0 with
  | None => Ret usage
  | Some v =>
      if incomplete v then Ret usage
      else
        '(srv, w) ← StartServer (gid v) (masters v) (replicas v) (me v) (dir v) (restart v) w;
        w ← Setunreliable srv (unreliable v) w;
        Ret (Killed (sleep w))
  end.
End Main.
End diskvd.

(** ** lockc and lockd *)

Class LockService (W : Type) := {
  LockClerk : Type;
  lock_MakeClerk : string → string → W → outcome (LockClerk * W);
  lock_Lock : LockClerk → string → W → outcome (bool * W);
  lock_Unlock : LockClerk → string → W → outcome (bool * W);
  lock_StartServer : string → string → bool → W → outcome W
}.

Module lockc.
Section Main.
Context {W : Type} `{LockService W}.

Definition usage : ending W := Stopped ("Usage: lockc -l|-u primaryport backupport lockname" +:+ newline).
Definition reply (ok : bool) : string := "reply: " +:+ (if ok then "true" else "false") +:+ newline.

Definition main (args : list string) (w : W) : outcome (ending W) :=
  if go_len args =? 5 then
    a2 ← slice_get args 2; a3 ← slice_get args 3;
    '(ck, w) ← lock_MakeClerk a2 a3 w;
    a1 ← slice_get args 1; a4 ← slice_get args 4;
    if decide (a1 = "-l") then '(ok, w) ← lock_Lock ck a4 w; Ret (Returned (reply ok) w)
    else if decide (a1 = "-u") then '(ok, w) ← lock_Unlock ck a4 w; Ret (Returned (reply ok) w)
    else Ret usage
  else Ret usage.
End Main.
End lockc.

Module lockd.
Section Main.
Context {W : Type} `{LockService W}.

(** [&&] evaluates [os.Args[1]] only when there are four arguments. *)
Definition is_cmd (args : list string) (flag : string) : outcome bool :=
  if go_len args =? 4 then a1 ← slice_get args 1; Ret (bool_decide (a1 = flag)) else Ret false.

Definition main (args : list string) (w : W) : outcome (ending W) :=
  primary ← is_cmd args "-p";
  if primary : bool then
    a2 ← slice_get args 2; a3 ← slice_get args 3; w ← lock_StartServer a2 a3 true w; Ret (Sleeping w)
  else
    backup ← is_cmd args "-b";
    if backup : bool then
      a2 ← slice_get args 2; a3 ← slice_get args 3; w ← lock_StartServer a2 a3 false w; Ret (Sleeping w)
    else Ret (Stopped ("Usage: lockd -p|-b primaryport backupport" +:+ newline)).
End Main.
End lockd.

(** ** pbc, pbd and viewd *)

Class PBService (W : Type) := {
  PBClerk : Type;
  pb_MakeClerk : string → string → W → outcome (PBClerk * W);
  pb_Get : PBClerk → string → W → outcome (string * W);
  pb_Put : PBClerk → string → string → W → outcome W;
  pb_StartServer : string → string → W → outcome W
}.
Class ViewService (W : Type) := { view_StartServer : string → W → outcome W }.

Module pbc.
Section Main.
Context {W : Type} `{PBService W}.

Definition usage : ending W := Stopped ("Usage: pbc viewport key" +:+ newline +:+ "       pbc viewport key value" +:+ newline).

Definition main (args : list string) (w : W) : outcome (ending W) :=
  if go_len args =? 3 then
    a1 ← slice_get args 1;
    '(ck, w) ← pb_MakeClerk a1 "" w;
    a2 ← slice_get args 2;
    '(v, w) ← pb_Get ck a2 w;
    Ret (Returned (v +:+ newline) w)
  else if go_len args =? 4 then
    a1 ← slice_get args 1;
    '(ck, w) ← pb_MakeClerk a1 "" w;
    a2 ← slice_get args 2; a3 ← slice_get args 3;
    w ← pb_Put ck a2 a3 w;
    Ret (Returned "" w)
  else Ret usage.
End Main.
End pbc.

Module pbd.
Definition main {W} `{PBService W} (args : list string) (w : W) : outcome (ending W) :=
  if negb (go_len args =? 3) then Ret (Stopped ("Usage: pbd viewport myport" +:+ newline))
  else
    a1 ← slice_get args 1; a2 ← slice_get args 2;
    w ← pb_StartServer a1 a2 w;
    Ret (Sleeping w).
End pbd.

Module viewd.
Definition main {W} `{ViewService W} (args : list string) (w : W) : outcome (ending W) :=
  if negb (go_len args =? 2) then Ret (Stopped ("Usage: viewd port" +:+ newline))
  else a1 ← slice_get args 1; w ← view_StartServer a1 w; Ret (Sleeping w).
End viewd.

(** ** What diskvd starts *)

Section Diskvd.
Import diskvd.

(** A flag with its value. *)
Inductive flag := Fg (n : Z) | Fm (port : string) | Fs (port : string) | Fi (n : Z) | Fu (b : bool) | Fd (path : string) | Fr (b : bool).

Definition show_bool (b : bool) : string := if b then "true" else "false".
Definition show_flag (f : flag) : list string :=
  match f with
  | Fg n => ["-g"; pretty n] | Fm p => ["-m"; p] | Fs p => ["-s"; p] | Fi n => ["-i"; pretty n]
  | Fu b => ["-u"; show_bool b] | Fd p => ["-d"; p] | Fr b => ["-r"; show_bool b]
  end.
Definition flag_ok (f : flag) : Prop := match f with Fg n | Fi n => is_int64 n | _ => True end.

(** The configuration a list of flags describes: ports in order, of the others the last. *)
Definition flag_g (f : flag) : option Z := match f with Fg n => Some n | _ => None end.
Definition flag_m (f : flag) : option string := match f with Fm p => Some p | _ => None end.
Definition flag_s (f : flag) : option string := match f with Fs p => Some p | _ => None end.
Definition flag_i (f : flag) : option Z := match f with Fi n => Some n | _ => None end.
Definition flag_u (f : flag) : option bool := match f with Fu b => Some b | _ => None end.
Definition flag_d (f : flag) : option string := match f with Fd p => Some p | _ => None end.
Definition flag_r (f : flag) : option bool := match f with Fr b => Some b | _ => None end.
Definition config_of (fl : list flag) : vars :=
  mkVars (default (-1) (last (omap flag_g fl))) (omap flag_m fl) (omap flag_s fl) (default (-1) (last (omap flag_i fl)))
    (default false (last (omap flag_u fl))) (default "" (last (omap flag_d fl))) (default false (last (omap flag_r fl))).

Lemma default_last {A B} (f : A → option B) (a : A) (l : list A) (d : B) : default d (last (omap f (a :: l))) = default (default d (f a)) (last (omap f l)).
Proof. cbn [omap list_omap]. destruct (f a) as [b|]; [|done]. rewrite last_cons. by destruct (last (omap f l)). Qed.

Lemma omap_step {A B} (f : A → option B) (a : A) (l : list A) (acc : list B) :
  (acc ++ omap f (a :: l) = (acc ++ match f a with Some b => [b] | None => [] end) ++ omap f l)%list.
Proof. cbn [omap list_omap]. destruct (f a); [by rewrite <-app_assoc|by rewrite app_nil_r]. Qed.

Lemma set_arg_flag f v : flag_ok f → ∃ a0 a1, show_flag f = [a0; a1] ∧
  set_arg a0 a1 v = Some (mkVars (default (gid v) (flag_g f)) (masters v ++ match flag_m f with Some b => [b] | None => [] end)
    (replicas v ++ match flag_s f with Some b => [b] | None => [] end) (default (me v) (flag_i f)) (default (unreliable v) (flag_u f))
    (default (dir v) (flag_d f)) (default (restart v) (flag_r f))).
Proof.
  intros Hf. destruct v as [g m s i u d r]. destruct f as [n|p|p|n|[]|p|[]]; do 2 eexists; (split; [reflexivity|]); cbn -[ParseInt pretty]; unfold Atoi;
    rewrite ?ParseInt_pretty, ?app_nil_r by (done || by right); reflexivity.
Qed.

Lemma read_args_flags fl v (extra : list string) : Forall flag_ok fl → (length extra ≤ 1)%nat →
  read_args (concat (show_flag <$> fl) ++ extra) v =
  Some (mkVars (default (gid v) (last (omap flag_g fl))) (masters v ++ omap flag_m fl) (replicas v ++ omap flag_s fl)
    (default (me v) (last (omap flag_i fl))) (default (unreliable v) (last (omap flag_u fl))) (default (dir v) (last (omap flag_d fl)))
    (default (restart v) (last (omap flag_r fl)))).
Proof.
  intros Hf Hx. revert v. induction Hf as [|f fl Hf _ IH]; intros v.
  - destruct v as [g m s i u d r], extra as [|x [|y extra]]; cbn in *; [by rewrite !app_nil_r..|lia].
  - destruct (set_arg_flag f v Hf) as (a0 & a1 & Hs & Hset). rewrite fmap_cons, Hs. cbn [concat app read_args]. rewrite Hset. cbn [mbind option_bind].
    rewrite IH. cbn [gid masters replicas me unreliable dir restart]. by rewrite !default_last, !omap_step.
Qed.

Lemma read_args_config fl extra : Forall flag_ok fl → (length extra ≤ 1)%nat → read_args (concat (show_flag <$> fl) ++ extra) vars0 = Some (config_of fl).
Proof. intros Hf Hx. by rewrite read_args_flags. Qed.

Context {W : Type} `{DiskV W}.

(** Whatever flags the command line has, in whatever order, [diskvd] starts exactly the
    server they describe, or prints the usage and exits when they describe none; an
    argument left over at the end is ignored. *)
Theorem diskvd_starts_configured (sleep : W → W) (prog : string) (fl : list flag) (extra : list string) (w : W) :
  Forall flag_ok fl → (length extra ≤ 1)%nat →
  let v := config_of fl in
  main sleep (prog :: concat (show_flag <$> fl) ++ extra)%list w =
    if incomplete v then Ret usage
    else '(srv, w1) ← StartServer (gid v) (masters v) (replicas v) (me v) (dir v) (restart v) w;
         w2 ← Setunreliable srv (unreliable v) w1; Ret (Killed (sleep w2)).
Proof. intros Hf Hx v. unfold main. rewrite skipn_cons, drop_0. by rewrite (read_args_config fl extra). Qed.

Definition known_flags : list string := ["-g"; "-m"; "-s"; "-i"; "-u"; "-d"; "-r"].

Lemma set_arg_unknown a0 a1 v : a0 ∉ known_flags → set_arg a0 a1 v = None.
Proof. intros Ha. unfold set_arg. destruct v. repeat (rewrite decide_False by (intros ->; apply Ha; unfold known_flags; set_solver)). done. Qed.

(** An unknown flag anywhere among the pairs stops the program before anything starts. *)
Theorem diskvd_unknown_flag (sleep : W → W) (prog : string) (fl : list flag) (a0 a1 : string) (rest : list string) (w : W) :
  Forall flag_ok fl → a0 ∉ known_flags → main sleep (prog :: concat (show_flag <$> fl) ++ a0 :: a1 :: rest)%list w = Ret usage.
Proof.
  intros Hf Ha. unfold main. rewrite skipn_cons, drop_0. enough (∀ v, read_args (concat (show_flag <$> fl) ++ a0 :: a1 :: rest) v = None) as -> by done.
  induction Hf as [|f fl Hf _ IH]; intros v; [cbn; by rewrite set_arg_unknown|].
  destruct (set_arg_flag f v Hf) as (b0 & b1 & Hs & Hset). rewrite fmap_cons, Hs. cbn [concat app read_args]. rewrite Hset. cbn [mbind option_bind]. apply IH.
Qed.

(** A group id or an index that is no number counts as 0: the program starts group 0. *)
Lemma diskvd_bad_number : read_args ["-g"; "abc"; "-m"; "p"; "-s"; "q"; "-i"; "1x"; "-d"; "/tmp"] vars0 = Some (mkVars 0 ["p"] ["q"] 0 false "/tmp" false).
Proof. reflexivity. Qed.
End Diskvd.

(** ** The clients *)

(** [lockc] asks for the lock or releases it according to its first argument, and
    prints the answer. *)
Theorem lockc_calls {W} `{LockService W} (args : list string) (w : W) :
  lockc.main args w =
    match args with
    | [_; cmd; primary; backup; name] =>
        '(ck, w1) ← lock_MakeClerk primary backup w;
        if decide (cmd = "-l") then '(ok, w2) ← lock_Lock ck name w1; Ret (Returned (lockc.reply ok) w2)
        else if decide (cmd = "-u") then '(ok, w2) ← lock_Unlock ck name w1; Ret (Returned (lockc.reply ok) w2)
        else Ret lockc.usage
    | _ => Ret lockc.usage
    end.
Proof.
  unfold lockc.main. destruct args as [|a0 [|a1 [|a2 [|a3 [|a4 [|a5 args]]]]]]; try reflexivity.
  rewrite (proj2 (Z.eqb_neq _ _)); [done|]. unfold go_len. cbn [length]. lia.
Qed.

(** [pbc] gets with two arguments and puts with three. *)
Lemma pbc_calls {W} `{PBService W} (prog view key value : string) (w : W) :
  pbc.main [prog; view; key] w = ('(ck, w) ← pb_MakeClerk view "" w; '(v, w) ← pb_Get ck key w; Ret (Returned (v +:+ newline) w)) ∧
  pbc.main [prog; view; key; value] w = ('(ck, w) ← pb_MakeClerk view "" w; w ← pb_Put ck key value w; Ret (Returned "" w)).
Proof. done. Qed.

(** A [pbc] that puts a value and a [pbc] that gets it afterwards: when the service
    stores what it is given, the second prints it. *)
Theorem pbc_put_get {W} `{PBService W} (store : W → string → string → Prop) (prog view key value : string) (w w1 : W) (out : string) :
  (∀ ck w w', pb_Put ck key value w = Ret w' → store w' key value) →
  (∀ v p w ck w', pb_MakeClerk v p w = Ret (ck, w') → store w key value → store w' key value) →
  (∀ ck w v w', store w key value → pb_Get ck key w = Ret (v, w') → v = value) →
  pbc.main [prog; view; key; value] w = Ret (Returned out w1) →
  out = "" ∧ ∀ out' w2, pbc.main [prog; view; key] w1 = Ret (Returned out' w2) → out' = value +:+ newline.
Proof.
  intros Hput Hmake Hget Hp. rewrite (proj2 (pbc_calls _ _ _ _ _)) in Hp.
  apply bind_Ret_inv in Hp as ((ck & w') & _ & Hp). apply bind_Ret_inv in Hp as (w'' & Hw & [= <- <-]). split; [done|].
  intros out' w2 Hg. rewrite (proj1 (pbc_calls _ _ _ value _)) in Hg. apply bind_Ret_inv in Hg as ((ck' & w3) & Hm & Hg). apply bind_Ret_inv in Hg as ((v & w4) & Hv & [= <- <-]).
  by rewrite (Hget _ _ _ _ (Hmake _ _ _ _ _ Hm (Hput _ _ _ Hw)) Hv).
Qed.

(** Each server program starts its server with its arguments, once, and then sleeps. *)
Theorem server_programs_start {W} `{LockService W} `{PBService W} `{ViewService W} (prog a b : string) (w : W) :
  lockd.main [prog; "-p"; a; b] w = (w ← lock_StartServer a b true w; Ret (Sleeping w)) ∧
  lockd.main [prog; "-b"; a; b] w = (w ← lock_StartServer a b false w; Ret (Sleeping w)) ∧
  pbd.main [prog; a; b] w = (w ← pb_StartServer a b w; Ret (Sleeping w)) ∧
  viewd.main [prog; a] w = (w ← view_StartServer a w; Ret (Sleeping w)).
Proof. done. Qed.

(** With any other number of arguments they start nothing. *)
Theorem server_programs_usage {W} `{LockService W} `{PBService W} `{ViewService W} (args : list string) (w : W) :
  (length args ≠ 4%nat → ∃ out, lockd.main args w = Ret (Stopped out)) ∧
  (length args ≠ 3%nat → ∃ out, pbd.main args w = Ret (Stopped out)) ∧
  (length args ≠ 2%nat → ∃ out, viewd.main args w = Ret (Stopped out)).
Proof.
  unfold lockd.main, lockd.is_cmd, pbd.main, viewd.main, go_len.
  repeat split; intros Hl; rewrite (proj2 (Z.eqb_neq _ _)) by lia; by eexists.
Qed.
