(* ===== verification/TourOfGo.v ===== *)
(** * ATourOfGo: the exercises

    [hello.go]: [WordCount], the [fibonacci] closure, [Pic] and [main].  A closure is
    its captured variables with the function on them; [make] on a negative length
    panics; the random numbers are an argument ([rnd k] is the result of the k-th call
    of [rand.Intn]).  [strings.Fields] works on bytes: it knows the UTF-8 encodings
    of the white-space characters.  The theorems: [WordCount] counts the occurrences
    of every word, the n-th call of the closure gives the n-th Fibonacci number wrapped
    to 64 bits, and [Pic] panics exactly when the picture is wider than high. *)

From S2P Require Import Prelude.
From Stdlib Require Import Ascii.
Open Scope string_scope.
Open Scope Z_scope.

(** ** [strings.Fields] *)

Definition byte_at (n : nat) (s : string) : nat := match String.get n s with Some c => nat_of_ascii c | None => 0%nat end.

(** The length in bytes of the white-space character a string starts with; 0 if it
    starts with none. *)
Definition space_len (s : string) : nat :=
  let b0 := byte_at 0 s in let b1 := byte_at 1 s in let b2 := byte_at 2 s in
  if (Nat.leb 9 b0 && Nat.leb b0 13) || Nat.eqb b0 32 then 1                     (* U+0009 .. U+000D, U+0020 *)
  else if Nat.eqb b0 194 && (Nat.eqb b1 133 || Nat.eqb b1 160) then 2            (* U+0085, U+00A0 *)
  else if Nat.eqb b0 225 && Nat.eqb b1 154 && Nat.eqb b2 128 then 3              (* U+1680 *)
  else if Nat.eqb b0 226 && Nat.eqb b1 128 &&
          ((Nat.leb 128 b2 && Nat.leb b2 138) || Nat.eqb b2 168 || Nat.eqb b2 169 || Nat.eqb b2 175) then 3  (* U+2000 .. U+200A, U+2028, U+2029, U+202F *)
  else if Nat.eqb b0 226 && Nat.eqb b1 129 && Nat.eqb b2 159 then 3              (* U+205F *)
  else if Nat.eqb b0 227 && Nat.eqb b1 128 && Nat.eqb b2 128 then 3              (* U+3000 *)
  else 0.

Definition emit (word : string) (l : list string) : list string := if decide (word = "") then l else word :: l.

(** [word] is the field being read, [skip] the bytes left of a white-space character. *)
Fixpoint fields_go (s : string) (skip : nat) (word : string) : list string :=
  match s with
  | EmptyString => emit word []
  | String c s' =>
      match skip with
      | S skip' => fields_go s' skip' word
      | O => match space_len s with
             | O => fields_go s' 0 (word +:+ String c "")
             | S k => emit word (fields_go s' k "")
             end
      end
  end.
Definition Fields (s : string) : list string := fields_go s 0 "".

(** ** WordCount *)

(** [counts[key]++] *)
Definition incr (key : string) (counts : gmap string Z) : gmap string Z := <[key := default 0 (counts !! key) + 1]> counts.
Definition WordCount (s : string) : gmap string Z := foldl (λ counts key, incr key counts) ∅ (Fields s).

(** ** fibonacci *)

(** Conversion to a signed 64-bit integer. *)
Definition int64 (z : Z) : Z := (z + 2 ^ 63) mod 2 ^ 64 - 2 ^ 63.

Record fib_vars := mkFib { prev : Z; prev2 : Z }.
Definition fibonacci : fib_vars := mkFib 0 1.
Definition fib_call (f : fib_vars) : Z * fib_vars := (prev f, mkFib (prev2 f) (int64 (prev f + prev2 f))).

(** ** Pic *)

Definition make_slice {A} (zero : A) (n : Z) : outcome (list A) := if n <? 0 then Panic else Ret (replicate (Z.to_nat n) zero).

Section Random.
Variable rnd : nat → Z.

(** [arr[i][j] = uint8(rand.Intn(255))] for every [j]; the second component counts the
    calls of [rand.Intn]. *)
Definition fill_row (i dx : Z) (st : list (list Z) * nat) : outcome (list (list Z) * nat) :=
  for_range (Z.to_nat dx) 0 (λ j '(arr, k),
    row ← slice_get arr i; row ← slice_set row j (rnd k mod 256); arr ← slice_set arr i row; Ret (arr, S k)) st.

(** The rows that are never assigned stay nil, here the empty list. *)
Definition Pic (dx dy : Z) : outcome (list (list Z)) :=
  arr ← make_slice [] dy;
  '(arr, _) ← for_range (Z.to_nat dx) 0 (λ i '(arr, k),
    row ← make_slice 0 dx; arr ← slice_set arr i row; fill_row i dx (arr, k)) (arr, 0%nat);
  Ret arr.

Definition ifStateMents : list string := let x := rnd 0 in let v := rnd 1 in if v <? x then ["X is greater"] else [].
End Random.

(** The numbers [k] calls of a closure print. *)
Fixpoint calls (k : nat) (f : fib_vars) : list Z * fib_vars :=
  match k with O => ([], f) | S k' => let '(x, f) := fib_call f in let '(xs, f) := calls k' f in (x :: xs, f) end.

Definition main (rnd : nat → Z) : list string * list Z := (ifStateMents rnd, (calls 20 fibonacci).1).

(** ** Words *)

Definition occurrences (w : string) (l : list string) : nat := length (filter (λ x, x = w) l).

Lemma foldl_incr l m w : foldl (λ counts key, incr key counts) m l !! w =
  if decide (w ∈ l) then Some (default 0 (m !! w) + Z.of_nat (occurrences w l)) else m !! w.
Proof.
  revert m. induction l as [|x l IH]; intros m; cbn [foldl]; [by rewrite decide_False by (by intros ?%elem_of_nil)|].
  rewrite IH. unfold occurrences, incr. rewrite filter_cons. destruct (decide (x = w)) as [->|Hx].
  - rewrite lookup_insert_eq, (decide_True (P := w ∈ w :: l)) by (by left). cbn [length default].
    case_decide as Hw; [f_equal; unfold id; lia|]. f_equal. enough (filter (λ x, x = w) l = []) as -> by (simpl; lia).
    apply elem_of_nil_inv. intros y [Hy Hin]%list_elem_of_filter. by subst y.
  - rewrite lookup_insert_ne by done. destruct (decide (w ∈ l)) as [Hw|Hw].
    + by rewrite decide_True by (by right).
    + by rewrite decide_False by (intros [->|?]%elem_of_cons; done).
Qed.

(** The count of a word is the number of times it occurs among the fields; a word that
    does not occur has no entry. *)
Theorem WordCount_counts (s w : string) :
  WordCount s !! w = if decide (w ∈ Fields s) then Some (Z.of_nat (occurrences w (Fields s))) else None.
Proof. unfold WordCount. by rewrite foldl_incr, lookup_empty. Qed.

(** Printable ASCII other than white space. *)
Definition plain (c : ascii) : Prop := (33 ≤ nat_of_ascii c < 128)%nat.
Fixpoint plain_word (w : string) : Prop := match w with EmptyString => True | String c w' => plain c ∧ plain_word w' end.

Lemma space_len_plain c s : plain c → space_len (String c s) = O.
Proof.
  unfold plain. intros Hc. unfold space_len. change (byte_at 0 (String c s)) with (nat_of_ascii c). generalize (byte_at 1 (String c s)) (byte_at 2 (String c s)).
  intros b1 b2. rewrite !(proj2 (Nat.eqb_neq (nat_of_ascii c) _)), (proj2 (Nat.leb_gt (nat_of_ascii c) 13)), andb_false_r by lia. done.
Qed.

Lemma append_assoc (a b c : string) : (a +:+ b) +:+ c = a +:+ (b +:+ c).
Proof. induction a as [|x a IH]; [done|]. exact (f_equal (String x) IH). Qed.

Lemma fields_go_word w s word : plain_word w → fields_go (w +:+ s) 0 word = fields_go s 0 (word +:+ w).
Proof.
  revert word. induction w as [|c w IH]; intros word; cbn [plain_word].
  - intros _. assert (word +:+ "" = word) as -> by (induction word as [|x word IHw]; [done|]; exact (f_equal (String x) IHw)). done.
  - intros [Hc Hw]. change (String c w +:+ s) with (String c (w +:+ s)). cbn [fields_go]. rewrite space_len_plain by done. rewrite IH by done. by rewrite append_assoc.
Qed.

(** Joining words with blanks and splitting gives the words back. *)
Fixpoint unfields (l : list string) : string := match l with [] => "" | w :: l' => w +:+ " " +:+ unfields l' end.

Theorem Fields_unfields (l : list string) : Forall (λ w, plain_word w ∧ w ≠ "") l → Fields (unfields l) = l.
Proof.
  unfold Fields. induction 1 as [|w l [Hw Hne] _ IH]; [done|]. cbn [unfields]. rewrite fields_go_word by done.
  change (" " +:+ unfields l) with (String " " (unfields l)). cbn [fields_go]. change (space_len (String " " (unfields l))) with 1%nat. cbv iota.
  rewrite IH. unfold emit. by rewrite decide_False.
Qed.

(** ** Fibonacci *)

Fixpoint fib_pair (n : nat) : Z * Z := match n with O => (0, 1) | S n' => let '(a, b) := fib_pair n' in (b, a + b) end.
Definition fib (n : nat) : Z := (fib_pair n).1.

Lemma int64_add a b : int64 (int64 a + int64 b) = int64 (a + b).
Proof.
  unfold int64. f_equal. replace ((a + 2 ^ 63) mod 2 ^ 64 - 2 ^ 63 + ((b + 2 ^ 63) mod 2 ^ 64 - 2 ^ 63) + 2 ^ 63)
    with ((a + 2 ^ 63) mod 2 ^ 64 + ((b + 2 ^ 63) mod 2 ^ 64 - 2 ^ 63)) by lia.
  rewrite Zplus_mod_idemp_l. replace (a + 2 ^ 63 + ((b + 2 ^ 63) mod 2 ^ 64 - 2 ^ 63)) with ((b + 2 ^ 63) mod 2 ^ 64 + a) by lia.
  rewrite Zplus_mod_idemp_l. f_equal. lia.
Qed.

Lemma int64_idemp a : int64 (int64 a) = int64 a.
Proof. unfold int64. rewrite Z.sub_add, Z.mod_mod by lia. done. Qed.

Definition fib_at (n : nat) : fib_vars := mkFib (int64 (fib_pair n).1) (int64 (fib_pair n).2).

Lemma fib_call_at n : fib_call (fib_at n) = (int64 (fib n), fib_at (S n)).
Proof. unfold fib_call, fib_at, fib. cbn [prev prev2 fib_pair]. destruct (fib_pair n) as [a b]. cbn [fst snd]. by rewrite int64_add. Qed.

Lemma calls_at k n : calls k (fib_at n) = ((λ i, int64 (fib i)) <$> seq n k, fib_at (n + k)).
Proof.
  revert n. induction k as [|k IH]; intros n; cbn [calls seq]; [by rewrite Nat.add_0_r|]. rewrite fib_call_at, IH, fmap_cons. by rewrite Nat.add_succ_comm.
Qed.

(** The calls of the closure return the Fibonacci numbers in order, wrapped to 64 bits
    (from the 93rd on they no longer fit). *)
Theorem fibonacci_calls (k : nat) : (calls k fibonacci).1 = (λ i, int64 (fib i)) <$> seq 0 k.
Proof. change fibonacci with (fib_at 0). by rewrite calls_at. Qed.

Lemma fib_overflows : (calls 94 fibonacci).1 !! 92%nat = Some (fib 92) ∧ (calls 94 fibonacci).1 !! 93%nat = Some (fib 93 - 2 ^ 64).
Proof. split; vm_compute; reflexivity. Qed.

Theorem main_prints (rnd : nat → Z) :
  (main rnd).2 = [0; 1; 1; 2; 3; 5; 8; 13; 21; 34; 55; 89; 144; 233; 377; 610; 987; 1597; 2584; 4181].
Proof. reflexivity. Qed.

(** ** Pic *)

Section PicSpec.
Variable rnd : nat → Z.

(** A row that has been filled. *)
Definition row_ok (dx : Z) (row : list Z) : Prop := go_len row = dx ∧ Forall (λ b, 0 ≤ b < 256) row.

Lemma fill_row_ok arr i dx k row : 0 ≤ dx → arr !! i = Some row → row_ok dx row →
  ∃ row' k', fill_row rnd (Z.of_nat i) dx (arr, k) = Ret (<[i := row']> arr, k') ∧ row_ok dx row'.
Proof.
  intros Hdx Hrow Hok. unfold fill_row. change 0 with (Z.of_nat 0).
  destruct (for_range_inv (λ _ st, ∃ row', row_ok dx row' ∧ st.1 = <[i := row']> arr)
    (λ j '(arr, k), row ← slice_get arr (Z.of_nat i); row ← slice_set row j (rnd k mod 256); arr ← slice_set arr (Z.of_nat i) row; Ret (arr, S k))
    (Z.to_nat dx) 0 (arr, k)) as ((arr' & k') & -> & row' & Hok' & Harr).
  - exists row. split; [done|]. simpl. by rewrite list_insert_id.
  - intros j [a k0] Hj (r & [Hr1 Hr2] & Ha). simpl in Ha. subst a. assert (Hi : (i < length arr)%nat) by (by eapply lookup_lt_Some).
    rewrite slice_get_nat, list_lookup_insert_eq by done. cbn [mbind outcome_bind]. rewrite (slice_set_ok r) by lia. cbn [mbind outcome_bind].
    rewrite slice_set_ok by (unfold go_len; rewrite length_insert; lia). cbn [mbind outcome_bind]. eexists. split; [done|]. rewrite !Nat2Z.id, list_insert_insert_eq.
    eexists. split; [|done]. split; [unfold go_len in *; by rewrite length_insert|]. apply Forall_insert; [done|]. apply Z.mod_pos_bound. lia.
  - simpl in Harr. subst arr'. by eexists _, _.
Qed.

(** One round of the outer loop. *)
Definition pic_row (dx : Z) : Z → list (list Z) * nat → outcome (list (list Z) * nat) :=
  λ i '(arr, k), row ← make_slice 0 dx; arr ← slice_set arr i row; fill_row rnd i dx (arr, k).

Definition pic_ok (dx : Z) (n : nat) (arr : list (list Z)) (dy : Z) : Prop :=
  go_len arr = dy ∧ ∀ i row, arr !! i = Some row → if decide (i < n)%nat then row_ok dx row else row = [].

Lemma pic_row_ok dx dy n arr k : 0 ≤ dx → Z.of_nat n < dy → pic_ok dx n arr dy →
  ∃ arr' k', pic_row dx (Z.of_nat n) (arr, k) = Ret (arr', k') ∧ pic_ok dx (S n) arr' dy.
Proof.
  intros Hdx Hn [Hl Hrows]. unfold pic_row, make_slice. rewrite (proj2 (Z.ltb_ge _ _)) by lia. cbn [mbind outcome_bind].
  rewrite slice_set_ok by lia. cbn [mbind outcome_bind]. rewrite Nat2Z.id.
  assert (Hi : (n < length arr)%nat) by (unfold go_len in Hl; lia).
  destruct (fill_row_ok (<[n := replicate (Z.to_nat dx) 0]> arr) n dx k (replicate (Z.to_nat dx) 0)) as (row' & k' & -> & Hok); [done|by apply list_lookup_insert_eq| |].
  { split; [unfold go_len; rewrite length_replicate; lia|]. apply Forall_replicate. lia. }
  eexists _, _. split; [done|]. rewrite list_insert_insert_eq. split; [unfold go_len in *; by rewrite length_insert|].
  intros i row Hrow. destruct (decide (i = n)) as [->|Hne].
  - rewrite list_lookup_insert_eq in Hrow by done. injection Hrow as <-. by rewrite decide_True by lia.
  - rewrite list_lookup_insert_ne in Hrow by done. specialize (Hrows i row Hrow). repeat case_decide; try done; lia.
Qed.

Lemma pic_rows dx dy n k : 0 ≤ dx → 0 ≤ dy → Z.of_nat n ≤ dy →
  ∃ arr k', for_range n 0 (pic_row dx) (replicate (Z.to_nat dy) [], k) = Ret (arr, k') ∧ pic_ok dx n arr dy.
Proof.
  intros Hdx Hdy Hn. change 0 with (Z.of_nat 0).
  destruct (for_range_inv (λ i st, pic_ok dx i st.1 dy) (pic_row dx) n 0 (replicate (Z.to_nat dy) [], k)) as ((arr & k') & Hr & Hok).
  - split; [unfold go_len; simpl; rewrite length_replicate; lia|]. intros i row [-> _]%lookup_replicate. by rewrite decide_False by lia.
  - intros j [a k0] Hj Ha. destruct (pic_row_ok dx dy j a k0) as (a' & k' & Hrow & Ha'); [done|lia|done|]. exists (a', k'). by split.
  - by exists arr, k'.
Qed.

Lemma pic_row_out dx i arr k : 0 ≤ dx → go_len arr ≤ i → pic_row dx i (arr, k) = Panic.
Proof.
  intros Hdx Hi. unfold pic_row, make_slice. rewrite (proj2 (Z.ltb_ge _ _)) by lia. cbn [mbind outcome_bind]. unfold slice_set, go_len in *.
  rewrite (proj2 (Z.ltb_ge _ _)) by lia. by rewrite lookup_ge_None_2 by lia.
Qed.

Lemma for_range_app {S} (m n : nat) i (body : Z → S → outcome S) s : for_range (m + n) i body s = (s ← for_range m i body s; for_range n (i + Z.of_nat m) body s).
Proof.
  revert i s. induction m as [|m IH]; intros i s; cbn [for_range Nat.add]; [simpl; by rewrite Z.add_0_r|].
  destruct (body i s) as [s1| |]; [|done..]. cbn [mbind outcome_bind]. rewrite IH. by replace (i + 1 + Z.of_nat m) with (i + Z.of_nat (Datatypes.S m)) by lia.
Qed.

(** What [Pic] gives: with [dx <= dy] a slice of [dy] rows of which the first [dx] hold
    [dx] bytes each and the others are nil; wider than high, or with a negative
    height, it panics. *)
Theorem Pic_cases (dx dy : Z) : 0 ≤ dx →
  (dx ≤ dy → ∃ arr, Pic rnd dx dy = Ret arr ∧ pic_ok dx (Z.to_nat dx) arr dy) ∧ (dy < dx → Pic rnd dx dy = Panic).
Proof.
  intros Hdx. unfold Pic. change (λ i '(arr, k), row ← make_slice 0 dx; arr ← slice_set arr i row; fill_row rnd i dx (arr, k)) with (pic_row dx). split; intros Hd.
  - unfold make_slice at 1. rewrite (proj2 (Z.ltb_ge _ _)) by lia. cbn [mbind outcome_bind].
    destruct (pic_rows dx dy (Z.to_nat dx) 0) as (arr & k' & -> & Hok); [lia..|]. by exists arr.
  - unfold make_slice at 1. destruct (Z.ltb_spec dy 0); [done|]. cbn [mbind outcome_bind].
    replace (Z.to_nat dx) with (Z.to_nat dy + S (Z.to_nat (dx - dy - 1)))%nat by lia. rewrite for_range_app.
    destruct (pic_rows dx dy (Z.to_nat dy) 0) as (arr & k' & -> & Hlen & _); [lia..|]. cbn [mbind outcome_bind for_range].
    by rewrite pic_row_out by lia.
Qed.
End PicSpec.
